(* ===== verification/_CoqProject ===== *)
-Q . S2P
Prelude.v
Replay.v
Fs.v
ReplayPersist.v
F64.v
F64Bounds.v
F64Error.v
RateLimit.v
RateBounds.v
Rand.v
Delay.v
Logarithm.v
DelayLaw.v
Text.v
Net.v
Gotham.v
Process.v
Wire.v
Services.v
Pool.v
Server.v
Client.v
Timing.v
Messages.v
Cover.v
Enroll.v
Keys.v
Doctor.v
Boot.v
Restart.v
Endpoint.v
Listener.v
Concurrency.v
Snapshots.v
Daemon.v
Throughput.v
Sources.v
Testnet.v
Conformance.v
ConformanceNet.v
ConformanceDelay.v
