(* ===== verification/Prelude.v ===== *)
(** * Gotham relay: a verification development of [crypto-gotham-relay]

    The crate is the relay daemon of a mix network and its client library.  A
    client wraps a message in one layer per relay of a path; each relay opens
    its layer, checks that it has not seen the packet before, waits, and
    forwards the rest; the last one delivers.  Around this core are rate
    limits, a connection pool, QUIC and Noise transport, a store-and-forward
    mailbox, cover traffic, enrolment with directory authorities and a command
    line.  Paths below are relative to src/crypto-gotham-relay/src/.

    ** The files

    - [Prelude]: results, machine integers, time, bytes, lists; [Fs]: files as
      a map from paths to contents and modes, every call with an optional
      fault; [Text] and [Net]: UTF-8 strings, trimming, and the address parsers
      of the Standard Library; [F64], [F64Bounds] and [F64Error]: IEEE
      binary64 arithmetic, the size of its results and their rounding errors;
      [Rand]: random generators as a class.
    - [Replay] (replay.rs, [ReplayCache]) and [ReplayPersist] (replay.rs,
      [persist]): the replay cache as a map and a queue, and its file.
    - [RateLimit] (rate_limit.rs): token bucket in floats, daily byte budget,
      table of sources; [RateBounds]: its packet rate.
    - [Delay] (delay.rs): exponential delays by inversion, in floats;
      [Logarithm]: what a logarithm of a known accuracy is, and an executable
      one; [DelayLaw]: the delays against the exact function on the reals.
    - [Gotham]: the packet format of the [crypto_gotham] crate as the classes
      [Gotham] and [Route] with their laws; [Toy] is an executable instance.
    - [Process] (process.rs): [Relay] and [Relay::process], every early return
      in order.
    - [Wire] (transport.rs): Noise frames, messages, blobs and handshakes over
      byte streams; [Services] (transport.rs): delivery handlers, mailbox,
      gossip and rendezvous-query connections; [Server] (transport.rs): packet
      connections, dispatch by protocol, forwarding; [Endpoint]
      (transport.rs): TLS and QUIC endpoints and the negotiation of the
      application protocol.
    - [Pool] (pool.rs): concurrent sends over pooled connections as a step
      relation.
    - [Client] (client.rs): building and sending packets; [Timing]: how long a
      packet waits at the relays of its path; [Messages]
      (transport.rs and client.rs): the texts of errors; [Cover]
      (cover_loop.rs): the cover-traffic task as a machine that interleaves
      with pushes to its queue; [Enroll] (enroll_client.rs): the enrolment loop.
    - [Keys], [Doctor] and [Boot] (main.rs): key files and mailbox store,
      diagnosis and self-check, the [run] and [sign-directory] commands;
      [Restart] puts [Boot], [Process] and [ReplayPersist] together.
    - [Listener] (transport.rs, delay.rs and the housekeeping tasks of
      main.rs): the running relay as one machine, in which connections, delayed
      packets, deliveries and housekeeping are jobs that interleave over the
      shared relay, mailbox and network; [Concurrency]: its invariants;
      [Snapshots]: what its persistence task leaves on the disk.
    - [Daemon] (main.rs): the command line as data, [run_daemon] from its
      start to its shutdown around that machine, the signals that end it, and
      [main]; [Throughput]: what the limits of its flags mean for the running
      daemon; [Sources]: the same for the limit per address.
    - [Testnet] (../examples/testnet_send.rs): the example program.
    - [Conformance], [ConformanceNet] and [ConformanceDelay]: the unit tests of the crate,
      translated like its other functions.  A test is [Some tt] when it passes;
      [converse] runs the two ends of a connection against each other.

    ** How the model follows the code

    A struct is a record with the names of its fields, an enum an inductive
    type; a method is a function that returns the new state.  Errors are
    [result], a panic is [None], an await that need not complete is [Block].
    Clock readings, random generators and answers of the network are
    arguments, so theorems hold for all of them.  What is compiled for Unix only
    is a branch on [cfg_unix] of the class [Platform].  Unsigned integers are [Z]
    with saturation and wrapping written out; floats are IEEE 754 values.  A
    [HashMap] iterates in any order ([HashOrder]).  A lock is a step that
    nothing interrupts; between two locks other tasks may run, which [Pool],
    [Cover] and [Listener] model as interleavings.  In [Listener] a task that asks
    the network for something (to send a packet or a reply, to keep a tunnel)
    waits until the network answers, which it need never do.  [Server] and [Services]
    say what one connection does when it runs alone; [Listener] cuts the same
    code at its awaits, and [Concurrency] relates the two.  The crates the code calls
    ([crypto_gotham], [snow], [quinn], [reqwest], [hex], [rand], [serde]) are
    type classes or arguments, with the laws a theorem needs in a class of its
    own and an executable instance that satisfies them for the witnesses.

    ** What is shown

    - Replay protection: the cache refines a history of accepted keys
      ([Replay]); a relay accepts no header MAC twice within its window
      ([Process]), nor across a restart from its file ([Restart]); the file is
      replaced atomically, unless its own name ends in [.tmp], and corrupt files
      are refused ([ReplayPersist]), so that a crash at any point leaves a whole
      snapshot ([Snapshots]).
    - Packets: processing never panics, outputs are well formed and delays
      bounded, outcomes mean what they say and only authentic packets touch the
      replay cache ([Process]); a connection is the
      fold of the packet handler over what the peer wrote ([Server]); under any
      interleaving a packet only reaches connections of its own next hop, and
      the pool is bounded ([Pool]).
    - Delays: a delay is, up to the accuracy of the logarithm, a few roundings
      and half a nanosecond, the inverse of the exponential distribution at the
      number drawn, so that the draws with a delay above [t] are those below
      [exp (- t / mean)] ([DelayLaw]); the logarithm is a parameter of which only
      a relative accuracy is used, which the series of [Logarithm] has with one
      part in 600.
    - End to end: the packet a client gives the network for the first relay of the
      path it chose travels that path and is delivered by the last relay only,
      after the delays the client drew, and a sealed message opens there
      ([Client]); these waiting times are exponential ([Timing]); queued messages
      are sent in order, once, and decoys are sealed and framed like them, unless
      sealing fails ([Cover]).
    - Limits: the float bucket equals an integer bucket for whole rates and
      times, daily bytes are bounded, sources are isolated ([RateLimit]); for
      every rate and at every instant the packet rate is bounded, and a source
      that pauses is served again, for rates of at least half a packet per second
      ([RateBounds]); the packets and bytes a daemon
      accepts stay within its flags ([Throughput]), and those one address gets
      through within the limit per source ([Sources]); delays are capped ([Delay]).
    - Transport: blobs survive the wire, readers are bounded, handshakes agree
      and are stalled only by a peer that takes no bytes ([Wire]); mailbox sessions are the fold of the handler,
      and nothing is handed out without a proof of possession ([Services]).
    - The relay as a whole, under every interleaving of its jobs: what
      concurrent connections do to the relay is what one sequence of [process]
      calls does; an accepted packet leaves once and not before its delay, and a
      send ends at most once; between two arrivals or timers the jobs take a
      bounded number of steps and come to rest, each waiting for its peer or for
      the network; connections in flight never exceed the permits; a stored
      message is never duplicated ([Concurrency]).  Client endpoints reach the service they ask for
      ([Endpoint]).  The daemon, from its command line on, accepts no packet
      twice, neither in one run nor after it was stopped with no write of its
      cache under way, nor, if the packet is in a snapshot, after it was killed; it
      gives mail only against a proof of possession; a signal ends it in whatever state
      it is, and it ends for no other reason than a signal, a failed handler or
      the end of its endpoint or tunnel ([Daemon]).
    - Operation: the schedule and the contents of announcements ([Enroll]),
      which the authority can verify ([Boot]); keys survive the disk, are never
      overwritten and on Unix are readable by their owner only, and a save of the
      mailbox that runs alone is atomic ([Keys]); the report and the verdict of [doctor] and the
      reports of the self-check ([Doctor]); accepted configurations are consistent ([Boot]).
    - The tests of the crate pass on the model ([Conformance],
      [ConformanceNet]).  Where a test draws random numbers or reads the clock
      and its outcome does not depend on them, it is shown to pass for all of
      them: the unlimited limiter, the delays, the oversized snapshot, the
      concurrent writers, the client's refusals, the contents of an enrolment
      and the framing of cover packets; the others run on the executable
      instances.

    ** Fuel and bounds

    Loops that are not structural take fuel that covers every run: the chunk
    and trimming loops the length of their input, [serve_loop] and
    [gossip_loop] one round more than the bytes received (each round consumes
    some), [mailbox_loop] one round more than the 512 requests the code allows,
    [read_blob_loop] the bytes announced.  The machine of [Listener] takes no
    fuel: [Concurrency] gives it a measure of the work left, which every step
    of a job decreases.

    ** What is not modelled

    The splitting of the command line into options (the clap crate; its
    result, the value of [Cli], is the input of [Daemon]) and log output; the
    generation of TLS certificates (an argument of [Endpoint]); the modules
    rendezvous, gossip, surb, nat and mailbox_client, which lib.rs declares but
    whose files are not part of the repository (what the rest calls of them is
    an argument); the secrecy of the cryptography and the distribution of
    the random numbers (a theorem about delays says what each draw becomes).
    Two saves of the mailbox at once, which would share their temporary file, are
    not interleaved within a call.  Timers fire at any time (the persistence task every 60 s and the maintenance
    of the mailbox every 300 s are not tied to the clock).  The
    two unit tests that estimate the mean and the variance of sampled delays are
    run with 200 draws instead of 10 000 and 50 000 ([ConformanceDelay]); the
    tests of whole paths hand packets from relay to relay instead of opening
    sockets. *)

From Stdlib Require Export Strings.Byte Strings.Ascii Strings.String ZArith Lia.
From stdpp Require Export base tactics numbers option list gmap strings sorting.

#[global] Open Scope Z_scope.
#[global] Set Default Goal Selector "!".
#[global] Set Warnings "-clear-no-such-hyp".

(** ** Results

    Rust's [Result<A, E>], with stdpp's monad notation for the [?] operator. *)
Inductive result (E A : Type) : Type :=
| Ok (a : A)
| Err (e : E).
Arguments Ok {E A} a.
Arguments Err {E A} e.

#[global] Instance result_ret E : MRet (result E) := fun A a => Ok a.
#[global] Instance result_bind E : MBind (result E) := fun A B k m =>
  match m with Ok a => k a | Err e => Err e end.
#[global] Instance result_fmap E : FMap (result E) := fun A B f m =>
  match m with Ok a => Ok (f a) | Err e => Err e end.

(** [Result::map_err] and [Option::ok_or]. *)
Definition map_err {E E' A} (f : E -> E') (m : result E A) : result E' A :=
  match m with Ok a => Ok a | Err e => Err (f e) end.

Definition ok_or {E A} (e : E) (o : option A) : result E A :=
  match o with Some a => Ok a | None => Err e end.

Definition result_ok {E A} (m : result E A) : option A :=
  match m with Ok a => Some a | Err _ => None end.

#[global] Instance result_eq_dec {E A} (HE : EqDecision E) (HA : EqDecision A) :
  EqDecision (result E A).
Proof. intros x y. unfold Decision. decide equality; apply HE || apply HA. Defined.

(** Invert one monadic step of a hypothesis [m ≫= k = Ok _]. *)
Lemma result_bind_Ok {E A B} (m : result E A) (k : A -> result E B) b :
  m ≫= k = Ok b <-> exists a, m = Ok a /\ k a = Ok b.
Proof. destruct m; split; [eauto| |done|]; intros (? & ? & ?); by simplify_eq. Qed.

(** ** Machine integers

    Unsigned integers are kept as [Z] with their range as a predicate;
    saturating operations are written out. *)
Definition u8_max : Z := 255.
Definition u16_max : Z := 65535.
Definition u32_max : Z := 4294967295.
Definition u64_max : Z := 18446744073709551615.

Definition is_u64 (z : Z) : Prop := 0 <= z <= u64_max.

(** [u64::saturating_add] and [u64::saturating_sub]. *)
Definition u64_saturating_add (a b : Z) : Z := Z.min u64_max (a + b).
Definition saturating_sub (a b : Z) : Z := Z.max 0 (a - b).

(** ** Time

    A [Duration] is a non-negative number of nanoseconds; an [Instant] is a
    point of the monotonic clock, in nanoseconds.  [Instant::duration_since]
    saturates at zero (as does [saturating_duration_since]). *)
Definition NANOS_PER_SEC : Z := 1000000000.
Definition from_secs (s : Z) : Z := s * NANOS_PER_SEC.
Definition from_micros (us : Z) : Z := us * 1000.
Definition as_secs (d : Z) : Z := d / NANOS_PER_SEC.
Definition duration_since (now ts : Z) : Z := Z.max 0 (now - ts).

(** What the program is compiled for: the least [Instant], below which
    [Instant::checked_sub] fails (a 64-bit signed second count on Unix, the origin
    of the counter on Windows), and whether the code under [#[cfg(unix)]] is
    there. *)
Class Platform := { instant_min : Z; cfg_unix : bool }.

Definition checked_sub `{!Platform} (now d : Z) : option Z :=
  if decide (instant_min <= now - d) then Some (now - d) else None.

Definition unix_platform : Platform := {| instant_min := - (2 ^ 63) * NANOS_PER_SEC; cfg_unix := true |}.
Definition windows_platform : Platform := {| instant_min := 0; cfg_unix := false |}.

(** ** Bytes *)
#[global] Instance byte_eq_dec : EqDecision byte := Byte.byte_eq_dec.

Definition byte_to_Z (b : byte) : Z := Z.of_N (Byte.to_N b).

(** [z as u8]: the low eight bits. *)
Definition byte_of_Z (z : Z) : byte :=
  default x00 (Byte.of_N (Z.to_N (z mod 256))).

Lemma byte_to_Z_range b : 0 <= byte_to_Z b < 256.
Proof. unfold byte_to_Z. pose proof (Byte.to_N_bounded b). lia. Qed.

Lemma byte_of_to_Z b : byte_of_Z (byte_to_Z b) = b.
Proof. by destruct b. Qed.

Lemma byte_to_of_Z z : byte_to_Z (byte_of_Z z) = z mod 256.
Proof.
  unfold byte_of_Z, byte_to_Z.
  pose proof (Z.mod_pos_bound z 256 ltac:(lia)).
  destruct (Byte.of_N _) as [b|] eqn:E; simpl.
  - apply Byte.to_of_N in E. rewrite E. lia.
  - apply Byte.of_N_None_iff in E. lia.
Qed.

#[global] Instance byte_countable : Countable byte :=
  inj_countable' byte_to_Z byte_of_Z byte_of_to_Z.

(** Big-endian encodings: [to_be_bytes] on [n] bytes and [from_be_bytes]. *)
Fixpoint to_be_bytes (n : nat) (z : Z) : list byte :=
  match n with
  | O => []
  | S m => byte_of_Z (Z.shiftr z (8 * Z.of_nat m)) :: to_be_bytes m z
  end.

Fixpoint from_be_bytes_acc (acc : Z) (l : list byte) : Z :=
  match l with
  | [] => acc
  | b :: l => from_be_bytes_acc (acc * 256 + byte_to_Z b) l
  end.

Definition from_be_bytes (l : list byte) : Z := from_be_bytes_acc 0 l.

Lemma length_to_be_bytes n z : length (to_be_bytes n z) = n.
Proof. induction n; simpl; congruence. Qed.

Lemma from_to_be_bytes_acc n acc z :
  from_be_bytes_acc acc (to_be_bytes n z) =
  acc * 2 ^ (8 * Z.of_nat n) + z mod 2 ^ (8 * Z.of_nat n).
Proof.
  revert acc. induction n as [|n IH]; intros acc; simpl.
  { rewrite Z.mod_1_r. lia. }
  rewrite IH, byte_to_of_Z, Z.shiftr_div_pow2 by lia.
  replace (8 * Z.of_nat (S n)) with (8 + 8 * Z.of_nat n) by lia.
  rewrite Z.pow_add_r by lia. change (2 ^ 8) with 256.
  set (p := 2 ^ (8 * Z.of_nat n)). assert (0 < p) by (apply Z.pow_pos_nonneg; lia).
  rewrite (Z.mul_comm 256 p), (Z.rem_mul_r z p 256) by lia. nia.
Qed.

Lemma from_to_be_bytes n z :
  0 <= z < 2 ^ (8 * Z.of_nat n) -> from_be_bytes (to_be_bytes n z) = z.
Proof.
  intros Hz. unfold from_be_bytes. rewrite from_to_be_bytes_acc, Z.mod_small; lia.
Qed.

#[global] Arguments to_be_bytes : simpl never.
#[global] Arguments from_be_bytes : simpl never.

Lemma from_be_bytes_acc_range l acc :
  0 <= acc ->
  0 <= from_be_bytes_acc acc l < (acc + 1) * 2 ^ (8 * Z.of_nat (length l)).
Proof.
  revert acc. induction l as [|b l IH]; intros acc Ha; simpl; [lia|].
  pose proof (byte_to_Z_range b).
  destruct (IH (acc * 256 + byte_to_Z b) ltac:(lia)) as [? Hlt]. split; [done|].
  eapply Z.lt_le_trans; [apply Hlt|].
  replace (8 * Z.of_nat (S (length l))) with (8 + 8 * Z.of_nat (length l)) by lia.
  rewrite Z.pow_add_r by lia. change (2 ^ 8) with 256.
  assert (0 < 2 ^ (8 * Z.of_nat (length l))) by (apply Z.pow_pos_nonneg; lia). nia.
Qed.

Lemma from_be_bytes_range l : 0 <= from_be_bytes l < 2 ^ (8 * Z.of_nat (length l)).
Proof. pose proof (from_be_bytes_acc_range l 0 ltac:(lia)). unfold from_be_bytes. lia. Qed.

(** ** Lists *)

(** The last [n] elements. *)
Definition lastn {A} (n : nat) (l : list A) : list A := drop (length l - n) l.

(** [slice::chunks] (and [as_chunks] when the length is a multiple of [n]);
    the fuel [length l] is enough because every chunk but the last has [n > 0]
    elements. *)
Fixpoint chunks_fuel {A} (fuel n : nat) (l : list A) : list (list A) :=
  match fuel, l with
  | S f, _ :: _ => take n l :: chunks_fuel f n (drop n l)
  | _, _ => []
  end.

Definition chunks {A} (n : nat) (l : list A) : list (list A) :=
  chunks_fuel (length l) n l.

(** [slice::sort_by_key]: the stable sort, as insertion from the right. *)
Fixpoint insert_by_key {A} (key : A -> Z) (x : A) (l : list A) : list A :=
  match l with
  | [] => [x]
  | y :: l' => if key x <=? key y then x :: l else y :: insert_by_key key x l'
  end.

Fixpoint sort_by_key {A} (key : A -> Z) (l : list A) : list A :=
  match l with
  | [] => []
  | x :: l => insert_by_key key x (sort_by_key key l)
  end.

(** [Iterator::min_by_key]: the first element with the least key. *)
Fixpoint min_by_key {A} (key : A -> Z) (l : list A) : option A :=
  match l with
  | [] => None
  | x :: l =>
      match min_by_key key l with
      | Some y => if key x <=? key y then Some x else Some y
      | None => Some x
      end
  end.

(** A [HashMap] iterates in an order the library leaves open: any permutation
    of the bindings. *)
Class HashOrder (K V : Type) `{Countable K} := {
  hash_iter : gmap K V -> list (K * V);
  hash_iter_perm : forall m, hash_iter m ≡ₚ map_to_list m;
}.

Definition sorted_order (K V : Type) `{Countable K} : HashOrder K V :=
  {| hash_iter := map_to_list; hash_iter_perm := fun m => reflexivity _ |}.

Section chunk_facts.
Context {A : Type}.
Implicit Types (l : list A) (n : nat).

Lemma chunks_fuel_irrel f1 f2 n l :
  (0 < n)%nat -> (length l <= f1)%nat -> (length l <= f2)%nat ->
  chunks_fuel f1 n l = chunks_fuel f2 n l.
Proof.
  intros Hn. revert f2 l. induction f1 as [|f1 IH]; intros [|f2] [|x l] H1 H2;
    simpl in *; try done; try lia.
  f_equal. destruct n as [|n]; [lia|]. simpl.
  apply IH; rewrite length_drop; lia.
Qed.

Lemma chunks_nil n : chunks n ([] : list A) = [].
Proof. done. Qed.

Lemma chunks_eq n l :
  (0 < n)%nat -> l <> [] -> chunks n l = take n l :: chunks n (drop n l).
Proof.
  intros Hn Hl. destruct l as [|x l]; [done|]. unfold chunks at 1. simpl.
  f_equal. apply chunks_fuel_irrel; [done| |].
  - rewrite length_drop. simpl. lia.
  - done.
Qed.

Lemma chunks_app n c l :
  (0 < n)%nat -> length c = n -> chunks n (c ++ l) = c :: chunks n l.
Proof.
  intros Hn Hc. rewrite chunks_eq; [|done|by destruct c; simpl in *; [lia|]].
  rewrite take_app_length', drop_app_length'; done.
Qed.

(** Induction along the chunks of a list. *)
Lemma chunks_ind n (Hn : (0 < n)%nat) (P : list A -> Prop) :
  P [] -> (forall l, l <> [] -> P (drop n l) -> P l) -> forall l, P l.
Proof.
  intros H0 HS l. remember (length l) as k eqn:Hk. revert l Hk.
  induction k as [k IH] using lt_wf_ind; intros l ->.
  destruct l as [|x l]; [done|]. apply HS; [done|].
  eapply IH; [|done]. rewrite length_drop. simpl. lia.
Qed.

Lemma concat_chunks n l : (0 < n)%nat -> concat (chunks n l) = l.
Proof.
  intros Hn. induction l as [|l Hl IH] using (chunks_ind n Hn); [done|].
  rewrite chunks_eq by done. simpl. by rewrite IH, take_drop.
Qed.

Lemma chunks_lengths n l :
  (0 < n)%nat -> Forall (fun c => 0 < length c <= n)%nat (chunks n l).
Proof.
  intros Hn. induction l as [|l Hl IH] using (chunks_ind n Hn); [by constructor|].
  rewrite chunks_eq by done. constructor; [|done].
  rewrite length_take. destruct l; simpl in *; [done|lia].
Qed.
End chunk_facts.

Lemma StronglySorted_sublist {A} (R : A -> A -> Prop) l1 l2 :
  l1 `sublist_of` l2 -> StronglySorted R l2 -> StronglySorted R l1.
Proof.
  induction 1 as [|x l1 l2 Hsub IH|x l1 l2 Hsub IH]; [done| |].
  - inversion 1 as [|?? Hs Hall]; subst. constructor; [by apply IH|].
    rewrite Forall_forall in Hall |- *. intros y Hy. apply Hall. by eapply sublist_subseteq.
  - inversion 1; subst. by apply IH.
Qed.

Section sort_facts.
Context {A : Type} (key : A -> Z).

Lemma insert_by_key_perm x l : insert_by_key key x l ≡ₚ x :: l.
Proof.
  induction l as [|y l IH]; simpl; [done|]. destruct (key x <=? key y); [done|].
  rewrite IH. by rewrite Permutation_swap.
Qed.

Lemma sort_by_key_perm l : sort_by_key key l ≡ₚ l.
Proof.
  induction l as [|x l IH]; simpl; [done|]. by rewrite insert_by_key_perm, IH.
Qed.

Definition key_le (x y : A) : Prop := key x <= key y.

#[global] Instance key_le_trans : Transitive key_le.
Proof. unfold key_le. intros x y z. lia. Qed.

Lemma insert_by_key_sorted x l :
  StronglySorted key_le l -> StronglySorted key_le (insert_by_key key x l).
Proof.
  induction 1 as [|y l Hs IH Hall]; simpl; [by repeat constructor|].
  destruct (Z.leb_spec (key x) (key y)) as [Hle|Hlt].
  - constructor; [by constructor|]. constructor; [done|].
    eapply Forall_impl; [done|]. unfold key_le. intros. lia.
  - constructor; [done|]. rewrite insert_by_key_perm. constructor; [|done].
    unfold key_le. lia.
Qed.

Lemma sort_by_key_sorted l : StronglySorted key_le (sort_by_key key l).
Proof. induction l; simpl; [constructor|]. by apply insert_by_key_sorted. Qed.

(** The sort is stable: it leaves a sorted list as it is. *)
Lemma sort_by_key_id l : StronglySorted key_le l -> sort_by_key key l = l.
Proof.
  induction 1 as [|x l _ IH Hx]; simpl; [done|]. rewrite IH.
  destruct Hx as [|y l Hy _]; simpl; [done|]. unfold key_le in Hy. by rewrite (proj2 (Z.leb_le _ _)).
Qed.

Lemma min_by_key_None l : min_by_key key l = None <-> l = [].
Proof. destruct l; simpl; [done|]. repeat case_match; done. Qed.

Lemma min_by_key_Some l x :
  min_by_key key l = Some x -> x ∈ l /\ Forall (fun y => key x <= key y) l.
Proof.
  revert x. induction l as [|y l IH]; simpl; intros x; [done|].
  destruct (min_by_key key l) as [z|] eqn:E; intros Hx.
  - destruct (IH z eq_refl) as [Hin Hall]. rewrite Forall_forall in Hall.
    destruct (Z.leb_spec (key y) (key z)); simplify_eq.
    + split; [left|]. constructor; [lia|]. apply Forall_forall. intros w Hw.
      specialize (Hall w Hw). lia.
    + split; [by right|]. constructor; [lia|]. by apply Forall_forall.
  - apply min_by_key_None in E as ->. simplify_eq.
    split; [left|]. constructor; [lia|constructor].
Qed.
End sort_facts.
