(* ===== verification/Replay.v ===== *)
(** * The replay cache ([replay.rs])

    [ReplayCache] remembers the per-hop MACs of the packets a relay has seen:
    a [HashMap] for membership and a [VecDeque] that keeps the insertion order
    for expiry and eviction.  The file models the cache operations, states the
    invariant that ties the two containers together, and proves that a cache
    driven by a monotonic clock implements an abstract specification: "the key
    is among the last [max_size] accepted ones and is at most [ttl] old". *)

From S2P Require Import Prelude.

Create HintDb replay.

(** A replay key: the 16-byte MAC of a packet. *)
Abbreviation key := (list byte).

Inductive ReplayCheck : Type :=
| Fresh
| Replay.

#[global] Instance ReplayCheck_eq_dec : EqDecision ReplayCheck.
Proof. solve_decision. Defined.

Record ReplayCache : Type := mkCache {
  rc_map : gmap key Z;
  rc_queue : list (key * Z);
  rc_ttl : Z;
  rc_max_size : nat;
}.

Definition new (max_size : nat) (ttl : Z) : ReplayCache :=
  mkCache ∅ [] ttl max_size.

(** [while let Some(&(_, ts)) = queue.front() { ... }] *)
Fixpoint sweep_loop (ttl now : Z) (q : list (key * Z)) (m : gmap key Z)
  : list (key * Z) * gmap key Z :=
  match q with
  | [] => ([], m)
  | (k, ts) :: q' =>
      if ttl <? duration_since now ts then sweep_loop ttl now q' (delete k m) else (q, m)
  end.

Definition sweep_expired (c : ReplayCache) (now : Z) : ReplayCache :=
  let '(q, m) := sweep_loop (rc_ttl c) now (rc_queue c) (rc_map c) in
  mkCache m q (rc_ttl c) (rc_max_size c).

(** [if let Some((old_k, _)) = queue.pop_front() { map.remove(&old_k); }] *)
Definition evict_front (c : ReplayCache) : ReplayCache :=
  match rc_queue c with
  | [] => c
  | (old_k, _) :: q => mkCache (delete old_k (rc_map c)) q (rc_ttl c) (rc_max_size c)
  end.

Definition push_entry (c : ReplayCache) (k : key) (ts : Z) : ReplayCache :=
  mkCache (<[k := ts]> (rc_map c)) (rc_queue c ++ [(k, ts)]) (rc_ttl c) (rc_max_size c).

Definition check_and_insert_at (c : ReplayCache) (k : key) (now : Z)
  : ReplayCheck * ReplayCache :=
  let c := sweep_expired c now in
  if bool_decide (is_Some (rc_map c !! k)) then (Replay, c) else
  let c := if (rc_max_size c <=? size (rc_map c))%nat then evict_front c else c in
  (Fresh, push_entry c k now).

(** [snapshot_at]: the live entries with their Unix timestamps. *)
Definition snapshot_at (c : ReplayCache) (now now_unix : Z) : list (key * Z) :=
  map (fun '(k, ts) => (k, saturating_sub now_unix (as_secs (duration_since now ts))))
    (filter (fun e => duration_since now e.2 <= rc_ttl c) (rc_queue c)).

(** [encode_into]: the single-pass encoder of the same snapshot. *)
Fixpoint encode_entries (ttl now now_unix : Z) (q : list (key * Z)) : list byte :=
  match q with
  | [] => []
  | (k, ts) :: q =>
      let elapsed := duration_since now ts in
      if ttl <? elapsed then encode_entries ttl now now_unix q
      else k ++ to_be_bytes 8 (saturating_sub now_unix (as_secs elapsed))
             ++ encode_entries ttl now now_unix q
  end.

Definition encode_into (c : ReplayCache) (now now_unix : Z) (magic : list byte) : list byte :=
  magic ++ encode_entries (rc_ttl c) now now_unix (rc_queue c).

Section restore.
Context `{!Platform}.

(** The first loop of [restore_at]: drop what is older than the TTL and move
    the rest onto the monotonic clock. *)
Fixpoint adopt (ttl now now_unix : Z) (entries : list (key * Z)) : list (key * Z) :=
  match entries with
  | [] => []
  | (k, ts) :: entries =>
      let age := from_secs (saturating_sub now_unix ts) in
      if ttl <? age then adopt ttl now now_unix entries
      else (k, default now (checked_sub now age)) :: adopt ttl now now_unix entries
  end.

(** [adopted.retain(|(key, _)| !map.contains_key(key) && seen.insert(key))] *)
Fixpoint retain_new (m : gmap key Z) (seen : gset key) (l : list (key * Z))
  : list (key * Z) :=
  match l with
  | [] => []
  | (k, ts) :: l =>
      if bool_decide (is_Some (m !! k)) then retain_new m seen l
      else if bool_decide (k ∈ seen) then retain_new m seen l
      else (k, ts) :: retain_new m ({[k]} ∪ seen) l
  end.

(** The final insertion loop, with its early [break]. *)
Fixpoint push_all (c : ReplayCache) (l : list (key * Z)) : nat * ReplayCache :=
  match l with
  | [] => (0%nat, c)
  | (k, ts) :: l =>
      if (rc_max_size c <=? size (rc_map c))%nat then (0%nat, c)
      else let '(n, c) := push_all (push_entry c k ts) l in (S n, c)
  end.

Definition restore_at (c : ReplayCache) (entries : list (key * Z)) (now now_unix : Z)
  : nat * ReplayCache :=
  let adopted := adopt (rc_ttl c) now now_unix entries in
  let adopted := sort_by_key snd adopted in
  let adopted := retain_new (rc_map c) ∅ adopted in
  let room := (rc_max_size c - size (rc_map c))%nat in
  let skip := (length adopted - room)%nat in
  push_all c (drop skip adopted).
End restore.

Definition len (c : ReplayCache) : nat := size (rc_map c).

Definition is_empty (c : ReplayCache) : bool := bool_decide (len c = 0%nat).

(** ** The invariant

    The map and the queue hold the same entries, no key twice, and at most
    [max_size] of them (one when [max_size] is zero: the insertion follows the
    eviction unconditionally). *)
Definition capacity (c : ReplayCache) : nat := Nat.max 1 (rc_max_size c).

Record wf (c : ReplayCache) : Prop := {
  wf_nodup : NoDup (rc_queue c).*1;
  wf_map : rc_map c = list_to_map (rc_queue c);
  wf_bound : (length (rc_queue c) <= capacity c)%nat;
}.

(** The queue a sweep leaves behind. *)
Fixpoint drop_expired (ttl now : Z) (q : list (key * Z)) : list (key * Z) :=
  match q with
  | [] => []
  | (k, ts) :: q' => if ttl <? duration_since now ts then drop_expired ttl now q' else q
  end.

Definition live (ttl now : Z) (e : key * Z) : Prop := duration_since now e.2 <= ttl.

Lemma sweep_loop_spec ttl now q m :
  NoDup q.*1 -> m = list_to_map q ->
  sweep_loop ttl now q m = (drop_expired ttl now q, list_to_map (drop_expired ttl now q)).
Proof.
  revert m. induction q as [|[k ts] q IH]; intros m Hnd ->; simpl in *; [done|].
  apply NoDup_cons in Hnd as [Hk Hnd]. destruct (_ <? _); [|done]. apply IH; [done|].
  apply delete_insert_id. by apply not_elem_of_list_to_map_1.
Qed.

Lemma drop_expired_suffix ttl now q : drop_expired ttl now q `suffix_of` q.
Proof.
  induction q as [|[k ts] q IH]; simpl; [done|]. destruct (_ <? _); [|done].
  by apply suffix_cons_r.
Qed.

Lemma suffix_NoDup_keys (q1 q2 : list (key * Z)) :
  q1 `suffix_of` q2 -> NoDup q2.*1 -> NoDup q1.*1.
Proof. intros [q ->]. rewrite fmap_app. by intros [_ [_ ?]]%NoDup_app. Qed.

Lemma suffix_length_le {A} (l1 l2 : list A) :
  l1 `suffix_of` l2 -> (length l1 <= length l2)%nat.
Proof. intros [l ->]. rewrite length_app. lia. Qed.

Lemma sweep_expired_spec c now :
  wf c ->
  sweep_expired c now =
  mkCache (list_to_map (drop_expired (rc_ttl c) now (rc_queue c)))
    (drop_expired (rc_ttl c) now (rc_queue c)) (rc_ttl c) (rc_max_size c).
Proof. intros [Hnd Hm _]. unfold sweep_expired. by rewrite sweep_loop_spec. Qed.

Lemma wf_of_queue q ttl n :
  NoDup q.*1 -> (length q <= Nat.max 1 n)%nat -> wf (mkCache (list_to_map q) q ttl n).
Proof. by constructor. Qed.

Lemma wf_sweep c now : wf c -> wf (sweep_expired c now).
Proof.
  intros Hwf. rewrite sweep_expired_spec by done.
  pose proof (drop_expired_suffix (rc_ttl c) now (rc_queue c)) as Hs.
  apply wf_of_queue; [by eapply suffix_NoDup_keys, wf_nodup|].
  pose proof (suffix_length_le _ _ Hs). pose proof (wf_bound c Hwf). unfold capacity in *. lia.
Qed.

Lemma wf_size c : wf c -> size (rc_map c) = length (rc_queue c).
Proof.
  intros [Hnd -> _]. by rewrite map_size_list_to_map.
Qed.

Lemma wf_lookup c k ts : wf c -> rc_map c !! k = Some ts <-> (k, ts) ∈ rc_queue c.
Proof. intros [Hnd -> _]. symmetry. by apply elem_of_list_to_map. Qed.

Lemma wf_contains c k : wf c -> is_Some (rc_map c !! k) <-> k ∈ (rc_queue c).*1.
Proof.
  intros Hwf. rewrite list_elem_of_fmap. split.
  - intros [ts Hts]. exists (k, ts). split; [done|]. by apply wf_lookup.
  - intros ([? ts] & -> & Hin). exists ts. by apply wf_lookup.
Qed.

Lemma list_to_map_snoc_fresh (q : list (key * Z)) k ts :
  k ∉ q.*1 -> (list_to_map (q ++ [(k, ts)]) : gmap key Z) = <[k := ts]> (list_to_map q).
Proof.
  intros Hk. rewrite list_to_map_snoc; [done|]. done.
Qed.

Lemma wf_push c k ts :
  wf c -> k ∉ (rc_queue c).*1 -> (length (rc_queue c) < capacity c)%nat ->
  wf (push_entry c k ts).
Proof.
  intros [Hnd Hm Hb] Hk Hlt. constructor; simpl.
  - rewrite fmap_app. apply NoDup_app. split; [done|]. split; [|apply NoDup_singleton].
    intros k' ? ->%list_elem_of_singleton. done.
  - by rewrite list_to_map_snoc_fresh, Hm.
  - rewrite length_app. simpl. unfold capacity in *. simpl. lia.
Qed.

Lemma wf_evict c : wf c -> wf (evict_front c).
Proof.
  intros Hwf. unfold evict_front. destruct (rc_queue c) as [|[k ts] q] eqn:E; [done|].
  destruct Hwf as [Hnd Hm Hb]. rewrite E in *. simpl in *.
  apply NoDup_cons in Hnd as [Hk Hnd]. constructor; simpl; [done| |].
  - rewrite Hm. simpl. apply delete_insert_id. by apply not_elem_of_list_to_map_1.
  - unfold capacity in *. simpl. lia.
Qed.

Lemma evict_front_queue c : rc_queue (evict_front c) = tail (rc_queue c).
Proof. by destruct c as [m [|[]] ? ?]. Qed.

Lemma evict_front_params c :
  rc_ttl (evict_front c) = rc_ttl c /\ rc_max_size (evict_front c) = rc_max_size c.
Proof. by destruct c as [m [|[]] ? ?]. Qed.

(** ** [check_and_insert_at] on the queue

    On well-formed caches the operation is determined by the queue alone. *)
Lemma check_and_insert_queue c k now :
  wf c ->
  let q := drop_expired (rc_ttl c) now (rc_queue c) in
  let '(r, c') := check_and_insert_at c k now in
  (r = Replay <-> k ∈ q.*1) /\
  rc_queue c' =
    (if bool_decide (k ∈ q.*1) then q
     else (if (capacity c <=? length q)%nat then tail q else q) ++ [(k, now)]) /\
  rc_ttl c' = rc_ttl c /\ rc_max_size c' = rc_max_size c /\ wf c'.
Proof.
  intros Hwf q. unfold check_and_insert_at.
  pose proof (wf_sweep c now Hwf) as Hs.
  assert (rc_queue (sweep_expired c now) = q) as Hq by by rewrite sweep_expired_spec.
  assert (rc_ttl (sweep_expired c now) = rc_ttl c /\
          rc_max_size (sweep_expired c now) = rc_max_size c) as [Ht Hm]
    by by rewrite sweep_expired_spec.
  set (s := sweep_expired c now) in *. clearbody s q.
  rewrite (bool_decide_ext _ _ (wf_contains s k Hs)), Hq.
  destruct (bool_decide_reflect (k ∈ q.*1)) as [Hin|Hin]; [done|].
  rewrite wf_size, Hm, Hq by done.
  assert (wf (if (rc_max_size c <=? length q)%nat then evict_front s else s)) as Hwf'
    by (case_match; [by apply wf_evict|done]).
  assert (rc_queue (if (rc_max_size c <=? length q)%nat then evict_front s else s) =
          if (capacity c <=? length q)%nat then tail q else q) as Hq'.
  { unfold capacity. destruct (Nat.leb_spec (rc_max_size c) (length q)).
    - rewrite evict_front_queue, Hq.
      destruct (Nat.leb_spec (Nat.max 1 (rc_max_size c)) (length q)); [done|].
      destruct q; simpl in *; [done|lia].
    - rewrite (proj2 (Nat.leb_gt _ _)) by lia. done. }
  pose proof (evict_front_params s) as [Ht2 Hm2].
  simpl. split; [split; [done|by intros ?]|]. split; [by rewrite Hq'|].
  split; [case_match; congruence|]. split; [case_match; congruence|].
  apply wf_push; [done| |].
  - rewrite Hq'. destruct (capacity c <=? length q)%nat; [|done].
    destruct q; [done|]. simpl in *. by apply not_elem_of_cons in Hin as [_ ?].
  - rewrite Hq'. unfold capacity in *.
    replace (rc_max_size (if (rc_max_size c <=? length q)%nat then evict_front s else s))
      with (rc_max_size c) by (case_match; congruence).
    pose proof (wf_bound s Hs) as Hb. unfold capacity in Hb. rewrite Hq, Hm in Hb.
    destruct (Nat.leb_spec (Nat.max 1 (rc_max_size c)) (length q)); [|lia].
    destruct q; simpl in *; lia.
Qed.

(** ** The abstract specification

    The specification keeps the whole history of accepted keys, oldest first,
    and answers from its last [n] entries. *)
Module Spec.
Definition seen (n : nat) (ttl : Z) (hist : list (key * Z)) (k : key) (now : Z) : Prop :=
  Exists (fun e => e.1 = k /\ live ttl now e) (lastn n hist).

#[global] Instance live_dec ttl now e : Decision (live ttl now e).
Proof. unfold live. apply _. Defined.

#[global] Instance seen_dec n ttl hist k now : Decision (seen n ttl hist k now).
Proof. unfold seen. apply _. Defined.

Definition check (n : nat) (ttl : Z) (hist : list (key * Z)) (k : key) (now : Z)
  : ReplayCheck * list (key * Z) :=
  if decide (seen n ttl hist k now) then (Replay, hist) else (Fresh, hist ++ [(k, now)]).

Fixpoint run (n : nat) (ttl : Z) (hist : list (key * Z)) (tr : list (key * Z))
  : list ReplayCheck * list (key * Z) :=
  match tr with
  | [] => ([], hist)
  | (k, now) :: tr =>
      let '(r, hist) := check n ttl hist k now in
      let '(rs, hist) := run n ttl hist tr in (r :: rs, hist)
  end.
End Spec.

(** A sequence of calls on one cache. *)
Fixpoint run (c : ReplayCache) (tr : list (key * Z)) : list ReplayCheck * ReplayCache :=
  match tr with
  | [] => ([], c)
  | (k, now) :: tr =>
      let '(r, c) := check_and_insert_at c k now in
      let '(rs, c) := run c tr in (r :: rs, c)
  end.

(** The calls happen in the order of a monotonic clock that started at [t]. *)
Fixpoint monotonic (t : Z) (tr : list (key * Z)) : Prop :=
  match tr with
  | [] => True
  | (_, now) :: tr => t <= now /\ monotonic now tr
  end.

(** Timestamps of the history are ordered and none is in the future. *)
Definition ordered (t : Z) (q : list (key * Z)) : Prop :=
  StronglySorted (key_le snd) q /\ Forall (fun e => e.2 <= t) q.

Lemma ordered_snoc t now k q :
  ordered t q -> t <= now -> ordered now (q ++ [(k, now)]).
Proof.
  intros [Hs Hf] Ht. assert (Forall (fun e => e.2 <= now) q) as Hf'
    by (eapply Forall_impl; [done|]; simpl; lia).
  split; [|apply Forall_app; split; [done|by repeat constructor]].
  clear Hf Ht. induction Hs as [|e q Hs IH Hall]; simpl; [by repeat constructor|].
  apply Forall_cons in Hf' as [He Hf']. constructor; [by apply IH|].
  apply Forall_app. split; [done|]. by repeat constructor.
Qed.

Lemma ordered_suffix t q1 q2 : q1 `suffix_of` q2 -> ordered t q2 -> ordered t q1.
Proof.
  intros [q ->] [Hs Hf]. apply Forall_app in Hf as [_ Hf]. split; [|done].
  induction q as [|e q IH]; [done|]. apply IH. by inversion Hs.
Qed.

Lemma lastn_suffix {A} n (l : list A) : lastn n l `suffix_of` l.
Proof. apply suffix_drop. Qed.

(** On an ordered queue the sweep keeps exactly the live entries. *)
Lemma drop_expired_live t ttl now q :
  ordered t q -> Forall (live ttl now) (drop_expired ttl now q).
Proof.
  intros [Hs _]. induction Hs as [|[k ts] q Hs IH Hall]; simpl; [constructor|].
  destruct (Z.ltb_spec ttl (duration_since now ts)); [done|]. constructor; [done|].
  eapply Forall_impl; [apply Hall|]. unfold live, key_le, duration_since in *. simpl. lia.
Qed.

Lemma drop_expired_keeps ttl now q e : e ∈ q -> live ttl now e -> e ∈ drop_expired ttl now q.
Proof.
  induction q as [|[k ts] q IH]; simpl; [done|]. intros Hin Hl.
  destruct (Z.ltb_spec ttl (duration_since now ts)); [|done].
  apply elem_of_cons in Hin as [->|Hin]; [unfold live in Hl; simpl in Hl; lia|by apply IH].
Qed.

(** An entry expired at one time is expired at every later one. *)
Lemma drop_expired_mono ttl t now q :
  t <= now -> drop_expired ttl now (drop_expired ttl t q) = drop_expired ttl now q.
Proof.
  intros Ht. induction q as [|[k ts] q IH]; simpl; [done|].
  destruct (Z.ltb_spec ttl (duration_since t ts)) as [He|He]; [|done].
  rewrite IH. rewrite (proj2 (Z.ltb_lt _ _)); [done|]. unfold duration_since in *. lia.
Qed.

Lemma drop_expired_snoc ttl now k q :
  0 <= ttl -> drop_expired ttl now (q ++ [(k, now)]) = drop_expired ttl now q ++ [(k, now)].
Proof.
  intros Httl. induction q as [|[k' ts] q IH]; simpl.
  - rewrite (proj2 (Z.ltb_ge _ _)); [done|]. unfold duration_since. lia.
  - by destruct (_ <? _).
Qed.

Lemma drop_expired_all ttl now q :
  Forall (live ttl now) q -> drop_expired ttl now q = q.
Proof.
  destruct 1 as [|[k ts] q Hl]; simpl; [done|]. by rewrite (proj2 (Z.ltb_ge _ _)).
Qed.

Lemma drop_expired_length_eq ttl now q :
  length (drop_expired ttl now q) = length q -> drop_expired ttl now q = q.
Proof.
  destruct q as [|[k ts] q]; simpl; [done|]. destruct (_ <? _); [|done].
  pose proof (suffix_length_le _ _ (drop_expired_suffix ttl now q)). lia.
Qed.

Lemma lastn_le {A} n (l : list A) : (length l <= n)%nat -> lastn n l = l.
Proof. intros Hl. unfold lastn. by replace (length l - n)%nat with 0%nat by lia. Qed.

Lemma length_lastn {A} n (l : list A) : length (lastn n l) = Nat.min n (length l).
Proof. unfold lastn. rewrite length_drop. lia. Qed.

Lemma lastn_snoc {A} n (l : list A) x :
  (0 < n)%nat ->
  lastn n (l ++ [x]) = (if (n <=? length l)%nat then tail (lastn n l) else lastn n l) ++ [x].
Proof.
  intros Hn. destruct (Nat.leb_spec n (length l)) as [Hle|Hlt].
  - unfold lastn. rewrite length_app. simpl.
    rewrite drop_app_le by lia. f_equal.
    replace (length l + 1 - n)%nat with (length l - n + 1)%nat by lia.
    rewrite <- (drop_drop l 1 (length l - n)). by destruct (drop (length l - n) l).
  - rewrite !lastn_le; [done|lia|rewrite length_app; simpl; lia].
Qed.

(** The simulation relation between a cache and a history, at clock value [t]. *)
Record sim (t : Z) (hist : list (key * Z)) (c : ReplayCache) : Prop := {
  sim_wf : wf c;
  sim_ttl : 0 <= rc_ttl c;
  sim_ordered : ordered t hist;
  sim_queue : rc_queue c = drop_expired (rc_ttl c) t (lastn (capacity c) hist);
}.

Lemma swept_push n ttl t now k hist :
  (0 < n)%nat -> 0 <= ttl -> ordered t hist ->
  let q := drop_expired ttl now (lastn n hist) in
  drop_expired ttl now (lastn n (hist ++ [(k, now)])) =
  (if (n <=? length q)%nat then tail q else q) ++ [(k, now)].
Proof.
  intros Hn Httl Hord q. rewrite lastn_snoc, drop_expired_snoc by done. f_equal.
  pose proof (drop_expired_suffix ttl now (lastn n hist)) as Hsuf.
  pose proof (suffix_length_le _ _ Hsuf) as Hlen. rewrite length_lastn in Hlen.
  fold q in Hsuf, Hlen.
  assert (ordered t (lastn n hist)) as Hord' by (eapply ordered_suffix; [apply lastn_suffix|done]).
  destruct (Nat.leb_spec n (length q)) as [Hq|Hq].
  - rewrite (proj2 (Nat.leb_le _ _)) by lia.
    assert (q = lastn n hist) as Hqe
      by (apply drop_expired_length_eq; rewrite length_lastn; unfold q in *; lia).
    rewrite <- Hqe. apply drop_expired_all.
    pose proof (drop_expired_live t ttl now _ Hord') as Hl. fold q in Hl.
    destruct q; [done|]. by inversion Hl.
  - destruct (Nat.leb_spec n (length hist)); [|done]. unfold q in *.
    assert (length (lastn n hist) = n) as Hln by (rewrite length_lastn; lia).
    destruct (lastn n hist) as [|[k' ts] l]; simpl in *; [done|].
    destruct (_ <? _); [done|]. simpl in Hq. lia.
Qed.

Lemma sim_new n ttl t : 0 <= ttl -> sim t [] (new n ttl).
Proof.
  intros. split; simpl; [by repeat constructor; simpl; lia|done|by repeat constructor|done].
Qed.

Lemma elem_of_keys_seen n t ttl now hist k :
  ordered t hist ->
  k ∈ (drop_expired ttl now (lastn n hist)).*1 <-> Spec.seen n ttl hist k now.
Proof.
  intros Hord. unfold Spec.seen. rewrite Exists_exists, list_elem_of_fmap.
  assert (ordered t (lastn n hist)) as Hord' by (eapply ordered_suffix; [apply lastn_suffix|done]).
  split.
  - intros (e & -> & Hin). exists e. split.
    + destruct (drop_expired_suffix ttl now (lastn n hist)) as [l Hl].
      rewrite Hl. set_solver.
    + split; [done|]. eapply Forall_forall in Hin; [done|]. by eapply drop_expired_live.
  - intros (e & Hin & <- & Hl). exists e. split; [done|]. by apply drop_expired_keeps.
Qed.

(** One call: the cache and the specification agree and stay related. *)
Lemma sim_step t hist c k now :
  sim t hist c -> t <= now ->
  let '(r, c') := check_and_insert_at c k now in
  let '(r', hist') := Spec.check (capacity c) (rc_ttl c) hist k now in
  r = r' /\ sim now hist' c' /\ rc_ttl c' = rc_ttl c /\ capacity c' = capacity c.
Proof.
  intros [Hwf Httl Hord Hq] Ht. pose proof (check_and_insert_queue c k now Hwf) as Hstep.
  rewrite Hq, drop_expired_mono in Hstep by done. simpl in Hstep.
  destruct (check_and_insert_at c k now) as [r c'].
  destruct Hstep as (Hr & Hq' & Ht' & Hm' & Hwf').
  assert (capacity c' = capacity c) as Hcap by (unfold capacity; by rewrite Hm').
  unfold Spec.check. rewrite (elem_of_keys_seen _ t) in Hr by done.
  rewrite (bool_decide_ext _ _ (elem_of_keys_seen _ t _ _ _ k Hord)) in Hq'.
  assert (ordered now hist) as Hord'.
  { destruct Hord as [? Hf]. split; [done|]. eapply Forall_impl; [done|]. simpl. lia. }
  destruct (decide (Spec.seen _ _ _ _ _)) as [Hs|Hs].
  - rewrite bool_decide_eq_true_2 in Hq' by done.
    split; [by apply Hr|]. split; [|done]. by split; rewrite ?Ht', ?Hcap.
  - rewrite bool_decide_eq_false_2 in Hq' by done.
    split; [destruct r; [done|]; destruct Hs; by apply Hr|].
    split; [|done]. split; [done|by rewrite Ht'|by apply ordered_snoc with t|].
    rewrite Ht', Hcap, (swept_push _ _ t); [done|unfold capacity; lia|done|done].
Qed.

Lemma sim_run t hist c tr :
  sim t hist c -> monotonic t tr ->
  let '(rs, c') := run c tr in
  let '(rs', hist') := Spec.run (capacity c) (rc_ttl c) hist tr in
  rs = rs' /\ exists t', sim t' hist' c'.
Proof.
  revert t hist c. induction tr as [|[k now] tr IH]; intros t hist c Hsim Hmono; simpl.
  { eauto. }
  destruct Hmono as [Ht Hmono]. pose proof (sim_step t hist c k now Hsim Ht) as Hstep.
  destruct (check_and_insert_at c k now) as [r c1],
    (Spec.check (capacity c) (rc_ttl c) hist k now) as [r' hist1].
  destruct Hstep as (-> & Hsim1 & Httl & Hcap).
  specialize (IH now hist1 c1 Hsim1 Hmono). rewrite Httl, Hcap in IH.
  destruct (run c1 tr), (Spec.run (capacity c) (rc_ttl c) hist1 tr).
  destruct IH as [-> ?]. done.
Qed.

Lemma cache_run_app c tr1 tr2 :
  run c (tr1 ++ tr2) =
  let '(rs1, c) := run c tr1 in let '(rs2, c) := run c tr2 in (rs1 ++ rs2, c).
Proof.
  revert c. induction tr1 as [|[k now] tr1 IH]; intros c; simpl.
  { by destruct (run c tr2). }
  destruct (check_and_insert_at c k now) as [r c1]. rewrite IH.
  destruct (run c1 tr1) as [rs1 c2]. by destruct (run c2 tr2).
Qed.

Lemma run_length c tr : length (fst (run c tr)) = length tr.
Proof.
  revert c. induction tr as [|[k now] tr IH]; intros c; simpl; [done|].
  destruct (check_and_insert_at c k now) as [r c1]. specialize (IH c1).
  destruct (run c1 tr). simpl in *. by f_equal.
Qed.

Lemma spec_run_app n ttl h tr1 tr2 :
  Spec.run n ttl h (tr1 ++ tr2) =
  let '(rs1, h) := Spec.run n ttl h tr1 in
  let '(rs2, h) := Spec.run n ttl h tr2 in (rs1 ++ rs2, h).
Proof.
  revert h. induction tr1 as [|[k now] tr1 IH]; intros h; simpl.
  { by destruct (Spec.run n ttl h tr2). }
  destruct (Spec.check n ttl h k now) as [r h1]. rewrite IH.
  destruct (Spec.run n ttl h1 tr1) as [rs1 h2]. by destruct (Spec.run n ttl h2 tr2).
Qed.

(** The history grows by at most one entry per call. *)
Lemma spec_run_extends n ttl h tr :
  exists h', snd (Spec.run n ttl h tr) = h ++ h' /\ (length h' <= length tr)%nat.
Proof.
  revert h. induction tr as [|[k now] tr IH]; intros h; simpl.
  { exists []. by rewrite app_nil_r. }
  unfold Spec.check. destruct (decide _).
  - destruct (IH h) as (h' & Hh & Hl). destruct (Spec.run n ttl h tr). exists h'.
    simpl in *. split; [done|lia].
  - destruct (IH (h ++ [(k, now)])) as (h' & Hh & Hl).
    destruct (Spec.run n ttl (h ++ [(k, now)]) tr). exists ((k, now) :: h').
    simpl in *. rewrite <- app_assoc in Hh. split; [done|lia].
Qed.

Lemma spec_run_length n ttl h tr : length (fst (Spec.run n ttl h tr)) = length tr.
Proof.
  revert h. induction tr as [|[k now] tr IH]; intros h; simpl; [done|].
  destruct (Spec.check n ttl h k now) as [r h1]. specialize (IH h1).
  destruct (Spec.run n ttl h1 tr). simpl in *. by f_equal.
Qed.

(** An entry with fewer than [n] younger ones is among the last [n]. *)
Lemma lastn_recent {A} n (l1 l2 : list A) x :
  (length l2 < n)%nat -> x ∈ lastn n (l1 ++ x :: l2).
Proof.
  intros Hl. unfold lastn. rewrite length_app. simpl.
  rewrite drop_app_le by lia. set_solver.
Qed.

Lemma spec_seen_recent n ttl h1 h2 k t now :
  (length h2 < n)%nat -> now - t <= ttl -> 0 <= ttl ->
  Spec.seen n ttl (h1 ++ (k, t) :: h2) k now.
Proof.
  intros Hl Ht Httl. apply Exists_exists. exists (k, t).
  split; [by apply lastn_recent|]. split; [done|]. unfold live, duration_since. simpl. lia.
Qed.

(** An entry of the history is recognised while fewer than [capacity] younger
    ones follow it. *)
Lemma sim_recognises t h1 k ts h2 c tr now' :
  sim t (h1 ++ (k, ts) :: h2) c -> monotonic t (tr ++ [(k, now')]) ->
  (length h2 + length tr < capacity c)%nat -> now' - ts <= rc_ttl c ->
  fst (check_and_insert_at (snd (run c tr)) k now') = Replay.
Proof.
  intros Hsim Hmono Hlen Hage. pose proof (sim_run t _ c _ Hsim Hmono) as Hr.
  rewrite cache_run_app, spec_run_app in Hr.
  destruct (spec_run_extends (capacity c) (rc_ttl c) (h1 ++ (k, ts) :: h2) tr) as (h3 & Hh & Hl).
  destruct (Spec.run _ _ (h1 ++ (k, ts) :: h2) tr) as [rs2 h'].
  pose proof (run_length c tr) as Hl1. pose proof (sim_ttl _ _ _ Hsim) as Hpos.
  destruct (run c tr) as [rs1 c2]. simpl in Hh, Hr, Hl1 |- *. subst h'.
  destruct (check_and_insert_at c2 k now') as [r c3]. unfold Spec.check in Hr.
  rewrite <- app_assoc in Hr. simpl in Hr.
  rewrite decide_True in Hr by (apply spec_seen_recent; [rewrite length_app; lia|lia|lia]).
  destruct Hr as [Heq _]. simpl. apply app_inj_2 in Heq; [|done]. destruct Heq. congruence.
Qed.

(** A fresh key enters the history. *)
Lemma sim_fresh t hist c k now :
  sim t hist c -> t <= now -> fst (check_and_insert_at c k now) = Fresh ->
  let c1 := snd (check_and_insert_at c k now) in
  sim now (hist ++ [(k, now)]) c1 /\ rc_ttl c1 = rc_ttl c /\ capacity c1 = capacity c.
Proof.
  intros Hsim Ht Hfresh. pose proof (sim_step t hist c k now Hsim Ht) as Hst.
  destruct (check_and_insert_at c k now) as [r c1]. simpl in Hfresh |- *. subst r.
  unfold Spec.check in Hst. case_decide; by destruct Hst as (? & ? & ? & ?).
Qed.

(** A key accepted once is recognised for the rest of its window. *)
Lemma sim_protects t hist c k now mid now' :
  sim t hist c -> t <= now -> fst (check_and_insert_at c k now) = Fresh ->
  monotonic now (mid ++ [(k, now')]) -> (length mid < capacity c)%nat ->
  now' - now <= rc_ttl c ->
  fst (check_and_insert_at (snd (run (snd (check_and_insert_at c k now)) mid)) k now') = Replay.
Proof.
  intros Hsim Ht Hfresh Hmono Hlen Hage.
  destruct (sim_fresh t hist c k now Hsim Ht Hfresh) as (Hsim1 & Httl & Hcap).
  eapply sim_recognises; [done|done|rewrite Hcap; simpl; lia|by rewrite Httl].
Qed.

(** An accepted key stays in the queue, with the time it was accepted. *)
Lemma sim_run_at t hist c tr now' :
  sim t hist c -> (forall k, monotonic t (tr ++ [(k, now')])) ->
  exists t', t' <= now' /\ sim t' (snd (Spec.run (capacity c) (rc_ttl c) hist tr)) (snd (run c tr)) /\
    rc_ttl (snd (run c tr)) = rc_ttl c /\ capacity (snd (run c tr)) = capacity c.
Proof.
  revert t hist c. induction tr as [|[k now] tr IH]; intros t hist c Hsim Hmono; simpl.
  { exists t. split; [apply (Hmono [])|done]. }
  assert (t <= now /\ forall k, monotonic now (tr ++ [(k, now')])) as [Ht Hmono'].
  { split; [apply (Hmono [])|]. intros k'. apply (Hmono k'). }
  pose proof (sim_step t hist c k now Hsim Ht) as Hstep.
  destruct (check_and_insert_at c k now) as [r c1],
    (Spec.check (capacity c) (rc_ttl c) hist k now) as [r' hist1].
  destruct Hstep as (_ & Hsim1 & Httl & Hcap).
  specialize (IH now hist1 c1 Hsim1 Hmono'). rewrite Httl, Hcap in IH.
  destruct (run c1 tr), (Spec.run (capacity c) (rc_ttl c) hist1 tr). done.
Qed.

Lemma lastn_split {A} n (l1 l2 : list A) x :
  (length l2 < n)%nat -> exists l, lastn n (l1 ++ x :: l2) = l ++ x :: l2.
Proof.
  intros Hl. unfold lastn. rewrite length_app. simpl. rewrite drop_app_le by lia. eauto.
Qed.

Lemma drop_expired_split ttl now l1 l2 e :
  live ttl now e -> exists l, drop_expired ttl now (l1 ++ e :: l2) = l ++ e :: l2.
Proof.
  intros Hl. induction l1 as [|[k ts] l1 IH]; simpl.
  - destruct e as [k ts]. unfold live in Hl. simpl in Hl.
    rewrite (proj2 (Z.ltb_ge _ _)) by done. by exists [].
  - case_match; [done|]. by exists ((k, ts) :: l1).
Qed.

(** It is followed by at most the keys accepted since. *)
Lemma sim_keeps_entry t hist c k now mid now' :
  sim t hist c -> t <= now -> fst (check_and_insert_at c k now) = Fresh ->
  (forall k', monotonic now (mid ++ [(k', now')])) -> (length mid < capacity c)%nat ->
  now' - now <= rc_ttl c ->
  let c' := snd (run (snd (check_and_insert_at c k now)) mid) in
  (exists q1 q2, rc_queue c' = q1 ++ (k, now) :: q2 /\ (length q2 <= length mid)%nat) /\
  wf c' /\ ordered now' (rc_queue c') /\ rc_ttl c' = rc_ttl c /\ capacity c' = capacity c.
Proof.
  intros Hsim Ht Hfresh Hmono Hlen Hage.
  destruct (sim_fresh t hist c k now Hsim Ht Hfresh) as (Hsim1 & Httl & Hcap).
  set (c1 := snd (check_and_insert_at c k now)) in *. clearbody c1.
  destruct (sim_run_at now _ c1 mid now' Hsim1 Hmono) as (t' & Ht' & Hsim' & Httl' & Hcap').
  destruct (spec_run_extends (capacity c1) (rc_ttl c1) (hist ++ [(k, now)]) mid) as (h2 & Hh & Hl).
  rewrite Hh in Hsim'. pose proof (sim_queue _ _ _ Hsim') as Hq. cbv zeta.
  split; [|split_and!; [apply Hsim'| |congruence|congruence]].
  - rewrite Hq, Httl', Hcap', Hcap, Httl, <- app_assoc. simpl.
    destruct (lastn_split (capacity c) hist h2 (k, now)) as [l ->]; [lia|].
    destruct (drop_expired_split (rc_ttl c) t' l h2 (k, now)) as [l' ->]; [|by eauto].
    pose proof (sim_ttl _ _ _ Hsim). unfold live, duration_since. simpl. lia.
  - pose proof (sim_ordered _ _ _ Hsim') as Ho.
    destruct (ordered_suffix t' (rc_queue (snd (run c1 mid))) _ ltac:(rewrite Hq; etrans;
      [apply drop_expired_suffix|apply lastn_suffix]) Ho) as [Hs Ha].
    split; [done|]. eapply Forall_impl; [done|]. simpl. lia.
Qed.

(** The invariant over every operation that changes a cache. *)
Section reach.
Context `{!Platform}.

Inductive step : ReplayCache -> ReplayCache -> Prop :=
| step_check c k now : step c (snd (check_and_insert_at c k now))
| step_restore c entries now now_unix : step c (snd (restore_at c entries now now_unix)).

Definition reachable (n : nat) (ttl : Z) : ReplayCache -> Prop := rtc step (new n ttl).

Lemma retain_new_spec m seen l :
  NoDup (retain_new m seen l).*1 /\
  Forall (fun e => m !! e.1 = None /\ e.1 ∉ seen) (retain_new m seen l) /\
  retain_new m seen l `sublist_of` l.
Proof.
  revert seen. induction l as [|[k ts] l IH]; intros seen; simpl.
  { split; [constructor|]. split; [constructor|done]. }
  destruct (bool_decide_reflect (is_Some (m !! k))) as [Hm|Hm].
  { destruct (IH seen) as (? & ? & ?). split; [done|]. split; [done|]. by constructor. }
  destruct (bool_decide_reflect (k ∈ seen)) as [Hk|Hk].
  { destruct (IH seen) as (? & ? & ?). split; [done|]. split; [done|]. by constructor. }
  destruct (IH ({[k]} ∪ seen)) as (Hnd & Hall & Hsub).
  rewrite <- eq_None_not_Some in Hm. split; [|split].
  - simpl. constructor; [|done]. rewrite list_elem_of_fmap. intros ([k' t'] & Heq & Hin).
    simpl in Heq. subst k'. eapply Forall_forall in Hin; [|done]. set_solver.
  - constructor; [done|]. eapply Forall_impl; [done|]. simpl. set_solver.
  - by constructor.
Qed.

Lemma push_all_spec c l :
  wf c -> NoDup l.*1 -> Forall (fun e => rc_map c !! e.1 = None) l ->
  (length (rc_queue c) + length l <= Nat.max (rc_max_size c) (length (rc_queue c)))%nat ->
  let '(n, c') := push_all c l in
  n = length l /\ wf c' /\ rc_queue c' = rc_queue c ++ l /\
  rc_ttl c' = rc_ttl c /\ rc_max_size c' = rc_max_size c.
Proof.
  revert c. induction l as [|[k ts] l IH]; intros c Hwf Hnd Hall Hlen; simpl in *.
  { by rewrite app_nil_r. }
  rewrite wf_size by done. rewrite (proj2 (Nat.leb_gt _ _)) by lia.
  apply NoDup_cons in Hnd as [Hk Hnd]. apply Forall_cons in Hall as [Hn Hall]. simpl in Hn.
  assert (wf (push_entry c k ts)) as Hwf'.
  { apply wf_push; [done| |unfold capacity; lia].
    rewrite <- wf_contains by done. rewrite Hn. apply is_Some_None. }
  specialize (IH (push_entry c k ts) Hwf' Hnd).
  destruct (push_all (push_entry c k ts) l) as [n c'].
  destruct IH as (-> & Hwf2 & Hq & Ht & Hm).
  - apply Forall_forall. intros e He. simpl. rewrite lookup_insert_ne.
    + rewrite Forall_forall in Hall. by apply Hall.
    + intros ->. apply Hk. apply list_elem_of_fmap. eauto.
  - simpl. rewrite length_app. simpl. lia.
  - simpl in *. rewrite <- app_assoc in Hq. done.
Qed.

(** The entries [restore_at] keeps: the newest of those it may adopt. *)
Definition restored (c : ReplayCache) (entries : list (key * Z)) (now now_unix : Z)
  : list (key * Z) :=
  lastn (rc_max_size c - size (rc_map c))
    (retain_new (rc_map c) ∅ (sort_by_key snd (adopt (rc_ttl c) now now_unix entries))).

Lemma restore_at_spec c entries now now_unix :
  wf c ->
  let '(n, c') := restore_at c entries now now_unix in
  n = length (restored c entries now now_unix) /\ wf c' /\
  rc_queue c' = rc_queue c ++ restored c entries now now_unix /\
  rc_ttl c' = rc_ttl c /\ rc_max_size c' = rc_max_size c.
Proof.
  intros Hwf. unfold restore_at, restored, lastn. set (a := retain_new _ _ _).
  destruct (retain_new_spec (rc_map c) ∅ (sort_by_key snd (adopt (rc_ttl c) now now_unix entries)))
    as (Hnd & Hall & _). fold a in Hnd, Hall.
  apply push_all_spec; [done| | |].
  - rewrite fmap_drop. eapply sublist_NoDup; [done|]. apply sublist_drop.
  - apply Forall_drop. eapply Forall_impl; [done|]. by intros ? [].
  - rewrite length_drop, wf_size by done. lia.
Qed.

Lemma wf_check c k now : wf c -> wf (snd (check_and_insert_at c k now)).
Proof.
  intros Hwf. pose proof (check_and_insert_queue c k now Hwf) as Hst.
  destruct (check_and_insert_at c k now). by destruct Hst as (_ & _ & _ & _ & ?).
Qed.

Lemma wf_restore c entries now now_unix :
  wf c -> wf (snd (restore_at c entries now now_unix)).
Proof.
  intros Hwf. pose proof (restore_at_spec c entries now now_unix Hwf) as Hst.
  destruct (restore_at c entries now now_unix). by destruct Hst as (_ & ? & _).
Qed.

Lemma step_wf c c' : step c c' -> wf c -> wf c'.
Proof. intros [] ?; [by apply wf_check|by apply wf_restore]. Qed.

Lemma step_params c c' :
  step c c' -> wf c -> rc_ttl c' = rc_ttl c /\ rc_max_size c' = rc_max_size c.
Proof.
  intros [c0 k now|c0 es now u] Hwf.
  - pose proof (check_and_insert_queue c0 k now Hwf) as Hst.
    destruct (check_and_insert_at c0 k now). naive_solver.
  - pose proof (restore_at_spec c0 es now u Hwf) as Hst.
    destruct (restore_at c0 es now u). naive_solver.
Qed.

(** A cache filled from a snapshot is related to the history of what it
    adopted. *)
Lemma adopt_live ttl now u es :
  0 <= ttl -> Forall (fun e => live ttl now e /\ e.2 <= now) (adopt ttl now u es).
Proof.
  intros Httl. induction es as [|[k ts] es IH]; simpl; [constructor|].
  destruct (Z.ltb_spec ttl (from_secs (saturating_sub u ts))); [done|]. constructor; [|done].
  unfold live, checked_sub. simpl. set (a := from_secs _) in *.
  assert (0 <= a) by (unfold a, from_secs, saturating_sub, NANOS_PER_SEC; lia).
  case_decide; simpl; unfold duration_since; lia.
Qed.

Lemma sim_restored n ttl entries now u :
  0 <= ttl ->
  let c := snd (restore_at (new n ttl) entries now u) in sim now (rc_queue c) c.
Proof.
  intros Httl. assert (Hwf : wf (new n ttl)) by (split; simpl; [constructor|done|lia]).
  pose proof (restore_at_spec (new n ttl) entries now u Hwf) as Hr.
  destruct (restore_at (new n ttl) entries now u) as [m c]. simpl.
  destruct Hr as (_ & Hwf' & Hq & Ht & Hm). simpl in Hq.
  pose proof (wf_bound c Hwf') as Hb.
  set (a := adopt ttl now u entries) in *.
  destruct (retain_new_spec (rc_map (new n ttl)) ∅ (sort_by_key snd a)) as (_ & _ & Hsub).
  assert (Hall : Forall (fun e => live ttl now e /\ e.2 <= now) (sort_by_key snd a)).
  { rewrite sort_by_key_perm. by apply adopt_live. }
  assert (Hsubq : rc_queue c `sublist_of` sort_by_key snd a).
  { rewrite Hq. unfold restored, lastn. etrans; [apply sublist_drop|exact Hsub]. }
  assert (Hallq : Forall (fun e => live ttl now e /\ e.2 <= now) (rc_queue c)).
  { apply Forall_forall. intros e He. rewrite Forall_forall in Hall.
    apply Hall. by eapply sublist_subseteq. }
  split; [done|rewrite Ht; done| |].
  - split; [|eapply Forall_impl; [done|]; by intros ? []].
    eapply StronglySorted_sublist; [exact Hsubq|]. apply sort_by_key_sorted.
  - rewrite lastn_le by lia. rewrite Ht. simpl. symmetry. apply drop_expired_all.
    eapply Forall_impl; [done|]. by intros ? [].
Qed.
End reach.

Lemma wf_new n ttl : wf (new n ttl).
Proof. split; simpl; [constructor|done|lia]. Qed.

#[export] Hint Resolve wf_new wf_check wf_restore wf_sweep wf_evict : replay.

(** ** Properties *)

(** C1. The replay cache implements its specification: on every sequence of
    calls ordered by a monotonic clock, a fresh cache gives exactly the answers
    of "the key is among the last [max 1 max_size] accepted keys and was
    accepted at most [ttl] ago". *)
Theorem replay_cache_refines_spec n ttl t0 tr :
  0 <= ttl -> monotonic t0 tr ->
  fst (run (new n ttl) tr) = fst (Spec.run (Nat.max 1 n) ttl [] tr).
Proof.
  intros Httl Hmono. pose proof (sim_run t0 [] (new n ttl) tr (sim_new n ttl t0 Httl) Hmono) as Hr.
  change (capacity (new n ttl)) with (Nat.max 1 n) in Hr. simpl (rc_ttl _) in Hr.
  destruct (run (new n ttl) tr), (Spec.run (Nat.max 1 n) ttl [] tr). by destruct Hr as [-> _].
Qed.

Definition k1 : key := repeat x01 16.
Definition k2 : key := repeat x02 16.
Definition k3 : key := repeat x03 16.

Lemma replay_cache_refines_spec_witness :
  fst (run (new 2 60) [(k1, 0); (k1, 5); (k2, 6); (k3, 7); (k1, 8); (k3, 70)]) =
  [Fresh; Replay; Fresh; Fresh; Fresh; Fresh].
Proof.
  rewrite (replay_cache_refines_spec 2 60 0); [vm_compute; reflexivity|lia|simpl; lia].
Defined.

(** No replay is accepted inside the protection window: once a key has been
    accepted, offering it again at most [ttl] later and after fewer than
    [max 1 max_size] other calls is answered [Replay]. *)
Theorem no_replay_within_window n ttl t0 pre k t mid t' :
  0 <= ttl -> monotonic t0 (pre ++ (k, t) :: mid ++ [(k, t')]) ->
  (length mid < Nat.max 1 n)%nat -> t' - t <= ttl ->
  let rs := fst (run (new n ttl) (pre ++ (k, t) :: mid ++ [(k, t')])) in
  rs !! length pre = Some Fresh -> last rs = Some Replay.
Proof.
  intros Httl Hmono Hlen Hage rs Hfresh. subst rs.
  pose proof (sim_run t0 [] (new n ttl) _ (sim_new n ttl t0 Httl) Hmono) as Hr.
  change (capacity (new n ttl)) with (Nat.max 1 n) in Hr. simpl (rc_ttl _) in Hr.
  destruct (run (new n ttl) _) as [rs c]. simpl in Hfresh |- *.
  destruct (Spec.run _ _ _ (pre ++ _)) as [rs' h] eqn:E in Hr.
  destruct Hr as [<- _]. rewrite spec_run_app in E.
  pose proof (spec_run_length (Nat.max 1 n) ttl [] pre) as Hl1.
  destruct (Spec.run (Nat.max 1 n) ttl [] pre) as [rs1 h1]. simpl in E, Hl1.
  unfold Spec.check at 1 in E. destruct (decide (Spec.seen _ _ h1 k t)) as [Hs|Hs].
  { destruct (Spec.run _ _ h1 _). simplify_eq.
    rewrite list_lookup_middle in Hfresh by done. done. }
  rewrite spec_run_app in E.
  destruct (spec_run_extends (Nat.max 1 n) ttl (h1 ++ [(k, t)]) mid) as (h2 & Hh & Hl2).
  destruct (Spec.run _ _ (h1 ++ [(k, t)]) mid) as [rs2 h'] eqn:E2. simpl in E, Hh.
  subst h'. rewrite <- app_assoc in E. simpl in E. unfold Spec.check in E.
  rewrite decide_True in E by (apply spec_seen_recent; [lia|done|done]).
  simplify_eq. rewrite app_comm_cons, app_assoc. apply last_snoc.
Qed.

Lemma no_replay_within_window_witness :
  last (fst (run (new 2 60) ([(k2, 0)] ++ (k1, 5) :: [(k3, 6)] ++ [(k1, 65)]))) = Some Replay.
Proof.
  apply (no_replay_within_window 2 60 0 [(k2, 0)] k1 5 [(k3, 6)] 65);
    [lia|simpl; lia|simpl; lia|lia|vm_compute; reflexivity].
Defined.

Lemma run_queue_keys c tr :
  wf c -> let c' := snd (run c tr) in
  wf c' /\ forall k, k ∈ (rc_queue c').*1 -> k ∈ (rc_queue c).*1 \/ k ∈ tr.*1.
Proof.
  revert c. induction tr as [|[k now] tr IH]; intros c Hwf; simpl; [auto|].
  pose proof (check_and_insert_queue c k now Hwf) as Hst.
  destruct (check_and_insert_at c k now) as [r c1].
  destruct Hst as (_ & Hq & _ & _ & Hwf1). specialize (IH c1 Hwf1).
  destruct (run c1 tr) as [rs c2]. simpl in *. destruct IH as [Hwf2 IH]. split; [done|].
  intros k' [Hk|Hk]%IH; [|right; by right].
  set (q := drop_expired (rc_ttl c) now (rc_queue c)) in *.
  assert (forall k, k ∈ q.*1 -> k ∈ (rc_queue c).*1) as Hsub.
  { intros x. destruct (drop_expired_suffix (rc_ttl c) now (rc_queue c)) as [l Hl].
    fold q in Hl. rewrite Hl, fmap_app. set_solver. }
  rewrite Hq in Hk. case_bool_decide; [auto|]. rewrite fmap_app in Hk.
  apply elem_of_app in Hk as [Hk|Hk]; [|right; set_solver].
  left. apply Hsub. destruct (_ <=? _)%nat; [|done]. destruct q; [done|]. by right.
Qed.

(** No false positive: a key that was never offered before is always
    accepted, whatever the clock did. *)
Theorem never_seen_is_fresh n ttl tr k now :
  k ∉ tr.*1 -> last (fst (run (new n ttl) (tr ++ [(k, now)]))) = Some Fresh.
Proof.
  intros Hk. rewrite cache_run_app. pose proof (run_queue_keys (new n ttl) tr (wf_new n ttl)) as Hq.
  destruct (run (new n ttl) tr) as [rs c]. simpl in Hq |- *. destruct Hq as [Hwf Hq].
  pose proof (check_and_insert_queue c k now Hwf) as Hst.
  destruct (check_and_insert_at c k now) as [r c']. destruct Hst as (Hr & _).
  simpl. rewrite last_snoc. destruct r; [done|].
  destruct (drop_expired_suffix (rc_ttl c) now (rc_queue c)) as [l Hl].
  assert (k ∈ (rc_queue c).*1) as Hin
    by (rewrite Hl, fmap_app; apply elem_of_app; right; by apply Hr).
  apply Hq in Hin as [Hin|Hin]; [by apply elem_of_nil in Hin|done].
Qed.

Lemma never_seen_is_fresh_witness :
  last (fst (run (new 1 10) ([(k1, 3); (k2, 1)] ++ [(k3, 2)]))) = Some Fresh.
Proof. apply never_seen_is_fresh. vm_compute. set_solver. Defined.

(** C37. In every state reachable by insertions and restores, under any clock
    readings and any restored entries, the map and the queue hold the same
    entries with no duplicate key, and there are at most [max 1 max_size]. *)
Theorem reachable_wf_bounded `{!Platform} n ttl c :
  reachable n ttl c ->
  NoDup (rc_queue c).*1 /\ rc_map c = list_to_map (rc_queue c) /\ (len c <= Nat.max 1 n)%nat.
Proof.
  intros Hr. assert (wf c /\ rc_max_size c = n) as [Hwf Hn].
  { apply (rtc_ind_r (R := step) (fun c => wf c /\ rc_max_size c = n) (new n ttl)); [| |done].
    - split; [apply wf_new|done].
    - intros c1 c2 _ Hs [Hwf <-]. split; [by eapply step_wf|]. by eapply step_params. }
  pose proof (wf_bound c Hwf) as Hb. unfold len. rewrite wf_size by done.
  split; [by apply wf_nodup|]. split; [by apply wf_map|]. unfold capacity in Hb. lia.
Qed.

Lemma reachable_wf_bounded_witness :
  let c := snd (check_and_insert_at (snd (check_and_insert_at (new 1 60) k1 0)) k2 1) in
  (len c <= Nat.max 1 1)%nat.
Proof.
  apply (@reachable_wf_bounded unix_platform 1 60).
  eapply rtc_l; [apply step_check|]. eapply rtc_l; [apply step_check|]. apply rtc_refl.
Defined.
