(* ===== verification/Fs.v ===== *)
(** * Files

    The part of [std::fs] and [std::path] the relay uses: a file system maps
    path names to contents and permission bits; every operation may also be
    refused by the operating system, with an error the caller receives. *)

From S2P Require Import Prelude.

(** [std::io::ErrorKind], as far as the relay tells the kinds apart. *)
Inductive ErrorKind : Type :=
| NotFound
| AlreadyExists
| InvalidData
| InvalidInput
| OtherKind.

#[global] Instance ErrorKind_eq_dec : EqDecision ErrorKind.
Proof. solve_decision. Defined.

(** [std::io::Error]: a kind and a message. *)
Record io_error : Type := IoError { kind : ErrorKind; msg : string }.

#[global] Instance io_error_eq_dec : EqDecision io_error.
Proof. solve_decision. Defined.

Record file : Type := File { contents : list byte; mode : Z }.

(** 0o600, and the mode 0o644 of a file created without asking for one.  Off
    Unix, where files have no such bits, the latter stands for the protection the
    system gives a new file. *)
Definition OWNER_ONLY : Z := 384.
Definition DEFAULT_MODE : Z := 420.

(** The mode of a file created with [opts.mode(0o600)] under [#[cfg(unix)]]. *)
Definition private_mode `{!Platform} : Z := if cfg_unix then OWNER_ONLY else DEFAULT_MODE.

(** [std::fs::read]: [fault] is an error of the operating system, if any. *)
Definition read (fault : option io_error) (fs : gmap string file) (path : string)
  : result io_error (list byte) :=
  match fault with
  | Some e => Err e
  | None => match fs !! path with
            | Some f => Ok (contents f)
            | None => Err (IoError NotFound "No such file or directory")
            end
  end.

(** ** [Path::with_extension]

    The last component is what follows the last ['/']; its extension is what
    follows its last ['.'], unless that dot is its first character.  A path
    that ends in [".."] has no file name and is left alone.  Paths with a
    trailing slash are not considered. *)
Fixpoint split_last (sep : ascii) (s : list ascii) : option (list ascii * list ascii) :=
  match s with
  | [] => None
  | c :: s' =>
      match split_last sep s' with
      | Some (a, b) => Some (c :: a, b)
      | None => if decide (c = sep) then Some ([], s') else None
      end
  end.

Definition file_stem (name : list ascii) : list ascii :=
  match split_last "." name with
  | Some (c :: stem, _) => c :: stem
  | _ => name
  end.

Definition with_extension (path ext : string) : string :=
  let p := String.list_ascii_of_string path in
  let '(dir, name) := match split_last "/" p with
                      | Some (d, n) => (d ++ ["/"%char], n)
                      | None => ([], p)
                      end in
  if decide (name = [] \/ name = ["."; "."]%char) then path
  else String.string_of_list_ascii
         (dir ++ file_stem name ++ ["."%char] ++ String.list_ascii_of_string ext).

Example with_extension_replay :
  with_extension "/opt/gotham/state/replay.bin" "tmp" = "/opt/gotham/state/replay.tmp".
Proof. reflexivity. Qed.

Example with_extension_plain : with_extension "state.d/cache" "tmp" = "state.d/cache.tmp".
Proof. reflexivity. Qed.
