(* ===== verification/ReplayPersist.v ===== *)
(** * Persistence of the replay cache ([replay.rs], module [persist])

    The cache is written as a magic number followed by 24-byte records and read
    back at the next start.  The file models the codec, the atomic replacement
    of the file on disk and the load, and proves that a restart does not forget
    a packet that is still inside its protection window. *)

From S2P Require Import Prelude Fs Replay.

(** [b"GTHMRPL1"] *)
Definition MAGIC : list byte := String.list_byte_of_string "GTHMRPL1".
Definition RECORD : nat := 24.

(** [clock] is the time since the Unix epoch, [None] while the clock is set to
    a time before it. *)
Definition now_unix (clock : option Z) : Z := default 0 clock.

Definition encode (c : ReplayCache) (now now_unix : Z) : list byte :=
  encode_into c now now_unix MAGIC.

(** One record: a 16-byte key and a big-endian Unix timestamp. *)
Definition decode_record (r : list byte) : key * Z := (take 16 r, from_be_bytes (drop 16 r)).

Definition decode (bytes : list byte) : result io_error (list (key * Z)) :=
  if decide ((length bytes < length MAGIC)%nat \/ take (length MAGIC) bytes <> MAGIC) then
    Err (IoError InvalidData "replay cache: bad magic")
  else
    let body := drop (length MAGIC) bytes in
    if decide (length body mod RECORD <> 0)%nat then
      Err (IoError InvalidData "replay cache: truncated record")
    else Ok (map decode_record (chunks RECORD body)).

Section load.
Context `{!Platform}.

Definition load (fault : option io_error) (fs : gmap string file) (c : ReplayCache)
  (path : string) (now now_unix : Z) : result io_error nat * ReplayCache :=
  match read fault fs path with
  | Err e => if decide (kind e = NotFound) then (Ok 0%nat, c) else (Err e, c)
  | Ok bytes =>
      match decode bytes with
      | Err e => (Err e, c)
      | Ok entries =>
          let '(n, c) := restore_at c entries now now_unix in (Ok n, c)
      end
  end.
End load.

(** ** Writing

    [write_encoded] opens a temporary file beside the target, writes it and
    renames it over the target.  Each system call may fail; [write_all] may
    have written a part of the buffer when it does. *)
Record write_faults : Type := Faults {
  f_open : option io_error;
  f_perm : option io_error;
  f_write : option (nat * io_error);
  f_sync : option io_error;
  f_rename : option io_error;
}.

Definition no_faults : write_faults := Faults None None None None None.

(** The mode the temporary file ends up with: [set_permissions] is there on Unix
    only, and [mode(0o600)] applies to a file that is created, not to one that is
    there. *)
Definition cache_mode `{!Platform} (fs : gmap string file) (tmp : string) : Z :=
  if cfg_unix then OWNER_ONLY else from_option mode private_mode (fs !! tmp).

(** The result together with every state of the file system the call passes
    through, oldest first; the last one is the state it leaves behind. *)
Definition write_encoded `{!Platform} (flt : write_faults) (fs : gmap string file) (buf : list byte)
  (path : string) : result io_error nat * list (gmap string file) :=
  let tmp := with_extension path "tmp" in
  match f_open flt with
  | Some e => (Err e, [fs])
  | None =>
      let fs1 := <[tmp := File [] (from_option mode private_mode (fs !! tmp))]> fs in
      match (if cfg_unix then f_perm flt else None) with
      | Some e => (Err e, [fs; fs1])
      | None =>
          let m := cache_mode fs tmp in
          let fs2 := <[tmp := File [] m]> fs in
          match f_write flt with
          | Some (n, e) => (Err e, [fs; fs1; fs2; <[tmp := File (take n buf) m]> fs])
          | None =>
              let fs3 := <[tmp := File buf m]> fs in
              match f_sync flt with
              | Some e => (Err e, [fs; fs1; fs2; fs3])
              | None =>
                  match f_rename flt with
                  | Some e => (Err e, [fs; fs1; fs2; fs3])
                  | None =>
                      (Ok ((length buf - length MAGIC) / RECORD)%nat,
                       [fs; fs1; fs2; fs3;
                        if decide (tmp = path) then fs3
                        else <[path := File buf m]> (delete tmp fs)])
                  end
              end
          end
      end
  end.

Definition final_fs (fs : gmap string file) (states : list (gmap string file))
  : gmap string file := default fs (last states).

Definition save `{!Platform} (flt : write_faults) (fs : gmap string file) (c : ReplayCache)
  (path : string) (now now_unix : Z) : result io_error nat * gmap string file :=
  let '(r, states) := write_encoded flt fs (encode c now now_unix) path in
  (r, final_fs fs states).

(** ** Codec lemmas *)

(** Keys are 16-byte arrays. *)
Definition keys16 (c : ReplayCache) : Prop :=
  Forall (fun e => length e.1 = 16%nat) (rc_queue c).

Lemma snapshot_cons ttl now u k ts q m n :
  snapshot_at (mkCache m ((k, ts) :: q) ttl n) now u =
  (if ttl <? duration_since now ts then []
   else [(k, saturating_sub u (as_secs (duration_since now ts)))]) ++
  snapshot_at (mkCache m q ttl n) now u.
Proof.
  unfold snapshot_at. simpl. rewrite filter_cons. simpl.
  destruct (Z.ltb_spec ttl (duration_since now ts)).
  - rewrite decide_False by lia. done.
  - rewrite decide_True by lia. done.
Qed.

(** The single-pass encoder writes the snapshot, record by record. *)
Lemma encode_entries_snapshot c now u :
  encode_entries (rc_ttl c) now u (rc_queue c) =
  concat (map (fun '(k, ts) => k ++ to_be_bytes 8 ts) (snapshot_at c now u)).
Proof.
  destruct c as [m q ttl n]. simpl.
  induction q as [|[k ts] q IH]; [done|]. rewrite snapshot_cons. simpl.
  destruct (_ <? _); [done|]. simpl. rewrite IH. by rewrite <- app_assoc.
Qed.

Lemma decode_record_app k ts :
  length k = 16%nat -> 0 <= ts <= u64_max -> decode_record (k ++ to_be_bytes 8 ts) = (k, ts).
Proof.
  intros Hk Hts. unfold decode_record. rewrite <- Hk, take_app_length, drop_app_length.
  rewrite from_to_be_bytes; [done|]. unfold u64_max in Hts. simpl. lia.
Qed.

Lemma decode_records (es : list (key * Z)) :
  Forall (fun e => length e.1 = 16%nat /\ 0 <= e.2 <= u64_max) es ->
  let body := concat (map (fun '(k, ts) => k ++ to_be_bytes 8 ts) es) in
  length body = (RECORD * length es)%nat /\ map decode_record (chunks RECORD body) = es.
Proof.
  induction 1 as [|[k ts] es [Hk Hts] Hall [IHl IH]]; simpl; [done|]. simpl in Hk, Hts.
  assert (length (k ++ to_be_bytes 8 ts) = RECORD) as Hr
    by by rewrite length_app, length_to_be_bytes, Hk.
  split; [rewrite length_app, Hr, IHl; unfold RECORD; lia|].
  rewrite chunks_app by (unfold RECORD; done || lia). simpl. by rewrite decode_record_app, IH.
Qed.

Lemma snapshot_ranges c now u :
  keys16 c -> is_u64 u ->
  Forall (fun e => length e.1 = 16%nat /\ 0 <= e.2 <= u64_max) (snapshot_at c now u).
Proof.
  intros Hk Hu. unfold snapshot_at. apply Forall_map, Forall_forall.
  intros [k ts] [_ Hin]%list_elem_of_filter. unfold keys16 in Hk.
  rewrite Forall_forall in Hk. specialize (Hk _ Hin). simpl in *.
  split; [done|]. unfold is_u64, saturating_sub, as_secs, duration_since, NANOS_PER_SEC in *.
  assert (0 <= Z.max 0 (now - ts) / 1000000000) by (apply Z.div_pos; lia). lia.
Qed.

Lemma decode_encode c now u :
  keys16 c -> is_u64 u -> decode (encode c now u) = Ok (snapshot_at c now u).
Proof.
  intros Hk Hu. unfold encode, encode_into. rewrite encode_entries_snapshot.
  destruct (decode_records (snapshot_at c now u)) as [Hl Hd]; [by apply snapshot_ranges|].
  unfold decode. rewrite decide_False.
  - rewrite drop_app_length. rewrite decide_False; [by rewrite Hd|].
    rewrite Hl. intros Hm. apply Hm. rewrite Nat.mul_comm. by apply Nat.Div0.mod_mul.
  - rewrite length_app, take_app_length. intros [?|?]; [lia|done].
Qed.

(** ** Restoring into an empty cache *)
Section restart.
Context `{!Platform}.

Lemma adopt_keys ttl now u es :
  (adopt ttl now u es).*1 `sublist_of` es.*1.
Proof.
  induction es as [|[k ts] es IH]; simpl; [done|].
  destruct (_ <? _); simpl; by constructor.
Qed.

Lemma retain_new_id (seen : gset key) l :
  NoDup l.*1 -> Forall (fun e => e.1 ∉ seen) l -> retain_new ∅ seen l = l.
Proof.
  revert seen. induction l as [|[k ts] l IH]; intros seen Hnd Hall; simpl; [done|].
  apply NoDup_cons in Hnd as [Hk Hnd]. apply Forall_cons in Hall as [Hs Hall]. simpl in *.
  rewrite bool_decide_eq_false_2 by (rewrite lookup_empty; apply is_Some_None).
  rewrite bool_decide_eq_false_2 by done. f_equal. apply IH; [done|].
  apply Forall_forall. intros e He. rewrite Forall_forall in Hall.
  assert (e.1 <> k) by (intros <-; apply Hk; apply list_elem_of_fmap; eauto).
  specialize (Hall e He). set_solver.
Qed.

(** An empty cache with room for all of them adopts every live entry. *)
Lemma restored_new n ttl es now u :
  NoDup es.*1 -> (length es <= n)%nat ->
  restored (new n ttl) es now u = sort_by_key snd (adopt ttl now u es).
Proof.
  intros Hnd Hl. unfold restored. simpl.
  pose proof (adopt_keys ttl now u es) as Hsub.
  assert (NoDup (sort_by_key snd (adopt ttl now u es)).*1) as Hnd'.
  { rewrite sort_by_key_perm. by eapply sublist_NoDup. }
  rewrite retain_new_id; [|done|apply Forall_forall; set_solver].
  apply lastn_le. rewrite sort_by_key_perm.
  apply sublist_length in Hsub. rewrite !length_fmap in Hsub.
  rewrite map_size_empty. lia.
Qed.

Lemma snapshot_keys c now u : (snapshot_at c now u).*1 `sublist_of` (rc_queue c).*1.
Proof.
  unfold snapshot_at. change (map ?f ?l) with (f <$> l). rewrite <- list_fmap_compose.
  rewrite (list_fmap_ext _ fst) by (by intros ? [? ?] ?).
  apply fmap_sublist, sublist_filter.
Qed.
End restart.

Lemma save_ok `{!Platform} fs c path now u :
  snd (save no_faults fs c path now u) !! path =
    Some (File (encode c now u) (cache_mode fs (with_extension path "tmp"))).
Proof.
  unfold save, write_encoded, no_faults, final_fs. destruct cfg_unix; simpl;
    (case_decide as Heq; [|by rewrite lookup_insert_eq]; by rewrite lookup_insert, decide_True).
Qed.

Lemma snapshot_split c now u q1 k ts q2 :
  rc_queue c = q1 ++ (k, ts) :: q2 -> live (rc_ttl c) now (k, ts) ->
  exists es1 es2, snapshot_at c now u =
      es1 ++ (k, saturating_sub u (as_secs (duration_since now ts))) :: es2 /\
    (length es2 <= length q2)%nat.
Proof.
  intros Hq Hl. unfold snapshot_at. rewrite Hq, filter_app, filter_cons_True, map_app by done. simpl.
  do 2 eexists. split; [done|]. rewrite length_map. apply length_filter.
Qed.

(** Timestamps keep their order when they are written and when they are read,
    as long as the clock reaches back far enough. *)
Lemma snapshot_sorted c now u :
  ordered now (rc_queue c) -> StronglySorted (key_le snd) (snapshot_at c now u).
Proof.
  intros [Hs _]. unfold snapshot_at. induction Hs as [|[k ts] q _ IH Hall]; simpl; [constructor|].
  rewrite filter_cons. case_decide; [|done]. simpl. constructor; [done|].
  apply Forall_map, Forall_forall. intros [k' ts'] [_ Hin]%list_elem_of_filter.
  rewrite Forall_forall in Hall. specialize (Hall _ Hin). unfold key_le in *. simpl in *.
  unfold saturating_sub, as_secs, duration_since, NANOS_PER_SEC.
  assert (Z.max 0 (now - ts') / 1000000000 <= Z.max 0 (now - ts) / 1000000000)
    by (apply Z.div_le_mono; lia). lia.
Qed.

(** ** The states of a write *)
(** The file is never torn: in every state the write passes through, whatever
    system call fails and however much of the buffer [write_all] managed to
    write, the target holds either its old contents or the whole new buffer,
    owner-only on Unix. *)
Lemma write_encoded_atomic `{!Platform} flt fs buf path fs' :
  with_extension path "tmp" <> path -> fs' ∈ snd (write_encoded flt fs buf path) ->
  fs' !! path = fs !! path \/ fs' !! path = Some (File buf (cache_mode fs (with_extension path "tmp"))).
Proof.
  intros Hne Hin. unfold write_encoded in Hin. rewrite decide_False in Hin by done.
  repeat case_match; simpl in Hin;
    repeat (apply elem_of_cons in Hin as [->|Hin]);
    first [by apply elem_of_nil in Hin | by left | left; by apply lookup_insert_ne
          | right; by apply lookup_insert_eq].
Qed.

(** A write that reports success has replaced the file; one that fails has
    left it alone. *)
Lemma write_encoded_final `{!Platform} flt fs buf path :
  with_extension path "tmp" <> path ->
  let written := write_encoded flt fs buf path in
  final_fs fs written.2 !! path =
    if bool_decide (is_Some (result_ok written.1))
    then Some (File buf (cache_mode fs (with_extension path "tmp"))) else fs !! path.
Proof.
  intros Hne. unfold write_encoded, final_fs. rewrite decide_False by done.
  repeat case_match; simpl; rewrite ?lookup_insert_eq, ?lookup_insert_ne by done; done.
Qed.

Lemma write_encoded_succeeds `{!Platform} fs buf path :
  (write_encoded no_faults fs buf path).1 = Ok ((length buf - length MAGIC) / RECORD)%nat.
Proof. unfold write_encoded, no_faults. by destruct cfg_unix. Qed.

(** ** Reading back *)
Section reload.
Context `{!Platform}.

Lemma adopt_app ttl now u es1 es2 :
  adopt ttl now u (es1 ++ es2) = adopt ttl now u es1 ++ adopt ttl now u es2.
Proof.
  induction es1 as [|[k ts] es1 IH]; simpl; [done|]. by destruct (_ <? _); rewrite IH.
Qed.

Lemma adopt_sorted ttl now u es :
  instant_min <= now - ttl -> StronglySorted (key_le snd) es ->
  StronglySorted (key_le snd) (adopt ttl now u es).
Proof.
  intros Hmin. induction 1 as [|[k ts] es _ IH Hall]; simpl; [constructor|].
  destruct (Z.ltb_spec ttl (from_secs (saturating_sub u ts))) as [|Hle]; [done|].
  constructor; [done|]. clear IH. induction Hall as [|[k' ts'] es Hts _ IH]; simpl; [constructor|].
  destruct (Z.ltb_spec ttl (from_secs (saturating_sub u ts'))) as [|Hle']; [done|].
  constructor; [|done]. unfold key_le, checked_sub in *. simpl in *.
  rewrite !decide_True by lia. simpl. unfold from_secs, saturating_sub, NANOS_PER_SEC. lia.
Qed.

Lemma load_encoded fs c m path now u c0 now' u' :
  keys16 c -> is_u64 u -> fs !! path = Some (File (encode c now u) m) ->
  snd (load None fs c0 path now' u') = snd (restore_at c0 (snapshot_at c now u) now' u').
Proof.
  intros Hk Hu Hf. unfold load, read. rewrite Hf. simpl. rewrite decode_encode by done.
  by destruct (restore_at _ _ _ _).
Qed.

(** A restart does not reopen the replay window: write the cache to a file,
    start again with an empty one on another monotonic clock, load the file.  An
    entry whose age (whole seconds at the save, plus the wall-clock time since)
    is still inside the TTL is in the history of the new cache, no older than
    that, and in its place. *)
Lemma reloaded_entry c fs m path now u now' u' q1 k ts q2 :
  wf c -> 0 <= rc_ttl c -> keys16 c -> ordered now (rc_queue c) -> (1 <= rc_max_size c)%nat ->
  is_u64 u -> u <= u' -> fs !! path = Some (File (encode c now u) m) ->
  rc_queue c = q1 ++ (k, ts) :: q2 -> live (rc_ttl c) now (k, ts) ->
  let age := as_secs (duration_since now ts) in
  age <= u -> from_secs (u' - u + age) <= rc_ttl c ->
  let c' := snd (load None fs (new (rc_max_size c) (rc_ttl c)) path now' u') in
  exists h1 ts' h2, sim now' (h1 ++ (k, ts') :: h2) c' /\ now' - from_secs (u' - u + age) <= ts' /\
    (length h2 < capacity c)%nat /\ (instant_min <= now' - rc_ttl c -> (length h2 <= length q2)%nat) /\
    rc_ttl c' = rc_ttl c /\ capacity c' = capacity c.
Proof.
  intros Hwf Httl Hk16 Hord Hn Hu Huu Hf Hq Hl age Hage Hwin. cbv zeta.
  rewrite (load_encoded _ c m _ now u) by done. destruct (snapshot_split c now u q1 k ts q2 Hq Hl) as (es1 & es2 & Hes & Hlen2).
  pose proof (snapshot_sorted c now u Hord) as Hsort. pose proof (snapshot_keys c now u) as Hkeys.
  set (es := snapshot_at c now u) in *. clearbody es. fold age in Hes.
  assert (length es <= rc_max_size c)%nat as Hlen.
  { apply sublist_length in Hkeys. rewrite !length_fmap in Hkeys.
    pose proof (wf_bound c Hwf) as Hb. unfold capacity in Hb. lia. }
  assert (NoDup es.*1) as Hnd by (eapply sublist_NoDup; [apply (wf_nodup c Hwf)|done]).
  pose proof (sim_restored (rc_max_size c) (rc_ttl c) es now' u' Httl) as Hsim. cbv zeta in Hsim.
  pose proof (restore_at_spec (new (rc_max_size c) (rc_ttl c)) es now' u' (wf_new _ _)) as Hr.
  destruct (restore_at _ es now' u') as [i c']. destruct Hr as (_ & Hwf' & Hq' & Ht' & Hm').
  simpl in Hsim, Hq', Ht', Hm' |- *. rewrite restored_new in Hq' by done.
  assert (0 <= age) as Ha by (apply Z.div_pos; [unfold duration_since; lia|done]). clearbody age.
  set (ts' := default now' (checked_sub now' (from_secs (saturating_sub u' (saturating_sub u age))))).
  assert (adopt (rc_ttl c) now' u' es =
    adopt (rc_ttl c) now' u' es1 ++ (k, ts') :: adopt (rc_ttl c) now' u' es2) as Had.
  { rewrite Hes, adopt_app. simpl. rewrite (proj2 (Z.ltb_ge _ _)); [done|].
    unfold saturating_sub, from_secs, NANOS_PER_SEC in *. lia. }
  assert (now' - from_secs (u' - u + age) <= ts') as Hts'.
  { unfold ts', checked_sub, saturating_sub, from_secs, NANOS_PER_SEC in *. case_decide; simpl; lia. }
  assert (exists h1 h2, rc_queue c' = h1 ++ (k, ts') :: h2 /\
    (instant_min <= now' - rc_ttl c -> (length h2 <= length q2)%nat)) as (h1 & h2 & Hh & Hpos).
  { rewrite Hq'. destruct (decide (instant_min <= now' - rc_ttl c)).
    - rewrite sort_by_key_id by by apply adopt_sorted. rewrite Had. do 2 eexists. split; [done|]. intros _.
      pose proof (sublist_length _ _ (adopt_keys (rc_ttl c) now' u' es2)) as Hl2.
      rewrite !length_fmap in Hl2. lia.
    - assert ((k, ts') ∈ sort_by_key snd (adopt (rc_ttl c) now' u' es)) as Hin
        by (rewrite sort_by_key_perm, Had; set_solver).
      apply list_elem_of_split in Hin as (h1 & h2 & ->). by exists h1, h2. }
  assert (capacity c' = capacity c) as Hcap by (unfold capacity; congruence).
  exists h1, ts', h2. rewrite <- Hh. split_and!; try done.
  pose proof (wf_bound c' Hwf') as Hb. rewrite Hh, length_app in Hb. simpl in Hb. lia.
Qed.
End reload.

(** ** Properties *)

Lemma write_encoded_atomic_witness :
  let flt := Faults None None (Some (3%nat, IoError OtherKind "No space left")) None None in
  let fs : gmap string file := {[ "r.bin" := File MAGIC 384 ]} in
  let fs' := <["r.tmp" := File (take 3 MAGIC) 384]> fs in
  fs' !! "r.bin" = fs !! "r.bin" \/ fs' !! "r.bin" = Some (File MAGIC 384).
Proof.
  intros flt fs fs'. apply (@write_encoded_atomic unix_platform flt fs MAGIC "r.bin").
  - vm_compute. discriminate.
  - do 3 right. left.
Defined.

(** C38. A file that is not a whole snapshot is refused and leaves the cache as
    it was: the load reports [InvalidData] exactly when the magic number is
    wrong or the body is not a whole number of records. *)
Theorem load_refuses_corrupt `{!Platform} fs c path now u f :
  fs !! path = Some f ->
  let bytes := contents f in
  let corrupt := take 8 bytes <> MAGIC \/ ((length bytes - 8) mod 24 <> 0)%nat in
  ((exists e, fst (load None fs c path now u) = Err e) <-> corrupt) /\
  (corrupt -> snd (load None fs c path now u) = c).
Proof.
  intros Hf bytes corrupt. unfold load, read. rewrite Hf. fold bytes.
  assert ((exists e, decode bytes = Err e) <-> corrupt) as Hd.
  { unfold decode, corrupt. change (length MAGIC) with 8%nat. unfold RECORD.
    rewrite <- length_drop. case_decide as H1.
    - split; [intros _; left|intros _; eauto]. destruct H1 as [Hl|]; [|done].
      intros Ht. apply (f_equal length) in Ht. rewrite length_take in Ht.
      change (length MAGIC) with 8%nat in Ht. lia.
    - case_decide as H2; [split; [auto|eauto]|].
      split; [by intros []|]. intros [Hc|Hc]; [destruct H1; by right|done]. }
  destruct (decode bytes) as [es|e].
  - assert (~ corrupt) as Hnc by (intros Hc; apply Hd in Hc as [e He]; done).
    destruct (restore_at c es now u). split; [|done]. by split; [intros []|].
  - split; [|done]. simpl. naive_solver.
Qed.

Lemma load_refuses_corrupt_witness :
  let fs := {[ "t" := File (MAGIC ++ [x01; x02; x03]) 384 ]} in
  snd (@load unix_platform None fs (new 10 60) "t" 0 0) = new 10 60.
Proof.
  intros fs. apply (@load_refuses_corrupt unix_platform fs (new 10 60) "t" 0 0
                      (File (MAGIC ++ [x01; x02; x03]) 384)); [done|].
  right. vm_compute. discriminate.
Defined.
