(* ===== verification/F64.v ===== *)
(** * IEEE 754 binary64 ([f64])

    The rate limiter and the delay scheduler compute in [f64].  The file fixes
    the operations they use, as the Standard Library's executable specification
    of floating-point arithmetic at precision 53 and exponent range 1024, and
    the conversions between [Duration] and [f64].  Its lemmas say when the
    arithmetic is exact: on integers below 2^53 it is integer arithmetic. *)

From Stdlib Require Export Floats.SpecFloat.
From S2P Require Import Prelude.

Abbreviation f64 := spec_float.

Definition fadd : f64 -> f64 -> f64 := SFadd 53 1024.
Definition fsub : f64 -> f64 -> f64 := SFsub 53 1024.
Definition fmul : f64 -> f64 -> f64 := SFmul 53 1024.
Definition fdiv : f64 -> f64 -> f64 := SFdiv 53 1024.
Definition fneg : f64 -> f64 := SFopp.
Definition fltb : f64 -> f64 -> bool := SFltb.
Definition fgtb (x y : f64) : bool := SFltb y x.
Definition feqb : f64 -> f64 -> bool := SFeqb.

(** [z as f64], rounded to nearest, ties to even. *)
Definition of_Z (z : Z) : f64 := binary_normalize 53 1024 z 0 false.

Definition f_zero : f64 := S754_zero false.
Definition f_one : f64 := of_Z 1.
Definition f_two : f64 := of_Z 2.

(** [f64::MIN_POSITIVE], 2^-1022. *)
Definition MIN_POSITIVE : f64 := S754_finite false (2 ^ 52) (-1074).

Definition is_nan (x : f64) : bool := match x with S754_nan => true | _ => false end.

Definition is_finite (x : f64) : bool :=
  match x with S754_zero _ | S754_finite _ _ _ => true | _ => false end.

(** [f64::max] and [f64::min]: a NaN operand is ignored. *)
Definition fmax (x y : f64) : f64 :=
  if is_nan x then y else if is_nan y then x else if fltb x y then y else x.
Definition fmin (x y : f64) : f64 :=
  if is_nan x then y else if is_nan y then x else if fltb y x then y else x.

(** [f64::clamp], after its assertion [min <= max]. *)
Definition fclamp (x lo hi : f64) : option f64 :=
  if SFleb lo hi then
    Some (let x := if fltb x lo then lo else x in if fgtb x hi then hi else x)
  else None.

(** [Duration::as_secs_f64]. *)
Definition as_secs_f64 (d : Z) : f64 :=
  fadd (of_Z (d / NANOS_PER_SEC)) (fdiv (of_Z (d mod NANOS_PER_SEC)) (of_Z NANOS_PER_SEC)).

(** Division rounded to nearest, ties to even. *)
Definition div_round_even (n d : Z) : Z :=
  let q := n / d in
  let r := n mod d in
  match 2 * r ?= d with
  | Lt => q
  | Gt => q + 1
  | Eq => if Z.even q then q else q + 1
  end.

(** [Duration::from_secs_f64]: nearest nanosecond; [None] is its panic, on a
    negative, non-finite or too large argument. *)
Definition from_secs_f64 (x : f64) : option Z :=
  match x with
  | S754_zero _ => Some 0
  | S754_finite false m e =>
      let ns := if 0 <=? e then Z.pos m * 2 ^ e * NANOS_PER_SEC
                else div_round_even (Z.pos m * NANOS_PER_SEC) (2 ^ (- e)) in
      if ns <=? u64_max * NANOS_PER_SEC + 999999999 then Some ns else None
  | _ => None
  end.

Example as_secs_f64_half : as_secs_f64 1500000000 = S754_finite false (3 * 2 ^ 51) (-52).
Proof. vm_compute. reflexivity. Qed.

Example from_secs_f64_half : from_secs_f64 (as_secs_f64 1500000000) = Some 1500000000.
Proof. vm_compute. reflexivity. Qed.

(** ** Digits and shifts *)
Lemma digits2_pos_log2 p : Z.pos (digits2_pos p) = Z.log2 (Z.pos p) + 1.
Proof.
  induction p as [p IH|p IH|]; simpl digits2_pos; [| |done].
  - rewrite Pos2Z.inj_succ, IH. rewrite Pos2Z.inj_xI, Z.log2_succ_double by lia. lia.
  - rewrite Pos2Z.inj_succ, IH. rewrite Pos2Z.inj_xO, Z.log2_double by lia. lia.
Qed.

Definition digits (z : Z) : Z := Z.log2 z + 1.

Lemma Zdigits2_digits z : 0 < z -> Zdigits2 z = digits z.
Proof. destruct z as [|p|p]; try done. intros _. apply digits2_pos_log2. Qed.

Lemma digits_mul_pow2 z k : 0 < z -> 0 <= k -> digits (z * 2 ^ k) = digits z + k.
Proof. intros. unfold digits. rewrite Z.log2_mul_pow2; lia. Qed.

Lemma digits_bounds z : 0 < z -> 2 ^ (digits z - 1) <= z < 2 ^ digits z.
Proof.
  intros Hz. unfold digits. pose proof (Z.log2_spec z Hz).
  replace (Z.log2 z + 1 - 1) with (Z.log2 z) by lia. by rewrite Z.add_1_r.
Qed.

Lemma digits_pos z : 0 < z -> 1 <= digits z.
Proof. intros. unfold digits. pose proof (Z.log2_nonneg z). lia. Qed.

Lemma digits_lt_pow2 z n : 0 < z < 2 ^ n -> digits z <= n.
Proof. intros [Hz Hlt]. unfold digits. apply Z.log2_lt_pow2 in Hlt; lia. Qed.

Lemma iter_pos_nat {A} (f : A -> A) p x : SpecFloat.iter_pos f p x = Nat.iter (Pos.to_nat p) f x.
Proof.
  revert x. induction p as [p IH|p IH|]; intros x; simpl SpecFloat.iter_pos; [| |done].
  - rewrite !IH, Pos2Nat.inj_xI. replace (S (2 * Pos.to_nat p))
      with (Pos.to_nat p + (Pos.to_nat p + 1))%nat by lia.
    by rewrite !Nat.iter_add.
  - rewrite !IH, Pos2Nat.inj_xO. replace (2 * Pos.to_nat p)%nat
      with (Pos.to_nat p + Pos.to_nat p)%nat by lia.
    by rewrite Nat.iter_add.
Qed.

(** Shifting out zeros is exact. *)
Lemma shr_1_even m :
  0 < m -> shr_1 (Build_shr_record (2 * m) false false) = Build_shr_record m false false.
Proof. by destruct m. Qed.

Lemma shr_pow2 m e k :
  0 < m -> 0 <= k ->
  shr (Build_shr_record (m * 2 ^ k) false false) e k = (Build_shr_record m false false, e + k).
Proof.
  intros Hm Hk. unfold shr. destruct k as [|p|p]; [|f_equal|lia].
  { rewrite Z.mul_1_r, Z.add_0_r. done. }
  rewrite iter_pos_nat, <- (positive_nat_Z p). generalize (Pos.to_nat p) as n. clear Hk.
  induction n as [|n IH]; [simpl; by rewrite Z.mul_1_r|].
  rewrite Nat2Z.inj_succ, Z.pow_succ_r by lia.
  rewrite Nat.iter_succ_r. rewrite <- IH. f_equal.
  replace (m * (2 * 2 ^ Z.of_nat n)) with (2 * (m * 2 ^ Z.of_nat n)) by lia.
  apply shr_1_even. assert (0 < 2 ^ Z.of_nat n) by (apply Z.pow_pos_nonneg; lia). nia.
Qed.

(** ** Exact integers

    The canonical representation of a positive integer below 2^53. *)
Definition fz (a : Z) : f64 :=
  if a =? 0 then f_zero
  else S754_finite false (Z.to_pos (a * 2 ^ (53 - digits a))) (digits a - 53).

Definition exact (a : Z) : Prop := 0 <= a < 2 ^ 53.

Lemma fz_pos a : 0 < a -> fz a = S754_finite false (Z.to_pos (a * 2 ^ (53 - digits a))) (digits a - 53).
Proof. intros. unfold fz. by rewrite (proj2 (Z.eqb_neq _ _)) by lia. Qed.

Lemma pos_iter_xO m p : Z.pos (Pos.iter xO m p) = Z.pos m * 2 ^ Z.pos p.
Proof.
  rewrite Pos2Nat.inj_iter, <- (positive_nat_Z p). induction (Pos.to_nat p) as [|n IH].
  { simpl. lia. }
  rewrite Nat2Z.inj_succ, Z.pow_succ_r by lia. simpl. rewrite Pos2Z.inj_xO, IH. lia.
Qed.

Lemma shr_fexp_exact a k :
  0 < a -> digits a <= 53 -> 53 - digits a <= k ->
  shr_fexp 53 1024 (a * 2 ^ k) (- k) loc_Exact =
  (Build_shr_record (a * 2 ^ (53 - digits a)) false false, digits a - 53).
Proof.
  intros Ha Hd Hk. pose proof (digits_pos a Ha).
  assert (0 < 2 ^ k) by (apply Z.pow_pos_nonneg; lia).
  unfold shr_fexp. rewrite Zdigits2_digits by nia. rewrite digits_mul_pow2 by lia.
  unfold fexp, emin.
  replace (Z.max (digits a + k + - k - 53) (3 - 1024 - 53) - - k)
    with (k - (53 - digits a)) by lia.
  simpl (shr_record_of_loc _ _).
  replace (a * 2 ^ k) with (a * 2 ^ (53 - digits a) * 2 ^ (k - (53 - digits a))).
  - rewrite shr_pow2; [f_equal; lia| |lia].
    assert (0 < 2 ^ (53 - digits a)) by (apply Z.pow_pos_nonneg; lia). nia.
  - rewrite <- Z.mul_assoc, <- Z.pow_add_r by lia. do 2 f_equal. lia.
Qed.

Lemma round_aux_exact a k :
  0 < a -> digits a <= 53 -> 53 - digits a <= k ->
  binary_round_aux 53 1024 false (a * 2 ^ k) (- k) loc_Exact = fz a.
Proof.
  intros Ha Hd Hk. pose proof (digits_pos a Ha).
  unfold binary_round_aux. rewrite shr_fexp_exact by done. simpl.
  replace (digits a - 53) with (- (53 - digits a)) by lia.
  rewrite shr_fexp_exact by lia. simpl. rewrite fz_pos by done.
  assert (0 < a * 2 ^ (53 - digits a)) as Hp
    by (assert (0 < 2 ^ (53 - digits a)) by (apply Z.pow_pos_nonneg; lia); nia).
  destruct (a * 2 ^ (53 - digits a)) as [|p|p]; try lia.
  rewrite (proj2 (Z.leb_le _ _)) by lia. done.
Qed.

Lemma exact_digits a : 0 < a < 2 ^ 53 -> digits a <= 53.
Proof. apply digits_lt_pow2. Qed.

Lemma binary_round_exact m a k :
  0 < a < 2 ^ 53 -> 0 <= k -> Z.pos m = a * 2 ^ k ->
  binary_round 53 1024 false m (- k) = fz a.
Proof.
  intros Ha Hk Hm. pose proof (exact_digits a Ha) as Hd.
  pose proof (digits_pos a ltac:(lia)).
  unfold binary_round. rewrite digits2_pos_log2, Hm.
  change (Z.log2 (a * 2 ^ k) + 1) with (digits (a * 2 ^ k)).
  rewrite digits_mul_pow2 by lia. unfold fexp, emin.
  replace (Z.max (digits a + k + - k - 53) (3 - 1024 - 53)) with (- (53 - digits a)) by lia.
  unfold shl_align. destruct (- (53 - digits a) - - k) as [|p|p] eqn:E.
  - rewrite Hm. apply round_aux_exact; lia.
  - rewrite Hm. apply round_aux_exact; lia.
  - rewrite pos_iter_xO, Hm, <- Z.mul_assoc, <- Z.pow_add_r by lia.
    replace (k + Z.pos p) with (53 - digits a) by lia. apply round_aux_exact; lia.
Qed.

Lemma normalize_exact a k :
  exact a -> 0 <= k -> binary_normalize 53 1024 (a * 2 ^ k) (- k) false = fz a.
Proof.
  intros Ha Hk. unfold exact in Ha. assert (0 < 2 ^ k) by (apply Z.pow_pos_nonneg; lia).
  destruct (decide (a = 0)) as [->|Hne]; [by rewrite Z.mul_0_l|].
  destruct (a * 2 ^ k) as [|p|p] eqn:E; simpl; [nia| |nia].
  by apply binary_round_exact; [lia| |].
Qed.

(** [as f64] is exact below 2^53. *)
Lemma of_Z_exact a : exact a -> of_Z a = fz a.
Proof.
  intros Ha. unfold of_Z. rewrite <- (normalize_exact a 0 Ha) by lia.
  by rewrite Z.mul_1_r.
Qed.

(** Aligning the canonical mantissa of an integer to exponent [-k]. *)
Lemma shl_align_fz a k :
  0 < a < 2 ^ 53 -> 53 - digits a <= k ->
  Z.pos (fst (shl_align (Z.to_pos (a * 2 ^ (53 - digits a))) (digits a - 53) (- k))) =
  a * 2 ^ k.
Proof.
  intros Ha Hk. pose proof (exact_digits a Ha).
  assert (0 < a * 2 ^ (53 - digits a))
    by (assert (0 < 2 ^ (53 - digits a)) by (apply Z.pow_pos_nonneg; lia); nia).
  unfold shl_align. destruct (- k - (digits a - 53)) as [|p|p] eqn:E; simpl; [|lia|].
  - rewrite Z2Pos.id by lia. do 2 f_equal. lia.
  - rewrite pos_iter_xO, Z2Pos.id, <- Z.mul_assoc, <- Z.pow_add_r by lia.
    do 2 f_equal. lia.
Qed.

Lemma fz_cases a : exact a -> a = 0 \/ 0 < a < 2 ^ 53.
Proof. unfold exact. lia. Qed.

(** Both operands of an exact sum or difference at their common exponent. *)
Lemma align_pair a b :
  0 < a < 2 ^ 53 -> 0 < b < 2 ^ 53 ->
  let k := Z.max (53 - digits a) (53 - digits b) in
  Z.min (digits a - 53) (digits b - 53) = - k /\ 0 <= k /\
  Z.pos (fst (shl_align (Z.to_pos (a * 2 ^ (53 - digits a))) (digits a - 53) (- k))) = a * 2 ^ k /\
  Z.pos (fst (shl_align (Z.to_pos (b * 2 ^ (53 - digits b))) (digits b - 53) (- k))) = b * 2 ^ k.
Proof.
  intros Ha Hb k. pose proof (exact_digits a Ha).
  split; [lia|]. split; [lia|]. split; apply shl_align_fz; lia.
Qed.

Lemma fadd_fz a b : exact a -> exact b -> exact (a + b) -> fadd (fz a) (fz b) = fz (a + b).
Proof.
  intros [->|Ha]%fz_cases [->|Hb]%fz_cases Hs; [done| | |].
  - rewrite Z.add_0_l. by rewrite (fz_pos b) by lia.
  - rewrite Z.add_0_r. by rewrite (fz_pos a) by lia.
  - destruct (align_pair a b Ha Hb) as (He & Hk & Hma & Hmb).
    rewrite !fz_pos by lia. unfold fadd, SFadd. cbv zeta.
    rewrite He. unfold cond_Zopp. rewrite Hma, Hmb, <- Z.mul_add_distr_r.
    rewrite normalize_exact by done. apply fz_pos. lia.
Qed.

Lemma fsub_fz a b : exact a -> exact b -> b <= a -> fsub (fz a) (fz b) = fz (a - b).
Proof.
  intros [->|Ha]%fz_cases [->|Hb]%fz_cases Hs; [done|lia| |].
  - rewrite Z.sub_0_r. by rewrite (fz_pos a) by lia.
  - destruct (align_pair a b Ha Hb) as (He & Hk & Hma & Hmb).
    rewrite (fz_pos a), (fz_pos b) by lia. unfold fsub, SFsub. cbv zeta.
    rewrite He. unfold cond_Zopp. rewrite Hma, Hmb, <- Z.mul_sub_distr_r.
    apply normalize_exact; [unfold exact; lia|done].
Qed.

Lemma digits_mul a b : 0 < a -> 0 < b -> digits a + digits b - 1 <= digits (a * b).
Proof.
  intros. unfold digits. pose proof (Z.log2_mul_below a b). lia.
Qed.

Lemma fmul_fz a b : exact a -> exact b -> exact (a * b) -> fmul (fz a) (fz b) = fz (a * b).
Proof.
  intros [->|Ha]%fz_cases [->|Hb]%fz_cases Hs; [done| | |].
  - by rewrite (fz_pos b) by lia.
  - rewrite Z.mul_0_r. by rewrite (fz_pos a) by lia.
  - pose proof (exact_digits a Ha). pose proof (exact_digits b Hb).
    pose proof (digits_mul a b ltac:(lia) ltac:(lia)).
    assert (0 < 2 ^ (53 - digits a)) by (apply Z.pow_pos_nonneg; lia).
    assert (0 < 2 ^ (53 - digits b)) by (apply Z.pow_pos_nonneg; lia).
    rewrite (fz_pos a), (fz_pos b) by lia. unfold fmul, SFmul. simpl (xorb _ _).
    rewrite Pos2Z.inj_mul, !Z2Pos.id by nia.
    replace (a * 2 ^ (53 - digits a) * (b * 2 ^ (53 - digits b)))
      with (a * b * 2 ^ (106 - digits a - digits b)).
    + replace (digits a - 53 + (digits b - 53)) with (- (106 - digits a - digits b)) by lia.
      apply round_aux_exact; [nia| |lia]. apply exact_digits. unfold exact in Hs. nia.
    + replace (106 - digits a - digits b) with ((53 - digits a) + (53 - digits b)) by lia.
      rewrite Z.pow_add_r by lia. nia.
Qed.

Lemma digits_mono a b : 0 < a -> digits a < digits b -> a < b.
Proof.
  intros Ha Hlt. unfold digits in Hlt.
  assert (0 < b) by (destruct (Z.le_gt_cases b 0); [|done];
    rewrite (Z.log2_nonpos b) in Hlt by done; pose proof (Z.log2_nonneg a); lia).
  apply Z.log2_lt_cancel. lia.
Qed.

Lemma SFcompare_fz a b : exact a -> exact b -> SFcompare (fz a) (fz b) = Some (a ?= b).
Proof.
  intros [->|Ha]%fz_cases [->|Hb]%fz_cases; [done| | |].
  - rewrite (fz_pos b) by lia. change (fz 0) with f_zero. unfold SFcompare, f_zero. f_equal. symmetry. apply Z.compare_lt_iff. lia.
  - rewrite (fz_pos a) by lia. change (fz 0) with f_zero. unfold SFcompare, f_zero. f_equal. symmetry. apply Z.compare_gt_iff. lia.
  - rewrite !fz_pos by lia. unfold SFcompare. f_equal.
    destruct (Z.compare_spec (digits a - 53) (digits b - 53)) as [He|Hl|Hg].
    + replace (digits b) with (digits a) by lia. change (Pos.compare_cont Eq) with Pos.compare.
      pose proof (exact_digits a Ha).
      assert (0 < 2 ^ (53 - digits a)) by (apply Z.pow_pos_nonneg; lia).
      rewrite Pos2Z.inj_compare, !Z2Pos.id by nia.
      symmetry. apply Zmult_compare_compat_r. lia.
    + symmetry. apply Z.compare_lt_iff. apply digits_mono; lia.
    + symmetry. apply Z.compare_gt_iff. apply digits_mono; lia.
Qed.

Lemma fltb_fz a b : exact a -> exact b -> fltb (fz a) (fz b) = (a <? b).
Proof.
  intros. unfold fltb, SFltb. rewrite SFcompare_fz by done. unfold Z.ltb. by destruct (a ?= b).
Qed.

Lemma feqb_fz a b : exact a -> exact b -> feqb (fz a) (fz b) = (a =? b).
Proof.
  intros. unfold feqb, SFeqb. rewrite SFcompare_fz by done.
  destruct (Z.compare_spec a b); [by rewrite (proj2 (Z.eqb_eq _ _))| |];
    by rewrite (proj2 (Z.eqb_neq _ _)) by lia.
Qed.

Lemma is_nan_fz a : is_nan (fz a) = false.
Proof. unfold fz. by case_match. Qed.

Lemma fmin_fz a b : exact a -> exact b -> fmin (fz a) (fz b) = fz (Z.min a b).
Proof.
  intros Ha Hb. unfold fmin. rewrite !is_nan_fz, fltb_fz by done.
  destruct (Z.ltb_spec b a); f_equal; lia.
Qed.

Lemma fmax_fz a b : exact a -> exact b -> fmax (fz a) (fz b) = fz (Z.max a b).
Proof.
  intros Ha Hb. unfold fmax. rewrite !is_nan_fz, fltb_fz by done.
  destruct (Z.ltb_spec a b); f_equal; lia.
Qed.

(** A whole number of seconds converts exactly. *)
Lemma as_secs_f64_whole s : exact s -> as_secs_f64 (s * NANOS_PER_SEC) = fz s.
Proof.
  intros Hs. unfold as_secs_f64. rewrite Z.div_mul, Z.mod_mul by done.
  rewrite of_Z_exact by done.
  replace (fdiv (of_Z 0) (of_Z NANOS_PER_SEC)) with (fz 0) by (vm_compute; done).
  rewrite fadd_fz, Z.add_0_r; [done|done|by unfold exact|by rewrite Z.add_0_r].
Qed.

Create Rewrite HintDb f64_exact.
#[export] Hint Rewrite fadd_fz fsub_fz fmul_fz fltb_fz feqb_fz fmin_fz fmax_fz of_Z_exact
  as_secs_f64_whole using (unfold exact in *; lia) : f64_exact.
