(* ===== verification/F64Bounds.v ===== *)
(** * Magnitude of rounded results

    Where [F64] says when binary64 arithmetic is exact, this file bounds what
    it returns when it is not: a rounded result has at most 53 digits, and a
    product, quotient or conversion whose exact value is of moderate size is a
    normal number of that size.  The delay scheduler's freedom from panics and
    its upper bound rest on these lemmas. *)

From S2P Require Import Prelude F64.

(** A positive normal number of magnitude at least [2 ^ (lo - 1)] and below
    [2 ^ hi]. *)
Definition normal_mag (f : f64) (lo hi : Z) : Prop :=
  exists m e, f = S754_finite false m e /\ digits (Z.pos m) = 53 /\ lo <= e + 53 <= hi.

(** ** Shifting *)
Lemma shr_1_m mrs : 0 <= shr_m mrs -> shr_m (shr_1 mrs) = shr_m mrs / 2.
Proof.
  destruct mrs as [m r s]. simpl. intros Hm. destruct m as [|[p|p|]|]; simpl; try done.
  - rewrite Pos2Z.inj_xI. replace (2 * Z.pos p + 1) with (1 + Z.pos p * 2) by lia.
    by rewrite Z.div_add.
  - rewrite Pos2Z.inj_xO, Z.mul_comm, Z.div_mul; done.
Qed.

Lemma iter_shr_1_m n mrs :
  0 <= shr_m mrs -> shr_m (Nat.iter n shr_1 mrs) = shr_m mrs / 2 ^ Z.of_nat n.
Proof.
  intros Hm. induction n as [|n IH]; [by rewrite Z.div_1_r|].
  rewrite Nat2Z.inj_succ, Z.pow_succ_r, Z.mul_comm by lia.
  assert (0 < 2 ^ Z.of_nat n) by (apply Z.pow_pos_nonneg; lia).
  simpl. rewrite shr_1_m, IH, Z.div_div by (lia || (rewrite IH; apply Z.div_pos; lia)). done.
Qed.

Lemma shr_m_of_loc m l : shr_m (shr_record_of_loc m l) = m.
Proof. by destruct l as [|[]]. Qed.

(** [shr_fexp] keeps the leading digits and moves the exponent accordingly. *)
Lemma shr_fexp_shift m e l :
  0 <= m ->
  let n := Z.max 0 (Z.max (Zdigits2 m + e - 53) (-1074) - e) in
  exists mrs, shr_fexp 53 1024 m e l = (mrs, e + n) /\ shr_m mrs = m / 2 ^ n.
Proof.
  intros Hm. cbv zeta. unfold shr_fexp, fexp, emin. change (3 - 1024 - 53) with (-1074).
  destruct (Z.max (Zdigits2 m + e - 53) (-1074) - e) as [|p|p] eqn:E; unfold shr.
  - exists (shr_record_of_loc m l).
    split; [f_equal; lia|]. by rewrite shr_m_of_loc, Z.div_1_r.
  - exists (Nat.iter (Pos.to_nat p) shr_1 (shr_record_of_loc m l)).
    rewrite iter_pos_nat.  split; [done|].
    rewrite iter_shr_1_m, shr_m_of_loc by (rewrite shr_m_of_loc; lia).
    by rewrite positive_nat_Z.
  - exists (shr_record_of_loc m l).
    split; [f_equal; lia|]. by rewrite shr_m_of_loc, Z.div_1_r.
Qed.

Lemma Zdigits2_bound m : 0 <= m -> 0 <= Zdigits2 m /\ m < 2 ^ Zdigits2 m.
Proof.
  intros Hm. destruct (decide (m = 0)) as [->|Hne]; [done|].
  rewrite Zdigits2_digits by lia. pose proof (digits_bounds m). pose proof (digits_pos m). lia.
Qed.

Lemma round_nearest_even_step m l :
  round_nearest_even m l = m \/ round_nearest_even m l = m + 1.
Proof. destruct l as [|[]]; simpl; auto. destruct (Z.even m); auto. Qed.

Lemma digits_eq m d : 2 ^ (d - 1) <= m < 2 ^ d -> 1 <= d -> digits m = d.
Proof.
  intros Hm Hd. unfold digits. rewrite (Z.log2_unique m (d - 1)); [lia|lia|].
  by replace (Z.succ (d - 1)) with d by lia.
Qed.

(** Dropping [n] of [digits m] digits leaves the rest. *)
Lemma digits_shift m n : 0 < m -> 0 <= n < digits m -> digits (m / 2 ^ n) = digits m - n.
Proof.
  intros Hm Hn. pose proof (digits_bounds m Hm) as [Hlo Hhi].
  assert (0 < 2 ^ n) by (apply Z.pow_pos_nonneg; lia).
  apply digits_eq; [|lia]. split.
  - apply Z.div_le_lower_bound; [done|]. rewrite <- Z.pow_add_r by lia.
    by replace (n + (digits m - n - 1)) with (digits m - 1) by lia.
  - apply Z.div_lt_upper_bound; [done|]. rewrite <- Z.pow_add_r by lia.
    by replace (n + (digits m - n)) with (digits m) by lia.
Qed.

(** ** Rounding *)

(** A rounded result is a number and has at most 53 digits. *)
Definition rounded (f : f64) : Prop :=
  is_nan f = false /\ forall s m e, f = S754_finite s m e -> Z.pos m < 2 ^ 53.

Lemma round_aux_rounded s m e l : 0 <= m -> rounded (binary_round_aux 53 1024 s m e l).
Proof.
  intros Hm. unfold binary_round_aux.
  destruct (shr_fexp_shift m e l Hm) as (mrs1 & -> & Hm1).
  set (n1 := Z.max 0 (_ - e)) in *. assert (0 < 2 ^ n1) by (apply Z.pow_pos_nonneg; lia).
  assert (0 <= shr_m mrs1) by (rewrite Hm1; apply Z.div_pos; lia).
  set (m1 := round_nearest_even _ _).
  assert (0 <= m1) as Hpos
    by (destruct (round_nearest_even_step (shr_m mrs1) (loc_of_shr_record mrs1)); lia).
  destruct (shr_fexp_shift m1 (e + n1) loc_Exact Hpos) as (mrs2 & -> & Hm2).
  set (n2 := Z.max 0 (_ - (e + n1))) in *.
  assert (0 < 2 ^ n2) by (apply Z.pow_pos_nonneg; lia).
  assert (0 <= shr_m mrs2 < 2 ^ 53) as Hb.
  { rewrite Hm2. split; [apply Z.div_pos; lia|]. destruct (Zdigits2_bound m1 Hpos) as [Hd Hlt].
    apply Z.div_lt_upper_bound; [done|]. rewrite <- Z.pow_add_r by lia.
    eapply Z.lt_le_trans; [exact Hlt|]. apply Z.pow_le_mono_r; lia. }
  destruct (shr_m mrs2) as [|p|p]; [by split| |lia].
  case_match; split; try done. intros ??? Heq. simplify_eq. lia.
Qed.

(** Rounding at least 53 digits of a number of moderate size cuts off the digits
    after the 53rd and adds at most one to the rest; [k] is 1 when that carries
    into a new digit. *)
Lemma round_aux_value m e l :
  0 < m -> 53 <= digits m -> -1021 <= digits m + e <= 1023 ->
  let n := digits m - 53 in
  exists p k, binary_round_aux 53 1024 false m e l = S754_finite false p (e + n + k) /\
    digits (Z.pos p) = 53 /\ 0 <= k <= 1 /\
    (Z.pos p * 2 ^ k = m / 2 ^ n \/ Z.pos p * 2 ^ k = m / 2 ^ n + 1).
Proof.
  intros Hm Hd He. cbv zeta. unfold binary_round_aux.
  destruct (shr_fexp_shift m e l ltac:(lia)) as (mrs1 & -> & Hm1).
  rewrite Zdigits2_digits in * by done.
  replace (Z.max 0 (_ - e)) with (digits m - 53) in * by lia.
  assert (digits (shr_m mrs1) = 53) as Hd1 by (rewrite Hm1, digits_shift; lia).
  assert (0 < shr_m mrs1) as Hp1.
  { rewrite Hm1. apply Z.div_str_pos. split; [apply Z.pow_pos_nonneg; lia|].
    etrans; [|apply (digits_bounds m Hm)]. apply Z.pow_le_mono_r; lia. }
  set (m1 := round_nearest_even _ _).
  assert (m1 = shr_m mrs1 \/ m1 = shr_m mrs1 + 1) as Hstep by apply round_nearest_even_step.
  assert (0 < m1 /\ (digits m1 = 53 \/ m1 = 2 ^ 53)) as [Hpos Hcase].
  { pose proof (digits_bounds _ Hp1) as Hb. rewrite Hd1 in Hb.
    split; [lia|]. destruct (decide (m1 = 2 ^ 53)); [by right|left].
    apply digits_eq; lia. }
  destruct (shr_fexp_shift m1 (e + (digits m - 53)) loc_Exact ltac:(lia)) as (mrs2 & -> & Hm2).
  rewrite Zdigits2_digits in * by done.
  set (n2 := Z.max 0 (_ - (e + _))) in *.
  assert (digits (shr_m mrs2) = 53 /\ 0 < shr_m mrs2 /\ 0 <= n2 <= 1 /\ shr_m mrs2 * 2 ^ n2 = m1)
    as (Hd2 & Hp2 & Hn2 & Hv2).
  { destruct Hcase as [Hc|Hc].
    - replace n2 with 0 in * by lia. rewrite Z.div_1_r in Hm2. rewrite Hm2. lia.
    - assert (digits m1 = 54) by (by rewrite Hc). replace n2 with 1 in * by lia.
      rewrite Hm2, Hc. done. }
  destruct (shr_m mrs2) as [|p|p]; try lia.
  rewrite (proj2 (Z.leb_le _ _)) by lia. exists p, n2. rewrite <- Hm1, Hv2.
  split_and!; [done|done|lia..|done].
Qed.

Lemma round_aux_normal m e l :
  0 < m -> 53 <= digits m -> -1021 <= digits m + e <= 1023 ->
  normal_mag (binary_round_aux 53 1024 false m e l) (digits m + e) (digits m + e + 1).
Proof.
  intros Hm Hd He. destruct (round_aux_value m e l Hm Hd He) as (p & k & -> & ? & ? & _).
  eexists p, _. split; [done|]. lia.
Qed.

(** ** Operations *)

(** The division of two normal mantissas has 53 or 54 digits. *)
Lemma quotient_digits m1 e1 m2 e2 :
  digits (Z.pos m1) = 53 -> digits (Z.pos m2) = 53 -> -900 <= e1 - e2 ->
  exists q r, SFdiv_core_binary 53 1024 (Z.pos m1) e1 (Z.pos m2) e2 =
      (q, e1 - e2 - 53, new_location (Z.pos m2) r) /\
    Z.pos m1 * 2 ^ 53 = q * Z.pos m2 + r /\ 0 <= r < Z.pos m2 /\ 0 < q /\ 53 <= digits q <= 54.
Proof.
  intros Hd1 Hd2 He. unfold SFdiv_core_binary. rewrite !Zdigits2_digits, Hd1, Hd2 by lia.
  unfold fexp, emin. change (3 - 1024 - 53) with (-1074).
  replace (Z.min _ (e1 - e2)) with (e1 - e2 - 53) by lia.
  replace (e1 - e2 - (e1 - e2 - 53)) with 53 by lia. cbv match.
  rewrite Z.shiftl_mul_pow2 by lia.
  pose proof (Z.div_eucl_eq (Z.pos m1 * 2 ^ 53) (Z.pos m2) ltac:(lia)) as Hq.
  pose proof (Z.mod_pos_bound (Z.pos m1 * 2 ^ 53) (Z.pos m2) ltac:(lia)) as Hr.
  unfold Z.modulo in Hr. destruct (Z.div_eucl _ _) as [q r].
  pose proof (digits_bounds (Z.pos m1) ltac:(lia)) as Hb1. rewrite Hd1 in Hb1.
  pose proof (digits_bounds (Z.pos m2) ltac:(lia)) as Hb2. rewrite Hd2 in Hb2.
  change (53 - 1) with 52 in *.
  assert (2 ^ 52 <= q < 2 ^ 54) as Hqb by nia.
  exists q, r. split_and!; [done|lia..| |apply digits_lt_pow2; lia].
  destruct (Z.le_gt_cases 53 (digits q)) as [|Hlt]; [done|].
  pose proof (digits_bounds q ltac:(lia)) as [_ Hb].
  assert (2 ^ digits q <= 2 ^ 52) by (apply Z.pow_le_mono_r; lia). lia.
Qed.

Lemma fdiv_normal f g a b c d :
  normal_mag f a b -> normal_mag g c d -> -900 <= a - d -> b - c <= 900 ->
  normal_mag (fdiv f g) (a - d) (b - c + 2).
Proof.
  intros (m1 & e1 & -> & Hd1 & H1) (m2 & e2 & -> & Hd2 & H2) Hlo Hhi.
  destruct (quotient_digits m1 e1 m2 e2 Hd1 Hd2) as (q & r & Hcore & _ & _ & Hq & Hdq); [lia|].
  unfold fdiv, SFdiv. rewrite Hcore. simpl (xorb _ _).
  destruct (round_aux_normal q (e1 - e2 - 53) (new_location (Z.pos m2) r))
    as (m & e & -> & Hd & He); [lia|lia|lia|].
  exists m, e. split; [done|]. lia.
Qed.

Lemma fmul_normal f g a b c d :
  normal_mag f a b -> normal_mag g c d -> -900 <= a + c -> b + d <= 900 ->
  normal_mag (fmul f g) (a + c - 1) (b + d + 1).
Proof.
  intros (m1 & e1 & -> & Hd1 & H1) (m2 & e2 & -> & Hd2 & H2) Hlo Hhi.
  unfold fmul, SFmul. simpl (xorb _ _).
  pose proof (digits_mul (Z.pos m1) (Z.pos m2) ltac:(lia) ltac:(lia)) as Hge.
  pose proof (digits_bounds (Z.pos m1) ltac:(lia)) as Hb1. rewrite Hd1 in Hb1.
  pose proof (digits_bounds (Z.pos m2) ltac:(lia)) as Hb2. rewrite Hd2 in Hb2.
  assert (digits (Z.pos m1 * Z.pos m2) <= 106) by (apply digits_lt_pow2; nia).
  destruct (round_aux_normal (Z.pos m1 * Z.pos m2) (e1 + e2) loc_Exact)
    as (m & e & Heq & Hd & He); [lia|lia|lia|].
  rewrite Pos2Z.inj_mul, Heq. exists m, e. split; [done|]. lia.
Qed.

Lemma fz_normal a : 0 < a < 2 ^ 53 -> normal_mag (fz a) (digits a) (digits a).
Proof.
  intros Ha. pose proof (exact_digits a Ha). pose proof (digits_pos a ltac:(lia)).
  rewrite fz_pos by lia. assert (0 < 2 ^ (53 - digits a)) by (apply Z.pow_pos_nonneg; lia).
  eexists _, _. split; [done|]. rewrite Z2Pos.id by nia.
  rewrite digits_mul_pow2 by lia. lia.
Qed.

Lemma of_Z_normal a : 0 < a <= u64_max -> normal_mag (of_Z a) (digits a) (digits a + 1).
Proof.
  intros Ha. destruct (Z.lt_ge_cases a (2 ^ 53)) as [Hlt|Hge].
  { rewrite of_Z_exact by (unfold exact; lia).
    destruct (fz_normal a ltac:(lia)) as (m & e & ? & ? & ?). exists m, e. split_and!; auto; lia. }
  assert (53 <= digits a <= 64).
  { split; [|apply digits_lt_pow2; unfold u64_max in *; lia].
    destruct (Z.le_gt_cases 53 (digits a)) as [|Hd]; [done|].
    pose proof (digits_bounds a ltac:(lia)) as [_ Hb].
    assert (2 ^ digits a <= 2 ^ 53) by (apply Z.pow_le_mono_r; lia). lia. }
  unfold of_Z, binary_normalize. destruct a as [|p|p]; try lia.
  unfold binary_round. rewrite digits2_pos_log2. fold (digits (Z.pos p)).
  unfold fexp, emin, shl_align. change (3 - 1024 - 53) with (-1074).
  destruct (_ - 0) eqn:E; [| |lia];
    (destruct (round_aux_normal (Z.pos p) 0 loc_Exact) as (m & e & -> & ? & ?); [lia..|];
     exists m, e; split_and!; auto; lia).
Qed.

(** Dividing a number by a normal one gives a number. *)
Lemma fdiv_rounded f g a b : is_nan f = false -> normal_mag g a b -> rounded (fdiv f g).
Proof.
  intros Hf (m & e & -> & Hd & _). destruct f as [s|s| |s m1 e1]; try done; try by split.
  unfold fdiv, SFdiv. destruct (SFdiv_core_binary 53 1024 (Z.pos m1) e1 (Z.pos m) e) as [[q e'] l] eqn:E.
  apply round_aux_rounded. unfold SFdiv_core_binary in E.
  destruct (Z.div_eucl _ (Z.pos m)) as [q' r] eqn:Hdiv. simplify_eq.
  assert (q = fst (q, r)) as -> by done. rewrite <- Hdiv. apply Z.div_pos; [|lia].
  case_match; try lia. rewrite Z.shiftl_mul_pow2 by lia. lia.
Qed.

(** ** Exact division *)
Lemma fdiv_fz k b : 0 < k -> 0 < b -> k * b < 2 ^ 53 -> fdiv (fz (k * b)) (fz b) = fz k.
Proof.
  intros Hk Hb Hkb.
  destruct (fz_normal (k * b) ltac:(nia)) as (m1 & e1 & H1 & Hd1 & He1).
  destruct (fz_normal b ltac:(nia)) as (m2 & e2 & H2 & Hd2 & He2).
  pose proof (exact_digits (k * b) ltac:(nia)). pose proof (exact_digits b ltac:(nia)).
  pose proof (digits_pos b Hb). pose proof (digits_pos k Hk).
  assert (Hv1 : Z.pos m1 = k * b * 2 ^ (53 - digits (k * b))).
  { rewrite fz_pos in H1 by nia. simplify_eq. rewrite Z2Pos.id; [done|].
    apply Z.mul_pos_pos; [nia|]. apply Z.pow_pos_nonneg; lia. }
  assert (Hv2 : Z.pos m2 = b * 2 ^ (53 - digits b)).
  { rewrite (fz_pos b) in H2 by lia. simplify_eq. rewrite Z2Pos.id; [done|].
    apply Z.mul_pos_pos; [nia|]. apply Z.pow_pos_nonneg; lia. }
  assert (digits b <= digits (k * b)) by (unfold digits; apply Zplus_le_compat_r, Z.log2_le_mono; nia).
  assert (digits (k * b) <= digits k + digits b).
  { apply digits_lt_pow2. rewrite Z.pow_add_r by lia.
    pose proof (digits_bounds k Hk). pose proof (digits_bounds b Hb). nia. }
  rewrite H1, H2. unfold fdiv, SFdiv, SFdiv_core_binary.
  rewrite !Zdigits2_digits, Hd1, Hd2 by lia.
  unfold fexp, emin. change (3 - 1024 - 53) with (-1074).
  replace (Z.min _ (e1 - e2)) with (e1 - e2 - 53) by lia.
  replace (e1 - e2 - (e1 - e2 - 53)) with 53 by lia. cbv match.
  rewrite Z.shiftl_mul_pow2 by lia. set (t := 53 - (digits (k * b) - digits b)).
  assert (Z.pos m1 * 2 ^ 53 = k * 2 ^ t * Z.pos m2) as Hq.
  { rewrite Hv1, Hv2. transitivity (k * b * 2 ^ (53 - digits (k * b) + 53)).
    - rewrite Z.pow_add_r by lia. lia.
    - replace (53 - digits (k * b) + 53) with (t + (53 - digits b)) by lia.
      rewrite Z.pow_add_r by lia. lia. }
  rewrite Hq. pose proof (Z.div_eucl_eq (k * 2 ^ t * Z.pos m2) (Z.pos m2) ltac:(lia)) as Heq.
  pose proof (Z.div_mul (k * 2 ^ t) (Z.pos m2) ltac:(lia)) as Hdiv. unfold Z.div in Hdiv.
  destruct (Z.div_eucl _ _) as [q r]. subst q. replace r with 0 by lia.
  simpl (xorb _ _). replace (new_location (Z.pos m2) 0) with loc_Exact
    by (unfold new_location; by case_match).
  replace (e1 - e2 - 53) with (- t) by lia.
  apply round_aux_exact; [done| |lia]. apply exact_digits. assert (k <= k * b) by nia. lia.
Qed.

(** ** Durations *)
Lemma div_round_even_mono a b d : 0 < d -> a <= b -> div_round_even a d <= div_round_even b d.
Proof.
  intros Hd Hab. unfold div_round_even. pose proof (Z.div_le_mono a b d Hd Hab).
  pose proof (Z.div_mod a d ltac:(lia)). pose proof (Z.div_mod b d ltac:(lia)).
  destruct (decide (a / d = b / d)) as [Heq|Hne].
  - rewrite Heq in *. assert (a mod d <= b mod d) by lia.
    destruct (Z.compare_spec (2 * (a mod d)) d), (Z.compare_spec (2 * (b mod d)) d);
      destruct (Z.even (b / d)); lia.
  - destruct (2 * (a mod d) ?= d), (2 * (b mod d) ?= d), (Z.even (a / d)), (Z.even (b / d)); lia.
Qed.

Lemma div_round_even_scale a b c : 0 < b -> 0 < c -> div_round_even (a * c) (b * c) = div_round_even a b.
Proof.
  intros Hb Hc. unfold div_round_even. rewrite Z.div_mul_cancel_r, Z.mul_mod_distr_r by lia.
  rewrite Z.mul_assoc, <- Zmult_compare_compat_r by lia. done.
Qed.

Lemma div_round_even_exact a b : 0 < b -> div_round_even (a * b) b = a.
Proof.
  intros Hb. unfold div_round_even. rewrite Z.div_mul, Z.mod_mul by lia.
  by rewrite (proj2 (Z.compare_lt_iff _ _)) by lia.
Qed.

(** The nanoseconds of a positive float, before the overflow check. *)
Definition nanos (m : positive) (e : Z) : Z :=
  if 0 <=? e then Z.pos m * 2 ^ e * NANOS_PER_SEC
  else div_round_even (Z.pos m * NANOS_PER_SEC) (2 ^ (- e)).

Lemma nanos_nonneg m e : 0 <= nanos m e.
Proof.
  unfold nanos. case_match.
  - repeat apply Z.mul_nonneg_nonneg; try done. apply Z.pow_nonneg. lia.
  - assert (0 < 2 ^ (- e)) by (apply Z.pow_pos_nonneg; lia).
    transitivity (div_round_even (0 * 2 ^ (- e)) (2 ^ (- e))); [by rewrite div_round_even_exact|].
    apply div_round_even_mono; unfold NANOS_PER_SEC; lia.
Qed.

Lemma nanos_at m e K :
  0 <= K -> 0 <= e + K -> nanos m e = div_round_even (Z.pos m * 2 ^ (e + K) * NANOS_PER_SEC) (2 ^ K).
Proof.
  intros HK He. unfold nanos. destruct (Z.leb_spec 0 e).
  - rewrite Z.pow_add_r by lia.
    replace (Z.pos m * (2 ^ e * 2 ^ K) * NANOS_PER_SEC)
      with (Z.pos m * 2 ^ e * NANOS_PER_SEC * 2 ^ K) by lia.
    rewrite div_round_even_exact; [done|]. apply Z.pow_pos_nonneg; lia.
  - replace K with (- e + (e + K)) at 2 by lia. rewrite (Z.pow_add_r 2 (- e)) by lia.
    replace (Z.pos m * 2 ^ (e + K) * NANOS_PER_SEC)
      with (Z.pos m * NANOS_PER_SEC * 2 ^ (e + K)) by lia.
    rewrite div_round_even_scale; [done|apply Z.pow_pos_nonneg; lia..].
Qed.

(** [from_secs_f64] is monotone below a normal number. *)
Lemma nanos_le m e mh eh :
  Z.pos m < 2 ^ 53 -> digits (Z.pos mh) = 53 ->
  fltb (S754_finite false mh eh) (S754_finite false m e) = false -> nanos m e <= nanos mh eh.
Proof.
  intros Hm Hd Hcmp. pose proof (digits_bounds (Z.pos mh) ltac:(lia)) as Hb. rewrite Hd in Hb.
  set (K := Z.max 0 (Z.max (- e) (- eh))).
  rewrite (nanos_at m e K), (nanos_at mh eh K) by lia.
  apply div_round_even_mono; [apply Z.pow_pos_nonneg; lia|].
  apply Z.mul_le_mono_nonneg_r; [done|].
  unfold fltb, SFltb, SFcompare in Hcmp.
  destruct (Z.compare_spec eh e) as [->|Hlt|Hgt]; [|done|].
  - apply Z.mul_le_mono_nonneg_r; [apply Z.pow_nonneg; lia|].
    change (Pos.compare_cont Eq mh m) with (Pos.compare mh m) in Hcmp.
    destruct (Pos.compare_spec mh m); [lia|done|lia].
  - replace (eh + K) with (eh - e - 1 + (1 + (e + K))) by lia.
    rewrite (Z.pow_add_r 2 (eh - e - 1)), (Z.pow_add_r 2 1) by lia.
    assert (0 < 2 ^ (eh - e - 1)) by (apply Z.pow_pos_nonneg; lia).
    assert (0 < 2 ^ (e + K)) by (apply Z.pow_pos_nonneg; lia).
    change (53 - 1) with 52 in Hb. rewrite Z.mul_assoc.
    set (u := 2 ^ (eh - e - 1)) in *. set (v := 2 ^ (e + K)) in *.
    assert (2 ^ 52 <= Z.pos mh * u) by nia. transitivity (2 ^ 53 * v); [nia|].
    replace (Z.pos mh * u * (2 ^ 1 * v)) with (Z.pos mh * u * 2 * v) by lia. nia.
Qed.

Lemma from_secs_f64_fz k : 0 < k < 2 ^ 53 -> from_secs_f64 (fz k) = Some (from_secs k).
Proof.
  intros Hk. pose proof (exact_digits k Hk). rewrite fz_pos by lia. unfold from_secs_f64.
  assert (0 < 2 ^ (53 - digits k)) by (apply Z.pow_pos_nonneg; lia).
  change (if 0 <=? ?e then _ else _) with (nanos (Z.to_pos (k * 2 ^ (53 - digits k))) (digits k - 53)).
  rewrite (nanos_at _ _ (53 - digits k)) by lia. rewrite Z2Pos.id by nia.
  replace (digits k - 53 + (53 - digits k)) with 0 by lia. rewrite Z.mul_1_r.
  replace (k * 2 ^ (53 - digits k) * NANOS_PER_SEC)
    with (k * NANOS_PER_SEC * 2 ^ (53 - digits k)) by lia.
  rewrite div_round_even_exact by done. rewrite (proj2 (Z.leb_le _ _)); [done|].
  unfold u64_max, NANOS_PER_SEC. lia.
Qed.

(** A normal number below 2^60 seconds is a [Duration]. *)
Lemma from_secs_f64_normal f a b :
  normal_mag f a b -> b <= 60 -> exists m e, f = S754_finite false m e /\
    digits (Z.pos m) = 53 /\ from_secs_f64 f = Some (nanos m e).
Proof.
  intros (m & e & -> & Hd & He) Hb. exists m, e. split; [done|]. split; [done|].
  unfold from_secs_f64. change (if 0 <=? ?e then _ else _) with (nanos m e).
  rewrite (proj2 (Z.leb_le _ _)); [done|].
  pose proof (digits_bounds (Z.pos m) ltac:(lia)) as Hm. rewrite Hd in Hm.
  set (K := Z.max 0 (- e)). rewrite (nanos_at m e K) by lia.
  transitivity (div_round_even (2 ^ 60 * NANOS_PER_SEC * 2 ^ K) (2 ^ K)).
  - apply div_round_even_mono; [apply Z.pow_pos_nonneg; lia|].
    assert (Z.pos m * 2 ^ (e + K) <= 2 ^ 60 * 2 ^ K); [|unfold NANOS_PER_SEC; nia].
    transitivity (2 ^ 53 * 2 ^ (e + K)).
    + apply Z.mul_le_mono_nonneg_r; [apply Z.pow_nonneg|]; lia.
    + rewrite <- !Z.pow_add_r by lia. apply Z.pow_le_mono_r; lia.
  - rewrite div_round_even_exact by (apply Z.pow_pos_nonneg; lia). unfold u64_max, NANOS_PER_SEC. lia.
Qed.
