(* ===== verification/F64Error.v ===== *)
(** * Rounding errors of binary64

    [F64] says when the arithmetic is exact and [F64Bounds] how large its results
    are.  This file says how far they are from the exact ones: the [value] of a
    float is a rational number, and on nonnegative numbers that neither overflow
    nor underflow each operation is within a relative error of [eps]. *)

From Stdlib Require Import QArith Qpower Lqa.
From S2P Require Import Prelude F64 F64Bounds.

(** ** Values *)
Definition pow2 (e : Z) : Q := Qpower 2 e.

(** The number [m * 2 ^ e]. *)
Definition scaled (m e : Z) : Q := inject_Z m * pow2 e.

Definition value (f : f64) : Q :=
  match f with
  | S754_finite s m e => if s then - scaled (Z.pos m) e else scaled (Z.pos m) e
  | _ => 0
  end.

(** One unit in the last of 53 places of the number 1. *)
Definition eps : Q := 1 # 4503599627370496.

Definition near (v x : Q) : Prop := (x * (1 - eps) <= v <= x * (1 + eps))%Q.

(** The canonical representation of a number. *)
Definition canonical (m e : Z) : Prop := Z.max (digits m + e - 53) (-1074) = e /\ e <= 971.

Inductive nonneg : f64 -> Prop :=
| nonneg_zero : nonneg f_zero
| nonneg_finite m e : canonical (Z.pos m) e -> nonneg (S754_finite false m e).

Arguments pow2 : simpl never.
Arguments scaled : simpl never.

(** ** Powers of two *)
Lemma pow2_pos e : (0 < pow2 e)%Q.
Proof. by apply Qpower_0_lt. Qed.

Lemma pow2_add a b : (pow2 (a + b) == pow2 a * pow2 b)%Q.
Proof. by apply Qpower_plus. Qed.

Lemma pow2_Z n : 0 <= n -> (pow2 n == inject_Z (2 ^ n))%Q.
Proof. intros Hn. unfold pow2. by rewrite Zpower_Qpower. Qed.

Lemma pow2_le a b : a <= b -> (pow2 a <= pow2 b)%Q.
Proof. intros Hab. by apply Qpower_le_compat_l. Qed.

Lemma pow2_lt_inv a b : (pow2 a < pow2 b)%Q -> a < b.
Proof.
  intros Hlt. destruct (Z.lt_ge_cases a b) as [|Hge]; [done|].
  pose proof (pow2_le b a Hge). lra.
Qed.

Lemma inject_Z_le a b : a <= b -> (inject_Z a <= inject_Z b)%Q.
Proof. by rewrite <- Zle_Qle. Qed.

Lemma scaled_le a b e : a <= b -> (scaled a e <= scaled b e)%Q.
Proof.
  intros Hab. unfold scaled. apply Qmult_le_compat_r; [apply inject_Z_le; lia|].
  apply Qlt_le_weak, pow2_pos.
Qed.

Lemma scaled_lt a b e : a < b -> (scaled a e < scaled b e)%Q.
Proof. intros Hab. unfold scaled. apply Qmult_lt_r; [apply pow2_pos|]. by rewrite <- Zlt_Qlt. Qed.

Lemma scaled_shift m e n : 0 <= n -> (scaled (m * 2 ^ n) e == scaled m (e + n))%Q.
Proof.
  intros Hn. unfold scaled. rewrite pow2_add, inject_Z_mult, (pow2_Z n) by done. ring.
Qed.

Lemma scaled_0 e : (scaled 0 e == 0)%Q.
Proof. unfold scaled. ring. Qed.

Lemma scaled_add a b e : (scaled (a + b) e == scaled a e + scaled b e)%Q.
Proof. unfold scaled. rewrite inject_Z_plus. ring. Qed.

Lemma scaled_sub a b e : (scaled (a - b) e == scaled a e - scaled b e)%Q.
Proof. unfold scaled, Z.sub. rewrite inject_Z_plus, inject_Z_opp. ring. Qed.

Lemma scaled_mul a b e e' : (scaled (a * b) (e + e') == scaled a e * scaled b e')%Q.
Proof. unfold scaled. rewrite pow2_add, inject_Z_mult. ring. Qed.

Lemma scaled_pow2 n e : 0 <= n -> (scaled (2 ^ n) e == pow2 (n + e))%Q.
Proof. intros Hn. unfold scaled. by rewrite pow2_add, (pow2_Z n). Qed.

(** The magnitude of a number follows from its digits and its exponent. *)
Lemma scaled_mag m e : 0 < m -> (pow2 (digits m - 1 + e) <= scaled m e < pow2 (digits m + e))%Q.
Proof.
  intros Hm. pose proof (digits_bounds m Hm) as [Hlo Hhi]. pose proof (digits_pos m Hm).
  rewrite <- !scaled_pow2 by lia. split; [by apply scaled_le|by apply scaled_lt].
Qed.

Lemma scaled_pos m e : 0 < m -> (0 < scaled m e)%Q.
Proof. intros Hm. pose proof (scaled_mag m e Hm). pose proof (pow2_pos (digits m - 1 + e)). lra. Qed.

Lemma value_nonneg f : nonneg f -> (0 <= value f)%Q.
Proof. intros [|m e _]; [done|]. simpl. apply Qlt_le_weak. by apply scaled_pos. Qed.

(** ** Relative errors *)
Lemma near_refl v x : (v == x)%Q -> (0 <= x)%Q -> near v x.
Proof. intros Hv Hx. unfold near, eps. lra. Qed.

#[export] Instance near_proper : Proper (Qeq ==> Qeq ==> iff) near.
Proof. intros v v' Hv x x' Hx. unfold near. by rewrite Hv, Hx. Qed.

(** Cutting off all but 53 digits and adding at most one. *)
Lemma near_cut m e q x :
  53 <= digits m -> 0 < m -> let n := digits m - 53 in
  q = m / 2 ^ n \/ q = m / 2 ^ n + 1 ->
  (scaled m e <= x)%Q -> (x <= scaled (m + 1) e)%Q -> near (scaled q (e + n)) x.
Proof.
  intros Hd Hm n Hq Hlo Hhi. pose proof (digits_bounds m Hm) as [Hb _].
  assert (0 <= n) as Hn by lia. assert (0 < 2 ^ n) as Hp by (apply Z.pow_pos_nonneg; lia).
  pose proof (Z.div_mod m (2 ^ n) ltac:(lia)) as Hdm.
  pose proof (Z.mod_pos_bound m (2 ^ n) Hp) as Hr.
  pose proof (scaled_le (m / 2 ^ n * 2 ^ n) m e ltac:(lia)) as Hfl.
  pose proof (scaled_le (m + 1) ((m / 2 ^ n + 1) * 2 ^ n) e ltac:(lia)) as Hcl.
  rewrite scaled_shift in Hfl, Hcl by done. rewrite (scaled_add (m / 2 ^ n) 1) in Hcl.
  pose proof (scaled_le (2 ^ 52 * 2 ^ n) m e) as Hu. rewrite scaled_shift in Hu by done.
  specialize (Hu ltac:(rewrite <- Z.pow_add_r by lia; by replace (52 + n) with (digits m - 1) by lia)).
  assert (scaled (2 ^ 52) (e + n) == 4503599627370496 * scaled 1 (e + n))%Q as Hs
    by (unfold scaled; change (inject_Z (2 ^ 52)) with 4503599627370496%Q; ring).
  pose proof (scaled_pos 1 (e + n) ltac:(lia)).
  unfold near, eps. destruct Hq as [->| ->]; rewrite ?(scaled_add (m / 2 ^ n) 1); lra.
Qed.

(** A larger exponent means a larger number. *)
Lemma canonical_lt m1 e1 m2 e2 :
  canonical (Z.pos m1) e1 -> canonical (Z.pos m2) e2 -> e1 < e2 -> (scaled (Z.pos m1) e1 < scaled (Z.pos m2) e2)%Q.
Proof.
  intros [C1 _] [C2 _] Hlt. pose proof (scaled_mag (Z.pos m1) e1 ltac:(lia)). pose proof (scaled_mag (Z.pos m2) e2 ltac:(lia)).
  pose proof (pow2_le (digits (Z.pos m1) + e1) (digits (Z.pos m2) - 1 + e2) ltac:(lia)). lra.
Qed.

(** ** Rounding *)
Lemma round_near m e l x :
  0 < m -> 53 <= digits m -> -1021 <= digits m + e <= 1023 ->
  (scaled m e <= x)%Q -> (x <= scaled (m + 1) e)%Q ->
  exists m' e', binary_round_aux 53 1024 false m e l = S754_finite false m' e' /\
    canonical (Z.pos m') e' /\ near (scaled (Z.pos m') e') x.
Proof.
  intros Hm Hd He Hlo Hhi. destruct (round_aux_value m e l Hm Hd He) as (p & k & -> & Hp & Hk & Hq).
  eexists p, _. split; [done|]. split; [unfold canonical; lia|].
  rewrite <- scaled_shift by lia. by apply near_cut.
Qed.

Lemma canonical_digits m e : canonical m e -> digits m <= 53 /\ -1074 <= e.
Proof. unfold canonical. lia. Qed.

(** A canonical number is its own rounding. *)
Lemma round_canonical m e :
  canonical (Z.pos m) e -> binary_round_aux 53 1024 false (Z.pos m) e loc_Exact = S754_finite false m e.
Proof.
  intros [Hc He]. assert (shr_fexp 53 1024 (Z.pos m) e loc_Exact = (Build_shr_record (Z.pos m) false false, e)) as Hs.
  { unfold shr_fexp, fexp, emin. rewrite Zdigits2_digits by done. change (3 - 1024 - 53) with (-1074).
    by rewrite Hc, Z.sub_diag. }
  unfold binary_round_aux. rewrite Hs. simpl. rewrite Hs. simpl. by rewrite (proj2 (Z.leb_le _ _)) by lia.
Qed.

(** Trailing zeros do not matter. *)
Lemma round_shifted m e k :
  0 <= k -> canonical (Z.pos m) (e + k) -> e + k = Z.max (digits (Z.pos m) + k + e - 53) (-1074) ->
  binary_round_aux 53 1024 false (Z.pos m * 2 ^ k) e loc_Exact = S754_finite false m (e + k).
Proof.
  intros Hk Hc He. rewrite <- round_canonical by done. unfold binary_round_aux.
  assert (0 < 2 ^ k) by (apply Z.pow_pos_nonneg; lia).
  assert (shr_fexp 53 1024 (Z.pos m * 2 ^ k) e loc_Exact = shr_fexp 53 1024 (Z.pos m) (e + k) loc_Exact) as ->; [|done].
  unfold shr_fexp, fexp, emin. rewrite !Zdigits2_digits, digits_mul_pow2 by lia. change (3 - 1024 - 53) with (-1074).
  destruct Hc as [Hc _]. replace (digits (Z.pos m) + (e + k) - 53) with (digits (Z.pos m) + k + e - 53) in * by lia.
  replace (Z.max (digits (Z.pos m) + k + e - 53) (-1074)) with (e + k) by lia.
  rewrite Z.sub_diag. replace (e + k - e) with k by lia. simpl shr_record_of_loc. rewrite shr_pow2 by lia. done.
Qed.

Lemma binary_round_near m e :
  -1074 <= e -> digits (Z.pos m) + e <= 1023 ->
  exists m' e', binary_round 53 1024 false m e = S754_finite false m' e' /\
    canonical (Z.pos m') e' /\ near (scaled (Z.pos m') e') (scaled (Z.pos m) e).
Proof.
  intros He Hd. pose proof (digits_pos (Z.pos m) ltac:(lia)).
  assert (0 <= scaled (Z.pos m) e)%Q as Hnn by (apply Qlt_le_weak; by apply scaled_pos).
  unfold binary_round. rewrite digits2_pos_log2. fold (digits (Z.pos m)).
  unfold fexp, emin, shl_align. change (3 - 1024 - 53) with (-1074).
  set (t := Z.max (digits (Z.pos m) + e - 53) (-1074)).
  destruct (t - e) as [|d|d] eqn:E.
  - assert (canonical (Z.pos m) e) as Hc by (unfold canonical; lia).
    rewrite round_canonical by done. exists m, e. split; [done|]. split; [done|]. by apply near_refl.
  - apply round_near; [lia..| |]; [apply Qle_refl|apply scaled_le; lia].
  - assert (canonical (Z.pos (Pos.iter xO m d)) t) as Hc.
    { unfold canonical. rewrite pos_iter_xO, digits_mul_pow2 by lia. lia. }
    rewrite round_canonical by done. eexists _, t. split; [done|]. split; [done|]. apply near_refl; [|done].
    rewrite pos_iter_xO, scaled_shift by lia. by replace (t + Z.pos d) with e by lia.
Qed.

(** A nonnegative number times a power of two, normalised. *)
Lemma normalize_near z e :
  0 <= z -> -1074 <= e -> (scaled z e < pow2 1000)%Q ->
  nonneg (binary_normalize 53 1024 z e false) /\
  near (value (binary_normalize 53 1024 z e false)) (scaled z e).
Proof.
  intros Hz He Hlt. destruct z as [|m|m]; [|simpl|lia].
  { split; [constructor|]. by apply near_refl; rewrite scaled_0. }
  assert (digits (Z.pos m) - 1 + e < 1000).
  { apply pow2_lt_inv. pose proof (scaled_mag (Z.pos m) e ltac:(lia)). lra. }
  destruct (binary_round_near m e) as (m' & e' & -> & Hc & Hn); [lia..|].
  split; [by constructor|done].
Qed.

Lemma shl_align_value m e e' :
  e' <= e -> (scaled (Z.pos (fst (shl_align m e e'))) e' == scaled (Z.pos m) e)%Q.
Proof.
  intros Hle. unfold shl_align. destruct (e' - e) as [|d|d] eqn:E; simpl fst; [|lia|].
  - by replace e' with e by lia.
  - rewrite pos_iter_xO, scaled_shift by lia. by replace (e' + Z.pos d) with e by lia.
Qed.

(** ** Operations *)
Lemma fadd_near x y :
  nonneg x -> nonneg y -> (value x + value y < pow2 1000)%Q ->
  nonneg (fadd x y) /\ near (value (fadd x y)) (value x + value y).
Proof.
  intros Hx Hy Hlt. pose proof (value_nonneg x Hx) as Vx. pose proof (value_nonneg y Hy) as Vy.
  destruct Hx as [|mx ex Hx], Hy as [|my ey Hy].
  - split; [constructor|]. by apply near_refl.
  - split; [by constructor|]. apply near_refl; [|simpl in *; lra]. simpl. ring.
  - split; [by constructor|]. apply near_refl; [|simpl in *; lra]. simpl. ring.
  - apply canonical_digits in Hx, Hy. simpl in Hlt. unfold fadd, SFadd, cond_Zopp. set (ez := Z.min ex ey).
    pose proof (shl_align_value mx ex ez ltac:(lia)) as Ax. pose proof (shl_align_value my ey ez ltac:(lia)) as Ay.
    simpl (value (S754_finite _ _ _)). rewrite <- Ax, <- Ay, <- scaled_add in *.
    apply normalize_near; [lia..|done].
Qed.

Lemma fsub_near x y :
  nonneg x -> nonneg y -> (value y <= value x)%Q -> (value x < pow2 1000)%Q ->
  nonneg (fsub x y) /\ near (value (fsub x y)) (value x - value y).
Proof.
  intros Hx Hy Hle Hlt. pose proof (value_nonneg x Hx) as Vx. pose proof (value_nonneg y Hy) as Vy.
  destruct Hx as [|mx ex Hx], Hy as [|my ey Hy].
  - split; [constructor|]. by apply near_refl.
  - simpl in Hle. pose proof (scaled_pos (Z.pos my) ey ltac:(lia)). lra.
  - split; [by constructor|]. apply near_refl; [|simpl in *; lra]. simpl. ring.
  - apply canonical_digits in Hx, Hy. simpl in Hle, Hlt. unfold fsub, SFsub, cond_Zopp. set (ez := Z.min ex ey).
    pose proof (shl_align_value mx ex ez ltac:(lia)) as Ax. pose proof (shl_align_value my ey ez ltac:(lia)) as Ay.
    simpl (value (S754_finite _ _ _)). rewrite <- Ax, <- Ay, <- scaled_sub.
    apply normalize_near; [|lia|].
    + destruct (Z.le_gt_cases (Z.pos (fst (shl_align my ey ez))) (Z.pos (fst (shl_align mx ex ez)))) as [|Hgt]; [lia|].
      pose proof (scaled_lt _ _ ez Hgt). lra.
    + rewrite scaled_sub. pose proof (scaled_pos (Z.pos (fst (shl_align my ey ez))) ez ltac:(lia)). lra.
Qed.

(** A number of moderate size is normal. *)
Lemma canonical_normal m e :
  canonical (Z.pos m) e -> (pow2 (-900) <= scaled (Z.pos m) e)%Q -> digits (Z.pos m) = 53.
Proof.
  intros [Hc _] Hv. destruct (decide (digits (Z.pos m) = 53)) as [|Hne]; [done|exfalso].
  pose proof (scaled_mag (Z.pos m) e ltac:(lia)) as [_ Hb].
  assert (-900 < digits (Z.pos m) + e); [apply pow2_lt_inv; lra|lia].
Qed.

Lemma fmul_near x y :
  nonneg x -> nonneg y -> (pow2 (-400) <= value x < pow2 400)%Q -> (pow2 (-400) <= value y < pow2 400)%Q ->
  nonneg (fmul x y) /\ near (value (fmul x y)) (value x * value y).
Proof.
  assert (pow2 (-900) <= pow2 (-400))%Q by by apply pow2_le.
  intros [|m1 e1 C1] [|m2 e2 C2] [L1 U1] [L2 U2]; simpl value in *;
    try (pose proof (pow2_pos (-400)); lra).
  pose proof (canonical_normal _ _ C1 ltac:(lra)) as D1. pose proof (canonical_normal _ _ C2 ltac:(lra)) as D2.
  pose proof (scaled_mag (Z.pos m1) e1 ltac:(lia)) as [A1 B1].
  pose proof (scaled_mag (Z.pos m2) e2 ltac:(lia)) as [A2 B2]. rewrite D1 in A1, B1. rewrite D2 in A2, B2.
  change (53 - 1) with 52 in *.
  assert (-400 < 53 + e1 /\ 52 + e1 < 400) by (split; apply pow2_lt_inv; lra).
  assert (-400 < 53 + e2 /\ 52 + e2 < 400) by (split; apply pow2_lt_inv; lra).
  pose proof (digits_mul (Z.pos m1) (Z.pos m2) ltac:(lia) ltac:(lia)) as Hge.
  pose proof (digits_bounds (Z.pos m1) ltac:(lia)) as Hb1. rewrite D1 in Hb1.
  pose proof (digits_bounds (Z.pos m2) ltac:(lia)) as Hb2. rewrite D2 in Hb2.
  assert (digits (Z.pos m1 * Z.pos m2) <= 106) by (apply digits_lt_pow2; nia).
  unfold fmul, SFmul. simpl (xorb _ _). rewrite Pos2Z.inj_mul.
  destruct (round_near (Z.pos m1 * Z.pos m2) (e1 + e2) loc_Exact (scaled (Z.pos m1) e1 * scaled (Z.pos m2) e2))
    as (m & e & -> & Hc & Hn); [lia..| | |].
  - rewrite scaled_mul. apply Qle_refl.
  - rewrite <- scaled_mul. apply scaled_le. lia.
  - split; [by constructor|done].
Qed.

(** The same for the quotient, stated without dividing. *)
Lemma fdiv_near f g :
  nonneg f -> nonneg g -> (pow2 (-400) <= value f < pow2 400)%Q -> (pow2 (-400) <= value g < pow2 400)%Q ->
  nonneg (fdiv f g) /\ near (value (fdiv f g) * value g) (value f).
Proof.
  assert (pow2 (-900) <= pow2 (-400))%Q by by apply pow2_le.
  intros [|m1 e1 C1] [|m2 e2 C2] [L1 U1] [L2 U2]; simpl value in *;
    try (pose proof (pow2_pos (-400)); lra).
  pose proof (canonical_normal _ _ C1 ltac:(lra)) as D1. pose proof (canonical_normal _ _ C2 ltac:(lra)) as D2.
  pose proof (scaled_mag (Z.pos m1) e1 ltac:(lia)) as [A1 B1].
  pose proof (scaled_mag (Z.pos m2) e2 ltac:(lia)) as [A2 B2]. rewrite D1 in A1, B1. rewrite D2 in A2, B2.
  change (53 - 1) with 52 in *.
  assert (-400 < 53 + e1 /\ 52 + e1 < 400) by (split; apply pow2_lt_inv; lra).
  assert (-400 < 53 + e2 /\ 52 + e2 < 400) by (split; apply pow2_lt_inv; lra).
  destruct (quotient_digits m1 e1 m2 e2 D1 D2) as (q & r & Hcore & Hq & Hr & Hdq); [lia..|].
  unfold fdiv, SFdiv. rewrite Hcore. simpl (xorb _ _).
  set (y := scaled (Z.pos m2) e2) in *. set (x := scaled (Z.pos m1) e1) in *.
  assert (0 < y)%Q as Hy by (unfold y; by apply scaled_pos).
  assert (scaled (q * Z.pos m2) (e1 - e2 - 53 + e2) == scaled q (e1 - e2 - 53) * y)%Q as Hlo by apply scaled_mul.
  assert (scaled ((q + 1) * Z.pos m2) (e1 - e2 - 53 + e2) == scaled (q + 1) (e1 - e2 - 53) * y)%Q as Hhi
    by apply scaled_mul.
  assert (x == scaled (Z.pos m1 * 2 ^ 53) (e1 - e2 - 53 + e2))%Q as Hx.
  { rewrite scaled_shift by lia. by replace (e1 - e2 - 53 + e2 + 53) with e1 by lia. }
  pose proof (scaled_le (q * Z.pos m2) (Z.pos m1 * 2 ^ 53) (e1 - e2 - 53 + e2) ltac:(lia)) as Hle.
  pose proof (scaled_le (Z.pos m1 * 2 ^ 53) ((q + 1) * Z.pos m2) (e1 - e2 - 53 + e2) ltac:(lia)) as Hge.
  destruct (round_near q (e1 - e2 - 53) (new_location (Z.pos m2) r) (x / y))
    as (m & e & -> & Hc & Hn); [lia..| | |].
  - apply Qle_shift_div_l; [done|]. lra.
  - apply Qle_shift_div_r; [done|]. lra.
  - split; [by constructor|]. simpl value. destruct Hn as [Hn1 Hn2].
    assert (x / y * y == x)%Q as Hxy by (field; lra).
    unfold near. apply (Qmult_le_compat_r _ _ y) in Hn1, Hn2; [|lra..].
    set (v := scaled (Z.pos m) e) in *. unfold eps in *. split; nra.
Qed.

Lemma of_Z_near a : 0 <= a <= u64_max -> nonneg (of_Z a) /\ near (value (of_Z a)) (inject_Z a).
Proof.
  intros Ha. assert (scaled a 0 == inject_Z a)%Q as Hs by (unfold scaled; change (pow2 0) with 1%Q; ring).
  rewrite <- Hs. apply normalize_near; [lia..|]. rewrite Hs.
  apply Qle_lt_trans with (inject_Z u64_max); [apply inject_Z_le; lia|].
  rewrite pow2_Z by done. by rewrite <- Zlt_Qlt.
Qed.

(** Doubling is exact. *)
Lemma fmul_two x :
  nonneg x -> (value x < pow2 1000)%Q -> nonneg (fmul x f_two) /\ (value (fmul x f_two) == 2 * value x)%Q.
Proof.
  intros [|m e Hc] Hlt; [by split; [constructor|]|].
  change (value (S754_finite false m e)) with (scaled (Z.pos m) e) in *.
  pose proof (scaled_mag (Z.pos m) e ltac:(lia)) as [Hm _].
  assert (digits (Z.pos m) - 1 + e < 1000) by (apply pow2_lt_inv; lra).
  pose proof (digits_pos (Z.pos m) ltac:(lia)) as Hd. destruct Hc as [Hc He].
  change (fmul (S754_finite false m e) f_two)
    with (binary_round_aux 53 1024 false (Z.pos (m * 2 ^ 52)) (e - 51) loc_Exact).
  rewrite Pos2Z.inj_mul, Pos2Z.inj_pow.
  destruct (decide (digits (Z.pos m) = 53)) as [H53|Hsub].
  - rewrite (round_shifted m (e - 51) 52) by (try unfold canonical; lia).
    split; [constructor; unfold canonical; lia|]. simpl value.
    replace (e - 51 + 52) with (e + 1) by lia. rewrite <- (scaled_shift (Z.pos m) e 1) by lia.
    unfold scaled. rewrite inject_Z_mult. change (inject_Z (2 ^ 1)) with 2%Q. ring.
  - replace (Z.pos m * 2 ^ 52) with (Z.pos (m * 2) * 2 ^ 51) by lia.
    assert (digits (Z.pos (m * 2)) = digits (Z.pos m) + 1) as Hd2
      by (rewrite Pos2Z.inj_mul; apply (digits_mul_pow2 (Z.pos m) 1); lia).
    rewrite (round_shifted (m * 2) (e - 51) 51) by (try unfold canonical; lia).
    split; [constructor; unfold canonical; lia|]. simpl value.
    replace (e - 51 + 51) with e by lia. unfold scaled.
    rewrite Pos2Z.inj_mul, inject_Z_mult. change (inject_Z (Z.pos 2)) with 2%Q. ring.
Qed.

(** ** Comparison *)
Lemma fltb_value x y : nonneg x -> nonneg y -> fltb x y = true <-> (value x < value y)%Q.
Proof.
  intros [|m1 e1 C1] [|m2 e2 C2]; simpl value.
  - done.
  - split; [intros _; by apply scaled_pos|done].
  - split; [done|]. pose proof (scaled_pos (Z.pos m1) e1 ltac:(lia)). lra.
  - unfold fltb, SFltb, SFcompare. destruct (Z.compare_spec e1 e2) as [->|Hlt|Hgt].
    + change (Pos.compare_cont Eq m1 m2) with (Pos.compare m1 m2). destruct (Pos.compare_spec m1 m2) as [->|Hm|Hm].
      * split; [done|]. lra.
      * split; [|done]. intros _. apply scaled_lt. lia.
      * split; [done|]. pose proof (scaled_lt (Z.pos m2) (Z.pos m1) e2 ltac:(lia)). lra.
    + split; [|done]. intros _. by apply canonical_lt.
    + split; [done|]. pose proof (canonical_lt _ _ _ _ C2 C1 Hgt). lra.
Qed.

Lemma fmin_value x y :
  nonneg x -> nonneg y -> nonneg (fmin x y) /\ (value (fmin x y) <= value x)%Q /\ (value (fmin x y) <= value y)%Q /\
    ((value (fmin x y) == value x)%Q \/ (value (fmin x y) == value y)%Q).
Proof.
  intros Hx Hy. assert (is_nan x = false /\ is_nan y = false) as [Nx Ny] by (by destruct Hx, Hy).
  unfold fmin. rewrite Nx, Ny. destruct (fltb y x) eqn:E.
  - apply fltb_value in E; [|done..]. split; [done|]. split_and!; [lra..|by right].
  - assert (~ (value y < value x)%Q) by (by rewrite <- fltb_value, E by done).
    split; [done|]. split_and!; [lra..|by left].
Qed.

Lemma fltb_false x y : nonneg x -> nonneg y -> fltb x y = false <-> (value y <= value x)%Q.
Proof.
  intros Hx Hy. pose proof (fltb_value x y Hx Hy) as Hv. split; intros Hc.
  - apply Qnot_lt_le. rewrite <- Hv, Hc. done.
  - apply not_true_is_false. rewrite Hv. lra.
Qed.

Lemma fleb_value x y : nonneg x -> nonneg y -> (value x <= value y)%Q -> SFleb x y = true.
Proof.
  intros Hx Hy Hle. pose proof (proj2 (fltb_false y x Hy Hx) Hle) as Hf. unfold fltb, SFltb in Hf. unfold SFleb.
  destruct Hx as [|m1 e1 _], Hy as [|m2 e2 _]; try done. simpl in *.
  change (Pos.compare_cont Eq m1 m2) with (Pos.compare m1 m2). change (Pos.compare_cont Eq m2 m1) with (Pos.compare m2 m1) in Hf.
  rewrite (Z.compare_antisym e2 e1), (Pos.compare_antisym m2 m1). by destruct (e2 ?= e1), (m2 ?= m1)%positive.
Qed.

(** A positive binary64 number. *)
Lemma valid_nonneg f :
  valid_binary 53 1024 f = true -> is_finite f = true -> fgtb f f_zero = true -> nonneg f.
Proof.
  intros Hv Hf Hg. destruct f as [[]|[]| |[] m e]; try done. simpl in Hv. unfold bounded, canonical_mantissa in Hv.
  apply andb_prop in Hv as [Hc%Z.eqb_eq He%Z.leb_le].
  constructor. unfold canonical. unfold fexp, emin in Hc. rewrite digits2_pos_log2 in Hc.
  fold (digits (Z.pos m)) in Hc. lia.
Qed.

(** ** Durations *)
Definition secs (d : Z) : Q := d # 1000000000.

Lemma secs_split d : (secs d == inject_Z (d / NANOS_PER_SEC) + secs (d mod NANOS_PER_SEC))%Q.
Proof.
  unfold secs, Qeq, Qplus, inject_Z. simpl. pose proof (Z.div_mod d NANOS_PER_SEC ltac:(done)).
  unfold NANOS_PER_SEC in *. lia.
Qed.

Lemma secs_le a b : a <= b -> (secs a <= secs b)%Q.
Proof. intros Hab. unfold secs, Qle. simpl. lia. Qed.

Lemma secs_add a b : (secs (a + b) == secs a + secs b)%Q.
Proof. unfold secs, Qeq, Qplus. simpl. lia. Qed.

Lemma f64_billion : nonneg (of_Z NANOS_PER_SEC) /\ (value (of_Z NANOS_PER_SEC) == 1000000000)%Q.
Proof. split; [apply of_Z_near; done|]. vm_compute. reflexivity. Qed.

Lemma nanos_near n :
  0 <= n < NANOS_PER_SEC ->
  nonneg (fdiv (of_Z n) (of_Z NANOS_PER_SEC)) /\
  (secs n * (1 - 3 * eps) <= value (fdiv (of_Z n) (of_Z NANOS_PER_SEC)) <= secs n * (1 + 3 * eps))%Q.
Proof.
  intros Hn. destruct (decide (n = 0)) as [->|Hne].
  { change (fdiv (of_Z 0) (of_Z NANOS_PER_SEC)) with f_zero. by split; [constructor|]. }
  destruct f64_billion as [Hb Vb]. destruct (of_Z_near n) as [Hz Vz]; [unfold NANOS_PER_SEC, u64_max in *; lia|].
  assert (1 <= inject_Z n <= 1000000000)%Q as Hr.
  { split; [change 1%Q with (inject_Z 1)|change 1000000000%Q with (inject_Z NANOS_PER_SEC)]; apply inject_Z_le; lia. }
  assert (pow2 (-400) <= 1 # 2)%Q as Hlo by (by vm_compute).
  assert (10000000000 < pow2 400)%Q as Hhi by (by vm_compute).
  unfold near, eps in Vz.
  destruct (fdiv_near _ _ Hz Hb) as [Hd Vd]; [lra..|]. split; [done|].
  assert (inject_Z n == 1000000000 * secs n)%Q as Hs by (unfold secs, Qeq, Qmult, inject_Z; simpl; lia).
  unfold near, eps in *. rewrite Vb in Vd. lra.
Qed.

(** [Duration::as_secs_f64]. *)
Lemma as_secs_near d :
  0 <= d <= u64_max ->
  nonneg (as_secs_f64 d) /\ (secs d * (1 - 5 * eps) <= value (as_secs_f64 d) <= secs d * (1 + 5 * eps))%Q.
Proof.
  intros Hd. unfold as_secs_f64.
  destruct (nanos_near (d mod NANOS_PER_SEC)) as [Hn Vn]; [by apply Z.mod_pos_bound|].
  assert (0 <= d / NANOS_PER_SEC <= u64_max) as Hq.
  { split; [apply Z.div_pos; [lia|done]|]. apply Z.div_le_upper_bound; [done|]. unfold NANOS_PER_SEC. lia. }
  destruct (of_Z_near _ Hq) as [Hz Vz].
  pose proof (secs_split d) as Hs. set (n := secs (d mod NANOS_PER_SEC)) in *.
  set (z := inject_Z (d / NANOS_PER_SEC)) in *.
  assert (0 <= z <= inject_Z u64_max)%Q as Bz by (split; apply inject_Z_le; lia).
  assert (0 <= n <= 1)%Q as Bn.
  { pose proof (Z.mod_pos_bound d NANOS_PER_SEC ltac:(done)). unfold n, secs, Qle. simpl. unfold NANOS_PER_SEC in *. lia. }
  assert (4 * inject_Z u64_max + 4 < pow2 1000)%Q as Hbig by (by vm_compute).
  unfold near, eps in *.
  destruct (fadd_near _ _ Hz Hn) as [Ha Va]; [lra|]. split; [done|]. unfold near, eps in Va. lra.
Qed.

(** The nearest nanosecond is at most half a nanosecond away. *)
Lemma div_round_even_near n d :
  0 < d -> 2 * n - d <= 2 * d * div_round_even n d <= 2 * n + d.
Proof.
  intros Hd. unfold div_round_even. pose proof (Z.div_mod n d ltac:(lia)). pose proof (Z.mod_pos_bound n d Hd).
  destruct (Z.compare_spec (2 * (n mod d)) d); [destruct (Z.even _)|..]; lia.
Qed.

Lemma nanos_value m e :
  (scaled (Z.pos m) e * 1000000000 - (1 # 2) <= inject_Z (nanos m e) <= scaled (Z.pos m) e * 1000000000 + (1 # 2))%Q.
Proof.
  unfold nanos. destruct (Z.leb_spec 0 e) as [He|He].
  - rewrite !inject_Z_mult. unfold scaled. rewrite pow2_Z by done. change (inject_Z NANOS_PER_SEC) with 1000000000%Q. lra.
  - set (n := Z.pos m * NANOS_PER_SEC). set (d := 2 ^ (- e)).
    assert (0 < d) as Hd by (apply Z.pow_pos_nonneg; lia).
    destruct (div_round_even_near n d Hd) as [Hlo Hhi].
    apply inject_Z_le in Hlo, Hhi. unfold Z.sub in Hlo.
    rewrite inject_Z_plus, inject_Z_opp, !inject_Z_mult in Hlo. rewrite inject_Z_plus, !inject_Z_mult in Hhi.
    assert (inject_Z n == inject_Z (Z.pos m) * 1000000000)%Q as Hn by (unfold n; by rewrite inject_Z_mult).
    rewrite Hn in Hlo, Hhi. change (inject_Z 2) with 2%Q in Hlo, Hhi.
    assert (inject_Z d * pow2 e == 1)%Q as Hinv.
    { unfold d. rewrite <- pow2_Z by lia. rewrite <- pow2_add. by replace (- e + e) with 0 by lia. }
    pose proof (pow2_pos e). set (k := inject_Z (div_round_even n d)) in *. unfold scaled.
    set (x := inject_Z (Z.pos m)) in *. set (y := inject_Z d) in *. set (p := pow2 e) in *.
    assert (2 * y * k * p <= (2 * (x * 1000000000) + y) * p)%Q as Hp by (apply Qmult_le_compat_r; lra).
    assert ((2 * (x * 1000000000) + - y) * p <= 2 * y * k * p)%Q as Hp' by (apply Qmult_le_compat_r; lra).
    assert (2 * y * k * p == 2 * k * (y * p))%Q as E1 by ring.
    assert ((2 * (x * 1000000000) + y) * p == 2 * (x * p * 1000000000) + y * p)%Q as E2 by ring.
    assert ((2 * (x * 1000000000) + - y) * p == 2 * (x * p * 1000000000) - y * p)%Q as E3 by ring.
    rewrite E1, E2, Hinv in Hp. rewrite E1, E3, Hinv in Hp'. lra.
Qed.
