(* ===== verification/RateLimit.v ===== *)
(** * Rate limiting ([rate_limit.rs])

    [RateLimiter] is a token bucket in packets per second combined with a
    budget of wire bytes per 24-hour window; [PerSourceLimiter] keeps one per
    source address in a bounded table.  Token counts are [f64], as in the code;
    byte counts are saturating [u64].

    The file proves the budget for every float, and, for whole packet rates
    and whole-second call times, that the float bucket is exactly an integer
    token bucket, from which the usual rate bound follows; [RateBounds] bounds
    the rate of every float at every instant. *)

From S2P Require Import Prelude F64.

Definition WIRE_BYTES_PER_PACKET : Z := 2064.
Definition QUOTA_WINDOW : Z := from_secs (24 * 60 * 60).

Inductive ThrottleReason : Type :=
| Rate
| DailyQuota.

Inductive RateDecision : Type :=
| Allow
| Throttled (r : ThrottleReason).

#[global] Instance ThrottleReason_eq_dec : EqDecision ThrottleReason.
Proof. solve_decision. Defined.
#[global] Instance RateDecision_eq_dec : EqDecision RateDecision.
Proof. solve_decision. Defined.

Definition is_allowed (d : RateDecision) : bool :=
  match d with Allow => true | Throttled _ => false end.

Record RateLimiter : Type := mkLimiter {
  max_pps : f64;
  burst : f64;
  tokens : f64;
  last_refill : Z;
  max_bytes_per_day : Z;
  bytes_used : Z;
  window_start : Z;
}.

(** [RateLimiter::new]; [t1] and [t2] are its two readings of the clock. *)
Definition new (pps : f64) (bytes_per_day t1 t2 : Z) : RateLimiter :=
  let pps := fmax pps f_zero in
  let b := if fgtb pps f_zero then fmul pps f_two else f_zero in
  mkLimiter pps b b t1 bytes_per_day 0 t2.

Definition unlimited (t1 t2 : Z) : RateLimiter := new f_zero 0 t1 t2.

Definition is_unlimited (rl : RateLimiter) : bool :=
  feqb (max_pps rl) f_zero && (max_bytes_per_day rl =? 0).

Definition bytes_used_today (rl : RateLimiter) : Z := bytes_used rl.

(** The byte budget of [check_at]: the accounting of the current window, or
    [None] when the packet does not fit. *)
Definition quota_check (rl : RateLimiter) (now : Z) : option (Z * Z) :=
  if 0 <? max_bytes_per_day rl then
    let '(used, ws) :=
      if QUOTA_WINDOW <=? duration_since now (window_start rl) then (0, now)
      else (bytes_used rl, window_start rl) in
    if max_bytes_per_day rl <? u64_saturating_add used WIRE_BYTES_PER_PACKET then None
    else Some (used, ws)
  else Some (bytes_used rl, window_start rl).

(** The token bucket of [check_at]: the refilled tokens, or [None] when less
    than one is left. *)
Definition bucket_check (rl : RateLimiter) (now : Z) : option f64 :=
  if fgtb (max_pps rl) f_zero then
    let elapsed := as_secs_f64 (duration_since now (last_refill rl)) in
    let t := fmin (fadd (tokens rl) (fmul elapsed (max_pps rl))) (burst rl) in
    if fltb t f_one then None else Some t
  else Some (tokens rl).

Definition check_at (rl : RateLimiter) (now : Z) : RateDecision * RateLimiter :=
  match quota_check rl now with
  | None => (Throttled DailyQuota, rl)
  | Some (used, ws) =>
      match bucket_check rl now with
      | None => (Throttled Rate, rl)
      | Some t =>
          let rl := if fgtb (max_pps rl) f_zero then
                      mkLimiter (max_pps rl) (burst rl) (fsub t f_one) now
                        (max_bytes_per_day rl) (bytes_used rl) (window_start rl)
                    else rl in
          let rl := if 0 <? max_bytes_per_day rl then
                      mkLimiter (max_pps rl) (burst rl) (tokens rl) (last_refill rl)
                        (max_bytes_per_day rl)
                        (u64_saturating_add used WIRE_BYTES_PER_PACKET) ws
                    else rl in
          (Allow, rl)
      end
  end.

(** ** Per-source table *)
Inductive IpAddr : Type :=
| V4 (bits : Z)
| V6 (bits : Z).

#[global] Instance IpAddr_eq_dec : EqDecision IpAddr.
Proof. solve_decision. Defined.

#[global] Instance IpAddr_countable : Countable IpAddr.
Proof.
  refine (inj_countable' (fun a => match a with V4 b => inl b | V6 b => inr b end)
            (fun s => match s with inl b => V4 b | inr b => V6 b end) _).
  by intros [].
Defined.

Record PerSourceLimiter : Type := mkPerSource {
  buckets : gmap IpAddr (RateLimiter * Z);
  max_entries : nat;
  ps_max_pps : f64;
  ps_max_bytes_per_day : Z;
}.

Definition new_per_source (pps : f64) (bytes_per_day : Z) (n : nat) : PerSourceLimiter :=
  mkPerSource ∅ (Nat.max n 1) pps bytes_per_day.

Section per_source.
Context `{!HashOrder IpAddr (RateLimiter * Z)}.

(** Make room for a new source by dropping the one seen longest ago. *)
Definition evict_idle (b : gmap IpAddr (RateLimiter * Z)) : gmap IpAddr (RateLimiter * Z) :=
  match min_by_key (fun e => e.2.2) (hash_iter b) with
  | Some (victim, _) => delete victim b
  | None => b
  end.

(** [PerSourceLimiter::check_at]; [t1] and [t2] are the clock readings of
    [RateLimiter::new] when the source is not tracked yet. *)
Definition per_source_check_at (p : PerSourceLimiter) (src : IpAddr) (now t1 t2 : Z)
  : RateDecision * PerSourceLimiter :=
  let b := buckets p in
  let b := if bool_decide (b !! src = None) && (max_entries p <=? size b)%nat
           then evict_idle b else b in
  let rl := default (new (ps_max_pps p) (ps_max_bytes_per_day p) t1 t2) (fst <$> b !! src) in
  let '(d, rl) := check_at rl now in
  (d, mkPerSource (<[src := (rl, now)]> b) (max_entries p) (ps_max_pps p)
        (ps_max_bytes_per_day p)).
End per_source.

Definition tracked (p : PerSourceLimiter) : nat := size (buckets p).

(** ** Runs *)
Fixpoint run (rl : RateLimiter) (times : list Z) : list RateDecision * RateLimiter :=
  match times with
  | [] => ([], rl)
  | now :: times =>
      let '(d, rl) := check_at rl now in
      let '(ds, rl) := run rl times in (d :: ds, rl)
  end.

(** The number of admitted packets. *)
Definition admitted (ds : list RateDecision) : Z := Z.of_nat (length (filter (.= Allow) ds)).

Lemma admitted_cons d ds : admitted (d :: ds) = (if decide (d = Allow) then 1 else 0) + admitted ds.
Proof. unfold admitted. rewrite filter_cons. case_decide; simpl length; lia. Qed.

Lemma admitted_app ds1 ds2 : admitted (ds1 ++ ds2) = admitted ds1 + admitted ds2.
Proof. unfold admitted. rewrite filter_app, length_app. lia. Qed.

Lemma admitted_repeat n : admitted (repeat Allow n) = Z.of_nat n.
Proof. induction n as [|n IH]; simpl; [done|]. rewrite admitted_cons, IH, decide_True by done. lia. Qed.

Lemma limiter_run_app rl ts1 ts2 :
  run rl (ts1 ++ ts2) =
  let '(ds1, rl) := run rl ts1 in let '(ds2, rl) := run rl ts2 in (ds1 ++ ds2, rl).
Proof.
  revert rl. induction ts1 as [|t ts1 IH]; intros rl; simpl; [by destruct (run rl ts2)|].
  destruct (check_at rl t) as [d rl1]. rewrite IH.
  destruct (run rl1 ts1) as [ds1 rl2]. by destruct (run rl2 ts2).
Qed.

(** The configuration never changes. *)
Lemma check_at_config rl now :
  let rl' := snd (check_at rl now) in
  max_pps rl' = max_pps rl /\ burst rl' = burst rl /\
  max_bytes_per_day rl' = max_bytes_per_day rl.
Proof. unfold check_at. by repeat case_match. Qed.

(** ** The byte budget *)

(** What one call does to the byte accounting when the budget is on. *)
Lemma check_at_quota rl now :
  0 < max_bytes_per_day rl < u64_max -> 0 <= bytes_used rl ->
  duration_since now (window_start rl) < QUOTA_WINDOW ->
  let '(d, rl') := check_at rl now in
  window_start rl' = window_start rl /\
  if decide (d = Allow) then
    bytes_used rl' = bytes_used rl + WIRE_BYTES_PER_PACKET /\ bytes_used rl' <= max_bytes_per_day rl
  else rl' = rl.
Proof.
  intros Hb Hu Hw. unfold check_at, quota_check.
  rewrite (proj2 (Z.ltb_lt _ _)) by lia. rewrite (proj2 (Z.leb_gt _ _)) by done.
  destruct (Z.ltb_spec (max_bytes_per_day rl)
              (u64_saturating_add (bytes_used rl) WIRE_BYTES_PER_PACKET)) as [Hlt|Hle]; [done|].
  destruct (bucket_check rl now); [|done].
  unfold u64_saturating_add, WIRE_BYTES_PER_PACKET, u64_max in *.
  destruct (fgtb (max_pps rl) f_zero); cbn [max_bytes_per_day];
    rewrite (proj2 (Z.ltb_lt 0 (max_bytes_per_day rl))) by lia; simpl;
    (split; [done|]); lia.
Qed.

Lemma run_quota rl times :
  0 < max_bytes_per_day rl < u64_max -> 0 <= bytes_used rl <= max_bytes_per_day rl ->
  Forall (fun now => duration_since now (window_start rl) < QUOTA_WINDOW) times ->
  bytes_used rl + WIRE_BYTES_PER_PACKET * admitted (fst (run rl times)) <= max_bytes_per_day rl.
Proof.
  revert rl. induction times as [|now times IH]; intros rl Hb Hu Hall; simpl.
  { unfold admitted, WIRE_BYTES_PER_PACKET. simpl. lia. }
  apply Forall_cons in Hall as [Hw Hall].
  pose proof (check_at_quota rl now Hb ltac:(lia) Hw) as Hst.
  pose proof (check_at_config rl now) as (_ & _ & Hm).
  destruct (check_at rl now) as [d rl1]. simpl in Hm. destruct Hst as [Hws Hd].
  specialize (IH rl1). rewrite Hws, Hm in IH.
  destruct (run rl1 times) as [ds rl2]. simpl in *. rewrite admitted_cons.
  unfold WIRE_BYTES_PER_PACKET in *. case_decide as Hda.
  - destruct Hd as [Hu1 Hu2]. specialize (IH Hb ltac:(lia) Hall). lia.
  - subst rl1. specialize (IH Hb Hu Hall). lia.
Qed.

(** Packets that fit the budget of the current window are admitted, when no
    packet rate is set. *)
Lemma run_quota_fits rl now n :
  fgtb (max_pps rl) f_zero = false -> 0 < max_bytes_per_day rl < u64_max -> 0 <= bytes_used rl ->
  duration_since now (window_start rl) < QUOTA_WINDOW ->
  bytes_used rl + WIRE_BYTES_PER_PACKET * Z.of_nat n <= max_bytes_per_day rl ->
  run rl (repeat now n) =
  (repeat Allow n,
   mkLimiter (max_pps rl) (burst rl) (tokens rl) (last_refill rl) (max_bytes_per_day rl)
     (bytes_used rl + WIRE_BYTES_PER_PACKET * Z.of_nat n) (window_start rl)).
Proof.
  intros Hp Hb. revert rl Hp Hb. induction n as [|n IH]; intros rl Hp Hb Hu Hw Hfit; simpl.
  { f_equal. destruct rl. simpl. f_equal. lia. }
  unfold check_at, quota_check, bucket_check. rewrite Hp.
  rewrite (proj2 (Z.ltb_lt _ _)) by lia. rewrite (proj2 (Z.leb_gt _ _)) by done.
  unfold u64_saturating_add, WIRE_BYTES_PER_PACKET, u64_max in *.
  rewrite (proj2 (Z.ltb_ge _ _)) by lia.
  rewrite Z.min_r by lia.
  rewrite IH; simpl; [|done|lia|lia|done|lia].
  f_equal. f_equal. lia.
Qed.

(** The first packet after the end of a window starts the next one. *)
Lemma check_at_rollover rl now :
  fgtb (max_pps rl) f_zero = false ->
  WIRE_BYTES_PER_PACKET <= max_bytes_per_day rl < u64_max ->
  QUOTA_WINDOW <= duration_since now (window_start rl) ->
  check_at rl now =
  (Allow, mkLimiter (max_pps rl) (burst rl) (tokens rl) (last_refill rl) (max_bytes_per_day rl)
            WIRE_BYTES_PER_PACKET now).
Proof.
  intros Hp Hb Hw. unfold check_at, quota_check, bucket_check. rewrite Hp.
  unfold WIRE_BYTES_PER_PACKET, u64_saturating_add, u64_max in *.
  rewrite (proj2 (Z.ltb_lt 0 _)) by lia. rewrite (proj2 (Z.leb_le _ _)) by done.
  by rewrite (proj2 (Z.ltb_ge _ _)) by lia.
Qed.

(** ** The integer token bucket *)
Module Bucket.
(** [rate] tokens per second, at most [2 * rate] of them; time in seconds. *)
Record state : Type := St { tok : Z; last : Z }.

Definition step (rate : Z) (b : state) (s : Z) : RateDecision * state :=
  let t := Z.min (2 * rate) (tok b + rate * Z.max 0 (s - last b)) in
  if t <? 1 then (Throttled Rate, b) else (Allow, St (t - 1) s).

Fixpoint run (rate : Z) (b : state) (secs : list Z) : list RateDecision * state :=
  match secs with
  | [] => ([], b)
  | s :: secs =>
      let '(d, b) := step rate b s in
      let '(ds, b) := run rate b secs in (d :: ds, b)
  end.

Fixpoint monotonic (t : Z) (secs : list Z) : Prop :=
  match secs with [] => True | s :: secs => t <= s /\ monotonic s secs end.

(** Every admission uses up one token of what was there or was refilled. *)
Lemma step_potential rate b s :
  0 <= rate -> last b <= s ->
  let '(d, b') := step rate b s in
  (if decide (d = Allow) then 1 else 0) + tok b' - rate * last b' <= tok b - rate * last b /\
  (0 <= tok b -> 0 <= tok b') /\ last b <= last b' <= s.
Proof.
  intros Hr Hs. unfold step. destruct (Z.ltb_spec
    (Z.min (2 * rate) (tok b + rate * Z.max 0 (s - last b))) 1); simpl; [lia|].
  rewrite Z.max_r in * by lia. split; [nia|]. lia.
Qed.

Lemma run_potential rate b secs T :
  0 <= rate -> 0 <= tok b -> monotonic (last b) secs -> Forall (fun s => s <= T) secs ->
  last b <= T ->
  admitted (fst (run rate b secs)) <= tok b + rate * (T - last b).
Proof.
  intros Hr. revert b. induction secs as [|s secs IH]; intros b Ht Hm Hall HT; simpl.
  { unfold admitted. simpl. nia. }
  destruct Hm as [Hs Hm]. apply Forall_cons in Hall as [HsT Hall].
  pose proof (step_potential rate b s Hr Hs) as Hst.
  destruct (step rate b s) as [d b1]. destruct Hst as (Hpot & Hpos & Hl).
  assert (monotonic (last b1) secs) as Hm1.
  { destruct secs; simpl in *; [done|]. split; [lia|]. by destruct Hm. }
  specialize (IH b1 (Hpos Ht) Hm1 Hall ltac:(lia)).
  destruct (run rate b1 secs) as [ds b2]. simpl in *. rewrite admitted_cons. nia.
Qed.
End Bucket.

(** A limiter without a byte budget whose floats are the integers of a bucket,
    on a clock that started at [t0]. *)
Record bucket_sim (t0 rate : Z) (b : Bucket.state) (rl : RateLimiter) : Prop := {
  bs_pps : max_pps rl = fz rate;
  bs_burst : burst rl = fz (2 * rate);
  bs_tokens : tokens rl = fz (Bucket.tok b);
  bs_refill : last_refill rl = t0 + from_secs (Bucket.last b);
  bs_quota : max_bytes_per_day rl = 0;
}.

Lemma bucket_sim_new t0 t2 rate :
  1 <= rate -> 2 * rate < 2 ^ 53 ->
  bucket_sim t0 rate (Bucket.St (2 * rate) 0) (new (of_Z rate) 0 t0 t2).
Proof.
  intros Hr Hb. unfold new. rewrite of_Z_exact by (unfold exact; lia).
  change f_zero with (fz 0). rewrite fmax_fz by (unfold exact; lia).
  rewrite Z.max_l by lia. unfold fgtb. change (SFltb ?x ?y) with (fltb x y).
  rewrite fltb_fz by (unfold exact; lia). rewrite (proj2 (Z.ltb_lt _ _)) by lia.
  unfold f_two. rewrite of_Z_exact by (unfold exact; lia).
  rewrite fmul_fz by (unfold exact; lia). rewrite (Z.mul_comm rate).
  split; simpl; unfold from_secs; try done. lia.
Qed.

(** The float bucket of [check_at] does what the integer bucket does. *)
Lemma bucket_sim_step t0 rate b rl S s :
  1 <= rate -> rate * (S + 2) < 2 ^ 53 -> 0 <= s <= S -> 0 <= Bucket.last b <= S ->
  0 <= Bucket.tok b <= 2 * rate -> bucket_sim t0 rate b rl ->
  let '(d, rl') := check_at rl (t0 + from_secs s) in
  let '(d', b') := Bucket.step rate b s in
  d = d' /\ bucket_sim t0 rate b' rl' /\ 0 <= Bucket.tok b' <= 2 * rate /\ 0 <= Bucket.last b' <= S.
Proof.
  intros Hr HS Hs Hl Ht [Hpps Hburst Htok Hrefill Hquota].
  unfold check_at, quota_check, bucket_check. rewrite Hpps, Hburst, Htok, Hrefill, Hquota.
  simpl (0 <? 0). change f_zero with (fz 0). change f_one with (fz 1).
  unfold fgtb. change (SFltb ?x ?y) with (fltb x y).
  assert (2 * rate < 2 ^ 53) by nia.
  rewrite fltb_fz by (unfold exact; lia). rewrite (proj2 (Z.ltb_lt 0 rate)) by lia.
  set (dt := Z.max 0 (s - Bucket.last b)).
  replace (duration_since (t0 + from_secs s) (t0 + from_secs (Bucket.last b)))
    with (dt * NANOS_PER_SEC)
    by (unfold duration_since, from_secs, NANOS_PER_SEC, dt; lia).
  assert (0 <= dt <= S) by (unfold dt; lia).
  assert (0 <= dt * rate /\ dt * rate + 2 * rate < 2 ^ 53 /\ dt < 2 ^ 53) as (? & ? & ?) by nia.
  rewrite as_secs_f64_whole, fmul_fz, fadd_fz, fmin_fz by (unfold exact; lia).
  rewrite fltb_fz by (unfold exact; lia).
  unfold Bucket.step. fold dt.
  replace (Z.min (Bucket.tok b + dt * rate) (2 * rate))
    with (Z.min (2 * rate) (Bucket.tok b + rate * dt)) by lia.
  set (t := Z.min (2 * rate) (Bucket.tok b + rate * dt)).
  destruct (Z.ltb_spec t 1) as [Hlt|Hge];
    [simpl; split_and!; [done|by split|lia..]|].
  simpl. split; [done|]. split; [|lia].
  split; simpl; try done. apply fsub_fz; unfold exact; lia.
Qed.

Lemma bucket_sim_run t0 rate S b rl secs :
  1 <= rate -> rate * (S + 2) < 2 ^ 53 -> Forall (fun s => 0 <= s <= S) secs ->
  0 <= Bucket.last b <= S -> 0 <= Bucket.tok b <= 2 * rate -> bucket_sim t0 rate b rl ->
  fst (run rl (map (fun s => t0 + from_secs s) secs)) = fst (Bucket.run rate b secs).
Proof.
  intros Hr HS Hall. revert b rl. induction Hall as [|s secs Hs Hall IH];
    intros b rl Hl Ht Hsim; simpl; [done|].
  pose proof (bucket_sim_step t0 rate b rl S s Hr HS Hs Hl Ht Hsim) as Hst.
  destruct (check_at rl (t0 + from_secs s)) as [d rl1], (Bucket.step rate b s) as [d' b1].
  destruct Hst as (-> & Hsim1 & Ht1 & Hl1). specialize (IH b1 rl1 Hl1 Ht1 Hsim1).
  destruct (run rl1 _), (Bucket.run rate b1 secs). simpl in *. by f_equal.
Qed.

(** ** Theorems on [RateLimiter] *)

(** A throttled call consumes nothing: the limiter is returned unchanged,
    for every float rate (NaN and infinities included) and byte budget. *)
Theorem throttled_consumes_nothing rl now r :
  fst (check_at rl now) = Throttled r -> snd (check_at rl now) = rl.
Proof. unfold check_at. by repeat case_match. Qed.

(** The rejections above happen: a drained bucket of one packet per second. *)
Lemma throttled_consumes_nothing_witness :
  let rl := snd (run (new f_one 0 0 0) [0; 0]) in
  fst (check_at rl 0) = Throttled Rate /\ snd (check_at rl 0) = rl.
Proof.
  split; [vm_compute; reflexivity|].
  apply (throttled_consumes_nothing _ 0 Rate). vm_compute. reflexivity.
Defined.

(** Daily budget.  Within one window of a fresh limiter with byte budget
    [b] the bytes of the admitted packets never exceed [b], in whatever order
    the calls come and whatever the packet rate. *)
Theorem daily_budget_respected pps b t1 t2 times :
  0 < b < u64_max ->
  Forall (fun now => duration_since now t2 < QUOTA_WINDOW) times ->
  WIRE_BYTES_PER_PACKET * admitted (fst (run (new pps b t1 t2) times)) <= b.
Proof.
  intros Hb Hall. pose proof (run_quota (new pps b t1 t2) times) as Hq.
  simpl in Hq. specialize (Hq Hb ltac:(lia) Hall). lia.
Qed.

Lemma daily_budget_respected_witness :
  WIRE_BYTES_PER_PACKET * admitted (fst (run (new f_zero 5000 0 0) [1; 2; 3; 4])) <= 5000.
Proof.
  apply (daily_budget_respected f_zero 5000 0 0 [1; 2; 3; 4]); [by vm_compute|].
  repeat constructor.
Defined.

(** The window tumbles, it does not roll: a relay whose budget holds [k]
    packets admits [2 * k] of them within one second around the end of a
    window. *)
Theorem quota_window_is_not_rolling k b t0 :
  (0 < k)%nat -> WIRE_BYTES_PER_PACKET * Z.of_nat k <= b < u64_max -> 0 <= t0 ->
  let late := t0 + QUOTA_WINDOW - from_secs 1 in
  let next := t0 + QUOTA_WINDOW in
  admitted (fst (run (new f_zero b t0 t0) (repeat late k ++ repeat next k))) = 2 * Z.of_nat k.
Proof.
  intros Hk Hb Ht0 late next.
  assert (Hd : duration_since late t0 < QUOTA_WINDOW /\ duration_since next t0 = QUOTA_WINDOW /\
               duration_since next next < QUOTA_WINDOW) by
    (change QUOTA_WINDOW with 86400000000000 in *; change (from_secs 1) with 1000000000 in *;
     unfold duration_since; lia).
  destruct Hd as (Hd1 & Hd2 & Hd3). unfold WIRE_BYTES_PER_PACKET, u64_max in Hb.
  rewrite limiter_run_app, run_quota_fits; simpl; unfold WIRE_BYTES_PER_PACKET, u64_max; try lia; try done.
  destruct k as [|k]; [done|]. simpl (repeat next _). simpl run.
  rewrite check_at_rollover; simpl; unfold WIRE_BYTES_PER_PACKET, u64_max; try lia; try done.
  rewrite run_quota_fits; simpl; unfold WIRE_BYTES_PER_PACKET, u64_max; try lia; try done.
  rewrite app_comm_cons, admitted_app, !admitted_cons, !admitted_repeat, !decide_True by done. lia.
Qed.

Lemma quota_window_is_not_rolling_witness :
  admitted (fst (run (new f_zero 2064 0 0)
    (repeat (0 + QUOTA_WINDOW - from_secs 1) 1 ++ repeat (0 + QUOTA_WINDOW) 1))) = 2 * Z.of_nat 1.
Proof. apply (quota_window_is_not_rolling 1 2064 0); [lia|by vm_compute|lia]. Defined.

(** C22. Refinement.  For a whole packet rate and whole-second call times the
    float token bucket decides exactly as an integer token bucket that refills
    [rate] tokens a second up to [2 * rate], as long as the arithmetic stays
    below 2^53. *)
Theorem float_bucket_refines_integer_bucket t0 t2 rate S secs :
  1 <= rate -> rate * (S + 2) < 2 ^ 53 -> 0 <= S -> Forall (fun s => 0 <= s <= S) secs ->
  fst (run (new (of_Z rate) 0 t0 t2) (map (fun s => t0 + from_secs s) secs)) =
  fst (Bucket.run rate (Bucket.St (2 * rate) 0) secs).
Proof.
  intros Hr HS HS0 Hall. eapply (bucket_sim_run t0 rate S); simpl; try done; try lia.
  apply bucket_sim_new; [done|nia].
Qed.

Lemma float_bucket_refines_integer_bucket_witness :
  fst (run (new (of_Z 2) 0 7 7) (map (fun s => 7 + from_secs s) [0; 0; 0; 0; 0; 1; 1; 1; 9])) =
  fst (Bucket.run 2 (Bucket.St (2 * 2) 0) [0; 0; 0; 0; 0; 1; 1; 1; 9]).
Proof.
  apply (float_bucket_refines_integer_bucket 7 7 2 10); [lia|lia|lia|].
  repeat constructor; lia.
Defined.

(** Rate bound without rounding.  Over any monotone sequence of calls in the first [T]
    seconds, a limiter of [rate] packets per second admits at most its burst
    of [2 * rate] plus [rate * T] packets. *)
Theorem whole_second_rate_bounded t0 t2 rate T secs :
  1 <= rate -> rate * (T + 2) < 2 ^ 53 -> 0 <= T -> Forall (fun s => 0 <= s <= T) secs ->
  Bucket.monotonic 0 secs ->
  admitted (fst (run (new (of_Z rate) 0 t0 t2) (map (fun s => t0 + from_secs s) secs)))
  <= 2 * rate + rate * T.
Proof.
  intros Hr HS HT Hall Hm.
  rewrite (bucket_sim_run t0 rate T (Bucket.St (2 * rate) 0)); simpl; try done; try lia.
  - pose proof (Bucket.run_potential rate (Bucket.St (2 * rate) 0) secs T) as Hp. simpl in Hp.
    specialize (Hp ltac:(lia) ltac:(lia) Hm).
    rewrite Z.sub_0_r in Hp. apply Hp; [|done].
    eapply Forall_impl; [done|]. simpl. lia.
  - apply bucket_sim_new; [done|nia].
Qed.

Lemma whole_second_rate_bounded_witness :
  admitted (fst (run (new (of_Z 1) 0 0 0) (map (fun s => 0 + from_secs s) [0; 0; 0; 1; 1; 2])))
  <= 2 * 1 + 1 * 2.
Proof.
  apply (whole_second_rate_bounded 0 0 1 2); [lia|lia|lia| |simpl; lia].
  repeat constructor; lia.
Defined.

(** ** Theorems on [PerSourceLimiter] *)
Section per_source_facts.
Context `{HO : !HashOrder IpAddr (RateLimiter * Z)}.

(** A limiter's call made by one source, in a sequence of calls. *)
Record call : Type := Call { c_src : IpAddr; c_now : Z; c_t1 : Z; c_t2 : Z }.

Fixpoint per_source_run (p : PerSourceLimiter) (cs : list call)
  : list RateDecision * PerSourceLimiter :=
  match cs with
  | [] => ([], p)
  | c :: cs =>
      let '(d, p) := per_source_check_at p (c_src c) (c_now c) (c_t1 c) (c_t2 c) in
      let '(ds, p) := per_source_run p cs in (d :: ds, p)
  end.

Lemma evict_idle_Some b :
  b <> ∅ -> exists victim rl seen,
    b !! victim = Some (rl, seen) /\ evict_idle b = delete victim b /\
    forall src rl' seen', b !! src = Some (rl', seen') -> seen <= seen'.
Proof.
  intros Hne. unfold evict_idle. destruct (min_by_key _ _) as [[v [rl seen]]|] eqn:E.
  - apply min_by_key_Some in E as [Hin Hall]. exists v, rl, seen.
    rewrite hash_iter_perm in Hin. split; [by apply elem_of_map_to_list|].
    split; [done|]. intros src rl' seen' Hs. rewrite Forall_forall in Hall.
    apply (Hall (src, (rl', seen'))). rewrite hash_iter_perm. by apply elem_of_map_to_list.
  - apply min_by_key_None in E. pose proof (hash_iter_perm b) as Hp. rewrite E in Hp.
    symmetry in Hp. apply Permutation_nil_r, map_to_list_empty_iff in Hp. done.
Qed.

Lemma per_source_check_size p src now t1 t2 :
  (1 <= max_entries p)%nat -> (size (buckets p) <= max_entries p)%nat ->
  let p' := snd (per_source_check_at p src now t1 t2) in
  max_entries p' = max_entries p /\ (size (buckets p') <= max_entries p)%nat.
Proof.
  intros Hm Hs. unfold per_source_check_at. destruct (check_at _ now) as [d rl]. simpl.
  split; [done|]. case_bool_decide as Hsrc; simpl.
  - destruct (Nat.leb_spec (max_entries p) (size (buckets p))).
    + assert (buckets p <> ∅) as Hne by (intros He; rewrite He, map_size_empty in *; lia).
      destruct (evict_idle_Some (buckets p) Hne) as (v & rl' & seen & Hv & -> & _).
      rewrite map_size_insert_None by (rewrite lookup_delete_None; auto).
      rewrite map_size_delete_Some by eauto. lia.
    + rewrite map_size_insert_None by done. lia.
  - destruct (buckets p !! src) as [e|] eqn:E; [|done].
    rewrite map_size_insert_Some by eauto. done.
Qed.

Lemma per_source_run_size p cs :
  (1 <= max_entries p)%nat -> (size (buckets p) <= max_entries p)%nat ->
  (tracked (snd (per_source_run p cs)) <= max_entries p)%nat.
Proof.
  revert p. induction cs as [|c cs IH]; intros p Hm Hs; simpl; [done|].
  pose proof (per_source_check_size p (c_src c) (c_now c) (c_t1 c) (c_t2 c) Hm Hs) as Hst.
  destruct (per_source_check_at _ _ _ _ _) as [d p1]. simpl in Hst. destruct Hst as [He Hs1].
  specialize (IH p1). rewrite He in IH. specialize (IH Hm Hs1).
  by destruct (per_source_run p1 cs).
Qed.

(** The decisions a source received, and the times of its calls. *)
Definition calls_of (a : IpAddr) (cs : list call) : list call := filter (fun c => c_src c = a) cs.
Definition decisions_of (a : IpAddr) (cs : list call) (ds : list RateDecision)
  : list RateDecision :=
  map snd (filter (fun e => c_src e.1 = a) (zip cs ds)).

(** What a limiter of the source's own would answer. *)
Definition solo (p : PerSourceLimiter) (a : IpAddr) (cs : list call) : list RateDecision :=
  match buckets p !! a, cs with
  | Some (rl, _), _ => fst (run rl (map c_now cs))
  | None, [] => []
  | None, c :: _ =>
      fst (run (new (ps_max_pps p) (ps_max_bytes_per_day p) (c_t1 c) (c_t2 c)) (map c_now cs))
  end.

Definition sources (cs : list call) : gset IpAddr := list_to_set (map c_src cs).

(** While the table has room a call leaves the other sources alone. *)
Lemma per_source_check_room p c :
  (size (dom (buckets p) ∪ {[c_src c]}) <= max_entries p)%nat ->
  let rl := default (new (ps_max_pps p) (ps_max_bytes_per_day p) (c_t1 c) (c_t2 c))
              (fst <$> buckets p !! c_src c) in
  per_source_check_at p (c_src c) (c_now c) (c_t1 c) (c_t2 c) =
  (fst (check_at rl (c_now c)),
   mkPerSource (<[c_src c := (snd (check_at rl (c_now c)), c_now c)]> (buckets p))
     (max_entries p) (ps_max_pps p) (ps_max_bytes_per_day p)).
Proof.
  intros Hroom. unfold per_source_check_at.
  assert (bool_decide (buckets p !! c_src c = None)
          && (max_entries p <=? size (buckets p))%nat = false) as ->.
  { case_bool_decide as Hnone; simpl; [|done]. apply Nat.leb_gt.
    apply not_elem_of_dom in Hnone.
    rewrite size_union, size_singleton, size_dom in Hroom by set_solver. lia. }
  by destruct (check_at _ (c_now c)).
Qed.

Lemma per_source_run_solo a p cs :
  (size (dom (buckets p) ∪ sources cs) <= max_entries p)%nat ->
  decisions_of a cs (fst (per_source_run p cs)) = solo p a (calls_of a cs).
Proof.
  revert p. induction cs as [|c cs IH]; intros p Hroom.
  { unfold solo. by destruct (buckets p !! a) as [[]|]. }
  simpl. rewrite per_source_check_room.
  2:{ etrans; [|exact Hroom]. apply subseteq_size. unfold sources. simpl. set_solver. }
  match goal with |- context [per_source_run ?q cs] => set (p1 := q) end.
  assert (dom (buckets p1) ∪ sources cs = dom (buckets p) ∪ sources (c :: cs)) as Hd.
  { unfold p1, sources. simpl. rewrite dom_insert_L. set_solver. }
  specialize (IH p1). rewrite Hd in IH. specialize (IH Hroom).
  destruct (per_source_run p1 cs) as [ds p2] eqn:Hrun.
  unfold decisions_of, calls_of, solo in *. simpl fst in *. simpl. rewrite !filter_cons. simpl.
  destruct (decide (c_src c = a)) as [<-|Hne]; simpl.
  - rewrite IH. unfold p1. simpl. rewrite lookup_insert_eq.
    destruct (buckets p !! c_src c) as [[rl seen]|]; simpl;
      destruct (check_at _ (c_now c)) as [d rl1]; simpl; by destruct (run rl1 _).
  - rewrite IH. unfold p1. simpl. by rewrite lookup_insert_ne.
Qed.

(** The table is bounded: after any sequence of calls from any number
    of sources it tracks at most the configured number of them, whatever the
    iteration order of the map. *)
Theorem per_source_table_bounded pps b n cs :
  (tracked (snd (per_source_run (new_per_source pps b n) cs)) <= Nat.max n 1)%nat.
Proof. apply (per_source_run_size (new_per_source pps b n)); simpl; [|rewrite map_size_empty]; lia. Qed.

(** Isolation: as long as the sources that call fit the table, each of
    them is answered exactly as by a limiter of its own; what the others
    send does not matter. *)
Theorem sources_are_isolated pps b n cs a :
  (size (sources cs) <= n)%nat ->
  decisions_of a cs (fst (per_source_run (new_per_source pps b n) cs)) =
  match calls_of a cs with
  | [] => []
  | c :: _ => fst (run (new pps b (c_t1 c) (c_t2 c)) (map c_now (calls_of a cs)))
  end.
Proof.
  intros Hn. rewrite per_source_run_solo.
  - unfold solo. simpl. by destruct (calls_of a cs).
  - simpl. rewrite dom_empty_L, union_empty_l_L. lia.
Qed.

(** A new source that finds the table full takes the place of the one
    that has been silent longest; a source already tracked displaces
    nobody. *)
Theorem eviction_takes_longest_idle p src now t1 t2 other rl seen :
  src <> other -> buckets p !! other = Some (rl, seen) ->
  buckets (snd (per_source_check_at p src now t1 t2)) !! other = None ->
  buckets p !! src = None /\ (max_entries p <= size (buckets p))%nat /\
  forall a rl' seen', buckets p !! a = Some (rl', seen') -> seen <= seen'.
Proof.
  intros Hne Ho. unfold per_source_check_at. destruct (check_at _ now) as [d rl1]. simpl.
  rewrite lookup_insert_ne by done.
  case_bool_decide as Hsrc; simpl; [|by rewrite Ho].
  destruct (Nat.leb_spec (max_entries p) (size (buckets p))) as [Hfull|]; [|by rewrite Ho].
  assert (buckets p <> ∅) as Hnz by (intros He; by rewrite He, lookup_empty in Ho).
  destruct (evict_idle_Some _ Hnz) as (v & rlv & seenv & Hv & -> & Hmin).
  rewrite lookup_delete_None. intros [->|]; [|congruence]. simplify_eq. eauto.
Qed.
End per_source_facts.

(** Two sources in a table for two, and a third that evicts the older. *)
Definition demo_calls : list call :=
  [Call (V4 1) 0 0 0; Call (V4 2) 5 5 5; Call (V4 1) 6 6 6; Call (V4 2) 7 7 7].

Lemma sources_are_isolated_witness :
  decisions_of (V4 1) demo_calls
    (fst (per_source_run (HO := sorted_order _ _) (new_per_source f_one 0 2) demo_calls)) =
  fst (run (new f_one 0 0 0) [0; 6]).
Proof. apply (sources_are_isolated (HO := sorted_order _ _) f_one 0 2 demo_calls (V4 1)). by vm_compute. Defined.

Lemma eviction_takes_longest_idle_witness :
  let p := snd (per_source_run (HO := sorted_order _ _) (new_per_source f_one 0 2) demo_calls) in
  (max_entries p <= size (buckets p))%nat.
Proof.
  apply (eviction_takes_longest_idle (HO := sorted_order _ _)
    (snd (per_source_run (HO := sorted_order _ _) (new_per_source f_one 0 2) demo_calls))
    (V4 3) 9 9 9 (V4 1)
    (snd (run (new f_one 0 0 0) [0; 6])) 6); [done|vm_compute; reflexivity|vm_compute; reflexivity].
Defined.
