(* ===== verification/RateBounds.v ===== *)
(** * The packet rate of a limiter ([rate_limit.rs])

    [RateLimit] compares the float token bucket with an integer one where the
    arithmetic is exact.  Here the rate is any finite [f64] and the calls come at
    any instant: rounding may let a few packets more through than the rate says,
    but only a fraction of them, and may hold a packet back only for a moment
    longer. *)

From Stdlib Require Import QArith Lqa.
From S2P Require Import Prelude F64 F64Bounds F64Error RateLimit.

(** A packet rate that an operator can set: a positive number. *)
Definition is_rate (pps : f64) : Prop :=
  valid_binary 53 1024 pps = true /\ is_finite pps = true /\ fgtb pps f_zero = true.

#[global] Instance is_rate_dec pps : Decision (is_rate pps) := _.

Lemma rate_nonneg pps : is_rate pps -> nonneg pps /\ (0 < value pps)%Q.
Proof.
  intros (Hv & Hf & Hg). pose proof (valid_nonneg pps Hv Hf Hg) as Hn. split; [done|].
  by apply (fltb_value f_zero pps nonneg_zero Hn) in Hg.
Qed.

Lemma new_rate pps b t1 t2 :
  is_rate pps -> new pps b t1 t2 = mkLimiter pps (fmul pps f_two) (fmul pps f_two) t1 b 0 t2.
Proof.
  intros (_ & Hf & Hg). unfold new.
  assert (fmax pps f_zero = pps) as ->; [|by rewrite Hg].
  unfold fmax. destruct pps as [[]|[]| |[]]; try done.
Qed.

Lemma value_one : nonneg f_one /\ (value f_one == 1)%Q.
Proof. split; [by apply of_Z_near|]. vm_compute. reflexivity. Qed.

(** ** Rates below one half *)

(** [s] is at most [b], which is below [y]. *)
Lemma fmin_ltb s b y : fltb b y = true -> fltb (fmin s b) y = true.
Proof.
  intros Hb. unfold fmin. destruct (is_nan s) eqn:Ns; [done|].
  destruct (is_nan b) eqn:Nb; [by destruct b|]. destruct (fltb b s) eqn:Hs; [done|].
  unfold fltb, SFltb in *. destruct b as [[]|[]| |[] mb eb], s as [[]|[]| |[] ms es], y as [[]|[]| |[] my ey];
    simpl in *; try done;
    destruct (Z.compare_spec eb es), (Z.compare_spec eb ey), (Z.compare_spec es ey); try done; try lia;
    repeat change (Pos.compare_cont Eq ?a ?b) with (Pos.compare a b) in *;
    repeat match goal with H : context [Pos.compare ?a ?b] |- _ => destruct (Pos.compare_spec a b); try done
                         | |- context [Pos.compare ?a ?b] => destruct (Pos.compare_spec a b); try done end;
    simpl in *; try done; try lia.
Qed.

(** A bucket that holds less than one packet lets none through. *)
Lemma small_bucket_closed rl now :
  fgtb (max_pps rl) f_zero = true -> fltb (burst rl) f_one = true -> bucket_check rl now = None.
Proof.
  intros Hp Hb. unfold bucket_check. rewrite Hp. cbv zeta. by rewrite fmin_ltb.
Qed.

Lemma small_bucket_run rl times :
  fgtb (max_pps rl) f_zero = true -> fltb (burst rl) f_one = true -> admitted (run rl times).1 = 0.
Proof.
  intros Hp Hb. revert times. induction times as [|now times IH]; [done|]. simpl.
  assert (exists r, check_at rl now = (Throttled r, rl)) as [r Hc].
  { unfold check_at. rewrite small_bucket_closed by done. destruct (quota_check rl now) as [[]|]; eauto. }
  rewrite Hc. destruct (run rl times) as [ds rl']. simpl in *. by rewrite admitted_cons, decide_False.
Qed.

Lemma slow_burst pps : is_rate pps -> (value pps < 1 # 2)%Q -> fltb (fmul pps f_two) f_one = true.
Proof.
  intros Hr Hv. destruct (rate_nonneg pps Hr) as [Hn _]. destruct value_one as [H1 V1].
  assert (1 < pow2 1000)%Q by (by vm_compute).
  destruct (fmul_two pps Hn) as [Hb Vb]; [lra|]. apply fltb_value; [done..|]. lra.
Qed.

Lemma slow_run pps b t1 t2 times :
  is_rate pps -> (value pps < 1 # 2)%Q -> admitted (run (new pps b t1 t2) times).1 = 0.
Proof.
  intros Hr Hv. rewrite new_rate by done.
  apply small_bucket_run; simpl; [by destruct Hr as (_ & _ & ?)|by apply slow_burst].
Qed.

(** ** One call *)

(** A limiter at work: a full bucket holds two seconds' worth of packets. *)
Record paced (pps : f64) (rl : RateLimiter) : Prop := {
  pa_pps : max_pps rl = pps;
  pa_burst : nonneg (burst rl) /\ (value (burst rl) == 2 * value pps)%Q;
  pa_tokens : nonneg (tokens rl) /\ (value (tokens rl) <= 2 * value pps)%Q;
}.

Section pace.
Context (pps : f64) (Hrate : is_rate pps).
Context (Hlo : (1 # 2 <= value pps)%Q) (Hhi : (value pps < pow2 50)%Q).

Lemma paced_new b t1 t2 : paced pps (new pps b t1 t2).
Proof using Hrate Hlo Hhi.
  destruct (rate_nonneg pps Hrate) as [Hn _]. rewrite new_rate by done.
  assert (pow2 50 <= pow2 1000)%Q by by apply pow2_le.
  destruct (fmul_two pps Hn) as [Hb Vb]; [lra|]. by split; simpl; [|split; [|lra]..].
Qed.

(** The product of the elapsed time and the rate. *)
Lemma refill_near d :
  0 <= d <= u64_max ->
  nonneg (fmul (as_secs_f64 d) pps) /\
  (secs d * value pps * (1 - 7 * eps) <= value (fmul (as_secs_f64 d) pps) <= secs d * value pps * (1 + 7 * eps))%Q.
Proof using Hrate Hlo Hhi.
  intros Hd. destruct (rate_nonneg pps Hrate) as [Hn _].
  destruct (decide (d = 0)) as [->|Hne].
  { change (as_secs_f64 0) with f_zero. destruct Hn as [|m e Hc]; [done|].
    change (fmul f_zero (S754_finite false m e)) with f_zero. split; [constructor|]. change (secs 0) with (0 # 1000000000).
    simpl. lra. }
  destruct (as_secs_near d Hd) as [Ha Va].
  assert (1 # 1000000000 <= secs d <= inject_Z u64_max)%Q as Hs
    by (unfold secs, Qle, inject_Z; simpl; lia).
  assert (pow2 (-400) <= 1 # 2000000000)%Q by (by vm_compute).
  assert (2 * inject_Z u64_max < pow2 400)%Q by (by vm_compute).
  assert (pow2 50 < pow2 400)%Q by (by vm_compute). unfold eps in Va.
  destruct (fmul_near _ _ Ha Hn) as [Hm Vm]; [lra..|]. split; [done|].
  unfold near, eps in *. set (v := value (fmul _ _)) in *. set (a := value (as_secs_f64 d)) in *.
  set (s := secs d) in *. set (r := value pps) in *.
  assert (s * r * (1 - 5 * (1 # 4503599627370496)) <= a * r)%Q by nra.
  assert (a * r <= s * r * (1 + 5 * (1 # 4503599627370496)))%Q by nra.
  assert (0 <= s * r)%Q by nra. lra.
Qed.

(** The tokens after a refill. *)
Definition refilled (rl : RateLimiter) (d : Z) : f64 :=
  fmin (fadd (tokens rl) (fmul (as_secs_f64 d) (max_pps rl))) (burst rl).

Lemma refilled_near rl d :
  paced pps rl -> 0 <= d <= u64_max ->
  let t := value (refilled rl d) in
  let x := (value (tokens rl) + secs d * value pps * (1 - 7 * eps))%Q in
  let y := (value (tokens rl) + secs d * value pps * (1 + 7 * eps))%Q in
  nonneg (refilled rl d) /\ (t <= 2 * value pps)%Q /\ (t <= y + 2 * value pps * eps)%Q /\
  ((2 * value pps <= t)%Q \/ (x * (1 - eps) <= t)%Q).
Proof using Hrate Hlo Hhi.
  intros [Hp [Hb Vb] [Ht Vt]] Hd t x y. destruct (refill_near d Hd) as [Hm Vm].
  pose proof (value_nonneg _ Ht) as Vt0. pose proof (value_nonneg _ Hm) as Vm0.
  assert (2 * pow2 50 + 2 * (inject_Z u64_max * pow2 50) < pow2 1000)%Q as Hbig by (by vm_compute).
  assert (0 <= secs d <= inject_Z u64_max)%Q as Hs by (unfold secs, Qle, inject_Z; simpl; lia).
  assert (0 <= secs d * value pps <= inject_Z u64_max * pow2 50)%Q as Hsr.
  { split; [nra|]. apply Qmult_le_compat_nonneg; lra. }
  subst t x y. unfold refilled. rewrite Hp. unfold eps in Vm.
  destruct (fadd_near _ _ Ht Hm) as [Ha Va]; [lra|].
  destruct (fmin_value _ _ Ha Hb) as (Hmin & Hle1 & Hle2 & Hor).
  split; [done|]. unfold near, eps in *. rewrite Vb in *.
  split; [lra|]. split; [destruct (Qlt_le_dec (2 * value pps)
    (value (tokens rl) + value (fmul (as_secs_f64 d) pps))); lra|].
  destruct Hor as [Hv|Hv]; [right|left]; lra.
Qed.

(** What a call does to the tokens when it is admitted, and when it is not. *)
Lemma check_at_pace rl now :
  paced pps rl -> 0 <= now - last_refill rl <= u64_max ->
  let '(d, rl') := check_at rl now in
  if decide (d = Allow) then
    paced pps rl' /\ last_refill rl' = now /\ (1 + value (tokens rl') <= 2 * value pps * (1 + eps))%Q /\
    (1 + value (tokens rl') <=
     value (tokens rl) + secs (now - last_refill rl) * value pps * (1 + 7 * eps) + 4 * value pps * eps)%Q
  else rl' = rl.
Proof using Hrate Hlo Hhi.
  intros Hpa Hd. destruct value_one as [N1 V1]. destruct Hrate as (_ & _ & Hg).
  destruct (refilled_near rl (now - last_refill rl) Hpa Hd) as (Hn & Hle & Hup & _). destruct Hpa as [Hp Hb Ht].
  unfold check_at. destruct (quota_check rl now) as [[used ws]|]; [|done].
  unfold bucket_check, duration_since. rewrite Z.max_r by lia. fold (refilled rl (now - last_refill rl)).
  rewrite Hp, Hg. cbv zeta. destruct (fltb _ f_one) eqn:E; [done|]. apply fltb_false in E; [|done..].
  assert (2 * pow2 50 < pow2 1000)%Q by (by vm_compute).
  destruct (fsub_near _ _ Hn N1) as [Hs Vs]; [lra..|]. unfold near in Vs. rewrite V1 in *.
  assert (pow2 50 == 1125899906842624)%Q as P50 by (by vm_compute).
  destruct (0 <? _); simpl; (split; [split; simpl; [done|done|split; [done|unfold eps in *; lra]]|
    split; [done|split; unfold eps in *; lra]]).
Qed.

(** ** Sequences of calls *)
Lemma run_pace rl times last :
  paced pps rl -> Bucket.monotonic (last_refill rl) times -> Forall (fun now => now <= last) times ->
  last_refill rl <= last <= last_refill rl + u64_max ->
  (inject_Z (admitted (run rl times).1) * (1 - 4 * value pps * eps) <=
   value (tokens rl) + secs (last - last_refill rl) * value pps * (1 + 7 * eps))%Q.
Proof using Hrate Hlo Hhi.
  revert rl. induction times as [|now times IH]; intros rl Hpa Hm Hall Hl; simpl.
  { pose proof (value_nonneg _ (proj1 (pa_tokens _ _ Hpa))). change (inject_Z (admitted [])) with 0%Q.
    assert (0 <= secs (last - last_refill rl))%Q by (unfold secs, Qle; simpl; lia). unfold eps. nra. }
  destruct Hm as [Hnow Hm]. apply Forall_cons in Hall as [Hle Hall].
  pose proof (check_at_pace rl now Hpa ltac:(lia)) as Hst. destruct (check_at rl now) as [d rl1].
  destruct (decide (d = Allow)) as [->|Hd].
  - destruct Hst as (Hpa1 & Hl1 & _ & Hstep). specialize (IH rl1 Hpa1). rewrite Hl1 in IH.
    specialize (IH Hm Hall ltac:(lia)). destruct (run rl1 times) as [ds rl2]. simpl in *.
    rewrite admitted_cons, decide_True, inject_Z_plus by done. change (inject_Z 1) with 1%Q.
    replace (last - last_refill rl) with ((last - now) + (now - last_refill rl)) by lia. rewrite secs_add. lra.
  - subst rl1. assert (Bucket.monotonic (last_refill rl) times) as Hm'.
    { destruct times; simpl in *; [done|]. split; [lia|]. by destruct Hm. }
    specialize (IH rl Hpa Hm' Hall Hl). destruct (run rl times) as [ds rl2]. simpl in *.
    by rewrite admitted_cons, decide_False, Z.add_0_l.
Qed.

(** The same for calls from [s] on, however long the bucket was filled before:
    it never holds more than the burst. *)
Lemma run_pace_window rl times s last :
  paced pps rl -> last_refill rl <= s -> Bucket.monotonic s times -> Forall (fun now => now <= last) times ->
  s <= last <= last_refill rl + u64_max ->
  (inject_Z (admitted (run rl times).1) * (1 - 4 * value pps * eps) <=
   value pps * (2 + secs (last - s) * (1 + 7 * eps)))%Q.
Proof using Hrate Hlo Hhi.
  intros Hpa Hs Hm Hall Hl. assert (0 <= secs (last - s))%Q as Hsec by (unfold secs, Qle; simpl; lia).
  revert s Hs Hm Hl Hsec. induction times as [|now times IH]; intros s Hs Hm Hl Hsec; simpl.
  { change (inject_Z (admitted [])) with 0%Q. unfold eps. nra. }
  destruct Hm as [Hnow Hm]. apply Forall_cons in Hall as [Hle Hall].
  pose proof (check_at_pace rl now Hpa ltac:(lia)) as Hst. destruct (check_at rl now) as [d rl1].
  destruct (decide (d = Allow)) as [->|Hd].
  - destruct Hst as (Hpa1 & Hl1 & Htok & _).
    pose proof (run_pace rl1 times last Hpa1) as Hp. rewrite Hl1 in Hp.
    specialize (Hp Hm Hall ltac:(lia)). destruct (run rl1 times) as [ds rl2]. simpl in *.
    rewrite admitted_cons, decide_True, inject_Z_plus by done. change (inject_Z 1) with 1%Q.
    pose proof (secs_le (last - now) (last - s) ltac:(lia)). unfold eps in *. nra.
  - subst rl1. assert (Bucket.monotonic s times) as Hm'.
    { destruct times; simpl in *; [done|]. split; [lia|]. by destruct Hm. }
    specialize (IH Hall s Hs Hm' Hl Hsec). destruct (run rl times) as [ds rl2]. simpl in *.
    by rewrite admitted_cons, decide_False, Z.add_0_l.
Qed.

(** The last refill was at the start or at one of the calls. *)
Lemma run_paced rl times last :
  paced pps rl -> last_refill rl <= last -> Bucket.monotonic (last_refill rl) times ->
  Forall (fun now => now <= last) times -> last <= last_refill rl + u64_max ->
  let rl' := (run rl times).2 in
  paced pps rl' /\ last_refill rl <= last_refill rl' <= last /\ max_bytes_per_day rl' = max_bytes_per_day rl.
Proof using Hrate Hlo Hhi.
  revert rl. induction times as [|now times IH]; intros rl Hpa Hl Hm Hall HT; simpl; [by split_and!|].
  destruct Hm as [Hnow Hm]. apply Forall_cons in Hall as [Hle Hall].
  pose proof (check_at_pace rl now Hpa ltac:(lia)) as Hst. pose proof (check_at_config rl now) as (_ & _ & Hb).
  destruct (check_at rl now) as [d rl1]. simpl in Hb. destruct (decide (d = Allow)) as [->|Hd].
  - destruct Hst as (Hpa1 & Hl1 & _). specialize (IH rl1 Hpa1). rewrite Hl1, Hb in IH.
    specialize (IH Hle Hm Hall ltac:(lia)). destruct (run rl1 times) as [ds rl2]. simpl in *.
    destruct IH as (? & ? & ?). split_and!; [done|lia..].
  - subst rl1. assert (Bucket.monotonic (last_refill rl) times) as Hm'.
    { destruct times; simpl in *; [done|]. split; [lia|]. by destruct Hm. }
    specialize (IH rl Hpa Hl Hm' Hall HT). by destruct (run rl times).
Qed.

(** A pause of a little more than one packet's time refills a token. *)
Lemma pause_refills rl now :
  paced pps rl -> 0 <= now - last_refill rl <= u64_max ->
  (1 + 10 * eps <= secs (now - last_refill rl) * value pps)%Q -> (check_at rl now).1 <> Throttled Rate.
Proof using Hrate Hlo Hhi.
  intros Hpa Hd Hpause. destruct value_one as [N1 V1]. destruct Hrate as (_ & _ & Hg).
  destruct (refilled_near rl (now - last_refill rl) Hpa Hd) as (Hn & _ & _ & Hlow). destruct Hpa as [Hp Hb [Ht Vt]].
  pose proof (value_nonneg _ Ht). unfold check_at. destruct (quota_check rl now) as [[used ws]|]; [|done].
  unfold bucket_check, duration_since. rewrite Z.max_r by lia. fold (refilled rl (now - last_refill rl)).
  rewrite Hp, Hg. cbv zeta. assert (fltb (refilled rl (now - last_refill rl)) f_one = false) as ->; [|done].
  apply fltb_false; [done..|]. rewrite V1. unfold eps in *. destruct Hlow as [Hlow|Hlow]; lra.
Qed.
End pace.

(** ** Theorems *)

Lemma monotonic_split t before s times :
  Bucket.monotonic t (before ++ s :: times) ->
  Bucket.monotonic t before /\ Forall (fun now => now <= s) before /\ t <= s /\ Bucket.monotonic s times.
Proof.
  revert t. induction before as [|t' before IH]; intros t; simpl.
  { intros [? ?]. by split_and!. }
  intros [Ht Hm]. destruct (IH _ Hm) as (? & Hall & ? & ?). split_and!; [done..| |lia|done]. by constructor.
Qed.

(** A moment between two stretches of calls. *)
Lemma monotonic_insert t l1 s l2 :
  Bucket.monotonic t (l1 ++ l2) -> t <= s -> Forall (fun x => x <= s) l1 -> Forall (fun x => s <= x) l2 ->
  Bucket.monotonic t (l1 ++ s :: l2).
Proof.
  revert t. induction l1 as [|x l1 IH]; intros t; simpl.
  { intros Hm Ht _ Hs. split; [done|]. destruct l2; simpl in *; [done|]. apply Forall_cons in Hs as [? _].
    split; [done|]. by destruct Hm. }
  intros [? Hm] Ht [? H1]%Forall_cons H2. split; [done|]. by apply IH.
Qed.

(** Calls from [s] on, after others. *)
Lemma admitted_window pps b t1 t2 before s T times :
  is_rate pps -> 0 <= T -> s + T <= t1 + u64_max ->
  Bucket.monotonic t1 (before ++ s :: times) -> Forall (fun now => now <= s + T) times ->
  (inject_Z (admitted (run (run (new pps b t1 t2) before).2 times).1) * (1 - 4 * value pps * eps) <=
   value pps * (2 + secs T * (1 + 7 * eps)))%Q.
Proof.
  intros Hr HT Hend (Hm1 & Hb1 & Hts & Hm2)%monotonic_split Hall. destruct (rate_nonneg pps Hr) as [_ Hv].
  set (k := admitted _). assert (0 <= inject_Z k)%Q by (apply (inject_Z_le 0); unfold k, admitted; lia).
  assert (0 <= secs T)%Q by (unfold secs, Qle; simpl; lia). assert (0 <= secs T * value pps)%Q by nra.
  destruct (Qlt_le_dec (value pps) (1 # 2)) as [Hslow|Hlo].
  { pose proof (slow_run pps b t1 t2 (before ++ times) Hr Hslow) as Hz. rewrite limiter_run_app in Hz.
    assert (k = 0) as -> by (unfold k; destruct (run _ before) as [ds1 rl1]; simpl; destruct (run rl1 times) as [ds2 rl2];
      simpl in *; rewrite admitted_app in Hz; unfold admitted in *; lia).
    unfold eps. change (inject_Z 0) with 0%Q. lra. }
  destruct (Qlt_le_dec (value pps) (pow2 50)) as [Hhi|Hbig].
  - destruct (run_paced pps Hr Hlo Hhi (new pps b t1 t2) before s (paced_new pps Hr Hlo Hhi b t1 t2))
      as (Hpa & Hl & _); [done..|simpl; lia|]. simpl in Hl.
    pose proof (run_pace_window pps Hr Hlo Hhi _ times s (s + T) Hpa ltac:(lia) Hm2 Hall ltac:(lia)) as Hp.
    by replace (s + T - s) with T in Hp by lia.
  - assert (pow2 50 == 1125899906842624)%Q as P50 by (by vm_compute). unfold eps in *. nra.
Qed.

(** C23. Rate bound.  For every finite rate an [f64] can hold, every byte budget
    and every sequence of calls at the instants of a monotonic clock: within any
    [T] nanoseconds, after whatever calls before them, a limiter admits at most its
    burst of two seconds' packets and the packets of [T]; what rounding adds is
    bounded by the fraction [7 * eps] of the refill and [4 * rate * eps] per
    packet, where [eps] is 2^-52.  (The clock stays within 584 years of the
    limiter's creation.) *)
Theorem packet_rate_bounded pps b t1 t2 before s T times :
  is_rate pps -> 0 <= T -> s + T <= t1 + u64_max ->
  Bucket.monotonic t1 (before ++ s :: times) -> Forall (fun now => now <= s + T) times ->
  (inject_Z (admitted (run (run (new pps b t1 t2) before).2 times).1) * (1 - 4 * value pps * eps) <=
   value pps * (2 + secs T * (1 + 7 * eps)))%Q.
Proof. apply admitted_window. Qed.

(** Two and a half packets per second, and a burst of calls. *)
Definition demo_rate : f64 := as_secs_f64 2500000000.
Definition demo_times : list Z := [5; 6; 7; 8; 9; 10; 400000005; 400000006].

Lemma packet_rate_bounded_witness :
  (inject_Z (admitted (run (run (new demo_rate 0 1 1) [2; 3]%Z).2 demo_times).1) *
     (1 - 4 * value demo_rate * eps) <=
   value demo_rate * (2 + secs 500000000 * (1 + 7 * eps)))%Q.
Proof.
  apply (packet_rate_bounded demo_rate 0 1 1 [2; 3] 5 500000000 demo_times).
  - by vm_compute.
  - by vm_compute.
  - by vm_compute.
  - simpl. lia.
  - repeat constructor; lia.
Defined.

(** C24. Recovery.  A limiter of at least half a packet and fewer than 2^50 packets
    per second does not throttle for its rate once the source has paused for the
    time of one packet and the fraction [10 * eps] of it, whatever was sent before,
    during the 584 years a 64-bit count of nanoseconds can tell; without a byte
    budget the packet is admitted. *)
Theorem limiter_recovers pps b t1 t2 times last now :
  is_rate pps -> (1 # 2 <= value pps)%Q -> (value pps < pow2 50)%Q ->
  t1 <= last -> Bucket.monotonic t1 times -> Forall (fun t => t <= last) times -> now <= t1 + u64_max ->
  (1 + 10 * eps <= secs (now - last) * value pps)%Q ->
  let d := (check_at (run (new pps b t1 t2) times).2 now).1 in
  d <> Throttled Rate /\ (b = 0 -> d = Allow).
Proof.
  intros Hr Hlo Hhi Hl Hm Hall HT Hpause d.
  assert (last <= now) as Hnow.
  { destruct (Z.le_gt_cases last now) as [|Hgt]; [done|].
    assert (secs (now - last) <= 0)%Q by (unfold secs, Qle; simpl; lia). unfold eps in *. nra. }
  destruct (run_paced pps Hr Hlo Hhi (new pps b t1 t2) times last (paced_new pps Hr Hlo Hhi b t1 t2))
    as (Hpa & Hlast & Hb); [done|done|done|simpl; lia|]. simpl in Hlast, Hb.
  assert (d <> Throttled Rate) as Hd.
  { apply (pause_refills pps Hr Hlo Hhi); [done|lia|].
    pose proof (secs_le (now - last) (now - last_refill (run (new pps b t1 t2) times).2) ltac:(lia)). nra. }
  split; [done|]. intros ->. subst d. unfold check_at, quota_check in *. rewrite Hb in *. simpl in *.
  by destruct (bucket_check _ now).
Qed.

Lemma limiter_recovers_witness :
  let d := (check_at (run (new f_one 0 0 0) [0; 0; 0; 5]).2 1000000006).1 in
  d <> Throttled Rate /\ (0 = 0 -> d = Allow).
Proof.
  apply (limiter_recovers f_one 0 0 0 [0; 0; 0; 5] 5 1000000006); try (by vm_compute).
  repeat constructor; lia.
Defined.

(** A positive rate below half a packet per second makes a bucket that never
    holds one packet: nothing is ever admitted. *)
Theorem slow_rate_admits_nothing pps b t1 t2 times :
  is_rate pps -> (value pps < 1 # 2)%Q -> admitted (run (new pps b t1 t2) times).1 = 0.
Proof. apply slow_run. Qed.

Lemma slow_rate_admits_nothing_witness :
  admitted (run (new (as_secs_f64 400000000) 0 0 0) [0; from_secs 10; from_secs 100]).1 = 0.
Proof. apply slow_rate_admits_nothing; by vm_compute. Defined.
