(* ===== verification/Rand.v ===== *)
(** * Randomness

    The interface of the [rand] crate the relay is written against: a
    generator [R] yields bytes and floats.  The laws are the documented ones;
    nothing is assumed about the distribution. *)

From S2P Require Import Prelude F64.

Class Rng (R : Type) := {
  gen_f64 : R -> f64 * R;
  fill_bytes : nat -> R -> list byte * R;
}.

(** [gen::<f64>()] is in [0, 1); [fill_bytes] fills the whole buffer. *)
Class RngLaws (R : Type) `{!Rng R} : Prop := {
  gen_f64_range : forall r, let u := fst (gen_f64 r) in
    fltb u f_zero = false /\ fltb u f_one = true;
  fill_bytes_length : forall n r, length (fst (fill_bytes n r)) = n;
}.

(** A counter in place of a generator, for the concrete runs. *)
Definition counter_rng : Rng Z := {|
  gen_f64 := fun r => (fdiv (of_Z (r mod 7)) (of_Z 7), r + 1);
  fill_bytes := fun n r => (repeat (byte_of_Z r) n, r + 1);
|}.

Lemma counter_rng_laws : @RngLaws Z counter_rng.
Proof.
  split; [|intros n r; apply repeat_length].
  intros r u. unfold u. simpl. pose proof (Z.mod_pos_bound r 7 ltac:(lia)) as Hr.
  assert (r mod 7 = 0 \/ r mod 7 = 1 \/ r mod 7 = 2 \/ r mod 7 = 3 \/ r mod 7 = 4 \/
          r mod 7 = 5 \/ r mod 7 = 6) as Hc by lia.
  destruct Hc as [->|[->|[->|[->|[->|[->| ->]]]]]]; vm_compute; done.
Qed.
