(* ===== verification/Delay.v ===== *)
(** * Per-hop delays ([delay.rs])

    [PoissonScheduler] draws exponentially distributed delays by inversion, in
    [f64].  The logarithm is the platform's: Rust leaves its precision open, so
    it is a parameter of which only the documented domain is used.  [None]
    models the panics of [f64::clamp] and [Duration::from_secs_f64]; the file
    proves that they cannot happen and that a delay stays below a hundred
    times the mean, up to rounding. *)

From Stdlib Require Import QArith Lqa.
From S2P Require Import Prelude F64 F64Bounds F64Error Rand.

(** [f64::ln]; it is a number (or an infinity) on every positive argument. *)
Class Libm := { ln : f64 -> f64 }.
Class LibmLaws `{!Libm} : Prop := {
  ln_positive : forall u, fgtb u f_zero = true -> is_nan (ln u) = false;
}.

Record PoissonScheduler : Type := mkScheduler {
  lambda : f64;
  mean_micros : Z;
}.

Definition new (mean_delay_micros : Z) : PoissonScheduler :=
  let lambda := if mean_delay_micros =? 0 then f_zero
                else fdiv (of_Z 1000000) (of_Z mean_delay_micros) in
  mkScheduler lambda mean_delay_micros.

Definition mean_delay_micros (s : PoissonScheduler) : Z := mean_micros s.

(** [100.0 * mean as f64 / 1_000_000.0] *)
Definition max_secs (s : PoissonScheduler) : f64 :=
  fdiv (fmul (of_Z 100) (of_Z (mean_micros s))) (of_Z 1000000).

Section scheduler.
Context {R : Type} `{!Rng R, !Libm}.

Definition next_delay (s : PoissonScheduler) (rng : R) : option Z * R :=
  if feqb (lambda s) f_zero then (Some 0, rng) else
  let '(u, rng) := gen_f64 rng in
  let u := if feqb u f_zero then MIN_POSITIVE else u in
  let secs := fdiv (fneg (ln u)) (lambda s) in
  (fclamp secs f_zero (max_secs s) ≫= from_secs_f64, rng).
End scheduler.

(** ** The constants of a scheduler *)
Definition is_mean (mean : Z) : Prop := 0 < mean <= u64_max.

Lemma mean_digits mean : is_mean mean -> 1 <= digits mean <= 64.
Proof.
  unfold is_mean, u64_max. intros Hm. split; [apply digits_pos; lia|]. apply digits_lt_pow2. lia.
Qed.

Lemma lambda_normal mean : is_mean mean -> exists a b, normal_mag (lambda (new mean)) a b.
Proof.
  intros Hm. pose proof (mean_digits mean Hm). unfold new. cbn [lambda].
  rewrite (proj2 (Z.eqb_neq _ _)) by (unfold is_mean in Hm; lia).
  eexists _, _. apply fdiv_normal.
  - apply of_Z_normal. unfold u64_max. lia.
  - by apply of_Z_normal.
  - change (digits 1000000) with 20. lia.
  - change (digits 1000000) with 20. lia.
Qed.

Lemma max_secs_normal mean :
  is_mean mean -> exists a b, normal_mag (max_secs (new mean)) a b /\ b <= 60.
Proof.
  intros Hm. pose proof (mean_digits mean Hm). unfold max_secs. simpl mean_micros.
  assert (0 < 100 <= u64_max /\ 0 < 1000000 <= u64_max) as [H1 H2] by done.
  apply of_Z_normal in H1, H2.
  change (digits 100) with 7 in H1. change (digits 1000000) with 20 in H2.
  pose proof (fmul_normal _ _ _ _ _ _ H1 (of_Z_normal mean Hm) ltac:(lia) ltac:(lia)) as H3.
  pose proof (fdiv_normal _ _ _ _ _ _ H3 H2 ltac:(lia) ltac:(lia)) as H4.
  eexists _, _. split; [exact H4|]. lia.
Qed.

(** For a mean of a whole number of centiseconds the cap is exact. *)
Lemma max_secs_whole k :
  0 < k -> k * 1000000 < 2 ^ 53 -> max_secs (new (k * 10000)) = fz k.
Proof.
  intros Hk Hb. unfold max_secs. simpl mean_micros.
  rewrite !of_Z_exact by (unfold exact; lia). rewrite fmul_fz by (unfold exact; lia).
  replace (100 * (k * 10000)) with (k * 1000000) by lia. apply fdiv_fz; lia.
Qed.

(** A hundred times the mean, in nanoseconds, and what rounding may add. *)
Definition delay_cap (mean : Z) : Z := 100 * from_micros mean + mean / 2 ^ 32 + 1.

Lemma max_secs_value mean :
  is_mean mean -> nonneg (max_secs (new mean)) /\
  (inject_Z mean * (1 # 10000) * (1 - 4 * eps) <= value (max_secs (new mean)) <=
     inject_Z mean * (1 # 10000) * (1 + 4 * eps))%Q.
Proof.
  intros Hm. unfold is_mean in Hm. unfold max_secs. simpl mean_micros.
  destruct (of_Z_near mean) as [Nm Vm]; [lia|].
  destruct (of_Z_near 100) as [N1 _]; [done|]. destruct (of_Z_near 1000000) as [N2 _]; [done|].
  assert (value (of_Z 100) == 100)%Q as V1 by (by vm_compute).
  assert (value (of_Z 1000000) == 1000000)%Q as V2 by (by vm_compute).
  assert (1 <= inject_Z mean <= inject_Z u64_max)%Q as Bm by (split; [apply (inject_Z_le 1)|apply inject_Z_le]; lia).
  assert (pow2 (-400) <= 1 # 2)%Q by (by vm_compute).
  assert (1000 * inject_Z u64_max < pow2 400)%Q by (by vm_compute). assert (1000000 < pow2 400)%Q by (by vm_compute).
  unfold near, eps in Vm.
  destruct (fmul_near _ _ N1 Nm) as [N3 V3]; [lra..|]. unfold near, eps in V3. rewrite V1 in V3.
  destruct (fdiv_near _ _ N3 N2) as [N4 V4]; [lra..|]. unfold near, eps in V4. rewrite V2 in V4.
  split; [done|]. unfold eps. lra.
Qed.

Lemma max_secs_cap mean cap :
  is_mean mean -> from_secs_f64 (max_secs (new mean)) = Some cap -> cap <= delay_cap mean.
Proof.
  intros Hm Hcap. destruct (max_secs_value mean Hm) as [Hn Hv]. unfold delay_cap, from_micros.
  destruct Hn as [|m e _]; simpl in Hcap.
  { simplify_eq. unfold is_mean in Hm. pose proof (Z.div_pos mean (2 ^ 32)). lia. }
  change (if 0 <=? e then _ else _) with (nanos m e) in Hcap. case_match; [|done]. simplify_eq.
  pose proof (nanos_value m e) as Hz. simpl value in Hv.
  assert (2 ^ 32 * nanos m e <= 2 ^ 32 * 100000 * mean + mean + 2 ^ 31) as Hle.
  { rewrite Zle_Qle, !inject_Z_plus, !inject_Z_mult. change (inject_Z (2 ^ 32)) with 4294967296%Q.
    change (inject_Z (2 ^ 31)) with 2147483648%Q. change (inject_Z 100000) with 100000%Q.
    assert (0 <= inject_Z mean)%Q by (apply (inject_Z_le 0); unfold is_mean in Hm; lia). unfold eps in Hv. lra. }
  pose proof (Z.div_mod mean (2 ^ 32) ltac:(done)). pose proof (Z.mod_pos_bound mean (2 ^ 32) ltac:(done)). lia.
Qed.

(** ** Clamping *)
Lemma fclamp_normal x hi a b :
  rounded x -> normal_mag hi a b -> b <= 60 ->
  exists d cap, (fclamp x f_zero hi ≫= from_secs_f64) = Some d /\ from_secs_f64 hi = Some cap /\
    0 <= d <= cap.
Proof.
  intros [Hx Hdig] Hhi Hb.
  destruct (from_secs_f64_normal hi a b Hhi Hb) as (mh & eh & -> & Hd & Hcap).
  pose proof (nanos_nonneg mh eh) as Hnn. rewrite Hcap.
  destruct x as [s|s| |s m e]; try done.
  - exists 0, (nanos mh eh). by destruct s.
  - destruct s; eexists _, (nanos mh eh); (split; [first [exact Hcap|done]|done]).
  - destruct s; [by exists 0, (nanos mh eh)|].
    change (fclamp (S754_finite false m e) f_zero (S754_finite false mh eh))
      with (Some (if fltb (S754_finite false mh eh) (S754_finite false m e)
                  then S754_finite false mh eh else S754_finite false m e)).
    destruct (fltb (S754_finite false mh eh) (S754_finite false m e)) eqn:Hcmp.
    { by exists (nanos mh eh), (nanos mh eh). }
    pose proof (nanos_le m e mh eh (Hdig _ _ _ eq_refl) Hd Hcmp) as Hle.
    exists (nanos m e), (nanos mh eh). pose proof (nanos_nonneg m e).
    unfold from_secs_f64 in Hcap |- *. simpl.
    change (if 0 <=? eh then _ else _) with (nanos mh eh) in Hcap.
    change (if 0 <=? e then _ else _) with (nanos m e).
    destruct (Z.leb_spec (nanos mh eh) (u64_max * NANOS_PER_SEC + 999999999)); [|done].
    by rewrite (proj2 (Z.leb_le _ _)) by lia.
Qed.

(** ** Theorems *)
Section scheduler_facts.
Context {R : Type} `{!Rng R, !Libm, !RngLaws R, !LibmLaws}.

(** What a draw does on every scheduler: it never panics, it is zero for a
    zero mean, and it is within the cap otherwise. *)
Lemma next_delay_total mean (rng : R) :
  is_u64 mean ->
  exists d rng', next_delay (new mean) rng = (Some d, rng') /\ 0 <= d /\
    (mean = 0 -> d = 0) /\
    (mean <> 0 -> exists cap, from_secs_f64 (max_secs (new mean)) = Some cap /\ d <= cap) /\ d <= delay_cap mean.
Proof.
  intros Hu. unfold is_u64 in Hu. destruct (decide (mean = 0)) as [->|Hne].
  { by exists 0, rng. }
  assert (is_mean mean) as Hm by (unfold is_mean; lia).
  destruct (lambda_normal mean Hm) as (a & b & Hl).
  destruct (max_secs_normal mean Hm) as (a' & b' & Hmax & Hb').
  unfold next_delay. assert (feqb (lambda (new mean)) f_zero = false) as ->.
  { by destruct Hl as (m & e & -> & _). }
  pose proof (gen_f64_range rng) as Hr. destruct (gen_f64 rng) as [u rng']. simpl in Hr.
  set (u' := if feqb u f_zero then MIN_POSITIVE else u).
  assert (fgtb u' f_zero = true) as Hpos.
  { unfold u'. destruct (feqb u f_zero) eqn:Eu; [done|]. destruct Hr as [Hlo Hhi].
    by destruct u as [s|[]| |[]]. }
  assert (is_nan (fneg (ln u')) = false) as Hnan.
  { pose proof (ln_positive u' Hpos). by destruct (ln u'). }
  destruct (fclamp_normal _ _ _ _ (fdiv_rounded _ _ _ _ Hnan Hl) Hmax Hb')
    as (d & cap & Hd & Hcap & Hle).
  pose proof (max_secs_cap mean cap Hm Hcap).
  exists d, rng'. split; [by rewrite Hd|]. split_and!; [lia|done| |lia]. intros _.
  exists cap. split; [done|lia].
Qed.

(** A draw never panics, for every generator, every logarithm with the
    documented domain and every mean a [u64] can hold; it is at most a hundred
    times the mean, up to rounding, and zero with a zero mean. *)
Theorem next_delay_never_panics mean (rng : R) :
  is_u64 mean ->
  exists d rng', next_delay (new mean) rng = (Some d, rng') /\ 0 <= d <= delay_cap mean /\ (mean = 0 -> d = 0).
Proof.
  intros Hu. destruct (next_delay_total mean rng Hu) as (d & rng' & ? & ? & ? & _ & ?). eauto 7.
Qed.

(** For a mean of a whole number of hundredths of a second, a delay is
    never longer than a hundred times the mean. *)
Theorem next_delay_capped k (rng : R) :
  0 < k -> k * 1000000 < 2 ^ 53 ->
  exists d rng', next_delay (new (k * 10000)) rng = (Some d, rng') /\
    0 <= d <= 100 * from_micros (k * 10000).
Proof.
  intros Hk Hb.
  destruct (next_delay_total (k * 10000) rng) as (d & rng' & Hn & Hd0 & _ & Hc & _).
  { unfold is_u64, u64_max. lia. }
  destruct (Hc ltac:(lia)) as (cap & Hcap & Hle).
  rewrite max_secs_whole, from_secs_f64_fz in Hcap by lia. simplify_eq.
  exists d, rng'. split; [done|]. unfold from_micros, from_secs, NANOS_PER_SEC in *. lia.
Qed.
End scheduler_facts.

(** A logarithm for the concrete runs: the integer part of the binary one. *)
Definition coarse_libm : Libm := {|
  ln := fun u => match u with
                 | S754_finite false m e => fneg (of_Z (Z.max 0 (- (e + digits (Z.pos m)))))
                 | S754_zero _ => S754_infinity true
                 | _ => u
                 end
|}.

Lemma of_Z_not_nan z : is_nan (of_Z z) = false.
Proof.
  destruct z as [|p|p]; [done| |]; unfold of_Z, binary_normalize, binary_round;
    destruct (shl_align _ _ _); apply round_aux_rounded; lia.
Qed.

Lemma coarse_libm_laws : @LibmLaws coarse_libm.
Proof.
  split. intros [s|[]| |[] m e] Hu; try done. unfold ln, coarse_libm.
  pose proof (of_Z_not_nan (Z.max 0 (- (e + digits (Z.pos m))))). by destruct (of_Z _).
Qed.

Lemma next_delay_never_panics_witness :
  exists d rng', @next_delay Z counter_rng coarse_libm (new 500000) 3 = (Some d, rng') /\
    0 <= d <= delay_cap 500000 /\ (500000 = 0 -> d = 0).
Proof.
  apply (@next_delay_never_panics Z counter_rng coarse_libm counter_rng_laws coarse_libm_laws).
  by vm_compute.
Defined.

Lemma next_delay_capped_witness :
  exists d rng', @next_delay Z counter_rng coarse_libm (new (50 * 10000)) 0 = (Some d, rng') /\
    0 <= d <= 100 * from_micros (50 * 10000).
Proof.
  apply (@next_delay_capped Z counter_rng coarse_libm counter_rng_laws coarse_libm_laws 50 0);
    by vm_compute.
Defined.

(** The cap is reached: a draw of zero under the coarse logarithm. *)
Example next_delay_at_cap :
  fst (@next_delay Z counter_rng coarse_libm (new 500000) 0) = Some (from_secs 50).
Proof. vm_compute. reflexivity. Qed.
