(* ===== verification/Logarithm.v ===== *)
(** * The logarithm of the delays

    [next_delay] calls [f64::ln], which belongs to the platform.  The file states
    what a natural logarithm of a given relative accuracy is, on the real numbers,
    and defines an executable one, by three terms of the series of the area
    tangent, with the proof of its accuracy: the concrete runs use it. *)

From Stdlib Require Import QArith Qpower Qminmax Reals Lra Lqa Qreals.
From S2P Require Import Prelude F64 F64Bounds F64Error Delay.

(** ** The law *)
Definition real (x : f64) : R := Q2R (value x).

(** [f64::ln] is the natural logarithm, up to a relative error of [delta]. *)
Class LnLaws `{!Libm} (delta : R) : Prop := {
  ln_delta : (0 <= delta <= 1 / 2)%R;
  ln_accurate : forall u, nonneg u -> (0 < real u < 1)%R ->
    nonneg (fneg (ln u)) /\
    (Rabs (real (ln u) - Rpower.ln (real u)) <= delta * - Rpower.ln (real u))%R;
}.

Lemma Q2R_inject_Z z : Q2R (inject_Z z) = IZR z.
Proof. unfold Q2R, inject_Z. simpl. field. Qed.

Lemma Q2R_min a b : Q2R (Qmin a b) = Rmin (Q2R a) (Q2R b).
Proof.
  destruct (Q.min_spec a b) as [[Hab Hm]|[Hab Hm]]; rewrite (Qeq_eqR _ _ Hm).
  - rewrite Rmin_left; [done|]. apply Qle_Rle. lra.
  - rewrite Rmin_right; [done|]. by apply Qle_Rle.
Qed.

Lemma real_fneg x : real (fneg x) = (- real x)%R.
Proof.
  unfold real. rewrite <- Q2R_opp. apply Qeq_eqR. destruct x as [|?| |[] m e]; simpl; ring.
Qed.

(** [ln x <= x - 1]. *)
Lemma ln_le_sub x : (0 < x)%R -> (Rpower.ln x <= x - 1)%R.
Proof.
  intros Hx. destruct (Req_dec (Rpower.ln x) 0) as [E|E].
  - assert (x = 1)%R as -> by (rewrite <- (exp_ln x Hx), E; apply exp_0). rewrite E. Lra.lra.
  - pose proof (exp_ineq1 _ E) as He. rewrite exp_ln in He by done. Lra.lra.
Qed.

Lemma ln_mono x y : (0 < x)%R -> (x <= y)%R -> (Rpower.ln x <= Rpower.ln y)%R.
Proof.
  intros Hx [Hlt| ->]; [|Lra.lra]. left. by apply ln_increasing.
Qed.

Lemma scaled_ge_pow2 m e : (pow2 e <= scaled (Z.pos m) e)%Q.
Proof.
  pose proof (scaled_le 1 (Z.pos m) e ltac:(lia)) as Hs. unfold scaled at 1 in Hs.
  change (inject_Z 1) with 1%Q in Hs. lra.
Qed.

(** A float below 1 is below it by at least half a unit in the last place. *)
Lemma below_one u : nonneg u -> (value u < 1)%Q -> (value u <= 1 - pow2 (-53))%Q.
Proof.
  intros [|m e Hc] Hlt; simpl in *; [by vm_compute|].
  destruct (canonical_digits _ _ Hc) as [Hd _]. destruct (decide (e <= -54)) as [He|He].
  - destruct (scaled_mag (Z.pos m) e ltac:(done)) as [_ Hmag].
    pose proof (pow2_le (digits (Z.pos m) + e) (-1) ltac:(lia)).
    assert (pow2 (-1) <= 1 - pow2 (-53))%Q by (by vm_compute). lra.
  - pose proof (pow2_le (-53) e ltac:(lia)).
    assert (e < 0).
    { apply Z.nle_gt. intros He0. pose proof (scaled_ge_pow2 m e).
      pose proof (pow2_le 0 e He0). change (pow2 0) with 1%Q in *. lra. }
    assert (pow2 (- e) * pow2 e == 1)%Q as Hinv by (rewrite <- pow2_add; by replace (- e + e) with 0 by lia).
    rewrite pow2_Z in Hinv by lia.
    assert (Z.pos m < 2 ^ (- e)) as Hm.
    { apply Z.nle_gt. intros Hle. apply (scaled_le _ _ e) in Hle. unfold scaled at 1 in Hle. lra. }
    assert (Z.pos m <= 2 ^ (- e) - 1) as Hle by lia. apply (scaled_le _ _ e) in Hle. rewrite scaled_sub in Hle.
    unfold scaled at 2 3 in Hle. change (inject_Z 1) with 1%Q in Hle. lra.
Qed.

Lemma nonneg_positive u : nonneg u -> (0 < value u)%Q -> (pow2 (-1074) <= value u)%Q.
Proof.
  intros [|m e Hc] Hpos; [done|]. simpl. destruct (canonical_digits _ _ Hc) as [_ He].
  pose proof (scaled_ge_pow2 m e). pose proof (pow2_le _ _ He). lra.
Qed.

Lemma real_pow2_neg e : e <= 0 -> Q2R (pow2 e) = (/ 2 ^ Z.to_nat (- e))%R.
Proof.
  intros He. assert (pow2 e == / inject_Z (2 ^ (- e)))%Q as E.
  { rewrite <- pow2_Z by lia. unfold pow2. rewrite <- Qpower_opp. by rewrite Z.opp_involutive. }
  assert (0 < 2 ^ (- e)) by (apply Z.pow_pos_nonneg; lia).
  rewrite (Qeq_eqR _ _ E), Q2R_inv, Q2R_inject_Z.
  - rewrite pow_IZR, Z2Nat.id by lia. done.
  - change 0%Q with (inject_Z 0). rewrite inject_Z_injective. lia.
Qed.

(** The size of the logarithm of a draw. *)
Lemma ln_size u :
  nonneg u -> (0 < real u < 1)%R -> (/ 2 ^ 53 <= - Rpower.ln (real u) <= 1074)%R.
Proof.
  intros Hn [H0 H1]. unfold real in *. assert (Q2R 0 = 0%R) as E0 by (unfold Q2R; simpl; Lra.lra).
  assert (Q2R 1 = 1%R) as E1 by (unfold Q2R; simpl; Lra.lra).
  assert (0 < value u)%Q as Hp by (apply Rlt_Qlt; by rewrite E0).
  assert (value u < 1)%Q as Hl by (apply Rlt_Qlt; by rewrite E1).
  pose proof (Qle_Rle _ _ (below_one u Hn Hl)) as Hb. rewrite Q2R_minus, E1, (real_pow2_neg (-53)) in Hb by done.
  pose proof (Qle_Rle _ _ (nonneg_positive u Hn Hp)) as Ht. rewrite (real_pow2_neg (-1074)) in Ht by done.
  change (Z.to_nat (- -53)) with 53%nat in Hb. set (k := Z.to_nat (- -1074)) in Ht.
  split.
  - pose proof (ln_le_sub _ H0). Lra.lra.
  - assert (0 < / 2 ^ k)%R as Hk by (apply Rinv_0_lt_compat, pow_lt; Lra.lra).
    pose proof (ln_mono _ _ Hk Ht) as Hln.
    rewrite ln_Rinv in Hln by (apply pow_lt; Lra.lra). rewrite ln_pow in Hln by Lra.lra.
    pose proof (ln_le_sub 2 ltac:(Lra.lra)).
    assert (INR k = 1074%R) as Ek by (unfold k; rewrite INR_IZR_INZ, Z2Nat.id by done; done).
    rewrite Ek in Hln. Lra.lra.
Qed.

Lemma real_eps : Q2R eps = (/ 2 ^ 52)%R.
Proof. unfold Q2R, eps. simpl Qnum. simpl Qden. rewrite Rmult_1_l. f_equal. rewrite pow_IZR. done. Qed.


(** ** Three terms of the series *)
Definition area_tangent (z : R) : R := (Rpower.ln (1 + z) - Rpower.ln (1 - z))%R.
Definition series (z : R) : R := (2 * (z + z ^ 3 / 3 + z ^ 5 / 5))%R.

Lemma ln_shift_derivative z : (-1 < z)%R -> derivable_pt_lim (fun x => Rpower.ln (1 + x)) z (/ (1 + z))%R.
Proof.
  intros Hz. replace (/ (1 + z))%R with (/ (1 + z) * (0 + 1))%R by (field; Lra.lra).
  apply (derivable_pt_lim_comp (fun x => (1 + x)%R) Rpower.ln).
  - apply (derivable_pt_lim_plus (fun _ => 1%R) (fun x => x)); [apply derivable_pt_lim_const|apply derivable_pt_lim_id].
  - apply derivable_pt_lim_ln. Lra.lra.
Qed.

Lemma ln_reflect_derivative z : (z < 1)%R -> derivable_pt_lim (fun x => Rpower.ln (1 - x)) z (- / (1 - z))%R.
Proof.
  intros Hz. replace (- / (1 - z))%R with (/ (1 - z) * (0 - 1))%R by (field; Lra.lra).
  apply (derivable_pt_lim_comp (fun x => (1 - x)%R) Rpower.ln).
  - apply (derivable_pt_lim_minus (fun _ => 1%R) (fun x => x)); [apply derivable_pt_lim_const|apply derivable_pt_lim_id].
  - apply derivable_pt_lim_ln. Lra.lra.
Qed.

Lemma series_derivative z : derivable_pt_lim series z (2 * (1 + z ^ 2 + z ^ 4))%R.
Proof.
  apply (derivable_pt_lim_scal (fun z => (z + z ^ 3 / 3 + z ^ 5 / 5)%R) 2%R).
  assert (forall n, (n <> 0)%nat -> derivable_pt_lim (fun x => (x ^ n / INR n)%R) z (z ^ pred n)%R) as Hp.
  { intros n Hn. assert (INR n <> 0)%R by (by apply not_0_INR).
    replace (z ^ pred n)%R with (INR n * z ^ pred n * / INR n + z ^ n * 0)%R by (field; done).
    apply (derivable_pt_lim_mult (fun x => (x ^ n)%R) (fun _ => (/ INR n)%R)); [apply derivable_pt_lim_pow|apply derivable_pt_lim_const]. }
  apply (derivable_pt_lim_plus (fun z => (z + z ^ 3 / 3)%R) (fun z => (z ^ 5 / 5)%R)).
  - apply (derivable_pt_lim_plus (fun z => z) (fun z => (z ^ 3 / 3)%R)); [apply derivable_pt_lim_id|].
    pose proof (Hp 3%nat ltac:(done)) as H3. by replace (INR 3) with 3%R in H3 by (simpl; Lra.lra).
  - pose proof (Hp 5%nat ltac:(done)) as H5. by replace (INR 5) with 5%R in H5 by (simpl; Lra.lra).
Qed.

(** The series is a lower bound, close for arguments up to a third. *)
Lemma series_near z : (0 <= z <= 1 / 3)%R -> (series z <= area_tangent z <= series z * (1 + 1 / 648))%R.
Proof.
  intros [[Hz|<-] Hz3].
  2: { unfold area_tangent, series. rewrite Rplus_0_r, Rminus_0_r. Lra.lra. }
  destruct (MVT_cor2 (fun x => area_tangent x - series x)%R
              (fun x => / (1 + x) - (- / (1 - x)) - 2 * (1 + x ^ 2 + x ^ 4))%R 0 z Hz) as (c & Hc & Hc0 & Hcz).
  { intros c Hc. apply derivable_pt_lim_minus; [|apply series_derivative].
    apply derivable_pt_lim_minus; [apply ln_shift_derivative|apply ln_reflect_derivative]; Lra.lra. }
  replace (/ (1 + c) - (- / (1 - c)) - 2 * (1 + c ^ 2 + c ^ 4))%R with (2 * c ^ 6 / (1 - c ^ 2))%R in Hc
    by (field; Lra.nra).
  assert (area_tangent 0 - series 0 = 0)%R as E0.
  { unfold area_tangent, series. rewrite Rplus_0_r, Rminus_0_r. Lra.lra. }
  assert (0 <= c ^ 6 <= (1 / 3) ^ 6)%R as [C0 C1] by (split; [apply pow_le|apply pow_incr]; Lra.lra).
  assert (0 <= 2 * c ^ 6 / (1 - c ^ 2) <= 1 / 324)%R as Hd.
  { assert (8 / 9 <= 1 - c ^ 2)%R by Lra.nra. split.
    - apply Rmult_le_pos; [Lra.lra|]. apply Rlt_le, Rinv_0_lt_compat. Lra.lra.
    - apply Rmult_le_reg_r with (1 - c ^ 2)%R; [Lra.lra|]. unfold Rdiv.
      rewrite Rmult_assoc, Rinv_l by Lra.lra. Lra.lra. }
  assert (2 * z <= series z)%R.
  { unfold series. assert (0 <= z ^ 3)%R by (apply pow_le; Lra.lra). assert (0 <= z ^ 5)%R by (apply pow_le; Lra.lra). Lra.lra. }
  set (r := (2 * c ^ 6 / (1 - c ^ 2))%R) in *. assert (0 <= r * z <= 1 / 324 * z)%R by Lra.nra. Lra.lra.
Qed.

(** ** An executable logarithm

    With [m * 2 ^ e = 2 ^ - k * x] and [x] in [1/2, 1), minus the logarithm is
    [k * ln 2] plus that of [x], the series at [(1 - x) / (1 + x)]; it is computed
    as one quotient of integers and then rounded. *)
Definition log_quotient (m : positive) (e : Z) : Z * Z :=
  let p := 2 ^ digits (Z.pos m) in
  let k := - (digits (Z.pos m) + e) in
  let a := p - Z.pos m in
  let b := p + Z.pos m in
  (842 * k * b ^ 5 + 162 * (15 * a * b ^ 4 + 5 * a ^ 3 * b ^ 2 + 3 * a ^ 5), 1215 * b ^ 5).

Definition series_libm : Libm := {|
  ln := fun u => match u with
                 | S754_finite false m e =>
                     let '(n, d) := log_quotient m e in fneg (fdiv (of_Z n) (of_Z d))
                 | S754_zero _ => S754_infinity true
                 | _ => u
                 end
|}.

Lemma area_tangent_quotient p m :
  (0 < p)%R -> (0 < m)%R -> area_tangent ((p - m) / (p + m)) = (Rpower.ln p - Rpower.ln m)%R.
Proof.
  intros Hp Hm. unfold area_tangent.
  replace (1 + (p - m) / (p + m))%R with (p * (2 / (p + m)))%R by (field; Lra.lra).
  replace (1 - (p - m) / (p + m))%R with (m * (2 / (p + m)))%R by (field; Lra.lra).
  assert (0 < 2 / (p + m))%R by (apply Rdiv_lt_0_compat; Lra.lra).
  rewrite !ln_mult by done. Lra.lra.
Qed.

Lemma ln_two_near : (842 / 1215 <= Rpower.ln 2 <= 842 / 1215 * (1 + 1 / 648))%R.
Proof.
  pose proof (series_near (1 / 3) ltac:(Lra.lra)) as Hs.
  pose proof (area_tangent_quotient 2 1 ltac:(Lra.lra) ltac:(Lra.lra)) as Ht. rewrite ln_1 in Ht.
  replace ((2 - 1) / (2 + 1))%R with (1 / 3)%R in Ht by Lra.lra. rewrite Ht in Hs.
  unfold series in Hs. Lra.lra.
Qed.

Lemma IZR_pow z n : 0 <= n -> IZR (z ^ n) = (IZR z ^ Z.to_nat n)%R.
Proof. intros Hn. rewrite pow_IZR. by rewrite Z2Nat.id. Qed.

Lemma ln_pow2 n : 0 <= n -> Rpower.ln (2 ^ Z.to_nat n) = (IZR n * Rpower.ln 2)%R.
Proof. intros Hn. rewrite ln_pow by Lra.lra. by rewrite INR_IZR_INZ, Z2Nat.id. Qed.

(** The quotient is the logarithm up to one part in 648. *)
Lemma log_quotient_near m e :
  let '(n, d) := log_quotient m e in
  digits (Z.pos m) + e <= 0 ->
  (IZR n / IZR d <= - Rpower.ln (Q2R (scaled (Z.pos m) e)) <= IZR n / IZR d * (1 + 1 / 648))%R.
Proof.
  unfold log_quotient. set (dm := digits (Z.pos m)). intros Hk.
  assert (0 < 2 ^ dm) as Hp0 by (apply Z.pow_pos_nonneg; [done|]; pose proof (digits_pos (Z.pos m) ltac:(done)); lia).
  pose proof (digits_bounds (Z.pos m) ltac:(done)) as Hd. pose proof (digits_pos (Z.pos m) ltac:(done)) as Hd1.
  fold dm in Hd, Hd1.
  assert (2 ^ dm = 2 * 2 ^ (dm - 1)) by (rewrite <- Z.pow_succ_r by lia; f_equal; lia).
  set (k := - (dm + e)). set (P := IZR (2 ^ dm)). set (M := IZR (Z.pos m)).
  assert (0 < P)%R as HP by (by apply IZR_lt). assert (0 < M)%R as HM by (by apply IZR_lt).
  assert (M < P <= 2 * M)%R as HMP.
  { unfold M, P. split; [apply IZR_lt; lia|]. rewrite <- mult_IZR. apply IZR_le. lia. }
  assert (Rpower.ln (Q2R (scaled (Z.pos m) e)) = Rpower.ln M - Rpower.ln P - IZR k * Rpower.ln 2)%R as ->.
  { unfold scaled. rewrite Q2R_mult, Q2R_inject_Z, real_pow2_neg by lia. fold M.
    assert (0 < 2 ^ Z.to_nat (- e))%R by (apply pow_lt; Lra.lra).
    rewrite ln_mult, ln_Rinv, ln_pow2 by first [done|lia|by apply Rinv_0_lt_compat].
    unfold P. rewrite <- (Z2Nat.id dm), <- pow_IZR, ln_pow2 by lia. unfold k. rewrite !opp_IZR, plus_IZR. Lra.lra. }
  set (b := 2 ^ dm + Z.pos m). set (a := 2 ^ dm - Z.pos m).
  assert (IZR a = P - M)%R as Ea by apply minus_IZR. assert (IZR b = P + M)%R as Eb by apply plus_IZR.
  repeat first [rewrite plus_IZR|rewrite mult_IZR|rewrite IZR_pow by done]. rewrite Ea, Eb.
  change (Z.to_nat 5) with 5%nat. change (Z.to_nat 4) with 4%nat. change (Z.to_nat 3) with 3%nat.
  change (Z.to_nat 2) with 2%nat.
  match goal with |- (?q <= _ <= _)%R =>
    replace q with (IZR k * (842 / 1215) + series ((P - M) / (P + M)))%R by (unfold series; field; Lra.lra) end.
  assert (0 <= (P - M) / (P + M) <= 1 / 3)%R as Hz.
  { split; [apply Rmult_le_pos; [Lra.lra|apply Rlt_le, Rinv_0_lt_compat; Lra.lra]|].
    apply Rmult_le_reg_r with (P + M)%R; [Lra.lra|]. unfold Rdiv. rewrite Rmult_assoc, Rinv_l by Lra.lra. Lra.lra. }
  pose proof (series_near _ Hz) as Hs. rewrite area_tangent_quotient in Hs by done.
  pose proof ln_two_near as H2. assert (0 <= IZR k)%R by (apply IZR_le; unfold k; lia).
  assert (IZR k * (842 / 1215) <= IZR k * Rpower.ln 2 <= IZR k * (842 / 1215 * (1 + 1 / 648)))%R
    by (split; apply Rmult_le_compat_l; Lra.lra). Lra.lra.
Qed.

(** Rounding a quotient of integers. *)
Lemma of_Z_near_wide n : 0 < n < 2 ^ 300 -> nonneg (of_Z n) /\ near (value (of_Z n)) (inject_Z n).
Proof.
  intros Hn. assert (scaled n 0 == inject_Z n)%Q as E by (unfold scaled; change (pow2 0) with 1%Q; ring).
  pose proof (inject_Z_le n (2 ^ 300) ltac:(lia)) as Hb. assert (inject_Z (2 ^ 300) < pow2 1000)%Q by (by vm_compute).
  destruct (normalize_near n 0) as [Hnn Hv]; [lia|lia|rewrite E; lra|].
  split; [done|]. by rewrite E in Hv.
Qed.

Lemma quotient_rounded n d :
  0 < n < 2 ^ 300 -> 0 < d < 2 ^ 300 ->
  let v := fdiv (of_Z n) (of_Z d) in
  nonneg v /\ (inject_Z n * (1 - 4 * eps) <= value v * inject_Z d <= inject_Z n * (1 + 4 * eps))%Q.
Proof.
  intros Hn Hd v. destruct (of_Z_near_wide n Hn) as [Nn Vn]. destruct (of_Z_near_wide d Hd) as [Nd Vd].
  assert (forall z : Z, 0 < z < 2 ^ 300 -> (1 <= inject_Z z <= inject_Z (2 ^ 300))%Q) as Hb.
  { intros z Hz. split; [apply (inject_Z_le 1)|apply inject_Z_le]; lia. }
  pose proof (Hb n Hn). pose proof (Hb d Hd).
  assert (2 * inject_Z (2 ^ 300) < pow2 400)%Q by (by vm_compute). assert (pow2 (-400) <= 1 # 2)%Q by (by vm_compute).
  unfold near, eps in *. destruct (fdiv_near _ _ Nn Nd) as [Nv Vv]; [lra..|].
  split; [done|]. pose proof (value_nonneg _ Nv) as Hv. fold v in Vv, Hv. unfold near, eps in Vv.
  assert (value v * (inject_Z d * (1 - (1 # 4503599627370496))) <= value v * value (of_Z d))%Q by nra.
  assert (value v * value (of_Z d) <= value v * (inject_Z d * (1 + (1 # 4503599627370496))))%Q by nra.
  lra.
Qed.

Lemma log_quotient_bounds m e :
  canonical (Z.pos m) e -> digits (Z.pos m) + e <= 0 ->
  let '(n, d) := log_quotient m e in 0 < n < 2 ^ 300 /\ 0 < d < 2 ^ 300.
Proof.
  intros Hc Hk. destruct (canonical_digits _ _ Hc) as [Hd He]. unfold log_quotient.
  pose proof (digits_bounds (Z.pos m) ltac:(done)) as Hb. pose proof (digits_pos (Z.pos m) ltac:(done)).
  set (dm := digits (Z.pos m)) in *. pose proof (Z.pow_le_mono_r 2 dm 53 ltac:(done) Hd).
  set (p := 2 ^ dm) in *. set (a := p - Z.pos m). set (b := p + Z.pos m). set (k := - (dm + e)).
  assert (1 <= a <= b) as Ha by (unfold a, b; lia). assert (1 <= b <= 2 ^ 54) as Hb' by (unfold b; lia).
  assert (0 <= k <= 1074) as Hk' by (unfold k; lia). clearbody a b k.
  pose proof (Z.pow_le_mono_l 1 b 5 ltac:(lia)). pose proof (Z.pow_le_mono_l b (2 ^ 54) 5 ltac:(lia)).
  pose proof (Z.pow_le_mono_l 1 a 5 ltac:(lia)). pose proof (Z.pow_le_mono_l a b 5 ltac:(lia)).
  assert (0 <= a * b ^ 4 <= b ^ 5) by (replace (b ^ 5) with (b * b ^ 4) by ring; pose proof (Z.pow_nonneg b 4); nia).
  assert (0 <= a ^ 3 * b ^ 2 <= b ^ 5).
  { replace (b ^ 5) with (b ^ 3 * b ^ 2) by ring. pose proof (Z.pow_nonneg b 2 ltac:(lia)).
    pose proof (Z.pow_nonneg a 3 ltac:(lia)). pose proof (Z.pow_le_mono_l a b 3 ltac:(lia)). nia. }
  assert (0 <= k * b ^ 5 <= 1074 * b ^ 5) by nia. change (1 ^ 5) with 1 in *.
  assert (2 ^ 300 = (2 ^ 54) ^ 5 * 2 ^ 30) as -> by done.
  replace (842 * k * b ^ 5) with (842 * (k * b ^ 5)) by ring.
  replace (15 * a * b ^ 4) with (15 * (a * b ^ 4)) by ring. replace (5 * a ^ 3 * b ^ 2) with (5 * (a ^ 3 * b ^ 2)) by ring.
  set (B := (2 ^ 54) ^ 5) in *. set (b5 := b ^ 5) in *. clearbody B b5. lia.
Qed.

Lemma below_one_digits m e : (scaled (Z.pos m) e < 1)%Q -> digits (Z.pos m) + e <= 0.
Proof.
  intros Hlt. destruct (scaled_mag (Z.pos m) e ltac:(done)) as [Hlo _].
  assert (digits (Z.pos m) - 1 + e < 0) as Hd; [|lia].
  apply pow2_lt_inv. change (pow2 0) with 1%Q. lra.
Qed.

Lemma series_libm_accurate : @LnLaws series_libm (1 / 600)%R.
Proof.
  split; [Lra.lra|]. intros u Hn [H0 H1]. unfold real in *.
  assert (Q2R 1 = 1%R) as E1 by (unfold Q2R; simpl; Lra.lra).
  destruct Hn as [|m e Hc]; [simpl in H0; unfold Q2R in H0; simpl in H0; Lra.lra|].
  change (value (S754_finite false m e)) with (scaled (Z.pos m) e) in *.
  assert (digits (Z.pos m) + e <= 0) as Hk by (apply below_one_digits, Rlt_Qlt; by rewrite E1).
  pose proof (log_quotient_near m e) as Hq. pose proof (log_quotient_bounds m e Hc Hk) as Hb.
  change (@ln series_libm (S754_finite false m e))
    with (let '(n, d) := log_quotient m e in fneg (fdiv (of_Z n) (of_Z d))).
  destruct (log_quotient m e) as [n d]. specialize (Hq Hk). destruct Hb as [Bn Bd].
  destruct (quotient_rounded n d Bn Bd) as [Nv [Vlo Vhi]]. set (v := fdiv (of_Z n) (of_Z d)) in *.
  split; [by destruct Nv; constructor|].
  apply Qle_Rle in Vlo, Vhi. revert Vlo Vhi.
  rewrite !Q2R_mult, Q2R_minus, Q2R_plus, Q2R_mult, !Q2R_inject_Z, real_eps, E1.
  replace (Q2R 4) with 4%R by (unfold Q2R; simpl; Lra.lra).
  change (Q2R (value (fneg v))) with (real (fneg v)). rewrite real_fneg. unfold real. intros Vlo Vhi.
  assert (0 < IZR d)%R as Hd by (apply IZR_lt; lia). assert (0 < IZR n)%R as Hn by (apply IZR_lt; lia).
  set (s := (IZR n / IZR d)%R) in *. assert (IZR n = s * IZR d)%R as Es by (unfold s; field; Lra.lra).
  assert (/ 2 ^ 52 <= 1 / 100000)%R as He by (simpl; Lra.lra).
  assert (0 < / 2 ^ 52)%R as He0 by (apply Rinv_0_lt_compat, pow_lt; Lra.lra).
  set (ep := (/ 2 ^ 52)%R) in *. rewrite Es in Vlo, Vhi.
  assert (0 < s)%R by (unfold s; by apply Rdiv_lt_0_compat).
  assert (s * (1 - 4 * ep) <= Q2R (value v) <= s * (1 + 4 * ep))%R as Hv.
  { split; apply Rmult_le_reg_r with (IZR d); Lra.lra. }
  assert (s * (4 * ep) <= s * (4 * (1 / 100000)))%R by (apply Rmult_le_compat_l; Lra.lra).
  apply Rabs_le. Lra.lra.
Qed.
