(* ===== verification/DelayLaw.v ===== *)
(** * The distribution of the delays ([delay.rs])

    [next_delay] is written as inversion sampling: a uniform draw [u] becomes
    [- ln u / lambda].  The file compares it with the exact function on the real
    numbers: for a logarithm of a known relative accuracy, a delay is within
    that accuracy, a few roundings and half a nanosecond of [mean * - ln u]
    (cut at a hundred means), so the draws that give a delay above [t] are those
    below [exp (- t / mean)], up to the same error: the delays are exponentially
    distributed with the configured mean. *)

From Stdlib Require Import QArith Qminmax Reals Lra Lqa Qreals.
From S2P Require Import Prelude F64 F64Bounds F64Error Rand Delay Logarithm.

(** ** Reading a delay off its float *)
Lemma from_secs_value x d :
  nonneg x -> from_secs_f64 x = Some d ->
  (value x * 1000000000 - (1 # 2) <= inject_Z d <= value x * 1000000000 + (1 # 2))%Q.
Proof.
  intros [|m e _] Hd; simpl in Hd.
  - simplify_eq. simpl. change (inject_Z 0) with 0%Q. lra.
  - change (if 0 <=? e then _ else _) with (nanos m e) in Hd. case_match; [|done]. simplify_eq. apply nanos_value.
Qed.

(** Clamping a nonnegative number from below by zero does nothing. *)
Lemma fclamp_value x hi :
  nonneg x -> nonneg hi ->
  exists y, fclamp x f_zero hi = Some y /\ nonneg y /\ (value y == Qmin (value x) (value hi))%Q.
Proof.
  intros Hx Hhi. unfold fclamp, fgtb.
  assert (nonneg f_zero) as Hz by constructor. pose proof (value_nonneg x Hx). pose proof (value_nonneg hi Hhi).
  rewrite (fleb_value f_zero hi Hz Hhi) by (simpl; lra).
  rewrite (proj2 (fltb_false x f_zero Hx Hz)) by (simpl; lra). cbv zeta.
  eexists. split; [reflexivity|].
  change (SFltb hi x) with (fltb hi x). destruct (fltb hi x) eqn:E.
  - apply fltb_value in E; [|done..]. split; [done|]. rewrite Q.min_r; [reflexivity|lra].
  - apply fltb_false in E; [|done..]. split; [done|]. rewrite Q.min_l; [reflexivity|lra].
Qed.

(** ** The rate of a scheduler *)
Lemma lambda_value mean :
  is_mean mean -> nonneg (lambda (new mean)) /\ (pow2 (-400) <= value (lambda (new mean)) < pow2 400)%Q /\
  (1000000 * (1 - 3 * eps) <= value (lambda (new mean)) * inject_Z mean <= 1000000 * (1 + 3 * eps))%Q.
Proof.
  intros Hm. unfold is_mean in Hm. unfold new. cbn [lambda]. rewrite (proj2 (Z.eqb_neq _ _)) by lia.
  destruct (of_Z_near mean) as [Nm Vm]; [lia|]. destruct (of_Z_near 1000000) as [N2 _]; [done|].
  assert (value (of_Z 1000000) == 1000000)%Q as V2 by (by vm_compute).
  assert (1 <= inject_Z mean <= inject_Z u64_max)%Q as Bm by (split; [apply (inject_Z_le 1)|apply inject_Z_le]; lia).
  assert (pow2 (-400) * (4 * inject_Z u64_max) <= 1)%Q by (by vm_compute).
  assert (2 * inject_Z u64_max < pow2 400)%Q by (by vm_compute). assert (4000000 < pow2 400)%Q by (by vm_compute).
  assert (pow2 (-400) <= 1 # 2)%Q by (by vm_compute).
  unfold near, eps in Vm.
  destruct (fdiv_near _ _ N2 Nm) as [N V]; [lra..|]. split; [done|]. unfold near in V. rewrite V2 in V.
  set (l := value (fdiv _ _)) in *. set (vm := value (of_Z mean)) in *. set (m := inject_Z mean) in *.
  unfold eps in *. pose proof (value_nonneg _ N) as Hl. fold l in Hl.
  assert (l * (1 # 2) <= l * vm)%Q by nra. assert (l * vm <= l * (2 * inject_Z u64_max))%Q by nra.
  assert (l * (m * (1 - (1 # 4503599627370496))) <= l * vm)%Q by nra.
  assert (l * vm <= l * (m * (1 + (1 # 4503599627370496))))%Q by nra.
  split; [split|split]; [|lra..]. apply Qnot_lt_le. intros Hlt. nra.
Qed.

(** ** One draw, in exact rational arithmetic

    The delay follows from the computed logarithm [ell] alone. *)
Lemma min_near (x y a b r : Q) :
  (0 <= r <= 1)%Q -> (a * (1 - r) <= x <= a * (1 + r))%Q -> (b * (1 - r) <= y <= b * (1 + r))%Q ->
  (Qmin a b * (1 - r) <= Qmin x y <= Qmin a b * (1 + r))%Q.
Proof.
  intros Hr Hx Hy.
  destruct (Q.min_spec a b) as [[? ->]|[? ->]], (Q.min_spec x y) as [[? ->]|[? ->]]; nra.
Qed.

Lemma min_scale (c a b : Q) : (0 <= c)%Q -> (Qmin (c * a) (c * b) == c * Qmin a b)%Q.
Proof.
  intros Hc. destruct (Q.min_spec a b) as [[? ->]|[? ->]];
    [apply Q.min_l|apply Q.min_r]; nra.
Qed.

Lemma nonneg_not_nan x : nonneg x -> is_nan x = false.
Proof. by destruct 1. Qed.

(** Dividing by the rate multiplies by the mean. *)
Lemma quotient_near (s lam m l : Q) :
  (0 < m)%Q -> (0 <= l)%Q -> (0 <= s)%Q -> near (s * lam) l ->
  (1000000 * (1 - 3 * eps) <= lam * m <= 1000000 * (1 + 3 * eps))%Q ->
  (m * (1 # 1000000) * l * (1 - 6 * eps) <= s <= m * (1 # 1000000) * l * (1 + 6 * eps))%Q.
Proof.
  unfold near, eps. intros Hm Hl Hs [Hlo Hhi] [Llo Lhi].
  set (ml := (m * l)%Q). assert (0 <= ml)%Q by (unfold ml; nra).
  assert (s * (lam * m) <= ml * (1 + (1 # 4503599627370496)))%Q by (unfold ml; nra).
  assert (ml * (1 - (1 # 4503599627370496)) <= s * (lam * m))%Q by (unfold ml; nra).
  assert (s * (1000000 * (1 - 3 * (1 # 4503599627370496))) <= s * (lam * m))%Q by nra.
  assert (s * (lam * m) <= s * (1000000 * (1 + 3 * (1 # 4503599627370496))))%Q by nra.
  assert (m * (1 # 1000000) * l == ml * (1 # 1000000))%Q as -> by (unfold ml; ring). lra.
Qed.

Section draw.
Context {G : Type} `{!Rng G, !Libm}.

(** The uniform number a draw inverts. *)
Definition uniform (rng : G) : f64 :=
  let u := fst (gen_f64 rng) in if feqb u f_zero then MIN_POSITIVE else u.

Lemma next_delay_value mean (rng : G) :
  let l := fneg (ln (uniform rng)) in
  is_mean mean -> nonneg l -> (pow2 (-400) <= value l < pow2 400)%Q ->
  exists d, next_delay (new mean) rng = (Some d, snd (gen_f64 rng)) /\
    (inject_Z (from_micros mean) * Qmin (value l) 100 * (1 - 8 * eps) - (1 # 2) <= inject_Z d <=
     inject_Z (from_micros mean) * Qmin (value l) 100 * (1 + 8 * eps) + (1 # 2))%Q.
Proof.
  intros l Hm Nl Bl. destruct (lambda_value mean Hm) as (Nm & Bm & Vm).
  destruct (max_secs_value mean Hm) as [Nx Vx].
  destruct (fdiv_near _ _ Nl Nm Bl Bm) as [Ns Vs].
  destruct (fclamp_value _ _ Ns Nx) as (y & Ey & Ny & Vy).
  destruct (max_secs_normal mean Hm) as (a & b & Hn & Hb).
  destruct (lambda_normal mean Hm) as (a' & b' & Hl').
  destruct (fclamp_normal (fdiv l (lambda (new mean))) _ _ _ (fdiv_rounded _ _ _ _ (nonneg_not_nan _ Nl) Hl') Hn Hb)
    as (d & cap & Hd & _).
  exists d. split.
  { unfold next_delay. assert (feqb (lambda (new mean)) f_zero = false) as -> by (by destruct Hl' as (m & e & -> & _)).
    unfold l, uniform in Hd. destruct (gen_f64 rng) as [u rng']. simpl fst in Hd. simpl snd. by rewrite <- Hd. }
  rewrite Ey in Hd. pose proof (from_secs_value y d Ny Hd) as Hv. rewrite Vy in Hv.
  assert (1 <= inject_Z mean)%Q as Hpos by (apply (inject_Z_le 1); unfold is_mean in Hm; lia).
  pose proof (value_nonneg _ Nl) as Hl0.
  pose proof (quotient_near _ _ (inject_Z mean) _ ltac:(lra) Hl0 (value_nonneg _ Ns) Vs Vm) as Hq.
  set (c := (inject_Z mean * (1 # 1000000))%Q) in *.
  assert (c * 100 * (1 - 6 * eps) <= value (max_secs (new mean)) <= c * 100 * (1 + 6 * eps))%Q as Hx
    by (unfold c, eps in *; lra).
  pose proof (min_near _ _ _ _ (6 * eps) ltac:(unfold eps; lra) Hq Hx) as Hmin.
  rewrite min_scale in Hmin by (unfold c; lra).
  assert (inject_Z (from_micros mean) == c * 1000000000)%Q as ->.
  { unfold from_micros, c. rewrite inject_Z_mult. change (inject_Z 1000) with 1000%Q. ring. }
  assert (0 <= c * Qmin (value l) 100)%Q as Hc.
  { apply Qmult_le_0_compat; [unfold c; lra|]. by apply Q.min_glb. }
  set (t := (c * Qmin (value l) 100)%Q) in *.
  assert (c * 1000000000 * Qmin (value l) 100 == t * 1000000000)%Q as -> by (unfold t; ring).
  unfold eps in *. lra.
Qed.
End draw.

(** ** On the real numbers *)
(** The reference: inversion of the exponential distribution, cut at a hundred
    means, in nanoseconds. *)
Definition exponential (mean : Z) (u : f64) : R :=
  (IZR (from_micros mean) * Rmin (- Rpower.ln (real u)) 100)%R.

(** The relative error of a delay: that of the logarithm and of the roundings. *)
Definition slack (delta : R) : R := (delta + / 2 ^ 48)%R.

Lemma Rmin_near x a c r :
  (0 <= r <= 1)%R -> (0 <= c)%R -> (a * (1 - r) <= x <= a * (1 + r))%R ->
  (Rmin a c * (1 - r) <= Rmin x c <= Rmin a c * (1 + r))%R.
Proof.
  intros Hr Hc Hx. unfold Rmin. destruct (Rle_dec a c), (Rle_dec x c); Lra.nra.
Qed.

(** Two relative errors in a row. *)
Lemma near_compose m x t d delta e :
  (0 <= m)%R -> (0 <= t)%R -> (0 <= delta <= 1 / 2)%R -> (0 <= e <= 1 / 16)%R ->
  (t * (1 - delta) <= x <= t * (1 + delta))%R ->
  (m * x * (1 - 8 * e) - 1 / 2 <= d <= m * x * (1 + 8 * e) + 1 / 2)%R ->
  (m * t * (1 - (delta + 16 * e)) - 1 / 2 <= d <= m * t * (1 + (delta + 16 * e)) + 1 / 2)%R.
Proof.
  intros Hm Ht Hd He Hx [Hlo Hhi].
  assert (0 <= m * t)%R by (by apply Rmult_le_pos).
  assert (m * t * (1 - delta) <= m * x <= m * t * (1 + delta))%R as [Bl Bh] by (split; Lra.nra).
  assert (m * t * (1 - delta) * (1 - 8 * e) <= m * x * (1 - 8 * e))%R by (apply Rmult_le_compat_r; Lra.lra).
  assert (m * x * (1 + 8 * e) <= m * t * (1 + delta) * (1 + 8 * e))%R by (apply Rmult_le_compat_r; Lra.lra).
  assert (m * t * (1 - (delta + 16 * e)) <= m * t * ((1 - delta) * (1 - 8 * e)))%R
    by (apply Rmult_le_compat_l; Lra.nra).
  assert (m * t * ((1 + delta) * (1 + 8 * e)) <= m * t * (1 + (delta + 16 * e)))%R
    by (apply Rmult_le_compat_l; Lra.nra). Lra.lra.
Qed.

(** Inverting the exponential function. *)
Lemma above_exp (x c u : R) : (0 < u)%R -> (0 < c)%R -> (u < exp (- (x / c)))%R -> (x < c * - Rpower.ln u)%R.
Proof.
  intros Hu Hc Hx. rewrite <- (exp_ln u Hu) in Hx. apply exp_lt_inv in Hx.
  apply (Rmult_lt_compat_l c) in Hx; [|done].
  replace (c * - (x / c))%R with (- x)%R in Hx by (field; Lra.lra). Lra.lra.
Qed.

Lemma below_exp (x c u : R) : (0 < u)%R -> (0 < c)%R -> (x <= c * - Rpower.ln u)%R -> (u <= exp (- (x / c)))%R.
Proof.
  intros Hu Hc Hx. apply Rnot_lt_le. intros Hlt. apply ln_increasing in Hlt; [|apply exp_pos].
  rewrite ln_exp in Hlt. apply (Rmult_lt_compat_l c) in Hlt; [|done].
  replace (c * - (x / c))%R with (- x)%R in Hlt by (field; Lra.lra). Lra.lra.
Qed.

Section law.
Context {G : Type} `{!Rng G, !RngLaws G, !Libm} (delta : R) `{!LnLaws delta}.

(** Every draw is a positive number below 1. *)
Lemma uniform_range (rng : G) :
  valid_binary 53 1024 (fst (gen_f64 rng)) = true ->
  nonneg (uniform rng) /\ (0 < real (uniform rng) < 1)%R.
Proof.
  intros Hv. unfold uniform. pose proof (gen_f64_range rng) as Hr. simpl in Hr.
  set (u := fst (gen_f64 rng)) in *. set (u' := if feqb u f_zero then MIN_POSITIVE else u).
  assert (nonneg u' /\ 0 < value u' < 1)%Q as (Hn & H0 & H1).
  { unfold u'. destruct (feqb u f_zero) eqn:Eu.
    { split; [|by vm_compute]. constructor. by vm_compute. }
    destruct Hr as [Hlo Hhi]. assert (fgtb u f_zero = true) as Hpos by (by destruct u as [s|[]| |[]]).
    assert (nonneg u) as Hn by (apply valid_nonneg; [done| |done]; by destruct u as [|[]| |]).
    split; [done|]. assert (nonneg f_zero) by constructor. destruct (of_Z_near 1 ltac:(done)) as [N1 _].
    split.
    - by apply (fltb_value f_zero u).
    - apply fltb_value in Hhi; [|done..]. assert (value f_one == 1)%Q as E by (by vm_compute). by rewrite E in Hhi. }
  split; [done|]. unfold real. apply Qlt_Rlt in H0, H1. unfold Q2R at 1 in H0. unfold Q2R at 2 in H1. simpl in *.
  Lra.lra.
Qed.

(** The computed logarithm of a draw, negated. *)
Lemma log_of_draw u :
  nonneg u -> (0 < real u < 1)%R ->
  let l := fneg (ln u) in
  nonneg l /\ (pow2 (-400) <= value l < pow2 400)%Q /\
  (- Rpower.ln (real u) * (1 - delta) <= real l <= - Rpower.ln (real u) * (1 + delta))%R.
Proof.
  intros Hn Hu l. destruct (ln_accurate u Hn Hu) as [Hl Hacc]. destruct ln_delta as [D0 D1].
  destruct (ln_size u Hn Hu) as [S0 S1]. split; [done|].
  assert (- Rpower.ln (real u) * (1 - delta) <= real l <= - Rpower.ln (real u) * (1 + delta))%R as Hb.
  { unfold l. rewrite real_fneg. revert Hacc. split_Rabs; Lra.lra. }
  split; [|done]. split.
  - apply Rle_Qle. fold (real l). rewrite (real_pow2_neg (-400)) by done.
    assert (0 < / 2 ^ 53)%R as Hp by (apply Rinv_0_lt_compat, pow_lt; Lra.lra).
    apply Rle_trans with (/ 2 ^ 53 * / 2)%R; [|set (a := (/ 2 ^ 53)%R) in *; Lra.nra].
    rewrite <- Rinv_mult. apply Rinv_le_contravar; [apply Rmult_lt_0_compat; [apply pow_lt|]; Lra.lra|].
    rewrite Rmult_comm. change (2 * 2 ^ 53)%R with (2 ^ 54)%R. apply Rle_pow; [Lra.lra|]. vm_compute. lia.
  - apply Qle_lt_trans with (inject_Z 2000); [|by vm_compute]. apply Rle_Qle. rewrite Q2R_inject_Z. fold (real l). Lra.nra.
Qed.

Lemma slack_range : (0 <= slack delta < 1)%R.
Proof.
  unfold slack. destruct ln_delta. assert (/ 2 ^ 48 <= / 4)%R.
  { apply Rinv_le_contravar; [Lra.lra|]. replace 4%R with (2 ^ 2)%R by Lra.lra. apply Rle_pow; [Lra.lra|lia]. }
  assert (0 < / 2 ^ 48)%R by (apply Rinv_0_lt_compat, pow_lt; Lra.lra). Lra.lra.
Qed.

Lemma next_delay_near mean (rng : G) :
  let T := exponential mean (uniform rng) in
  is_mean mean -> valid_binary 53 1024 (fst (gen_f64 rng)) = true ->
  exists d, next_delay (new mean) rng = (Some d, snd (gen_f64 rng)) /\
    (T * (1 - slack delta) - 1 / 2 <= IZR d <= T * (1 + slack delta) + 1 / 2)%R.
Proof.
  intros T Hm Hv. destruct (uniform_range rng Hv) as [Hn Hu].
  destruct (log_of_draw _ Hn Hu) as (Nl & Bl & Vl). destruct ln_delta as [D0 D1].
  destruct (next_delay_value mean rng Hm Nl Bl) as (d & Hd & Hlo & Hhi). exists d. split; [done|].
  apply Qle_Rle in Hlo, Hhi. revert Hlo Hhi.
  assert (Q2R 100 = 100 /\ Q2R 1 = 1 /\ Q2R 8 = 8 /\ Q2R (1 # 2) = 1 / 2)%R as (E1 & E2 & E3 & E4)
    by (unfold Q2R; simpl; split_and!; Lra.lra).
  rewrite Q2R_minus, !Q2R_plus, !Q2R_mult, Q2R_minus, !Q2R_plus, Q2R_mult, Q2R_min, !Q2R_inject_Z, real_eps, E1, E2, E3, E4.
  fold (real (fneg (ln (uniform rng)))). unfold T, exponential.
  destruct (ln_size _ Hn Hu) as [S0 _].
  assert (0 < / 2 ^ 52)%R as He by (apply Rinv_0_lt_compat, pow_lt; Lra.lra).
  assert (/ 2 ^ 48 = 16 * / 2 ^ 52)%R as E48 by (simpl; field).
  assert (0 <= IZR (from_micros mean))%R as HM by (apply IZR_le; unfold from_micros, is_mean in *; lia).
  intros Hlo Hhi. unfold slack. rewrite E48.
  assert (0 < / 2 ^ 53)%R by (apply Rinv_0_lt_compat, pow_lt; Lra.lra).
  apply near_compose with (x := Rmin (real (fneg (ln (uniform rng)))) 100); [done| |Lra.lra| | |Lra.lra].
  - apply Rmin_glb; Lra.lra.
  - pose proof slack_range. unfold slack in *. Lra.lra.
  - apply Rmin_near; Lra.lra.
Qed.

(** C14. The delays are exponentially distributed with the configured mean: every
    draw [u] of a valid generator gives, without a panic, a delay that differs from
    the inverse [mean * - ln u] of the exponential distribution (cut at a hundred
    means) by at most the relative error of the logarithm plus 2^-48, and by half a
    nanosecond.  Hence the draws whose delay exceeds [t] nanoseconds are those
    below [exp (- t / mean)], between the two bounds this error allows. *)
Theorem delays_are_exponential mean (rng : G) :
  let u := uniform rng in
  let M := IZR (from_micros mean) in
  is_mean mean -> valid_binary 53 1024 (fst (gen_f64 rng)) = true ->
  exists d, next_delay (new mean) rng = (Some d, snd (gen_f64 rng)) /\
    (Rabs (IZR d - exponential mean u) <= slack delta * exponential mean u + 1 / 2)%R /\
    (forall t, t < d -> (real u <= exp (- ((IZR t + 1 / 2) / (M * (1 + slack delta)))))%R) /\
    (forall t, (IZR t + 1 / 2 < 100 * (M * (1 - slack delta)))%R ->
       (real u < exp (- ((IZR t + 1 / 2) / (M * (1 - slack delta)))))%R -> t < d).
Proof.
  intros u M Hm Hv. destruct (next_delay_near mean rng Hm Hv) as (d & Hd & Hlo & Hhi).
  destruct (uniform_range rng Hv) as [_ [Hu _]]. fold u in Hlo, Hhi, Hu. pose proof slack_range as Hs.
  assert (0 < M)%R as HM by (apply IZR_lt; unfold from_micros, is_mean in *; lia).
  exists d. split; [done|]. split_and!.
  - apply Rabs_le. Lra.lra.
  - intros t Ht. apply (below_exp _ _ _ Hu); [by apply Rmult_lt_0_compat; Lra.lra|].
    assert (IZR t + 1 <= IZR d)%R by (rewrite <- plus_IZR; apply IZR_le; lia).
    unfold exponential in Hhi. fold M in Hhi.
    pose proof (Rmult_le_compat_l (M * (1 + slack delta)) _ _ ltac:(Lra.nra) (Rmin_l (- Rpower.ln (real u)) 100)). Lra.lra.
  - intros t Hc Ht. apply (above_exp _ _ _ Hu) in Ht; [|by apply Rmult_lt_0_compat; Lra.lra].
    apply lt_IZR. unfold exponential in Hlo. fold M in Hlo.
    unfold Rmin in Hlo. destruct (Rle_dec _ _); Lra.lra.
Qed.
End law.

(** The fourth number of the counter, 3/7, under the series logarithm. *)
Lemma delays_are_exponential_witness :
  exists d, @next_delay Z counter_rng series_libm (new 500000) 3 = (Some d, 4) /\
    (Rabs (IZR d - exponential 500000 (@uniform Z counter_rng 3%Z)) <=
     slack (1 / 600) * exponential 500000 (@uniform Z counter_rng 3%Z) + 1 / 2)%R.
Proof.
  destruct (@delays_are_exponential Z counter_rng counter_rng_laws series_libm (1 / 600)%R series_libm_accurate 500000 3)
    as (d & Hd & Herr & _); [by split|by vm_compute|].
  exists d. split; [exact Hd|exact Herr].
Defined.

Example delay_of_three_sevenths :
  fst (@next_delay Z counter_rng series_libm (new 500000) 3) = Some 423577395.
Proof. vm_compute. reflexivity. Qed.
