(* ===== verification/Text.v ===== *)
(** * Strings

    Rust's [str] is a UTF-8 byte sequence; the operations the command line and
    the enrolment client use are written on bytes.  Hexadecimal is the [hex]
    crate's and so an interface, with the usual codec as an instance. *)

From S2P Require Import Prelude.

Definition str : Type := list byte.

(** String literals. *)
Definition lit (s : string) : str := String.list_byte_of_string s.
Definition unlit (s : str) : string := String.string_of_list_byte s.
Coercion lit : string >-> str.

(** ** UTF-8 *)
Definition in_range (lo hi : Z) (b : byte) : bool := (lo <=? byte_to_Z b) && (byte_to_Z b <=? hi).

Definition continuation : byte -> bool := in_range 128 191.

(** The length of the well-formed character at the front, if there is one. *)
Definition utf8_char (l : list byte) : option nat :=
  match l with
  | [] => None
  | a :: l =>
      if in_range 0 127 a then Some 1%nat else
      match l with
      | [] => None
      | b :: l =>
          if in_range 194 223 a && continuation b then Some 2%nat else
          match l with
          | [] => None
          | c :: l =>
              if continuation c &&
                 (in_range 224 224 a && in_range 160 191 b ||
                  (in_range 225 236 a || in_range 238 239 a) && continuation b ||
                  in_range 237 237 a && in_range 128 159 b) then Some 3%nat else
              match l with
              | [] => None
              | d :: _ =>
                  if continuation c && continuation d &&
                     (in_range 240 240 a && in_range 144 191 b ||
                      in_range 241 243 a && continuation b ||
                      in_range 244 244 a && in_range 128 143 b) then Some 4%nat else None
              end
          end
      end
  end.

Fixpoint utf8_fuel (fuel : nat) (l : list byte) : bool :=
  match l, fuel with
  | [], _ => true
  | _, O => false
  | _, S fuel =>
      match utf8_char l with Some n => utf8_fuel fuel (drop n l) | None => false end
  end.

(** [std::str::from_utf8]; a character has at least one byte. *)
Definition from_utf8 (l : list byte) : option str := if utf8_fuel (length l) l then Some l else None.

(** ** Trimming *)

(** The characters with the Unicode property [White_Space], encoded. *)
Definition white_space : list (list byte) :=
  [[x09]; [x0a]; [x0b]; [x0c]; [x0d]; [x20]; [xc2; x85]; [xc2; xa0]; [xe1; x9a; x80];
   [xe2; x80; x80]; [xe2; x80; x81]; [xe2; x80; x82]; [xe2; x80; x83]; [xe2; x80; x84];
   [xe2; x80; x85]; [xe2; x80; x86]; [xe2; x80; x87]; [xe2; x80; x88]; [xe2; x80; x89];
   [xe2; x80; x8a]; [xe2; x80; xa8]; [xe2; x80; xa9]; [xe2; x80; xaf]; [xe2; x81; x9f];
   [xe3; x80; x80]].

Fixpoint strip_prefix (p l : list byte) : option (list byte) :=
  match p, l with
  | [], _ => Some l
  | a :: p, b :: l => if decide (a = b) then strip_prefix p l else None
  | _ :: _, [] => None
  end.

Fixpoint strip_any (ps : list (list byte)) (l : list byte) : option (list byte) :=
  match ps with
  | [] => None
  | p :: ps => match strip_prefix p l with Some l' => Some l' | None => strip_any ps l end
  end.

Fixpoint strip_all (fuel : nat) (ps : list (list byte)) (l : list byte) : list byte :=
  match fuel with
  | O => l
  | S fuel => match strip_any ps l with Some l' => strip_all fuel ps l' | None => l end
  end.

(** [str::trim]; each character taken off has at least one byte. *)
Definition trim_start (s : str) : str := strip_all (length s) white_space s.
Definition trim_end (s : str) : str :=
  rev (strip_all (length s) (map (@rev byte) white_space) (rev s)).
Definition trim (s : str) : str := trim_end (trim_start s).

(** [s.trim_end_matches('/')] and the like, for a one-byte character. *)
Fixpoint drop_while (f : byte -> bool) (l : list byte) : list byte :=
  match l with
  | [] => []
  | b :: l' => if f b then drop_while f l' else l
  end.

Definition trim_end_matches (c : byte) (s : str) : str :=
  rev (drop_while (fun b => bool_decide (b = c)) (rev s)).

(** ** Searching and folding *)
Fixpoint contains (s pat : str) : bool :=
  match strip_prefix pat s with
  | Some _ => true
  | None => match s with [] => false | _ :: s => contains s pat end
  end.

(** [str::split_once] at a one-byte character. *)
Fixpoint split_once (c : byte) (s : str) : option (str * str) :=
  match s with
  | [] => None
  | b :: s =>
      if decide (b = c) then Some ([], s)
      else '(l, r) ← split_once c s; Some (b :: l, r)
  end.

Definition to_ascii_lowercase (s : str) : str :=
  map (fun b => if in_range 65 90 b then byte_of_Z (byte_to_Z b + 32) else b) s.

Definition is_ascii_hexdigit (b : byte) : bool :=
  in_range 48 57 b || in_range 65 70 b || in_range 97 102 b.

Definition is_ascii_whitespace (b : byte) : bool :=
  match b with x09 | x0a | x0c | x0d | x20 => true | _ => false end.

(** ** Hexadecimal *)
Class Hex := {
  hex_encode : list byte -> str;
  hex_decode : str -> option (list byte);
}.

Class HexLaws `{!Hex} : Prop := {
  hex_decode_encode : forall l, hex_decode (hex_encode l) = Some l;
  hex_encode_digits : forall l, Forall (fun b => is_ascii_hexdigit b = true) (hex_encode l);
  hex_encode_length : forall l, length (hex_encode l) = (2 * length l)%nat;
}.

(** [<[u8; N]>::try_from] of a vector. *)
Definition try_array (n : nat) (l : list byte) : option (list byte) :=
  if (length l =? n)%nat then Some l else None.

(** ** Facts *)
Lemma strip_any_hexdigit b l : is_ascii_hexdigit b = true -> strip_any white_space (b :: l) = None.
Proof. by destruct b. Qed.

Lemma strip_any_rev_hexdigit b l :
  is_ascii_hexdigit b = true -> strip_any (map (@rev byte) white_space) (b :: l) = None.
Proof. by destruct b. Qed.

Lemma strip_all_hexdigit n ps b l : strip_any ps (b :: l) = None -> strip_all n ps (b :: l) = b :: l.
Proof. intros H. destruct n; simpl; [done|]. by rewrite H. Qed.

Lemma trim_start_digits s l :
  s <> [] -> Forall (fun b => is_ascii_hexdigit b = true) s -> trim_start (s ++ l) = s ++ l.
Proof.
  intros Hne Hs. destruct Hs as [|b s Hb Hs]; [done|]. simpl.
  apply strip_all_hexdigit. by apply strip_any_hexdigit.
Qed.

(** A line of digits, with or without its newline. *)
Lemma trim_digits s :
  s <> [] -> Forall (fun b => is_ascii_hexdigit b = true) s -> trim s = s.
Proof.
  intros Hne Hs. unfold trim. rewrite <- (app_nil_r s) at 1. rewrite trim_start_digits by done.
  rewrite app_nil_r. unfold trim_end. apply Forall_rev in Hs.
  destruct (rev s) as [|b r] eqn:Hr.
  { apply (f_equal (@rev byte)) in Hr. by rewrite rev_involutive in Hr. }
  inversion Hs; subst. rewrite strip_all_hexdigit by by apply strip_any_rev_hexdigit.
  by rewrite <- Hr, rev_involutive.
Qed.

Lemma trim_line s :
  s <> [] -> Forall (fun b => is_ascii_hexdigit b = true) s -> trim (s ++ [x0a]) = s.
Proof.
  intros Hne Hs. unfold trim. rewrite trim_start_digits by done. unfold trim_end.
  rewrite rev_app_distr, length_app. simpl (length [x0a]). rewrite Nat.add_1_r.
  change (strip_all (S (length s)) (map (@rev byte) white_space) (rev [x0a] ++ rev s))
    with (strip_all (length s) (map (@rev byte) white_space) (rev s)).
  pose proof (trim_digits s Hne Hs) as Ht. unfold trim in Ht.
  rewrite <- (app_nil_r s) in Ht at 1. rewrite trim_start_digits, app_nil_r in Ht by done. exact Ht.
Qed.

(** ASCII is UTF-8. *)
Lemma utf8_ascii l n :
  Forall (fun b => in_range 0 127 b = true) l -> (length l <= n)%nat -> utf8_fuel n l = true.
Proof.
  intros Hl. revert n. induction Hl as [|b l Hb Hl IH]; intros n Hn; [by destruct n|].
  destruct n as [|n]; simpl in Hn; [lia|]. cbn [utf8_fuel utf8_char]. rewrite Hb.
  apply IH. lia.
Qed.

Lemma from_utf8_ascii l : Forall (fun b => in_range 0 127 b = true) l -> from_utf8 l = Some l.
Proof. intros Hl. unfold from_utf8. by rewrite utf8_ascii. Qed.

Lemma hexdigit_ascii b : is_ascii_hexdigit b = true -> in_range 0 127 b = true.
Proof. by destruct b. Qed.

(** ** The usual codec *)
Module Base16.
Definition digit (z : Z) : byte := byte_of_Z (if z <? 10 then 48 + z else 87 + z).

Definition value (b : byte) : option Z :=
  let z := byte_to_Z b in
  if in_range 48 57 b then Some (z - 48)
  else if in_range 65 70 b then Some (z - 55)
  else if in_range 97 102 b then Some (z - 87)
  else None.

Fixpoint encode (l : list byte) : str :=
  match l with
  | [] => []
  | b :: l => digit (byte_to_Z b / 16) :: digit (byte_to_Z b mod 16) :: encode l
  end.

Fixpoint decode (s : str) : option (list byte) :=
  match s with
  | [] => Some []
  | [_] => None
  | a :: b :: s =>
      x ← value a; y ← value b; l ← decode s; Some (byte_of_Z (16 * x + y) :: l)
  end.

Definition hex : Hex := {| hex_encode := encode; hex_decode := decode |}.
End Base16.

Lemma base16_value_digit b z : Base16.value b = Some z -> is_ascii_hexdigit b = true.
Proof. by destruct b. Qed.

Lemma base16_byte b :
  Base16.value (Base16.digit (byte_to_Z b / 16)) = Some (byte_to_Z b / 16) /\
  Base16.value (Base16.digit (byte_to_Z b mod 16)) = Some (byte_to_Z b mod 16) /\
  byte_of_Z (16 * (byte_to_Z b / 16) + byte_to_Z b mod 16) = b.
Proof. by destruct b. Qed.

Lemma base16_decode_inv n s l :
  (length s <= n)%nat -> Base16.decode s = Some l ->
  Forall (fun b => is_ascii_hexdigit b = true) s /\ length s = (2 * length l)%nat.
Proof.
  revert s l. induction n as [|n IH]; intros [|a [|b s]] l Hn; simpl in *; try lia; try done.
  1,2: by intros [= <-].
  intros (x & Hx & (y & Hy & (l' & Hl & [= <-])%bind_Some)%bind_Some)%bind_Some.
  destruct (IH s l') as [Hf Hlen]; [lia|done|].
  split; [|simpl; lia]. by repeat constructor; [eapply base16_value_digit..|].
Qed.

Lemma base16_laws : @HexLaws Base16.hex.
Proof.
  assert (forall l, Base16.decode (Base16.encode l) = Some l) as Hrt.
  { induction l as [|b l IH]; [done|]. cbn [Base16.encode Base16.decode].
    destruct (base16_byte b) as (-> & -> & Hb). simpl. rewrite IH. simpl. by rewrite Hb. }
  split; simpl.
  - exact Hrt.
  - intros l. by eapply base16_decode_inv.
  - intros l. by eapply base16_decode_inv.
Qed.
