(* ===== verification/Net.v ===== *)
(** * Addresses in text form

    [str::parse] for [IpAddr] and [SocketAddr], as the Standard Library of
    Rust reads them: the command line, the directory and the gossip seeds give
    addresses in this form. *)

From S2P Require Import Prelude Text.
From S2P Require RateLimit.

Definition SocketAddr : Type := RateLimit.IpAddr * Z.

(** A parser consumes a prefix of the text. *)
Definition parser (A : Type) : Type := str -> option (A * str).

Definition read_given_char (c : byte) : parser unit := fun s =>
  match s with b :: s => if decide (b = c) then Some (tt, s) else None | [] => None end.

Definition to_digit (radix : Z) (b : byte) : option Z :=
  d ← (let z := byte_to_Z b in
       if in_range 48 57 b then Some (z - 48)
       else if in_range 97 122 b then Some (z - 87)
       else if in_range 65 90 b then Some (z - 55)
       else None);
  if d <? radix then Some d else None.

(** The digits at the front, with the value so far and their number; [None]
    when the value leaves the type or there are too many digits. *)
Fixpoint read_digits (radix max_value : Z) (max_digits : option nat) (acc : Z) (count : nat) (s : str)
    : option (Z * nat * str) :=
  match s with
  | [] => Some (acc, count, [])
  | b :: s' =>
      match to_digit radix b with
      | None => Some (acc, count, s)
      | Some d =>
          let acc := acc * radix + d in
          let count := S count in
          if (max_value <? acc) || match max_digits with Some m => (m <? count)%nat | None => false end
          then None
          else read_digits radix max_value max_digits acc count s'
      end
  end.

Definition read_number (radix max_value : Z) (max_digits : option nat) (allow_zero_prefix : bool)
    : parser Z := fun s =>
  '(n, count, rest) ← read_digits radix max_value max_digits 0 0 s;
  let leading_zero := bool_decide (head s = Some x30) in
  if (count =? 0)%nat then None
  else if negb allow_zero_prefix && leading_zero && (1 <? count)%nat then None
  else Some (n, rest).

(** An element that, except for the first, follows a separator. *)
Definition read_separator {A} (sep : byte) (index : nat) (p : parser A) : parser A := fun s =>
  if (index =? 0)%nat then p s else '(_, s) ← read_given_char sep s; p s.

Fixpoint read_octets (n index : nat) (acc : Z) : parser Z := fun s =>
  match n with
  | O => Some (acc, s)
  | S n =>
      '(o, s) ← read_separator x2e index (read_number 10 u8_max (Some 3%nat) false) s;
      read_octets n (S index) (acc * 256 + o) s
  end.

Definition read_ipv4_addr : parser Z := read_octets 4 0 0.

(** Up to [n] groups of an IPv6 address from group [i] on, the last two
    possibly an IPv4 address; and whether they were. *)
Fixpoint read_groups (n i : nat) (s : str) : list Z * bool * str :=
  match n with
  | O => ([], false, s)
  | S n' =>
      let v4 := if (0 <? n')%nat then read_separator x3a i read_ipv4_addr s else None in
      match v4 with
      | Some (a, s) => ([a / 65536; a mod 65536], true, s)
      | None =>
          match read_separator x3a i (read_number 16 u16_max (Some 4%nat) true) s with
          | Some (g, s) => let '(gs, v4, s) := read_groups n' (S i) s in (g :: gs, v4, s)
          | None => ([], false, s)
          end
      end
  end.

Definition bits_of (groups : list Z) : Z := foldl (fun acc g => acc * 65536 + g) 0 groups.

Definition read_ipv6_addr : parser Z := fun s =>
  let '(front, front_v4, s) := read_groups 8 0 s in
  if (length front =? 8)%nat then Some (bits_of front, s)
  else if front_v4 then None
  else
    '(_, s) ← read_given_char x3a s;
    '(_, s) ← read_given_char x3a s;
    let '(back, _, s) := read_groups (8 - (length front + 1)) 0 s in
    let zeros := repeat 0 (8 - length front - length back) in
    Some (bits_of (front ++ zeros ++ back), s).

Definition read_ip_addr : parser RateLimit.IpAddr := fun s =>
  match read_ipv4_addr s with
  | Some (a, s) => Some (RateLimit.V4 a, s)
  | None => '(a, s) ← read_ipv6_addr s; Some (RateLimit.V6 a, s)
  end.

Definition read_port : parser Z := fun s =>
  '(_, s) ← read_given_char x3a s; read_number 10 u16_max None true s.

Definition read_socket_addr_v4 : parser SocketAddr := fun s =>
  '(a, s) ← read_ipv4_addr s; '(p, s) ← read_port s; Some ((RateLimit.V4 a, p), s).

(** The scope identifier is read and left out of the model. *)
Definition read_scope_id : parser unit := fun s =>
  '(_, s) ← read_given_char x25 s; '(_, s) ← read_number 10 u32_max None true s; Some (tt, s).

Definition read_socket_addr_v6 : parser SocketAddr := fun s =>
  '(_, s) ← read_given_char x5b s;
  '(a, s) ← read_ipv6_addr s;
  let s := match read_scope_id s with Some (_, s) => s | None => s end in
  '(_, s) ← read_given_char x5d s;
  '(p, s) ← read_port s;
  Some ((RateLimit.V6 a, p), s).

Definition read_socket_addr : parser SocketAddr := fun s =>
  match read_socket_addr_v4 s with Some r => Some r | None => read_socket_addr_v6 s end.

(** The whole text must be consumed. *)
Definition parse_with {A} (p : parser A) (s : str) : option A :=
  match p s with Some (a, []) => Some a | _ => None end.

Definition parse_ip (s : str) : option RateLimit.IpAddr := parse_with read_ip_addr s.
Definition parse_socket (s : str) : option SocketAddr := parse_with read_socket_addr s.

Example parse_sockets :
  map parse_socket [lit "203.0.113.7:443"; lit "[::1]:9001"; lit "[2001:db8::10.0.0.1]:80";
                    lit "1.2.3:4"; lit "01.2.3.4:5"; lit "1.2.3.4:65536"; lit "example.org:80"] =
  [Some (RateLimit.V4 3405803783, 443); Some (RateLimit.V6 1, 9001);
   Some (RateLimit.V6 (0x20010db8 * 2 ^ 96 + 0x0a000001), 80); None; None; None; None].
Proof. vm_compute. reflexivity. Qed.

Example parse_ips :
  map parse_ip [lit "::"; lit "0.0.0.0"; lit "fe80::1"; lit "1:2:3:4:5:6:7:8"; lit "localhost"; lit "1::2::3"] =
  [Some (RateLimit.V6 0); Some (RateLimit.V4 0); Some (RateLimit.V6 (0xfe80 * 2 ^ 112 + 1));
   Some (RateLimit.V6 0x00010002000300040005000600070008); None; None].
Proof. vm_compute. reflexivity. Qed.
