(* ===== verification/Gotham.v ===== *)
(** * The packet format of [crypto_gotham]

    The relay is a client of the [crypto_gotham] and [x25519_dalek] crates: the
    packet header, its per-hop key schedule and MAC, and the wide-block cipher
    of the payload.  Their code is not part of the repository, so they are an
    interface here: the class [Gotham] lists the operations the relay calls
    and [GothamLaws] the behaviour it relies on.  [ToyGotham] is a small
    executable instance with the same shape (no secrecy is claimed for it), so
    that the theorems proved against the interface can be run. *)

From S2P Require Import Prelude.

(** [crypto_gotham::header::RoutingRecord], as the sources build and read it. *)
Record RoutingRecord : Type := mkRecord {
  next_ipv4 : list byte;
  next_port : Z;
  next_node_id : list byte;
  next_gamma : list byte;
  delay_micros : Z;
  flag : Z;
}.

#[global] Instance RoutingRecord_eq_dec : EqDecision RoutingRecord.
Proof. solve_decision. Defined.

Record SocketAddrV4 : Type := mkAddrV4 { ip : list byte; port : Z }.

#[global] Instance SocketAddrV4_eq_dec : EqDecision SocketAddrV4.
Proof. solve_decision. Defined.

Class Gotham := {
  PACKET_SIZE : nat;
  HEADER_LEN : nat;
  VERSION_LEGACY : Z;
  (** [crypto_gotham::Error]; the relay only distinguishes [BadMac]. *)
  GothamError : Type;
  is_bad_mac : GothamError -> bool;
  (** [crypto_gotham::header] *)
  Header : Type;
  SubKeys : Type;
  header_decode : list byte -> result GothamError Header;
  header_encode : Header -> list byte;
  version : Header -> Z;
  alpha : Header -> list byte;
  gamma : Header -> list byte;
  derive_hop_subkeys : list byte -> result GothamError SubKeys;
  k_payload : SubKeys -> list byte;
  unwrap_header : Header -> SubKeys -> result GothamError (RoutingRecord * Header);
  is_last_hop : RoutingRecord -> bool;
  is_via_rendezvous : RoutingRecord -> bool;
  (** [crypto_gotham::lioness] *)
  lioness_encrypt : list byte -> list byte -> list byte;
  lioness_decrypt : list byte -> list byte -> list byte;
  (** [x25519_dalek] *)
  x25519 : list byte -> list byte -> list byte;
  public_key : list byte -> list byte;
}.

Class GothamLaws `{!Gotham} : Prop := {
  header_fits : (HEADER_LEN <= PACKET_SIZE)%nat;
  packet_size_u32 : Z.of_nat PACKET_SIZE <= u32_max;
  header_encode_length : forall h, length (header_encode h) = HEADER_LEN;
  header_decode_encode : forall h, header_decode (header_encode h) = Ok h;
  lioness_decrypt_length : forall k p, length (lioness_decrypt k p) = length p;
  lioness_encrypt_length : forall k p, length (lioness_encrypt k p) = length p;
  lioness_decrypt_encrypt : forall k p, lioness_decrypt k (lioness_encrypt k p) = p;
  (** Both ends of a Diffie-Hellman exchange get the same secret. *)
  x25519_commutes : forall a b, length a = 32%nat -> length b = 32%nat ->
    x25519 a (public_key b) = x25519 b (public_key a);
  public_key_length : forall sk, length sk = 32%nat -> length (public_key sk) = 32%nat;
  (** The MAC is 16 bytes. *)
  gamma_length : forall h, length (gamma h) = 16%nat;
  (** [delay_micros] is a [u32]. *)
  unwrap_delay_u32 : forall h s rec h', unwrap_header h s = Ok (rec, h') ->
    0 <= delay_micros rec <= u32_max;
}.

(** ** Building packets

    The sender's half of [crypto_gotham::header]: the key schedule of a route
    and the layered header. *)
Class Route (R : Type) `{!Gotham} := {
  TRAILER_LEN : nat;
  flag_IS_LAST_HOP : Z;
  flag_VIA_RENDEZVOUS : Z;
  mode_LOW_LATENCY : Z;
  mode_BALANCED : Z;
  mode_PARANOID : Z;
  record_default : RoutingRecord;
  derive_route_secrets : R -> list (list byte) ->
    result GothamError (list (list byte) * list SubKeys) * R;
  wrap_header : R -> Z -> list (list byte) -> list SubKeys -> list RoutingRecord -> list byte ->
    result GothamError Header * R;
}.

(** A record as the hop reads it: wrapping fills in [next_gamma]. *)
Definition same_route (r r' : RoutingRecord) : Prop :=
  r' = mkRecord (next_ipv4 r) (next_port r) (next_node_id r) (next_gamma r')
         (delay_micros r) (flag r).

Lemma same_route_fields r r' :
  same_route r r' ->
  next_ipv4 r' = next_ipv4 r /\ next_port r' = next_port r /\ next_node_id r' = next_node_id r /\
  delay_micros r' = delay_micros r /\ flag r' = flag r.
Proof. intros ->. done. Qed.

(** Hop by hop, each key opens the header and reveals the next record. *)
Fixpoint peels `{!Gotham} (h : Header) (alphas : list (list byte)) (subs : list SubKeys)
    (recs : list RoutingRecord) : Prop :=
  match alphas, subs, recs with
  | [], [], [] => True
  | a :: alphas, s :: subs, r :: recs =>
      alpha h = a /\ version h <> VERSION_LEGACY /\
      exists r' h', unwrap_header h s = Ok (r', h') /\ same_route r r' /\ peels h' alphas subs recs
  | _, _, _ => False
  end.

Class RouteLaws (R : Type) `{!Gotham, !Route R} : Prop := {
  (** Sender and hop derive the same keys. *)
  route_secrets_agree : forall rng pks alphas subs rng',
    derive_route_secrets rng pks = (Ok (alphas, subs), rng') ->
    length alphas = length pks /\ length subs = length pks /\
    forall i sk a s, pks !! i = Some (public_key sk) -> alphas !! i = Some a ->
      subs !! i = Some s -> derive_hop_subkeys (x25519 sk a) = Ok s;
  wrap_header_peels : forall rng m alphas subs recs trailer h rng',
    length alphas = length recs -> length subs = length recs ->
    wrap_header rng m alphas subs recs trailer = (Ok h, rng') -> peels h alphas subs recs;
  last_hop_flag : forall r, flag r = flag_IS_LAST_HOP -> is_last_hop r = true;
  default_flag : forall r, flag r = flag record_default ->
    is_last_hop r = false /\ is_via_rendezvous r = false;
  rendezvous_flag : forall r, flag r = flag_VIA_RENDEZVOUS ->
    is_last_hop r = false /\ is_via_rendezvous r = true;
}.

(** ** An executable instance

    The header is a version, an ephemeral byte, a 16-byte MAC and five record
    slots; opening it checks the MAC and shifts the slots. *)
Module Toy.
Definition SLOT : nat := 59.
Definition HLEN : nat := 18 + 5 * SLOT.
Definition PLEN : nat := HLEN + 96.

Definition zeros (n : nat) : list byte := repeat x00 n.

Inductive error : Type := EMac | EFormat.

Definition header : Type := dsig (fun l : list byte => length l = HLEN).

Definition xor_bytes (l : list byte) : Z := foldr (fun b a => Z.lxor (byte_to_Z b) a) 0 l.
Definition sum_bytes (l : list byte) : Z := foldr (fun b a => byte_to_Z b + a) 0 l.

Definition decode (l : list byte) : result error header :=
  match decide (length l = HLEN) with
  | left H => Ok (dexist l H)
  | right _ => Err EFormat
  end.

Definition mac (key slots : list byte) : list byte :=
  to_be_bytes 8 (sum_bytes key * 251 + sum_bytes slots) ++
  to_be_bytes 8 (Z.lxor (xor_bytes key) (xor_bytes slots)).

Definition encode_record (r : RoutingRecord) : list byte :=
  next_ipv4 r ++ to_be_bytes 2 (next_port r) ++ next_node_id r ++ next_gamma r ++
  to_be_bytes 4 (delay_micros r) ++ to_be_bytes 1 (flag r).

Definition decode_record (l : list byte) : RoutingRecord :=
  mkRecord (take 4 l) (from_be_bytes (take 2 (drop 4 l))) (take 32 (drop 6 l))
    (take 16 (drop 38 l)) (from_be_bytes (take 4 (drop 54 l))) (from_be_bytes (take 1 (drop 58 l))).

Definition mk (v : byte) (a gam slots : list byte) : result error header :=
  decode (v :: a ++ gam ++ slots).

Definition h_alpha (h : header) : list byte := take 1 (drop 1 (`h)).
Definition h_gamma (h : header) : list byte := take 16 (drop 2 (`h)).
Definition h_slots (h : header) : list byte := drop 18 (`h).

Definition next_alpha (a : list byte) : list byte := to_be_bytes 1 (from_be_bytes a + 1).

Definition unwrap (h : header) (key : list byte) : result error (RoutingRecord * header) :=
  if decide (h_gamma h = mac key (h_slots h)) then
    let rec := decode_record (h_slots h) in
    next ← mk (hd x00 (`h)) (next_alpha (h_alpha h)) (next_gamma rec)
             (drop SLOT (h_slots h) ++ zeros SLOT);
    Ok (rec, next)
  else Err EMac.

Definition shift_bytes (k : Z) (l : list byte) : list byte :=
  map (fun b => byte_of_Z (byte_to_Z b + k)) l.

(** A one-byte ephemeral key is mixed with the public key of the hop. *)
Definition dh (sk a : list byte) : list byte :=
  match a with
  | [_] => shift_bytes 1 sk ++ a
  | _ => zip_with (fun x y => byte_of_Z (byte_to_Z x + byte_to_Z y)) (shift_bytes 1 sk) a
  end.

Definition gotham : Gotham := {|
  PACKET_SIZE := PLEN;
  HEADER_LEN := HLEN;
  VERSION_LEGACY := 2;
  GothamError := error;
  is_bad_mac := fun e => match e with EMac => true | EFormat => false end;
  Header := header;
  SubKeys := list byte;
  header_decode := decode;
  header_encode := fun h => `h;
  version := fun h => byte_to_Z (hd x00 (`h));
  alpha := h_alpha;
  gamma := h_gamma;
  derive_hop_subkeys := Ok;
  k_payload := fun k => k;
  unwrap_header := unwrap;
  is_last_hop := fun r => Z.testbit (flag r) 0;
  is_via_rendezvous := fun r => Z.testbit (flag r) 1;
  lioness_encrypt := fun k => shift_bytes (sum_bytes k);
  lioness_decrypt := fun k => shift_bytes (- sum_bytes k);
  x25519 := dh;
  public_key := shift_bytes 1;
|}.

(** One layer per hop, innermost first. *)
Fixpoint wrap (alphas : list (list byte)) (subs : list (list byte)) (recs : list RoutingRecord)
  : result error (list byte * list byte * list byte) :=
  match alphas, subs, recs with
  | [a], [s], [r] =>
      let slots := encode_record r ++ zeros (4 * SLOT) in Ok (a, mac s slots, slots)
  | a :: alphas, s :: subs, r :: recs =>
      '(_, g, inner) ← wrap alphas subs recs;
      let slots := encode_record (mkRecord (next_ipv4 r) (next_port r) (next_node_id r) g
                                    (delay_micros r) (flag r)) ++ take (4 * SLOT) inner in
      Ok (a, mac s slots, slots)
  | _, _, _ => Err EFormat
  end.

Definition alphas_of (n : nat) : list (list byte) := map (fun i => [byte_of_Z (Z.of_nat i)]) (seq 0 n).

Definition derive (pks : list (list byte)) : result error (list (list byte) * list (list byte)) :=
  Ok (alphas_of (length pks), zip_with app pks (alphas_of (length pks))).

(** Every field fits its place in a slot. *)
Definition wf_record (r : RoutingRecord) : bool :=
  (length (next_ipv4 r) =? 4)%nat && (length (next_node_id r) =? 32)%nat &&
  (length (next_gamma r) =? 16)%nat && (0 <=? next_port r) && (next_port r <=? u16_max) &&
  (0 <=? delay_micros r) && (delay_micros r <=? u32_max) && (0 <=? flag r) && (flag r <=? u8_max).

Definition wrap_all (alphas subs : list (list byte)) (recs : list RoutingRecord)
  : result error header :=
  if bool_decide (length recs <= 5)%nat && bool_decide (alphas = alphas_of (length recs))
     && forallb wf_record recs then
    '(a, g, slots) ← wrap alphas subs recs; mk x03 a g slots
  else Err EFormat.

Definition route (R : Type) : @Route R gotham :=
  @Build_Route R gotham 0%nat 1 2 0 1 2
    (mkRecord (repeat x00 4) 0 (repeat x00 32) (repeat x00 16) 0 0)
    (fun rng pks => (derive pks, rng))
    (fun rng _ alphas subs recs _ => (wrap_all alphas subs recs, rng)).

(** A 32-byte key with a distinguishing first byte. *)
Definition sk (n : Z) : list byte := byte_of_Z n :: repeat x07 31.
End Toy.

Section toy_facts.
Import Toy.

Lemma shift_shift_bytes k l : shift_bytes (- k) (shift_bytes k l) = l.
Proof.
  unfold shift_bytes. rewrite map_map. induction l as [|b l IH]; simpl; [done|].
  f_equal; [|done]. rewrite byte_to_of_Z.
  rewrite <- (byte_of_to_Z b) at 2. unfold byte_of_Z. do 3 f_equal.
  rewrite Zplus_mod_idemp_l. f_equal. lia.
Qed.

Lemma toy_laws : @GothamLaws Toy.gotham.
Proof.
  split; simpl.
  - unfold PLEN. lia.
  - by vm_compute.
  - intros h. apply (proj2_dsig h).
  - intros h. unfold decode. pose proof (proj2_dsig h) as Hh.
    destruct (decide (length (`h) = HLEN)); [|done]. f_equal. by apply dsig_eq.
  - intros k p. apply length_map.
  - intros k p. apply length_map.
  - intros k p. apply shift_shift_bytes.
  - intros a b Ha Hb. unfold dh.
    assert (forall l, length l = 32%nat -> match shift_bytes 1 l with [_] => false | _ => true end = true)
      as H32 by (by intros [|? [|? ?]] ?).
    pose proof (H32 a Ha) as Ha'. pose proof (H32 b Hb) as Hb'.
    destruct (shift_bytes 1 a) as [|x [|? ?]], (shift_bytes 1 b) as [|y [|? ?]]; try done;
      (rewrite <- zip_with_flip; apply zip_with_ext; [|done..]; intros; simpl; f_equal; lia).
  - intros sk Hsk. unfold shift_bytes. by rewrite length_map.
  - intros h. pose proof (proj2_dsig h) as Hh. unfold h_gamma.
    rewrite length_take, length_drop, Hh. unfold HLEN. lia.
  - intros h s rec h'. unfold unwrap. case_decide; [|done].
    intros (h2 & _ & Heq)%result_bind_Ok. simplify_eq. simpl.
    set (l := take 4 _). pose proof (from_be_bytes_range l) as Hr.
    assert (2 ^ (8 * Z.of_nat (length l)) <= 2 ^ 32).
    { apply Z.pow_le_mono_r; [lia|]. unfold l. rewrite length_take. lia. }
    unfold u32_max. lia.
Qed.

(** *** The toy header really is layered *)
Lemma zeros_length n : length (zeros n) = n.
Proof. apply repeat_length. Qed.

Lemma take_zeros n m : (n <= m)%nat -> take n (zeros m) = zeros n.
Proof.
  intros Hn. unfold zeros. replace m with (n + (m - n))%nat by lia. rewrite repeat_app.
  apply take_app_length'. by rewrite repeat_length.
Qed.

Lemma drop_zeros n m : drop n (zeros m) = zeros (m - n).
Proof.
  unfold zeros. destruct (decide (n <= m)%nat) as [Hle|Hgt].
  - replace m with (n + (m - n))%nat at 1 by lia. rewrite repeat_app.
    apply drop_app_length'. by rewrite repeat_length.
  - rewrite drop_ge by (rewrite repeat_length; lia). by replace (m - n)%nat with 0%nat by lia.
Qed.

#[local] Opaque zeros.

Lemma encode_record_length r : wf_record r = true -> length (encode_record r) = SLOT.
Proof.
  unfold wf_record. rewrite !andb_true_iff, !Nat.eqb_eq. intros H. unfold encode_record.
  rewrite !length_app, !length_to_be_bytes. destruct_and!. unfold SLOT. lia.
Qed.

Lemma decode_encode_record r rest : wf_record r = true -> decode_record (encode_record r ++ rest) = r.
Proof.
  unfold wf_record. rewrite !andb_true_iff, !Nat.eqb_eq, !Z.leb_le. intros H. destruct_and!.
  destruct r as [ip po node gam del fl]. unfold decode_record, encode_record.
  cbn [next_ipv4 next_port next_node_id next_gamma delay_micros flag] in *.
  rewrite <- !app_assoc.
  set (F := to_be_bytes 1 fl ++ rest). set (E := to_be_bytes 4 del ++ F). set (D := gam ++ E).
  set (C := node ++ D). set (B := to_be_bytes 2 po ++ C).
  assert (drop 4 (ip ++ B) = B) as Hd4 by by apply drop_app_length'.
  assert (drop 6 (ip ++ B) = C) as Hd6
    by (change 6%nat with (4 + 2)%nat; rewrite <- drop_drop, Hd4; apply drop_app_length'; by rewrite length_to_be_bytes).
  assert (drop 38 (ip ++ B) = D) as Hd38
    by (change 38%nat with (6 + 32)%nat; rewrite <- drop_drop, Hd6; by apply drop_app_length').
  assert (drop 54 (ip ++ B) = E) as Hd54
    by (change 54%nat with (38 + 16)%nat; rewrite <- drop_drop, Hd38; by apply drop_app_length').
  assert (drop 58 (ip ++ B) = F) as Hd58
    by (change 58%nat with (54 + 4)%nat; rewrite <- drop_drop, Hd54; apply drop_app_length'; by rewrite length_to_be_bytes).
  rewrite Hd4, Hd6, Hd38, Hd54, Hd58. unfold B, C, D, E, F.
  rewrite !take_app_length' by (done || by rewrite length_to_be_bytes).
  unfold u16_max, u32_max, u8_max in *. rewrite !from_to_be_bytes by (simpl; lia). done.
Qed.

Lemma mac_length k sl : length (mac k sl) = 16%nat.
Proof. unfold mac. rewrite length_app, !length_to_be_bytes. done. Qed.

Lemma mk_parts v a g slots h :
  length a = 1%nat -> length g = 16%nat -> mk v a g slots = Ok h ->
  hd x00 (`h) = v /\ h_alpha h = a /\ h_gamma h = g /\ h_slots h = slots.
Proof.
  intros Ha Hg. unfold mk, decode. destruct (decide _) as [Hl|]; [|done]. intros [= <-].
  unfold h_alpha, h_gamma, h_slots. simpl. split; [done|].
  destruct a as [|b [|]]; simplify_eq/=. split; [done|].
  by rewrite drop_0, take_app_length', drop_app_length'.
Qed.

Lemma mk_Ok v a g slots :
  length a = 1%nat -> length g = 16%nat -> length slots = (5 * SLOT)%nat ->
  exists h, mk v a g slots = Ok h.
Proof.
  intros Ha Hg Hs. unfold mk, decode. destruct (decide _) as [Hl|Hl]; [eauto|]. destruct Hl.
  simpl. rewrite !length_app, Ha, Hg, Hs. unfold HLEN. lia.
Qed.

Lemma peels_step h alphas s subs r recs next :
  h_gamma h = mac s (h_slots h) -> hd x00 (`h) = x03 ->
  mk x03 (next_alpha (h_alpha h)) (next_gamma (decode_record (h_slots h)))
    (drop SLOT (h_slots h) ++ zeros SLOT) = Ok next ->
  same_route r (decode_record (h_slots h)) -> @peels gotham next alphas subs recs ->
  @peels gotham h (h_alpha h :: alphas) (s :: subs) (r :: recs).
Proof.
  intros Hg Hv Hn Hr Hp. split; [done|]. split.
  { simpl. by rewrite Hv. }
  exists (decode_record (h_slots h)), next. split; [|done].
  simpl. unfold unwrap. rewrite decide_True, Hv by done. by rewrite Hn.
Qed.

Definition alphas_from (k n : nat) : list (list byte) :=
  map (fun i => [byte_of_Z (Z.of_nat i)]) (seq k n).

Lemma next_alpha_byte k : next_alpha [byte_of_Z (Z.of_nat k)] = [byte_of_Z (Z.of_nat (S k))].
Proof.
  unfold next_alpha, from_be_bytes, to_be_bytes. cbn [from_be_bytes_acc].
  rewrite Z.mul_0_l, Z.add_0_l, byte_to_of_Z. simpl (8 * _). rewrite Z.shiftr_0_r.
  f_equal. unfold byte_of_Z. do 3 f_equal. rewrite Zplus_mod_idemp_l. f_equal. lia.
Qed.

(** The record of a hop, with the MAC of the next header filled in. *)
Definition with_gamma (r : RoutingRecord) (g : list byte) : RoutingRecord :=
  mkRecord (next_ipv4 r) (next_port r) (next_node_id r) g (delay_micros r) (flag r).

Lemma wf_with_gamma r g : wf_record r = true -> length g = 16%nat -> wf_record (with_gamma r g) = true.
Proof.
  intros Hr Hg. unfold wf_record, with_gamma in *. simpl.
  rewrite Hg. rewrite !andb_true_iff in *. tauto.
Qed.

Lemma wf_gamma r : wf_record r = true -> length (next_gamma r) = 16%nat.
Proof. unfold wf_record. rewrite !andb_true_iff, !Nat.eqb_eq. tauto. Qed.

Lemma layer_length r inner :
  wf_record r = true -> length inner = (5 * SLOT)%nat ->
  length (encode_record r ++ take (4 * SLOT) inner) = (5 * SLOT)%nat.
Proof.
  intros Hr Hil. rewrite length_app, encode_record_length, length_take, Hil by done. lia.
Qed.

(** One layer: opening it gives its record and the header inside. *)
Lemma layer_peels k s g r inner alphas subs recs h :
  wf_record (with_gamma r g) = true -> length inner = (5 * SLOT)%nat ->
  drop (4 * SLOT) inner = zeros SLOT ->
  (forall h', mk x03 [byte_of_Z (Z.of_nat (S k))] g inner = Ok h' ->
     @peels gotham h' alphas subs recs) ->
  let slots := encode_record (with_gamma r g) ++ take (4 * SLOT) inner in
  mk x03 [byte_of_Z (Z.of_nat k)] (mac s slots) slots = Ok h ->
  @peels gotham h ([byte_of_Z (Z.of_nat k)] :: alphas) (s :: subs) (r :: recs).
Proof.
  intros Hr Hil Hz Hnext slots Hh. pose proof (encode_record_length _ Hr) as Hel.
  apply mk_parts in Hh as (Hv & Ha & Hg & Hs); [|done|apply mac_length].
  assert (drop SLOT slots ++ zeros SLOT = inner) as Hshift.
  { unfold slots. rewrite drop_app_length' by done. by rewrite <- Hz, take_drop. }
  pose proof (wf_gamma _ Hr) as Hg16. simpl in Hg16.
  destruct (mk_Ok x03 [byte_of_Z (Z.of_nat (S k))] g inner) as [next Hn]; [done..|].
  rewrite <- Ha. eapply peels_step; [by rewrite Hs|done| | |by apply Hnext].
  - rewrite Ha, Hs, Hshift. unfold slots. rewrite decode_encode_record by done.
    by rewrite next_alpha_byte.
  - rewrite Hs. unfold slots. rewrite decode_encode_record by done. done.
Qed.

(** [wrap] on at least two hops. *)
Lemma wrap_cons a alphas s subs r r2 recs :
  wrap (a :: alphas) (s :: subs) (r :: r2 :: recs) =
  '(_, g, inner) ← wrap alphas subs (r2 :: recs);
  let slots := encode_record (with_gamma r g) ++ take (4 * SLOT) inner in
  Ok (a, mac s slots, slots).
Proof. destruct alphas, subs; done. Qed.

(** What [wrap] builds for the hops from the [k]-th on. *)
Lemma wrap_spec recs k subs a g slots :
  (length recs <= 5)%nat -> forallb wf_record recs = true ->
  wrap (alphas_from k (length recs)) subs recs = Ok (a, g, slots) ->
  a = [byte_of_Z (Z.of_nat k)] /\ length slots = (5 * SLOT)%nat /\ length g = 16%nat /\
  drop (length recs * SLOT) slots = zeros ((5 - length recs) * SLOT) /\
  forall h, mk x03 a g slots = Ok h -> @peels gotham h (alphas_from k (length recs)) subs recs.
Proof.
  revert k subs a g slots. induction recs as [|r recs IH]; intros k subs a g slots Hlen Hwf.
  { by destruct subs. }
  simpl in Hwf. apply andb_true_iff in Hwf as [Hr Hwf].
  destruct recs as [|r2 recs].
  - destruct subs as [|s [|]]; [done| |done]. intros [= <- <- <-].
    change 236%nat with (4 * SLOT)%nat.
    assert (with_gamma r (next_gamma r) = r) as Hwg by by destruct r.
    assert (encode_record r ++ zeros (4 * SLOT) =
            encode_record (with_gamma r (next_gamma r)) ++ take (4 * SLOT) (zeros (5 * SLOT)))
      as Heq by (rewrite Hwg, take_zeros; [done|lia]).
    split; [done|]. split.
    { rewrite Heq, Hwg. apply layer_length; [done|apply zeros_length]. }
    split; [apply mac_length|]. split.
    { rewrite drop_app_length'; [done|]. by rewrite encode_record_length. }
    rewrite Heq. intros h. apply (layer_peels k s (next_gamma r) r (zeros (5 * SLOT)) [] [] []);
      rewrite ?Hwg; done.
  - change (alphas_from k (length (r :: r2 :: recs))) with
      ([byte_of_Z (Z.of_nat k)] :: alphas_from (S k) (length (r2 :: recs))).
    destruct subs as [|s subs]; [done|]. rewrite wrap_cons.
    intros ([[a1 g1] inner] & Hw & Heq)%result_bind_Ok. cbv zeta in Heq.
    simplify_eq. set (tl := r2 :: recs) in *.
    assert (length tl <= 4)%nat as H4 by (simpl in *; lia).
    destruct (IH (S k) subs a1 g1 inner) as (-> & Hil & Hgl & Hz & Hp); [simpl in *; lia|done|done|].
    assert (drop (4 * SLOT) inner = zeros SLOT) as Hz4.
    { replace (4 * SLOT)%nat with (length tl * SLOT + (4 - length tl) * SLOT)%nat
        by (unfold SLOT; lia).
      rewrite <- drop_drop, Hz, drop_zeros. f_equal. unfold SLOT. lia. }
    pose proof (layer_peels k s g1 r inner (alphas_from (S k) (length tl)) subs tl) as Hlay.
    assert (wf_record (with_gamma r g1) = true) as Hrg by by apply wf_with_gamma.
    split; [done|]. split.
    { by apply layer_length. }
    split; [apply mac_length|]. split.
    { pose proof (encode_record_length _ Hrg) as Hel.
      replace (length (r :: tl) * SLOT)%nat with (SLOT + length tl * SLOT)%nat by (simpl; lia).
      rewrite <- drop_drop, drop_app_length' by done.
      replace 236%nat with (length tl * SLOT + (4 - length tl) * SLOT)%nat
        by (unfold SLOT; lia).
      rewrite <- take_drop_commute, Hz. rewrite take_zeros; [|unfold SLOT; lia].
      done. }
    intros h Hh. by apply (Hlay h Hrg Hil Hz4).
Qed.

Lemma toy_route_laws R : @RouteLaws R Toy.gotham (Toy.route R).
Proof.
  split.
  - intros rng pks alphas subs rng'. simpl. intros [= <- <- _].
    assert (length (alphas_of (length pks)) = length pks) as Hal
      by (unfold alphas_of; by rewrite length_map, length_seq).
    split; [done|]. split; [rewrite length_zip_with, Hal; lia|].
    intros i sk0 a s Hpk Ha Hs. simpl in *.
    rewrite lookup_zip_with, Hpk, Ha in Hs. simplify_eq/=.
    apply list_lookup_fmap_Some in Ha as (j & -> & _). done.
  - intros rng m alphas subs recs trailer h rng' Ha Hs. simpl. unfold wrap_all.
    destruct (_ && _) eqn:Hok; [|done]. intros [= Hw _].
    rewrite !andb_true_iff, !bool_decide_eq_true in Hok. destruct Hok as [[Hl ->] Hwf].
    apply result_bind_Ok in Hw as ([[a g] slots] & Hw & Hmk).
    change (alphas_of (length recs)) with (alphas_from 0 (length recs)) in *.
    destruct (wrap_spec recs 0 subs a g slots Hl Hwf Hw) as (_ & _ & _ & _ & Hp). by apply Hp.
  - intros r Hr. simpl in *. by rewrite Hr.
  - intros r Hr. simpl in *. by rewrite Hr.
  - intros r Hr. simpl in *. by rewrite Hr.
Qed.
End toy_facts.
