(* ===== verification/Process.v ===== *)
(** * Packet processing ([process.rs])

    [Relay] is the state behind the listener: the long-term key, the replay
    cache, the rate limiter and the delay scheduler.  [Relay::process] decides
    what happens to one packet.  The model follows its early returns in order;
    the two readings of the monotonic clock it makes are arguments. *)

From S2P Require Import Prelude F64 Rand Gotham Fs.
From S2P Require Delay RateLimit Replay ReplayPersist.

Inductive DropReason : Type :=
| BadMac
| Replay
| Malformed
| PolicyDenied
| RateLimited.

#[global] Instance DropReason_eq_dec : EqDecision DropReason.
Proof. solve_decision. Defined.

Inductive ProcessOutcome : Type :=
| Drop (reason : DropReason)
| Forward (next_addr : SocketAddrV4) (next_node_id : list byte) (delay : Z)
    (via_rendezvous : bool) (packet : list byte)
| DeliverLocal (delay : Z) (payload : list byte).

Definition is_drop (o : ProcessOutcome) : bool :=
  match o with Drop _ => true | _ => false end.

Record Relay : Type := mkRelay {
  replay_cache : Replay.ReplayCache;
  scheduler : Delay.PoissonScheduler;
  rate_limiter : RateLimit.RateLimiter;
  accept_header_v2 : bool;
  v2_accepted : Z;
  replay_path : option string;
  identity_sk : list byte;
}.

(** [Relay::new]; [t1] and [t2] are the clock readings of the rate limiter. *)
Definition new (sk : list byte) (replay_max_size : nat) (replay_ttl mean_delay_micros t1 t2 : Z)
  : Relay :=
  mkRelay (Replay.new replay_max_size replay_ttl) (Delay.new mean_delay_micros)
    (RateLimit.unlimited t1 t2) true 0 None sk.

Definition with_cache (r : Relay) (c : Replay.ReplayCache) : Relay :=
  mkRelay c (scheduler r) (rate_limiter r) (accept_header_v2 r) (v2_accepted r)
    (replay_path r) (identity_sk r).

Definition with_limiter (r : Relay) (l : RateLimit.RateLimiter) : Relay :=
  mkRelay (replay_cache r) (scheduler r) l (accept_header_v2 r) (v2_accepted r)
    (replay_path r) (identity_sk r).

Definition with_v2_accepted (r : Relay) (n : Z) : Relay :=
  mkRelay (replay_cache r) (scheduler r) (rate_limiter r) (accept_header_v2 r) n
    (replay_path r) (identity_sk r).

Definition strict_header_v3 (r : Relay) : Relay :=
  mkRelay (replay_cache r) (scheduler r) (rate_limiter r) false (v2_accepted r)
    (replay_path r) (identity_sk r).

Definition with_rate_limit (r : Relay) (max_pps : f64) (max_bytes_per_day t1 t2 : Z) : Relay :=
  with_limiter r (RateLimit.new max_pps max_bytes_per_day t1 t2).

Definition replay_cache_len (r : Relay) : nat := Replay.len (replay_cache r).

Section persistence.
Context `{!Platform}.

(** [with_replay_persistence]: a cache that cannot be read is left empty. *)
Definition with_replay_persistence (fault : option io_error) (fs : gmap string file)
    (now now_unix : Z) (r : Relay) (path : string) : Relay :=
  let '(_, cache) := ReplayPersist.load fault fs (replay_cache r) path now now_unix in
  mkRelay cache (scheduler r) (rate_limiter r) (accept_header_v2 r) (v2_accepted r)
    (Some path) (identity_sk r).
End persistence.

Definition persists_replay (r : Relay) : bool := bool_decide (is_Some (replay_path r)).

Definition encode_replay (r : Relay) (now now_unix : Z) : option (list byte * string) :=
  path ← replay_path r;
  Some (ReplayPersist.encode (replay_cache r) now now_unix, path).

Definition persist_replay `{!Platform} (flt : ReplayPersist.write_faults) (fs : gmap string file) (r : Relay)
    (now now_unix : Z) : option (result io_error nat * gmap string file) :=
  path ← replay_path r;
  Some (ReplayPersist.save flt fs (replay_cache r) path now now_unix).

Definition MAX_HOP_DELAY : Z := from_secs 30.

Section process.
Context `{!Gotham} {R : Type} `{!Rng R, !Delay.Libm}.

Definition identity_public_key (r : Relay) : list byte := public_key (identity_sk r).

(** The guard on legacy headers: [None] when the packet is refused. *)
Definition admit_version (r : Relay) (h : Header) : option Relay :=
  if version h =? VERSION_LEGACY then
    if accept_header_v2 r then Some (with_v2_accepted r (u64_saturating_add (v2_accepted r) 1))
    else None
  else Some r.

(** The delay of a hop: the sender's, capped, or a draw of the scheduler's
    ([None] is its panic). *)
Definition hop_delay (r : Relay) (rec : RoutingRecord) (rng : R) : option Z * R :=
  if delay_micros rec =? 0 then Delay.next_delay (scheduler r) rng
  else (Some (Z.min (from_micros (delay_micros rec)) MAX_HOP_DELAY), rng).

(** What is done with an authentic, fresh packet. *)
Definition dispatch (r : Relay) (rec : RoutingRecord) (next : Header) (delay : Z)
    (payload : list byte) : ProcessOutcome :=
  if is_last_hop rec then DeliverLocal delay payload
  else
    let next_packet := header_encode next ++ payload in
    let next_addr := mkAddrV4 (next_ipv4 rec) (next_port rec) in
    if decide (next_node_id rec = identity_public_key r) then Drop PolicyDenied
    else Forward next_addr (next_node_id rec) delay (is_via_rendezvous rec) next_packet.

(** [Relay::process]; [t_rate] and [t_replay] are the clock readings of the
    rate limiter and of the replay cache.  The outcome is [None] when the
    call panics. *)
Definition process (r : Relay) (t_rate t_replay : Z) (rng : R) (packet_bytes : list byte)
  : option ProcessOutcome * Relay * R :=
  if negb (length packet_bytes =? PACKET_SIZE)%nat then (Some (Drop Malformed), r, rng) else
  let '(decision, limiter) := RateLimit.check_at (rate_limiter r) t_rate in
  let r := with_limiter r limiter in
  if negb (RateLimit.is_allowed decision) then (Some (Drop RateLimited), r, rng) else
  match header_decode (take HEADER_LEN packet_bytes) with
  | Err _ => (Some (Drop Malformed), r, rng)
  | Ok header =>
      match admit_version r header with
      | None => (Some (Drop Malformed), r, rng)
      | Some r =>
          let shared := x25519 (identity_sk r) (alpha header) in
          match derive_hop_subkeys shared with
          | Err _ => (Some (Drop Malformed), r, rng)
          | Ok sub_keys =>
              match unwrap_header header sub_keys with
              | Err e => (Some (Drop (if is_bad_mac e then BadMac else Malformed)), r, rng)
              | Ok (rec, next_header) =>
                  let '(seen, cache) :=
                    Replay.check_and_insert_at (replay_cache r) (gamma header) t_replay in
                  let r := with_cache r cache in
                  if decide (seen = Replay.Replay) then (Some (Drop Replay), r, rng) else
                  let '(delay, rng) := hop_delay r rec rng in
                  let payload :=
                    lioness_decrypt (k_payload sub_keys) (drop HEADER_LEN packet_bytes) in
                  ((fun d => dispatch r rec next_header d payload) <$> delay, r, rng)
              end
          end
      end
  end.
End process.

(** ** What the outcomes mean *)
Section outcomes.
Context `{!Gotham} {R : Type} `{!Rng R, !Delay.Libm}.
Implicit Types (r : Relay) (rng : R) (pkt : list byte).

(** The packet has the right size, a header of a version the relay serves,
    and a MAC that verifies under the relay's key. *)
Record authentic r pkt (h : Header) (sub : SubKeys) (rec : RoutingRecord) (next : Header)
  : Prop := Authentic {
  au_size : length pkt = PACKET_SIZE;
  au_header : header_decode (take HEADER_LEN pkt) = Ok h;
  au_version : version h = VERSION_LEGACY -> accept_header_v2 r = true;
  au_keys : derive_hop_subkeys (x25519 (identity_sk r) (alpha h)) = Ok sub;
  au_mac : unwrap_header h sub = Ok (rec, next);
}.

Definition outcome (res : option ProcessOutcome * Relay * R) : option ProcessOutcome := res.1.1.
Definition relay_after (res : option ProcessOutcome * Relay * R) : Relay := res.1.2.

(** The parts of the state that never change. *)
Definition same_config r r' : Prop :=
  scheduler r' = scheduler r /\ accept_header_v2 r' = accept_header_v2 r /\
  replay_path r' = replay_path r /\ identity_sk r' = identity_sk r.

Lemma admit_version_Some r h r' :
  admit_version r h = Some r' ->
  (version h = VERSION_LEGACY -> accept_header_v2 r = true) /\ same_config r r' /\
  replay_cache r' = replay_cache r.
Proof.
  unfold admit_version, same_config. destruct (Z.eqb_spec (version h) VERSION_LEGACY) as [|Hne].
  - destruct (accept_header_v2 r) eqn:E; intros [= <-]. simpl. by rewrite E.
  - by intros [= <-].
Qed.

Lemma admit_version_None r h :
  admit_version r h = None -> version h = VERSION_LEGACY /\ accept_header_v2 r = false.
Proof.
  unfold admit_version. destruct (Z.eqb_spec (version h) VERSION_LEGACY); [|done].
  by destruct (accept_header_v2 r).
Qed.

(** The case analysis every theorem starts from: either the packet is turned
    away before the replay cache is consulted, or it is authentic and the
    cache decides. *)
Lemma process_cases r t_rate t_replay rng pkt :
  let res := process r t_rate t_replay rng pkt in
  let allowed := RateLimit.is_allowed (RateLimit.check_at (rate_limiter r) t_rate).1 in
  same_config r (relay_after res) /\
  ((exists reason, outcome res = Some (Drop reason) /\
      replay_cache (relay_after res) = replay_cache r /\ res.2 = rng /\
      match reason with
      | Malformed => length pkt <> PACKET_SIZE \/ forall h sub rec next, ~ authentic r pkt h sub rec next
      | RateLimited => length pkt = PACKET_SIZE /\ allowed = false
      | BadMac => allowed = true /\ exists h sub e,
          header_decode (take HEADER_LEN pkt) = Ok h /\
          derive_hop_subkeys (x25519 (identity_sk r) (alpha h)) = Ok sub /\
          unwrap_header h sub = Err e /\ is_bad_mac e = true
      | _ => False
      end) \/
   (exists h sub rec next, authentic r pkt h sub rec next /\ allowed = true /\
      let '(seen, cache) := Replay.check_and_insert_at (replay_cache r) (gamma h) t_replay in
      replay_cache (relay_after res) = cache /\
      if decide (seen = Replay.Replay) then outcome res = Some (Drop Replay) /\ res.2 = rng
      else
        res.2 = (hop_delay r rec rng).2 /\
        outcome res = (fun d => dispatch r rec next d
          (lioness_decrypt (k_payload sub) (drop HEADER_LEN pkt))) <$> (hop_delay r rec rng).1)).
Proof.
  unfold process, outcome, relay_after. simpl.
  destruct (Nat.eqb_spec (length pkt) PACKET_SIZE) as [Hlen|Hlen]; simpl.
  2:{ split; [done|]. left. exists Malformed. auto. }
  destruct (RateLimit.check_at (rate_limiter r) t_rate) as [d lim] eqn:Hrl. simpl.
  destruct (RateLimit.is_allowed d) eqn:Hd; simpl.
  2:{ split; [done|]. left. exists RateLimited. auto. }
  destruct (header_decode (take HEADER_LEN pkt)) as [h|e] eqn:Hh; simpl.
  2:{ split; [done|]. left. exists Malformed. split_and!; try done. right.
      intros ???? []. congruence. }
  destruct (admit_version (with_limiter r lim) h) as [r2|] eqn:Hv; simpl.
  2:{ split; [done|]. left. exists Malformed. split_and!; try done. right.
      apply admit_version_None in Hv as [Hv1 Hv2]. simpl in Hv2.
      intros ???? [? Hh' Hv' ??]. rewrite Hh in Hh'. simplify_eq.
      specialize (Hv' Hv1). congruence. }
  apply admit_version_Some in Hv as (Hv & Hcfg & Hcache). simpl in Hv, Hcache.
  assert (same_config r r2) as Hcfg' by exact Hcfg. destruct Hcfg as (Hsch & Hv2 & Hp & Hsk).
  simpl in Hsch, Hv2, Hp, Hsk. rewrite Hsk.
  destruct (derive_hop_subkeys _) as [sub|e] eqn:Hsub; simpl.
  2:{ split; [done|]. left. exists Malformed. split_and!; try done. right.
      intros h' ??? [? Hh' ? Hs ?]. rewrite Hh in Hh'. simplify_eq. congruence. }
  destruct (unwrap_header h sub) as [[rec next]|e] eqn:Hu; simpl.
  2:{ split; [done|]. left. destruct (is_bad_mac e) eqn:Hm.
      - exists BadMac. split_and!; try done. exists h, sub, e. done.
      - exists Malformed. split_and!; try done. right.
        intros h' sub' ?? [? Hh' ? Hs Hun]. rewrite Hh in Hh'. simplify_eq. congruence. }
  rewrite Hcache. destruct (Replay.check_and_insert_at _ _ _) as [seen cache] eqn:Hc.
  destruct (decide (seen = Replay.Replay)) as [Hr|Hr]; simpl.
  - split; [done|]. right. exists h, sub, rec, next. split; [done|]. split; [done|].
    rewrite Hc. split; [done|]. by rewrite decide_True.
  - assert (hop_delay (with_cache r2 cache) rec rng = hop_delay r rec rng) as ->
      by (unfold hop_delay; simpl; by rewrite Hsch).
    destruct (hop_delay r rec rng) as [delay rng'] eqn:Hdel. simpl. split; [done|]. right.
    exists h, sub, rec, next. split; [done|]. split; [done|]. rewrite Hc.
    split; [done|]. rewrite decide_False by done. rewrite Hdel. split; [done|]. simpl.
    destruct delay as [d'|]; simpl; [|done]. f_equal. unfold dispatch, identity_public_key.
    simpl. by rewrite Hsk.
Qed.

(** An authentic packet that is neither throttled nor a replay is dispatched. *)
Lemma process_authentic r t_rate t_replay rng pkt h sub rec next :
  let res := process r t_rate t_replay rng pkt in
  authentic r pkt h sub rec next ->
  outcome res <> Some (Drop RateLimited) -> outcome res <> Some (Drop Replay) ->
  outcome res = (fun d => dispatch r rec next d
    (lioness_decrypt (k_payload sub) (drop HEADER_LEN pkt))) <$> (hop_delay r rec rng).1.
Proof.
  intros res Hau Hrl Hrep. pose proof Hau as [Hsz Hh Hv Hs Hm].
  destruct (process_cases r t_rate t_replay rng pkt)
    as [_ [(reason & Ho & _ & _ & Hwhy)|(h' & sub' & rec' & next' & Hau' & _ & Hc)]].
  - fold res in Ho. destruct reason; try done; [|by destruct Hwhy as [?|Hno]; [|destruct (Hno h sub rec next)]].
    destruct Hwhy as (_ & h' & sub' & e & ? & ? & Hu & _).
    assert (h' = h) as -> by congruence. assert (sub' = sub) as -> by congruence.
    by rewrite Hm in Hu.
  - destruct Hau' as [_ Hh' _ Hs' Hm'].
    destruct (Replay.check_and_insert_at _ _ _) as [seen cache]. destruct Hc as [_ Hc].
    assert (h' = h) as -> by congruence. assert (sub' = sub) as -> by congruence.
    rewrite Hm in Hm'. simplify_eq. case_decide; by destruct Hc.
Qed.
End outcomes.

(** ** Runs of a relay *)
Record input : Type := Input { i_rate : Z; i_replay : Z; i_packet : list byte }.

(** The readings of the monotonic clock at the replay cache, from [t] on. *)
Fixpoint clock (t : Z) (ins : list input) : Prop :=
  match ins with
  | [] => True
  | i :: ins => t <= i_replay i /\ clock (i_replay i) ins
  end.

Definition is_accepted (o : option ProcessOutcome) : bool :=
  match o with Some (Forward _ _ _ _ _) | Some (DeliverLocal _ _) => true | _ => false end.

Section runs.
Context `{!Gotham} {R : Type} `{!Rng R, !Delay.Libm}.
Implicit Types (r : Relay) (rng : R) (pkt : list byte).

Definition process_input r rng (i : input) : option ProcessOutcome * Relay * R :=
  process r (i_rate i) (i_replay i) rng (i_packet i).

Fixpoint run r rng (ins : list input) : list (option ProcessOutcome) * Relay * R :=
  match ins with
  | [] => ([], r, rng)
  | i :: ins =>
      let '(o, r, rng) := process_input r rng i in
      let '(os, r, rng) := run r rng ins in (o :: os, r, rng)
  end.

Lemma relay_run_app r rng ins1 ins2 :
  run r rng (ins1 ++ ins2) =
  let '(os1, r, rng) := run r rng ins1 in
  let '(os2, r, rng) := run r rng ins2 in (os1 ++ os2, r, rng).
Proof.
  revert r rng. induction ins1 as [|i ins1 IH]; intros r rng; simpl.
  { by destruct (run r rng ins2) as [[??]?]. }
  destruct (process_input r rng i) as [[o r1] rng1]. rewrite IH.
  destruct (run r1 rng1 ins1) as [[os1 r2] rng2]. by destruct (run r2 rng2 ins2) as [[??]?].
Qed.

Lemma clock_app t ins1 i ins2 :
  clock t (ins1 ++ i :: ins2) -> clock t (ins1 ++ [i]) /\ clock (i_replay i) ins2.
Proof.
  revert t. induction ins1 as [|j ins1 IH]; intros t; simpl; [tauto|].
  intros [Hj Hc]. apply IH in Hc as [? ?]. done.
Qed.

Lemma monotonic_weaken t t' tr : t <= t' -> Replay.monotonic t' tr -> Replay.monotonic t tr.
Proof. destruct tr as [|[k u] tr]; simpl; [done|]. intros ? [? ?]. split; [lia|done]. Qed.

(** A relay makes at most one call on its cache per packet, at the time it
    read the clock. *)
Lemma process_cache_call r rng i :
  let r' := relay_after (process_input r rng i) in
  replay_cache r' = replay_cache r \/
  exists k, replay_cache r' =
    snd (Replay.check_and_insert_at (replay_cache r) k (i_replay i)).
Proof.
  intros r'. unfold r', process_input.
  destruct (process_cases r (i_rate i) (i_replay i) rng (i_packet i))
    as [_ [(reason & _ & Hc & _)|(h & sub & rec & next & _ & _ & Hc)]]; [by left|right].
  exists (gamma h). destruct (Replay.check_and_insert_at _ _ _) as [seen cache].
  by destruct Hc as [-> _].
Qed.

Lemma run_cache_calls t r rng ins i :
  clock t (ins ++ [i]) ->
  exists tr, replay_cache (run r rng ins).1.2 = snd (Replay.run (replay_cache r) tr) /\
    (length tr <= length ins)%nat /\ forall k, Replay.monotonic t (tr ++ [(k, i_replay i)]).
Proof.
  revert t r rng. induction ins as [|j ins IH]; intros t r rng Hclk; simpl in *.
  { exists []. simpl. split_and!; [done|lia|]. intros. tauto. }
  destruct Hclk as [Hj Hclk]. pose proof (process_cache_call r rng j) as Hcall.
  unfold relay_after in Hcall.
  destruct (process_input r rng j) as [[o r1] rng1]. simpl in Hcall.
  destruct (IH (i_replay j) r1 rng1 Hclk) as (tr & Heq & Hlen & Hmono).
  destruct (run r1 rng1 ins) as [[os r2] rng2]. simpl in *.
  destruct Hcall as [Hc|[k Hc]].
  - exists tr. rewrite Heq, Hc. split_and!; [done|lia|]. intros k.
    eapply monotonic_weaken; [|apply Hmono]. done.
  - exists ((k, i_replay j) :: tr). rewrite Heq, Hc. simpl.
    destruct (Replay.check_and_insert_at _ _ _) as [s c]. simpl.
    destruct (Replay.run c tr). split_and!; [done|lia|]. intros k'. split; [done|apply Hmono].
Qed.

(** The cache is a faithful record of a history up to [t]. *)
Definition guarded (n : nat) (ttl t : Z) r : Prop :=
  exists t' h, t' <= t /\ Replay.sim t' h (replay_cache r) /\
    Replay.rc_ttl (replay_cache r) = ttl /\ Replay.capacity (replay_cache r) = Nat.max 1 n.

Lemma process_guarded n ttl t r rng i :
  guarded n ttl t r -> t <= i_replay i ->
  guarded n ttl (i_replay i) (relay_after (process_input r rng i)).
Proof.
  intros (t' & h & Ht & Hsim & Httl & Hcap) Hi.
  destruct (process_cache_call r rng i) as [Hc|[k Hc]]; unfold guarded; rewrite Hc.
  - exists t', h. split_and!; try done. lia.
  - pose proof (Replay.sim_step t' h _ k (i_replay i) Hsim ltac:(lia)) as Hst.
    destruct (Replay.check_and_insert_at _ _ _) as [s c], (Replay.Spec.check _ _ _ _ _) as [s' h'].
    destruct Hst as (_ & Hsim' & Ht' & Hcap'). exists (i_replay i), h'. simpl.
    split_and!; [lia|done|congruence|congruence].
Qed.

Lemma run_guarded n ttl t r rng ins i :
  guarded n ttl t r -> clock t (ins ++ [i]) ->
  guarded n ttl (i_replay i) (run r rng ins).1.2.
Proof.
  revert t r rng. induction ins as [|j ins IH]; intros t r rng Hg Hclk; simpl in *.
  { destruct Hg as (t' & h & ? & ?). exists t', h. split; [lia|done]. }
  destruct Hclk as [Hj Hclk]. pose proof (process_guarded n ttl t r rng j Hg Hj) as Hg1.
  unfold relay_after in Hg1. destruct (process_input r rng j) as [[o r1] rng1].
  specialize (IH (i_replay j) r1 rng1 Hg1 Hclk). by destruct (run r1 rng1 ins) as [[??]?].
Qed.

(** The MAC the header of a packet carries. *)
Definition packet_gamma pkt : option (list byte) :=
  gamma <$> result_ok (header_decode (take HEADER_LEN pkt)).

(** An accepted packet was authentic, allowed and fresh. *)
Lemma accepted_fresh r rng i :
  is_accepted (outcome (process_input r rng i)) = true ->
  exists k, packet_gamma (i_packet i) = Some k /\
    fst (Replay.check_and_insert_at (replay_cache r) k (i_replay i)) = Replay.Fresh /\
    replay_cache (relay_after (process_input r rng i)) =
      snd (Replay.check_and_insert_at (replay_cache r) k (i_replay i)).
Proof.
  unfold process_input. intros Hacc.
  destruct (process_cases r (i_rate i) (i_replay i) rng (i_packet i))
    as [_ [(reason & Ho & _)|(h & sub & rec & next & Hau & _ & Hc)]].
  { by rewrite Ho in Hacc. }
  exists (gamma h). unfold packet_gamma. rewrite (au_header _ _ _ _ _ _ Hau). split; [done|].
  destruct (Replay.check_and_insert_at _ _ _) as [seen cache]. destruct Hc as [Hc Ho].
  case_decide as Hs; [destruct Ho as [Ho _]; by rewrite Ho in Hacc|].
  split; [by destruct seen|done].
Qed.

(** A packet whose MAC the cache knows is dropped. *)
Lemma known_dropped r rng i k :
  packet_gamma (i_packet i) = Some k ->
  fst (Replay.check_and_insert_at (replay_cache r) k (i_replay i)) = Replay.Replay ->
  exists reason, outcome (process_input r rng i) = Some (Drop reason).
Proof.
  unfold process_input, packet_gamma. intros Hg Hk.
  destruct (process_cases r (i_rate i) (i_replay i) rng (i_packet i))
    as [_ [(reason & Ho & _)|(h & sub & rec & next & Hau & _ & Hc)]]; [eauto|].
  rewrite (au_header _ _ _ _ _ _ Hau) in Hg. simplify_eq/=.
  destruct (Replay.check_and_insert_at _ _ _) as [seen cache]. simpl in Hk. subst seen.
  destruct Hc as [_ Hc]. rewrite decide_True in Hc by done. destruct Hc. eauto.
Qed.
End runs.

(** A relay as the daemon starts it at time [t]: fresh, or with a cache read
    from disk, and with whatever rate limit and header policy. *)
Inductive booted `{!Platform} (sk : list byte) (n : nat) (ttl mean t : Z) : Relay -> Prop :=
| booted_new t1 t2 : booted sk n ttl mean t (new sk n ttl mean t1 t2)
| booted_persistent fault fs now_unix t1 t2 path :
    booted sk n ttl mean t
      (with_replay_persistence fault fs t now_unix (new sk n ttl mean t1 t2) path)
| booted_strict r : booted sk n ttl mean t r -> booted sk n ttl mean t (strict_header_v3 r)
| booted_limited r pps b t1 t2 :
    booted sk n ttl mean t r -> booted sk n ttl mean t (with_rate_limit r pps b t1 t2).

Lemma load_new_sim `{!Platform} fault fs n ttl path t u :
  0 <= ttl -> exists h c, ReplayPersist.load fault fs (Replay.new n ttl) path t u = c /\
    Replay.sim t h c.2 /\ Replay.rc_ttl c.2 = ttl /\ Replay.rc_max_size c.2 = n.
Proof.
  intros Httl. unfold ReplayPersist.load.
  destruct (read fault fs path) as [bytes|e]; [|case_decide; eauto 10 using Replay.sim_new].
  destruct (ReplayPersist.decode bytes) as [es|e]; [|eauto 10 using Replay.sim_new].
  pose proof (Replay.sim_restored n ttl es t u Httl) as Hsim.
  pose proof (Replay.restore_at_spec (Replay.new n ttl) es t u (Replay.wf_new n ttl)) as Hr.
  destruct (Replay.restore_at _ es t u) as [m c]. destruct Hr as (_ & _ & _ & Ht & Hm).
  do 2 eexists. split; [done|]. done.
Qed.

Lemma booted_guarded `{!Platform} sk n ttl mean t r :
  0 <= ttl -> booted sk n ttl mean t r ->
  guarded n ttl t r /\ identity_sk r = sk /\ scheduler r = Delay.new mean.
Proof.
  intros Httl. induction 1 as [t1 t2|fault fs u t1 t2 path|r _ IH|r pps b t1 t2 _ IH]; try done.
  - split; [|done]. exists t, []. split; [lia|]. split; [by apply Replay.sim_new|done].
  - unfold with_replay_persistence. simpl.
    destruct (load_new_sim fault fs n ttl path t u Httl) as (h & [res c] & -> & Hsim & Ht & Hm).
    split; [|done]. exists t, h. simpl in *. unfold Replay.capacity. rewrite Hm. done.
Qed.

(** ** Properties *)
Section properties.
Context `{!Gotham, !GothamLaws} {R : Type} `{!Rng R, !RngLaws R, !Delay.Libm, !Delay.LibmLaws}.
Implicit Types (r : Relay) (rng : R) (pkt : list byte).

(** A packet with a MAC the relay has accepted is dropped. *)
Lemma accepts_once `{!Platform} sk n ttl mean t r rng pre a mid b :
  booted sk n ttl mean t r -> 0 <= ttl -> clock t (pre ++ a :: mid ++ [b]) ->
  (length mid < Nat.max 1 n)%nat -> i_replay b - i_replay a <= ttl ->
  packet_gamma (i_packet b) = packet_gamma (i_packet a) ->
  let '(_, r1, rng1) := run r rng pre in
  let '(oa, r2, rng2) := process_input r1 rng1 a in
  let '(_, r3, rng3) := run r2 rng2 mid in
  is_accepted oa = true -> exists reason, outcome (process_input r3 rng3 b) = Some (Drop reason).
Proof.
  intros Hboot Httl Hclk Hmid Hage Hsame.
  destruct (booted_guarded _ _ _ _ _ _ Httl Hboot) as [Hg _].
  apply clock_app in Hclk as [Hpre Hmidb].
  pose proof (run_guarded n ttl t r rng pre a Hg Hpre) as Hg1.
  destruct (run r rng pre) as [[os1 r1] rng1]. simpl in Hg1.
  pose proof (accepted_fresh r1 rng1 a) as Hacc. unfold outcome, relay_after in Hacc.
  destruct (process_input r1 rng1 a) as [[oa r2] rng2]. simpl in Hacc.
  destruct (run_cache_calls (i_replay a) r2 rng2 mid b Hmidb) as (tr & Hc3 & Hlen & Hmono).
  destruct (run r2 rng2 mid) as [[os3 r3] rng3]. simpl in Hc3. intros Ha.
  destruct (Hacc Ha) as (k & Hk & Hfresh & Hc2).
  apply (known_dropped r3 rng3 b k); [congruence|]. rewrite Hc3, Hc2.
  destruct Hg1 as (t' & h & Ht' & Hsim & Htl & Hcap).
  eapply Replay.sim_protects; [done|done|done|apply Hmono|lia|lia].
Qed.

(** C2. No packet is accepted twice.  After a relay, started fresh or from
    its saved cache, has forwarded or delivered a packet, a packet with the
    same header MAC that arrives at most the TTL later, with fewer than
    [max 1 max_size] packets of any kind in between, is dropped. *)
Theorem no_packet_accepted_twice `{!Platform} sk n ttl mean t r rng pre a mid b :
  booted sk n ttl mean t r -> 0 <= ttl -> clock t (pre ++ a :: mid ++ [b]) ->
  (length mid < Nat.max 1 n)%nat -> i_replay b - i_replay a <= ttl ->
  packet_gamma (i_packet b) = packet_gamma (i_packet a) ->
  let '(_, r1, rng1) := run r rng pre in
  let '(oa, r2, rng2) := process_input r1 rng1 a in
  let '(_, r3, rng3) := run r2 rng2 mid in
  is_accepted oa = true -> exists reason, outcome (process_input r3 rng3 b) = Some (Drop reason).
Proof. apply accepts_once. Qed.

(** C18. Processing never panics: whatever the packet, the clock readings and
    the state of the limiter and the cache, the call returns an outcome. *)
Theorem process_never_panics r t_rate t_replay rng pkt mean :
  scheduler r = Delay.new mean -> is_u64 mean ->
  exists o, outcome (process r t_rate t_replay rng pkt) = Some o.
Proof.
  intros Hs Hm. destruct (process_cases r t_rate t_replay rng pkt)
    as [_ [(reason & Ho & _)|(h & sub & rec & next & _ & _ & Hc)]]; [eauto|].
  destruct (Replay.check_and_insert_at _ _ _) as [seen cache]. destruct Hc as [_ Hc].
  case_decide; [destruct Hc; eauto|]. destruct Hc as [_ ->]. unfold hop_delay. rewrite Hs.
  destruct (delay_micros rec =? 0); [|by eexists].
  destruct (Delay.next_delay_total mean rng Hm) as (d & rng' & -> & _). by eexists.
Qed.

(** A packet that does not authenticate leaves the replay cache alone,
    so forged traffic cannot evict or poison entries: unless the packet has
    a valid MAC under the relay's key, the cache is unchanged and the packet
    is dropped. *)
Theorem forgery_leaves_cache_alone r t_rate t_replay rng pkt :
  (forall h sub rec next, ~ authentic r pkt h sub rec next) ->
  let res := process r t_rate t_replay rng pkt in
  replay_cache (relay_after res) = replay_cache r /\ exists reason, outcome res = Some (Drop reason).
Proof.
  intros Hno res. destruct (process_cases r t_rate t_replay rng pkt)
    as [_ [(reason & Ho & Hc & _)|(h & sub & rec & next & Hau & _)]]; [eauto|].
  by destruct (Hno _ _ _ _ Hau).
Qed.

(** The delay of a hop is within the sender's cap, or is what the scheduler
    may draw. *)
Definition delay_bound r (d : Z) : Prop :=
  0 <= d <= Z.max MAX_HOP_DELAY (Delay.delay_cap (Delay.mean_delay_micros (scheduler r))).

Lemma hop_delay_bound r rec rng mean d :
  scheduler r = Delay.new mean -> is_u64 mean -> 0 <= delay_micros rec ->
  (hop_delay r rec rng).1 = Some d -> delay_bound r d.
Proof.
  intros Hs Hm Hd. unfold hop_delay, delay_bound. rewrite Hs.
  destruct (Z.eqb_spec (delay_micros rec) 0).
  - destruct (Delay.next_delay_total mean rng Hm) as (d' & rng' & -> & H0' & _ & _ & Hc).
    intros [= <-]. simpl. lia.
  - intros [= <-]. unfold from_micros, MAX_HOP_DELAY, from_secs, NANOS_PER_SEC. lia.
Qed.

(** C19. What an accepted packet turns into: a forwarded packet has exactly
    the packet size and never goes back to this relay, a delivered payload
    has exactly the payload size, and the delay is at most 30 seconds or a
    hundred times the mean of the scheduler. *)
Theorem accepted_output_well_formed r t_rate t_replay rng pkt mean :
  scheduler r = Delay.new mean -> is_u64 mean ->
  match outcome (process r t_rate t_replay rng pkt) with
  | Some (Forward _ id delay _ pkt') =>
      length pkt' = PACKET_SIZE /\ id <> identity_public_key r /\ delay_bound r delay
  | Some (DeliverLocal delay payload) =>
      length payload = (PACKET_SIZE - HEADER_LEN)%nat /\ delay_bound r delay
  | _ => True
  end.
Proof.
  intros Hs Hm. destruct (process_cases r t_rate t_replay rng pkt)
    as [_ [(reason & -> & _)|(h & sub & rec & next & Hau & _ & Hc)]]; [done|].
  destruct (Replay.check_and_insert_at _ _ _) as [seen cache]. destruct Hc as [_ Hc].
  case_decide; [by destruct Hc as [-> _]|]. destruct Hc as [_ ->].
  pose proof (unwrap_delay_u32 _ _ _ _ (au_mac _ _ _ _ _ _ Hau)) as Hd32.
  pose proof (hop_delay_bound r rec rng mean) as Hdel.
  destruct (hop_delay r rec rng) as [[d|] rng']; simpl; [|done].
  specialize (Hdel d Hs Hm ltac:(lia) eq_refl).
  pose proof header_fits. pose proof (au_size _ _ _ _ _ _ Hau) as Hsize.
  set (p := lioness_decrypt _ _).
  assert (length p = (PACKET_SIZE - HEADER_LEN)%nat) as Hp
    by (unfold p; by rewrite lioness_decrypt_length, length_drop, Hsize).
  unfold dispatch. destruct (is_last_hop rec); [done|]. case_decide; [done|].
  split; [|done]. rewrite length_app, header_encode_length. lia.
Qed.

(** A relay in strict mode never serves a legacy header: the packet is
    dropped (as malformed, unless the rate limiter was first) and leaves no
    entry in the cache. *)
Theorem strict_refuses_legacy r t_rate t_replay rng pkt h :
  header_decode (take HEADER_LEN pkt) = Ok h -> version h = VERSION_LEGACY ->
  let res := process (strict_header_v3 r) t_rate t_replay rng pkt in
  (outcome res = Some (Drop Malformed) \/ outcome res = Some (Drop RateLimited)) /\
  replay_cache (relay_after res) = replay_cache r.
Proof.
  intros Hh Hv res.
  assert (forall h sub rec next, ~ authentic (strict_header_v3 r) pkt h sub rec next) as Hno.
  { intros h' sub rec next [_ Hh' Hv' _ _]. rewrite Hh in Hh'. simplify_eq. by apply Hv' in Hv. }
  unfold res, process. destruct (length pkt =? PACKET_SIZE)%nat; simpl; [|by auto].
  destruct (RateLimit.check_at (rate_limiter r) t_rate) as [d l]. simpl.
  destruct (RateLimit.is_allowed d); simpl; [|by auto].
  rewrite Hh. unfold admit_version. simpl. rewrite (proj2 (Z.eqb_eq _ _) Hv). by auto.
Qed.

(** The packet is authentic, the cache decided [d] on its MAC, and the cache
    afterwards is the one that call left. *)
Definition cached_as (d : Replay.ReplayCheck) r t_replay pkt (cache : Replay.ReplayCache) (rec : RoutingRecord) : Prop :=
  exists h sub next, authentic r pkt h sub rec next /\
    Replay.check_and_insert_at (replay_cache r) (gamma h) t_replay = (d, cache).

(** C20. The outcomes mean what they say, and only authenticated packets touch the
    replay cache.  A packet dropped as malformed has the wrong size or is not
    authentic, one dropped as rate limited was throttled by the limiter, one
    dropped for its MAC failed the MAC check, and these three leave the cache as it
    was; one dropped as a replay was authentic with a MAC the cache knew, one
    dropped by policy an authentic loop back to this relay, and every packet that is
    forwarded or delivered was authentic with a MAC the cache did not know. *)
Theorem drop_reason_sound r t_rate t_replay rng pkt :
  let res := process r t_rate t_replay rng pkt in
  let limiter := fst (RateLimit.check_at (rate_limiter r) t_rate) in
  let cache := replay_cache (relay_after res) in
  match outcome res with
  | Some (Drop Malformed) => cache = replay_cache r /\
      (length pkt <> PACKET_SIZE \/ forall h sub rec next, ~ authentic r pkt h sub rec next)
  | Some (Drop RateLimited) => cache = replay_cache r /\ RateLimit.is_allowed limiter = false
  | Some (Drop BadMac) => cache = replay_cache r /\
      exists h sub e, header_decode (take HEADER_LEN pkt) = Ok h /\
        derive_hop_subkeys (x25519 (identity_sk r) (alpha h)) = Ok sub /\
        unwrap_header h sub = Err e /\ is_bad_mac e = true
  | Some (Drop Replay) => exists rec, cached_as Replay.Replay r t_replay pkt cache rec
  | Some (Drop PolicyDenied) => exists rec, cached_as Replay.Fresh r t_replay pkt cache rec /\
      is_last_hop rec = false /\ next_node_id rec = identity_public_key r
  | Some (Forward _ id _ _ _) => exists rec, cached_as Replay.Fresh r t_replay pkt cache rec /\
      is_last_hop rec = false /\ id = next_node_id rec /\ id <> identity_public_key r
  | Some (DeliverLocal _ _) => exists rec, cached_as Replay.Fresh r t_replay pkt cache rec /\
      is_last_hop rec = true
  | None => exists rec, cached_as Replay.Fresh r t_replay pkt cache rec
  end.
Proof.
  intros res limiter cache. destruct (process_cases r t_rate t_replay rng pkt)
    as [_ [(reason & Ho & Hc & _ & Hwhy)|(h & sub & rec & next & Hau & _ & Hc)]];
    fold res in Hc |- *.
  { fold res in Ho. fold cache in Hc. rewrite Ho. destruct reason; naive_solver. }
  destruct (Replay.check_and_insert_at (replay_cache r) (gamma h) t_replay)
    as [seen cache'] eqn:Hci. destruct Hc as [Hcache Hc]. fold res cache in Hcache. subst cache'.
  assert (cached_as seen r t_replay pkt cache rec) as Hca by by exists h, sub, next.
  case_decide as Hs; fold res in Hc.
  { destruct Hc as [-> _]. subst. eauto. }
  assert (seen = Replay.Fresh) as -> by by destruct seen.
  destruct Hc as [_ ->]. destruct (hop_delay r rec rng) as [[d|] rng']; simpl; [|eauto].
  unfold dispatch. destruct (is_last_hop rec) eqn:Hl; [eauto|]. case_decide; eauto 10.
Qed.
End properties.

(** ** Concrete runs

    A packet for two relays, in the toy format, as the tests build them. *)
Module Demo.
#[local] Existing Instances Toy.gotham counter_rng Delay.coarse_libm unix_platform.

Definition record (next : list byte) (delay fl : Z) : RoutingRecord :=
  mkRecord [x0a; x00; x00; x01] 9001 next (repeat x00 16) delay fl.

Definition body : list byte := repeat x2a 96.

(** The header for the relays with the given keys, then the payload under
    one layer of encryption per hop. *)
Definition packet (sks : list (list byte)) (recs : list RoutingRecord) : list byte :=
  match Toy.derive (map public_key sks) with
  | Ok (alphas, subs) =>
      match Toy.wrap_all alphas subs recs with
      | Ok h => header_encode h ++ foldr (fun s p => lioness_encrypt (k_payload s) p) body subs
      | Err _ => []
      end
  | Err _ => []
  end.

Definition two_hops : list byte :=
  packet [Toy.sk 1; Toy.sk 2] [record (public_key (Toy.sk 2)) 1500 0; record (repeat x00 32) 0 1].

Definition loop_packet : list byte :=
  packet [Toy.sk 1; Toy.sk 2] [record (public_key (Toy.sk 1)) 0 0; record (repeat x00 32) 0 1].

Definition legacy : list byte := x02 :: drop 1 two_hops.

Definition relay1 : Relay := new (Toy.sk 1) 100 (from_secs 60) 500000 0 0.

Definition demo_run (ins : list input) : list (option ProcessOutcome) := (run relay1 0 ins).1.1.

Definition at_ (t : Z) (pkt : list byte) : input := Input t t pkt.

(** The first relay forwards, then recognises the copy; garbage, a looped
    packet and a tampered one are dropped for their reasons. *)
Example demo_outcomes :
  map (fun o => match o with Some (Drop d) => Some d | _ => None end)
    (demo_run [at_ 0 two_hops; at_ 1 two_hops; at_ 2 []; at_ 3 loop_packet;
               at_ 4 (x03 :: x01 :: drop 2 two_hops)]) =
  [None; Some Replay; Some Malformed; Some PolicyDenied; Some BadMac].
Proof. vm_compute. reflexivity. Qed.

(** The second relay recovers the body from what the first one forwards. *)
Example two_hop_delivery :
  match demo_run [at_ 0 two_hops] with
  | [Some (Forward _ id d via p)] =>
      bool_decide (id = public_key (Toy.sk 2)) && (d =? from_micros 1500) && negb via &&
      match outcome (process (new (Toy.sk 2) 100 (from_secs 60) 0 0 0) 0 0 0 p) with
      | Some (DeliverLocal d payload) => (d =? 0) && bool_decide (payload = body)
      | _ => false
      end
  | _ => false
  end = true.
Proof. vm_compute. reflexivity. Qed.

Lemma no_packet_accepted_twice_witness :
  let '(_, r1, rng1) := run relay1 0 [at_ 0 loop_packet] in
  let '(oa, r2, rng2) := process_input r1 rng1 (at_ 1 two_hops) in
  let '(_, r3, rng3) := run r2 rng2 [at_ 2 []] in
  is_accepted oa = true ->
  exists reason, outcome (process_input r3 rng3 (at_ (from_secs 60) two_hops)) = Some (Drop reason).
Proof.
  apply (no_packet_accepted_twice (Toy.sk 1) 100 (from_secs 60) 500000 0 relay1 0
           [at_ 0 loop_packet] (at_ 1 two_hops) [at_ 2 []] (at_ (from_secs 60) two_hops)).
  - apply booted_new.
  - by vm_compute.
  - simpl. unfold from_secs, NANOS_PER_SEC. lia.
  - simpl. lia.
  - by vm_compute.
  - reflexivity.
Defined.

Lemma process_never_panics_witness :
  exists o, outcome (process relay1 0 0 0 two_hops) = Some o.
Proof.
  apply (@process_never_panics _ Z _ counter_rng_laws _ Delay.coarse_libm_laws
           relay1 0 0 0 two_hops 500000); [reflexivity|by vm_compute].
Defined.

Lemma forgery_leaves_cache_alone_witness :
  let res := process relay1 0 0 0 (repeat x00 12) in
  replay_cache (relay_after res) = replay_cache relay1 /\
  exists reason, outcome res = Some (Drop reason).
Proof.
  apply (forgery_leaves_cache_alone relay1 0 0 0 (repeat x00 12)).
  intros h sub rec next [Hsize _ _ _ _]. vm_compute in Hsize. discriminate.
Defined.

Lemma accepted_output_well_formed_witness :
  match outcome (process relay1 0 0 0 two_hops) with
  | Some (Forward _ id delay _ pkt') =>
      length pkt' = PACKET_SIZE /\ id <> identity_public_key relay1 /\ delay_bound relay1 delay
  | Some (DeliverLocal delay payload) =>
      length payload = (PACKET_SIZE - HEADER_LEN)%nat /\ delay_bound relay1 delay
  | _ => True
  end.
Proof.
  apply (@accepted_output_well_formed _ toy_laws Z _ counter_rng_laws _ Delay.coarse_libm_laws
           relay1 0 0 0 two_hops 500000); [reflexivity|by vm_compute].
Defined.

Lemma strict_refuses_legacy_witness :
  let res := process (strict_header_v3 relay1) 0 0 0 legacy in
  (outcome res = Some (Drop Malformed) \/ outcome res = Some (Drop RateLimited)) /\
  replay_cache (relay_after res) = replay_cache relay1.
Proof.
  destruct (header_decode (take HEADER_LEN legacy)) as [h|e] eqn:Hh.
  - apply (strict_refuses_legacy relay1 0 0 0 legacy h Hh).
    vm_compute in Hh. injection Hh as <-. reflexivity.
  - exfalso. vm_compute in Hh. discriminate.
Defined.

Lemma drop_reason_sound_witness :
  exists rec, cached_as Replay.Fresh relay1 0 loop_packet
      (replay_cache (relay_after (process relay1 0 0 0 loop_packet))) rec /\
    is_last_hop rec = false /\ next_node_id rec = identity_public_key relay1.
Proof.
  pose proof (drop_reason_sound relay1 0 0 0 loop_packet) as Hd. cbv zeta in Hd.
  assert (outcome (process relay1 0 0 0 loop_packet) = Some (Drop PolicyDenied)) as Ho by (vm_compute; reflexivity).
  rewrite Ho in Hd. exact Hd.
Defined.
End Demo.
