(* ===== verification/Wire.v ===== *)
(** * Wire framing ([transport.rs], the framing functions)

    Two QUIC streams carry length-prefixed handshake messages, fixed-size
    packet frames and length-prefixed blobs, the last two under a Noise
    transport.  A receive stream is modelled by the bytes the peer will send
    and by what happens after them; a send stream by what was written and by
    how much more the peer takes.  [snow] is an interface.

    The file proves that blobs and frames survive the round trip, that a
    reader never returns more than its cap, and that the handshake readers
    cannot be stalled. *)

From S2P Require Import Prelude Fs Gotham.

Inductive TransportError : Type :=
| Io (e : io_error)
| Connect
| Connection
| Write
| Read
| Rustls
| Rcgen
| Noise
| BadHandshake
| Unreachable (timeout : Z).

#[global] Instance TransportError_eq_dec : EqDecision TransportError.
Proof. solve_decision. Defined.

(** ** Asynchronous results

    A call returns, fails, or waits for a peer that never acts. *)
Inductive io (A : Type) : Type :=
| Ret (a : A)
| Fail (e : TransportError)
| Block.
Arguments Ret {A} a.
Arguments Fail {A} e.
Arguments Block {A}.

Definition M (S A : Type) : Type := S -> io A * S.

#[global] Instance M_ret S : MRet (M S) := fun A a s => (Ret a, s).
#[global] Instance M_bind S : MBind (M S) := fun A B k m s =>
  match m s with
  | (Ret a, s) => k a s
  | (Fail e, s) => (Fail e, s)
  | (Block, s) => (Block, s)
  end.

Definition fail {S A} (e : TransportError) : M S A := fun s => (Fail e, s).
Definition guard {S} (b : bool) (e : TransportError) : M S unit :=
  if b then mret tt else fail e.

(** [tokio::time::timeout(..).map_err(|_| BadHandshake)??] *)
Definition or_timeout {S A} (m : M S A) : M S A := fun s =>
  match m s with
  | (Block, s) => (Fail BadHandshake, s)
  | r => r
  end.

(** The steps of a computation that returned. *)
Lemma M_bind_Ret {S A B} (m : M S A) (k : A -> M S B) s b s' :
  (m ≫= k) s = (Ret b, s') <-> exists a s1, m s = (Ret a, s1) /\ k a s1 = (Ret b, s').
Proof.
  unfold mbind, M_bind. destruct (m s) as [[a|e|] s1]; split; try done; try naive_solver.
Qed.

(** ** Streams *)
Inductive stream_end : Type :=
| Finished
| Stalled.

Record RecvStream : Type := mkRecv { r_buf : list byte; r_end : stream_end }.

(** [s_room] is how many more bytes the peer takes before it resets the stream
    ([Finished]) or grants no more credit ([Stalled]); [None] when it does
    neither. *)
Record SendStream : Type := mkSend { s_out : list byte; s_room : option (nat * stream_end) }.

Record Link (T : Type) : Type := mkLink {
  lk_send : SendStream;
  lk_recv : RecvStream;
  lk_noise : T;
}.
Arguments mkLink {T} _ _ _.
Arguments lk_send {T} _.
Arguments lk_recv {T} _.
Arguments lk_noise {T} _.

Section streams.
Context {T : Type}.

Definition read_exact (n : nat) : M (Link T) (list byte) := fun l =>
  let r := lk_recv l in
  if (n <=? length (r_buf r))%nat then
    (Ret (take n (r_buf r)),
     mkLink (lk_send l) (mkRecv (drop n (r_buf r)) (r_end r)) (lk_noise l))
  else
    (match r_end r with Finished => Fail Read | Stalled => Block end,
     mkLink (lk_send l) (mkRecv [] (r_end r)) (lk_noise l)).

Definition write_all (bytes : list byte) : M (Link T) unit := fun l =>
  let s := lk_send l in
  match s_room s with
  | Some (n, e) =>
      if (length bytes <=? n)%nat then
        (Ret tt, mkLink (mkSend (s_out s ++ bytes) (Some ((n - length bytes)%nat, e))) (lk_recv l)
                   (lk_noise l))
      else
        (match e with Finished => Fail Write | Stalled => Block end,
         mkLink (mkSend (s_out s ++ take n bytes) (Some (0%nat, e))) (lk_recv l) (lk_noise l))
  | None => (Ret tt, mkLink (mkSend (s_out s ++ bytes) None) (lk_recv l) (lk_noise l))
  end.

(** [send.stopped().await] after [finish]: a peer that stalls never
    acknowledges the stream. *)
Definition stopped : M (Link T) unit := fun l =>
  (match s_room (lk_send l) with Some (_, Stalled) => Block | _ => Ret tt end, l).

End streams.

(** ** Noise

    [snow]'s transport mode: a state per direction, a 16-byte tag per message
    and at most 65535 bytes on the wire. *)
Definition NOISE_TAG_LEN : nat := 16.
Definition NOISE_MAX_MSG : Z := 65535.

Class NoiseTransport (T : Type) := {
  write_message : T -> list byte -> result TransportError (list byte) * T;
  read_message : T -> list byte -> result TransportError (list byte) * T;
  (** [b] can read what [a] writes. *)
  channel : T -> T -> Prop;
}.

Definition zlen {A} (l : list A) : Z := Z.of_nat (length l).

Class NoiseTransportLaws (T : Type) `{!NoiseTransport T} : Prop := {
  write_message_ok : forall a b p, channel a b -> zlen p + 16 <= NOISE_MAX_MSG ->
    exists c a' b', write_message a p = (Ok c, a') /\ zlen c = zlen p + 16 /\
      read_message b c = (Ok p, b') /\ channel a' b';
  read_message_length : forall b c p b', read_message b c = (Ok p, b') -> zlen c = zlen p + 16;
  (** The two directions do not disturb each other. *)
  read_keeps_out : forall b c x, channel b c -> channel (read_message b x).2 c;
  write_keeps_in : forall a c x, channel c a -> channel c (write_message a x).2;
}.

Definition NOISE_CHUNK : Z := 32 * 1024.
Definition MAX_GOSSIP_FRAME : Z := 4 * 1024 * 1024.
Definition MAX_HANDSHAKE_MSG : Z := 1024.

Section framing.
Context `{!Gotham} {T : Type} `{!NoiseTransport T}.

(** [hs.write_message(..)?] and [hs.read_message(..)?] on the shared state. *)
Definition noise_write (p : list byte) : M (Link T) (list byte) := fun l =>
  match write_message (lk_noise l) p with
  | (Ok c, n) => (Ret c, mkLink (lk_send l) (lk_recv l) n)
  | (Err e, n) => (Fail e, mkLink (lk_send l) (lk_recv l) n)
  end.

Definition noise_read (c : list byte) : M (Link T) (list byte) := fun l =>
  match read_message (lk_noise l) c with
  | (Ok p, n) => (Ret p, mkLink (lk_send l) (lk_recv l) n)
  | (Err e, n) => (Fail e, mkLink (lk_send l) (lk_recv l) n)
  end.

Definition write_handshake_msg (msg : list byte) : M (Link T) unit :=
  if MAX_HANDSHAKE_MSG <? zlen msg then fail BadHandshake else
  _ ← write_all (to_be_bytes 2 (zlen msg));
  write_all msg.

Definition read_handshake_msg : M (Link T) (list byte) :=
  len_bytes ← or_timeout (read_exact 2);
  let len := from_be_bytes len_bytes in
  if MAX_HANDSHAKE_MSG <? len then fail BadHandshake else
  or_timeout (read_exact (Z.to_nat len)).

Definition FRAME_LEN : nat := PACKET_SIZE + NOISE_TAG_LEN.

Definition write_noise_frame (packet : list byte) : M (Link T) unit :=
  if negb (length packet =? PACKET_SIZE)%nat then fail BadHandshake else
  frame ← noise_write packet;
  write_all frame.

Definition read_noise_frame : M (Link T) (list byte) :=
  frame ← read_exact FRAME_LEN;
  noise_read frame.

Definition write_one_noise_msg (msg : list byte) : M (Link T) unit :=
  buf ← noise_write msg;
  if u16_max <? zlen buf then fail BadHandshake else
  _ ← write_all (to_be_bytes 2 (zlen buf));
  write_all buf.

(** The message is appended to [out]. *)
Definition read_one_noise_msg (out : list byte) : M (Link T) (list byte) :=
  len_bytes ← read_exact 2;
  let clen := from_be_bytes len_bytes in
  if (clen <? Z.of_nat NOISE_TAG_LEN + 1) || (NOISE_CHUNK + Z.of_nat NOISE_TAG_LEN <? clen)
  then fail BadHandshake else
  cbuf ← read_exact (Z.to_nat clen);
  p ← noise_read cbuf;
  mret (out ++ p).

Fixpoint write_chunks (cs : list (list byte)) : M (Link T) unit :=
  match cs with
  | [] => mret tt
  | c :: cs => _ ← write_one_noise_msg c; write_chunks cs
  end.

(** [max] is [MAX_MAILBOX_FRAME] of [crypto_gotham]. *)
Definition write_noise_blob (max : Z) (blob : list byte) : M (Link T) unit :=
  if max <? zlen blob then fail BadHandshake else
  _ ← write_one_noise_msg (to_be_bytes 4 (zlen blob));
  write_chunks (chunks (Z.to_nat NOISE_CHUNK) blob).

(** [while out.len() < total]; every round adds a byte or fails, so [total]
    rounds are enough. *)
Fixpoint read_blob_loop (fuel : nat) (total : Z) (out : list byte) : M (Link T) (list byte) :=
  if total <=? zlen out then mret out else
  match fuel with
  | O => fail BadHandshake
  | S fuel =>
      out' ← read_one_noise_msg out;
      if (zlen out' <=? zlen out) || (total <? zlen out') then fail BadHandshake
      else read_blob_loop fuel total out'
  end.

Definition read_noise_blob_capped (max_frame : Z) : M (Link T) (list byte) :=
  header ← read_one_noise_msg [];
  if negb (length header =? 4)%nat then fail BadHandshake else
  let total := from_be_bytes header in
  if max_frame <? total then fail BadHandshake else
  read_blob_loop (Z.to_nat total) total [].

Definition read_noise_blob (max : Z) : M (Link T) (list byte) := read_noise_blob_capped max.
End framing.

(** ** Streams, lemma by lemma *)
Section stream_facts.
Context {T : Type}.
Implicit Types (l : Link T).

Lemma read_exact_app n s x rest e (t : T) :
  length x = n ->
  read_exact n (mkLink s (mkRecv (x ++ rest) e) t) = (Ret x, mkLink s (mkRecv rest e) t).
Proof.
  intros <-. unfold read_exact. simpl. rewrite (proj2 (Nat.leb_le _ _)) by (rewrite length_app; lia).
  by rewrite take_app_length, drop_app_length.
Qed.

Lemma read_exact_Ret n l x l' :
  read_exact n l = (Ret x, l') ->
  length x = n /\ r_buf (lk_recv l) = x ++ r_buf (lk_recv l') /\
  lk_send l' = lk_send l /\ lk_noise l' = lk_noise l /\ r_end (lk_recv l') = r_end (lk_recv l).
Proof.
  unfold read_exact. destruct (Nat.leb_spec n (length (r_buf (lk_recv l)))) as [Hn|Hn].
  - intros [= <- <-]. simpl. rewrite length_take, take_drop. split_and!; try done. lia.
  - by destruct (r_end _).
Qed.

Lemma write_all_None so r (t : T) bytes :
  write_all bytes (mkLink (mkSend so None) r t) = (Ret tt, mkLink (mkSend (so ++ bytes) None) r t).
Proof. done. Qed.
End stream_facts.

Lemma zlen_app {A} (l1 l2 : list A) : zlen (l1 ++ l2) = zlen l1 + zlen l2.
Proof. unfold zlen. rewrite length_app. lia. Qed.

Lemma zlen_nonneg {A} (l : list A) : 0 <= zlen l.
Proof. unfold zlen. lia. Qed.

(** ** Round trips

    [carries a b wr rd x]: what [wr] sends from state [a], [rd] reads in state
    [b] as [x], consuming exactly those bytes and keeping the channel; what
    either end does in its other direction is not disturbed. *)
Section roundtrips.
Context `{!Gotham} {T : Type} `{!NoiseTransport T, !NoiseTransportLaws T}.

Definition carries {A} (a b : T) (wr : M (Link T) unit) (rd : M (Link T) A) (x : A) : Prop :=
  exists w a' b', channel a' b' /\
    (forall c, channel b c -> channel b' c) /\ (forall c, channel c a -> channel c a') /\
    (forall so r, wr (mkLink (mkSend so None) r a) = (Ret tt, mkLink (mkSend (so ++ w) None) r a')) /\
    (forall s rest e, rd (mkLink s (mkRecv (w ++ rest) e) b) = (Ret x, mkLink s (mkRecv rest e) b')).

(** Two transfers in a row. *)
Lemma carries_bind {A B} a b wr1 wr2 (rd1 : M (Link T) A) (rd2 : A -> M (Link T) B) x y :
  carries a b wr1 rd1 x -> (forall a b, channel a b -> carries a b wr2 (rd2 x) y) ->
  carries a b (wr1 ≫= fun _ => wr2) (rd1 ≫= rd2) y.
Proof.
  intros (w1 & a1 & b1 & Hch & Ho1 & Hi1 & Hw1 & Hr1) H2.
  destruct (H2 a1 b1 Hch) as (w2 & a2 & b2 & Hch2 & Ho2 & Hi2 & Hw2 & Hr2).
  exists (w1 ++ w2), a2, b2. do 3 (split; [by auto|]). unfold mbind, M_bind. split.
  - intros so r. by rewrite Hw1, Hw2, <- app_assoc.
  - intros s rest e. rewrite <- app_assoc. by rewrite Hr1, Hr2.
Qed.

Lemma one_msg_carries a b p out :
  channel a b -> 1 <= zlen p <= NOISE_CHUNK ->
  carries a b (write_one_noise_msg p) (read_one_noise_msg out) (out ++ p).
Proof.
  intros Hch Hp. unfold NOISE_CHUNK in Hp.
  destruct (write_message_ok a b p Hch) as (c & a' & b' & Hw & Hl & Hr & Hch');
    [unfold NOISE_MAX_MSG; lia|].
  exists (to_be_bytes 2 (zlen c) ++ c), a', b'. split; [done|].
  split; [intros d Hd; pose proof (read_keeps_out b d c Hd) as Hk; by rewrite Hr in Hk|].
  split; [intros d Hd; pose proof (write_keeps_in a d p Hd) as Hk; by rewrite Hw in Hk|].
  unfold write_one_noise_msg, read_one_noise_msg, mbind, M_bind, noise_write, noise_read. split.
  - intros so r. simpl. rewrite Hw. rewrite (proj2 (Z.ltb_ge _ _)) by (unfold u16_max; lia).
    rewrite !write_all_None. by rewrite <- app_assoc.
  - intros s rest e. rewrite <- app_assoc.
    rewrite read_exact_app by apply length_to_be_bytes.
    rewrite from_to_be_bytes by (simpl; lia).
    rewrite (proj2 (Z.ltb_ge _ _)), (proj2 (Z.ltb_ge _ _))
      by (unfold NOISE_CHUNK, NOISE_TAG_LEN; lia). simpl.
    rewrite read_exact_app by (unfold zlen; lia). simpl. by rewrite Hr.
Qed.

Lemma chunks_carry cs a b total out fuel :
  channel a b -> Forall (fun c => 1 <= zlen c <= NOISE_CHUNK) cs ->
  total = zlen out + zlen (concat cs) -> zlen (concat cs) <= Z.of_nat fuel ->
  carries a b (write_chunks cs) (read_blob_loop fuel total out) (out ++ concat cs).
Proof.
  intros Hch Hcs. revert a b Hch out fuel.
  induction Hcs as [|c cs Hc Hcs IH]; intros a b Hch out fuel Ht Hf; simpl in *.
  { change (zlen []) with 0 in *. exists [], a, b. do 3 (split; [by auto|]).
    rewrite app_nil_r. split; [intros; by rewrite app_nil_r|]. intros s rest e.
    destruct fuel; simpl; by rewrite (proj2 (Z.leb_le _ _)) by lia. }
  pose proof (zlen_nonneg (concat cs)). rewrite zlen_app in *.
  destruct fuel as [|fuel]; [lia|]. simpl.
  rewrite (proj2 (Z.leb_gt _ _)) by lia. rewrite app_assoc. eapply carries_bind.
  - by apply one_msg_carries.
  - intros a1 b1 Hch1. rewrite zlen_app.
    rewrite (proj2 (Z.leb_gt _ _)), (proj2 (Z.ltb_ge _ _)) by lia. simpl.
    apply IH; [done| |lia]. rewrite zlen_app. lia.
Qed.

Lemma chunks_sizes (blob : list byte) :
  Forall (fun c => 1 <= zlen c <= NOISE_CHUNK) (chunks (Z.to_nat NOISE_CHUNK) blob).
Proof.
  eapply Forall_impl; [apply (chunks_lengths (Z.to_nat NOISE_CHUNK))|].
  - unfold NOISE_CHUNK. lia.
  - intros c. unfold zlen, NOISE_CHUNK. lia.
Qed.

Lemma blob_carries a b max cap blob :
  channel a b -> zlen blob <= max -> zlen blob <= cap -> zlen blob < 2 ^ 32 ->
  carries a b (write_noise_blob max blob) (read_noise_blob_capped cap) blob.
Proof.
  intros Hch Hmax Hcap Hlt. pose proof (zlen_nonneg blob).
  unfold write_noise_blob, read_noise_blob_capped.
  rewrite (proj2 (Z.ltb_ge _ _)) by done. eapply carries_bind.
  - apply one_msg_carries; [done|]. unfold zlen. rewrite length_to_be_bytes.
    unfold NOISE_CHUNK. lia.
  - intros a1 b1 Hch1. rewrite app_nil_l, length_to_be_bytes. simpl (negb _). cbv match.
    rewrite from_to_be_bytes by (simpl; lia). rewrite (proj2 (Z.ltb_ge _ _)) by done.
    pose proof (concat_chunks (Z.to_nat NOISE_CHUNK) blob ltac:(unfold NOISE_CHUNK; lia)) as Hcc.
    rewrite <- Hcc at 4. rewrite <- (app_nil_l (concat _)).
    apply chunks_carry; [done|apply chunks_sizes| |]; rewrite Hcc.
    + done.
    + rewrite Z2Nat.id by lia. lia.
Qed.
End roundtrips.

(** ** Handshakes

    [snow]'s handshake state, for the two patterns the relay uses. *)
Inductive pattern : Type :=
| NOISE_PARAMS
| NOISE_IK_PARAMS.

Class NoiseHandshake (HS T : Type) := {
  build_initiator : pattern -> list byte -> list byte -> result TransportError HS;
  build_responder : pattern -> list byte -> result TransportError HS;
  hs_write_message : HS -> result TransportError (list byte) * HS;
  hs_read_message : HS -> list byte -> result TransportError unit * HS;
  get_handshake_hash : HS -> list byte;
  get_remote_static : HS -> option (list byte);
  into_transport_mode : HS -> result TransportError T;
}.

Section handshakes.
Context {HS T : Type} `{!NoiseHandshake HS T}.

Definition hs_write : M (Link HS) (list byte) := fun l =>
  match hs_write_message (T := T) (lk_noise l) with
  | (Ok m, hs) => (Ret m, mkLink (lk_send l) (lk_recv l) hs)
  | (Err e, hs) => (Fail e, mkLink (lk_send l) (lk_recv l) hs)
  end.

Definition hs_read (m : list byte) : M (Link HS) unit := fun l =>
  match hs_read_message (T := T) (lk_noise l) m with
  | (Ok u, hs) => (Ret u, mkLink (lk_send l) (lk_recv l) hs)
  | (Err e, hs) => (Fail e, mkLink (lk_send l) (lk_recv l) hs)
  end.

Definition lift {S A} (r : result TransportError A) : M S A := fun s =>
  match r with Ok a => (Ret a, s) | Err e => (Fail e, s) end.

(** [hs.get_handshake_hash()] and [hs.into_transport_mode()?]. *)
Definition finish : M (Link HS) (T * list byte) := fun l =>
  (t ← lift (into_transport_mode (lk_noise l)); mret (t, get_handshake_hash (T := T) (lk_noise l))) l.

(** Run a handshake on a pair of streams. *)
Definition with_handshake {A} (hs : result TransportError HS) (m : M (Link HS) A)
    (s : SendStream) (r : RecvStream) : io A * SendStream * RecvStream :=
  match hs with
  | Err e => (Fail e, s, r)
  | Ok hs => let '(res, l) := m (mkLink s r hs) in (res, lk_send l, lk_recv l)
  end.

Definition noise_responder_handshake_bound (static_sk : list byte)
    (s : SendStream) (r : RecvStream) : io (T * list byte) * SendStream * RecvStream :=
  with_handshake (build_responder (T := T) NOISE_PARAMS static_sk)
    (rx ← read_handshake_msg; _ ← hs_read rx;
     tx ← hs_write; _ ← write_handshake_msg tx;
     rx ← read_handshake_msg; _ ← hs_read rx;
     finish) s r.

Definition noise_initiator_handshake_bound (initiator_sk server_static_pk : list byte)
    (s : SendStream) (r : RecvStream) : io (T * list byte) * SendStream * RecvStream :=
  with_handshake (build_initiator (T := T) NOISE_PARAMS initiator_sk server_static_pk)
    (tx ← hs_write; _ ← write_handshake_msg tx;
     rx ← read_handshake_msg; _ ← hs_read rx;
     tx ← hs_write; _ ← write_handshake_msg tx;
     finish) s r.

(** [remote_pk] is the authenticated key of the initiator. *)
Definition noise_ik_responder_handshake (static_sk : list byte)
    (s : SendStream) (r : RecvStream) : io (T * list byte) * SendStream * RecvStream :=
  with_handshake (build_responder (T := T) NOISE_IK_PARAMS static_sk)
    (rx ← read_handshake_msg; _ ← hs_read rx;
     remote_pk ← (fun l => match get_remote_static (T := T) (lk_noise l) with
                           | Some pk => if (length pk =? 32)%nat then (Ret pk, l)
                                        else (Fail BadHandshake, l)
                           | None => (Fail BadHandshake, l)
                           end);
     tx ← hs_write; _ ← write_handshake_msg tx;
     '(t, _) ← finish;
     mret (t, remote_pk)) s r.

Definition noise_ik_initiator_handshake (initiator_sk responder_static_pk : list byte)
    (s : SendStream) (r : RecvStream) : io T * SendStream * RecvStream :=
  with_handshake (build_initiator (T := T) NOISE_IK_PARAMS initiator_sk responder_static_pk)
    (tx ← hs_write; _ ← write_handshake_msg tx;
     rx ← read_handshake_msg; _ ← hs_read rx;
     '(t, _) ← finish;
     mret t) s r.

Definition and_then {A B} (x : io A) (k : A -> io B) : io B :=
  match x with Ret a => k a | Fail e => Fail e | Block => Block end.

Definition map_io {A B} (f : A -> B) (x : io A) : io B :=
  match x with Ret a => Ret (f a) | Fail e => Fail e | Block => Block end.

Definition noise_responder_handshake (static_sk : list byte) (s : SendStream) (r : RecvStream)
    : io T * SendStream * RecvStream :=
  let '(res, s, r) := noise_responder_handshake_bound static_sk s r in (map_io fst res, s, r).

Definition noise_initiator_handshake (initiator_sk server_static_pk : list byte)
    (s : SendStream) (r : RecvStream) : io T * SendStream * RecvStream :=
  let '(res, s, r) := noise_initiator_handshake_bound initiator_sk server_static_pk s r in
  (map_io fst res, s, r).
End handshakes.

(** What the Noise patterns promise: run against the matching static key, the
    three (two) messages are accepted, are small, and leave both ends with the
    same hash and a channel each way. *)
Class NoiseHandshakeLaws (HS T : Type) `{!Gotham, !NoiseTransport T, !NoiseHandshake HS T}
  : Prop := {
  xk_completes : forall i_sk r_sk, exists i0 i1 i2 i3 r0 r1 r2 r3 m1 m2 m3 ti tr,
    build_initiator (T := T) NOISE_PARAMS i_sk (public_key r_sk) = Ok i0 /\
    build_responder (T := T) NOISE_PARAMS r_sk = Ok r0 /\
    hs_write_message (T := T) i0 = (Ok m1, i1) /\ hs_read_message (T := T) r0 m1 = (Ok tt, r1) /\
    hs_write_message (T := T) r1 = (Ok m2, r2) /\ hs_read_message (T := T) i1 m2 = (Ok tt, i2) /\
    hs_write_message (T := T) i2 = (Ok m3, i3) /\ hs_read_message (T := T) r2 m3 = (Ok tt, r3) /\
    Forall (fun m => zlen m <= MAX_HANDSHAKE_MSG) [m1; m2; m3] /\
    into_transport_mode i3 = Ok ti /\ into_transport_mode r3 = Ok tr /\
    get_handshake_hash (T := T) i3 = get_handshake_hash (T := T) r3 /\
    channel ti tr /\ channel tr ti;
}.

(** A framed handshake message. *)
Definition handshake_frame (m : list byte) : list byte := to_be_bytes 2 (zlen m) ++ m.

Section handshake_facts.
Context {X : Type}.

Lemma write_handshake_frame m so r (t : X) :
  zlen m <= MAX_HANDSHAKE_MSG ->
  write_handshake_msg m (mkLink (mkSend so None) r t) =
  (Ret tt, mkLink (mkSend (so ++ handshake_frame m) None) r t).
Proof.
  intros Hm. unfold write_handshake_msg. rewrite (proj2 (Z.ltb_ge _ _)) by done.
  unfold mbind, M_bind, handshake_frame. rewrite write_all_None. rewrite write_all_None.
  by rewrite <- app_assoc.
Qed.

Lemma read_handshake_frame m s rest e (t : X) :
  zlen m <= MAX_HANDSHAKE_MSG ->
  read_handshake_msg (mkLink s (mkRecv (handshake_frame m ++ rest) e) t) =
  (Ret m, mkLink s (mkRecv rest e) t).
Proof.
  intros Hm. pose proof (zlen_nonneg m). unfold MAX_HANDSHAKE_MSG in *.
  unfold read_handshake_msg, handshake_frame, mbind, M_bind, or_timeout.
  rewrite <- app_assoc, read_exact_app by apply length_to_be_bytes.
  rewrite from_to_be_bytes by (simpl; lia). rewrite (proj2 (Z.ltb_ge _ _)) by done.
  by rewrite read_exact_app by (unfold zlen; lia).
Qed.
End handshake_facts.

#[global] Opaque handshake_frame.

(** ** Computations that only a peer without credit can stall

    The reads of a handshake have a timeout, its writes have none. *)
Definition willing (s : SendStream) : Prop := forall n, s_room s <> Some (n, Stalled).

#[global] Instance willing_dec s : Decision (willing s).
Proof.
  unfold willing. destruct (s_room s) as [[n []]|]; [left|right|left]; try done. intros Hw. by destruct (Hw n).
Defined.

Definition never_blocks {X A} (m : M (Link X) A) : Prop :=
  forall l, willing (lk_send l) -> (m l).1 <> Block /\ willing (lk_send (m l).2).

Create HintDb stall.

Lemma never_blocks_ret {X A} (a : A) : never_blocks (X := X) (mret a).
Proof. by intros l. Qed.

Lemma never_blocks_fail {X A} e : never_blocks (X := X) (A := A) (fail e).
Proof. by intros l. Qed.

Lemma never_blocks_bind {X A B} (m : M (Link X) A) (k : A -> M (Link X) B) :
  never_blocks m -> (forall a, never_blocks (k a)) -> never_blocks (m ≫= k).
Proof.
  intros Hm Hk l Hl. unfold mbind, M_bind. destruct (Hm l Hl) as [Hb Hw].
  destruct (m l) as [[a|e|] l1]; simpl in *; [by apply Hk|done|done].
Qed.

Lemma never_blocks_if {X A} (b : bool) (m1 m2 : M (Link X) A) :
  never_blocks m1 -> never_blocks m2 -> never_blocks (if b then m1 else m2).
Proof. by destruct b. Qed.

Lemma never_blocks_write_all {T} bytes : never_blocks (@write_all T bytes).
Proof.
  intros l Hl. unfold write_all. destruct (s_room (lk_send l)) as [[n e]|] eqn:E; [|done].
  assert (e = Finished) as -> by (destruct e; [done|by destruct (Hl n)]). by case_match.
Qed.

Lemma never_blocks_read_timeout {T} n : never_blocks (or_timeout (@read_exact T n)).
Proof. intros l Hl. unfold or_timeout, read_exact. repeat case_match; simplify_eq; done. Qed.

#[export] Hint Resolve never_blocks_ret never_blocks_fail never_blocks_bind never_blocks_read_timeout
  never_blocks_if never_blocks_write_all : stall.

Lemma never_blocks_write_handshake {T} m : never_blocks (@write_handshake_msg T m).
Proof. unfold write_handshake_msg. eauto with stall. Qed.

Lemma never_blocks_read_handshake {T} : never_blocks (@read_handshake_msg T).
Proof. unfold read_handshake_msg. eauto 6 with stall. Qed.

Section handshake_stall.
Context {HS T : Type} `{!NoiseHandshake HS T}.

Lemma never_blocks_hs_write : never_blocks hs_write.
Proof. intros l Hl. unfold hs_write. repeat case_match; done. Qed.

Lemma never_blocks_hs_read m : never_blocks (hs_read m).
Proof. intros l Hl. unfold hs_read. repeat case_match; done. Qed.

Lemma never_blocks_finish : never_blocks finish.
Proof.
  intros l Hl. unfold finish, mbind, M_bind, lift. by destruct (into_transport_mode _).
Qed.

Lemma with_handshake_returns {A} hs (m : M (Link HS) A) s r :
  never_blocks m -> willing s -> (with_handshake hs m s r).1.1 <> Block.
Proof.
  intros Hm Hs. unfold with_handshake. destruct hs as [hs|e]; [|done].
  destruct (Hm (mkLink s r hs) Hs) as [Hb _]. by destruct (m _) as [res l].
Qed.
End handshake_stall.

#[export] Hint Resolve never_blocks_write_handshake never_blocks_read_handshake
  never_blocks_hs_write never_blocks_hs_read never_blocks_finish : stall.

(** ** Computations that do not add to their input *)
Definition shrinks {X A} (m : M (Link X) A) : Prop :=
  forall l, (length (r_buf (lk_recv (m l).2)) <= length (r_buf (lk_recv l)))%nat.

Create HintDb shrink.

Lemma shrinks_ret {X A} (a : A) : shrinks (X := X) (mret a).
Proof. by intros l. Qed.

Lemma shrinks_fail {X A} e : shrinks (X := X) (A := A) (fail e).
Proof. by intros l. Qed.

Lemma shrinks_bind {X A B} (m : M (Link X) A) (k : A -> M (Link X) B) :
  shrinks m -> (forall a, shrinks (k a)) -> shrinks (m ≫= k).
Proof.
  intros Hm Hk l. unfold mbind, M_bind. specialize (Hm l).
  destruct (m l) as [[a|e|] l1]; simpl in *; [|done..]. specialize (Hk a l1). lia.
Qed.

Lemma shrinks_timeout {X A} (m : M (Link X) A) : shrinks m -> shrinks (or_timeout m).
Proof. intros Hm l. specialize (Hm l). unfold or_timeout. by destruct (m l) as [[]]. Qed.

Lemma shrinks_if {X A} (b : bool) (m1 m2 : M (Link X) A) :
  shrinks m1 -> shrinks m2 -> shrinks (if b then m1 else m2).
Proof. by destruct b. Qed.

Lemma shrinks_read_exact {X} n : shrinks (@read_exact X n).
Proof.
  intros l. unfold read_exact. destruct (n <=? _)%nat; simpl; [rewrite length_drop|]; lia.
Qed.

Lemma shrinks_write_all {X} bytes : shrinks (@write_all X bytes).
Proof. intros l. unfold write_all. by repeat case_match. Qed.

#[export] Hint Resolve shrinks_ret shrinks_fail shrinks_bind shrinks_timeout shrinks_if
  shrinks_read_exact shrinks_write_all : shrink.

Lemma shrinks_write_handshake {X} m : shrinks (@write_handshake_msg X m).
Proof. unfold write_handshake_msg. eauto with shrink. Qed.

Lemma shrinks_read_handshake {X} : shrinks (@read_handshake_msg X).
Proof. unfold read_handshake_msg. eauto 6 with shrink. Qed.

Section handshake_shrink.
Context {HS T : Type} `{!NoiseHandshake HS T}.

Lemma shrinks_hs_write : shrinks hs_write.
Proof. intros l. unfold hs_write. by repeat case_match. Qed.

Lemma shrinks_hs_read m : shrinks (hs_read m).
Proof. intros l. unfold hs_read. by repeat case_match. Qed.

Lemma shrinks_finish : shrinks finish.
Proof. intros l. unfold finish, mbind, M_bind, lift. by destruct (into_transport_mode _). Qed.

#[local] Hint Resolve shrinks_write_handshake shrinks_read_handshake shrinks_hs_write
  shrinks_hs_read shrinks_finish : shrink.

Lemma responder_shrinks sk s r :
  (length (r_buf (noise_responder_handshake_bound (HS := HS) (T := T) sk s r).2) <=
   length (r_buf r))%nat.
Proof.
  unfold noise_responder_handshake_bound, with_handshake.
  destruct (build_responder _ _) as [hs|e]; [|done].
  match goal with |- context [let '(_, _) := ?m (mkLink s r hs) in _] =>
    assert (shrinks m) as Hm by eauto 20 with shrink;
    specialize (Hm (mkLink s r hs)); by destruct (m (mkLink s r hs)) as [res l]
  end.
Qed.
End handshake_shrink.

(** ** Properties *)
Section wire_properties.
Context `{!Gotham} {HS T : Type} `{!NoiseTransport T, !NoiseTransportLaws T, !NoiseHandshake HS T}.

(** C27. A blob survives the wire: whatever its contents and length up to the
    caps, the bytes [write_noise_blob] sends are read back as exactly that
    blob, nothing of what follows is consumed, and the two Noise states stay
    in step. *)
Theorem blob_survives_the_wire a b max cap (blob : list byte) :
  channel a b -> zlen blob <= max -> zlen blob <= cap -> zlen blob < 2 ^ 32 ->
  exists w a' b', channel a' b' /\
    (forall so r, write_noise_blob max blob (mkLink (mkSend so None) r a) =
       (Ret tt, mkLink (mkSend (so ++ w) None) r a')) /\
    (forall s rest e, read_noise_blob_capped cap (mkLink s (mkRecv (w ++ rest) e) b) =
       (Ret blob, mkLink s (mkRecv rest e) b')).
Proof.
  intros Hch Hmax Hcap Hlt.
  destruct (blob_carries a b max cap blob Hch Hmax Hcap Hlt) as (w & a' & b' & ? & _ & _ & ? & ?).
  by exists w, a', b'.
Qed.

Lemma frame_carries a b packet :
  channel a b -> length packet = PACKET_SIZE -> Z.of_nat FRAME_LEN <= NOISE_MAX_MSG ->
  exists w a' b', channel a' b' /\ length w = FRAME_LEN /\
    (forall so r, write_noise_frame packet (mkLink (mkSend so None) r a) =
       (Ret tt, mkLink (mkSend (so ++ w) None) r a')) /\
    (forall s rest e, read_noise_frame (mkLink s (mkRecv (w ++ rest) e) b) =
       (Ret packet, mkLink s (mkRecv rest e) b')).
Proof.
  intros Hch Hlen Hf. unfold FRAME_LEN, NOISE_TAG_LEN in *.
  destruct (write_message_ok a b packet Hch) as (c & a' & b' & Hw & Hl & Hr & Hch');
    [unfold zlen; lia|].
  assert (length c = PACKET_SIZE + 16)%nat as Hc by (unfold zlen in Hl; lia).
  exists c, a', b'. split; [done|]. split; [done|].
  unfold write_noise_frame, read_noise_frame, mbind, M_bind, noise_write, noise_read. split.
  - intros so r. rewrite Hlen, Nat.eqb_refl. simpl. rewrite Hw. apply write_all_None.
  - intros s rest e. rewrite read_exact_app by done. simpl. by rewrite Hr.
Qed.

(** Every round of the blob loop adds bytes, so the fuel is never exhausted:
    more of it changes nothing. *)
Lemma read_blob_loop_fuel f1 f2 total out (l : Link T) :
  total - zlen out <= Z.of_nat f1 -> total - zlen out <= Z.of_nat f2 ->
  read_blob_loop f1 total out l = read_blob_loop f2 total out l.
Proof.
  revert f2 out l. induction f1 as [|f1 IH]; intros f2 out l H1 H2.
  { destruct f2; simpl; by rewrite (proj2 (Z.leb_le _ _)) by lia. }
  simpl. destruct f2 as [|f2]; simpl.
  { by rewrite (proj2 (Z.leb_le _ _)) by lia. }
  destruct (total <=? zlen out); [done|]. unfold mbind, M_bind.
  destruct (read_one_noise_msg out l) as [[out'|e|] l1]; [|done|done].
  destruct (Z.leb_spec (zlen out') (zlen out)); simpl; [done|].
  destruct (total <? zlen out'); [done|]. apply IH; lia.
Qed.

Lemma read_blob_loop_Ret fuel total out (l l' : Link T) blob :
  zlen out <= total -> read_blob_loop fuel total out l = (Ret blob, l') -> zlen blob = total.
Proof.
  revert out l. induction fuel as [|fuel IH]; intros out l Hout; simpl;
    destruct (Z.leb_spec total (zlen out)).
  1,3: intros [= <- _]; lia.
  - done.
  - intros (out' & l1 & _ & Hk)%M_bind_Ret.
    destruct (Z.leb_spec (zlen out') (zlen out)); simpl in Hk; [done|].
    destruct (Z.ltb_spec total (zlen out')); [done|]. by apply (IH out' l1); [lia|].
Qed.

(** Reading consumes: what is left of the input is strictly shorter. *)
Lemma noise_read_recv c (l l' : Link T) p : noise_read c l = (Ret p, l') -> lk_recv l' = lk_recv l.
Proof. unfold noise_read. destruct (read_message _ _) as [[]]; by intros [= <- <-]. Qed.

Definition unread (l : Link T) : nat := length (r_buf (lk_recv l)).

Lemma read_exact_unread n (l l' : Link T) x :
  read_exact n l = (Ret x, l') -> (unread l = n + unread l')%nat.
Proof. intros (Hl & Hb & _)%read_exact_Ret. unfold unread. rewrite Hb, length_app. lia. Qed.

Lemma read_frame_unread (l l' : Link T) p :
  read_noise_frame l = (Ret p, l') -> (unread l' < unread l)%nat.
Proof.
  intros (x & l1 & Hx & Hr)%M_bind_Ret. apply read_exact_unread in Hx. apply noise_read_recv in Hr.
  unfold unread in *. rewrite Hr. unfold FRAME_LEN, NOISE_TAG_LEN in Hx. lia.
Qed.

Lemma read_one_unread out (l l' : Link T) out' :
  read_one_noise_msg out l = (Ret out', l') -> (unread l' < unread l)%nat.
Proof.
  intros (x & l1 & Hx & Hr)%M_bind_Ret. apply read_exact_unread in Hx.
  cbv zeta in Hr. case_match; [done|]. apply M_bind_Ret in Hr as (c & l2 & Hc & Hr).
  apply read_exact_unread in Hc. apply M_bind_Ret in Hr as (p & l3 & Hp & [= _ <-]).
  apply noise_read_recv in Hp. unfold unread in *. rewrite Hp. lia.
Qed.

Lemma read_loop_unread fuel total out (l l' : Link T) blob :
  read_blob_loop fuel total out l = (Ret blob, l') -> (unread l' <= unread l)%nat.
Proof.
  revert out l. induction fuel as [|fuel IH]; intros out l; simpl.
  1,2: destruct (total <=? zlen out); [by intros [= _ <-]|]; try done.
  intros (out' & l1 & Hr & Hk)%M_bind_Ret. apply read_one_unread in Hr.
  case_match; [done|]. apply IH in Hk. lia.
Qed.

Lemma read_blob_unread cap (l l' : Link T) blob :
  read_noise_blob_capped cap l = (Ret blob, l') -> (unread l' < unread l)%nat.
Proof.
  intros (header & l1 & Hh & Hk)%M_bind_Ret. apply read_one_unread in Hh.
  destruct (length header =? 4)%nat; [|done]. simpl in Hk. case_match; [done|].
  apply read_loop_unread in Hk. lia.
Qed.

(** Writing leaves the input alone. *)
Definition keeps_recv {A} (m : M (Link T) A) : Prop := forall l, lk_recv (m l).2 = lk_recv l.

Lemma keeps_recv_bind {A B} (m : M (Link T) A) (k : A -> M (Link T) B) :
  keeps_recv m -> (forall a, keeps_recv (k a)) -> keeps_recv (m ≫= k).
Proof.
  intros Hm Hk l. unfold mbind, M_bind. specialize (Hm l).
  destruct (m l) as [[a|e|] l1]; simpl in *; [|done..]. by rewrite Hk.
Qed.

Lemma keeps_recv_write_all bytes : keeps_recv (write_all bytes).
Proof. intros l. unfold write_all. by repeat case_match. Qed.

Lemma keeps_recv_write_one msg : keeps_recv (write_one_noise_msg msg).
Proof.
  apply keeps_recv_bind; [intros l; unfold noise_write; by destruct (write_message _ _) as [[]]|].
  intros buf. case_match; [done|]. apply keeps_recv_bind; intros; apply keeps_recv_write_all.
Qed.

Lemma keeps_recv_write_blob max blob : keeps_recv (write_noise_blob max blob).
Proof.
  unfold write_noise_blob. case_match; [done|].
  apply keeps_recv_bind; [apply keeps_recv_write_one|]. intros _.
  induction (chunks _ blob) as [|c cs IH]; [done|].
  apply keeps_recv_bind; [apply keeps_recv_write_one|]. done.
Qed.

(** Writing is stalled only by a peer that grants no credit. *)
Lemma never_blocks_noise_write p : never_blocks (noise_write (T := T) p).
Proof. intros l Hl. unfold noise_write. by destruct (write_message _ _) as [[]]. Qed.

#[local] Hint Resolve never_blocks_noise_write : stall.

Lemma never_blocks_write_one msg : never_blocks (write_one_noise_msg (T := T) msg).
Proof. unfold write_one_noise_msg. eauto 8 with stall. Qed.

Lemma never_blocks_write_blob max blob : never_blocks (write_noise_blob (T := T) max blob).
Proof.
  unfold write_noise_blob. apply never_blocks_if; [apply never_blocks_fail|].
  apply never_blocks_bind; [apply never_blocks_write_one|]. intros _.
  induction (chunks _ blob) as [|c cs IH]; [apply never_blocks_ret|].
  apply never_blocks_bind; [apply never_blocks_write_one|done].
Qed.

(** A reader never hands its caller more than the cap, whatever the peer
    sends: a returned blob is exactly as long as announced, and the announced
    length is at most the cap. *)
Theorem blob_reader_bounded cap (l l' : Link T) blob :
  read_noise_blob_capped cap l = (Ret blob, l') -> zlen blob <= cap.
Proof.
  intros (header & l1 & _ & Hk)%M_bind_Ret. destruct (length header =? 4)%nat; [|done].
  simpl in Hk. destruct (Z.ltb_spec cap (from_be_bytes header)); [done|].
  apply read_blob_loop_Ret in Hk; [lia|]. apply from_be_bytes_range.
Qed.

(** A silent peer cannot hold a handshake open: on every pair of streams,
    in either role and pattern, the handshake returns or fails, unless the peer
    grants no credit to write. *)
Theorem handshake_never_stalls sk pk s r :
  willing s ->
  (noise_responder_handshake_bound (HS := HS) (T := T) sk s r).1.1 <> Block /\
  (noise_initiator_handshake_bound (HS := HS) (T := T) sk pk s r).1.1 <> Block /\
  (noise_ik_responder_handshake (HS := HS) (T := T) sk s r).1.1 <> Block /\
  (noise_ik_initiator_handshake (HS := HS) (T := T) sk pk s r).1.1 <> Block.
Proof.
  intros Hs. split_and!; (apply with_handshake_returns; [|done]); repeat (apply never_blocks_bind; [|intros ?]);
    auto with stall.
  - intros l Hl. repeat case_match; done.
  - case_match; auto with stall.
  - case_match; auto with stall.
Qed.

Lemma handshake_runs `{!NoiseHandshakeLaws HS T} i_sk r_sk si sr ei er :
  exists w1 w2 w3 ti tr h,
    noise_initiator_handshake_bound (HS := HS) i_sk (public_key r_sk) (mkSend si None)
      (mkRecv w2 ei) = (Ret (ti, h), mkSend (si ++ w1 ++ w3) None, mkRecv [] ei) /\
    (forall rest, noise_responder_handshake_bound (HS := HS) r_sk (mkSend sr None)
       (mkRecv (w1 ++ w3 ++ rest) er) = (Ret (tr, h), mkSend (sr ++ w2) None, mkRecv rest er)) /\
    channel ti tr /\ channel tr ti.
Proof.
  destruct (xk_completes i_sk r_sk) as (i0 & i1 & i2 & i3 & r0 & r1 & r2 & r3 & m1 & m2 & m3 & ti
    & tr & Hi0 & Hr0 & Hw1 & Hd1 & Hw2 & Hd2 & Hw3 & Hd3 & Hsz & Hti & Htr & Hh & Hc1 & Hc2).
  rewrite !Forall_cons in Hsz. destruct Hsz as (Hs1 & Hs2 & Hs3 & _).
  exists (handshake_frame m1), (handshake_frame m2), (handshake_frame m3), ti, tr,
    (get_handshake_hash (T := T) i3).
  split; [|split; [|done]].
  - unfold noise_initiator_handshake_bound, with_handshake. rewrite Hi0.
    unfold mbind, M_bind, hs_write, hs_read. simpl. rewrite Hw1.
    rewrite write_handshake_frame by done. rewrite <- (app_nil_r (handshake_frame m2)).
    rewrite read_handshake_frame by done. simpl. rewrite Hd2. simpl. rewrite Hw3.
    rewrite write_handshake_frame by done. unfold finish, mbind, M_bind, lift. simpl.
    rewrite Hti. simpl. by rewrite <- app_assoc.
  - intros rest. unfold noise_responder_handshake_bound, with_handshake. rewrite Hr0.
    unfold mbind, M_bind, hs_write, hs_read. rewrite read_handshake_frame by done. simpl.
    rewrite Hd1. simpl. rewrite Hw2. rewrite write_handshake_frame by done.
    rewrite read_handshake_frame by done. simpl. rewrite Hd3.
    unfold finish, mbind, M_bind, lift. simpl. rewrite Htr. simpl. by rewrite Hh.
Qed.

(** C28. Handshake agreement: an initiator that knows the responder's key and a
    responder with that key, each reading what the other sends, both finish,
    with the same channel binding and a working channel in each direction. *)
Theorem handshake_agreement `{!NoiseHandshakeLaws HS T} i_sk r_sk si sr ei er :
  exists w1 w2 w3 ti tr h,
    noise_initiator_handshake_bound (HS := HS) i_sk (public_key r_sk) (mkSend si None)
      (mkRecv w2 ei) = (Ret (ti, h), mkSend (si ++ w1 ++ w3) None, mkRecv [] ei) /\
    noise_responder_handshake_bound (HS := HS) r_sk (mkSend sr None) (mkRecv (w1 ++ w3) er) =
      (Ret (tr, h), mkSend (sr ++ w2) None, mkRecv [] er) /\
    channel ti tr /\ channel tr ti.
Proof.
  destruct (handshake_runs i_sk r_sk si sr ei er) as (w1 & w2 & w3 & ti & tr & h & Hi & Hr & Hc).
  exists w1, w2, w3, ti, tr, h. specialize (Hr []). rewrite app_nil_r in Hr. done.
Qed.
End wire_properties.

(** ** An executable Noise

    Message counters in place of cipher states, for the concrete runs. *)
Module ToyNoise.
Definition tag (n : Z) : list byte := repeat (byte_of_Z n) 16.

(** Counters of the messages written and read. *)
Definition state : Type := Z * Z.

Definition transport : NoiseTransport state := {|
  write_message := fun t p =>
    if zlen p + 16 <=? NOISE_MAX_MSG then (Ok (p ++ tag t.1), (t.1 + 1, t.2)) else (Err Noise, t);
  read_message := fun t c =>
    let k := (length c - 16)%nat in
    if (16 <=? zlen c) && bool_decide (drop k c = tag t.2) then (Ok (take k c), (t.1, t.2 + 1))
    else (Err Noise, t);
  channel := fun a b => a.1 = b.2;
|}.

Definition pad (pk : list byte) : list byte := take 32 (pk ++ repeat x00 32).

Record hs : Type := HS { h_init : bool; h_step : Z; h_my : list byte; h_peer : list byte }.

Definition hs_write_toy (h : hs) : result TransportError (list byte) * hs :=
  let next := HS (h_init h) (h_step h + 1) (h_my h) (h_peer h) in
  if h_init h && (h_step h =? 0) then (Ok (pad (h_peer h) ++ pad (h_my h)), next)
  else if negb (h_init h) && (h_step h =? 1) then (Ok [x02], next)
  else if h_init h && (h_step h =? 2) then (Ok [x03], next)
  else (Err Noise, h).

Definition hs_read_toy (h : hs) (m : list byte) : result TransportError unit * hs :=
  let next p := HS (h_init h) (h_step h + 1) (h_my h) p in
  if negb (h_init h) && (h_step h =? 0) then
    if decide (take 32 m = pad (h_my h)) then (Ok tt, next (drop 32 m)) else (Err Noise, h)
  else if h_init h && (h_step h =? 1) && bool_decide (m = [x02]) then (Ok tt, next (h_peer h))
  else if negb (h_init h) && (h_step h =? 2) && bool_decide (m = [x03]) then (Ok tt, next (h_peer h))
  else (Err Noise, h).

Section hs.
Context `{!Gotham}.

Definition handshake : NoiseHandshake hs state := {|
  build_initiator := fun _ sk pk => Ok (HS true 0 (public_key sk) pk);
  build_responder := fun _ sk => Ok (HS false 0 (public_key sk) []);
  hs_write_message := hs_write_toy;
  hs_read_message := hs_read_toy;
  get_handshake_hash := fun h => if h_init h then pad (h_peer h) else pad (h_my h);
  get_remote_static := fun h => if h_init h then None else Some (h_peer h);
  into_transport_mode := fun h => if 2 <=? h_step h then Ok (0, 0) else Err Noise;
|}.
End hs.
End ToyNoise.

Lemma toy_noise_laws : @NoiseTransportLaws ToyNoise.state ToyNoise.transport.
Proof.
  split.
  - intros [a1 a2] [b1 b2] p Hch Hp. simpl in Hch. subst b2.
    exists (p ++ ToyNoise.tag a1), (a1 + 1, a2), (b1, a1 + 1). simpl.
    rewrite (proj2 (Z.leb_le _ _)) by done. split; [done|]. rewrite zlen_app.
    split; [done|]. split; [|done].
    rewrite (proj2 (Z.leb_le _ _)) by (unfold zlen; simpl; lia). simpl.
    replace (length (p ++ ToyNoise.tag a1) - 16)%nat with (length p)
      by (rewrite length_app; unfold ToyNoise.tag; rewrite repeat_length; lia).
    rewrite drop_app_length, bool_decide_eq_true_2 by done. by rewrite take_app_length.
  - intros [b1 b2] c p b'. simpl. destruct (Z.leb_spec 16 (zlen c)); simpl; [|done].
    case_bool_decide; [|done]. intros [= <- _]. unfold zlen in *. rewrite length_take. lia.
  - intros [b1 b2] [c1 c2] x. simpl. by case_match.
  - intros [a1 a2] [c1 c2] x. simpl. by case_match.
Qed.

Lemma toy_handshake_laws `{!Gotham} :
  @NoiseHandshakeLaws _ _ _ ToyNoise.transport ToyNoise.handshake.
Proof.
  split. intros i_sk r_sk. set (pki := public_key i_sk). set (pkr := public_key r_sk).
  assert (forall pk, length (ToyNoise.pad pk) = 32%nat) as Hpad.
  { intros pk. unfold ToyNoise.pad. rewrite length_take, length_app, repeat_length. lia. }
  eexists (ToyNoise.HS true 0 pki pkr), (ToyNoise.HS true 1 pki pkr), (ToyNoise.HS true 2 pki pkr),
    (ToyNoise.HS true 3 pki pkr), (ToyNoise.HS false 0 pkr []),
    (ToyNoise.HS false 1 pkr (ToyNoise.pad pki)), (ToyNoise.HS false 2 pkr (ToyNoise.pad pki)),
    (ToyNoise.HS false 3 pkr (ToyNoise.pad pki)), (ToyNoise.pad pkr ++ ToyNoise.pad pki),
    [x02], [x03], (0, 0), (0, 0).
  do 3 (split; [done|]). split.
  { simpl. unfold ToyNoise.hs_read_toy. simpl.
    rewrite <- (Hpad pkr), take_app_length, drop_app_length. by rewrite decide_True. }
  do 4 (split; [done|]). split; [|done].
  repeat constructor; try by vm_compute. unfold zlen. rewrite length_app, !Hpad. by vm_compute.
Qed.

Module WireDemo.
#[local] Existing Instances Toy.gotham ToyNoise.transport ToyNoise.handshake.

Definition blob : list byte := repeat x2a 100.

Lemma blob_survives_the_wire_witness :
  exists w a' b', channel a' b' /\
    (forall so r, write_noise_blob 1000 blob (mkLink (mkSend so None) r (3, 0)) =
       (Ret tt, mkLink (mkSend (so ++ w) None) r a')) /\
    (forall s rest e, read_noise_blob_capped 100 (mkLink s (mkRecv (w ++ rest) e) (9, 3)) =
       (Ret blob, mkLink s (mkRecv rest e) b')).
Proof.
  apply (@blob_survives_the_wire _ _ toy_noise_laws (3, 0) (9, 3) 1000 100 blob);
    [reflexivity|by vm_compute..].
Defined.

(** What a writer sends. *)
Definition sent (l : Link ToyNoise.state) : list byte := s_out (lk_send l).

Definition wire : list byte :=
  sent (write_noise_blob 1000 blob (mkLink (mkSend [] None) (mkRecv [] Finished) (0, 0))).2.

Lemma blob_reader_bounded_witness : zlen blob <= 200.
Proof.
  apply (blob_reader_bounded 200 (mkLink (mkSend [] None) (mkRecv wire Finished) (0, 0))
           (mkLink (mkSend [] None) (mkRecv [] Finished) (0, 2)) blob).
  vm_compute. reflexivity.
Defined.

(** A peer that stops after announcing one byte more than it sends. *)
Example stalled_blob :
  (read_noise_blob_capped 200 (mkLink (mkSend [] None) (mkRecv (take 60 wire) Stalled) (0, 0))).1 =
  Block.
Proof. vm_compute. reflexivity. Qed.

Lemma handshake_agreement_witness :
  exists w1 w2 w3 ti tr h,
    noise_initiator_handshake_bound (HS := ToyNoise.hs) (Toy.sk 9) (public_key (Toy.sk 1))
      (mkSend [] None) (mkRecv w2 Stalled) =
      (Ret (ti, h), mkSend ([] ++ w1 ++ w3) None, mkRecv [] Stalled) /\
    noise_responder_handshake_bound (HS := ToyNoise.hs) (Toy.sk 1) (mkSend [] None)
      (mkRecv (w1 ++ w3) Finished) = (Ret (tr, h), mkSend ([] ++ w2) None, mkRecv [] Finished) /\
    channel ti tr /\ channel tr ti.
Proof.
  apply (@handshake_agreement _ _ _ _ _ toy_handshake_laws (Toy.sk 9) (Toy.sk 1)).
Defined.
End WireDemo.
