(* ===== verification/Services.v ===== *)
(** * Services on a connection ([transport.rs], delivery handlers, mailbox,
    gossip and rendezvous-query connections)

    The exit relay hands delivered payloads to a handler; clients talk to the
    mailbox, gossip and rendezvous-query services over Noise.  The mailbox,
    the roster, sealed envelopes and single-use reply blocks belong to other
    crates or to modules absent from the repository and are interfaces.

    The main theorem is that a mailbox session over the wire is the fold of
    the request handler over the requests, at most 512 of them; the handler
    deletes nothing without a valid possession proof. *)

From S2P Require Import Prelude Fs Gotham Rand F64 Wire.

(** ** Interfaces *)

(** [crypto_gotham::sealed]. *)
Class Sealed (R : Type) `{!Gotham} := {
  seal : R -> list byte -> list byte -> list byte -> result GothamError (list byte) * R;
  unseal : list byte -> list byte -> result GothamError (list byte * list byte);
}.

Class SealedLaws (R : Type) `{!Gotham, !Sealed R} : Prop := {
  unseal_seal : forall rng sk sender body env rng',
    seal rng (public_key sk) sender body = (Ok env, rng') -> unseal sk env = Ok (sender, body);
}.

(** [crypto_gotham::mailbox]: possession proofs, the wire types and the store. *)
Class MailboxAuth := {
  FetchAuth : Type;
  auth_pk : FetchAuth -> list byte;
  auth_verify : FetchAuth -> list byte -> list byte -> list byte -> bool;
  surb_fetch_binding : list byte -> list byte;
}.

Inductive MailboxRequest `{!MailboxAuth} : Type :=
| Deposit (id : list byte) (sealed : list byte) (ttl_secs : Z)
| Fetch (id : list byte) (auth : option FetchAuth)
| FetchWithSurb (id : list byte) (surb : list byte) (auth : option FetchAuth).

Class MailboxApi `{!MailboxAuth} := {
  MailboxWireError : Type;
  RateLimited : MailboxWireError;
  Unauthorized : MailboxWireError;
  MalformedRequest : MailboxWireError;
  Mailbox : Type;
  deposit : Mailbox -> list byte -> list byte -> Z -> Z -> result MailboxWireError unit * Mailbox;
  fetch_batch : Mailbox -> list byte -> Z -> Z -> list (list byte) * bool * Mailbox;
  request_from_bytes : list byte -> option MailboxRequest;
  MAX_MAILBOX_FRAME : Z;
}.

Inductive MailboxResponse `{!MailboxAuth, !MailboxApi} : Type :=
| Ack
| Delivery (sealed : list (list byte)) (more : bool)
| Error (e : MailboxWireError).

(** What a store-and-forward mailbox keeps: [stored] lists the envelopes with
    the mailbox they are for, in any order.  A deposit adds at most its
    envelope, and nothing when it is refused; a fetch takes what it hands out;
    either may drop what has expired. *)
Class MailboxLaws `{!MailboxAuth, !MailboxApi} := {
  stored : Mailbox -> list (list byte * list byte);
  deposit_stored : forall mb id sealed now ttl,
    stored (deposit mb id sealed now ttl).2 ⊆+
    (match (deposit mb id sealed now ttl).1 with Ok _ => [(id, sealed)] | Err _ => [] end) ++ stored mb;
  fetch_stored : forall mb id now budget sealed more mb',
    fetch_batch mb id now budget = (sealed, more, mb') ->
    (pair id <$> sealed) ++ stored mb' ⊆+ stored mb;
}.

(** The encoder of replies. *)
Class MailboxCodec `{!MailboxAuth, !MailboxApi} := {
  response_to_bytes : MailboxResponse -> option (list byte);
}.

(** ** Delivery handlers *)

(** The length-prefixed envelope at the start of a payload. *)
Definition unframe (payload : list byte) : option (list byte) :=
  if (length payload <? 4)%nat then None else
  let env_len := from_be_bytes (take 4 payload) in
  if zlen payload <? 4 + env_len then None
  else Some (take (Z.to_nat env_len) (drop 4 payload)).

Section handlers.
Context `{!Gotham} {R : Type} `{!Sealed R, !MailboxAuth, !MailboxApi}.

(** [make_unsealing_delivery_handler]: what is passed on to the inner handler. *)
Definition unsealing_delivery_handler (recipient_sk payload : list byte)
    : option (list byte * list byte) :=
  envelope ← unframe payload;
  result_ok (unseal recipient_sk envelope).

(** What a handler spawns. *)
Inductive task : Type :=
| TDeposit (id sealed : list byte) (ttl_secs : Z)
| TSurbFetch (id surb : list byte).

Definition mailbox_deposit_handler (host_sk payload : list byte) : option task :=
  '(_, body) ← unsealing_delivery_handler host_sk payload;
  match request_from_bytes body with
  | Some (Deposit id sealed ttl) => Some (TDeposit id sealed ttl)
  | _ => None
  end.

(** [surb_ok] is [Surb::from_bytes(..).is_some()] of the absent [surb] module. *)
Definition mailbox_service_handler (surb_ok : list byte -> bool) (host_sk payload : list byte)
    : option task :=
  '(_, body) ← unsealing_delivery_handler host_sk payload;
  match request_from_bytes body with
  | Some (Deposit id sealed ttl) => Some (TDeposit id sealed ttl)
  | Some (FetchWithSurb id surb auth) =>
      match auth with
      | None => None
      | Some auth =>
          let shared := x25519 host_sk (auth_pk auth) in
          let binding := surb_fetch_binding surb in
          if negb (auth_verify auth shared binding id) then None
          else if surb_ok surb then Some (TSurbFetch id surb) else None
      end
  | _ => None
  end.

(** [SURB_FETCH_BUDGET]: the payload size less 256. *)
Definition SURB_FETCH_BUDGET : Z := Z.of_nat (PACKET_SIZE - HEADER_LEN) - 256.

(** The first critical section of a spawned task; a fetch returns the batch it
    drained and whether more is left. *)
Definition task_start (t : task) (mb : Mailbox) (now : Z) : list (list byte) * bool * Mailbox :=
  match t with
  | TDeposit id sealed ttl => ([], false, (deposit mb id sealed now ttl).2)
  | TSurbFetch id _ => fetch_batch mb id now SURB_FETCH_BUDGET
  end.

Fixpoint redeposit (id : list byte) (now : Z) (sealed : list (list byte)) (mb : Mailbox) : Mailbox :=
  match sealed with
  | [] => mb
  | env :: sealed => redeposit id now sealed (deposit mb id env now 0).2
  end.

(** Whether the reply of a fetch could be encoded and shipped
    ([ship_surb_reply] of the absent [surb] module says the latter). *)
Definition surb_shipped `{!MailboxCodec} (ship : list byte -> list byte -> bool) (surb : list byte)
    (drained : list (list byte)) (more : bool) : bool :=
  match response_to_bytes (Delivery drained more) with
  | Some bytes => ship surb bytes
  | None => false
  end.

(** The rest of a fetch: the reply is shipped and, when it could not be, every
    drained envelope is deposited again, in a second critical section. *)
Definition task_finish `{!MailboxCodec} (ship : list byte -> list byte -> bool) (t : task)
    (drained : list (list byte)) (more : bool) (now : Z) (mb : Mailbox) : Mailbox :=
  match t, drained with
  | TDeposit _ _ _, _ | _, [] => mb
  | TSurbFetch id surb, _ =>
      if surb_shipped ship surb drained more then mb else redeposit id now drained mb
  end.
End handlers.

(** ** The mailbox connection *)
Definition MAILBOX_FETCH_BUDGET : Z := 1024 * 1024.
Definition MAX_MAILBOX_REQUESTS_PER_CONN : nat := 512.

Section mailbox_conn.
Context `{!Gotham, !MailboxAuth, !MailboxApi, !MailboxCodec} {HS T : Type}
  `{!NoiseTransport T, !NoiseHandshake HS T}.

(** The [match] on a decoded request. *)
Definition handle_request (static_sk binding : list byte) (allow_unauthenticated_fetch : bool)
    (now : Z) (blob : list byte) (mb : Mailbox) : MailboxResponse * Mailbox :=
  match request_from_bytes blob with
  | Some (Deposit id sealed ttl_secs) =>
      match deposit mb id sealed now ttl_secs with
      | (Ok _, mb) => (Ack, mb)
      | (Err e, mb) => (Error e, mb)
      end
  | Some (Fetch id (Some a)) =>
      if auth_verify a (x25519 static_sk (auth_pk a)) binding id then
        let '(sealed, more, mb) := fetch_batch mb id now MAILBOX_FETCH_BUDGET in
        (Delivery sealed more, mb)
      else (Error Unauthorized, mb)
  | Some (Fetch id None) =>
      if allow_unauthenticated_fetch then
        let '(sealed, more, mb) := fetch_batch mb id now MAILBOX_FETCH_BUDGET in
        (Delivery sealed more, mb)
      else (Error Unauthorized, mb)
  | Some (FetchWithSurb _ _ _) => (Error MalformedRequest, mb)
  | None => (Error MalformedRequest, mb)
  end.

(** A reply, encoded and written. *)
Definition write_response (resp : MailboxResponse) : M (Link T) unit :=
  match response_to_bytes resp with
  | Some bytes => write_noise_blob MAX_MAILBOX_FRAME bytes
  | None => fail BadHandshake
  end.

(** The request loop; [now i] is the wall clock at the [i]-th request.  The
    counter ends the loop after [MAX_MAILBOX_REQUESTS_PER_CONN] requests, so
    one round more is all the fuel it needs. *)
Fixpoint mailbox_loop (fuel : nat) (sk binding : list byte) (allow : bool) (now : nat -> Z)
    (served : nat) (mb : Mailbox) (l : Link T) : io unit * Mailbox * Link T :=
  match fuel with
  | O => (Block, mb, l)
  | S fuel =>
      match read_noise_blob MAX_MAILBOX_FRAME l with
      | (Fail Read, l) | (Fail (Io _), l) => (Ret tt, mb, l)
      | (Fail e, l) => (Fail e, mb, l)
      | (Block, l) => (Block, mb, l)
      | (Ret blob, l) =>
          let served := S served in
          if (MAX_MAILBOX_REQUESTS_PER_CONN <? served)%nat then
            match response_to_bytes (Error RateLimited) with
            | None => (Fail BadHandshake, mb, l)
            | Some bytes =>
                match write_noise_blob MAX_MAILBOX_FRAME bytes l with
                | (Block, l) => (Block, mb, l)
                | (_, l) => (Ret tt, mb, l)
                end
            end
          else
            let '(resp, mb) := handle_request sk binding allow (now served) blob mb in
            match write_response resp l with
            | (Ret _, l) => mailbox_loop fuel sk binding allow now served mb l
            | (Fail e, l) => (Fail e, mb, l)
            | (Block, l) => (Block, mb, l)
            end
      end
  end.

Definition serve_mailbox_connection (sk : list byte) (allow : bool) (now : nat -> Z)
    (mb : Mailbox) (s : SendStream) (r : RecvStream)
    : io unit * Mailbox * SendStream * RecvStream :=
  match noise_responder_handshake_bound (HS := HS) sk s r with
  | (Ret (noise, binding), s, r) =>
      let '(res, mb, l) := mailbox_loop (S MAX_MAILBOX_REQUESTS_PER_CONN) sk binding allow now 0 mb
                             (mkLink s r noise) in
      (res, mb, lk_send l, lk_recv l)
  | (Fail e, s, r) => (Fail e, mb, s, r)
  | (Block, s, r) => (Block, mb, s, r)
  end.
End mailbox_conn.

(** ** Gossip and rendezvous queries *)
Class RosterApi := {
  Roster : Type;
  AuthoritySet : Type;
  roster_from_slice : list byte -> option Roster;
  roster_to_vec : Roster -> option (list byte);
  verify_incoming : Roster -> AuthoritySet -> Z -> Roster;
  splice_verified : Roster -> Roster -> Z * Roster;
}.

Section gossip.
Context `{!MailboxAuth, !MailboxApi, !RosterApi} {HS T : Type} `{!NoiseTransport T, !NoiseHandshake HS T}.

(** One exchange: merge what verifies of the peer's roster. *)
Definition merge_gossip (set : AuthoritySet) (now : Z) (blob : list byte) (roster : Roster) : Roster :=
  match roster_from_slice blob with
  | Some peer => (splice_verified roster (verify_incoming peer set now)).2
  | None => roster
  end.

(** Every round reads at least one message, so the bytes the peer sends bound
    the rounds. *)
Fixpoint gossip_loop (fuel : nat) (set : AuthoritySet) (now : nat -> Z) (i : nat)
    (roster : Roster) (l : Link T) : io unit * Roster * Link T :=
  match fuel with
  | O => (Block, roster, l)
  | S fuel =>
      match read_noise_blob_capped MAX_GOSSIP_FRAME l with
      | (Fail Read, l) | (Fail (Io _), l) => (Ret tt, roster, l)
      | (Fail e, l) => (Fail e, roster, l)
      | (Block, l) => (Block, roster, l)
      | (Ret blob, l) =>
          let roster := merge_gossip set (now i) blob roster in
          match roster_to_vec roster with
          | None => (Fail BadHandshake, roster, l)
          | Some bytes =>
              match write_noise_blob MAX_MAILBOX_FRAME bytes l with
              | (Ret _, l) => gossip_loop fuel set now (S i) roster l
              | (Fail e, l) => (Fail e, roster, l)
              | (Block, l) => (Block, roster, l)
              end
          end
      end
  end.

Definition serve_gossip_connection (sk : list byte) (set : AuthoritySet) (now : nat -> Z)
    (roster : Roster) (s : SendStream) (r : RecvStream)
    : io unit * Roster * SendStream * RecvStream :=
  match noise_responder_handshake (HS := HS) sk s r with
  | (Ret noise, s, r) =>
      let '(res, roster, l) :=
        gossip_loop (S (length (r_buf r))) set now 0 roster (mkLink s r noise) in
      (res, roster, lk_send l, lk_recv l)
  | (Fail e, s, r) => (Fail e, roster, s, r)
  | (Block, s, r) => (Block, roster, s, r)
  end.

(** The fuel [serve_gossip_connection] gives the loop is never exhausted. *)
Lemma gossip_loop_fuel f1 f2 set now i roster (l : Link T) :
  (unread l < f1)%nat -> (unread l < f2)%nat ->
  gossip_loop f1 set now i roster l = gossip_loop f2 set now i roster l.
Proof.
  revert f2 i roster l. induction f1 as [|f1 IH]; intros [|f2] i roster l Hf1 Hf2; try lia.
  simpl. destruct (read_noise_blob_capped MAX_GOSSIP_FRAME l) as [[blob|e|] l1] eqn:Hr; [|done..].
  apply read_blob_unread in Hr. destruct (roster_to_vec _) as [bytes|]; [|done].
  pose proof (keeps_recv_write_blob MAX_MAILBOX_FRAME bytes l1) as Hu.
  destruct (write_noise_blob MAX_MAILBOX_FRAME bytes l1) as [[u|e|] l2]; [|done..].
  simpl in Hu. unfold unread in *. rewrite <- Hu in Hr. apply IH; lia.
Qed.
End gossip.

Section rendezvous_query.
Context {HS T : Type} `{!NoiseTransport T, !NoiseHandshake HS T}.

(** [hosted] is the membership test of the rendezvous table. *)
Definition serve_rendezvous_query (static_sk : list byte) (authority_pop_pk : option (list byte))
    (hosted : list byte -> bool) (s : SendStream) (r : RecvStream)
    : io unit * SendStream * RecvStream :=
  match authority_pop_pk with
  | None => (Fail BadHandshake, s, r)
  | Some expected =>
      match noise_ik_responder_handshake (HS := HS) static_sk s r with
      | (Fail e, s, r) => (Fail e, s, r)
      | (Block, s, r) => (Block, s, r)
      | (Ret (noise, querier_pk), s, r) =>
          if decide (querier_pk <> expected) then (Fail BadHandshake, s, r) else
          let '(res, l) :=
            (pk ← read_one_noise_msg [];
             if negb (length pk =? 32)%nat then fail BadHandshake else
             _ ← write_one_noise_msg [if hosted pk then x01 else x00];
             stopped) (mkLink s r noise) in
          (res, lk_send l, lk_recv l)
      end
  end.

(** One answer of the table matters. *)
Lemma query_asks_once sk pop hosted s r :
  exists b, serve_rendezvous_query sk pop hosted s r = serve_rendezvous_query sk pop (fun _ => b) s r.
Proof.
  unfold serve_rendezvous_query. destruct pop as [expected|]; [|by exists true].
  destruct (noise_ik_responder_handshake sk s r) as [[[[noise pk]|e|] s'] r']; [|by exists true..].
  case_decide; [by exists true|]. unfold mbind, M_bind.
  destruct (read_one_noise_msg [] (mkLink s' r' noise)) as [[q|e|] l]; [|by exists true..]. by exists (hosted q).
Qed.

(** The outer [tokio::time::timeout]: waiting longer is [Unreachable]. *)
Definition within {A} (timeout : Z) (x : io A) : io A :=
  match x with Block => Fail (Unreachable timeout) | _ => x end.

(** The querying side; [connect] is the outcome of reaching the relay and
    opening a stream, [idle] that of [endpoint.wait_idle()] after the
    connection was closed, which the timeout covers too. *)
Definition probe_rendezvous_hosting (connect idle : io unit) (timeout : Z)
    (authority_pop_sk r_pk n_pk : list byte) (s : SendStream) (r : RecvStream)
    : io bool * SendStream * RecvStream :=
  match connect with
  | Fail e => (Fail e, s, r)
  | Block => (within timeout Block, s, r)
  | Ret _ =>
      match noise_ik_initiator_handshake (HS := HS) authority_pop_sk r_pk s r with
      | (Fail e, s, r) => (Fail e, s, r)
      | (Block, s, r) => (within timeout Block, s, r)
      | (Ret noise, s, r) =>
          let '(res, l) := (_ ← write_one_noise_msg n_pk; read_one_noise_msg []) (mkLink s r noise) in
          (within timeout
             (and_then res (fun buf => and_then idle (fun _ =>
                Ret (bool_decide (1 <= zlen buf) && bool_decide (head buf = Some x01))))),
           lk_send l, lk_recv l)
      end
  end.

Definition probe_relay_liveness (connect idle : io unit) (timeout : Z)
    (initiator_sk expected_pk : list byte) (s : SendStream) (r : RecvStream)
    : io unit * SendStream * RecvStream :=
  match connect with
  | Fail e => (Fail e, s, r)
  | Block => (within timeout Block, s, r)
  | Ret _ =>
      let '(res, s, r) := noise_initiator_handshake (HS := HS) (T := T) initiator_sk expected_pk s r in
      (within timeout (and_then res (fun _ => idle)), s, r)
  end.
End rendezvous_query.

(** ** Sessions

    What a mailbox connection amounts to: the handler folded over the requests. *)
Section sessions.
Context `{!Gotham, !MailboxAuth, !MailboxApi, !MailboxCodec} {T : Type}
  `{!NoiseTransport T, !NoiseTransportLaws T}.

Fixpoint session (sk binding : list byte) (allow : bool) (now : nat -> Z) (served : nat)
    (mb : Mailbox) (blobs : list (list byte)) : list MailboxResponse * Mailbox :=
  match blobs with
  | [] => ([], mb)
  | blob :: blobs =>
      let '(resp, mb) := handle_request sk binding allow (now (S served)) blob mb in
      let '(resps, mb) := session sk binding allow now (S served) mb blobs in (resp :: resps, mb)
  end.

(** The client's ends: send all requests, read that many replies. *)
Fixpoint write_blobs (blobs : list (list byte)) : M (Link T) unit :=
  match blobs with
  | [] => mret tt
  | b :: blobs => _ ← write_noise_blob MAX_MAILBOX_FRAME b; write_blobs blobs
  end.

Fixpoint read_blobs (n : nat) : M (Link T) (list (list byte)) :=
  match n with
  | O => mret []
  | S n => b ← read_noise_blob MAX_MAILBOX_FRAME; bs ← read_blobs n; mret (b :: bs)
  end.

(** Replies as they go over the wire. *)
Definition encoded (r : MailboxResponse) (b : list byte) : Prop :=
  response_to_bytes r = Some b /\ zlen b <= MAX_MAILBOX_FRAME.

Lemma read_blob_end (s : SendStream) (n : T) max :
  read_noise_blob max (mkLink s (mkRecv [] Finished) n) =
  (Fail Read, mkLink s (mkRecv [] Finished) n).
Proof. done. Qed.

Lemma mailbox_loop_session fuel sk binding allow now served mb blobs a sv c replies :
  MAX_MAILBOX_FRAME < 2 ^ 32 -> channel a sv -> channel sv c ->
  (served + length blobs <= MAX_MAILBOX_REQUESTS_PER_CONN)%nat -> (length blobs < fuel)%nat ->
  Forall (fun b => zlen b <= MAX_MAILBOX_FRAME) blobs ->
  Forall2 encoded (session sk binding allow now served mb blobs).1 replies ->
  exists wq wr a' c',
    (forall so r, write_blobs blobs (mkLink (mkSend so None) r a) =
       (Ret tt, mkLink (mkSend (so ++ wq) None) r a')) /\
    (forall so, exists l', mailbox_loop fuel sk binding allow now served mb
         (mkLink (mkSend so None) (mkRecv wq Finished) sv) =
         (Ret tt, (session sk binding allow now served mb blobs).2, l') /\
       lk_send l' = mkSend (so ++ wr) None) /\
    (forall s rest e, read_blobs (length blobs) (mkLink s (mkRecv (wr ++ rest) e) c) =
       (Ret replies, mkLink s (mkRecv rest e) c')).
Proof.
  intros Hmax. revert fuel served mb a sv c replies.
  induction blobs as [|blob blobs IH];
    intros [|fuel] served mb a sv c replies Ha Hc Hn Hfuel Hsz Hrep; simpl in *; try lia.
  { inversion Hrep; subst. exists [], [], a, c. split_and!.
    - intros so r. by rewrite app_nil_r.
    - intros so. eexists. split; [done|]. simpl. by rewrite app_nil_r.
    - done. }
  apply Forall_cons in Hsz as [Hb Hsz].
  destruct (handle_request sk binding allow (now (S served)) blob mb) as [resp mb1] eqn:Hh.
  destruct (session sk binding allow now (S served) mb1 blobs) as [resps mb2] eqn:Hs. simpl in *.
  apply Forall2_cons_inv_l in Hrep as (bytes & replies' & [Henc Hbl] & Hrep' & ->).
  destruct (blob_carries a sv MAX_MAILBOX_FRAME MAX_MAILBOX_FRAME blob Ha Hb Hb ltac:(lia))
    as (wq & a1 & sv1 & Ha1 & Ho1 & _ & Hw & Hr).
  destruct (blob_carries sv1 c MAX_MAILBOX_FRAME MAX_MAILBOX_FRAME bytes (Ho1 _ Hc) Hbl Hbl
    ltac:(lia)) as (wr & sv2 & c1 & Hc1 & _ & Hi2 & Hw2 & Hr2).
  destruct (IH fuel (S served) mb1 a1 sv2 c1 replies' (Hi2 _ Ha1) Hc1 ltac:(lia) ltac:(lia) Hsz)
    as (wq' & wr' & a' & c' & HW & HL & HR); [by rewrite Hs|].
  exists (wq ++ wq'), (wr ++ wr'), a', c'. split_and!.
  - intros so r. unfold mbind, M_bind. by rewrite Hw, HW, <- app_assoc.
  - intros so. unfold read_noise_blob. rewrite Hr.
    rewrite (proj2 (Nat.ltb_ge _ _)) by lia. rewrite Hh.
    unfold write_response. rewrite Henc, Hw2. destruct (HL (so ++ wr)) as (l' & -> & Hl').
    exists l'. rewrite Hs. split; [done|]. by rewrite Hl', <- app_assoc.
  - intros s rest e. unfold mbind, M_bind, read_noise_blob. rewrite <- app_assoc, Hr2, HR. done.
Qed.

(** Writing requests leaves the replies' direction alone. *)
Lemma write_blobs_out blobs a sv :
  MAX_MAILBOX_FRAME < 2 ^ 32 -> channel a sv ->
  Forall (fun b => zlen b <= MAX_MAILBOX_FRAME) blobs ->
  exists wq a', (forall c, channel c a -> channel c a') /\
    (forall so r, write_blobs blobs (mkLink (mkSend so None) r a) =
       (Ret tt, mkLink (mkSend (so ++ wq) None) r a')).
Proof.
  intros Hmax Ha Hsz. revert a sv Ha. induction Hsz as [|b blobs Hb _ IH]; intros a sv Ha.
  { exists [], a. split; [done|]. intros. by rewrite app_nil_r. }
  destruct (blob_carries a sv MAX_MAILBOX_FRAME MAX_MAILBOX_FRAME b Ha Hb Hb ltac:(lia))
    as (w & a1 & sv1 & Ha1 & _ & Hi & Hw & _).
  destruct (IH a1 sv1 Ha1) as (wq & a' & Hi' & HW). exists (w ++ wq), a'. split; [auto|].
  intros so r. simpl. unfold mbind, M_bind. by rewrite Hw, HW, <- app_assoc.
Qed.

(** The request after the last allowed one is answered [RateLimited] and ends
    the loop. *)
Lemma mailbox_loop_budget fuel sk binding allow now mb blob a sv rl :
  MAX_MAILBOX_FRAME < 2 ^ 32 -> channel a sv -> zlen blob <= MAX_MAILBOX_FRAME ->
  response_to_bytes (Error RateLimited) = Some rl -> (0 < fuel)%nat ->
  exists wq a',
    (forall so r, write_noise_blob MAX_MAILBOX_FRAME blob (mkLink (mkSend so None) r a) =
       (Ret tt, mkLink (mkSend (so ++ wq) None) r a')) /\
    forall s rest e, willing s -> exists l', mailbox_loop fuel sk binding allow now MAX_MAILBOX_REQUESTS_PER_CONN mb
      (mkLink s (mkRecv (wq ++ rest) e) sv) = (Ret tt, mb, l').
Proof.
  intros Hmax Ha Hb Hrl Hf. destruct fuel as [|fuel]; [lia|].
  destruct (blob_carries a sv MAX_MAILBOX_FRAME MAX_MAILBOX_FRAME blob Ha Hb Hb ltac:(lia))
    as (wq & a1 & sv1 & _ & _ & _ & Hw & Hr).
  exists wq, a1. split; [done|]. intros s rest e Hs. cbn [mailbox_loop]. unfold read_noise_blob.
  rewrite Hr. rewrite (proj2 (Nat.ltb_lt _ _)) by lia. rewrite Hrl.
  match goal with |- context [write_noise_blob ?n rl ?l] => destruct (never_blocks_write_blob n rl l Hs) as [Hnb _] end.
  destruct (write_noise_blob _ rl _) as [[] l']; [by exists l'..|done].
Qed.
End sessions.

(** ** Properties *)
Section service_properties.
Context `{!Gotham, !MailboxAuth, !MailboxApi, !MailboxCodec} {HS T : Type}
  `{!NoiseTransport T, !NoiseTransportLaws T, !NoiseHandshake HS T}.

(** C26. A mailbox connection is its session.  A client that completes the
    handshake, sends at most 512 requests and then closes gets exactly the
    replies of the request handler folded over its requests, in order, and the
    mailbox ends in the state of that fold. *)
Theorem mailbox_connection_serves_session `{!NoiseHandshakeLaws HS T}
    i_sk sk allow now mb blobs :
  MAX_MAILBOX_FRAME < 2 ^ 32 -> (length blobs <= MAX_MAILBOX_REQUESTS_PER_CONN)%nat ->
  Forall (fun b => zlen b <= MAX_MAILBOX_FRAME) blobs ->
  exists h, let '(resps, mb') := session sk h allow now 0 mb blobs in
    forall replies, Forall2 encoded resps replies ->
    exists hello hello' reply client client' wr, 
      (* the client's handshake, its requests, and its reading of the replies *)
      noise_initiator_handshake_bound (HS := HS) i_sk (public_key sk) (mkSend [] None)
        (mkRecv reply Finished) = (Ret (client, h), mkSend hello None, mkRecv [] Finished) /\
      (forall so r, write_blobs blobs (mkLink (mkSend so None) r client) =
         (Ret tt, mkLink (mkSend (so ++ hello') None) r client')) /\
      (read_blobs (length blobs) (mkLink (mkSend [] None) (mkRecv wr Finished) client')).1 =
        Ret replies /\
      (* the relay's side of the same bytes *)
      exists r, serve_mailbox_connection (HS := HS) sk allow now mb (mkSend [] None)
        (mkRecv (hello ++ hello') Finished) = (Ret tt, mb', mkSend (reply ++ wr) None, r).
Proof.
  intros Hmax Hn Hsz.
  destruct (handshake_runs i_sk sk [] [] Finished Finished)
    as (w1 & w2 & w3 & ti & tr & h & Hi & Hr & Hc1 & Hc2).
  exists h. destruct (session sk h allow now 0 mb blobs) as [resps mb'] eqn:Hs.
  intros replies Hrep.
  destruct (write_blobs_out blobs ti tr Hmax Hc1 Hsz) as (wq & ti' & Hi' & HW).
  destruct (mailbox_loop_session (S MAX_MAILBOX_REQUESTS_PER_CONN) sk h allow now 0 mb blobs
    ti tr ti' replies Hmax Hc1 (Hi' _ Hc2) Hn ltac:(lia) Hsz) as (wq' & wr & a' & c' & HW' & HL & HR);
    [by rewrite Hs|].
  assert (wq' = wq) as ->.
  { specialize (HW [] (mkRecv [] Finished)). rewrite HW' in HW. by injection HW. }
  exists (w1 ++ w3), wq, w2, ti, ti', wr. split; [done|]. split; [done|].
  split; [specialize (HR (mkSend [] None) [] Finished); rewrite app_nil_r in HR; by rewrite HR|].
  unfold serve_mailbox_connection. rewrite <- app_assoc, Hr.
  destruct (HL ([] ++ w2)) as (l' & Heq & Hl'). rewrite Heq, Hs. exists (lk_recv l').
  by rewrite Hl'.
Qed.

(** What a request can do, when unauthenticated fetches are not allowed. *)
Lemma handle_request_cases sk binding now blob mb :
  let '(resp, mb') := handle_request sk binding false now blob mb in
  (exists id sealed ttl, request_from_bytes blob = Some (Deposit id sealed ttl) /\
     forall l more, resp <> Delivery l more) \/
  (exists id a, request_from_bytes blob = Some (Fetch id (Some a)) /\
     auth_verify a (x25519 sk (auth_pk a)) binding id = true) \/
  (mb' = mb /\ exists e, resp = Error e).
Proof.
  unfold handle_request. destruct (request_from_bytes blob) as [[id s ttl|id [a|]|]|]; eauto 10.
  - destruct (deposit mb id s now ttl) as [[]]; eauto 10.
  - destruct (auth_verify a _ binding id) eqn:Hv; [|eauto 10].
    destruct (fetch_batch _ _ _ _) as [[]]. eauto 10.
Qed.

(** No possession proof, no deletion.  Unless unauthenticated fetches are
    allowed, the handler hands out or drains mail only to a request whose
    proof verifies under the relay's key, this connection's binding and that
    mailbox's id; every other request that is not a deposit leaves the mailbox
    as it was and is answered with an error. *)
Theorem fetch_requires_proof sk binding now blob mb :
  let '(resp, mb') := handle_request sk binding false now blob mb in
  (exists id sealed ttl, request_from_bytes blob = Some (Deposit id sealed ttl)) \/
  (exists id a, request_from_bytes blob = Some (Fetch id (Some a)) /\
     auth_verify a (x25519 sk (auth_pk a)) binding id = true) \/
  (mb' = mb /\ exists e, resp = Error e).
Proof.
  pose proof (handle_request_cases sk binding now blob mb) as Hc.
  destruct (handle_request sk binding false now blob mb) as [resp mb']. naive_solver.
Qed.

(** ** Envelopes in and out *)

(** What a request that was answered with [resp] put in, and took out. *)
Definition request_deposits (blob : list byte) (resp : MailboxResponse) : list (list byte * list byte) :=
  match request_from_bytes blob, resp with
  | Some (Deposit id sealed _), Ack => [(id, sealed)]
  | _, _ => []
  end.

Definition request_hands (blob : list byte) (resp : MailboxResponse) : list (list byte * list byte) :=
  match request_from_bytes blob, resp with
  | Some (Fetch id _), Delivery sealed _ => pair id <$> sealed
  | _, _ => []
  end.

Lemma handle_request_stored `{!MailboxLaws} sk binding allow now blob mb :
  let '(resp, mb') := handle_request sk binding allow now blob mb in
  request_hands blob resp ++ stored mb' ⊆+ request_deposits blob resp ++ stored mb.
Proof.
  unfold handle_request, request_hands, request_deposits.
  destruct (request_from_bytes blob) as [[id s ttl|id [a|]|]|]; try done.
  - pose proof (deposit_stored mb id s now ttl) as Hd.
    destruct (deposit mb id s now ttl) as [[]]; exact Hd.
  - destruct (auth_verify _ _ _ _); [|done]. pose proof (fetch_stored mb id now MAILBOX_FETCH_BUDGET) as Hf.
    destruct (fetch_batch _ _ _ _) as [[l more] mb']. by eapply Hf.
  - destruct allow; [|done]. pose proof (fetch_stored mb id now MAILBOX_FETCH_BUDGET) as Hf.
    destruct (fetch_batch _ _ _ _) as [[l more] mb']. by eapply Hf.
Qed.

Lemma redeposit_stored `{!MailboxLaws} id now sealed mb :
  stored (redeposit id now sealed mb) ⊆+ (pair id <$> sealed) ++ stored mb.
Proof.
  revert mb. induction sealed as [|env sealed IH]; intros mb; simpl; [done|].
  etrans; [apply IH|]. etrans; [apply submseteq_skips_l, deposit_stored|].
  destruct (deposit mb id env now 0) as [[]]; simpl.
  - by rewrite <- Permutation_middle.
  - by apply submseteq_cons.
Qed.

(** What the two halves of a spawned task put in, and took out. *)
Lemma task_start_stored `{!MailboxLaws} t mb now drained more mb' :
  task_start t mb now = (drained, more, mb') ->
  match t with
  | TDeposit id sealed _ => drained = [] /\ stored mb' ⊆+ (id, sealed) :: stored mb
  | TSurbFetch id _ => (pair id <$> drained) ++ stored mb' ⊆+ stored mb
  end.
Proof.
  destruct t as [id sealed ttl|id surb]; simpl.
  - intros [= <- <- <-]. split; [done|]. etrans; [apply deposit_stored|].
    destruct (deposit mb id sealed now ttl) as [[]]; simpl; [done|]. by apply submseteq_cons.
  - apply fetch_stored.
Qed.

Lemma mailbox_loop_served fuel sk binding allow now served mb (l : Link T) :
  (served <= MAX_MAILBOX_REQUESTS_PER_CONN)%nat ->
  exists blobs, (served + length blobs <= MAX_MAILBOX_REQUESTS_PER_CONN)%nat /\
    (mailbox_loop fuel sk binding allow now served mb l).1.2 =
    (session sk binding allow now served mb blobs).2.
Proof.
  revert served mb l. induction fuel as [|fuel IH]; intros served mb l Hs; simpl.
  { exists []. simpl. split; [lia|done]. }
  destruct (read_noise_blob MAX_MAILBOX_FRAME l) as [[blob|e|] l1].
  2:{ exists []. simpl. split; [lia|]. by destruct e. }
  2:{ exists []. simpl. split; [lia|done]. }
  destruct (Nat.ltb_spec MAX_MAILBOX_REQUESTS_PER_CONN (S served)).
  { exists []. simpl. split; [lia|]. destruct (response_to_bytes _); [|done].
    by destruct (write_noise_blob _ _ l1) as [[]]. }
  destruct (handle_request sk binding allow (now (S served)) blob mb) as [resp mb1] eqn:Hh.
  destruct (write_response resp l1) as [[u|e|] l2].
  2,3: exists [blob]; simpl; rewrite Hh; split; [lia|done].
  destruct (IH (S served) mb1 l2 ltac:(lia)) as (blobs & Hl & ->).
  exists (blob :: blobs). simpl. rewrite Hh. split; [lia|].
  by destruct (session sk binding allow now (S served) mb1 blobs).
Qed.

(** A connection is served at most 512 requests: whatever bytes the peer
    sends and wherever the streams break, the mailbox ends in the state of the
    handler folded over at most 512 requests. *)
Theorem mailbox_connection_bounded sk allow now mb s r :
  exists h blobs, (length blobs <= MAX_MAILBOX_REQUESTS_PER_CONN)%nat /\
    (serve_mailbox_connection (HS := HS) (T := T) sk allow now mb s r).1.1.2 =
    (session sk h allow now 0 mb blobs).2.
Proof.
  unfold serve_mailbox_connection.
  destruct (noise_responder_handshake_bound sk s r) as [[[[noise h]|e|] s1] r1].
  2,3: exists [], []; simpl; split; [lia|done].
  destruct (mailbox_loop_served (S MAX_MAILBOX_REQUESTS_PER_CONN) sk h allow now 0 mb
    (mkLink s1 r1 noise)) as (blobs & Hl & Heq); [lia|].
  exists h, blobs. split; [done|]. by destruct (mailbox_loop _ _ _ _ _ _ _ _) as [[??]?].
Qed.

Lemma read_one_keeps_send out (l : Link T) :
  lk_send (read_one_noise_msg out l).2 = lk_send l.
Proof.
  unfold read_one_noise_msg, mbind, M_bind, read_exact.
  destruct (2 <=? _)%nat; [|by destruct (r_end _)]. simpl.
  destruct (_ || _); [done|]. destruct (_ <=? _)%nat; simpl; [|by destruct (r_end _)].
  unfold noise_read. simpl. by destruct (read_message _ _) as [[]].
Qed.

(** Only the authority learns what a relay hosts: a rendezvous query is
    answered only after a handshake with the configured authority key; without
    one configured, with another key, or without a 32-byte query, the
    connection fails and nothing follows the handshake on the wire. *)
Theorem rendezvous_query_answers_authority sk expected hosted s r :
  let '(res, s', _) := serve_rendezvous_query (HS := HS) (T := T) sk expected hosted s r in
  let '(hres, hs, hr) := noise_ik_responder_handshake (HS := HS) (T := T) sk s r in
  (exists pk noise query, expected = Some pk /\ hres = Ret (noise, pk) /\
     (read_one_noise_msg [] (mkLink hs hr noise)).1 = Ret query /\ length query = 32%nat) \/
  (res <> Ret tt /\ (s' = s \/ s' = hs)).
Proof.
  unfold serve_rendezvous_query.
  destruct (noise_ik_responder_handshake sk s r) as [[hres hs] r1].
  destruct expected as [pk|]; [|by auto]. destruct hres as [[noise q]|e|]; [|by auto|by auto].
  case_decide as Hq; [by auto|]. subst q. unfold mbind, M_bind.
  pose proof (read_one_keeps_send [] (mkLink hs r1 noise)) as Hs.
  destruct (read_one_noise_msg [] (mkLink hs r1 noise)) as [[m|e|] l1] eqn:Hm; simpl in *; [|by auto..].
  destruct (Nat.eqb_spec (length m) 32) as [Hl|]; simpl; [|by auto].
  destruct (write_one_noise_msg _ l1) as [[] l2]; left; exists pk, noise, m; by rewrite Hm.
Qed.
End service_properties.

(** ** An executable mailbox *)
Module ToyMailbox.
Inductive wire_error : Type := ERate | EAuth | EMalformed | EFull.

(** A proof is the shared secret, the binding and the id in clear. *)
Definition auth : MailboxAuth := {|
  FetchAuth := list byte * list byte;
  auth_pk := fst;
  auth_verify := fun a shared binding id => bool_decide (a.2 = shared ++ binding ++ id);
  surb_fetch_binding := fun surb => surb;
|}.

#[local] Existing Instance auth.

(** One-byte ids; a leading byte selects the request. *)
Definition from_bytes (l : list byte) : option MailboxRequest :=
  match l with
  | x00 :: id :: ttl :: sealed => Some (Deposit [id] sealed (byte_to_Z ttl))
  | [x01; id] => Some (Fetch [id] None)
  | x02 :: id :: rest => Some (Fetch [id] (Some (take 32 rest, drop 32 rest)))
  | _ => None
  end.

Definition api : MailboxApi := {|
  MailboxWireError := wire_error;
  RateLimited := ERate;
  Unauthorized := EAuth;
  MalformedRequest := EMalformed;
  Mailbox := list (list byte * list byte);
  deposit := fun mb id sealed _ _ =>
    if (length mb <? 8)%nat then (Ok tt, mb ++ [(id, sealed)]) else (Err EFull, mb);
  fetch_batch := fun mb id _ _ =>
    (map snd (filter (fun e => e.1 = id) mb), false, filter (fun e => e.1 <> id) mb);
  request_from_bytes := from_bytes;
  MAX_MAILBOX_FRAME := 1000;
|}.

#[local] Existing Instance api.

Definition codec : MailboxCodec := {|
  response_to_bytes := fun r => match r with
    | Ack => Some [x00]
    | Delivery sealed more => Some (x01 :: concat sealed)
    | Error ERate => Some [x02]
    | Error EAuth => Some [x03]
    | Error EMalformed => Some [x04]
    | Error EFull => Some [x05]
    end;
|}.

#[local] Existing Instance codec.

Lemma toy_fetch_stored (mb : list (list byte * list byte)) (id : list byte) :
  (pair id <$> map snd (filter (fun e => e.1 = id) mb)) ++ filter (fun e => e.1 <> id) mb ≡ₚ mb.
Proof.
  induction mb as [|[id' s] mb IH]; [done|]. rewrite !filter_cons. simpl.
  destruct (decide (id' = id)) as [->|Hne].
  - rewrite decide_False by (intros H; by apply H). simpl. by rewrite IH.
  - rewrite decide_True by done. by rewrite <- Permutation_middle, IH.
Qed.

Lemma toy_deposit_stored (mb : @Mailbox auth api) (id sealed : list byte) (now ttl : Z) :
  (deposit mb id sealed now ttl).2 ⊆+
  (match (deposit mb id sealed now ttl).1 with Ok _ => [(id, sealed)] | Err _ => [] end) ++ mb.
Proof.
  simpl. case_match; simpl; [|done]. by rewrite Permutation_app_comm.
Qed.

Definition laws : MailboxLaws.
Proof.
  refine {| stored := fun mb : @Mailbox auth api => mb |}.
  - apply toy_deposit_stored.
  - intros mb id now budget sealed more mb' [= <- <- <-]. by rewrite toy_fetch_stored.
Defined.
End ToyMailbox.

Module ServicesDemo.
#[local] Existing Instances Toy.gotham ToyNoise.transport ToyNoise.handshake
  ToyMailbox.auth ToyMailbox.api ToyMailbox.codec.

Definition box (l : list (list byte * list byte)) : @Mailbox ToyMailbox.auth ToyMailbox.api := l.

(** Deposit, an unauthenticated fetch, garbage. *)
Definition requests : list (list byte) := [[x00; x05; x3c; x11; x12]; [x01; x05]; [x09]].

Definition fetch_with (proof : list byte) : list byte :=
  x02 :: x05 :: take 32 (Toy.sk 9) ++ proof.

Lemma mailbox_connection_serves_session_witness :
  exists h, let '(resps, mb') := session (Toy.sk 1) h false (fun _ => 0) 0 (box []) requests in
    forall replies, Forall2 encoded resps replies ->
    exists hello hello' reply client client' wr,
      noise_initiator_handshake_bound (HS := ToyNoise.hs) (Toy.sk 9) (public_key (Toy.sk 1))
        (mkSend [] None) (mkRecv reply Finished) =
        (Ret (client, h), mkSend hello None, mkRecv [] Finished) /\
      (forall so r, write_blobs requests (mkLink (mkSend so None) r client) =
         (Ret tt, mkLink (mkSend (so ++ hello') None) r client')) /\
      (read_blobs (length requests) (mkLink (mkSend [] None) (mkRecv wr Finished) client')).1 =
        Ret replies /\
      exists r, serve_mailbox_connection (HS := ToyNoise.hs) (Toy.sk 1) false (fun _ => 0) (box [])
        (mkSend [] None) (mkRecv (hello ++ hello') Finished) =
        (Ret tt, mb', mkSend (reply ++ wr) None, r).
Proof.
  apply (@mailbox_connection_serves_session _ _ _ _ _ _ _ toy_noise_laws _ toy_handshake_laws
           (Toy.sk 9) (Toy.sk 1) false (fun _ => 0) (box []) requests).
  - by vm_compute.
  - vm_compute. lia.
  - repeat constructor; by vm_compute.
Defined.

(** Replies as bytes, and the mailbox. *)
Definition run_session (mb : list (list byte * list byte)) (blobs : list (list byte))
    : list (option (list byte)) * list (list byte * list byte) :=
  let '(resps, mb) := session (Toy.sk 1) [x77] false (fun _ => 0) 0 (box mb) blobs in
  (map response_to_bytes resps, mb).

(** The same session, run: stored, refused, refused. *)
Example session_run :
  run_session [] requests = ([Some [x00]; Some [x03]; Some [x04]], [([x05], [x11; x12])]).
Proof. vm_compute. reflexivity. Qed.

(** With the proof for this connection the mail is handed out and removed. *)
Example session_with_proof :
  run_session [([x05], [x11; x12])]
    [fetch_with (x25519 (Toy.sk 1) (Toy.sk 9) ++ [x77] ++ [x05])] =
  ([Some [x01; x11; x12]], []).
Proof. vm_compute. reflexivity. Qed.
End ServicesDemo.
