(* ===== verification/Pool.v ===== *)
(** * The connection pool ([pool.rs])

    [ConnectionPool::send] reuses an authenticated connection to the next hop
    or opens one.  The pool is a map under a lock, the connections are shared
    objects; many sends run at once and only the locked sections are atomic.
    The model gives every call a program counter and lets an arbitrary
    schedule interleave the calls; what the network does at each step is part
    of the schedule.

    Proved for every schedule: the pool never exceeds its size, a packet is
    only ever written to a connection that was opened to its own next hop, and
    a call that returns success wrote its packet exactly once. *)

From S2P Require Import Prelude Gotham Wire RateLimit.

Definition DEFAULT_MAX_SIZE : nat := 128.
Definition DEFAULT_IDLE_TTL : Z := from_secs 300.

(** A [SocketAddr] and the peer's static key. *)
Definition PoolKey : Type := (IpAddr * Z) * list byte.

(** The fields of [PooledConnection] that matter here: whom it was opened to
    and when it was last used. *)
Record PooledConnection : Type := mkConn { pc_key : PoolKey; last_used : Z }.

(** The pool proper maps keys to connection objects; [heap] holds the objects,
    which may outlive their entry. *)
Record ConnectionPool : Type := mkPool {
  pool : gmap PoolKey nat;
  max_size : nat;
  heap : gmap nat PooledConnection;
  next_conn : nat;
}.

Definition new : ConnectionPool := mkPool ∅ DEFAULT_MAX_SIZE ∅ 0.

Definition with_max_size (p : ConnectionPool) (n : nat) : ConnectionPool :=
  mkPool (pool p) (Nat.max n 1) (heap p) (next_conn p).

Definition len (p : ConnectionPool) : nat := size (pool p).
Definition is_empty (p : ConnectionPool) : bool := bool_decide (pool p = ∅).

Definition set_pool (p : ConnectionPool) (m : gmap PoolKey nat) : ConnectionPool :=
  mkPool m (max_size p) (heap p) (next_conn p).

Section pool.
Context `{!HashOrder PoolKey nat}.

(** [PooledConnection::send_packet] after a successful write at time [now]. *)
Definition send_packet_ok (p : ConnectionPool) (c : nat) (now : Z) : ConnectionPool :=
  mkPool (pool p) (max_size p)
    (alter (fun k => mkConn (pc_key k) now) c (heap p)) (next_conn p).

Definition conn_last_used (p : ConnectionPool) (c : nat) : Z :=
  from_option last_used 0 (heap p !! c).

(** The first of the entries with the least [last_used], in iteration order. *)
Definition evict_oldest_locked (p : ConnectionPool) : ConnectionPool :=
  match min_by_key (fun e => conn_last_used p e.2) (hash_iter (pool p)) with
  | Some (k, _) => set_pool p (delete k (pool p))
  | None => p
  end.

(** [open_new]: a fresh connection object. *)
Definition open_new_ok (p : ConnectionPool) (key : PoolKey) (now : Z) : nat * ConnectionPool :=
  (next_conn p,
   mkPool (pool p) (max_size p) (<[next_conn p := mkConn key now]> (heap p)) (S (next_conn p))).

(** The last locked section of [send]. *)
Definition insert_pooled (p : ConnectionPool) (key : PoolKey) (c : nat) : ConnectionPool :=
  let p := if (max_size p <=? len p)%nat then evict_oldest_locked p else p in
  set_pool p (<[key := c]> (pool p)).

(** Where a call of [send] is. *)
Inductive pc : Type :=
| Start
| Cached (c : nat)
| Open
| Opened (c : nat)
| Insert (c : nat)
| Done (r : result TransportError unit).

(** A call; [c_written] lists the connections its packet was written to. *)
Record call : Type := mkCall {
  c_key : PoolKey;
  c_packet : list byte;
  c_written : list nat;
  c_pc : pc;
}.

Definition goto (t : call) (x : pc) : call := mkCall (c_key t) (c_packet t) (c_written t) x.

Definition wrote (t : call) (c : nat) (x : pc) : call :=
  mkCall (c_key t) (c_packet t) (c_written t ++ [c]) x.

Definition send (addr : IpAddr * Z) (peer_pk packet : list byte) : call :=
  mkCall (addr, peer_pk) packet [] Start.

(** What the network answers, and the clock. *)
Record event : Type := mkEvent { e_result : result TransportError unit; e_now : Z }.

(** One step of a call, to its next suspension point. *)
Definition advance (ev : event) (p : ConnectionPool) (t : call) : ConnectionPool * call :=
  match c_pc t with
  | Start =>
      (p, goto t (match pool p !! c_key t with Some c => Cached c | None => Open end))
  | Cached c =>
      match e_result ev with
      | Ok _ => (send_packet_ok p c (e_now ev), wrote t c (Done (Ok tt)))
      | Err _ => (set_pool p (delete (c_key t) (pool p)), goto t Open)
      end
  | Open =>
      match e_result ev with
      | Ok _ => let '(c, p) := open_new_ok p (c_key t) (e_now ev) in (p, goto t (Opened c))
      | Err e => (p, goto t (Done (Err e)))
      end
  | Opened c =>
      match e_result ev with
      | Ok _ => (send_packet_ok p c (e_now ev), wrote t c (Insert c))
      | Err e => (p, goto t (Done (Err e)))
      end
  | Insert c => (insert_pooled p (c_key t) c, goto t (Done (Ok tt)))
  | Done r => (p, t)
  end.

(** Many calls at once: the schedule names the call that moves. *)
Record world : Type := mkWorld { w_pool : ConnectionPool; w_calls : gmap nat call }.

Inductive step : world -> world -> Prop :=
| step_spawn w i addr pk packet :
    w_calls w !! i = None ->
    step w (mkWorld (w_pool w) (<[i := send addr pk packet]> (w_calls w)))
| step_advance w i t ev p t' :
    w_calls w !! i = Some t -> advance ev (w_pool w) t = (p, t') ->
    step w (mkWorld p (<[i := t']> (w_calls w))).

Definition reachable (n : nat) : world -> Prop :=
  rtc step (mkWorld (with_max_size new n) ∅).

(** ** The invariant *)

(** The connections a call holds or wrote to were opened to its own key, and
    it has written once if it is past its write and not at all before. *)
Definition call_conn_ok (p : ConnectionPool) (t : call) : Prop :=
  (forall c, c ∈ c_written t -> pc_key <$> heap p !! c = Some (c_key t)) /\
  match c_pc t with
  | Start | Open | Done (Err _) => c_written t = []
  | Cached c | Opened c => pc_key <$> heap p !! c = Some (c_key t) /\ c_written t = []
  | Insert c => pc_key <$> heap p !! c = Some (c_key t) /\ c_written t = [c]
  | Done (Ok _) => exists c, c_written t = [c]
  end.

(** How the operations change the heap: keys of existing objects stay. *)
Definition heap_extends (p p' : ConnectionPool) : Prop :=
  forall c k, pc_key <$> heap p !! c = Some k -> pc_key <$> heap p' !! c = Some k.

Lemma heap_extends_refl p p' : heap p' = heap p -> heap_extends p p'.
Proof. by intros Hh c k; rewrite Hh. Qed.

Lemma heap_send_keys p c now c' :
  pc_key <$> heap (send_packet_ok p c now) !! c' = pc_key <$> heap p !! c'.
Proof.
  simpl. destruct (decide (c = c')) as [<-|Hne].
  - rewrite lookup_alter_eq. by destruct (heap p !! c).
  - by rewrite lookup_alter_ne.
Qed.

Lemma heap_extends_send p c now : heap_extends p (send_packet_ok p c now).
Proof. intros c' k. by rewrite heap_send_keys. Qed.

Lemma heap_extends_open p key now :
  (forall c, (next_conn p <= c)%nat -> heap p !! c = None) ->
  heap_extends p (open_new_ok p key now).2.
Proof.
  intros Hf c k. simpl. destruct (decide (next_conn p = c)) as [<-|Hne].
  - by rewrite (Hf (next_conn p)).
  - by rewrite lookup_insert_ne.
Qed.

Lemma evict_oldest_spec p :
  heap (evict_oldest_locked p) = heap p /\ max_size (evict_oldest_locked p) = max_size p /\
  next_conn (evict_oldest_locked p) = next_conn p /\
  pool (evict_oldest_locked p) ⊆ pool p /\
  (pool p <> ∅ -> (S (len (evict_oldest_locked p)) = len p)%nat).
Proof.
  unfold evict_oldest_locked. destruct (min_by_key _ _) as [[k c]|] eqn:E.
  - simpl. do 3 (split; [done|]). split; [apply delete_subseteq|]. intros _.
    apply min_by_key_Some in E as [Hin _]. rewrite hash_iter_perm in Hin.
    apply elem_of_map_to_list in Hin. unfold len. simpl.
    rewrite map_size_delete_Some by eauto. assert (size (pool p) <> 0)%nat; [|lia].
    apply map_size_ne_0_lookup. eauto.
  - do 4 (split; [done|]). apply min_by_key_None in E. intros Hne. destruct Hne.
    pose proof (hash_iter_perm (pool p)) as Hp. rewrite E in Hp. symmetry in Hp.
    by apply Permutation_nil_r, map_to_list_empty_iff in Hp.
Qed.

Lemma insert_pooled_spec p key c :
  (1 <= max_size p)%nat -> (len p <= max_size p)%nat ->
  let p' := insert_pooled p key c in
  heap p' = heap p /\ max_size p' = max_size p /\ next_conn p' = next_conn p /\
  (len p' <= max_size p)%nat /\ pool p' !! key = Some c /\
  forall k c', k <> key -> pool p' !! k = Some c' -> pool p !! k = Some c'.
Proof.
  intros Hm Hl. unfold insert_pooled. destruct (Nat.leb_spec (max_size p) (len p)) as [Hle|Hlt].
  - destruct (evict_oldest_spec p) as (Hh & Hms & Hn & Hsub & Hsz).
    assert (pool p <> ∅) as Hne by (intros He; unfold len in *; rewrite He, map_size_empty in *; lia).
    specialize (Hsz Hne). cbn. do 3 (split; [done|]). split; [|split].
    + unfold len in *. simpl.
      destruct (pool (evict_oldest_locked p) !! key) eqn:E;
        [rewrite map_size_insert_Some by eauto|rewrite map_size_insert_None by done]; lia.
    + apply lookup_insert_eq.
    + intros k c' Hk. rewrite lookup_insert_ne by done. intros Hl'. by eapply lookup_weaken.
  - cbn. do 3 (split; [done|]). split; [|split].
    + unfold len in *. simpl. destruct (pool p !! key) eqn:E;
        [rewrite map_size_insert_Some by eauto|rewrite map_size_insert_None by done]; lia.
    + apply lookup_insert_eq.
    + intros k c' Hk. by rewrite lookup_insert_ne.
Qed.

(** What the pool itself has to satisfy. *)
Record pool_inv (n : nat) (p : ConnectionPool) : Prop := {
  pi_max : max_size p = n;
  pi_size : (len p <= n)%nat;
  pi_keys : forall k c, pool p !! k = Some c -> pc_key <$> heap p !! c = Some k;
  pi_fresh : forall c, (next_conn p <= c)%nat -> heap p !! c = None;
}.

Lemma send_packet_inv n p c now : pool_inv n p -> pool_inv n (send_packet_ok p c now).
Proof.
  intros [Hmax Hsz Hkeys Hfresh]. split; try done.
  - intros k c' Hk. rewrite heap_send_keys. by apply Hkeys.
  - intros c' Hle. simpl. rewrite lookup_alter. case_decide; [subst|]; by rewrite (Hfresh c').
Qed.

Lemma delete_inv n p k : pool_inv n p -> pool_inv n (set_pool p (delete k (pool p))).
Proof.
  intros [Hmax Hsz Hkeys Hfresh]. split; try done.
  - unfold len in *. simpl. pose proof (map_size_delete k (pool p)) as Hd.
    rewrite Hd. case_match; unfold id; lia.
  - intros k' c Hk. simpl in Hk. apply lookup_delete_Some in Hk as [_ Hk]. by apply Hkeys.
Qed.

Lemma open_new_inv n p key now : pool_inv n p -> pool_inv n (open_new_ok p key now).2.
Proof.
  intros [Hmax Hsz Hkeys Hfresh]. split; try done.
  - intros k c Hk. apply (heap_extends_open p key now Hfresh). by apply Hkeys.
  - intros c Hle. simpl in *. rewrite lookup_insert_ne by lia. apply Hfresh. lia.
Qed.

Lemma insert_pooled_inv n p key c :
  (1 <= n)%nat -> pool_inv n p -> pc_key <$> heap p !! c = Some key ->
  pool_inv n (insert_pooled p key c) /\ heap (insert_pooled p key c) = heap p.
Proof.
  intros Hn [Hmax Hsz Hkeys Hfresh] Hc.
  destruct (insert_pooled_spec p key c ltac:(lia) ltac:(lia)) as (Hh & Hm & Hnc & Hl & Hlk & Hrest).
  split; [|done]. split; [congruence|lia| |].
  - intros k c' Hk. rewrite Hh. destruct (decide (k = key)) as [->|Hne]; [congruence|].
    apply Hkeys. by eapply Hrest.
  - intros c'. rewrite Hnc, Hh. apply Hfresh.
Qed.

(** One step of one call, on the pool and on that call. *)
Lemma advance_inv n p t ev p' t' :
  (1 <= n)%nat -> pool_inv n p -> call_conn_ok p t -> advance ev p t = (p', t') ->
  pool_inv n p' /\ heap_extends p p' /\ call_conn_ok p' t'.
Proof.
  intros Hn Hp [Hw Hpc] Hadv. unfold advance in Hadv. unfold call_conn_ok.
  assert (heap_extends p p) as Hrefl by by apply heap_extends_refl.
  destruct (c_pc t) as [|c| |c|c|r] eqn:Epc.
  - simplify_eq. split_and!; try done. simpl.
    destruct (pool p' !! c_key t) as [c|] eqn:E; [|done]. by apply (pi_keys _ _ Hp) in E.
  - destruct Hpc as [Hc Hnil]. destruct (e_result ev); simplify_eq.
    + split; [by apply send_packet_inv|]. split; [apply heap_extends_send|].
      cbn [c_written c_pc wrote c_key]. rewrite Hnil. split; [|by eexists].
      intros c' ->%list_elem_of_singleton. by rewrite heap_send_keys.
    + split; [by apply delete_inv|]. done.
  - destruct (e_result ev); simplify_eq; [|done]. unfold open_new_ok in Hadv. simplify_eq.
    split; [by apply (open_new_inv n p (c_key t) (e_now ev))|].
    split; [apply (heap_extends_open p (c_key t) (e_now ev)), Hp|].
    simpl. rewrite Hpc. split; [set_solver|]. by rewrite lookup_insert_eq.
  - destruct Hpc as [Hc Hnil]. destruct (e_result ev); simplify_eq; [|done].
    split; [by apply send_packet_inv|]. split; [apply heap_extends_send|].
    cbn [c_written c_pc wrote c_key]. rewrite Hnil.
    split; [intros c' ->%list_elem_of_singleton|]; by rewrite heap_send_keys.
  - destruct Hpc as [Hc Hone]. simplify_eq.
    destruct (insert_pooled_inv n p (c_key t) c Hn Hp Hc) as [Hp' Hh].
    split; [done|]. split; [by apply heap_extends_refl|]. cbn [c_written c_pc goto c_key]. rewrite Hh. split; [done|by eexists].
  - simplify_eq. split_and!; try done. by rewrite Epc.
Qed.

Lemma call_conn_ok_extends p p' t : heap_extends p p' -> call_conn_ok p t -> call_conn_ok p' t.
Proof.
  intros He [Hw Hpc]. split; [auto|]. destruct (c_pc t); try done; naive_solver.
Qed.

Record inv (n : nat) (w : world) : Prop := {
  inv_pool : pool_inv n (w_pool w);
  inv_calls : forall i t, w_calls w !! i = Some t -> call_conn_ok (w_pool w) t;
}.

Lemma step_inv n w w' : (1 <= n)%nat -> step w w' -> inv n w -> inv n w'.
Proof.
  intros Hn [w1 i addr pk packet Hi|w1 i t ev p t' Hi Hadv] [Hp Hcalls].
  - split; [done|]. intros j t. simpl. rewrite lookup_insert_Some.
    intros [[<- <-]|[_ Hj]]; [|by eapply Hcalls]. split; [simpl; set_solver|done].
  - destruct (advance_inv n (w_pool w1) t ev p t' Hn Hp (Hcalls i t Hi) Hadv) as (Hp' & He & Ht).
    split; [done|]. intros j t2. simpl.
    rewrite lookup_insert_Some. intros [[<- <-]|[_ Hj]]; [done|].
    eapply call_conn_ok_extends; [done|]. by eapply Hcalls.
Qed.

Lemma reachable_inv n w : reachable n w -> inv (Nat.max n 1) w.
Proof.
  intros Hr. apply (rtc_ind_r (R := step) (inv (Nat.max n 1)) (mkWorld (with_max_size new n) ∅));
    [| |done].
  - split; [|done]. split; simpl; try done. unfold len. simpl. rewrite map_size_empty. lia.
  - intros w1 w2 _ Hs. apply step_inv; [lia|done].
Qed.
End pool.

(** ** Properties *)
Section pool_properties.
Context `{HO : !HashOrder PoolKey nat}.

(** C31. The pool never holds more than its maximum of connections (at least
    one), under any interleaving of any number of concurrent sends. *)
Theorem pool_size_bounded n w : reachable n w -> (len (w_pool w) <= Nat.max n 1)%nat.
Proof. intros Hr. apply reachable_inv in Hr as [Hp _]. apply (pi_size _ _ Hp). Qed.

(** C17. Under any interleaving, a packet is only written to connections that
    were opened to its own next hop (address and authenticated key); a call
    that succeeds wrote its packet exactly once, and a call that fails never
    completed a write. *)
Theorem packets_reach_their_hop n w i t :
  reachable n w -> w_calls w !! i = Some t ->
  (forall c, c ∈ c_written t -> pc_key <$> heap (w_pool w) !! c = Some (c_key t)) /\
  (c_pc t = Done (Ok tt) -> length (c_written t) = 1%nat) /\
  (forall e, c_pc t = Done (Err e) -> c_written t = []).
Proof.
  intros Hr Ht. apply reachable_inv in Hr as [_ Hcalls]. destruct (Hcalls i t Ht) as [Hw Hpc].
  split; [done|]. split; intros; destruct (c_pc t) as [| | | | |[]]; try done.
  by destruct Hpc as [c ->].
Qed.

(** Inserting into a full pool drops a connection no other entry was used
    before, and only that one. *)
Theorem insertion_evicts_oldest p key c k c0 :
  (max_size p <= len p)%nat -> pool p !! k = Some c0 -> k <> key ->
  pool (insert_pooled p key c) !! k = None ->
  (forall k' c', pool p !! k' = Some c' -> conn_last_used p c0 <= conn_last_used p c') /\
  (forall k', k' <> k -> k' <> key -> pool (insert_pooled p key c) !! k' = pool p !! k').
Proof.
  intros Hfull Hk Hne. unfold insert_pooled. rewrite (proj2 (Nat.leb_le _ _)) by done.
  unfold evict_oldest_locked. destruct (min_by_key _ _) as [[v cv]|] eqn:E; simpl.
  - apply min_by_key_Some in E as [Hin Hall]. rewrite hash_iter_perm in Hin.
    apply elem_of_map_to_list in Hin. rewrite lookup_insert_ne, lookup_delete_None by done.
    intros [->|]; [|congruence]. simplify_eq. split.
    + intros k' c' Hk'. rewrite Forall_forall in Hall. apply (Hall (k', c')).
      rewrite hash_iter_perm. by apply elem_of_map_to_list.
    + intros k' H1 H2. by rewrite lookup_insert_ne, lookup_delete_ne.
  - by rewrite lookup_insert_ne, Hk.
Qed.
End pool_properties.

Module PoolDemo.
#[local] Instance order : HashOrder PoolKey nat := sorted_order _ _.

Definition hop (n : Z) : IpAddr * Z := (V4 n, 9000).
Definition ok (now : Z) : event := mkEvent (Ok tt) now.
Definition ko (now : Z) : event := mkEvent (Err Connection) now.

(** Run a schedule of (call, event) pairs. *)
Fixpoint run_schedule (w : world) (sched : list (nat * event)) : world :=
  match sched with
  | [] => w
  | (i, ev) :: sched =>
      match w_calls w !! i with
      | Some t => let '(p, t) := advance ev (w_pool w) t in
                  run_schedule (mkWorld p (<[i := t]> (w_calls w))) sched
      | None => run_schedule w sched
      end
  end.

Lemma run_schedule_steps w sched : rtc step w (run_schedule w sched).
Proof.
  revert w. induction sched as [|[i ev] sched IH]; intros w; simpl; [done|].
  destruct (w_calls w !! i) as [t|] eqn:E; [|done].
  destruct (advance ev (w_pool w) t) as [p t'] eqn:Ha. eapply rtc_l; [|apply IH].
  by econstructor.
Qed.

(** Three sends to two hops through a pool of one connection. *)
Definition started : world :=
  mkWorld (with_max_size new 1)
    (<[2%nat := send (hop 2) [x02] [x22]]>
      (<[1%nat := send (hop 1) [x01] [x21]]> (<[0%nat := send (hop 1) [x01] [x20]]> ∅))).

Lemma spawn_reachable n p m i addr pk packet :
  m !! i = None -> reachable n (mkWorld p m) ->
  reachable n (mkWorld p (<[i := send addr pk packet]> m)).
Proof.
  intros Hi Hr. eapply rtc_r; [exact Hr|]. exact (step_spawn (mkWorld p m) i addr pk packet Hi).
Qed.

Lemma started_reachable : reachable 1 started.
Proof. do 3 (apply spawn_reachable; [done|]). apply rtc_refl. Qed.

(** Both sends to hop 1 open a connection at once; the third takes its place. *)
Definition sched : list (nat * event) :=
  [(0%nat, ok 1); (1%nat, ok 2); (0%nat, ok 3); (1%nat, ok 4); (0%nat, ok 5); (1%nat, ok 6);
   (0%nat, ok 7); (1%nat, ok 8); (2%nat, ok 9); (2%nat, ok 10); (2%nat, ok 11); (2%nat, ok 12)].

Definition final : world := run_schedule started sched.

Example final_pool : map_to_list (pool (w_pool final)) = [((hop 2, [x02]), 2%nat)].
Proof. vm_compute. reflexivity. Qed.

Lemma pool_size_bounded_witness : (len (w_pool final) <= Nat.max 1 1)%nat.
Proof.
  apply (pool_size_bounded (HO := order) 1 final).
  eapply rtc_trans; [apply started_reachable|apply run_schedule_steps].
Defined.

Definition second_call : call := mkCall (hop 1, [x01]) [x21] [1%nat] (Done (Ok tt)).

Lemma packets_reach_their_hop_witness : length (c_written second_call) = 1%nat.
Proof.
  apply (packets_reach_their_hop (HO := order) 1 final 1 second_call).
  - eapply rtc_trans; [apply started_reachable|apply run_schedule_steps].
  - vm_compute. reflexivity.
  - reflexivity.
Defined.

Definition full : ConnectionPool :=
  mkPool (<[(hop 1, [x01]) := 0%nat]> {[(hop 2, [x02]) := 1%nat]}) 2
    (<[0%nat := mkConn (hop 1, [x01]) 5]> {[1%nat := mkConn (hop 2, [x02]) 9]}) 2.

Lemma insertion_evicts_oldest_witness :
  forall k' c', pool full !! k' = Some c' -> conn_last_used full 0 <= conn_last_used full c'.
Proof.
  apply (insertion_evicts_oldest (HO := order) full (hop 3, [x03]) 2 (hop 1, [x01]) 0);
    [vm_compute; lia|vm_compute; reflexivity|done|vm_compute; reflexivity].
Defined.
End PoolDemo.
