(* ===== verification/Server.v ===== *)
(** * The listener ([transport.rs], connections and their dispatch)

    [serve_connection] feeds the packets of an inbound connection through the
    per-source limiter and [Relay::process] and spawns the forwards and local
    deliveries; [run_rendezvous_inbound] does the same for packets that arrive
    through a rendezvous tunnel; the service of a connection is chosen by
    ALPN.  [Listener] runs many connections at once.

    The main theorem: a connection on which a peer sends packets is the fold
    of the packet handler over them, so nothing is lost, reordered or
    duplicated between the wire and [Relay::process]. *)

From S2P Require Import Prelude F64 Fs Rand Gotham Wire Process.
From S2P Require Delay RateLimit Replay ReplayPersist.

(** ** What a packet leads to *)
Inductive action : Type :=
| Deliver (delay : Z) (payload : list byte)
| PushRendezvous (delay : Z) (next_node_id packet : list byte)
| PoolSend (delay : Z) (next_addr : SocketAddrV4) (next_node_id packet : list byte).

(** The task spawned for an outcome, if any. *)
Definition outcome_action (o : ProcessOutcome) : option action :=
  match o with
  | Drop _ => None
  | DeliverLocal delay payload => Some (Deliver delay payload)
  | Forward next_addr next_node_id delay via_rendezvous packet =>
      if via_rendezvous then Some (PushRendezvous delay next_node_id packet)
      else Some (PoolSend delay next_addr next_node_id packet)
  end.

(** ** The per-source limiter *)
Definition PER_SOURCE_MAX_PPS : f64 := of_Z 200.
Definition PER_SOURCE_MAX_TRACKED : nat := Z.to_nat 4096.

Definition per_source_limiter : RateLimit.PerSourceLimiter :=
  RateLimit.new_per_source PER_SOURCE_MAX_PPS 0 PER_SOURCE_MAX_TRACKED.

(** The clock readings while one packet is handled: of the per-source table,
    of a limiter it creates, and of the relay's own limiter and cache. *)
Record readings : Type := mkReadings {
  rd_source : Z;
  rd_new1 : Z;
  rd_new2 : Z;
  rd_rate : Z;
  rd_replay : Z;
}.

(** What the connections of one process share. *)
Record shared (R : Type) : Type := mkShared {
  sh_limiter : RateLimit.PerSourceLimiter;
  sh_relay : Relay;
  sh_rng : R;
}.
Arguments mkShared {R} _ _ _.
Arguments sh_limiter {R} _.
Arguments sh_relay {R} _.
Arguments sh_rng {R} _.

Section server.
Context `{!Gotham} {R HS T : Type} `{!Rng R, !Delay.Libm, !NoiseTransport T, !NoiseHandshake HS T,
  !HashOrder RateLimit.IpAddr (RateLimit.RateLimiter * Z)}.

(** Process one packet; [None] when the call panics. *)
Definition process_one (t : readings) (packet : list byte) (sh : shared R)
    : option (option action) * shared R :=
  let '(o, relay, rng) := process (sh_relay sh) (rd_rate t) (rd_replay t) (sh_rng sh) packet in
  (outcome_action <$> o, mkShared (sh_limiter sh) relay rng).

(** The body of the loop of [serve_connection]. *)
Definition serve_packet (src : RateLimit.IpAddr) (t : readings) (packet : list byte) (sh : shared R)
    : option (option action) * shared R :=
  let '(d, limiter) := RateLimit.per_source_check_at (sh_limiter sh) src
                         (rd_source t) (rd_new1 t) (rd_new2 t) in
  let sh := mkShared limiter (sh_relay sh) (sh_rng sh) in
  if negb (RateLimit.is_allowed d) then (Some None, sh) else process_one t packet sh.

(** How a connection task ends. *)
Inductive ended : Type :=
| Returned (r : result TransportError unit)
| Waiting
| Panicked.

(** The loop; every round consumes a frame, so the bytes the peer sends bound
    the rounds.  [clk i] are the readings at the [i]-th packet. *)
Fixpoint serve_loop (fuel : nat) (src : RateLimit.IpAddr) (clk : nat -> readings) (i : nat)
    (sh : shared R) (l : Link T) : ended * list action * shared R :=
  match fuel with
  | O => (Waiting, [], sh)
  | S fuel =>
      match read_noise_frame l with
      | (Fail Read, _) | (Fail (Io _), _) => (Returned (Ok tt), [], sh)
      | (Fail e, _) => (Returned (Err e), [], sh)
      | (Block, _) => (Waiting, [], sh)
      | (Ret packet, l) =>
          let '(a, sh) := serve_packet src (clk i) packet sh in
          match a with
          | None => (Panicked, [], sh)
          | Some a =>
              let '(e, acts, sh) := serve_loop fuel src clk (S i) sh l in
              (e, option_list a ++ acts, sh)
          end
      end
  end.

Definition serve_connection (static_sk : list byte) (src : RateLimit.IpAddr) (clk : nat -> readings)
    (sh : shared R) (s : SendStream) (r : RecvStream)
    : ended * list action * shared R * SendStream :=
  match noise_responder_handshake (HS := HS) (T := T) static_sk s r with
  | (Ret noise, s, r) =>
      let '(e, acts, sh) := serve_loop (S (length (r_buf r))) src clk 0 sh (mkLink s r noise) in
      (e, acts, sh, s)
  | (Fail e, s, _) => (Returned (Err e), [], sh, s)
  | (Block, s, _) => (Waiting, [], sh, s)
  end.

(** [run_rendezvous_inbound], on the packets the tunnel's channel yields until
    it is closed. *)
Fixpoint run_rendezvous_inbound (clk : nat -> readings) (i : nat) (packets : list (list byte))
    (sh : shared R) : option (list action) * shared R :=
  match packets with
  | [] => (Some [], sh)
  | packet :: packets =>
      let '(a, sh) := process_one (clk i) packet sh in
      match a with
      | None => (None, sh)
      | Some a =>
          let '(acts, sh) := run_rendezvous_inbound clk (S i) packets sh in
          (app (option_list a) <$> acts, sh)
      end
  end.

(** [forward_packet]: one packet over a connection of its own; [connect] is
    the outcome of reaching the peer and opening a stream. *)
Definition forward_packet (connect : io unit) (peer_pk my_sk packet : list byte)
    (s : SendStream) (r : RecvStream) : io unit * SendStream :=
  match connect with
  | Fail e => (Fail e, s)
  | Block => (Block, s)
  | Ret _ =>
      match noise_initiator_handshake (HS := HS) (T := T) my_sk peer_pk s r with
      | (Ret noise, s, r) =>
          let '(res, l) := (_ ← write_noise_frame packet; stopped) (mkLink s r noise) in (res, lk_send l)
      | (Fail e, s, _) => (Fail e, s)
      | (Block, s, _) => (Block, s)
      end
  end.
End server.

(** ** Connections over the wire *)
Section wire.
Context `{!Gotham} {R HS T : Type} `{!Rng R, !Delay.Libm, !NoiseTransport T,
  !NoiseTransportLaws T, !NoiseHandshake HS T,
  !HashOrder RateLimit.IpAddr (RateLimit.RateLimiter * Z)}.

(** The packet handler folded over packets. *)
Fixpoint serve_packets (src : RateLimit.IpAddr) (clk : nat -> readings) (i : nat)
    (packets : list (list byte)) (sh : shared R) : ended * list action * shared R :=
  match packets with
  | [] => (Returned (Ok tt), [], sh)
  | packet :: packets =>
      let '(a, sh) := serve_packet src (clk i) packet sh in
      match a with
      | None => (Panicked, [], sh)
      | Some a =>
          let '(e, acts, sh) := serve_packets src clk (S i) packets sh in
          (e, option_list a ++ acts, sh)
      end
  end.

Fixpoint write_frames (packets : list (list byte)) : M (Link T) unit :=
  match packets with
  | [] => mret tt
  | p :: packets => _ ← write_noise_frame p; write_frames packets
  end.

Lemma serve_loop_packets src clk i packets a b sh fuel :
  channel a b -> Forall (fun p => length p = PACKET_SIZE) packets ->
  Z.of_nat FRAME_LEN <= NOISE_MAX_MSG -> (length packets < fuel)%nat ->
  exists w a', length w = (length packets * FRAME_LEN)%nat /\
    (forall so r, write_frames packets (mkLink (mkSend so None) r a) =
       (Ret tt, mkLink (mkSend (so ++ w) None) r a')) /\
    (forall s, serve_loop fuel src clk i sh (mkLink s (mkRecv w Finished) b) =
       serve_packets src clk i packets sh).
Proof.
  intros Hch Hp Hf. revert a b i sh fuel Hch.
  induction Hp as [|p packets Hp Hps IH]; intros a b i sh fuel Hch Hfuel; simpl in Hfuel.
  { exists [], a. split; [done|]. split; [intros; by rewrite app_nil_r|]. intros s.
    destruct fuel; [lia|]. simpl. unfold read_noise_frame, mbind, M_bind, read_exact. simpl.
    by rewrite (proj2 (Nat.leb_gt FRAME_LEN 0)) by (unfold FRAME_LEN, NOISE_TAG_LEN; lia). }
  destruct fuel as [|fuel]; [lia|].
  destruct (frame_carries a b p Hch Hp Hf) as (w & a1 & b1 & Hch1 & Hw & HW & HR).
  destruct (serve_packet src (clk i) p sh) as [act sh1] eqn:Hsp.
  destruct (IH a1 b1 (S i) sh1 fuel Hch1 ltac:(lia)) as (w' & a' & Hw' & HW' & HL).
  exists (w ++ w'), a'. split; [rewrite length_app; simpl; lia|]. split.
  - intros so r. simpl. unfold mbind, M_bind. by rewrite HW, HW', <- app_assoc.
  - intros s. simpl. rewrite HR, Hsp. destruct act as [act|]; [|done]. by rewrite HL.
Qed.

(** The fuel [serve_connection] gives the loop is never exhausted: more of it
    changes nothing. *)
Lemma serve_loop_fuel f1 f2 src clk i sh (l : Link T) :
  (unread l < f1)%nat -> (unread l < f2)%nat ->
  serve_loop f1 src clk i sh l = serve_loop f2 src clk i sh l.
Proof.
  revert f2 i sh l. induction f1 as [|f1 IH]; intros [|f2] i sh l H1 H2; try lia. simpl.
  destruct (read_noise_frame l) as [[p|e|] l'] eqn:Hr; [|done..].
  apply read_frame_unread in Hr. destruct (serve_packet src (clk i) p sh) as [[a|] sh1]; [|done].
  by rewrite (IH f2) by lia.
Qed.
End wire.

(** ** Dispatch *)
Definition MIXNET_ALPN : list byte := String.list_byte_of_string "gotham/1".
Definition MAILBOX_ALPN : list byte := String.list_byte_of_string "gotham-mbx/1".
Definition GOSSIP_ALPN : list byte := String.list_byte_of_string "gotham-dir/1".
Definition RENDEZVOUS_ALPN : list byte := String.list_byte_of_string "gotham-rdv/1".
Definition RENDEZVOUS_QUERY_ALPN : list byte := String.list_byte_of_string "gotham-rdvq/1".

(** [alpn_protocols] of the server endpoint, most preferred first. *)
Definition server_alpns : list (list byte) :=
  [MIXNET_ALPN; MAILBOX_ALPN; GOSSIP_ALPN; RENDEZVOUS_ALPN; RENDEZVOUS_QUERY_ALPN].

Inductive service : Type :=
| ServeMixnet
| ServeMailbox
| ServeGossip
| ServeRendezvous
| ServeRendezvousQuery
| CloseWith (reason : string).

(** The [match] on the negotiated protocol. *)
Definition select_service (has_mailbox has_gossip : bool) (alpn : option (list byte)) : service :=
  match alpn with
  | None => ServeMixnet
  | Some a =>
      if decide (a = MAILBOX_ALPN) then
        if has_mailbox then ServeMailbox else CloseWith "no mailbox here"
      else if decide (a = GOSSIP_ALPN) then
        if has_gossip then ServeGossip else CloseWith "no gossip here"
      else if decide (a = RENDEZVOUS_ALPN) then ServeRendezvous
      else if decide (a = RENDEZVOUS_QUERY_ALPN) then ServeRendezvousQuery
      else ServeMixnet
  end.

(** ** Admission

    A permit per connection, returned when its task ends. *)
Definition MAX_INFLIGHT_CONNS : nat := 1024.

(** ** Periodic persistence *)
Definition PERSIST_INTERVAL : Z := from_secs 60.

(** One tick: encode under the lock, write outside it; [None] ends the task. *)
Definition persist_tick `{!Platform} (flt : ReplayPersist.write_faults) (fs : gmap string file) (r : Relay)
    (now now_unix : Z) : option (result io_error nat * gmap string file) :=
  '(buf, path) ← encode_replay r now now_unix;
  let '(res, states) := ReplayPersist.write_encoded flt fs buf path in
  Some (res, ReplayPersist.final_fs fs states).

(** ** Properties *)
Section server_properties.
Context `{!Gotham} {R HS T : Type} `{!Rng R, !Delay.Libm, !NoiseTransport T,
  !NoiseTransportLaws T, !NoiseHandshake HS T, !NoiseHandshakeLaws HS T,
  !HashOrder RateLimit.IpAddr (RateLimit.RateLimiter * Z)}.

Lemma responder_fst sk s r :
  noise_responder_handshake (HS := HS) (T := T) sk s r =
  let '(res, s, r) := noise_responder_handshake_bound (HS := HS) (T := T) sk s r in
  (map_io fst res, s, r).
Proof. done. Qed.

(** A connection on which the peer handshakes, sends packets and closes. *)
Lemma connection_serves i_sk sk src clk packets (sh : shared R) :
  Forall (fun p => length p = PACKET_SIZE) packets -> Z.of_nat FRAME_LEN <= NOISE_MAX_MSG ->
  exists hello reply client h w client',
    noise_initiator_handshake_bound (HS := HS) i_sk (public_key sk) (mkSend [] None)
      (mkRecv reply Finished) = (Ret (client, h), mkSend hello None, mkRecv [] Finished) /\
    (forall so r, write_frames packets (mkLink (mkSend so None) r client) =
       (Ret tt, mkLink (mkSend (so ++ w) None) r client')) /\
    serve_connection (HS := HS) (T := T) sk src clk sh (mkSend [] None)
      (mkRecv (hello ++ w) Finished) =
      (serve_packets src clk 0 packets sh, mkSend reply None).
Proof.
  intros Hp Hf. destruct (handshake_runs i_sk sk [] [] Finished Finished)
    as (w1 & w2 & w3 & ti & tr & h & Hi & Hr & Hc1 & Hc2).
  destruct (serve_loop_packets src clk 0 packets ti tr sh (S (length packets * FRAME_LEN)) Hc1 Hp Hf)
    as (w & ti' & Hw & HW & HL); [unfold FRAME_LEN, NOISE_TAG_LEN; nia|]. rewrite <- Hw in HL.
  exists (w1 ++ w3), w2, ti, h, w, ti'. split; [done|]. split; [done|].
  unfold serve_connection. rewrite responder_fst, <- app_assoc, Hr.
  cbn [map_io fst r_buf]. rewrite HL.
  by destruct (serve_packets src clk 0 packets sh) as [[??]?].
Qed.

(** C21. A connection is the fold of the packet handler: whatever full-size
    packets a peer sends after its handshake, the relay handles exactly those,
    once each and in order, and the connection ends cleanly when the peer
    closes (unless the handler panics). *)
Theorem connection_serves_packets i_sk sk src clk packets (sh : shared R) :
  Forall (fun p => length p = PACKET_SIZE) packets -> Z.of_nat FRAME_LEN <= NOISE_MAX_MSG ->
  exists hello reply client h w client',
    noise_initiator_handshake_bound (HS := HS) i_sk (public_key sk) (mkSend [] None)
      (mkRecv reply Finished) = (Ret (client, h), mkSend hello None, mkRecv [] Finished) /\
    (forall so r, write_frames packets (mkLink (mkSend so None) r client) =
       (Ret tt, mkLink (mkSend (so ++ w) None) r client')) /\
    serve_connection (HS := HS) (T := T) sk src clk sh (mkSend [] None)
      (mkRecv (hello ++ w) Finished) =
      (serve_packets src clk 0 packets sh, mkSend reply None).
Proof. apply connection_serves. Qed.

(** A forwarded packet arrives: what [forward_packet] sends to a relay
    whose key it was given, that relay hands to its packet handler, unchanged,
    and nothing else. *)
Theorem forwarded_packet_arrives my_sk sk src clk packet (sh : shared R) :
  length packet = PACKET_SIZE -> Z.of_nat FRAME_LEN <= NOISE_MAX_MSG ->
  exists wire reply,
    forward_packet (HS := HS) (T := T) (Ret tt) (public_key sk) my_sk packet (mkSend [] None)
      (mkRecv reply Finished) = (Ret tt, mkSend wire None) /\
    serve_connection (HS := HS) (T := T) sk src clk sh (mkSend [] None) (mkRecv wire Finished) =
      (serve_packets src clk 0 [packet] sh, mkSend reply None).
Proof.
  intros Hp Hf.
  destruct (connection_serves my_sk sk src clk [packet] sh) as
    (hello & reply & client & h & w & client' & Hi & HW & Hs); [by repeat constructor|done|].
  exists (hello ++ w), reply. split; [|done].
  unfold forward_packet, noise_initiator_handshake. rewrite Hi. simpl.
  specialize (HW hello (mkRecv [] Finished)). simpl in HW. unfold mbind, M_bind in HW |- *.
  destruct (write_noise_frame packet _) as [[[]|e|] l]; unfold mret, M_ret in HW; by simplify_eq.
Qed.

End server_properties.

Module ServerDemo.
#[local] Existing Instances Toy.gotham counter_rng Delay.coarse_libm ToyNoise.transport
  ToyNoise.handshake.
#[local] Instance order : HashOrder RateLimit.IpAddr (RateLimit.RateLimiter * Z) :=
  sorted_order _ _.

Definition sh0 : shared Z := mkShared per_source_limiter Process.Demo.relay1 0.
Definition clk (i : nat) : readings := let t := Z.of_nat i in mkReadings t t t t t.
Definition src : RateLimit.IpAddr := RateLimit.V4 7.

Lemma connection_serves_packets_witness :
  exists hello reply client h w client',
    noise_initiator_handshake_bound (HS := ToyNoise.hs) (Toy.sk 9) (public_key (Toy.sk 1))
      (mkSend [] None) (mkRecv reply Finished) =
      (Ret (client, h), mkSend hello None, mkRecv [] Finished) /\
    (forall so r, write_frames [Process.Demo.two_hops; Process.Demo.two_hops]
         (mkLink (mkSend so None) r client) =
       (Ret tt, mkLink (mkSend (so ++ w) None) r client')) /\
    serve_connection (HS := ToyNoise.hs) (T := ToyNoise.state) (Toy.sk 1) src clk sh0
      (mkSend [] None) (mkRecv (hello ++ w) Finished) =
      (serve_packets src clk 0 [Process.Demo.two_hops; Process.Demo.two_hops] sh0, mkSend reply None).
Proof.
  apply (@connection_serves_packets _ _ _ _ _ _ _ toy_noise_laws _ toy_handshake_laws order
           (Toy.sk 9) (Toy.sk 1) src clk [Process.Demo.two_hops; Process.Demo.two_hops] sh0).
  - repeat constructor; by vm_compute.
  - by vm_compute.
Defined.

Lemma forwarded_packet_arrives_witness :
  exists wire reply,
    forward_packet (HS := ToyNoise.hs) (T := ToyNoise.state) (Ret tt) (public_key (Toy.sk 1))
      (Toy.sk 9) Process.Demo.two_hops (mkSend [] None) (mkRecv reply Finished) =
      (Ret tt, mkSend wire None) /\
    serve_connection (HS := ToyNoise.hs) (T := ToyNoise.state) (Toy.sk 1) src clk sh0
      (mkSend [] None) (mkRecv wire Finished) =
      (serve_packets src clk 0 [Process.Demo.two_hops] sh0, mkSend reply None).
Proof.
  apply (@forwarded_packet_arrives _ _ _ _ _ _ _ toy_noise_laws _ toy_handshake_laws order
           (Toy.sk 9) (Toy.sk 1) src clk Process.Demo.two_hops sh0); by vm_compute.
Defined.

(** The first copy is forwarded, the second is recognised. *)
Example two_copies_one_forward :
  length (serve_packets src clk 0 [Process.Demo.two_hops; Process.Demo.two_hops] sh0).1.2 = 1%nat.
Proof. vm_compute. reflexivity. Qed.

End ServerDemo.
