(* ===== verification/Client.v ===== *)
(** * The sending client ([client.rs])

    [GothamClient] picks a path, builds the layered packet and hands it to the
    entry relay.  Path selection and the relay descriptors belong to
    [crypto_gotham::directory] and are an interface.

    The end-to-end theorem: the packet [ship_path] builds for a path, run
    through the relays of that path with [Relay::process], comes out at the
    last one, and only there, as the payload padded with zeros. *)

From S2P Require Import Prelude Text Net F64 Rand Gotham Wire Services Process.
From S2P Require Delay RateLimit Replay.

(** ** Interfaces *)

(** [crypto_gotham::directory]: descriptors and path selection. *)
Class Directory (R : Type) := {
  DirectoryError : Type;
  RelayDescriptor : Type;
  kem_pubkey_bytes : RelayDescriptor -> result DirectoryError (list byte);
  has_rendezvous : RelayDescriptor -> bool;
  ipv4_octets : RelayDescriptor -> result DirectoryError (list byte);
  relay_port : RelayDescriptor -> result DirectoryError Z;
  relay_addr : RelayDescriptor -> str;
  (** [PathSelector::new(relays).with_guards(guards).pick(rng, n)] *)
  pick : R -> list RelayDescriptor -> list string -> nat ->
    result DirectoryError (list RelayDescriptor) * R;
  pick_to_exit : R -> list RelayDescriptor -> list string -> nat -> RelayDescriptor ->
    result DirectoryError (list RelayDescriptor) * R;
}.

Inductive ClientError : Type :=
| PayloadTooLarge
| BadHopCount
| PathSelection
| BadDirectory (what : string)
| Crypto
| Transport (e : TransportError).

#[global] Instance ClientError_eq_dec : EqDecision ClientError.
Proof. solve_decision. Defined.

Definition SENDER_MEAN_DELAY_MICROS : Z := 500000.

Section client.
Context `{!Gotham} {R : Type} `{!Rng R, !Route R, !Delay.Libm, !Directory R}.

Definition MAX_PAYLOAD_SIZE : nat := PACKET_SIZE - HEADER_LEN.

(** [None] is the panic of the scheduler. *)
Definition sender_hop_delay_micros (sched : Delay.PoissonScheduler) (rng : R) : option Z * R :=
  let '(d, rng) := Delay.next_delay sched rng in
  ((fun d => Z.max (Z.min (d / 1000) u32_max) 1) <$> d, rng).

Definition hop_count_for_mode (m : Z) : option nat :=
  if m =? mode_LOW_LATENCY then Some 3%nat
  else if m =? mode_BALANCED then Some 4%nat
  else if m =? mode_PARANOID then Some 5%nat
  else None.

(** The endpoint is the network's; the rest of [GothamClient]. *)
Record GothamClient : Type := mkClient {
  mean_hop_delay_micros : Z;
  entry_guards : list string;
}.

Definition default_client : GothamClient := mkClient SENDER_MEAN_DELAY_MICROS [].

(** [endpoint] is how [build_client_endpoint] turns out. *)
Definition new (endpoint : result TransportError unit) : result TransportError GothamClient :=
  _ ← endpoint;
  Ok default_client.

Definition with_hop_delay (c : GothamClient) (mean_micros : Z) : GothamClient :=
  mkClient (Z.max mean_micros 1000) (entry_guards c).

Definition with_entry_guards (c : GothamClient) (guards : list string) : GothamClient :=
  mkClient (mean_hop_delay_micros c) guards.

(** Clamping of an X25519 scalar. *)
Definition clamp_scalar (sk : list byte) : list byte :=
  let sk := alter (fun b => byte_of_Z (Z.land (byte_to_Z b) 248)) 0%nat sk in
  let sk := alter (fun b => byte_of_Z (Z.land (byte_to_Z b) 127)) 31%nat sk in
  alter (fun b => byte_of_Z (Z.lor (byte_to_Z b) 64)) 31%nat sk.

Definition fresh_handshake_key (os_rng : R) : list byte * R :=
  let '(sk, os_rng) := fill_bytes 32 os_rng in (clamp_scalar sk, os_rng).

(** ** Building a packet *)

(** The first [Err] of a list of results, or all the values. *)
Fixpoint collect {E A} (l : list (result E A)) : result E (list A) :=
  match l with
  | [] => Ok []
  | x :: l => a ← x; rest ← collect l; Ok (a :: rest)
  end.

(** The routing record of a hop, given the next one if there is one. *)
Definition hop_record (next : option RelayDescriptor) : result ClientError RoutingRecord :=
  let rec := record_default in
  match next with
  | Some next =>
      id ← map_err (fun _ => BadDirectory "next node id") (kem_pubkey_bytes next);
      if has_rendezvous next then
        Ok (mkRecord (next_ipv4 rec) (next_port rec) id (next_gamma rec) (delay_micros rec)
              flag_VIA_RENDEZVOUS)
      else
        ip ← map_err (fun _ => BadDirectory "non-ipv4 next addr") (ipv4_octets next);
        port ← map_err (fun _ => BadDirectory "bad next port") (relay_port next);
        Ok (mkRecord ip port id (next_gamma rec) (delay_micros rec) (flag rec))
  | None =>
      Ok (mkRecord (next_ipv4 rec) (next_port rec) (next_node_id rec) (next_gamma rec)
            (delay_micros rec) flag_IS_LAST_HOP)
  end.

Definition set_delay (r : RoutingRecord) (d : Z) : RoutingRecord :=
  mkRecord (next_ipv4 r) (next_port r) (next_node_id r) (next_gamma r) d (flag r).

(** The loop over the hops; [None] when the scheduler panics. *)
Fixpoint hop_records (sched : Delay.PoissonScheduler) (hops : list RelayDescriptor) (rng : R)
    : option (result ClientError (list RoutingRecord)) * R :=
  match hops with
  | [] => (Some (Ok []), rng)
  | _ :: hops =>
      match hop_record (head hops) with
      | Err e => (Some (Err e), rng)
      | Ok rec =>
          match sender_hop_delay_micros sched rng with
          | (None, rng) => (None, rng)
          | (Some d, rng) =>
              match hop_records sched hops rng with
              | (Some (Ok recs), rng) => (Some (Ok (set_delay rec d :: recs)), rng)
              | (x, rng) => (x, rng)
              end
          end
      end
  end.

(** One layer of encryption per hop, innermost last. *)
Definition encrypt_layers (subs : list SubKeys) (p : list byte) : list byte :=
  foldr (fun s p => lioness_encrypt (k_payload s) p) p subs.

(** The payload region of a new packet: the payload, then zeros. *)
Definition padded (payload : list byte) : list byte :=
  payload ++ repeat x00 (MAX_PAYLOAD_SIZE - length payload).

(** [ship_path] up to the network: the entry relay's address and key, and the
    packet.  [None] is a panic. *)
Definition build_packet (c : GothamClient) (hops : list RelayDescriptor) (payload : list byte) (rng : R)
    : option (result ClientError ((RateLimit.IpAddr * Z) * list byte * list byte)) * R :=
  match collect (map kem_pubkey_bytes hops) with
  | Err _ => (Some (Err (BadDirectory "relay kem pubkey malformed")), rng)
  | Ok pks =>
      match derive_route_secrets rng pks with
      | (Err _, rng) => (Some (Err Crypto), rng)
      | (Ok (alphas, subs), rng) =>
          match hop_records (Delay.new (mean_hop_delay_micros c)) hops rng with
          | (None, rng) => (None, rng)
          | (Some (Err e), rng) => (Some (Err e), rng)
          | (Some (Ok records), rng) =>
              let '(trailer, rng) := fill_bytes TRAILER_LEN rng in
              match wrap_header rng mode_BALANCED alphas subs records trailer with
              | (Err _, rng) => (Some (Err Crypto), rng)
              | (Ok header, rng) =>
                  (* copying a payload that does not fit panics *)
                  if (MAX_PAYLOAD_SIZE <? length payload)%nat then (None, rng) else
                  let packet := header_encode header ++ encrypt_layers subs (padded payload) in
                  match hops with
                  | [] => (None, rng)
                  | entry :: _ =>
                      match parse_socket (relay_addr entry) with
                      | None => (Some (Err (BadDirectory "entry addr parse")), rng)
                      | Some addr =>
                          match kem_pubkey_bytes entry with
                          | Err _ => (Some (Err (BadDirectory "entry kem pk")), rng)
                          | Ok pk => (Some (Ok (addr, pk, packet)), rng)
                          end
                      end
                  end
              end
          end
      end
  end.

(** ** Sending

    [net addr pk sk packet] is [forward_packet] on the client's endpoint. *)
Context (net : RateLimit.IpAddr * Z -> list byte -> list byte -> list byte ->
  result TransportError unit).

Definition ship_path (c : GothamClient) (hops : list RelayDescriptor) (payload : list byte)
    (rng os_rng : R) : option (result ClientError unit) * R :=
  match build_packet c hops payload rng with
  | (None, rng) => (None, rng)
  | (Some (Err e), rng) => (Some (Err e), rng)
  | (Some (Ok (addr, pk, packet)), rng) =>
      let '(handshake_sk, _) := fresh_handshake_key os_rng in
      (Some (map_err Transport (net addr pk handshake_sk packet)), rng)
  end.

Definition good_hop_count (n : nat) : bool := (3 <=? n)%nat && (n <=? 5)%nat.

Definition send (c : GothamClient) (relays : list RelayDescriptor) (hop_count : nat)
    (payload : list byte) (rng os_rng : R) : option (result ClientError unit) * R :=
  if (MAX_PAYLOAD_SIZE <? length payload)%nat then (Some (Err PayloadTooLarge), rng) else
  if negb (good_hop_count hop_count) then (Some (Err BadHopCount), rng) else
  match pick rng relays (entry_guards c) hop_count with
  | (Err _, rng) => (Some (Err PathSelection), rng)
  | (Ok path, rng) => ship_path c path payload rng os_rng
  end.

Definition send_to_exit (c : GothamClient) (relays : list RelayDescriptor) (hop_count : nat)
    (exit : RelayDescriptor) (payload : list byte) (rng os_rng : R)
    : option (result ClientError unit) * R :=
  if (MAX_PAYLOAD_SIZE <? length payload)%nat then (Some (Err PayloadTooLarge), rng) else
  if negb (good_hop_count hop_count) then (Some (Err BadHopCount), rng) else
  match pick_to_exit rng relays (entry_guards c) hop_count exit with
  | (Err _, rng) => (Some (Err PathSelection), rng)
  | (Ok path, rng) => ship_path c path payload rng os_rng
  end.

(** ** Sealed envelopes *)
Context `{!Sealed R}.

Definition frame (envelope : list byte) : result ClientError (list byte) :=
  let framed := to_be_bytes 4 (zlen envelope) ++ envelope in
  if (MAX_PAYLOAD_SIZE <? length framed)%nat then Err PayloadTooLarge else Ok framed.

Definition seal_and_frame (recipient_pk sender_pk body : list byte) (rng : R)
    : result ClientError (list byte) * R :=
  match seal rng recipient_pk sender_pk body with
  | (Err _, rng) => (Err Crypto, rng)
  | (Ok envelope, rng) => (frame envelope, rng)
  end.

Definition frame_sealed_for_exit (exit : RelayDescriptor) (sender_pk body : list byte) (rng : R)
    : result ClientError (list byte) * R :=
  match kem_pubkey_bytes exit with
  | Err _ => (Err (BadDirectory "exit kem pk"), rng)
  | Ok exit_kem => seal_and_frame exit_kem sender_pk body rng
  end.

Definition send_sealed (c : GothamClient) (relays : list RelayDescriptor) (hop_count : nat)
    (recipient_pk sender_pk body : list byte) (rng os_rng : R)
    : option (result ClientError unit) * R :=
  match seal_and_frame recipient_pk sender_pk body rng with
  | (Err e, rng) => (Some (Err e), rng)
  | (Ok framed, rng) => send c relays hop_count framed rng os_rng
  end.

Definition send_sealed_to_exit (c : GothamClient) (relays : list RelayDescriptor) (hop_count : nat)
    (exit : RelayDescriptor) (sender_pk body : list byte) (rng os_rng : R)
    : option (result ClientError unit) * R :=
  match frame_sealed_for_exit exit sender_pk body rng with
  | (Err e, rng) => (Some (Err e), rng)
  | (Ok framed, rng) => send_to_exit c relays hop_count exit framed rng os_rng
  end.
End client.


(** Path selection: a path has the number of hops asked for, and one to an
    exit ends there. *)
Class DirectoryLaws (R : Type) `{!Directory R} : Prop := {
  pick_length : forall rng relays guards n path rng',
    pick rng relays guards n = (Ok path, rng') -> length path = n;
  pick_to_exit_length : forall rng relays guards n exit path rng',
    pick_to_exit rng relays guards n exit = (Ok path, rng') -> length path = n;
  pick_to_exit_last : forall rng relays guards n exit path rng',
    pick_to_exit rng relays guards n exit = (Ok path, rng') -> last path = Some exit;
}.

(** ** A packet on its way

    The relays of a path, each with the clock readings and the generator it
    has when the packet arrives. *)
Record stop {R : Type} : Type := mkStop {
  st_relay : Relay;
  st_rate : Z;
  st_replay : Z;
  st_rng : R;
}.
Arguments stop : clear implicits.
Arguments mkStop {R}.

Section travel.
Context `{!Gotham} {R : Type} `{!Rng R, !Route R, !Delay.Libm, !Directory R}.

Definition arrive (st : stop R) (pkt : list byte) : option ProcessOutcome :=
  outcome (process (st_relay st) (st_rate st) (st_replay st) (st_rng st) pkt).

(** Each relay gets what the one before it forwards. *)
Fixpoint travel (stops : list (stop R)) (pkt : list byte) : list (option ProcessOutcome) :=
  match stops with
  | [] => []
  | st :: stops =>
      let o := arrive st pkt in
      o :: match o with Some (Forward _ _ _ _ p) => travel stops p | _ => [] end
  end.

(** No relay on the way throttles the packet or has seen its MAC. *)
Definition undisturbed (outs : list (option ProcessOutcome)) : Prop :=
  Forall (fun o => o <> Some (Drop RateLimited) /\ o <> Some (Drop Replay)) outs.

Fixpoint neighbours_differ (stops : list (stop R)) : Prop :=
  match stops with
  | [] => True
  | st :: rest =>
      match head rest with
      | Some st' => identity_public_key (st_relay st) <> identity_public_key (st_relay st')
      | None => True
      end /\ neighbours_differ rest
  end.

(** The stops of a path: the relays with the descriptors' keys.  A path that
    names a relay twice in a row is left out, since that relay would drop the
    packet as a loop. *)
Definition stops_of (hops : list RelayDescriptor) (stops : list (stop R)) : Prop :=
  Forall2 (fun hop st => kem_pubkey_bytes hop = Ok (identity_public_key (st_relay st))) hops stops /\
  neighbours_differ stops.

(** How long a relay keeps a packet whose sender chose [micros]. *)
Definition held (micros : Z) : Z := Z.min (from_micros micros) MAX_HOP_DELAY.

(** The delays a sender draws, one after another. *)
Fixpoint drawn (sched : Delay.PoissonScheduler) (rng : R) (ds : list Z) : Prop :=
  match ds with
  | [] => True
  | d :: ds => (sender_hop_delay_micros sched rng).1 = Some d /\
      drawn sched (sender_hop_delay_micros sched rng).2 ds
  end.

(** The delays [ds] of a packet for the path [hops] that was chosen when the
    generator was at [rng]: the route secrets are drawn before them. *)
Definition path_delays (c : GothamClient) (hops : list RelayDescriptor) (rng : R) (ds : list Z) : Prop :=
  length ds = length hops /\ exists pks,
    Forall2 (fun hop pk => kem_pubkey_bytes hop = Ok pk) hops pks /\
    drawn (Delay.new (mean_hop_delay_micros c)) (derive_route_secrets rng pks).2 ds.

(** Every relay but the last forwards to its successor, at its address or by
    rendezvous; the last one delivers [payload]; each waits as the sender
    chose. *)
Inductive follows (payload : list byte) : list Z -> list RelayDescriptor -> list (option ProcessOutcome) -> Prop :=
| follows_last h d :
    1 <= d <= u32_max ->
    follows payload [d] [h] [Some (DeliverLocal (held d) payload)]
| follows_next h next hops addr id d ds p outs :
    1 <= d <= u32_max -> kem_pubkey_bytes next = Ok id ->
    (has_rendezvous next = false -> ipv4_octets next = Ok (ip addr) /\ relay_port next = Ok (port addr)) ->
    follows payload ds (next :: hops) outs ->
    follows payload (d :: ds) (h :: next :: hops) (Some (Forward addr id (held d) (has_rendezvous next) p) :: outs).

(** *** The records of a path *)
Fixpoint records_for (hops : list RelayDescriptor) (recs : list RoutingRecord) : Prop :=
  match hops, recs with
  | [], [] => True
  | _ :: hops, r :: recs =>
      (exists r0 d, hop_record (head hops) = Ok r0 /\ r = set_delay r0 d /\ 1 <= d <= u32_max) /\
      records_for hops recs
  | _, _ => False
  end.

Lemma records_for_length hops recs : records_for hops recs -> length hops = length recs.
Proof.
  revert recs. induction hops as [|h hops IH]; intros [|r recs]; simpl; try done.
  intros [_ Hr]. by rewrite (IH recs).
Qed.

Lemma sender_delay_range sched (rng : R) d rng' :
  sender_hop_delay_micros sched rng = (Some d, rng') -> 1 <= d <= u32_max.
Proof.
  unfold sender_hop_delay_micros. destruct (Delay.next_delay sched rng) as [[d0|] rng1]; [|done].
  simpl. intros [= <- <-]. unfold u32_max. lia.
Qed.

Lemma hop_records_for sched hops (rng : R) recs rng' :
  hop_records sched hops rng = (Some (Ok recs), rng') -> records_for hops recs.
Proof.
  revert rng recs rng'. induction hops as [|h hops IH]; intros rng recs rng'; simpl.
  { intros [= <- <-]. done. }
  destruct (hop_record (head hops)) as [r0|] eqn:Hr; [|done].
  destruct (sender_hop_delay_micros sched rng) as [[d|] rng1] eqn:Hd; [|done].
  destruct (hop_records sched hops rng1) as [[[recs'|]|] rng2] eqn:Hrec; [|done..].
  intros [= <- <-]. split; [|by eapply IH].
  exists r0, d. split; [done|]. split; [done|]. by eapply sender_delay_range.
Qed.

Lemma hop_records_drawn sched hops (rng : R) recs rng' :
  hop_records sched hops rng = (Some (Ok recs), rng') -> drawn sched rng (map delay_micros recs).
Proof.
  revert rng recs rng'. induction hops as [|h hops IH]; intros rng recs rng'; simpl.
  { by intros [= <- <-]. }
  destruct (hop_record (head hops)) as [r0|]; [|done].
  destruct (sender_hop_delay_micros sched rng) as [[d|] rng1] eqn:Hd; [|done].
  destruct (hop_records sched hops rng1) as [[[recs'|]|] rng2] eqn:Hrec; [|done..].
  intros [= <- <-]. simpl. rewrite Hd. split; [done|]. by eapply IH.
Qed.

Lemma collect_Forall2 {E A B} (f : A -> result E B) l ys :
  collect (map f l) = Ok ys -> Forall2 (fun x y => f x = Ok y) l ys.
Proof.
  revert ys. induction l as [|x l IH]; intros ys; simpl; [by intros [= <-]|].
  intros (y & Hy & (rest & Hrest & [= <-])%result_bind_Ok)%result_bind_Ok. constructor; auto.
Qed.
End travel.

Section journey.
Context `{!Gotham, !GothamLaws} {R : Type}
  `{!Rng R, !Route R, !RouteLaws R, !Delay.Libm, !Directory R}.
Implicit Types (st : stop R) (body pkt : list byte).

Definition wrapped (h : Header) (subs : list SubKeys) (body : list byte) : list byte :=
  header_encode h ++ encrypt_layers subs body.

Lemma encrypt_layers_length subs body : length (encrypt_layers subs body) = length body.
Proof. induction subs as [|s subs IH]; simpl; [done|]. by rewrite lioness_encrypt_length. Qed.

Lemma padded_length payload :
  (length payload <= MAX_PAYLOAD_SIZE)%nat -> length (padded payload) = MAX_PAYLOAD_SIZE.
Proof. intros Hl. unfold padded. rewrite length_app, repeat_length. lia. Qed.

Lemma wrapped_length h subs body :
  length body = MAX_PAYLOAD_SIZE -> length (wrapped h subs body) = PACKET_SIZE.
Proof.
  intros Hb. unfold wrapped. rewrite length_app, header_encode_length, encrypt_layers_length, Hb.
  unfold MAX_PAYLOAD_SIZE. pose proof header_fits. lia.
Qed.

(** A relay honours the delay the sender chose. *)
Lemma hop_delay_sender r rec (rng : R) :
  1 <= delay_micros rec <= u32_max ->
  hop_delay r rec rng = (Some (held (delay_micros rec)), rng).
Proof.
  intros Hd. unfold hop_delay. by rewrite (proj2 (Z.eqb_neq _ _)) by lia.
Qed.

(** One relay opens one layer. *)
Lemma arrive_step st h a alphas s subs r recs body :
  length body = MAX_PAYLOAD_SIZE -> peels h (a :: alphas) (s :: subs) (r :: recs) ->
  derive_hop_subkeys (x25519 (identity_sk (st_relay st)) a) = Ok s ->
  1 <= delay_micros r <= u32_max ->
  let o := arrive st (wrapped h (s :: subs) body) in
  o <> Some (Drop RateLimited) -> o <> Some (Drop Replay) ->
  exists r' h', same_route r r' /\ peels h' alphas subs recs /\
    o = Some (dispatch (st_relay st) r' h' (held (delay_micros r)) (encrypt_layers subs body)).
Proof.
  intros Hb (Ha & Hv & r' & h' & Hu & Hr & Hp) Hs Hd o Ho1 Ho2.
  set (pkt := wrapped h (s :: subs) body) in o.
  assert (drop HEADER_LEN pkt = lioness_encrypt (k_payload s) (encrypt_layers subs body)) as Hdrop
    by (apply drop_app_length'; by rewrite header_encode_length).
  assert (authentic (st_relay st) pkt h s r' h') as Hau.
  { split; [by apply wrapped_length| |done|by rewrite Ha|done].
    unfold pkt, wrapped. rewrite take_app_length' by by rewrite header_encode_length.
    apply header_decode_encode. }
  assert (delay_micros r' = delay_micros r) as Hdel by by apply same_route_fields in Hr as (_ & _ & _ & ? & _).
  exists r', h'. do 2 (split; [done|]). unfold o, arrive. erewrite process_authentic by done.
  by rewrite hop_delay_sender, Hdel, Hdrop, lioness_decrypt_encrypt by by rewrite Hdel.
Qed.

(** The records say where each hop sends the packet. *)
Lemma dispatch_last st r0 d0 r' h' d body :
  hop_record None = Ok r0 -> same_route (set_delay r0 d0) r' ->
  dispatch (st_relay st) r' h' d body = DeliverLocal d body.
Proof.
  simpl. intros [= <-] (_ & _ & _ & _ & Hf)%same_route_fields. unfold dispatch.
  by rewrite (last_hop_flag _ Hf).
Qed.

Lemma dispatch_next st next id r0 d0 r' h' d body :
  kem_pubkey_bytes next = Ok id -> id <> identity_public_key (st_relay st) ->
  hop_record (Some next) = Ok r0 -> same_route (set_delay r0 d0) r' ->
  exists addr,
    dispatch (st_relay st) r' h' d body =
      Forward addr id d (has_rendezvous next) (header_encode h' ++ body) /\
    (has_rendezvous next = false -> ipv4_octets next = Ok (ip addr) /\ relay_port next = Ok (port addr)).
Proof.
  intros Hid Hne Hr0 Hr. exists (mkAddrV4 (next_ipv4 r') (next_port r')).
  cbn [hop_record] in Hr0. apply result_bind_Ok in Hr0 as (id' & Hid' & Hr0).
  rewrite Hid in Hid'. simplify_eq/=.
  assert (is_last_hop r' = false /\ is_via_rendezvous r' = has_rendezvous next /\
    next_node_id r' = id' /\
    (has_rendezvous next = false ->
       ipv4_octets next = Ok (next_ipv4 r') /\ relay_port next = Ok (next_port r')))
    as (Hl & Hvia & Hnode & Haddr).
  { apply same_route_fields in Hr as (Hip & Hpt & Hn & _ & Hf). destruct (has_rendezvous next).
    - simplify_eq/=. apply rendezvous_flag in Hf as [? ?]. done.
    - apply result_bind_Ok in Hr0 as (ipb & Hipb & (pt & Hptb & Heq)%result_bind_Ok). simplify_eq/=.
      apply default_flag in Hf as [? ?].
      destruct (ipv4_octets next), (relay_port next); by simplify_eq/=. }
  split; [|done]. unfold dispatch. rewrite Hl, Hvia, Hnode. by rewrite decide_False.
Qed.

(** Relays that share the sender's keys carry a layered packet to the end. *)
Lemma journey body hops stops h alphas subs recs :
  length body = MAX_PAYLOAD_SIZE -> hops <> [] -> stops_of hops stops -> records_for hops recs ->
  peels h alphas subs recs ->
  Forall3 (fun st a s => derive_hop_subkeys (x25519 (identity_sk (st_relay st)) a) = Ok s)
    stops alphas subs ->
  undisturbed (travel stops (wrapped h subs body)) ->
  follows body (map delay_micros recs) hops (travel stops (wrapped h subs body)).
Proof.
  intros Hb Hne [Hst Hnd] Hrec Hp Hk. revert h alphas subs recs Hne Hnd Hrec Hp Hk.
  induction Hst as [|hop st hops stops Hkem Hst IH]; intros h alphas subs recs Hne Hnd Hrec Hp Hk; [done|].
  destruct recs as [|r recs]; [done|].
  inversion Hk as [|? a s ? alphas' subs' Hs Hk']; subst. clear Hk.
  pose proof Hrec as [(r0 & d0 & Hr0 & -> & Hd0) Hrec']. intros Hun.
  cbn [travel] in Hun |- *. apply Forall_cons in Hun as [[Ho1 Ho2] Hun].
  destruct (arrive_step st h a alphas' s subs' (set_delay r0 d0) recs body)
    as (r' & h' & Hsame & Hp' & Ho); [done..|]. cbn [set_delay delay_micros] in Ho. cbn [map set_delay delay_micros].
  rewrite Ho in Hun |- *. clear Ho Ho1 Ho2.
  destruct Hnd as [Hnin Hnd].
  destruct hops as [|next hops].
  - inversion Hst; subst. destruct recs; [|done]. destruct alphas', subs'; try done.
    erewrite dispatch_last by done. by constructor.
  - inversion Hst as [|? st' ? stops' Hkem' Hst']; subst.
    destruct (dispatch_next st next (identity_public_key (st_relay st')) r0 d0 r' h' (held d0)
                (encrypt_layers subs' body)) as (addr & Hdisp & Haddr); [done| |done..|].
    { by apply not_eq_sym. }
    rewrite Hdisp in Hun |- *. constructor; [done..|].
    by eapply IH.
Qed.

(** What [build_packet] returns when it returns a packet. *)
Lemma build_packet_inv (c : GothamClient) hops payload (rng : R) addr pk pkt rng' :
  build_packet c hops payload rng = (Some (Ok (addr, pk, pkt)), rng') ->
  exists pks rng1 rng2 rng3 alphas subs recs trailer h,
    Forall2 (fun hop pk => kem_pubkey_bytes hop = Ok pk) hops pks /\
    derive_route_secrets rng pks = (Ok (alphas, subs), rng1) /\ records_for hops recs /\
    drawn (Delay.new (mean_hop_delay_micros c)) rng1 (map delay_micros recs) /\
    wrap_header rng2 mode_BALANCED alphas subs recs trailer = (Ok h, rng3) /\
    (length payload <= MAX_PAYLOAD_SIZE)%nat /\ pkt = wrapped h subs (padded payload) /\
    exists entry, head hops = Some entry /\ parse_socket (relay_addr entry) = Some addr /\
      kem_pubkey_bytes entry = Ok pk.
Proof.
  unfold build_packet. destruct (collect _) as [pks|] eqn:Hc; [|done].
  apply collect_Forall2 in Hc.
  destruct (derive_route_secrets rng pks) as [[[alphas subs]|] rng1] eqn:Hd; [|done].
  destruct (hop_records _ hops rng1) as [[[recs|]|] rng2] eqn:Hr; [|done..].
  pose proof (hop_records_drawn _ _ _ _ _ Hr) as Hdr. apply hop_records_for in Hr.
  destruct (fill_bytes TRAILER_LEN rng2) as [trailer rng3].
  destruct (wrap_header rng3 _ _ _ _ _) as [[h|] rng4] eqn:Hw; [|done].
  destruct (Nat.ltb_spec MAX_PAYLOAD_SIZE (length payload)) as [|Hle]; [done|].
  destruct hops as [|entry hops]; [done|].
  destruct (parse_socket (relay_addr entry)) eqn:Ha; [|done].
  destruct (kem_pubkey_bytes entry) as [epk|] eqn:Hk; [|done]. intros [= <- <- <- <-].
  exists pks, rng1, rng3, rng4, alphas, subs, recs, trailer, h. split_and!; try done. by exists entry.
Qed.

Lemma Forall3_lookup_intro {A B C} (P : A -> B -> C -> Prop) l1 l2 l3 :
  length l2 = length l1 -> length l3 = length l1 ->
  (forall i x y z, l1 !! i = Some x -> l2 !! i = Some y -> l3 !! i = Some z -> P x y z) ->
  Forall3 P l1 l2 l3.
Proof.
  revert l2 l3. induction l1 as [|x l1 IH]; intros [|y l2] [|z l3] H2 H3 HP; simplify_eq/=; constructor.
  - by apply (HP 0%nat).
  - apply IH; [done..|]. intros i. apply (HP (S i)).
Qed.

(** A built packet has the size relays expect, and travels its path. *)
Lemma built_packet_travels (c : GothamClient) hops payload (rng : R) addr pk pkt rng' :
  build_packet c hops payload rng = (Some (Ok (addr, pk, pkt)), rng') ->
  length pkt = PACKET_SIZE /\ exists ds, path_delays c hops rng ds /\
    forall stops, stops_of hops stops -> undisturbed (travel stops pkt) ->
      follows (padded payload) ds hops (travel stops pkt).
Proof.
  intros (pks & rng1 & rng2 & rng3 & alphas & subs & recs & trailer & h & Hpks & Hd & Hrec & Hdr & Hw &
    Hlen & -> & entry & Hentry & _)%build_packet_inv.
  destruct (route_secrets_agree _ _ _ _ _ Hd) as (Hal & Hsl & Hkeys).
  pose proof (records_for_length _ _ Hrec) as Hrl. pose proof (Forall2_length _ _ _ Hpks) as Hpl.
  split; [apply wrapped_length; by apply padded_length|]. exists (map delay_micros recs). split.
  { split; [by rewrite length_map|]. exists pks. by rewrite Hd. }
  intros stops Hst Hun. pose proof (Forall2_length _ _ _ (proj1 Hst)) as Hsl'.
  eapply journey; try done.
  - by apply padded_length.
  - by destruct hops.
  - eapply wrap_header_peels; [| |done]; congruence.
  - apply Forall3_lookup_intro; [congruence..|]. intros i st a s Hi Ha Hs.
    apply (Hkeys i); [|done..].
    destruct (Forall2_lookup_r _ _ _ _ _ (proj1 Hst) Hi) as (hop & Hhop & Hkem).
    destruct (Forall2_lookup_l _ _ _ _ _ Hpks Hhop) as (pk' & Hpk' & Hkem').
    unfold identity_public_key in Hkem. congruence.
Qed.
End journey.

(** ** Theorems *)
Section client_properties.
Context `{!Gotham, !GothamLaws} {R : Type}
  `{!Rng R, !RngLaws R, !Route R, !RouteLaws R, !Delay.Libm, !Delay.LibmLaws, !Directory R,
    !DirectoryLaws R, !Sealed R, !SealedLaws R}.
Context (net : RateLimit.IpAddr * Z -> list byte -> list byte -> list byte ->
  result TransportError unit).
Implicit Types (c : GothamClient) (rng os_rng : R) (payload : list byte).

(** The packet [pkt] was handed to the network, which took it, for the first
    relay of the path: its published address and key, and the handshake key just
    drawn. *)
Definition handed_over (os_rng : R) (hops : list RelayDescriptor) (pkt : list byte) : Prop :=
  exists entry addr pk, head hops = Some entry /\ parse_socket (relay_addr entry) = Some addr /\
    kem_pubkey_bytes entry = Ok pk /\ net addr pk (fresh_handshake_key os_rng).1 pkt = Ok tt.

(** What a successful [ship_path] handed to the network, with the delays [ds]. *)
Definition shipped (os_rng : R) (hops : list RelayDescriptor) (ds : list Z) (payload pkt : list byte) : Prop :=
  handed_over os_rng hops pkt /\
  length pkt = PACKET_SIZE /\
  forall stops, stops_of (R := R) hops stops -> undisturbed (travel stops pkt) ->
    follows (padded payload) ds hops (travel stops pkt).

Lemma ship_path_shipped c hops payload rng os_rng rng' :
  ship_path net c hops payload rng os_rng = (Some (Ok tt), rng') ->
  exists ds pkt, path_delays c hops rng ds /\ shipped os_rng hops ds payload pkt.
Proof.
  unfold ship_path.
  destruct (build_packet c hops payload rng) as [[[[[addr pk] pkt]|]|] rng1] eqn:Hb; [|done..].
  destruct (fresh_handshake_key os_rng) as [sk ?] eqn:Hsk.
  destruct (net addr pk sk pkt) as [[]|] eqn:Hn; [|done]. intros _.
  pose proof (build_packet_inv _ _ _ _ _ _ _ _ Hb) as
    (? & ? & ? & ? & ? & ? & ? & ? & ? & _ & _ & _ & _ & _ & _ & _ & entry & Hentry & Ha & Hpk).
  apply built_packet_travels in Hb as (Hlen & ds & Hds & Hf). exists ds, pkt. split; [done|].
  split; [|done]. exists entry, addr, pk. by rewrite Hsk.
Qed.

Lemma follows_end payload ds hops outs :
  follows payload ds hops outs ->
  length outs = length hops /\ exists d, last outs = Some (Some (DeliverLocal d payload)).
Proof.
  induction 1 as [h d Hd|h next hops addr id d ds p outs _ _ _ Hf [IHl (d' & IH)]]; [by eauto|].
  split; [simpl in *; lia|]. exists d'. by destruct outs.
Qed.

(** Padding does not disturb the length-prefixed envelope. *)
Lemma unframe_padded envelope framed :
  frame envelope = Ok framed -> unframe (padded framed) = Some envelope.
Proof.
  unfold frame. set (fr := to_be_bytes 4 (zlen envelope) ++ envelope).
  destruct (Nat.ltb_spec MAX_PAYLOAD_SIZE (length fr)) as [|Hle]; [done|].
  intros [= <-]. unfold fr in *. rewrite length_app, length_to_be_bytes in Hle.
  pose proof packet_size_u32 as Hu. unfold MAX_PAYLOAD_SIZE in Hle.
  unfold unframe, padded. rewrite !length_app, length_to_be_bytes. simpl (_ <? _)%nat.
  rewrite <- app_assoc, take_app_length' by (by rewrite length_to_be_bytes).
  rewrite from_to_be_bytes by (unfold zlen, u32_max in *; simpl; lia).
  unfold zlen at 1. rewrite !length_app, length_to_be_bytes, (proj2 (Z.ltb_ge _ _)) by (unfold zlen; lia).
  rewrite drop_app_length' by (by rewrite length_to_be_bytes).
  by rewrite take_app_length' by (unfold zlen; lia).
Qed.

Lemma sealed_opens sk sender body rng framed rng' :
  seal_and_frame (public_key sk) sender body rng = (Ok framed, rng') ->
  unsealing_delivery_handler sk (padded framed) = Some (sender, body).
Proof.
  unfold seal_and_frame. destruct (seal rng _ _ _) as [[env|] rng1] eqn:Hs; [|done].
  intros [= Hf _]. unfold unsealing_delivery_handler. rewrite (unframe_padded _ _ Hf). simpl.
  by rewrite (unseal_seal _ _ _ _ _ _ Hs).
Qed.

Lemma send_shipped c relays n payload rng os_rng rng' :
  send net c relays n payload rng os_rng = (Some (Ok tt), rng') ->
  exists hops rng1 ds pkt, pick rng relays (entry_guards c) n = (Ok hops, rng1) /\ length hops = n /\
    (length payload <= MAX_PAYLOAD_SIZE)%nat /\ path_delays c hops rng1 ds /\ shipped os_rng hops ds payload pkt.
Proof.
  unfold send. destruct (Nat.ltb_spec MAX_PAYLOAD_SIZE (length payload)); [done|].
  destruct (good_hop_count n); [|done]. simpl.
  destruct (pick rng relays _ n) as [[hops|] rng1] eqn:Hp; [|done].
  intros (ds & pkt & Hds & Hs)%ship_path_shipped. exists hops, rng1, ds, pkt.
  split; [done|]. split; [by eapply pick_length|done].
Qed.

(** C13. A message sent by the path the client chose arrives: when [send]
    succeeds, it gave the network one packet of the fixed size, for the published
    address and key of the first relay of a path of the requested length; run through the relays of that
    path with [Relay::process], each forwards it to the next one at its
    published address (or by rendezvous) and the last one, and no other,
    delivers the payload padded with zeros, each after exactly the delay the
    client drew for it (at most 30 s), unless a relay throttles the packet or has
    already seen its MAC. *)
Theorem send_reaches_exit c relays n payload rng os_rng rng' :
  send net c relays n payload rng os_rng = (Some (Ok tt), rng') ->
  exists hops rng1 ds pkt, pick rng relays (entry_guards c) n = (Ok hops, rng1) /\ length hops = n /\
    (length payload <= MAX_PAYLOAD_SIZE)%nat /\ path_delays c hops rng1 ds /\ shipped os_rng hops ds payload pkt.
Proof. apply send_shipped. Qed.

(** C16. A sealed message sent to an exit is read there: when
    [send_sealed_to_exit] succeeds, it sealed the body for the exit, asked the
    directory for a path of the requested length that ends at the exit and gave
    the network one packet for the first relay of that path; carried by the
    relays of that path, none of which throttles it or has seen its MAC, it ends
    at the exit, which delivers a payload that opens, with its own key, to the
    sender's key and the body. *)
Theorem sealed_message_read_at_exit c relays n exit sender body rng os_rng rng' :
  send_sealed_to_exit net c relays n exit sender body rng os_rng = (Some (Ok tt), rng') ->
  exists framed rng1 hops rng2 ds pkt,
    frame_sealed_for_exit exit sender body rng = (Ok framed, rng1) /\
    pick_to_exit rng1 relays (entry_guards c) n exit = (Ok hops, rng2) /\
    length hops = n /\ last hops = Some exit /\ path_delays c hops rng2 ds /\
    shipped os_rng hops ds framed pkt /\ forall stops st,
    stops_of (R := R) hops stops -> last stops = Some st -> undisturbed (travel stops pkt) ->
    exists d payload, last (travel stops pkt) = Some (Some (DeliverLocal d payload)) /\
      unsealing_delivery_handler (identity_sk (st_relay st)) payload = Some (sender, body).
Proof.
  unfold send_sealed_to_exit, frame_sealed_for_exit.
  destruct (kem_pubkey_bytes exit) as [pk|] eqn:Hpk; [|done].
  destruct (seal_and_frame pk sender body rng) as [[framed|] rng1] eqn:Hf; [|done].
  unfold send_to_exit. destruct (_ <? _)%nat; [done|]. destruct (good_hop_count n); [|done]. simpl.
  destruct (pick_to_exit rng1 relays _ n exit) as [[hops|] rng2] eqn:Hp; [|done].
  intros (ds & pkt & Hds & Hs)%ship_path_shipped. exists framed, rng1, hops, rng2, ds, pkt.
  pose proof (pick_to_exit_last _ _ _ _ _ _ _ Hp) as Hlast.
  pose proof (pick_to_exit_length _ _ _ _ _ _ _ Hp) as Hlen. do 6 (split; [done|]).
  intros stops st Hst Hls Hun. destruct (follows_end _ _ _ _ (proj2 (proj2 Hs) stops Hst Hun)) as [_ (d & Hd)].
  exists d, (padded framed). split; [done|]. apply (sealed_opens _ _ _ rng _ rng1).
  assert (kem_pubkey_bytes exit = Ok (identity_public_key (st_relay st))) as Hk.
  { pose proof (Forall2_length _ _ _ (proj1 Hst)) as Hl. rewrite last_lookup in Hlast. rewrite last_lookup in Hls.
    rewrite <- Hl in Hls. by apply (Forall2_lookup_lr _ _ _ _ _ _ (proj1 Hst) Hlast Hls). }
  unfold identity_public_key in Hk. congruence.
Qed.

Lemma sender_delay_total mean rng :
  is_u64 mean -> exists d rng', sender_hop_delay_micros (Delay.new mean) rng = (Some d, rng').
Proof.
  intros Hm. destruct (Delay.next_delay_total mean rng Hm) as (d & rng' & Hd & _).
  unfold sender_hop_delay_micros. rewrite Hd. simpl. eauto.
Qed.

Lemma hop_records_total mean hops rng :
  is_u64 mean -> exists res rng', hop_records (Delay.new mean) hops rng = (Some res, rng').
Proof.
  intros Hm. revert rng. induction hops as [|h hops IH]; intros rng; simpl; [eauto|].
  destruct (hop_record _); [|eauto]. destruct (sender_delay_total mean rng Hm) as (d & rng1 & ->).
  destruct (IH rng1) as ([|] & rng2 & ->); eauto.
Qed.

Lemma build_packet_total c hops payload rng :
  is_u64 (mean_hop_delay_micros c) -> hops <> [] -> (length payload <= MAX_PAYLOAD_SIZE)%nat ->
  exists res rng', build_packet c hops payload rng = (Some res, rng').
Proof.
  intros Hm Hne Hl. unfold build_packet. destruct (collect _) as [pks|]; [|eauto].
  destruct (derive_route_secrets rng pks) as [[[alphas subs]|] rng1]; [|eauto].
  destruct (hop_records_total (mean_hop_delay_micros c) hops rng1 Hm) as ([recs|] & rng2 & ->); [|eauto].
  destruct (fill_bytes TRAILER_LEN rng2) as [trailer rng3].
  destruct (wrap_header rng3 _ _ _ _ _) as [[h|] rng4]; [|eauto].
  rewrite (proj2 (Nat.ltb_ge _ _)) by done. destruct hops as [|entry hops]; [done|].
  destruct (parse_socket (relay_addr entry)); [|eauto]. destruct (kem_pubkey_bytes entry); eauto.
Qed.

Lemma ship_path_total c hops payload rng os_rng :
  is_u64 (mean_hop_delay_micros c) -> hops <> [] -> (length payload <= MAX_PAYLOAD_SIZE)%nat ->
  exists res rng', ship_path net c hops payload rng os_rng = (Some res, rng').
Proof.
  intros Hm Hne Hl. unfold ship_path.
  destruct (build_packet_total c hops payload rng Hm Hne Hl) as ([[[addr pk] pkt]|] & rng1 & ->); [|eauto].
  destruct (fresh_handshake_key os_rng). eauto.
Qed.

Lemma good_hop_count_spec n : good_hop_count n = true <-> (3 <= n <= 5)%nat.
Proof. unfold good_hop_count. rewrite andb_true_iff, !Nat.leb_le. lia. Qed.

Lemma send_to_exit_total c relays n exit payload rng os_rng :
  is_u64 (mean_hop_delay_micros c) ->
  exists res rng', send_to_exit net c relays n exit payload rng os_rng = (Some res, rng').
Proof.
  intros Hm. unfold send_to_exit. destruct (Nat.ltb_spec MAX_PAYLOAD_SIZE (length payload)); [eauto|].
  destruct (good_hop_count n) eqn:Hn; [|eauto]. simpl. apply good_hop_count_spec in Hn.
  destruct (pick_to_exit rng relays _ n exit) as [[hops|] rng1] eqn:Hp; [|eauto].
  apply pick_to_exit_length in Hp. apply ship_path_total; [done| |done].
  by destruct hops; simpl in *; [lia|].
Qed.

Lemma send_total c relays n payload rng os_rng :
  is_u64 (mean_hop_delay_micros c) ->
  exists res rng', send net c relays n payload rng os_rng = (Some res, rng').
Proof.
  intros Hm. unfold send. destruct (Nat.ltb_spec MAX_PAYLOAD_SIZE (length payload)); [eauto|].
  destruct (good_hop_count n) eqn:Hn; [|eauto]. simpl. apply good_hop_count_spec in Hn.
  destruct (pick rng relays _ n) as [[hops|] rng1] eqn:Hp; [|eauto].
  apply pick_length in Hp. apply ship_path_total; [done| |done].
  by destruct hops; simpl in *; [lia|].
Qed.

(** C39. [send] returns on every input, without a panic: a payload over the
    limit and a hop count outside 3..=5 are refused before anything is drawn
    or sent, and the slice copies and the delay draws of [ship_path] stay in
    range. *)
Theorem send_never_panics c relays n payload rng os_rng :
  is_u64 (mean_hop_delay_micros c) ->
  exists res rng', send net c relays n payload rng os_rng = (Some res, rng') /\
    ((MAX_PAYLOAD_SIZE < length payload)%nat -> res = Err PayloadTooLarge /\ rng' = rng) /\
    ((length payload <= MAX_PAYLOAD_SIZE)%nat -> ~ (3 <= n <= 5)%nat ->
       res = Err BadHopCount /\ rng' = rng).
Proof.
  intros Hm. destruct (send_total c relays n payload rng os_rng Hm) as (res & rng' & Heq).
  exists res, rng'. split; [done|]. revert Heq. unfold send.
  destruct (Nat.ltb_spec MAX_PAYLOAD_SIZE (length payload)) as [|Hl].
  { intros [= <- <-]. split; [done|lia]. }
  destruct (good_hop_count n) eqn:Hn; simpl.
  - apply good_hop_count_spec in Hn. split; lia.
  - intros [= <- <-]. split; [lia|done].
Qed.
End client_properties.

(** ** Concrete runs *)
Module ToyDirectory.
Record descriptor : Type := mkDescriptor { d_sk : Z; d_rendezvous : bool }.

(** The first relays listed, the guards ignored. *)
Definition directory : Directory Z := {|
  DirectoryError := unit;
  RelayDescriptor := descriptor;
  kem_pubkey_bytes := fun d => Ok (public_key (Gotham := Toy.gotham) (Toy.sk (d_sk d)));
  has_rendezvous := d_rendezvous;
  ipv4_octets := fun d => Ok [x0a; x00; x00; byte_of_Z (d_sk d)];
  relay_port := fun d => Ok 9001;
  relay_addr := fun d => lit "10.0.0.1:9001";
  pick := fun rng relays _ n =>
    (if (n <=? length relays)%nat then Ok (take n relays) else Err tt, rng);
  pick_to_exit := fun rng relays _ n exit =>
    (if ((0 <? n) && (n <=? length relays))%nat then Ok (take (n - 1) relays ++ [exit]) else Err tt, rng);
|}.

(** A sealed envelope in clear: the recipient, the sender and the body. *)
Definition sealed : @Sealed Z Toy.gotham :=
  @Build_Sealed Z Toy.gotham
    (fun rng pk sender body =>
       (if bool_decide (length pk = 32%nat) && bool_decide (length sender = 32%nat)
        then Ok (pk ++ sender ++ body) else Err Toy.EFormat, rng))
    (fun sk env =>
       if decide (take 32 env = public_key (Gotham := Toy.gotham) sk)
       then Ok (take 32 (drop 32 env), drop 64 env) else Err Toy.EMac).
End ToyDirectory.

Lemma toy_directory_laws : @DirectoryLaws Z ToyDirectory.directory.
Proof.
  split; simpl; intros rng relays guards n.
  - intros path rng'. destruct (Nat.leb_spec n (length relays)); [|done]. intros [= <- <-].
    rewrite length_take. lia.
  - intros exit path rng'. destruct (Nat.ltb_spec 0 n), (Nat.leb_spec n (length relays)); try done.
    intros [= <- <-]. rewrite length_app, length_take. simpl. lia.
  - intros exit path rng'. destruct (_ && _); [|done]. intros [= <- <-]. by rewrite last_snoc.
Qed.

Lemma toy_sealed_laws : @SealedLaws Z Toy.gotham ToyDirectory.sealed.
Proof.
  split. cbn [seal unseal ToyDirectory.sealed]. intros rng sk sender body env rng'.
  destruct (decide (length (public_key (Gotham := Toy.gotham) sk) = 32%nat)) as [Hp|Hp];
    [|by rewrite bool_decide_eq_false_2].
  destruct (decide (length sender = 32%nat)) as [Hs|Hs];
    [|by rewrite (bool_decide_eq_false_2 _ Hs), andb_false_r].
  rewrite !bool_decide_eq_true_2 by done. intros [= <- _].
  rewrite decide_True by by rewrite take_app_length'.
  change 64%nat with (32 + 32)%nat. rewrite <- drop_drop, !drop_app_length' by done.
  by rewrite take_app_length'.
Qed.

Module ClientDemo.
#[local] Existing Instances Toy.gotham toy_laws counter_rng counter_rng_laws Delay.coarse_libm
  Delay.coarse_libm_laws Toy.route toy_route_laws ToyDirectory.directory toy_directory_laws
  ToyDirectory.sealed toy_sealed_laws.

Definition relays : list RelayDescriptor :=
  [ToyDirectory.mkDescriptor 1 false; ToyDirectory.mkDescriptor 2 true;
   ToyDirectory.mkDescriptor 3 false; ToyDirectory.mkDescriptor 4 false].

Definition exit_relay : RelayDescriptor := ToyDirectory.mkDescriptor 5 false.

Definition open_net (_ : RateLimit.IpAddr * Z) (_ _ _ : list byte) : result TransportError unit := Ok tt.

Definition relay_at (n : Z) : stop Z :=
  mkStop (Process.new (Toy.sk n) 100 (from_secs 60) 500000 0 0) 0 0 0.

Lemma send_reaches_exit_witness :
  exists hops rng1 ds pkt, pick 0 relays [] 3 = (Ok hops, rng1) /\ length hops = 3%nat /\
    (length [x2a; x2b] <= MAX_PAYLOAD_SIZE)%nat /\ path_delays default_client hops rng1 ds /\
    shipped (R := Z) open_net 0 hops ds [x2a; x2b] pkt.
Proof.
  apply (send_reaches_exit open_net default_client relays 3 [x2a; x2b] 0 0
           (send open_net default_client relays 3 [x2a; x2b] 0 0).2).
  vm_compute. reflexivity.
Defined.

Lemma sealed_message_read_at_exit_witness :
  exists framed rng1 hops rng2 ds pkt,
    frame_sealed_for_exit exit_relay (Toy.sk 9) [x2a] 0 = (Ok framed, rng1) /\
    pick_to_exit rng1 relays [] 4 exit_relay = (Ok hops, rng2) /\
    length hops = 4%nat /\ last hops = Some exit_relay /\ path_delays default_client hops rng2 ds /\
    shipped (R := Z) open_net 0 hops ds framed pkt /\ forall stops st,
    stops_of (R := Z) hops stops -> last stops = Some st -> undisturbed (travel stops pkt) ->
    exists d payload, last (travel stops pkt) = Some (Some (DeliverLocal d payload)) /\
      unsealing_delivery_handler (identity_sk (st_relay st)) payload = Some (Toy.sk 9, [x2a]).
Proof.
  apply (sealed_message_read_at_exit open_net default_client relays 4 exit_relay (Toy.sk 9) [x2a] 0 0
           (send_sealed_to_exit open_net default_client relays 4 exit_relay (Toy.sk 9) [x2a] 0 0).2).
  vm_compute. reflexivity.
Defined.

Lemma send_never_panics_witness :
  exists res rng', send open_net default_client relays 6 [x2a] 0 0 = (Some res, rng') /\
    ((MAX_PAYLOAD_SIZE < length [x2a])%nat -> res = Err PayloadTooLarge /\ rng' = 0) /\
    ((length [x2a] <= MAX_PAYLOAD_SIZE)%nat -> ~ (3 <= 6 <= 5)%nat ->
       res = Err BadHopCount /\ rng' = 0).
Proof. apply (send_never_panics open_net default_client relays 6 [x2a] 0 0). by vm_compute. Defined.

(** A sealed message through four fresh relays: three forward, the last one
    delivers, and its key opens the envelope. *)
Definition demo_packet : list byte :=
  match seal_and_frame (public_key (Toy.sk 4)) (Toy.sk 9) [x2a] 0 with
  | (Ok framed, rng) =>
      match build_packet default_client relays framed rng with
      | (Some (Ok (_, _, pkt)), _) => pkt
      | _ => []
      end
  | _ => []
  end.

Example demo_journey :
  map (fun o => match o with
    | Some (Forward _ id _ via _) => Some (inl (id, via))
    | Some (DeliverLocal _ payload) => inr <$> unsealing_delivery_handler (Toy.sk 4) payload
    | _ => None
    end) (travel (map relay_at [1; 2; 3; 4]) demo_packet) =
  [Some (inl (public_key (Toy.sk 2), true)); Some (inl (public_key (Toy.sk 3), false));
   Some (inl (public_key (Toy.sk 4), false)); Some (inr (Toy.sk 9, [x2a]))].
Proof. vm_compute. reflexivity. Qed.

(** Four such relays are the stops of the path, and nothing disturbs the packet. *)
Example demo_stops :
  stops_of relays (map relay_at [1; 2; 3; 4]) /\ undisturbed (travel (map relay_at [1; 2; 3; 4]) demo_packet).
Proof.
  split.
  - split; [by repeat constructor|]. by vm_compute.
  - vm_compute. repeat constructor; done.
Qed.

(** The same packet a second time stops at the first relay. *)
Example demo_replayed :
  let st := relay_at 1 in
  let r' := relay_after (process (st_relay st) 0 0 0 demo_packet) in
  travel (mkStop r' 1 1 0 :: map relay_at [2; 3; 4]) demo_packet = [Some (Drop Replay)].
Proof. vm_compute. reflexivity. Qed.
End ClientDemo.
