(* ===== verification/Timing.v ===== *)
(** * How long a packet waits on its way ([client.rs], [process.rs], [delay.rs])

    The client draws a delay per hop and writes it, in whole microseconds, into
    the hop's record; the relay keeps the packet for that time, at most 30
    seconds.  The file composes the three: the waiting times of a packet along its
    path are the exponential ones of [DelayLaw]. *)

From Stdlib Require Import Reals Lra.
From S2P Require Import Prelude F64 F64Error Rand Delay Logarithm DelayLaw Gotham Process Wire Services Client.
From S2P Require RateLimit.

(** How long a packet is kept. *)
Definition waits (o : option ProcessOutcome) : option Z :=
  match o with
  | Some (Forward _ _ d _ _) | Some (DeliverLocal d _) => Some d
  | _ => None
  end.

(** Cutting to microseconds, at least one and at most [u32::MAX] of them. *)
Lemma held_close d :
  0 <= d -> Z.abs (held (Z.max (Z.min (d / 1000) u32_max) 1) - Z.min d MAX_HOP_DELAY) <= 1000.
Proof.
  intros Hd. pose proof (Z.div_mod d 1000 ltac:(done)). pose proof (Z.mod_pos_bound d 1000 ltac:(done)).
  unfold held, from_micros, MAX_HOP_DELAY, from_secs, NANOS_PER_SEC, u32_max. lia.
Qed.

(** Cutting off at [c] keeps a relative error. *)
Lemma cut_near (d t c s : R) :
  (0 <= s < 1)%R -> (0 <= t)%R -> (0 <= c)%R -> (t * (1 - s) - 1 / 2 <= d <= t * (1 + s) + 1 / 2)%R ->
  (Rabs (Rmin d c - Rmin t c) <= s * Rmin t c + 1 / 2)%R.
Proof.
  intros Hs Ht Hc Hd. unfold Rmin. destruct (Rle_dec d c), (Rle_dec t c); apply Rabs_le; nra.
Qed.

Lemma IZR_min a b : IZR (Z.min a b) = Rmin (IZR a) (IZR b).
Proof.
  destruct (Z.min_spec a b) as [[Hab ->]|[Hab ->]].
  - rewrite Rmin_left; [done|]. apply IZR_le. lia.
  - rewrite Rmin_right; [done|]. by apply IZR_le.
Qed.

(** The reference: the exponential delay of the draw [u], cut at 30 seconds. *)
Definition hop_wait (mean : Z) (u : f64) : R := Rmin (exponential mean u) (IZR MAX_HOP_DELAY).

(** Up to the error of the draw and a microsecond. *)
Definition close_to_wait (delta : R) (mean : Z) (u : f64) (d : Z) : Prop :=
  (Rabs (IZR d - hop_wait mean u) <= slack delta * hop_wait mean u + 1001)%R.

Section timing.
Context {G : Type} `{!Rng G, !RngLaws G, !Libm} (delta : R) `{!LnLaws delta}.

(** Successive draws. *)
Fixpoint uniforms (n : nat) (rng : G) : list f64 :=
  match n with
  | O => []
  | S n => uniform rng :: uniforms n (snd (gen_f64 rng))
  end.

(** The generator yields numbers of the type [f64]. *)
Definition draws_f64 : Prop := forall rng : G, valid_binary 53 1024 (fst (gen_f64 rng)) = true.

Lemma sender_delay_near mean (rng : G) :
  is_mean mean -> draws_f64 ->
  exists m, sender_hop_delay_micros (Delay.new mean) rng = (Some m, snd (gen_f64 rng)) /\
    close_to_wait delta mean (uniform rng) (held m).
Proof.
  intros Hm Hv. destruct (next_delay_near delta mean rng Hm (Hv rng)) as (d & Hd & Hnear).
  destruct (uniform_range rng (Hv rng)) as [Hn Hu]. unfold sender_hop_delay_micros. rewrite Hd. simpl.
  eexists. split; [done|].
  assert (0 <= exponential mean (uniform rng))%R as HT.
  { unfold exponential. destruct (ln_size _ Hn Hu) as [Hl _].
    apply Rmult_le_pos; [apply IZR_le; unfold from_micros, is_mean in *; lia|].
    assert (0 < / 2 ^ 53)%R by (apply Rinv_0_lt_compat, pow_lt; lra). apply Rmin_glb; lra. }
  pose proof (slack_range delta) as Hs.
  assert (0 <= IZR MAX_HOP_DELAY)%R as Hc by (by apply IZR_le).
  assert (0 <= d) as Hd0.
  { assert (-1 < d); [|lia]. apply lt_IZR.
    assert (0 <= exponential mean (uniform rng) * (1 - slack delta))%R by (apply Rmult_le_pos; lra). lra. }
  pose proof (cut_near _ _ _ _ Hs HT Hc Hnear) as Hcut. fold (hop_wait mean (uniform rng)) in Hcut.
  pose proof (held_close d Hd0) as Hh. apply IZR_le in Hh. rewrite abs_IZR, minus_IZR, IZR_min in Hh.
  unfold close_to_wait. revert Hcut Hh. split_Rabs; lra.
Qed.
End timing.

Section journey_times.
Context `{!Gotham, !GothamLaws} {G : Type}
  `{!Rng G, !RngLaws G, !Route G, !RouteLaws G, !Libm, !Directory G, !DirectoryLaws G}
  (delta : R) `{!LnLaws delta}.
Context (net : RateLimit.IpAddr * Z -> list byte -> list byte -> list byte -> result TransportError unit).

(** The delays of a path come from successive draws. *)
Lemma drawn_near mean (rng : G) ds :
  is_mean mean -> draws_f64 -> drawn (Delay.new mean) rng ds ->
  Forall2 (fun u d => close_to_wait delta mean u (held d)) (uniforms (length ds) rng) ds.
Proof.
  intros Hm Hv. revert rng. induction ds as [|d ds IH]; intros rng; simpl; [done|].
  destruct (sender_delay_near delta mean rng Hm Hv) as (m & Hs & Hc). rewrite Hs. simpl.
  intros [[= <-] Hdr]. constructor; [done|]. by apply IH.
Qed.

(** The relays of a path wait as long as they are told. *)
Lemma follows_waits payload ds hops outs :
  follows payload ds hops outs -> Forall2 (fun d o => waits o = Some (held d)) ds outs.
Proof. by induction 1; repeat constructor. Qed.

Lemma Forall2_compose {A B C} (P : A -> B -> Prop) (Q : B -> C -> Prop) xs ys zs :
  Forall2 P xs ys -> Forall2 Q ys zs -> Forall2 (fun x z => exists y, P x y /\ Q y z) xs zs.
Proof.
  intros Hp. revert zs. induction Hp as [|x y xs ys Hxy Hp IH]; intros zs Hq; inversion Hq; subst; constructor; eauto.
Qed.

(** C15. The waiting times of a packet are exponentially distributed: when [send]
    succeeds, the relays of the path it chose keep the packet it gave the
    network for the first of them, one after another, for the exponential times of as many successive draws of the client's
    generator, cut at 30 seconds, up to the accuracy of the logarithm and a
    microsecond. *)
Theorem sent_packet_waits_exponentially c relays n payload (rng os_rng rng' : G) :
  is_mean (mean_hop_delay_micros c) -> draws_f64 ->
  send net c relays n payload rng os_rng = (Some (Ok tt), rng') ->
  exists hops rng1 pks pkt, pick rng relays (entry_guards c) n = (Ok hops, rng1) /\ length hops = n /\
    Forall2 (fun hop pk => kem_pubkey_bytes hop = Ok pk) hops pks /\ handed_over net os_rng hops pkt /\
    forall stops, stops_of hops stops -> undisturbed (travel stops pkt) ->
      Forall2 (fun u o => exists d, waits o = Some d /\ close_to_wait delta (mean_hop_delay_micros c) u d)
        (uniforms n (derive_route_secrets rng1 pks).2) (travel stops pkt).
Proof.
  intros Hm Hv (hops & rng1 & ds & pkt & Hp & Hn & _ & (Hl & pks & Hpks & Hdr) & Hnet & _ & Hf)%send_shipped.
  exists hops, rng1, pks, pkt. do 4 (split; [done|]). intros stops Hst Hun.
  pose proof (drawn_near _ _ _ Hm Hv Hdr) as Hd. rewrite Hl, Hn in Hd.
  pose proof (follows_waits _ _ _ _ (Hf stops Hst Hun)) as Hw.
  eapply Forall2_impl; [exact (Forall2_compose _ _ _ _ _ Hd Hw)|]. intros u o (d & Hc & Ho). eauto.
Qed.
End journey_times.

(** ** A concrete run *)
Module TimingDemo.
#[local] Existing Instances Toy.gotham toy_laws counter_rng counter_rng_laws series_libm
  Toy.route toy_route_laws ToyDirectory.directory toy_directory_laws.

Lemma counter_draws_f64 : @draws_f64 Z counter_rng.
Proof.
  intros r. simpl. pose proof (Z.mod_pos_bound r 7 ltac:(done)).
  assert (r mod 7 ∈ [0; 1; 2; 3; 4; 5; 6]) as Hc by (rewrite !elem_of_cons; lia).
  revert Hc. generalize (r mod 7). apply Forall_forall. repeat constructor.
Qed.

(** The packet of a [send] over three relays.  The first draw is zero: its wait is
    cut at 30 seconds. *)
Definition sent : list byte :=
  match build_packet default_client (take 3 ClientDemo.relays) [x2a] 0 with
  | (Some (Ok (_, _, pkt)), _) => pkt
  | _ => []
  end.

Example waits_of_sent :
  map waits (travel (map ClientDemo.relay_at [1; 2; 3]) sent) =
    [Some 30000000000; Some 972794000; Some 626292000].
Proof. vm_compute. reflexivity. Qed.

Lemma sent_packet_waits_exponentially_witness :
  exists hops rng1 pks pkt, pick 0 ClientDemo.relays [] 3 = (Ok hops, rng1) /\ length hops = 3%nat /\
    Forall2 (fun hop pk => kem_pubkey_bytes hop = Ok pk) hops pks /\
    handed_over (R := Z) ClientDemo.open_net 0 hops pkt /\
    forall stops, stops_of (R := Z) hops stops -> undisturbed (travel stops pkt) ->
      Forall2 (fun u o => exists d, waits o = Some d /\ close_to_wait (1 / 600) SENDER_MEAN_DELAY_MICROS u d)
        (uniforms 3 (derive_route_secrets rng1 pks).2) (travel stops pkt).
Proof.
  apply (@sent_packet_waits_exponentially _ _ Z _ _ _ _ _ _ _ (1 / 600)%R series_libm_accurate
    ClientDemo.open_net default_client ClientDemo.relays 3 [x2a] 0 0
    (send ClientDemo.open_net default_client ClientDemo.relays 3 [x2a] 0 0).2).
  - by split.
  - apply counter_draws_f64.
  - vm_compute. reflexivity.
Defined.
End TimingDemo.
