(* ===== verification/Messages.v ===== *)
(** * Texts of errors ([transport.rs] and [client.rs], the [#[error]] attributes)

    What an operator reads when something fails.  Errors of other crates end in
    their own texts, which are an interface; the texts of [std::io] errors and
    the [Debug] form of a [Duration] belong to the standard library. *)

From stdpp Require Import pretty.
From S2P Require Import Prelude Text Fs F64 Rand Gotham Wire Client.

(** ** [impl Debug for Duration]

    The integer part in the largest unit that is not zero, and as many decimals
    as are needed. *)
Definition MILLI : Z := 1000000.
Definition MICRO : Z := 1000.

Definition integer (z : Z) : str := lit (pretty z).

(** The loop of [fmt_decimal]; nine turns are its own limit. *)
Fixpoint decimals (turns : nat) (fractional divisor : Z) : str :=
  match turns with
  | O => []
  | S turns =>
      if fractional =? 0 then []
      else byte_of_Z (48 + fractional / divisor) :: decimals turns (fractional mod divisor) (divisor / 10)
  end.

Definition fmt_decimal (integral fractional divisor : Z) (unit : string) : str :=
  integer integral ++ (match decimals 9 fractional divisor with [] => [] | ds => x2e :: ds end) ++ lit unit.

Definition duration_debug (d : Z) : str :=
  let secs := d / NANOS_PER_SEC in
  let nanos := d mod NANOS_PER_SEC in
  if 0 <? secs then fmt_decimal secs nanos (NANOS_PER_SEC / 10) "s"
  else if MILLI <=? nanos then fmt_decimal (nanos / MILLI) (nanos mod MILLI) (MILLI / 10) "ms"
  else if MICRO <=? nanos then fmt_decimal (nanos / MICRO) (nanos mod MICRO) (MICRO / 10) "µs"
  else fmt_decimal nanos 0 1 "ns".

(** ** The texts *)
Class ForeignTexts := {
  connect_text : str;
  connection_text : str;
  write_text : str;
  read_text : str;
  rustls_text : str;
  rcgen_text : str;
  noise_text : str;
}.

Section texts.
Context `{!ForeignTexts}.

Definition transport_text (e : TransportError) : str :=
  match e with
  | Io e => lit "io: " ++ lit (msg e)
  | Connect => lit "quic connect: " ++ connect_text
  | Connection => lit "quic connection: " ++ connection_text
  | Write => lit "quic write: " ++ write_text
  | Read => lit "quic read: " ++ read_text
  | Rustls => lit "rustls: " ++ rustls_text
  | Rcgen => lit "rcgen: " ++ rcgen_text
  | Noise => lit "noise: " ++ noise_text
  | BadHandshake => lit "malformed handshake message"
  | Unreachable timeout =>
      lit "no response within " ++ duration_debug timeout ++
      lit " — nothing is reachable at that address. Check that the UDP port is open in your provider's firewall (cloud security list / security group), not only on the host itself."
  end.

Context `{!Gotham}.

Definition client_text (e : ClientError) : str :=
  match e with
  | PayloadTooLarge => lit "payload exceeds " ++ integer (Z.of_nat MAX_PAYLOAD_SIZE) ++ lit " bytes"
  | BadHopCount => lit "hop_count must be in 3..=5"
  | PathSelection => lit "path selection failed (insufficient diversity in directory)"
  | BadDirectory what => lit "directory: " ++ lit what
  | Crypto => lit "crypto operation failed"
  | Transport e => lit "transport: " ++ transport_text e
  end.
End texts.

Example durations :
  map duration_debug [0; 15; 2500; 300 * MILLI; 5 * NANOS_PER_SEC; 3 * NANOS_PER_SEC + 40 * MILLI] =
  map lit ["0ns"; "15ns"; "2.5µs"; "300ms"; "5s"; "3.04s"]%string.
Proof. vm_compute. reflexivity. Qed.
