(* ===== verification/Cover.v ===== *)
(** * Cover traffic ([cover_loop.rs])

    A task sends one packet per interval: the oldest queued message or a
    decoy.  Other tasks push to the queue at any time, and the loop takes the
    queue's lock twice in a round, once to look and once to pop; so it is
    modelled as a machine whose steps interleave with pushes.  The scheduler
    belongs to [crypto_gotham::cover]. *)

From S2P Require Import Prelude F64 Rand Gotham Wire Services Process Client.
From S2P Require Delay RateLimit.

(** [crypto_gotham::cover]. *)
Inductive CoverIntent : Type := Real | Drop | Loop.

Class Cover (R : Type) := {
  CoverMode : Type;
  battery_adjusted : CoverMode -> Z -> bool -> CoverMode;
  next_interval : CoverMode -> R -> Z * R;
  next_intent : CoverMode -> R -> bool -> CoverIntent * R;
}.

Definition DUMMY_PAYLOAD_SIZE : nat := 32.
Definition COVER_BODY_MIN : Z := 64.
Definition COVER_BODY_MAX : Z := 1024.

Section cover.
Context `{!Gotham} {R : Type} `{!Rng R, !Route R, !Delay.Libm, !Directory R, !Sealed R, !Cover R}.

(** The public key of a random X25519 secret. *)
Definition random_public_key (rng : R) : list byte * R :=
  let '(sk, rng) := fill_bytes 32 rng in (public_key sk, rng).

Definition build_cover_payload (rng : R) : list byte * R :=
  let '(recipient, rng) := random_public_key rng in
  let '(sender, rng) := random_public_key rng in
  let '(pick, rng) := fill_bytes 2 rng in
  let span := COVER_BODY_MAX - COVER_BODY_MIN in
  let len := COVER_BODY_MIN + from_be_bytes pick mod span in
  let '(body, rng) := fill_bytes (Z.to_nat len) rng in
  match seal_and_frame recipient sender body rng with
  | (Ok framed, rng) => (framed, rng)
  | (Err _, rng) => fill_bytes DUMMY_PAYLOAD_SIZE rng
  end.

(** [done] is the number of the one-shot channel the sender waits on. *)
Record QueuedPacket : Type := mkQueued {
  q_payload : list byte;
  q_hops : option nat;
  q_exit : option RelayDescriptor;
  q_done : option nat;
}.

Definition QueuedMessage : Type := list byte * option nat * option nat.

Definition from_message (m : QueuedMessage) : QueuedPacket :=
  let '(payload, hops, done) := m in mkQueued payload hops None done.

(** What the waiting sender is told: the error with its prefix. *)
Inductive send_error : Type := SendError (prefix : string) (e : ClientError).

Context (net : RateLimit.IpAddr * Z -> list byte -> list byte -> list byte ->
  result TransportError unit).
Context (client : GothamClient) (relays : list RelayDescriptor) (base_mode : CoverMode)
  (default_hop_count : nat).

(** [None] is a panic, which ends the task. *)
Definition send_queued (p : QueuedPacket) (rng os_rng : R) : option (result send_error unit) :=
  let n := default default_hop_count (q_hops p) in
  match q_exit p with
  | Some e => map_err (SendError "cover loop deposit send")
                <$> (send_to_exit net client relays n e (q_payload p) rng os_rng).1
  | None => map_err (SendError "cover loop real send")
                <$> (send net client relays n (q_payload p) rng os_rng).1
  end.

Definition send_dummy (rng os_rng : R) : option (list byte * result ClientError unit) :=
  let '(dummy, rng) := build_cover_payload rng in
  pair dummy <$> (send net client relays default_hop_count dummy rng os_rng).1.

(** The handle: stopping it or dropping it sends the one signal it holds. *)
Record CoverLoopHandle : Type := mkHandle { cancel : bool }.

Definition take_cancel (h : CoverLoopHandle) : nat * CoverLoopHandle :=
  (if cancel h then 1%nat else 0%nat, mkHandle false).

Definition drop_handle (h : CoverLoopHandle) : nat := (take_cancel h).1.

(** [stop] consumes the handle, so [drop] runs after it. *)
Definition stop (h : CoverLoopHandle) : nat :=
  let '(n, h) := take_cancel h in (n + drop_handle h)%nat.

(** Where the task is in its loop. *)
Inductive phase : Type :=
| Top
| Sleeping (mode : CoverMode) (delay : Z)
| Awake (mode : CoverMode)
| Acting (has_real : bool) (intent : CoverIntent)
| Exited
| Panicked.

(** What a round did; [Nothing] when there was no packet to pop. *)
Inductive action : Type :=
| SentReal (p : QueuedPacket) (r : result send_error unit)
| SentDummy (payload : list byte) (r : result ClientError unit)
| Nothing.

Record state : Type := mkState {
  queue : list QueuedPacket;
  at_phase : phase;
  log : list action;
  replies : list (nat * result send_error unit);
  handle : option CoverLoopHandle;
  signal : bool;
}.

(** The task starts at the top of its loop, and the caller holds its handle;
    [q] is what the shared queue holds by then. *)
Definition spawn_cover_loop (q : list QueuedPacket) : state :=
  mkState q Top [] [] (Some (mkHandle true)) false.

(** The steps of the task, with what they read of the environment, the pushes
    of other tasks and the end of the handle.  [Cancel] is the branch of the
    [select!] that receives the handle's signal. *)
Inductive event : Type :=
| Push (p : QueuedPacket)
| Stop
| DropHandle
| Battery (pct : Z) (charging : bool) (rng : R)
| Elapsed
| Cancel
| Inspect (rng : R)
| Act (rng os_rng : R).

Definition update (st : state) (q : list QueuedPacket) (p : phase) (l : list action)
    (rs : list (nat * result send_error unit)) : state :=
  mkState q p l rs (handle st) (signal st).

Definition goto (st : state) (p : phase) : state := update st (queue st) p (log st) (replies st).

Definition release (st : state) (signals : nat) : state :=
  mkState (queue st) (at_phase st) (log st) (replies st) None (signal st || (0 <? signals)%nat).

(** The body of the [match] on the intent. *)
Definition act (intent : CoverIntent) (rng os_rng : R) (st : state) : state :=
  match intent with
  | Real =>
      match queue st with
      | [] => update st [] Top (log st ++ [Nothing]) (replies st)
      | p :: q =>
          match send_queued p rng os_rng with
          | None => update st q Panicked (log st) (replies st)
          | Some r =>
              update st q Top (log st ++ [SentReal p r])
                (replies st ++ match q_done p with Some ch => [(ch, r)] | None => [] end)
          end
      end
  | Drop | Loop =>
      match send_dummy rng os_rng with
      | None => goto st Panicked
      | Some (dummy, r) => update st (queue st) Top (log st ++ [SentDummy dummy r]) (replies st)
      end
  end.

Definition step (st : state) (ev : event) : option state :=
  match ev, at_phase st with
  | Push p, _ => Some (update st (queue st ++ [p]) (at_phase st) (log st) (replies st))
  | Stop, _ => (fun h => release st (stop h)) <$> handle st
  | DropHandle, _ => (fun h => release st (drop_handle h)) <$> handle st
  | Battery pct charging rng, Top =>
      let mode := battery_adjusted base_mode pct charging in
      Some (goto st (Sleeping mode (next_interval mode rng).1))
  | Elapsed, Sleeping mode _ => Some (goto st (Awake mode))
  | Cancel, Sleeping _ _ => if signal st then Some (goto st Exited) else None
  | Inspect rng, Awake mode =>
      let has_real := negb (bool_decide (queue st = [])) in
      Some (goto st (Acting has_real (next_intent mode rng has_real).1))
  | Act rng os_rng, Acting _ intent => Some (act intent rng os_rng st)
  | _, _ => None
  end.

Fixpoint run (st : state) (evs : list event) : option state :=
  match evs with
  | [] => Some st
  | ev :: evs => st' ← step st ev; run st' evs
  end.
End cover.

(** ** Theorems *)
Section cover_properties.
Context `{!Gotham, !GothamLaws} {R : Type}
  `{!Rng R, !RngLaws R, !Route R, !RouteLaws R, !Delay.Libm, !Delay.LibmLaws, !Directory R,
    !DirectoryLaws R, !Sealed R, !Cover R}.
Context (net : RateLimit.IpAddr * Z -> list byte -> list byte -> list byte ->
  result TransportError unit).
Context (client : GothamClient) (relays : list RelayDescriptor) (base_mode : CoverMode)
  (default_hop_count : nat).

#[local] Abbreviation step := (step net client relays base_mode default_hop_count).
#[local] Abbreviation run := (run net client relays base_mode default_hop_count).

Definition pushed (evs : list event) : list QueuedPacket :=
  omap (fun ev => match ev with Push p => Some p | _ => None end) evs.

Definition acts (evs : list event) : nat :=
  length (omap (fun ev => match ev with Act _ _ => Some tt | _ => None end) evs).

(** How often the handle was stopped or dropped. *)
Definition releases (evs : list event) : nat :=
  length (omap (fun ev => match ev with Stop | DropHandle => Some tt | _ => None end) evs).

(** The queued packets that were sent, in order, and what their senders hear. *)
Definition reals (l : list action) : list QueuedPacket :=
  omap (fun a => match a with SentReal p _ => Some p | _ => None end) l.

Definition reply_of (a : action) : option (nat * result send_error unit) :=
  match a with SentReal p r => (fun ch => (ch, r)) <$> q_done p | _ => None end.

(** A packet seen by [Inspect] is still there when the round acts on it. *)
Definition phase_ok (st : state) : Prop :=
  match at_phase st with
  | Panicked => False
  | Exited => signal st = true
  | Acting true Real => queue st <> []
  | Acting false intent => exists mode rng, intent = (next_intent mode rng false).1
  | _ => True
  end.

(** The generators of the rounds that acted, in order. *)
Definition rounds (evs : list event) : list (R * R) :=
  omap (fun ev => match ev with Act rng os_rng => Some (rng, os_rng) | _ => None end) evs.

(** The two secrets and the body a round draws for its decoy. *)
Definition decoy_draws (rng : R) (recipient sender body : list byte) (rng' : R) : Prop :=
  exists rng1 rng2 pick rng3, fill_bytes 32 rng = (recipient, rng1) /\
    fill_bytes 32 rng1 = (sender, rng2) /\ fill_bytes 2 rng2 = (pick, rng3) /\
    fill_bytes (length body) rng3 = (body, rng').

(** The decoy of a round is what a message is: the envelope sealed for the keys and
    the body of 64 to 1023 bytes that were drawn, behind its length.  Only when that
    body could not be sealed, or its envelope does not fit a packet, is it the 32
    random bytes of the fallback. *)
Definition cover_payload (rng : R) (payload : list byte) : Prop :=
  exists recipient sender body rng1, decoy_draws rng recipient sender body rng1 /\ 64 <= zlen body < 1024 /\
    match seal rng1 (public_key recipient) (public_key sender) body with
    | (Ok env, rng2) =>
        if (MAX_PAYLOAD_SIZE <? 4 + length env)%nat then payload = (fill_bytes 32 rng2).1
        else payload = to_be_bytes 4 (zlen env) ++ env /\ unframe (padded payload) = Some env
    | (Err _, rng2) => payload = (fill_bytes 32 rng2).1
    end.

(** What a round with these generators may do. *)
Definition action_ok (g : R * R) (a : action) : Prop :=
  match a with
  | SentReal p r => send_queued net client relays default_hop_count p g.1 g.2 = Some r
  | SentDummy payload r => cover_payload g.1 payload /\
      exists rng, (send net client relays default_hop_count payload rng g.2).1 = Some r
  | Nothing => exists mode rng, (next_intent mode rng false).1 = Real
  end.

(** The handle's signal is sent when the handle goes, and not before. *)
Definition handle_ok (n : nat) (st : state) : Prop :=
  match handle st with
  | Some h => cancel h = true /\ signal st = false /\ n = 0%nat
  | None => signal st = true /\ n = 1%nat
  end.

Record ok (q0 : list QueuedPacket) (evs : list event) (st : state) : Prop := mkOk {
  ok_phase : phase_ok st;
  ok_fifo : reals (log st) ++ queue st = q0 ++ pushed evs;
  ok_count : length (log st) = acts evs;
  ok_replies : replies st = omap reply_of (log st);
  ok_log : Forall2 action_ok (rounds evs) (log st);
  ok_handle : handle_ok (releases evs) st;
}.

Lemma build_cover_payload_ok (rng : R) : cover_payload rng (build_cover_payload rng).1.
Proof.
  unfold build_cover_payload, random_public_key.
  destruct (fill_bytes 32 rng) as [rk rng1] eqn:Hf1. destruct (fill_bytes 32 rng1) as [sk rng2] eqn:Hf2.
  destruct (fill_bytes 2 rng2) as [pick rng3] eqn:Hf3.
  set (len := COVER_BODY_MIN + _). pose proof (fill_bytes_length (Z.to_nat len) rng3) as Hb.
  destruct (fill_bytes (Z.to_nat len) rng3) as [body rng4] eqn:Hf4. simpl in Hb.
  exists rk, sk, body, rng4. split; [exists rng1, rng2, pick, rng3; by rewrite Hb|]. split.
  { unfold zlen. rewrite Hb. unfold len, COVER_BODY_MIN, COVER_BODY_MAX.
    pose proof (Z.mod_pos_bound (from_be_bytes pick) (1024 - 64) ltac:(lia)). lia. }
  unfold seal_and_frame. destruct (seal rng4 _ _ body) as [[env|e] rng5]; [|done].
  pose proof (unframe_padded env) as Hun. unfold frame in *. rewrite length_app, length_to_be_bytes in *.
  destruct (_ <? _)%nat; [done|]. split; [done|]. by apply Hun.
Qed.

Lemma send_queued_total p rng os_rng :
  is_u64 (mean_hop_delay_micros client) ->
  exists r, send_queued net client relays default_hop_count p rng os_rng = Some r.
Proof.
  intros Hm. unfold send_queued. destruct (q_exit p) as [e|].
  - destruct (send_to_exit_total net client relays (default default_hop_count (q_hops p)) e
      (q_payload p) rng os_rng Hm) as (res & rng' & ->). simpl. eauto.
  - destruct (send_total net client relays (default default_hop_count (q_hops p))
      (q_payload p) rng os_rng Hm) as (res & rng' & ->). simpl. eauto.
Qed.

Lemma send_dummy_total rng os_rng :
  is_u64 (mean_hop_delay_micros client) ->
  exists dummy r, send_dummy net client relays default_hop_count rng os_rng = Some (dummy, r) /\
    action_ok (rng, os_rng) (SentDummy dummy r).
Proof.
  intros Hm. unfold send_dummy. pose proof (build_cover_payload_ok rng) as Hok.
  destruct (build_cover_payload rng) as [dummy rng1].
  destruct (send_total net client relays default_hop_count dummy rng1 os_rng Hm) as (res & rng' & Hs).
  rewrite Hs. simpl. exists dummy, res. split; [done|]. split; [done|]. exists rng1. by rewrite Hs.
Qed.

Lemma act_ok q0 evs st has intent rng os_rng :
  is_u64 (mean_hop_delay_micros client) -> ok q0 evs st -> at_phase st = Acting has intent ->
  ok q0 (evs ++ [Act rng os_rng])
    (act net client relays default_hop_count intent rng os_rng st).
Proof.
  intros Hm [Hph Hf Hc Hr Hl Hh] Hat. unfold phase_ok in Hph. rewrite Hat in Hph.
  assert (pushed (evs ++ [Act rng os_rng]) = pushed evs) as Hp
    by (unfold pushed; rewrite omap_app; simpl; by rewrite app_nil_r).
  assert (acts (evs ++ [Act rng os_rng]) = S (acts evs)) as Ha
    by (unfold acts; rewrite omap_app, length_app; simpl; lia).
  assert (releases (evs ++ [Act rng os_rng]) = releases evs) as Hrel
    by (unfold releases; rewrite omap_app; simpl; by rewrite app_nil_r).
  assert (rounds (evs ++ [Act rng os_rng]) = rounds evs ++ [(rng, os_rng)]) as Hrd
    by (unfold rounds; by rewrite omap_app).
  assert (forall a q rs, action_ok (rng, os_rng) a -> reals [a] ++ q = queue st ->
    rs = replies st ++ omap reply_of [a] ->
    ok q0 (evs ++ [Act rng os_rng]) (update st q Top (log st ++ [a]) rs)) as Hgo.
  { intros a q rs Hok Hq ->. split; simpl.
    - done.
    - unfold reals in *. by rewrite omap_app, <- app_assoc, Hq, Hf, Hp.
    - rewrite length_app, Ha. simpl. lia.
    - by rewrite omap_app, Hr.
    - rewrite Hrd. apply Forall2_app; [done|]. by repeat constructor.
    - by rewrite Hrel. }
  destruct (send_dummy_total rng os_rng Hm) as (dummy & rd & Hd & Hcov).
  destruct intent; simpl; [|rewrite Hd; apply Hgo; [done..|by rewrite app_nil_r]..].
  destruct (queue st) as [|p q] eqn:Hq.
  - destruct has; [done|]. destruct Hph as (mode & rng' & Hint).
    apply Hgo; [simpl; eauto|done|by rewrite app_nil_r].
  - destruct (send_queued_total p rng os_rng Hm) as (r & Hs). rewrite Hs.
    apply Hgo; [done..|]. simpl. by destruct (q_done p).
Qed.

Lemma quiet_rounds evs ev : acts [ev] = 0%nat -> rounds (evs ++ [ev]) = rounds evs.
Proof. unfold acts, rounds. rewrite omap_app. destruct ev; simpl; try done; by rewrite app_nil_r. Qed.

(** Steps of the task other than [Act], and pushes. *)
Lemma quiet_ok q0 evs ev st q p :
  ok q0 evs st -> phase_ok (update st q p (log st) (replies st)) -> q = queue st ++ pushed [ev] ->
  acts [ev] = 0%nat -> releases [ev] = 0%nat ->
  ok q0 (evs ++ [ev]) (update st q p (log st) (replies st)).
Proof.
  intros [Hph Hf Hc Hr Hl Hh] Hph' -> Ha Hrel. split; simpl; try done.
  - rewrite app_assoc, Hf. unfold pushed. by rewrite omap_app, app_assoc.
  - rewrite Hc. unfold acts in *. rewrite omap_app, length_app. lia.
  - by rewrite (quiet_rounds _ _ Ha).
  - unfold releases in *. by rewrite omap_app, length_app, Hrel, Nat.add_0_r.
Qed.

(** The end of the handle, which sends one signal. *)
Lemma release_ok q0 evs ev st h n :
  ok q0 evs st -> handle st = Some h -> (cancel h = true -> n = 1%nat) ->
  pushed [ev] = [] -> acts [ev] = 0%nat -> releases [ev] = 1%nat -> ok q0 (evs ++ [ev]) (release st n).
Proof.
  intros [Hph Hf Hc Hr Hl Hh] Hst Hn Hp Ha Hrel. unfold handle_ok in Hh. rewrite Hst in Hh.
  destruct Hh as (Hcan & Hsig & Hzero). rewrite (Hn Hcan). split; simpl; try done.
  - revert Hph. unfold phase_ok. simpl. destruct (at_phase st); try done. by rewrite Hsig.
  - rewrite Hf. unfold pushed in *. by rewrite omap_app, Hp, app_nil_r.
  - rewrite Hc. unfold acts in *. rewrite omap_app, length_app. lia.
  - by rewrite (quiet_rounds _ _ Ha).
  - unfold handle_ok, releases in *. simpl. rewrite Hsig, omap_app, length_app. split; [done|lia].
Qed.

Lemma step_ok q0 evs ev st st' :
  is_u64 (mean_hop_delay_micros client) -> ok q0 evs st -> step st ev = Some st' ->
  ok q0 (evs ++ [ev]) st'.
Proof.
  intros Hm Hok Hs. pose proof (ok_phase _ _ _ Hok) as Hph. unfold phase_ok in Hph.
  destruct ev as [p| | |pct ch rng| | |rng|rng os]; unfold Cover.step in Hs.
  2,3: apply fmap_Some in Hs as (h & Hh & ->); eapply release_ok; [done..| |done|done|done]; unfold stop, drop_handle;
    simpl; by intros ->.
  all: destruct (at_phase st) as [|m d|m|has intent| |] eqn:Hat;
    try (destruct (signal st) eqn:Hsig); simplify_eq;
    try (by eapply act_ok); (eapply quiet_ok; [done| |simpl; by rewrite ?app_nil_r|done..]);
    unfold phase_ok; simpl; try done.
  all: try (destruct has, intent; try done; by destruct (queue st)).
  all: case_bool_decide; simpl; [by eauto|]; by destruct (next_intent _ _ _) as [[]].
Qed.

Lemma run_ok q0 evs evs' st st' :
  is_u64 (mean_hop_delay_micros client) -> ok q0 evs st -> run st evs' = Some st' ->
  ok q0 (evs ++ evs') st'.
Proof.
  intros Hm. revert evs st. induction evs' as [|ev evs' IH]; intros evs st Hok Hrun; simpl in Hrun.
  { simplify_eq. by rewrite app_nil_r. }
  apply bind_Some in Hrun as (st1 & Hs & Hrun).
  rewrite (cons_middle ev evs evs'), app_assoc. by eapply IH; [eapply step_ok|].
Qed.

Lemma spawn_ok q0 : ok q0 [] (spawn_cover_loop q0).
Proof. split; simpl; [done|by rewrite app_nil_r|done..]. Qed.

(** C25. However pushes interleave with the loop, queued messages are sent in
    the order they were queued, each at most once and none lost: those sent,
    then those still queued, are those pushed.  Each waiting sender is told
    the result of its own message, every round acts exactly once, with the
    generators of that round (a queued message or a decoy, [Nothing] only if the
    scheduler asks for a real message on an empty queue), a decoy is a random body
    sealed and framed as messages are, and 32 random bytes only when that body
    could not be sealed or framed, the task never panics, and it ends only on the
    one signal its handle sends, when it is stopped or dropped. *)
Theorem cover_loop_sends_in_order q0 evs st :
  is_u64 (mean_hop_delay_micros client) -> run (spawn_cover_loop q0) evs = Some st ->
  reals (log st) ++ queue st = q0 ++ pushed evs /\
  replies st = omap reply_of (log st) /\
  length (log st) = acts evs /\ Forall2 action_ok (rounds evs) (log st) /\
  at_phase st <> Panicked /\ (at_phase st = Exited -> signal st = true) /\
  releases evs = (if signal st then 1 else 0)%nat.
Proof.
  intros Hm Hrun. destruct (run_ok q0 [] evs (spawn_cover_loop q0) st Hm (spawn_ok q0) Hrun) as [Hph ???? Hh].
  unfold phase_ok in Hph. unfold handle_ok in Hh. simpl in Hh. split_and!; try done.
  - intros Hp. by rewrite Hp in Hph.
  - intros Hp. by rewrite Hp in Hph.
  - destruct (handle st); [by destruct Hh as (_ & -> & ->)|by destruct Hh as [-> ->]].
Qed.
End cover_properties.

Module CoverDemo.
#[local] Existing Instances Toy.gotham toy_laws counter_rng counter_rng_laws Delay.coarse_libm
  Delay.coarse_libm_laws Toy.route toy_route_laws ToyDirectory.directory toy_directory_laws
  ToyDirectory.sealed.

(** A scheduler that prefers real messages on even draws. *)
Definition scheduler : Cover Z := {|
  CoverMode := Z;
  battery_adjusted := fun mode pct charging => if charging then mode else mode * 2;
  next_interval := fun mode rng => (mode, rng + 1);
  next_intent := fun _ rng has_real =>
    (if has_real && Z.even rng then Real else Drop, rng + 1);
|}.
#[local] Existing Instance scheduler.

Definition base : CoverMode := 10.

Definition msg (b : byte) (ch : nat) : QueuedPacket := from_message ([b], None, Some ch).

Definition to_exit (b : byte) : QueuedPacket :=
  mkQueued [b] (Some 9%nat) (Some ClientDemo.exit_relay) (Some 7%nat).

(** Two rounds with a push between the look and the pop, then a cancel. *)
Definition events : list event :=
  [Battery 80 true 0; Elapsed; Inspect 0; Push (to_exit x2b); Act 0 0;
   Battery 20 false 1; Elapsed; Inspect 2; Act 1 0; Battery 20 false 1; Elapsed; Inspect 4; Act 1 0;
   Battery 20 true 3; Stop; Cancel].

Definition final : option state :=
  run ClientDemo.open_net default_client ClientDemo.relays base 3 (spawn_cover_loop [msg x2a 1]) events.

(** The first message is sent, the second fails on its hop count, a decoy
    follows. *)
Example cover_demo :
  (fun st => (replies st, length (queue st), length (log st), at_phase st)) <$> final =
  Some ([(1%nat, Ok tt); (7%nat, Err (SendError "cover loop deposit send" BadHopCount))], 0%nat, 3%nat, Exited).
Proof. vm_compute. reflexivity. Qed.

Lemma cover_loop_sends_in_order_witness :
  exists st, final = Some st /\
  reals (log st) ++ queue st = [msg x2a 1] ++ pushed events /\
  replies st = omap reply_of (log st) /\
  length (log st) = acts events /\
  Forall2 (action_ok ClientDemo.open_net default_client ClientDemo.relays 3) (rounds events) (log st) /\
  at_phase st <> Panicked /\ (at_phase st = Exited -> signal st = true) /\
  releases events = (if signal st then 1 else 0)%nat.
Proof.
  destruct final as [st|] eqn:Hf; [|vm_compute in Hf; discriminate].
  exists st. split; [reflexivity|]. unfold final in Hf.
  apply (cover_loop_sends_in_order ClientDemo.open_net default_client ClientDemo.relays base 3
           [msg x2a 1] events st); [vm_compute; split; discriminate|].
  exact Hf.
Defined.
End CoverDemo.
