(* ===== verification/Enroll.v ===== *)
(** * Enrolment with the directory authorities ([enroll_client.rs])

    A task announces the relay to every configured authority, with a proof
    that it holds the secret of the key it announces, again and again: quickly
    at first, with exponential backoff, and at the heartbeat once one of them
    has accepted.  The HTTP client and [crypto_gotham::enroll] are interfaces. *)

From S2P Require Import Prelude Text Gotham.

Inductive RelayTier : Type := Entry | Mix | Exit.

#[global] Instance RelayTier_eq_dec : EqDecision RelayTier.
Proof. solve_decision. Defined.

(** [crypto_gotham::enroll]; [view] gives the public fields of an enrolment. *)
Record enrollment_fields : Type := mkFields {
  f_kem_pubkey_hex : str;
  f_addr : str;
  f_tier : RelayTier;
  f_country : option str;
  f_operator : option str;
  f_seq : Z;
  f_attest_epoch : option Z;
  f_rendezvous : option str;
  f_rendezvous_capable : bool;
  f_mailbox : bool;
  f_pop_proof : option str;
}.

Class Enrollment := {
  RelayEnrollment : Type;
  view : RelayEnrollment -> enrollment_fields;
  enrollment_new : str -> str -> RelayTier -> option str -> option str -> Z -> RelayEnrollment;
  with_attest_epoch : RelayEnrollment -> Z -> RelayEnrollment;
  with_rendezvous : RelayEnrollment -> str -> RelayEnrollment;
  with_rendezvous_capable : RelayEnrollment -> bool -> RelayEnrollment;
  with_mailbox : RelayEnrollment -> bool -> RelayEnrollment;
  with_pop_proof : RelayEnrollment -> str -> RelayEnrollment;
  binding_hash : RelayEnrollment -> list byte;
  pop_tag_v2 : list byte -> list byte -> list byte;
  current_attest_epoch : Z -> Z;
}.

(** Each [with_] sets its field and leaves the others. *)
Class EnrollmentLaws `{!Enrollment} : Prop := {
  view_new : forall k a t c o s,
    view (enrollment_new k a t c o s) = mkFields k a t c o s None None false false None;
  view_with_attest_epoch : forall e n,
    view (with_attest_epoch e n) =
    let f := view e in
    mkFields (f_kem_pubkey_hex f) (f_addr f) (f_tier f) (f_country f) (f_operator f) (f_seq f) (Some n)
      (f_rendezvous f) (f_rendezvous_capable f) (f_mailbox f) (f_pop_proof f);
  view_with_rendezvous : forall e r,
    view (with_rendezvous e r) =
    let f := view e in
    mkFields (f_kem_pubkey_hex f) (f_addr f) (f_tier f) (f_country f) (f_operator f) (f_seq f)
      (f_attest_epoch f) (Some r) (f_rendezvous_capable f) (f_mailbox f) (f_pop_proof f);
  view_with_rendezvous_capable : forall e b,
    view (with_rendezvous_capable e b) =
    let f := view e in
    mkFields (f_kem_pubkey_hex f) (f_addr f) (f_tier f) (f_country f) (f_operator f) (f_seq f)
      (f_attest_epoch f) (f_rendezvous f) b (f_mailbox f) (f_pop_proof f);
  view_with_mailbox : forall e b,
    view (with_mailbox e b) =
    let f := view e in
    mkFields (f_kem_pubkey_hex f) (f_addr f) (f_tier f) (f_country f) (f_operator f) (f_seq f)
      (f_attest_epoch f) (f_rendezvous f) (f_rendezvous_capable f) b (f_pop_proof f);
  view_with_pop_proof : forall e p,
    view (with_pop_proof e p) =
    let f := view e in
    mkFields (f_kem_pubkey_hex f) (f_addr f) (f_tier f) (f_country f) (f_operator f) (f_seq f)
      (f_attest_epoch f) (f_rendezvous f) (f_rendezvous_capable f) (f_mailbox f) (Some p);
  (** the proof does not cover itself *)
  binding_hash_with : forall e p, binding_hash (with_pop_proof e p) = binding_hash e;
}.

Record EnrollConfig : Type := mkEnrollConfig {
  authority_url : str;
  extra_authority_urls : list str;
  advertise_addr : str;
  kem_pubkey_hex : str;
  tier : RelayTier;
  token : option str;
  country : option str;
  operator : option str;
  heartbeat : Z;
  rendezvous : option str;
  rendezvous_capable : bool;
  mailbox : bool;
  relay_sk : list byte;
  authority_pop_pk : option (list byte);
}.

Record AuthorityTarget : Type := mkTarget {
  base_url : str;
  enroll_url : str;
  pop_pk : option (list byte);
  pinned : bool;
}.

(** The wall clock, in seconds; a clock before 1970 counts as second 1. *)
Definition now_unix (clock : option Z) : Z := default 1 clock.

Definition parse_tier (s : str) : result str RelayTier :=
  let s := to_ascii_lowercase (trim s) in
  if decide (s = "entry") then Ok Entry
  else if decide (s = "mix" \/ s = []) then Ok Mix
  else if decide (s = "exit") then Ok Exit
  else Err (lit "unknown tier `" ++ s ++ lit "` — use entry|mix|exit").

(** A response: whether the status is a success, and the body unless reading
    it fails. *)
Record reply : Type := Reply { success : bool; text : option str }.

Section enroll.
Context `{!Gotham, !Hex, !Enrollment}.

(** What the network answers, [None] when a request fails. *)
Record http : Type := mkHttp {
  get : str -> option reply;
  post : str -> option str -> RelayEnrollment -> option reply;
}.

Definition fetch_authority_pop_pk (h : http) (authority_url : str) : option (list byte) :=
  let url := trim_end_matches x2f authority_url ++ lit "/pop" in
  resp ← get h url;
  if negb (success resp) then None else
  body ← text resp;
  bytes ← hex_decode (trim body);
  try_array 32 bytes.

Definition base_enrollment (cfg : EnrollConfig) (seq epoch : Z) : RelayEnrollment :=
  let advertise := match rendezvous cfg with Some _ => [] | None => advertise_addr cfg end in
  let e := with_attest_epoch
             (enrollment_new (kem_pubkey_hex cfg) advertise (tier cfg) (country cfg) (operator cfg) seq)
             epoch in
  let e := match rendezvous cfg with Some r => with_rendezvous e r | None => e end in
  let e := if rendezvous_capable cfg then with_rendezvous_capable e true else e in
  if mailbox cfg then with_mailbox e true else e.

Definition attach_pop_proof (e : RelayEnrollment) (cfg : EnrollConfig) (pop_pk : list byte)
    : RelayEnrollment :=
  match hex_decode (kem_pubkey_hex cfg) ≫= try_array 32 with
  | None => e
  | Some _ =>
      let shared := x25519 (relay_sk cfg) pop_pk in
      let tag := pop_tag_v2 shared (binding_hash e) in
      with_pop_proof e (hex_encode tag)
  end.

Record request : Type := mkRequest {
  rq_url : str;
  rq_token : option str;
  rq_body : RelayEnrollment;
}.

Definition with_pop_pk (t : AuthorityTarget) (pk : option (list byte)) : AuthorityTarget :=
  mkTarget (base_url t) (enroll_url t) pk (pinned t).

(** The body of the loop over the targets: the request sent, whether it was
    accepted, and the target afterwards. *)
Definition enroll_target (h : http) (cfg : EnrollConfig) (base : RelayEnrollment)
    (t : AuthorityTarget) : request * bool * AuthorityTarget :=
  let pk := match pop_pk t with
            | Some pk => Some pk
            | None => fetch_authority_pop_pk h (base_url t)
            end in
  let enrollment := match pk with
                    | Some pk => attach_pop_proof base cfg pk
                    | None => base
                    end in
  let req := mkRequest (enroll_url t) (token cfg) enrollment in
  match post h (enroll_url t) (token cfg) enrollment with
  | Some resp =>
      if success resp then (req, true, with_pop_pk t pk)
      else
        let body := default [] (text resp) in
        if negb (pinned t) && contains body "possession proof"
        then (req, false, with_pop_pk t None)
        else (req, false, with_pop_pk t pk)
  | None => (req, false, with_pop_pk t pk)
  end.

(** [h i] is the network as the [i]-th target finds it. *)
Fixpoint enroll_targets (h : nat -> http) (cfg : EnrollConfig) (base : RelayEnrollment)
    (ts : list AuthorityTarget) : list request * bool * list AuthorityTarget :=
  match ts with
  | [] => ([], false, [])
  | t :: ts =>
      let '(rq, ok, t) := enroll_target (h 0%nat) cfg base t in
      let '(rqs, any_ok, ts) := enroll_targets (fun i => h (S i)) cfg base ts in
      (rq :: rqs, ok || any_ok, t :: ts)
  end.

Record state : Type := mkState {
  targets : list AuthorityTarget;
  seq : Z;
  settled : bool;
  retry : Z;
}.

Definition FIRST_ENROLL_RETRY : Z := from_secs 5.
Definition FIRST_ENROLL_RETRY_MAX : Z := from_secs 60.

Definition target (url : str) (pk : option (list byte)) : AuthorityTarget :=
  let base := trim_end_matches x2f url in
  mkTarget base (base ++ lit "/enroll") pk (bool_decide (is_Some pk)).

Definition initial_targets (cfg : EnrollConfig) : list AuthorityTarget :=
  target (authority_url cfg) (authority_pop_pk cfg) ::
  map (fun url => target url None) (extra_authority_urls cfg).

Definition init (cfg : EnrollConfig) (now : Z) : state :=
  mkState (initial_targets cfg) now false FIRST_ENROLL_RETRY.

(** A relay behind a rendezvous first waits for it to be up. *)
Definition initial_delay (cfg : EnrollConfig) : Z :=
  match rendezvous cfg with Some _ => from_secs 3 | None => 0 end.

(** One turn of the loop: the requests, whether one was accepted, how long it
    sleeps then, and the state after. *)
Definition round (cfg : EnrollConfig) (h : nat -> http) (clock : option Z) (st : state)
    : list request * bool * Z * state :=
  let epoch := current_attest_epoch (now_unix clock) in
  let base := base_enrollment cfg (seq st) epoch in
  let '(rqs, any_ok, ts) := enroll_targets h cfg base (targets st) in
  let seq := u64_saturating_add (seq st) 1 in
  let settled := settled st || any_ok in
  if settled then (rqs, any_ok, heartbeat cfg, mkState ts seq settled (retry st))
  else (rqs, any_ok, retry st,
        mkState ts seq settled (Z.min (retry st * 2) FIRST_ENROLL_RETRY_MAX)).

Record turn : Type := mkTurn { t_requests : list request; t_ok : bool; t_sleep : Z }.

Fixpoint rounds (cfg : EnrollConfig) (envs : list ((nat -> http) * option Z)) (st : state) : list turn :=
  match envs with
  | [] => []
  | (h, clock) :: envs =>
      let '(rqs, ok, sleep, st) := round cfg h clock st in
      mkTurn rqs ok sleep :: rounds cfg envs st
  end.

(** How long the task waits before its first turn, and its turns, for as many
    as [envs] says what the network does and what the clock shows; [None] if
    the HTTP client cannot be built, and the task ends at once. *)
Definition run_enrollment_loop (client_ok : bool) (cfg : EnrollConfig) (clock : option Z)
    (envs : list ((nat -> http) * option Z)) : option (Z * list turn) :=
  if negb client_ok then None
  else Some (initial_delay cfg, rounds cfg envs (init cfg (now_unix clock))).
End enroll.

(** ** Theorems *)
Section enroll_facts.
Context `{!Gotham, !Hex, !Enrollment}.
Implicit Types (cfg : EnrollConfig) (ts : list AuthorityTarget).

(** The parts of a target that never change, and the key of a pinned one. *)
Definition same_target (t t' : AuthorityTarget) : Prop :=
  base_url t' = base_url t /\ enroll_url t' = enroll_url t /\ pinned t' = pinned t /\
  (pinned t = true -> is_Some (pop_pk t) -> pop_pk t' = pop_pk t).

(** A request announces the relay, with or without a possession proof; with
    the key of the target, if it has one. *)
Definition announces cfg (base : RelayEnrollment) (t : AuthorityTarget) (rq : request) : Prop :=
  rq_url rq = enroll_url t /\ rq_token rq = token cfg /\
  match pop_pk t with
  | Some pk => rq_body rq = attach_pop_proof base cfg pk
  | None => rq_body rq = base \/ exists pk, rq_body rq = attach_pop_proof base cfg pk
  end.

Lemma enroll_target_spec h cfg base t :
  let '(rq, _, t') := enroll_target h cfg base t in announces cfg base t rq /\ same_target t t'.
Proof.
  unfold enroll_target. set (pk := match pop_pk t with Some _ => _ | None => _ end).
  set (req := mkRequest _ _ _).
  assert (announces cfg base t req) as Hreq.
  { split; [done|]. split; [done|]. unfold req, pk. simpl. destruct (pop_pk t); [done|].
    destruct (fetch_authority_pop_pk h (base_url t)); eauto. }
  assert (same_target t (with_pop_pk t pk)) as Hsame.
  { split_and!; try done. intros _ [k Hk]. unfold pk. simpl. by rewrite Hk. }
  destruct (post _ _ _ _) as [resp|]; [|done]. destruct (success resp); [done|].
  destruct (pinned t) eqn:Hp; simpl; [done|].
  destruct (contains _ _); [|done]. split; [done|]. split_and!; try done. by rewrite Hp.
Qed.

Lemma enroll_targets_spec h cfg base ts :
  let '(rqs, _, ts') := enroll_targets h cfg base ts in
  Forall2 (announces cfg base) ts rqs /\ Forall2 same_target ts ts'.
Proof.
  revert h. induction ts as [|t ts IH]; intros h; simpl; [done|].
  pose proof (enroll_target_spec (h 0%nat) cfg base t) as Ht.
  destruct (enroll_target (h 0%nat) cfg base t) as [[rq ok] t']. destruct Ht as [Hrq Hs].
  specialize (IH (fun i => h (S i))).
  destruct (enroll_targets _ _ _ ts) as [[rqs any] ts']. destruct IH as [Hrqs Hss].
  split; by constructor.
Qed.

#[export] Instance same_target_trans : Transitive same_target.
Proof.
  intros t1 t2 t3 (Hb & He & Hp & Hk) (Hb' & He' & Hp' & Hk'). split_and!; try congruence.
  intros Hpin Hsome. rewrite <- (Hk Hpin Hsome) in Hsome |- *. apply Hk'; [congruence|done].
Qed.

(** The state the [k]-th turn starts from. *)
Record at_turn cfg (now : Z) (k : nat) (failing : bool) (st : state) : Prop := mkAtTurn {
  at_targets : Forall2 same_target (initial_targets cfg) (targets st);
  at_seq : seq st = Z.min u64_max (now + Z.of_nat k);
  at_settled : settled st = negb failing;
  at_retry : failing = true ->
    retry st = Z.min (from_secs (5 * 2 ^ Z.of_nat k)) (from_secs 60);
}.

Definition backoff (k : nat) : Z := Z.min (from_secs (5 * 2 ^ Z.of_nat k)) (from_secs 60).

Lemma backoff_step k : Z.min (backoff k * 2) FIRST_ENROLL_RETRY_MAX = backoff (S k).
Proof.
  unfold backoff, FIRST_ENROLL_RETRY_MAX, from_secs, NANOS_PER_SEC.
  rewrite Nat2Z.inj_succ, Z.pow_succ_r by lia. lia.
Qed.

Lemma round_at_turn cfg now k failing h clock st :
  at_turn cfg now k failing st ->
  let base := base_enrollment cfg (Z.min u64_max (now + Z.of_nat k)) (current_attest_epoch (now_unix clock)) in
  let '(rqs, ok, sleep, st') := round cfg h clock st in
  at_turn cfg now (S k) (failing && negb ok) st' /\
  sleep = (if failing && negb ok then backoff k else heartbeat cfg) /\
  Forall2 (announces cfg base) (targets st) rqs.
Proof.
  intros [Hts Hseq Hset Hret] base. unfold round. rewrite Hseq. fold base.
  pose proof (enroll_targets_spec h cfg base (targets st)) as Hs.
  destruct (enroll_targets h cfg base (targets st)) as [[rqs ok] ts']. destruct Hs as [Hrqs Hsame].
  assert (Forall2 same_target (initial_targets cfg) ts') as Hts'
    by by etransitivity.
  assert (u64_saturating_add (Z.min u64_max (now + Z.of_nat k)) 1 =
          Z.min u64_max (now + Z.of_nat (S k))) as Hnext by (unfold u64_saturating_add; lia).
  rewrite Hset. destruct failing, ok; simpl; (split; [|split; [first [done|by apply Hret]|done]]);
    split; simpl; try done.
  intros _. rewrite (Hret eq_refl). apply backoff_step.
Qed.

(** No turn up to and including the [k]-th had an acceptance. *)
Definition all_failed (turns : list turn) (k : nat) : bool := forallb (fun t => negb (t_ok t)) (take (S k) turns).

Lemma rounds_spec cfg now k0 failing envs st :
  at_turn cfg now k0 failing st ->
  forall k t, rounds cfg envs st !! k = Some t ->
  t_sleep t = (if failing && all_failed (rounds cfg envs st) k then backoff (k0 + k) else heartbeat cfg) /\
  exists h clock ts, envs !! k = Some (h, clock) /\ Forall2 same_target (initial_targets cfg) ts /\
    Forall2 (announces cfg
      (base_enrollment cfg (Z.min u64_max (now + Z.of_nat (k0 + k))) (current_attest_epoch (now_unix clock))))
      ts (t_requests t).
Proof.
  revert k0 failing st. induction envs as [|[h clock] envs IH]; intros k0 failing st Hst k t; simpl; [done|].
  pose proof (round_at_turn cfg now k0 failing h clock st Hst) as Hr.
  destruct (round cfg h clock st) as [[[rqs ok] sleep] st']. destruct Hr as (Hst' & Hsl & Hrqs).
  destruct k as [|k]; simpl.
  - intros [= <-]. unfold all_failed. simpl. rewrite Nat.add_0_r, andb_true_r.
    split; [done|]. exists h, clock, (targets st). split; [done|]. split; [apply Hst|done].
  - intros Hk. destruct (IH (S k0) _ st' Hst' k t Hk) as [Hs Hrest].
    rewrite Nat.add_succ_r. split; [|done]. rewrite Hs. unfold all_failed. simpl.
    by rewrite andb_assoc.
Qed.

Lemma init_at_turn cfg now :
  now <= u64_max -> at_turn cfg now 0 true (init cfg now).
Proof.
  intros Hn. split; [|simpl; lia|done|done].
  apply Forall_Forall2_diag, Forall_forall. intros t _. by repeat split.
Qed.

(** What the configuration has to say, with or without a proof. *)
Definition announcement cfg (seq epoch : Z) (proof : option str) : enrollment_fields :=
  mkFields (kem_pubkey_hex cfg) (if decide (is_Some (rendezvous cfg)) then [] else advertise_addr cfg)
    (tier cfg) (country cfg) (operator cfg) seq (Some epoch) (rendezvous cfg) (rendezvous_capable cfg)
    (mailbox cfg) proof.

Lemma base_enrollment_view `{!EnrollmentLaws} cfg seq epoch :
  view (base_enrollment cfg seq epoch) = announcement cfg seq epoch None.
Proof.
  unfold base_enrollment, announcement.
  destruct (rendezvous cfg), (rendezvous_capable cfg), (mailbox cfg);
    rewrite ?view_with_mailbox, ?view_with_rendezvous_capable, ?view_with_rendezvous,
      view_with_attest_epoch, view_new; reflexivity.
Qed.

Lemma attach_pop_proof_view `{!EnrollmentLaws} cfg seq epoch pk :
  exists proof, view (attach_pop_proof (base_enrollment cfg seq epoch) cfg pk) =
    announcement cfg seq epoch proof.
Proof.
  unfold attach_pop_proof. destruct (_ ≫= try_array 32); [|eexists; apply base_enrollment_view].
  rewrite view_with_pop_proof, base_enrollment_view. by eexists.
Qed.

(** C29. The enrolment loop announces the relay to every authority at every
    turn: its key, address, tier and the rest of the configuration, with the
    configured token, the epoch of that turn and a sequence number that grows by one
    each turn from the start time (until it saturates); it sleeps 5, 10, 20,
    40 and then 60 seconds while no authority has accepted, and the heartbeat
    from the first acceptance on.  Before the first turn a relay behind a
    rendezvous waits three seconds; no other delay precedes it. *)
Theorem enrollment_schedule `{Hlaws : !EnrollmentLaws} cfg clock envs delay turns k t :
  is_u64 (now_unix clock) ->
  run_enrollment_loop true cfg clock envs = Some (delay, turns) ->
  turns !! k = Some t ->
  delay = (if decide (is_Some (rendezvous cfg)) then from_secs 3 else 0) /\
  t_sleep t = (if all_failed turns k then backoff k else heartbeat cfg) /\
  map rq_url (t_requests t) = map enroll_url (initial_targets cfg) /\
  exists h now, envs !! k = Some (h, now) /\
    let seq := Z.min u64_max (now_unix clock + Z.of_nat k) in
    let epoch := current_attest_epoch (now_unix now) in
    Forall (fun rq => rq_token rq = token cfg /\
      exists proof, view (rq_body rq) = announcement cfg seq epoch proof) (t_requests t).
Proof.
  intros Hn [= <- <-] Hk. split; [unfold initial_delay; by destruct (rendezvous cfg)|].
  destruct (rounds_spec cfg (now_unix clock) 0 true envs _
    (init_at_turn cfg _ (proj2 Hn)) k t Hk) as [Hs (h & now & ts & Henv & Hts & Hrq)].
  split; [exact Hs|]. split.
  - clear Hs. revert Hrq. generalize (t_requests t). clear -Hts. induction Hts as [|t1 t2 l1 l2 (_ & He & _) ? IH];
      intros rqs Hrq; inversion Hrq as [|?? ? ? (Hu & _)]; subst; simpl; [done|].
    f_equal; [congruence|]. by apply IH.
  - exists h, now. split; [done|]. simpl. clear -Hrq Hlaws.
    induction Hrq as [|tg rq ts rqs (_ & Htok & Hbody) ? IH]; [done|]. constructor; [|done].
    split; [done|]. destruct (pop_pk tg) as [pk|]; [rewrite Hbody; apply attach_pop_proof_view|].
    destruct Hbody as [->|[pk ->]]; [eexists; apply base_enrollment_view|apply attach_pop_proof_view].
Qed.

(** A pinned key is final: with [--authority-pop-key] every announcement
    to the primary authority carries the proof computed with that key,
    whatever the authorities answer. *)
Lemma pinned_key_is_final cfg clock envs delay turns k t pk :
  is_u64 (now_unix clock) -> authority_pop_pk cfg = Some pk ->
  run_enrollment_loop true cfg clock envs = Some (delay, turns) -> turns !! k = Some t ->
  exists rq h now, head (t_requests t) = Some rq /\ envs !! k = Some (h, now) /\
    rq_url rq = trim_end_matches x2f (authority_url cfg) ++ lit "/enroll" /\
    rq_body rq = attach_pop_proof (base_enrollment cfg (Z.min u64_max (now_unix clock + Z.of_nat k))
                   (current_attest_epoch (now_unix now))) cfg pk.
Proof.
  intros Hn Hpk [= <- <-] Hk.
  destruct (rounds_spec cfg (now_unix clock) 0 true envs _
    (init_at_turn cfg _ (proj2 Hn)) k t Hk) as [_ (h & now & ts & Henv & Hts & Hrq)].
  unfold initial_targets in Hts. apply Forall2_cons_inv_l in Hts as (t0 & ts' & (_ & He & _ & Hp) & _ & ->).
  apply Forall2_cons_inv_l in Hrq as (rq & rqs & (Hu & _ & Hb) & _ & Hreq).
  exists rq, h, now. rewrite Hreq. split; [done|]. split; [done|]. split; [by rewrite Hu, He|].
  unfold target in Hp. simpl in Hp. rewrite Hpk in Hp. rewrite (Hp eq_refl (mk_is_Some _ _ eq_refl)) in Hb.
  exact Hb.
Qed.
End enroll_facts.

Section possession.
Context `{!Gotham, !GothamLaws, !Hex, !HexLaws, !Enrollment, !EnrollmentLaws}.

(** An authority that holds the secret of the possession key can check
    the proof: from its own secret and the key the relay announces it
    computes, for the enrolment it received, the very tag attached. *)
Lemma possession_proof_verifies cfg e a :
  length a = 32%nat -> length (relay_sk cfg) = 32%nat ->
  kem_pubkey_hex cfg = hex_encode (public_key (relay_sk cfg)) ->
  let e' := attach_pop_proof e cfg (public_key a) in
  f_pop_proof (view e') = Some (hex_encode
    (pop_tag_v2 (x25519 a (public_key (relay_sk cfg))) (binding_hash e'))).
Proof.
  intros Ha Hs Hk. unfold attach_pop_proof. rewrite Hk, hex_decode_encode. simpl.
  unfold try_array. rewrite (proj2 (Nat.eqb_eq _ _) (public_key_length _ Hs)).
  by rewrite view_with_pop_proof, binding_hash_with, x25519_commutes.
Qed.
End possession.

(** ** Concrete runs *)
Module EnrollDemo.
(** An enrolment is its fields. *)
Definition toy_enrollment : Enrollment := {|
  RelayEnrollment := enrollment_fields;
  view := fun f => f;
  enrollment_new := fun k a t c o s => mkFields k a t c o s None None false false None;
  with_attest_epoch := fun f n =>
    mkFields (f_kem_pubkey_hex f) (f_addr f) (f_tier f) (f_country f) (f_operator f) (f_seq f) (Some n)
      (f_rendezvous f) (f_rendezvous_capable f) (f_mailbox f) (f_pop_proof f);
  with_rendezvous := fun f r =>
    mkFields (f_kem_pubkey_hex f) (f_addr f) (f_tier f) (f_country f) (f_operator f) (f_seq f)
      (f_attest_epoch f) (Some r) (f_rendezvous_capable f) (f_mailbox f) (f_pop_proof f);
  with_rendezvous_capable := fun f b =>
    mkFields (f_kem_pubkey_hex f) (f_addr f) (f_tier f) (f_country f) (f_operator f) (f_seq f)
      (f_attest_epoch f) (f_rendezvous f) b (f_mailbox f) (f_pop_proof f);
  with_mailbox := fun f b =>
    mkFields (f_kem_pubkey_hex f) (f_addr f) (f_tier f) (f_country f) (f_operator f) (f_seq f)
      (f_attest_epoch f) (f_rendezvous f) (f_rendezvous_capable f) b (f_pop_proof f);
  with_pop_proof := fun f p =>
    mkFields (f_kem_pubkey_hex f) (f_addr f) (f_tier f) (f_country f) (f_operator f) (f_seq f)
      (f_attest_epoch f) (f_rendezvous f) (f_rendezvous_capable f) (f_mailbox f) (Some p);
  binding_hash := fun f =>
    f_kem_pubkey_hex f ++ f_addr f ++ to_be_bytes 8 (f_seq f) ++ to_be_bytes 8 (default 0 (f_attest_epoch f));
  pop_tag_v2 := fun shared hash => shared ++ hash;
  current_attest_epoch := fun now => now / 3600;
|}.

Lemma toy_enrollment_laws : @EnrollmentLaws toy_enrollment.
Proof. by split. Qed.

#[local] Existing Instances Toy.gotham toy_laws Base16.hex base16_laws toy_enrollment toy_enrollment_laws.

Definition authority_sk : list byte := Toy.sk 77.

Definition cfg (pop : option (list byte)) : EnrollConfig :=
  mkEnrollConfig (lit "http://a/") [lit "http://b"] (lit "10.0.0.1:9001")
    (hex_encode (public_key (Toy.sk 1))) Mix (Some (lit "tok")) None None (from_secs 600) None
    false true (Toy.sk 1) pop.

(** Both authorities refuse; the first one accepts; the first one complains
    about the proof. *)
Definition refuse : http := mkHttp (fun _ => None) (fun _ _ _ => Some (Reply false None)).
Definition accept : http :=
  mkHttp (fun _ => Some (Reply true (Some (hex_encode (public_key authority_sk) ++ [x0a]))))
    (fun _ _ _ => Some (Reply true None)).
Definition complain : http :=
  mkHttp (fun _ => None) (fun _ _ _ => Some (Reply false (Some (lit "bad possession proof")))).

Definition envs : list ((nat -> http) * option Z) :=
  [(fun _ => refuse, Some 3600); (fun _ => refuse, Some 3605);
   (fun i => if decide (i = 0%nat) then accept else refuse, Some 3615); (fun _ => complain, None)].

Definition demo (pop : option (list byte)) : list turn :=
  from_option snd [] (run_enrollment_loop true (cfg pop) (Some 3600) envs).

Example demo_sleeps : map t_sleep (demo None) = map from_secs [5; 10; 600; 600].
Proof. vm_compute. reflexivity. Qed.

Example demo_proofs :
  map (fun t => map (fun rq => bool_decide (is_Some (f_pop_proof (rq_body rq)))) (t_requests t)) (demo None) =
  [[false; false]; [false; false]; [true; false]; [true; false]].
Proof. vm_compute. reflexivity. Qed.

(** An enrolment nobody sent, where the turn is missing. *)
Definition no_turn : turn := mkTurn [] false 0.

Definition second : turn := default no_turn (demo None !! 1%nat).

Lemma enrollment_schedule_witness :
  0 = (if decide (is_Some (rendezvous (cfg None))) then from_secs 3 else 0) /\
  t_sleep second = (if all_failed (demo None) 1 then backoff 1 else heartbeat (cfg None)) /\
  map rq_url (t_requests second) = map enroll_url (initial_targets (cfg None)) /\
  exists h now, envs !! 1%nat = Some (h, now) /\
    let seq := Z.min u64_max (3600 + 1) in
    let epoch := current_attest_epoch (now_unix now) in
    Forall (fun rq => rq_token rq = token (cfg None) /\
      exists proof, view (rq_body rq) = announcement (cfg None) seq epoch proof) (t_requests second).
Proof.
  apply (enrollment_schedule (cfg None) (Some 3600) envs 0 (demo None) 1 second).
  - vm_compute. split; discriminate.
  - reflexivity.
  - vm_compute. reflexivity.
Defined.

(** With a pinned key every announcement to the primary authority carries a
    proof, also after it complained. *)
Example pinned_demo :
  map (fun t => (fun rq => bool_decide (is_Some (f_pop_proof (rq_body rq)))) <$> head (t_requests t))
    (demo (Some (public_key authority_sk))) = repeat (Some true) 4.
Proof. vm_compute. reflexivity. Qed.

Example possession_demo :
  let e := base_enrollment (cfg None) 3600 1 in
  let e' := attach_pop_proof e (cfg None) (public_key authority_sk) in
  f_pop_proof (view e') = Some (hex_encode
    (pop_tag_v2 (x25519 authority_sk (public_key (Toy.sk 1))) (binding_hash e'))).
Proof. vm_compute. reflexivity. Qed.

(** Tiers are read whatever their case and surrounding space. *)
Example parse_tiers :
  map parse_tier [lit "entry"; lit " MIX "; []; lit "Exit"] = [Ok Entry; Ok Mix; Ok Mix; Ok Exit] /\
  parse_tier (lit "Guard") = Err (lit "unknown tier `guard` — use entry|mix|exit").
Proof. by vm_compute. Qed.
End EnrollDemo.
