(* ===== verification/Keys.v ===== *)
(** * Key files and the mailbox store ([main.rs])

    [keygen] writes a secret key once, in hexadecimal, on Unix readable by its
    owner only; the other commands read it back.  The mailbox is saved to disk
    periodically and at shutdown and loaded at start.  Operations return the
    file system they leave, or all the file systems they pass through where a
    crash in between matters. *)

From S2P Require Import Prelude Text Fs F64 Rand Gotham Wire Services Client.

(** [std::fs::read_to_string]. *)
Definition read_to_string (fault : option io_error) (fs : gmap string file) (path : string)
    : result io_error str :=
  raw ← read fault fs path;
  ok_or (IoError InvalidData "stream did not contain valid UTF-8") (from_utf8 raw).

Record key_faults : Type := KeyFaults {
  k_open : option io_error;
  k_write_hex : option (nat * io_error);
  k_write_newline : option io_error;
}.

Section keys.
Context `{!Hex}.

(** The text of a message is given without what the [hex] crate adds. *)
Definition read_key_file (fault : option io_error) (fs : gmap string file) (path : string)
    : result io_error (list byte) :=
  raw ← read_to_string fault fs path;
  bytes ← ok_or (IoError InvalidData "bad hex") (hex_decode (trim raw));
  if negb (length bytes =? 32)%nat
  then Err (IoError InvalidData "secret key file must be 64 hex chars (32 bytes)")
  else Ok bytes.

(** [seen] is the file system at the [exists] test and [fs] the one at the
    [open]: another process may act in between.  The mode is asked for under
    [#[cfg(unix)]]. *)
Definition write_key_file `{!Platform} (flt : key_faults) (seen fs : gmap string file) (path : string)
    (sk : list byte) : result io_error unit * gmap string file :=
  if bool_decide (is_Some (seen !! path)) then
    (Err (IoError AlreadyExists "key file already exists — refusing to overwrite"), fs)
  else
    match k_open flt with
    | Some e => (Err e, fs)
    | None =>
        if bool_decide (is_Some (fs !! path)) then (Err (IoError AlreadyExists "File exists"), fs)
        else
          let hex := hex_encode sk in
          match k_write_hex flt with
          | Some (n, e) => (Err e, <[path := File (take n hex) private_mode]> fs)
          | None =>
              match k_write_newline flt with
              | Some e => (Err e, <[path := File hex private_mode]> fs)
              | None => (Ok tt, <[path := File (hex ++ [x0a]) private_mode]> fs)
              end
          end
    end.

Definition is_hex_text (b : byte) : bool := is_ascii_hexdigit b || is_ascii_whitespace b.

Definition read_ed25519_seed (fault : option io_error) (fs : gmap string file) (path : string)
    : result io_error (list byte) :=
  raw ← read fault fs path;
  trimmed ←
    (if forallb is_hex_text raw then
       s ← ok_or (IoError InvalidData "non-utf8") (from_utf8 raw);
       ok_or (IoError InvalidData "bad hex") (hex_decode (trim s))
     else Ok raw);
  if negb (length trimmed =? 32)%nat
  then Err (IoError InvalidData "authority key must be 32 bytes (or 64 hex chars)")
  else Ok trimmed.

(** The [keygen] and [pubkey] commands, with the line they print. *)
Context `{!Gotham} {R : Type} `{!Rng R}.

Definition keygen `{!Platform} (flt : key_faults) (seen fs : gmap string file) (path : string) (os_rng : R)
    : result io_error str * gmap string file :=
  let '(sk, _) := fill_bytes 32 os_rng in
  let sk := clamp_scalar sk in
  let '(res, fs) := write_key_file flt seen fs path sk in
  ((fun _ => lit "public key: " ++ hex_encode (public_key sk)) <$> res, fs).

Definition pubkey (fault : option io_error) (fs : gmap string file) (path : string)
    : result io_error str :=
  sk ← read_key_file fault fs path;
  Ok (hex_encode (public_key sk)).
End keys.

(** ** The mailbox on disk *)

(** [crypto_gotham::mailbox] snapshots and their encoding by [rmp_serde]. *)
Class MailboxStore (Mb : Type) := {
  MailboxSnapshot : Type;
  with_defaults : Mb;
  from_snapshot : MailboxSnapshot -> Z -> Mb;
  snapshot : Mb -> MailboxSnapshot;
  prune_expired : Mb -> Z -> nat * Mb;
  rmp_to_vec : MailboxSnapshot -> option (list byte);
  rmp_from_slice : list byte -> option MailboxSnapshot;
}.

Class MailboxStoreLaws (Mb : Type) `{!MailboxStore Mb} : Prop := {
  rmp_round_trip : forall s b, rmp_to_vec s = Some b -> rmp_from_slice b = Some s;
}.

(** Where [std::fs::write] and [std::fs::rename] fail. *)
Record store_faults : Type := StoreFaults {
  s_open : option io_error;
  s_write : option (nat * io_error);
  s_rename : option io_error;
}.

(** [now_unix] of main.rs; a clock before the epoch reads as the epoch. *)
Definition now_unix (clock : option Z) : Z := default 0 clock.

Section store.
Context {Mb : Type} `{!MailboxStore Mb}.

Definition load_mailbox (fault : option io_error) (fs : gmap string file) (path : option string)
    (now : Z) : Mb :=
  match path with
  | None => with_defaults
  | Some path =>
      match read fault fs path with
      | Ok bytes =>
          match rmp_from_slice bytes with
          | Some snap => from_snapshot snap now
          | None => with_defaults
          end
      | Err _ => with_defaults
      end
  end.

(** The result and the file systems the call passes through, when no other save
    of the same store runs meanwhile.  A new file gets the default mode; an existing
    one keeps its own. *)
Definition persist_mailbox (flt : store_faults) (fs : gmap string file) (path : string)
    (snap : MailboxSnapshot) : result io_error unit * list (gmap string file) :=
  match rmp_to_vec snap with
  | None => (Err (IoError InvalidData "serialize mailbox snapshot"), [fs])
  | Some bytes =>
      let tmp := with_extension path "tmp" in
      let m := from_option mode DEFAULT_MODE (fs !! tmp) in
      match s_open flt with
      | Some e => (Err e, [fs])
      | None =>
          let fs1 := <[tmp := File [] m]> fs in
          match s_write flt with
          | Some (n, e) => (Err e, [fs; fs1; <[tmp := File (take n bytes) m]> fs])
          | None =>
              let fs2 := <[tmp := File bytes m]> fs in
              match s_rename flt with
              | Some e => (Err e, [fs; fs1; fs2])
              | None =>
                  (Ok tt, [fs; fs1; fs2;
                           if decide (tmp = path) then fs2
                           else <[path := File bytes m]> (delete tmp fs)])
              end
          end
      end
  end.

(** One tick of [spawn_mailbox_maintenance]: prune, then save if there is a
    place to save to. *)
Definition maintenance_tick (flt : store_faults) (store_path : option string) (now : Z)
    (fs : gmap string file) (mb : Mb) : list (gmap string file) * Mb :=
  let '(_, mb) := prune_expired mb now in
  match store_path with
  | Some path => ((persist_mailbox flt fs path (snapshot mb)).2, mb)
  | None => ([fs], mb)
  end.
End store.

(** ** Theorems *)
Section key_facts.
Context `{!Platform, !Hex, !HexLaws, !Gotham} {R : Type} `{!Rng R, !RngLaws R}.

(** Every file that was there stays as it was, and no file but the key
    appears. *)
Lemma write_key_file_frame flt seen fs path sk p :
  let '(res, fs') := write_key_file flt seen fs path sk in
  (is_Some (fs !! p) \/ p <> path -> fs' !! p = fs !! p) /\
  (forall f, fs' !! p = Some f -> fs !! p = None -> mode f = private_mode).
Proof.
  assert (forall c, fs !! path = None ->
    (is_Some (fs !! p) \/ p <> path -> <[path := File c private_mode]> fs !! p = fs !! p) /\
    (forall f, <[path := File c private_mode]> fs !! p = Some f -> fs !! p = None -> mode f = private_mode)) as Hins.
  { intros c Hnone. destruct (decide (p = path)) as [->|Hne].
    - split; [intros [[? ?]|?]; congruence|]. intros f. rewrite lookup_insert_eq. by intros [= <-].
    - rewrite lookup_insert_ne by done. split; [done|congruence]. }
  unfold write_key_file. case_bool_decide; [split; [done|congruence]|].
  destruct (k_open flt); [split; [done|congruence]|].
  case_bool_decide as Hex; [split; [done|congruence]|]. apply eq_None_not_Some in Hex.
  destruct (k_write_hex flt) as [[n e]|]; [by apply Hins|]. destruct (k_write_newline flt); by apply Hins.
Qed.

Lemma hex_line_reads fs path sk m :
  length sk = 32%nat -> fs !! path = Some (File (hex_encode sk ++ [x0a]) m) ->
  read_key_file None fs path = Ok sk /\ read_ed25519_seed None fs path = Ok sk.
Proof.
  intros Hsk Hf.
  assert (hex_encode sk <> []) as Hne.
  { intros Hnil. pose proof (hex_encode_length sk) as Hl. rewrite Hnil, Hsk in Hl. done. }
  pose proof (hex_encode_digits sk) as Hd.
  assert (from_utf8 (hex_encode sk ++ [x0a]) = Some (hex_encode sk ++ [x0a])) as Hu.
  { apply from_utf8_ascii, Forall_app. split; [|by repeat constructor].
    eapply Forall_impl; [exact Hd|]. apply hexdigit_ascii. }
  assert (forallb is_hex_text (hex_encode sk ++ [x0a]) = true) as Ht.
  { rewrite forallb_app. simpl. rewrite andb_true_r. apply forallb_forall. intros b Hb.
    rewrite Forall_forall in Hd. unfold is_hex_text. by rewrite (Hd b) by by apply list_elem_of_In. }
  unfold read_key_file, read_ed25519_seed, read_to_string, read. rewrite Hf. simpl.
  rewrite Hu, Ht. simpl. rewrite trim_line, hex_decode_encode by done. simpl. by rewrite Hsk.
Qed.

Lemma clamp_scalar_length sk : length (clamp_scalar sk) = length sk.
Proof. unfold clamp_scalar. by rewrite !length_alter. Qed.

(** C34. A key survives the disk: when [keygen] succeeds, [pubkey] on the file
    prints the public key [keygen] printed, no other file has changed, and on Unix
    the file is readable by its owner only; elsewhere it has the protection of any
    new file, since the mode is set under [#[cfg(unix)]]. *)
Theorem keygen_then_pubkey flt seen fs path (os_rng : R) line fs' :
  keygen flt seen fs path os_rng = (Ok line, fs') ->
  exists pk_hex, line = lit "public key: " ++ pk_hex /\ pubkey None fs' path = Ok pk_hex /\
    mode <$> fs' !! path = Some (if cfg_unix then OWNER_ONLY else DEFAULT_MODE) /\ forall p, p <> path -> fs' !! p = fs !! p.
Proof.
  unfold keygen. pose proof (fill_bytes_length 32 os_rng) as Hl.
  destruct (fill_bytes 32 os_rng) as [sk0 rng]. simpl in Hl.
  set (sk := clamp_scalar sk0). assert (length sk = 32%nat) as Hsk by by unfold sk; rewrite clamp_scalar_length.
  pose proof (fun p => write_key_file_frame flt seen fs path sk p) as Hfr.
  destruct (write_key_file flt seen fs path sk) as [[[]|e] fs1] eqn:Hw; simpl; [|done].
  intros [= <- <-]. exists (hex_encode (public_key sk)). split; [done|].
  assert (fs1 = <[path := File (hex_encode sk ++ [x0a]) private_mode]> fs) as Hfs.
  { unfold write_key_file in Hw. do 2 (case_bool_decide; repeat case_match; try done). by simplify_eq. }
  assert (fs1 !! path = Some (File (hex_encode sk ++ [x0a]) private_mode)) as Hf
    by (rewrite Hfs; apply lookup_insert_eq).
  split; [|split].
  - unfold pubkey. by rewrite (proj1 (hex_line_reads _ _ _ _ Hsk Hf)).
  - by rewrite Hf.
  - intros p Hp. by apply (Hfr p); right.
Qed.

(** C35. A key file is never overwritten: whatever fails, and whatever another
    process does between the test and the creation, every existing file keeps
    its contents, and what [write_key_file] does create is the key file, on Unix
    readable by its owner only. *)
Theorem key_file_never_overwritten flt seen fs path sk p f :
  let fs' := (write_key_file flt seen fs path sk).2 in
  (fs !! p = Some f -> fs' !! p = Some f) /\
  (fs !! p = None -> fs' !! p = Some f -> p = path /\ mode f = if cfg_unix then OWNER_ONLY else DEFAULT_MODE).
Proof.
  pose proof (write_key_file_frame flt seen fs path sk p) as Hfr.
  destruct (write_key_file flt seen fs path sk) as [res fs']. destruct Hfr as [Hkeep Hmode]. simpl. split.
  - intros Hp. rewrite Hkeep; [done|]. left. by rewrite Hp.
  - intros Hp Hf. split; [|by eapply Hmode].
    destruct (decide (p = path)); [done|]. rewrite Hkeep in Hf by auto. congruence.
Qed.

(** An authority seed may be given in either form: 64 hexadecimal digits,
    with a newline or without, or 32 raw bytes that are not all hexadecimal
    text. *)
Theorem seed_file_forms fs path seed m :
  length seed = 32%nat ->
  (fs !! path = Some (File (hex_encode seed ++ [x0a]) m) \/
   fs !! path = Some (File (hex_encode seed) m) \/
   fs !! path = Some (File seed m) /\ forallb is_hex_text seed = false) ->
  read_ed25519_seed None fs path = Ok seed.
Proof.
  intros Hl [Hf|[Hf|[Hf Ht]]].
  - by eapply hex_line_reads.
  - pose proof (hex_encode_digits seed) as Hd.
    assert (hex_encode seed <> []) as Hne.
    { intros Hnil. pose proof (hex_encode_length seed) as Hs. rewrite Hnil, Hl in Hs. done. }
    assert (forallb is_hex_text (hex_encode seed) = true) as Ht.
    { apply forallb_forall. intros b Hb. rewrite Forall_forall in Hd. unfold is_hex_text.
      by rewrite (Hd b) by by apply list_elem_of_In. }
    unfold read_ed25519_seed, read. rewrite Hf. simpl. rewrite Ht, from_utf8_ascii.
    2:{ eapply Forall_impl; [exact Hd|]. apply hexdigit_ascii. }
    simpl. rewrite trim_digits, hex_decode_encode by done. simpl. by rewrite Hl.
  - unfold read_ed25519_seed, read. rewrite Hf. simpl. rewrite Ht. simpl. by rewrite Hl.
Qed.
End key_facts.

Section store_facts.
Context {Mb : Type} `{!MailboxStore Mb, !MailboxStoreLaws Mb}.

Definition last_fs (fs : gmap string file) (states : list (gmap string file)) : gmap string file :=
  default fs (last states).

(** Saving a mailbox touches its file and the temporary one only. *)
Lemma persist_mailbox_elsewhere flt fs path snap q fs' :
  fs' ∈ (persist_mailbox flt fs path snap).2 -> q <> path -> q <> with_extension path "tmp" ->
  fs' !! q = fs !! q.
Proof.
  intros Hin Hq Hq'. unfold persist_mailbox in Hin.
  repeat case_match; simpl in Hin; repeat (apply elem_of_cons in Hin as [->|Hin]);
    rewrite ?lookup_insert_ne, ?lookup_delete_ne by done; try done; by apply elem_of_nil in Hin.
Qed.

(** Each of a list of file systems loads the old mailbox or the new one. *)
Ltac all_states := repeat (apply Forall_cons; split; [by auto|]); by apply Forall_nil.

(** C40. The stored mailbox survives a crash during a save: when the store's path
    does not end in [.tmp] and no other save of it runs at the same time, at every
    instant of [persist_mailbox], and after it whatever failed, a restart loads
    either what the previous save left or the mailbox being saved; after a
    successful save it loads the latter. *)
Theorem mailbox_save_is_atomic flt fs path snap now :
  with_extension path "tmp" <> path ->
  let '(res, states) := persist_mailbox flt fs path snap in
  Forall (fun fs' => load_mailbox None fs' (Some path) now = load_mailbox None fs (Some path) now \/
                     load_mailbox None fs' (Some path) now = from_snapshot snap now) states /\
  (res = Ok tt -> load_mailbox None (last_fs fs states) (Some path) now = from_snapshot snap now).
Proof.
  intros Hne. unfold persist_mailbox.
  destruct (rmp_to_vec snap) as [bytes|] eqn:Hv; [|by split; [all_states|]].
  apply rmp_round_trip in Hv. set (tmp := with_extension path "tmp") in *.
  assert (forall f, load_mailbox None (<[tmp := f]> fs) (Some path) now =
                    load_mailbox None fs (Some path) now) as Hold.
  { intros f. simpl. by rewrite lookup_insert_ne. }
  assert (forall m, load_mailbox None (<[path := File bytes m]> (delete tmp fs)) (Some path) now =
                    from_snapshot snap now) as Hnew.
  { intros m. simpl. rewrite lookup_insert_eq. simpl. by rewrite Hv. }
  destruct (s_open flt); [by split; [all_states|]|].
  destruct (s_write flt) as [[n e]|]; [by split; [all_states|]|].
  destruct (s_rename flt); [by split; [all_states|]|].
  rewrite decide_False by done. split; [all_states|]. intros _. apply Hnew.
Qed.
End store_facts.

(** ** Concrete runs *)
Module KeysDemo.
#[local] Existing Instances unix_platform Toy.gotham counter_rng counter_rng_laws Base16.hex base16_laws.

Definition no_key_faults : key_faults := KeyFaults None None None.
Definition disk : gmap string file := {[ "notes"%string := File (lit "hello") 420 ]}.

Definition after_keygen : result io_error str * gmap string file :=
  keygen no_key_faults disk disk "relay.key" 9.

Definition key_line : str := match after_keygen.1 with Ok l => l | Err _ => [] end.

Lemma keygen_then_pubkey_witness :
  exists pk_hex, key_line = lit "public key: " ++ pk_hex /\
    pubkey None after_keygen.2 "relay.key" = Ok pk_hex /\
    mode <$> after_keygen.2 !! "relay.key"%string = Some OWNER_ONLY /\
    forall p, p <> "relay.key"%string -> after_keygen.2 !! p = disk !! p.
Proof.
  apply (@keygen_then_pubkey unix_platform _ _ _ _ _ _ no_key_faults disk disk "relay.key" 9 key_line after_keygen.2).
  vm_compute. reflexivity.
Defined.

(** Built for Windows, the same command leaves the protection to the system. *)
Example windows_key_mode :
  mode <$> (@keygen _ _ _ _ windows_platform no_key_faults disk disk "relay.key" 9).2 !! "relay.key"%string =
    Some DEFAULT_MODE.
Proof. vm_compute. reflexivity. Qed.

Lemma key_file_never_overwritten_witness :
  (write_key_file no_key_faults ∅ disk "notes" (Toy.sk 1)).2 !! "notes"%string =
  Some (File (lit "hello") 420).
Proof.
  apply (key_file_never_overwritten no_key_faults ∅ disk "notes" (Toy.sk 1) "notes"
           (File (lit "hello") 420)).
  reflexivity.
Defined.

Lemma seed_file_forms_witness :
  read_ed25519_seed None (<["seed"%string := File (Toy.sk 1) 384]> disk) "seed" = Ok (Toy.sk 1).
Proof.
  apply (seed_file_forms (<["seed"%string := File (Toy.sk 1) 384]> disk) "seed" (Toy.sk 1) 384);
    [reflexivity|]. right. right. split; reflexivity.
Defined.

(** A mailbox of one number, saved as one byte. *)
Definition store : MailboxStore Z := {|
  MailboxSnapshot := byte;
  with_defaults := 0;
  from_snapshot := fun b _ => byte_to_Z b;
  snapshot := byte_of_Z;
  prune_expired := fun mb _ => (0%nat, mb);
  rmp_to_vec := fun b => Some [b];
  rmp_from_slice := fun l => head l;
|}.
#[local] Existing Instance store.

Lemma store_laws : MailboxStoreLaws Z.
Proof. split. by intros s b [= <-]. Qed.

Lemma mailbox_save_is_atomic_witness :
  let '(res, states) := persist_mailbox (StoreFaults None None None) disk "box.bin" x07 in
  Forall (fun fs' => load_mailbox None fs' (Some "box.bin"%string) 0 =
                       load_mailbox None disk (Some "box.bin"%string) 0 \/
                     load_mailbox None fs' (Some "box.bin"%string) 0 = from_snapshot x07 0) states /\
  (res = Ok tt -> load_mailbox None (last_fs disk states) (Some "box.bin"%string) 0 = from_snapshot x07 0).
Proof.
  apply (@mailbox_save_is_atomic Z store store_laws (StoreFaults None None None) disk "box.bin" x07 0).
  vm_compute. discriminate.
Defined.
End KeysDemo.
