(* ===== verification/Doctor.v ===== *)
(** * Is this relay used? ([main.rs], [doctor] and the self-check)

    [doctor] asks every authority for its directory and explains whether
    clients will pick the relay; a running relay checks the same periodically
    and reports changes.  The network's answers are an argument; JSON parsing
    is [serde_json]'s and an interface. *)

From stdpp Require Import pretty.
From S2P Require Import Prelude Text.

#[local] Set Warnings "-register-all".

(** [serde_json::Value]; numbers are not looked at. *)
Inductive value : Type :=
| VNull
| VBool (b : bool)
| VNumber
| VString (s : str)
| VArray (l : list value)
| VObject (fields : list (str * value)).

Class Json := { json_from_str : str -> option value }.

(** [Value::get] with a string, and the conversions. *)
Fixpoint assoc (k : str) (l : list (str * value)) : option value :=
  match l with
  | [] => None
  | (k', v) :: l => if decide (k = k') then Some v else assoc k l
  end.

Definition get (k : str) (v : value) : option value :=
  match v with VObject fields => assoc k fields | _ => None end.

Definition as_str (v : value) : option str := match v with VString s => Some s | _ => None end.
Definition as_bool (v : value) : option bool := match v with VBool b => Some b | _ => None end.
Definition as_array (v : value) : option (list value) := match v with VArray l => Some l | _ => None end.

Definition DEFAULT_AUTHORITIES : list str :=
  [lit "http://144.24.205.188:8443"; lit "http://84.235.232.196:8443"; lit "http://84.235.228.107:8443"].

Record AuthorityView : Type := mkView {
  url : str;
  reachable : bool;
  listed : bool;
  tier : option str;
  operator : option str;
  addr : option str;
  rendezvous_capable : bool;
}.

(** The answer to a GET: [None] if the request fails, [Some None] if the body
    cannot be read. *)
Definition answers : Type := str -> option (option str).

Section doctor.
Context `{!Json}.

(** The loop over the relays of a directory, up to the first match. *)
Fixpoint find_relay (pk_hex : str) (relays : list value) : option value :=
  match relays with
  | [] => None
  | r :: relays =>
      if decide (get "id_pubkey_hex" r ≫= as_str = Some pk_hex) then Some r
      else find_relay pk_hex relays
  end.

Definition directory_relays (doc : value) : list value :=
  default [] ((get "doc" doc ≫= get "relays") ≫= as_array).

(** [client_ok] is whether the HTTP client could be built. *)
Definition ask_authority (client_ok : bool) (net : answers) (u pk_hex : str) : AuthorityView :=
  let view := mkView u false false None None None false in
  if negb client_ok then view else
  match net (u ++ lit "/directory") with
  | Some (Some body) =>
      let view := mkView u true false None None None false in
      match json_from_str body with
      | None => view
      | Some doc =>
          match find_relay pk_hex (directory_relays doc) with
          | None => view
          | Some r =>
              mkView u true true (get "tier" r ≫= as_str) (get "operator" r ≫= as_str)
                (get "addr" r ≫= as_str) (default false (get "rendezvous_capable" r ≫= as_bool))
          end
      end
  | _ => view
  end.

Definition is_listed : AuthorityView -> Prop := fun v => listed v = true.

(** ** The report

    The lines [run_doctor] prints, and its exit status; [None] is the panic of
    indexing an empty list. *)
Definition number (n : nat) : str := lit (pretty n).

(** [{:<32}]: filled with spaces on the right, counting characters. *)
Definition chars (s : str) : nat :=
  length (List.filter (fun b => negb (Z.land (byte_to_Z b) 192 =? 128)) s).
Definition pad_right (n : nat) (s : str) : str := s ++ repeat x20 (n - chars s).

Definition authority_line (v : AuthorityView) : str :=
  let state := if negb (reachable v) then lit "INJOIGNABLE"
               else if listed v then lit "vous connait" else lit "ne vous connait PAS" in
  lit "  " ++ pad_right 32 (url v) ++ lit " " ++ state.

Definition overview (pk_hex : str) (views : list AuthorityView) : list str :=
  [lit "Relais " ++ pk_hex; []; lit "Autorites interrogees :"] ++ map authority_line views ++ [[]].

Definition partial_notice (unreachable : nat) : list str :=
  if (unreachable =? 0)%nat then []
  else [lit "  " ++ number unreachable ++ lit " autorite(s) injoignable(s) : le diagnostic est partiel.";
        lit "  Verifiez votre connexion sortante avant de conclure.";
        []].

Definition not_used (n quorum : nat) : list str :=
  [lit "VERDICT : ce relais N'EST PAS UTILISE.";
   [];
   lit "  " ++ number n ++ lit " autorite(s) vous listent, il en faut " ++ number quorum ++ lit ". Les applications";
   lit "  n'acceptent un relais que lorsqu'un quorum d'autorites l'a atteste,";
   lit "  donc en l'etat aucun message ne passera par vous.";
   []] ++
  if (n =? 0)%nat then
    map lit
      ["  Aucune autorite ne vous connait. Les causes, par frequence :";
       "    1. Votre port UDP n'est pas joignable depuis l'exterieur.";
       "       Sur un VPS, pensez au pare-feu du FOURNISSEUR (groupe de";
       "       securite / security list), pas seulement a celui de la machine.";
       "       Derriere une box : relancez l'installeur avec GOTHAM_RENDEZVOUS=on,";
       "       aucune redirection de port n'est alors necessaire.";
       "    2. Le service ne tourne pas : systemctl status 'gotham-relay-*'";
       "    3. Enrolement refuse : journalctl -u 'gotham-relay-*' | grep -i reject"]%string
  else
    map lit
      ["  Certaines autorites vous voient et d'autres non : l'enrolement";
       "  n'a ete fait qu'aupres d'une partie d'entre elles. Relancez";
       "  l'installeur, il les contacte toutes."]%string.

Definition seen_as (n total quorum : nat) (sample : AuthorityView) : list str :=
  [lit "Vu par " ++ number n ++ lit " autorite(s) sur " ++ number total ++ lit " (quorum " ++ number quorum ++ lit ") :";
   lit "  adresse            : " ++ default (lit "?") (addr sample);
   lit "  role               : " ++ default (lit "?") (tier sample);
   lit "  point de rendez-vous : " ++ (if rendezvous_capable sample then lit "oui" else lit "non");
   lit "  operateur          : " ++ default (lit "AUCUN") (operator sample);
   []].

Definition never_chosen : list str :=
  map lit
    ["VERDICT : ce relais NE SERA JAMAIS CHOISI.";
     "";
     "  Il est bien enrole, mais sans etiquette d'operateur. La selection";
     "  de chemin refuse deux sauts dont elle ne peut pas PROUVER qu'ils";
     "  appartiennent a des operateurs differents, donc un relais sans";
     "  etiquette n'entre dans aucun chemin.";
     "";
     "  Relancez l'installeur, ou ajoutez --operator <votre-nom> au service."]%string.

Definition works : list str :=
  map lit
    ["VERDICT : ce relais fonctionne et peut acheminer du trafic.";
     "";
     "  Merci : chaque relais independant agrandit la foule dans laquelle";
     "  chaque message se fond."]%string.

(** What follows the overview. *)
Definition diagnose (views : list AuthorityView) (quorum : nat) : list str * option Z :=
  let listed := filter is_listed views in
  let n := length listed in
  if (n <? quorum)%nat then (not_used n quorum, Some 1)
  else
    match listed with
    | [] => ([], None)
    | sample :: _ =>
        let seen := seen_as n (length views) quorum sample in
        match operator sample with
        | None => (seen ++ never_chosen, Some 1)
        | Some _ => (seen ++ works, Some 0)
        end
    end.

Definition run_doctor (client_ok : str -> bool) (net : answers) (pk_hex : str)
    (authorities : list str) (quorum : nat) : list str * option Z :=
  let views := map (fun u => ask_authority (client_ok u) net u pk_hex) authorities in
  let unreachable := length (List.filter (fun v => negb (reachable v)) views) in
  let '(verdict, code) := diagnose views quorum in
  (overview pk_hex views ++ partial_notice unreachable ++ verdict, code).

(** The command: without [--authority-url] the built-in authorities are asked. *)
Definition doctor_authorities (authority_url : list str) : list str :=
  match authority_url with [] => DEFAULT_AUTHORITIES | _ => authority_url end.
End doctor.

(** ** The self-check *)
Definition QUORUM : nat := 2.

(** One pass over the authorities: how many list the key, how many answered. *)
Fixpoint poll (net : answers) (pk_hex : str) (urls : list str) : nat * nat :=
  match urls with
  | [] => (0, 0)%nat
  | u :: urls =>
      let '(seen, asked) := poll net pk_hex urls in
      match net (u ++ lit "/directory") with
      | None => (seen, asked)
      | Some None => (seen, S asked)
      | Some (Some body) => (if contains body pk_hex then S seen else seen, S asked)
      end
  end.

(** One period: the report it makes, if any, and the new [was_listed]. *)
Definition watch_period (net : answers) (pk_hex : str) (urls : list str) (was_listed : option bool)
    : option bool * option bool :=
  let '(seen, asked) := poll net pk_hex urls in
  if (asked =? 0)%nat then (None, was_listed) else
  let listed := (QUORUM <=? seen)%nat in
  if decide (was_listed = Some listed) then (None, was_listed)
  else (Some listed, Some listed).

(** The reports over a sequence of periods. *)
Fixpoint watch_periods (pk_hex : str) (urls : list str) (was_listed : option bool)
    (nets : list answers) : list bool :=
  match nets with
  | [] => []
  | net :: nets =>
      let '(report, was_listed) := watch_period net pk_hex urls was_listed in
      match report with
      | Some b => b :: watch_periods pk_hex urls was_listed nets
      | None => watch_periods pk_hex urls was_listed nets
      end
  end.

(** Nothing is known at first; without an HTTP client nothing is checked. *)
Definition watch_own_listing (client_ok : bool) (pk_hex : str) (urls : list str)
    (nets : list answers) : list bool :=
  if client_ok then watch_periods pk_hex urls None nets else [].

(** ** Theorems *)
Section doctor_facts.
Context `{!Json}.

(** The entry an authority publishes for a key: the first one of its directory
    with that [id_pubkey_hex]. *)
Definition published (net : answers) (pk_hex u : str) : option value :=
  body ← net (u ++ lit "/directory") ≫= id;
  doc ← json_from_str body;
  find_relay pk_hex (directory_relays doc).

Definition has_operator (r : value) : Prop := is_Some (get "operator" r ≫= as_str).

Lemma ask_authority_view net u pk_hex :
  let v := ask_authority true net u pk_hex in
  reachable v = bool_decide (is_Some (net (u ++ lit "/directory") ≫= id)) /\
  listed v = bool_decide (is_Some (published net pk_hex u)) /\
  operator v = (r ← published net pk_hex u; get "operator" r ≫= as_str).
Proof.
  unfold ask_authority, published. simpl.
  destruct (net (u ++ lit "/directory")) as [[body|]|]; simpl; [|done..].
  destruct (json_from_str body) as [doc|]; simpl; [|done].
  by destruct (find_relay pk_hex (directory_relays doc)).
Qed.

(** The entries the authorities publish, in the order they are asked. *)
Definition entries (net : answers) (pk_hex : str) (urls : list str) : list value :=
  omap (published net pk_hex) urls.

Lemma listed_views net pk_hex urls :
  let listed := filter is_listed (map (fun u => ask_authority true net u pk_hex) urls) in
  map operator listed = map (fun r => get "operator" r ≫= as_str) (entries net pk_hex urls).
Proof.
  unfold entries. induction urls as [|u urls IH]; simpl in *; [done|].
  destruct (ask_authority_view net u pk_hex) as (_ & Hl & Ho). rewrite filter_cons.
  destruct (published net pk_hex u) as [r|].
  - rewrite decide_True by exact Hl. simpl. by rewrite Ho, IH.
  - rewrite decide_False by (unfold is_listed; by rewrite Hl). exact IH.
Qed.

Definition all_views (net : answers) (pk_hex : str) (urls : list str) : list AuthorityView :=
  map (fun u => ask_authority true net u pk_hex) urls.

Lemma diagnose_code net pk_hex urls quorum :
  let found := entries net pk_hex urls in
  let code := (diagnose (all_views net pk_hex urls) quorum).2 in
  (code = Some 0 <-> (quorum <= length found)%nat /\ exists r, head found = Some r /\ has_operator r) /\
  (code = None <-> quorum = 0%nat /\ found = []) /\
  (code <> Some 0 -> code <> None -> code = Some 1).
Proof.
  intros found code. unfold code, diagnose. clear code.
  pose proof (listed_views net pk_hex urls) as Hl. fold found in Hl. simpl in Hl.
  set (l := filter is_listed _) in *.
  assert (length l = length found) as Hlen by (apply (f_equal length) in Hl; by rewrite !length_map in Hl).
  destruct (Nat.ltb_spec (length l) quorum) as [Hlt|Hge].
  { simpl. split_and!; [split; [done|]|split; [done|]|done].
    - intros [? _]. lia.
    - intros [-> _]. lia. }
  destruct l as [|v l], found as [|r found]; try discriminate Hl; simpl in *.
  - split_and!; [|split; [split; [lia|done]|done]|done]. split; [done|]. intros [_ (? & ? & _)]. done.
  - injection Hl as Hop _. unfold has_operator. rewrite Hop.
    destruct (get "operator" r ≫= as_str) as [o|] eqn:Ho; simpl.
    + split_and!; [split; [intros _|done]|split; [done|by intros [??]]|done].
      split; [lia|]. exists r. by rewrite Ho.
    + split_and!; [split; [done|]|split; [done|by intros [??]]|done].
      intros [_ (r' & [= <-] & [x Hx])]. by rewrite Ho in Hx.
Qed.

(** The last line of a report. *)
Lemma last_line (l1 l2 : list str) x : last l2 = Some x -> last (l1 ++ l2) = Some x.
Proof. intros Hx. by rewrite last_app, Hx. Qed.

Lemma works_last l : works `suffix_of` l -> last l = Some (lit "  chaque message se fond.").
Proof. intros [k ->]. by apply last_line. Qed.

Lemma not_used_last n quorum :
  last (not_used n quorum) =
  Some (lit (if (n =? 0)%nat
             then "    3. Enrolement refuse : journalctl -u 'gotham-relay-*' | grep -i reject"
             else "  l'installeur, il les contacte toutes.")).
Proof. unfold not_used. by destruct (n =? 0)%nat. Qed.

Lemma preamble_last pk_hex views n : last (overview pk_hex views ++ partial_notice n) = Some [].
Proof.
  unfold overview, partial_notice. destruct (n =? 0)%nat; [|by apply last_line].
  rewrite app_nil_r, app_assoc. by apply last_line.
Qed.

Lemma works_line pk_hex views n quorum :
  works `suffix_of` (overview pk_hex views ++ partial_notice n ++ (diagnose views quorum).1) <->
  (diagnose views quorum).2 = Some 0.
Proof.
  unfold diagnose. destruct (_ <? quorum)%nat; [|destruct (filter is_listed views) as [|v l]]; cbn [fst snd].
  - split; [|done]. rewrite app_assoc. intros Hw%works_last.
    erewrite last_line in Hw by apply not_used_last. by destruct (_ =? 0)%nat.
  - split; [|done]. rewrite app_nil_r. intros Hw%works_last. by rewrite preamble_last in Hw.
  - destruct (operator v); cbn [fst snd]; rewrite !app_assoc.
    + split; [done|]. intros _. by eexists.
    + split; [|done]. intros Hw%works_last. by erewrite last_line in Hw by reflexivity.
Qed.

(** C36. The diagnosis: the command reports success exactly when a quorum of
    the authorities publishes the relay and the first of those entries names
    an operator; it fails with status 1 otherwise, except that a quorum of
    zero with no entry at all makes it panic; and the report ends with the
    verdict that the relay works exactly when it succeeds. *)
Theorem doctor_verdict net pk_hex urls quorum :
  let found := entries net pk_hex urls in
  let '(lines, code) := run_doctor (fun _ => true) net pk_hex urls quorum in
  (code = Some 0 <-> (quorum <= length found)%nat /\ exists r, head found = Some r /\ has_operator r) /\
  (code = None <-> quorum = 0%nat /\ found = []) /\
  (code <> Some 0 -> code <> None -> code = Some 1) /\
  (works `suffix_of` lines <-> code = Some 0).
Proof.
  intros found. unfold run_doctor. change (map _ urls) with (all_views net pk_hex urls).
  pose proof (diagnose_code net pk_hex urls quorum) as (H1 & H2 & H3).
  pose proof (works_line pk_hex (all_views net pk_hex urls)
    (length (List.filter (fun v => negb (reachable v)) (all_views net pk_hex urls))) quorum) as H4.
  destruct (diagnose _ quorum) as [verdict code]. done.
Qed.

(** A status report each time the status changes. *)
Fixpoint changes (was : option bool) (l : list bool) : list bool :=
  match l with
  | [] => []
  | b :: l => if decide (was = Some b) then changes was l else b :: changes (Some b) l
  end.

(** What a period finds out: nothing if no authority answers. *)
Definition status (pk_hex : str) (urls : list str) (net : answers) : option bool :=
  let lists u := match net (u ++ lit "/directory") with
                 | Some (Some body) => contains body pk_hex
                 | _ => false
                 end in
  if existsb (fun u => bool_decide (is_Some (net (u ++ lit "/directory")))) urls
  then Some (QUORUM <=? length (List.filter lists urls))%nat else None.

Lemma poll_spec net pk_hex urls :
  poll net pk_hex urls =
  (length (List.filter (fun u => match net (u ++ lit "/directory") with
                                 | Some (Some body) => contains body pk_hex
                                 | _ => false
                                 end) urls),
   length (List.filter (fun u => bool_decide (is_Some (net (u ++ lit "/directory")))) urls)).
Proof.
  induction urls as [|u urls IH]; simpl; [done|]. rewrite IH.
  destruct (net (u ++ lit "/directory")) as [[body|]|]; simpl; [|done..].
  by destruct (contains body pk_hex).
Qed.

Lemma filter_none {A} (f : A -> bool) l : existsb f l = negb (length (List.filter f l) =? 0)%nat.
Proof. induction l as [|x l IH]; simpl; [done|]. by destruct (f x). Qed.

Lemma watch_periods_changes pk_hex urls was nets :
  watch_periods pk_hex urls was nets = changes was (omap (status pk_hex urls) nets).
Proof.
  revert was. induction nets as [|net nets IH]; intros was; simpl; [done|].
  unfold watch_period, status. rewrite poll_spec, filter_none. destruct (_ =? 0)%nat; simpl; [apply IH|].
  case_decide; simpl; by rewrite IH.
Qed.

(** The self-check reports changes only: its reports are the successive
    statuses (a quorum of authorities lists the key, or not) with repetitions
    left out, and periods without any answer count for nothing. *)
Theorem watch_reports_changes pk_hex urls nets :
  watch_own_listing true pk_hex urls nets = changes None (omap (status pk_hex urls) nets).
Proof. apply watch_periods_changes. Qed.
End doctor_facts.

(** ** Concrete runs *)
Module DoctorDemo.
(** A parser for two documents: with an operator and without. *)
Definition entry (op : list (str * value)) : value :=
  VObject ((lit "id_pubkey_hex", VString (lit "ab12")) :: (lit "tier", VString (lit "mix")) :: op).

Definition document (r : value) : value :=
  VObject [(lit "doc", VObject [(lit "relays", VArray [VNull; r])])].

#[local] Instance json : Json := {|
  json_from_str := fun s =>
    if decide (s = lit "named ab12") then Some (document (entry [(lit "operator", VString (lit "me"))]))
    else if decide (s = lit "anonymous ab12") then Some (document (entry []))
    else None
|}.

(** Authority [a] publishes an entry with an operator, [b] one without, [c] is
    down and [d] answers nonsense. *)
Definition network : answers := fun u =>
  if decide (u = lit "a/directory") then Some (Some (lit "named ab12"))
  else if decide (u = lit "b/directory") then Some (Some (lit "anonymous ab12"))
  else if decide (u = lit "d/directory") then Some (Some (lit "?"))
  else None.

Definition doctor (urls : list string) (quorum : nat) : list str * option Z :=
  run_doctor (fun _ => true) network (lit "ab12") (map lit urls) quorum.

Example doctor_cases :
  map (fun c => (doctor c.1 c.2).2)
    [(["a"; "b"; "c"], 2%nat); (["b"; "a"], 2%nat); (["a"; "c"; "d"], 2%nat); (["c"; "d"], 1%nat);
     (["c"], 0%nat)]%string =
  [Some 0; Some 1; Some 1; Some 1; None].
Proof. vm_compute. reflexivity. Qed.

Example doctor_report :
  (doctor ["c"; "d"]%string 1).1 =
  map lit
    ["Relais ab12"; ""; "Autorites interrogees :";
     "  c                                INJOIGNABLE";
     "  d                                ne vous connait PAS"; "";
     "  1 autorite(s) injoignable(s) : le diagnostic est partiel.";
     "  Verifiez votre connexion sortante avant de conclure."; "";
     "VERDICT : ce relais N'EST PAS UTILISE."; "";
     "  0 autorite(s) vous listent, il en faut 1. Les applications";
     "  n'acceptent un relais que lorsqu'un quorum d'autorites l'a atteste,";
     "  donc en l'etat aucun message ne passera par vous."; "";
     "  Aucune autorite ne vous connait. Les causes, par frequence :";
     "    1. Votre port UDP n'est pas joignable depuis l'exterieur.";
     "       Sur un VPS, pensez au pare-feu du FOURNISSEUR (groupe de";
     "       securite / security list), pas seulement a celui de la machine.";
     "       Derriere une box : relancez l'installeur avec GOTHAM_RENDEZVOUS=on,";
     "       aucune redirection de port n'est alors necessaire.";
     "    2. Le service ne tourne pas : systemctl status 'gotham-relay-*'";
     "    3. Enrolement refuse : journalctl -u 'gotham-relay-*' | grep -i reject"]%string.
Proof. vm_compute. reflexivity. Qed.

Example watch_demo :
  watch_own_listing true (lit "ab12") [lit "a"; lit "b"]
    [fun _ => None; network; network; (fun _ => Some None); network] = [true; false; true].
Proof. vm_compute. reflexivity. Qed.
End DoctorDemo.
