(* ===== verification/Boot.v ===== *)
(** * Starting and stopping the daemon ([main.rs], [run] and [sign-directory])

    [run] reads the key, builds the relay from its flags, decides how to be
    reached, starts the enrolment, the mailbox and the gossip, and serves until
    a signal; then it saves its state.  Each step may refuse the
    configuration.  The model gives the configuration the services are
    started with, or the error. *)

From S2P Require Import Prelude Text Net Fs F64 Rand Gotham Process Enroll Keys.
From S2P Require Delay RateLimit Replay ReplayPersist.

Definition UPNP_LEASE_SECS : Z := 3600.

(** The fields of [Cmd::Run]. *)
Record RunArgs : Type := mkRunArgs {
  a_key_file : string;
  a_listen_port : Z;
  a_listen_host : str;
  a_delay_micros : Z;
  a_replay_size : nat;
  a_replay_ttl_secs : Z;
  a_replay_cache_path : option string;
  a_strict_header_v3 : bool;
  a_max_pps : f64;
  a_max_bytes_per_day : Z;
  a_authority_url : option str;
  a_extra_authority_url : list str;
  a_advertise_addr : option str;
  a_no_upnp : bool;
  a_enroll_token : option str;
  a_tier : str;
  a_country : option str;
  a_operator : option str;
  a_heartbeat_secs : Z;
  a_mailbox : bool;
  a_mailbox_store : option string;
  a_allow_unauthenticated_mailbox_fetch : bool;
  a_gossip : bool;
  a_advert_key : option string;
  a_admission_cert : option string;
  a_authority_set : option string;
  a_gossip_seeds : list str;
  a_gossip_caps : str;
  a_gossip_interval_secs : Z;
  a_rendezvous_key : option str;
  a_rendezvous_addr : option str;
  a_rendezvous_capable : bool;
  a_authority_pop_key : option str;
}.

Definition invalid_input (m : string) : io_error := IoError InvalidInput m.

(** A message that quotes what the user gave, between back quotes. *)
Definition quoting (before : string) (s : str) (after : string) : string :=
  unlit (lit before ++ s ++ lit after).

Definition parse_listen_addr (host : str) (port : Z) : result io_error SocketAddr :=
  ip ← ok_or (invalid_input (quoting "--listen-host must be a numeric IP (v4/v6), got `" host "`"))
         (parse_ip (trim host));
  Ok (ip, port).

(** The environment of a start: the disk, the clocks and the router.  [upnp]
    is [upnp_autoconfigure] of the absent [nat] module, with the external
    address in text form. *)
Record host : Type := mkHost {
  h_fs : gmap string file;
  h_fault : string -> option io_error;
  h_instant : Z;
  h_t1 : Z;
  h_t2 : Z;
  h_wall : option Z;
  h_upnp : Z -> Z -> result string str;
}.

(** The time at which the replay cache is loaded. *)
Definition h_unix (h : host) : Z := ReplayPersist.now_unix (h_wall h).

Section relay_setup.
Context `{!Platform, !Gotham, !Hex}.

(** The relay the flags describe. *)
Definition boot_relay (h : host) (a : RunArgs) (sk : list byte) : Relay :=
  let relay := with_rate_limit
    (Process.new sk (a_replay_size a) (from_secs (a_replay_ttl_secs a)) (a_delay_micros a)
       (h_t1 h) (h_t2 h))
    (a_max_pps a) (a_max_bytes_per_day a) (h_t1 h) (h_t2 h) in
  let relay := if a_strict_header_v3 a then strict_header_v3 relay else relay in
  match a_replay_cache_path a with
  | Some path => with_replay_persistence (h_fault h path) (h_fs h) (h_instant h) (h_unix h) relay path
  | None => relay
  end.

(** A malformed key counts as none. *)
Definition authority_pop_pk_of (a : RunArgs) : option (list byte) :=
  hex ← a_authority_pop_key a;
  bytes ← hex_decode hex;
  try_array 32 bytes.

(** The address to announce. *)
Definition choose_advertise (h : host) (a : RunArgs) : result io_error str :=
  match a_rendezvous_key a with
  | Some _ => Ok []
  | None =>
      match a_advertise_addr a with
      | Some addr =>
          match parse_socket addr with
          | None => Err (invalid_input (quoting "--advertise-addr must be ip:port, got `" addr "`"))
          | Some _ => Ok addr
          end
      | None =>
          if negb (a_no_upnp a) then
            map_err (fun e => IoError OtherKind (e +:+ ". Set --advertise-addr <ip:port> manually (public IP or a port-forwarded mapping), or pass --no-upnp to skip this."))
              (h_upnp h (a_listen_port a) UPNP_LEASE_SECS)
          else Err (invalid_input
            "--advertise-addr is required with --authority-url (UPnP disabled via --no-upnp)")
      end
  end.

Definition enroll_config (h : host) (a : RunArgs) (sk : list byte) (url : str)
    : result io_error EnrollConfig :=
  advertise ← choose_advertise h a;
  tier ← map_err (fun e => IoError OtherKind (unlit e)) (parse_tier (a_tier a));
  Ok (mkEnrollConfig url (a_extra_authority_url a) advertise (hex_encode (public_key sk)) tier
        (a_enroll_token a) (a_country a) (a_operator a) (from_secs (Z.max (a_heartbeat_secs a) 1))
        (a_rendezvous_key a) (a_rendezvous_capable a) (a_mailbox a) sk (authority_pop_pk_of a)).

(** [--rendezvous-key] and [--rendezvous-addr]: dial that relay, or listen. *)
Definition rendezvous_dial (a : RunArgs) : result io_error (option (SocketAddr * list byte)) :=
  match a_rendezvous_key a, a_rendezvous_addr a with
  | Some k, Some addr =>
      r_pk ← ok_or (invalid_input "--rendezvous-key must be 32-byte hex") (hex_decode k ≫= try_array 32);
      r_addr ← ok_or (invalid_input "--rendezvous-addr must be ip:port") (parse_socket addr);
      Ok (Some (r_addr, r_pk))
  | None, None => Ok None
  | _, _ => Err (invalid_input "--rendezvous-key and --rendezvous-addr must be set together")
  end.
End relay_setup.

(** ** Gossip *)

(** [crypto_gotham_directory] and the absent [gossip] module. *)
Class GossipApi (AS : Type) := {
  AdmissionCert : Type;
  authority_set_from_json : list byte -> option AS;
  admission_cert_from_json : list byte -> option AdmissionCert;
}.

Inductive Capabilities : Type := CapEntry | CapMix | CapExit | CapAll.

Record GossipConfig {AS : Type} `{!GossipApi AS} : Type := mkGossipConfig {
  g_identity : list byte;
  g_kem_pubkey_hex : str;
  g_advertise_addr : str;
  g_capabilities : Capabilities;
  g_admission : AdmissionCert;
  g_noise_sk : list byte;
  g_bootstrap : list (SocketAddr * list byte);
}.

Arguments mkGossipConfig {_ _} _ _ _ _ _ _ _.

Section gossip_setup.
Context {AS : Type} `{!Gotham, !Hex, !GossipApi AS}.

(** [GossipNode::new]: the error, if it refuses the configuration. *)
Context (node_new : GossipConfig -> AS -> option string).

Definition parse_caps (s : str) : result io_error Capabilities :=
  if decide (s = "entry") then Ok CapEntry
  else if decide (s = "mix") then Ok CapMix
  else if decide (s = "exit") then Ok CapExit
  else if decide (s = "all") then Ok CapAll
  else Err (invalid_input (quoting "unknown --gossip-caps `" s "` (entry|mix|exit|all)")).

(** [ip:port@<kem-hex>] *)
Definition parse_seed (s : str) : result io_error (SocketAddr * list byte) :=
  '(addr_s, kem_s) ← ok_or (invalid_input (quoting "--gossip-seed `" s "` must be ip:port@<kem-hex>"))
                        (split_once x40 s);
  addr ← ok_or (invalid_input (quoting "bad --gossip-seed addr `" addr_s "`")) (parse_socket addr_s);
  kem ← ok_or (invalid_input "--gossip-seed kem is not hex") (hex_decode kem_s);
  kem ← ok_or (invalid_input "--gossip-seed kem must be 32 bytes") (try_array 32 kem);
  Ok (addr, kem).

Fixpoint parse_seeds (l : list str) : result io_error (list (SocketAddr * list byte)) :=
  match l with
  | [] => Ok []
  | s :: l => x ← parse_seed s; rest ← parse_seeds l; Ok (x :: rest)
  end.

(** The configuration of the node, the pinned authorities and the time between
    rounds.  Where a message ends with the text of a parser's error, that text
    is left out. *)
Definition build_gossip (h : host) (a : RunArgs) (sk : list byte)
    : result io_error (option (GossipConfig * AS * Z)) :=
  if negb (a_gossip a) then Ok None else
  advertise ← ok_or (invalid_input "--advertise-addr is required with --gossip") (a_advertise_addr a);
  advert_key ← ok_or (invalid_input "--advert-key is required with --gossip") (a_advert_key a);
  cert_path ← ok_or (invalid_input "--admission-cert is required with --gossip") (a_admission_cert a);
  set_path ← ok_or (invalid_input "--authority-set is required with --gossip") (a_authority_set a);
  identity ← read_ed25519_seed (h_fault h advert_key) (h_fs h) advert_key;
  set_bytes ← read (h_fault h set_path) (h_fs h) set_path;
  set ← ok_or (invalid_input "authority-set JSON") (authority_set_from_json set_bytes);
  cert_bytes ← read (h_fault h cert_path) (h_fs h) cert_path;
  admission ← ok_or (invalid_input "admission-cert JSON") (admission_cert_from_json cert_bytes);
  caps ← parse_caps (a_gossip_caps a);
  bootstrap ← parse_seeds (a_gossip_seeds a);
  let cfg := mkGossipConfig identity (hex_encode (public_key sk)) advertise caps admission sk bootstrap in
  match node_new cfg set with
  | Some e => Err (invalid_input e)
  | None => Ok (Some (cfg, set, from_secs (Z.max (a_gossip_interval_secs a) 5)))
  end.
End gossip_setup.

(** ** The daemon *)

(** How packets come in: over a tunnel to a rendezvous relay, or at a socket. *)
Inductive reach : Type :=
| Dial (addr : SocketAddr) (r_pk : list byte)
| Listen (addr : SocketAddr).

Record plan {AS : Type} `{!GossipApi AS} (Mb : Type) : Type := mkPlan {
  p_relay : Relay;
  p_sk : list byte;
  p_enroll : option EnrollConfig;
  p_watch : option (str * list str);
  p_mailbox : option Mb;
  p_allow_unauthenticated : bool;
  p_gossip : option (GossipConfig * AS * Z);
  p_reach : reach;
  p_authority_pop_pk : option (list byte);
}.
Arguments mkPlan {_ _ _} _ _ _ _ _ _ _ _ _.
Arguments p_relay {_ _ _} _.
Arguments p_sk {_ _ _} _.
Arguments p_enroll {_ _ _} _.
Arguments p_watch {_ _ _} _.
Arguments p_mailbox {_ _ _} _.
Arguments p_allow_unauthenticated {_ _ _} _.
Arguments p_gossip {_ _ _} _.
Arguments p_reach {_ _ _} _.
Arguments p_authority_pop_pk {_ _ _} _.

Section run.
Context {AS Mb : Type} `{!Platform, !Gotham, !Hex, !GossipApi AS, !MailboxStore Mb}.
Context (node_new : GossipConfig -> AS -> option string).

(** The first half of [run], up to the hosting of the mailbox.  The enrolment,
    the self-check and the upkeep of the mailbox run from here on, also when a
    later step refuses the configuration. *)
Record start : Type := mkStart {
  s_sk : list byte;
  s_relay : Relay;
  s_enroll : option EnrollConfig;
  s_mailbox : option Mb;
}.

Definition run_start (h : host) (a : RunArgs) : result io_error start :=
  sk ← read_key_file (h_fault h (a_key_file a)) (h_fs h) (a_key_file a);
  let relay := boot_relay h a sk in
  enroll ← match a_authority_url a with
           | Some url => Some <$> enroll_config h a sk url
           | None => Ok None
           end;
  let mb := if a_mailbox a
            then Some (load_mailbox (from_option (h_fault h) None (a_mailbox_store a)) (h_fs h)
                         (a_mailbox_store a) (Keys.now_unix (h_wall h)))
            else None in
  Ok (mkStart sk relay enroll mb).

(** What the self-check is started with. *)
Definition watched (cfg : EnrollConfig) : str * list str :=
  (kem_pubkey_hex cfg, authority_url cfg :: extra_authority_urls cfg).

(** [run] up to the point where it serves.  [unauth] is the global switch
    before; it is set only when the mailbox is hosted.  [handler_ok] is
    whether the mailbox handler could open its endpoint. *)
Definition run_setup (h : host) (unauth : bool) (handler_ok : result io_error unit) (a : RunArgs)
    : result io_error (plan Mb) :=
  s ← run_start h a;
  let unauth := if a_mailbox a then a_allow_unauthenticated_mailbox_fetch a else unauth in
  gossip ← build_gossip node_new h a (s_sk s);
  _ ← (if a_mailbox a then handler_ok else Ok tt);
  dial ← rendezvous_dial a;
  listen ← parse_listen_addr (a_listen_host a) (a_listen_port a);
  let r := match dial with Some (addr, pk) => Dial addr pk | None => Listen listen end in
  Ok (mkPlan (s_relay s) (s_sk s) (s_enroll s) (watched <$> s_enroll s) (s_mailbox s) unauth gossip r
        (authority_pop_pk_of a)).

(** The shutdown: the mailbox is saved, then the replay cache. *)
Definition shutdown_mailbox (mflt : store_faults) (a : RunArgs) (mb : option Mb)
    (fs : gmap string file) : gmap string file :=
  match mb, a_mailbox_store a with
  | Some mb, Some path => last_fs fs (persist_mailbox mflt fs path (snapshot mb)).2
  | _, _ => fs
  end.

Definition shutdown (mflt : store_faults) (rflt : ReplayPersist.write_faults) (a : RunArgs)
    (mb : option Mb) (r : Relay) (now now_unix : Z) (fs : gmap string file)
    : gmap string file :=
  let fs := shutdown_mailbox mflt a mb fs in
  match persist_replay rflt fs r now now_unix with
  | Some (_, fs) => fs
  | None => fs
  end.
End run.

(** ** Signing a directory *)
Record RelayJsonEntry : Type := mkEntry {
  node_id_hex : str;
  e_addr : str;
  capabilities : str;
  e_country : option str;
  asn : option Z;
  e_operator : option str;
  e_mailbox : bool;
}.

Record RelayDescriptor : Type := mkDescriptor {
  d_id_pubkey_hex : str;
  d_kem_pubkey_hex : str;
  d_addr : str;
  d_tier : RelayTier;
  d_country : option str;
  d_asn : option Z;
  d_operator : option str;
  d_uptime_pct : option f64;
  d_mailbox : bool;
  d_rendezvous : option str;
  d_rendezvous_capable : bool;
}.

Definition invalid_data (m : string) : io_error := IoError InvalidData m.

(** Relays that do everything are dealt to the tiers in turn. *)
Definition entry_tier (i : nat) (caps : str) : result io_error RelayTier :=
  if decide (caps = "entry") then Ok Entry
  else if decide (caps = "mix") then Ok Mix
  else if decide (caps = "exit") then Ok Exit
  else if decide (caps = "all" \/ caps = []) then
    Ok match (i mod 3)%nat with 0%nat => Entry | 1%nat => Mix | _ => Exit end
  else Err (invalid_data (quoting "unknown capability `" caps "` — use entry|mix|exit|all")).

Fixpoint descriptors_from (i : nat) (entries : list RelayJsonEntry)
    : result io_error (list RelayDescriptor) :=
  match entries with
  | [] => Ok []
  | e :: entries =>
      tier ← entry_tier i (capabilities e);
      rest ← descriptors_from (S i) entries;
      Ok (mkDescriptor (node_id_hex e) (node_id_hex e) (e_addr e) tier (e_country e) (asn e)
            (e_operator e) (Some (of_Z 100)) (e_mailbox e) None false :: rest)
  end.

(** [crypto_gotham::directory] signing and the JSON of the relay list. *)
Class DirectorySigning := {
  DirectoryDoc : Type;
  entries_from_json : str -> option (list RelayJsonEntry);
  doc_new : list RelayDescriptor -> Z -> option DirectoryDoc;
  sign_to_json : DirectoryDoc -> list byte -> option (list byte);
}.

Section sign.
Context `{!Hex, !DirectorySigning}.

(** Where the final [std::fs::write] fails: at the open, or after some bytes. *)
Definition sign_directory (fault : string -> option io_error)
    (wfault : option (option nat * io_error)) (fs : gmap string file)
    (authority_key relays output : string) (valid_secs : Z)
    : result io_error unit * gmap string file :=
  let signed :=
    seed ← read_ed25519_seed (fault authority_key) fs authority_key;
    raw ← read_to_string (fault relays) fs relays;
    entries ← ok_or (invalid_data "relays JSON") (entries_from_json raw);
    if (length entries <? 3)%nat then Err (invalid_data "need at least 3 relays for a working mixnet") else
    descriptors ← descriptors_from 0 entries;
    doc ← ok_or (IoError OtherKind "DirectoryDoc::new") (doc_new descriptors (from_secs valid_secs));
    ok_or (IoError OtherKind "SignedDirectory::sign") (sign_to_json doc seed) in
  match signed with
  | Err e => (Err e, fs)
  | Ok json =>
      let m := from_option mode DEFAULT_MODE (fs !! output) in
      match wfault with
      | Some (None, e) => (Err e, fs)
      | Some (Some n, e) => (Err e, <[output := File (take n json) m]> fs)
      | None => (Ok tt, <[output := File json m]> fs)
      end
  end.
End sign.

(** ** Theorems *)
Section boot_facts.
Context {AS Mb : Type} `{!Platform, !Gotham, !Hex, !GossipApi AS, !MailboxStore Mb}.
Context (node_new : GossipConfig -> AS -> option string).

Lemma boot_relay_booted h a sk :
  booted sk (a_replay_size a) (from_secs (a_replay_ttl_secs a)) (a_delay_micros a) (h_instant h)
    (boot_relay h a sk).
Proof.
  unfold boot_relay. destruct (a_replay_cache_path a) as [path|], (a_strict_header_v3 a).
  - pose proof (booted_strict _ _ _ _ _ _ (booted_limited _ _ _ _ _ _ (a_max_pps a) (a_max_bytes_per_day a)
      (h_t1 h) (h_t2 h) (booted_persistent sk (a_replay_size a) (from_secs (a_replay_ttl_secs a))
        (a_delay_micros a) (h_instant h) (h_fault h path) (h_fs h) (h_unix h) (h_t1 h) (h_t2 h) path))) as Hb.
    unfold with_replay_persistence in *. simpl in *. by destruct (ReplayPersist.load _ _ _ _ _ _).
  - pose proof (booted_limited _ _ _ _ _ _ (a_max_pps a) (a_max_bytes_per_day a)
      (h_t1 h) (h_t2 h) (booted_persistent sk (a_replay_size a) (from_secs (a_replay_ttl_secs a))
        (a_delay_micros a) (h_instant h) (h_fault h path) (h_fs h) (h_unix h) (h_t1 h) (h_t2 h) path)) as Hb.
    unfold with_replay_persistence in *. simpl in *. by destruct (ReplayPersist.load _ _ _ _ _ _).
  - apply booted_strict, booted_limited, booted_new.
  - apply booted_limited, booted_new.
Qed.

Lemma boot_relay_strict h a sk : accept_header_v2 (boot_relay h a sk) = negb (a_strict_header_v3 a).
Proof.
  unfold boot_relay, with_replay_persistence.
  destruct (a_replay_cache_path a), (a_strict_header_v3 a); simpl; try done;
    by destruct (ReplayPersist.load _ _ _ _ _ _).
Qed.

(** The announced address can be dialled, or there is none because the relay
    is reached through a rendezvous. *)
Definition announced_address (h : host) (a : RunArgs) (addr : str) : Prop :=
  (is_Some (a_rendezvous_key a) /\ addr = []) \/
  (a_rendezvous_key a = None /\ a_advertise_addr a = Some addr /\ is_Some (parse_socket addr)) \/
  (a_rendezvous_key a = None /\ a_advertise_addr a = None /\ a_no_upnp a = false /\
   h_upnp h (a_listen_port a) UPNP_LEASE_SECS = Ok addr).

Lemma choose_advertise_ok h a addr : choose_advertise h a = Ok addr -> announced_address h a addr.
Proof.
  unfold choose_advertise, announced_address. destruct (a_rendezvous_key a); [intros [= <-]; eauto|].
  destruct (a_advertise_addr a) as [s|].
  - destruct (parse_socket s) eqn:Hs; intros [= <-]. rewrite Hs. eauto 10.
  - destruct (a_no_upnp a); [done|]. simpl. destruct (h_upnp h _ _) eqn:Hu; intros [= <-]. eauto 10.
Qed.

(** How the daemon is reached follows the two rendezvous flags. *)
Definition reach_ok (a : RunArgs) (r : reach) : Prop :=
  match r with
  | Dial addr pk => exists k s, a_rendezvous_key a = Some k /\ a_rendezvous_addr a = Some s /\
      hex_decode k = Some pk /\ length pk = 32%nat /\ parse_socket s = Some addr
  | Listen addr => a_rendezvous_key a = None /\ a_rendezvous_addr a = None /\
      parse_ip (trim (a_listen_host a)) = Some addr.1 /\ addr.2 = a_listen_port a
  end.

Lemma reach_sound a dial listen :
  rendezvous_dial a = Ok dial -> parse_listen_addr (a_listen_host a) (a_listen_port a) = Ok listen ->
  reach_ok a match dial with Some (addr, pk) => Dial addr pk | None => Listen listen end.
Proof.
  unfold rendezvous_dial, parse_listen_addr. intros Hd Hl.
  apply result_bind_Ok in Hl as (ip & Hip & [= <-]).
  destruct (a_rendezvous_key a) as [k|] eqn:Hk, (a_rendezvous_addr a) as [s|] eqn:Hs; try done.
  - apply result_bind_Ok in Hd as (pk & Hpk & (addr & Haddr & [= <-])%result_bind_Ok).
    destruct (hex_decode k) as [b|] eqn:Hb; [|done]. simpl in Hpk. unfold try_array in Hpk.
    destruct (Nat.eqb_spec (length b) 32); [|done]. simpl in Hpk. simplify_eq.
    destruct (parse_socket s) eqn:Hps; [|done]. simpl in Haddr. simplify_eq. simpl. eauto 10.
  - simplify_eq. simpl. destruct (parse_ip _) eqn:Hi; [|done]. simpl in Hip. by simplify_eq.
Qed.

Lemma run_start_ok h a s :
  run_start h a = Ok s ->
  read_key_file (h_fault h (a_key_file a)) (h_fs h) (a_key_file a) = Ok (s_sk s) /\
  s_relay s = boot_relay h a (s_sk s) /\
  (is_Some (s_mailbox s) <-> a_mailbox a = true) /\
  match a_authority_url a with
  | Some url => exists cfg, enroll_config h a (s_sk s) url = Ok cfg /\ s_enroll s = Some cfg
  | None => s_enroll s = None
  end.
Proof.
  unfold run_start. intros (sk & Hsk & (en & Hen & [= <-])%result_bind_Ok)%result_bind_Ok.
  split; [done|]. split; [done|]. split; [simpl; destruct (a_mailbox a); by rewrite is_Some_alt|].
  simpl. destruct (a_authority_url a) as [url|]; [|by simplify_eq].
  destruct (enroll_config h a sk url) as [cfg|]; simplify_eq/=. eauto.
Qed.

Lemma run_setup_ok h unauth handler_ok a p :
  run_setup node_new h unauth handler_ok a = Ok p ->
  exists s dial listen, run_start h a = Ok s /\ rendezvous_dial a = Ok dial /\
    parse_listen_addr (a_listen_host a) (a_listen_port a) = Ok listen /\
    p_sk p = s_sk s /\ p_relay p = s_relay s /\ p_enroll p = s_enroll s /\ p_mailbox p = s_mailbox s /\
    p_watch p = watched <$> s_enroll s /\
    p_allow_unauthenticated p = (if a_mailbox a then a_allow_unauthenticated_mailbox_fetch a else unauth) /\
    p_reach p = match dial with Some (addr, pk) => Dial addr pk | None => Listen listen end.
Proof.
  unfold run_setup. intros (s & Hs & (g & _ & (u & _ & (dial & Hd & (l & Hl & [= <-])
    %result_bind_Ok)%result_bind_Ok)%result_bind_Ok)%result_bind_Ok)%result_bind_Ok.
  by exists s, dial, l.
Qed.

(** C33. A configuration the daemon accepts is consistent: its key is the one
    in the key file; the relay is a freshly started one with the requested
    cache, delay and header policy; it dials a rendezvous exactly when both
    rendezvous flags are given and well formed, and listens otherwise; and
    when it enrols, it announces the public key of that very secret, at a
    dialable address or none, with a heartbeat of at least a second, and the
    self-check looks for that key at every authority it is announced to. *)
Theorem run_setup_sound h unauth handler_ok a p :
  run_setup node_new h unauth handler_ok a = Ok p ->
  read_key_file (h_fault h (a_key_file a)) (h_fs h) (a_key_file a) = Ok (p_sk p) /\
  booted (p_sk p) (a_replay_size a) (from_secs (a_replay_ttl_secs a)) (a_delay_micros a) (h_instant h)
    (p_relay p) /\
  accept_header_v2 (p_relay p) = negb (a_strict_header_v3 a) /\
  reach_ok a (p_reach p) /\
  (is_Some (p_enroll p) <-> is_Some (a_authority_url a)) /\
  forall cfg, p_enroll p = Some cfg ->
    relay_sk cfg = p_sk p /\ kem_pubkey_hex cfg = hex_encode (public_key (p_sk p)) /\
    announced_address h a (advertise_addr cfg) /\ from_secs 1 <= heartbeat cfg /\
    p_watch p = Some (kem_pubkey_hex cfg, authority_url cfg :: extra_authority_urls cfg).
Proof.
  intros (s & dial & l & Hs & Hd & Hl & -> & -> & -> & _ & -> & _ & ->)%run_setup_ok.
  apply run_start_ok in Hs as (Hsk & -> & _ & Hen).
  split; [done|]. split; [apply boot_relay_booted|]. split; [apply boot_relay_strict|].
  split; [by apply reach_sound|].
  destruct (a_authority_url a) as [url|]; [|rewrite Hen; split; [split; by intros [? ?]|done]].
  destruct Hen as (cfg & Hc & ->). split; [split; eauto|]. intros cfg' [= <-]. unfold enroll_config in Hc.
  apply result_bind_Ok in Hc as (addr & Ha & (tr & _ & [= <-])%result_bind_Ok). simpl.
  split_and!; try done; [by apply choose_advertise_ok|]. unfold from_secs, NANOS_PER_SEC. lia.
Qed.
End boot_facts.

(** ** What a daemon announces *)
Section announcement_facts.
Context {AS Mb : Type} `{!Platform, !Gotham, !GothamLaws, !Hex, !HexLaws, !Enrollment, !EnrollmentLaws,
  !GossipApi AS, !MailboxStore Mb}.
Context (node_new : GossipConfig -> AS -> option string).

Lemma read_key_file_length fault fs path sk : read_key_file fault fs path = Ok sk -> length sk = 32%nat.
Proof.
  unfold read_key_file. intros (raw & _ & (bytes & _ & Hb)%result_bind_Ok)%result_bind_Ok.
  destruct (Nat.eqb_spec (length bytes) 32); simplify_eq/=. done.
Qed.

Lemma enroll_config_pop h a sk url cfg :
  enroll_config h a sk url = Ok cfg -> authority_pop_pk cfg = authority_pop_pk_of a /\
  relay_sk cfg = sk /\ kem_pubkey_hex cfg = hex_encode (public_key sk) /\ authority_url cfg = url.
Proof.
  unfold enroll_config. by intros (addr & _ & (tr & _ & [= <-])%result_bind_Ok)%result_bind_Ok.
Qed.

(** C30. The authority can check every announcement of a daemon started with
    its key: with [--authority-pop-key] every announcement to the primary
    authority carries a possession proof, whatever the authorities answered
    before, and that proof is the tag the authority computes from its own
    secret, the key the daemon announces (the public key of the secret in the
    key file) and the announcement it received. *)
Theorem announcements_verify h unauth handler_ok a p url asec clock envs delay turns k t cfg :
  run_setup node_new h unauth handler_ok a = Ok p ->
  a_authority_url a = Some url -> p_enroll p = Some cfg ->
  length asec = 32%nat -> a_authority_pop_key a = Some (hex_encode (public_key asec)) ->
  is_u64 (Enroll.now_unix clock) ->
  run_enrollment_loop true cfg clock envs = Some (delay, turns) -> turns !! k = Some t ->
  exists rq, head (t_requests t) = Some rq /\
    rq_url rq = trim_end_matches x2f url ++ lit "/enroll" /\
    f_pop_proof (view (rq_body rq)) =
      Some (hex_encode (pop_tag_v2 (x25519 asec (public_key (p_sk p))) (binding_hash (rq_body rq)))).
Proof.
  intros (s & dial & l & Hs & _ & _ & -> & _ & -> & _)%run_setup_ok Hurl Hcfg Ha Hpop Hn Hrun Hk.
  apply run_start_ok in Hs as (Hsk & _ & _ & Hen). rewrite Hurl in Hen.
  destruct Hen as (cfg' & Hen & Hs). assert (cfg' = cfg) as -> by congruence.
  apply enroll_config_pop in Hen as (Hpk & Hrsk & Hkem & Hu).
  assert (authority_pop_pk cfg = Some (public_key asec)) as Hpin.
  { rewrite Hpk. unfold authority_pop_pk_of. rewrite Hpop. simpl. rewrite hex_decode_encode. simpl.
    unfold try_array. by rewrite (proj2 (Nat.eqb_eq _ _) (public_key_length _ Ha)). }
  destruct (pinned_key_is_final cfg clock envs delay turns k t _ Hn Hpin Hrun Hk)
    as (rq & h' & now & Hhd & _ & Hrq & Hbody).
  exists rq. split; [done|]. split; [by rewrite Hrq, Hu|]. rewrite Hbody, <- Hrsk.
  apply possession_proof_verifies; rewrite ?Hrsk; [done|by eapply read_key_file_length|done].
Qed.
End announcement_facts.

Section sign_facts.
Context `{!Hex, !DirectorySigning}.

Lemma descriptors_lookup i entries ds k e :
  descriptors_from i entries = Ok ds -> entries !! k = Some e ->
  exists d, ds !! k = Some d /\ d_id_pubkey_hex d = node_id_hex e /\
    entry_tier (i + k) (capabilities e) = Ok (d_tier d).
Proof.
  revert i ds k. induction entries as [|e0 entries IH]; intros i ds k; simpl; [done|].
  intros (tr & Ht & (rest & Hr & [= <-])%result_bind_Ok)%result_bind_Ok Hk.
  destruct k as [|k]; simpl in Hk.
  - simplify_eq. rewrite Nat.add_0_r. eexists. split; [done|]. done.
  - destruct (IH (S i) rest k Hr Hk) as (d & Hd & Hid & Htier). exists d.
    rewrite Nat.add_succ_r. done.
Qed.

(** A directory of relays that do everything serves every tier: when all
    entries say [all] (or nothing) and there are at least three, the signed
    descriptors contain an entry, a mix and an exit relay, and every relay
    listed appears under its own key. *)
Theorem signed_directory_covers_tiers entries ds :
  (3 <= length entries)%nat -> Forall (fun e => capabilities e = lit "all" \/ capabilities e = []) entries ->
  descriptors_from 0 entries = Ok ds ->
  (forall t, exists d, d ∈ ds /\ d_tier d = t) /\
  forall e, e ∈ entries -> exists d, d ∈ ds /\ d_id_pubkey_hex d = node_id_hex e.
Proof.
  intros Hlen Hall Hds. rewrite Forall_forall in Hall. split.
  - intros t.
    assert (exists k : nat, (k < 3)%nat /\ forall caps, caps = lit "all" \/ caps = [] -> entry_tier k caps = Ok t)
      as (k & Hk & Hcaps).
    { destruct t; [exists 0%nat|exists 1%nat|exists 2%nat]; (split; [lia|]); by intros ? [->| ->]. }
    destruct (lookup_lt_is_Some_2 entries k) as [e He]; [lia|].
    destruct (descriptors_lookup 0 entries ds k e Hds He) as (d & Hd & _ & Ht).
    exists d. split; [by eapply list_elem_of_lookup_2|]. simpl in Ht.
    rewrite (Hcaps _ (Hall e ltac:(by eapply list_elem_of_lookup_2))) in Ht. by simplify_eq.
  - intros e [k Hk]%list_elem_of_lookup_1.
    destruct (descriptors_lookup 0 entries ds k e Hds Hk) as (d & Hd & Hid & _).
    exists d. split; [by eapply list_elem_of_lookup_2|done].
Qed.
End sign_facts.

(** ** Concrete runs *)
Module BootDemo.
#[local] Existing Instances Toy.gotham Base16.hex KeysDemo.store unix_platform.

(** No gossip. *)
Definition gossip_api : GossipApi unit := {|
  AdmissionCert := unit;
  authority_set_from_json := fun _ => None; admission_cert_from_json := fun _ => None;
|}.
#[local] Existing Instance gossip_api.

Definition node_new (_ : GossipConfig) (_ : unit) : option string := None.

Definition disk : gmap string file :=
  {[ "relay.key"%string := File (hex_encode (Toy.sk 1) ++ [x0a]) 384 ]}.

Definition machine : host := mkHost disk (fun _ => None) 0 0 0 (Some 1000) (fun _ _ => Err "no router"%string).

Definition args (key addr : option str) : RunArgs :=
  mkRunArgs "relay.key" 443 (lit "::") 500000 100 300 (Some "replay.bin"%string) true (of_Z 2000) 0
    (Some (lit "http://a")) [] (Some (lit "203.0.113.7:443")) false None (lit "mix") None None 0 true
    None false false None None None [] (lit "all") 60 key addr false None.

Definition started (key addr : option str) : result io_error (plan Z) :=
  run_setup node_new machine false (Ok tt) (args key addr).

(** Listening; dialling; and half a rendezvous, refused. *)
Example three_starts :
  (fun p => (p_reach p, advertise_addr <$> p_enroll p)) <$> started None None =
    Ok (Listen (RateLimit.V6 0, 443), Some (lit "203.0.113.7:443")) /\
  (fun p => (p_reach p, advertise_addr <$> p_enroll p)) <$>
    started (Some (hex_encode (Toy.sk 2))) (Some (lit "192.0.2.1:9000")) =
    Ok (Dial (RateLimit.V4 3221225985, 9000) (Toy.sk 2), Some []) /\
  started (Some (hex_encode (Toy.sk 2))) None =
    Err (invalid_input "--rendezvous-key and --rendezvous-addr must be set together").
Proof. vm_compute. done. Qed.

Definition demo_plan : plan Z :=
  match started None None with
  | Ok p => p
  | Err _ => mkPlan (Process.new [] 0 0 0 0 0) [] None None None false None (Listen (RateLimit.V4 0, 0)) None
  end.

Lemma run_setup_sound_witness :
  read_key_file None disk "relay.key" = Ok (p_sk demo_plan) /\
  booted (p_sk demo_plan) 100 (from_secs 300) 500000 0 (p_relay demo_plan) /\
  accept_header_v2 (p_relay demo_plan) = negb true /\
  reach_ok (args None None) (p_reach demo_plan) /\
  (is_Some (p_enroll demo_plan) <-> is_Some (Some (lit "http://a"))) /\
  forall cfg, p_enroll demo_plan = Some cfg ->
    relay_sk cfg = p_sk demo_plan /\ kem_pubkey_hex cfg = hex_encode (public_key (p_sk demo_plan)) /\
    announced_address machine (args None None) (advertise_addr cfg) /\ from_secs 1 <= heartbeat cfg /\
    p_watch demo_plan = Some (kem_pubkey_hex cfg, authority_url cfg :: extra_authority_urls cfg).
Proof.
  apply (run_setup_sound node_new machine false (Ok tt) (args None None) demo_plan).
  vm_compute. reflexivity.
Defined.

(** The daemon pins the key of an authority that complains at every turn. *)
#[local] Existing Instances toy_laws base16_laws EnrollDemo.toy_enrollment EnrollDemo.toy_enrollment_laws.

Definition pinned_args : RunArgs :=
  mkRunArgs "relay.key" 443 (lit "::") 500000 100 300 None true (of_Z 2000) 0
    (Some (lit "http://a/")) [] (Some (lit "203.0.113.7:443")) false None (lit "mix") None None 0 false
    None false false None None None [] (lit "all") 60 None None false
    (Some (hex_encode (public_key EnrollDemo.authority_sk))).

Definition pinned_plan : plan Z :=
  match run_setup node_new machine false (Ok tt) pinned_args with Ok p => p | Err _ => demo_plan end.

Definition pinned_cfg : EnrollConfig := default (EnrollDemo.cfg None) (p_enroll pinned_plan).

Definition pinned_turns : list turn :=
  from_option snd [] (run_enrollment_loop true pinned_cfg (Some 3600) (repeat (fun _ => EnrollDemo.complain, Some 3700) 2)).

Lemma announcements_verify_witness :
  exists rq, head (t_requests (default EnrollDemo.no_turn (pinned_turns !! 1%nat))) = Some rq /\
    rq_url rq = trim_end_matches x2f (lit "http://a/") ++ lit "/enroll" /\
    f_pop_proof (view (rq_body rq)) = Some (hex_encode (pop_tag_v2
      (x25519 EnrollDemo.authority_sk (public_key (p_sk pinned_plan))) (binding_hash (rq_body rq)))).
Proof.
  apply (announcements_verify node_new machine false (Ok tt) pinned_args pinned_plan (lit "http://a/")
    EnrollDemo.authority_sk (Some 3600) (repeat (fun _ => EnrollDemo.complain, Some 3700) 2) 0 pinned_turns 1
    (default EnrollDemo.no_turn (pinned_turns !! 1%nat)) pinned_cfg);
    [vm_compute; reflexivity|reflexivity|vm_compute; reflexivity|reflexivity|reflexivity|
     vm_compute; split; discriminate|reflexivity|reflexivity].
Defined.

Definition all_entry (n : Z) : RelayJsonEntry :=
  mkEntry [byte_of_Z n] (lit "10.0.0.1:1") (lit "all") None None None false.

Definition three : list RelayJsonEntry := map all_entry [1; 2; 3].
Definition three_signed : list RelayDescriptor :=
  match descriptors_from 0 three with Ok ds => ds | Err _ => [] end.

Lemma signed_directory_covers_tiers_witness :
  (forall t, exists d, d ∈ three_signed /\ d_tier d = t) /\
  forall e, e ∈ three -> exists d, d ∈ three_signed /\ d_id_pubkey_hex d = node_id_hex e.
Proof.
  apply (signed_directory_covers_tiers three three_signed).
  - vm_compute. lia.
  - repeat constructor.
  - vm_compute. reflexivity.
Defined.
End BootDemo.
