(* ===== verification/Restart.v ===== *)
(** * Replay protection across a restart

    The pieces of [main.rs], [process.rs] and [replay.rs] put together: a
    daemon runs, is shut down, and is started again with the same flags.  A
    packet it accepted before is still refused, as long as its age stays
    inside the time to live. *)

From S2P Require Import Prelude F64 Fs Rand Text Gotham Process Keys Boot.
From S2P Require Delay Replay ReplayPersist.

Section restart.
Context `{!Gotham, !GothamLaws} {R Mb : Type} `{!Rng R, !Delay.Libm, !Platform, !MailboxStore Mb}.

(** ** The keys of the cache are 16-byte MACs *)
Lemma chunks_exact {A} n (l : list A) :
  (0 < n)%nat -> (length l mod n = 0)%nat -> Forall (fun c => length c = n) (chunks n l).
Proof.
  intros Hn. induction l as [|l Hl IH] using (chunks_ind n Hn); intros Hm; [by constructor|].
  rewrite chunks_eq by done.
  assert (n <= length l)%nat as Hle.
  { destruct (le_lt_dec n (length l)) as [|Hlt]; [done|]. rewrite Nat.mod_small in Hm by done.
    by destruct l. }
  constructor; [rewrite length_take; lia|]. apply IH. rewrite length_drop.
  replace (length l) with ((length l - n) + 1 * n)%nat in Hm by lia.
  by rewrite Nat.Div0.mod_add in Hm.
Qed.

Lemma decode_keys16 bytes es :
  ReplayPersist.decode bytes = Ok es -> Forall (fun e => length e.1 = 16%nat) es.
Proof.
  unfold ReplayPersist.decode. case_decide; [done|]. case_decide as Hm; [done|]. intros [= <-].
  apply Forall_map. eapply Forall_impl.
  - apply chunks_exact; [unfold ReplayPersist.RECORD; lia|].
    destruct (decide (length (drop (length ReplayPersist.MAGIC) bytes) mod ReplayPersist.RECORD = 0)%nat); done.
  - intros c Hc. simpl. rewrite length_take, Hc. done.
Qed.

Lemma booted_keys16 sk n ttl mean t r :
  booted sk n ttl mean t r -> ReplayPersist.keys16 (replay_cache r).
Proof.
  induction 1 as [t1 t2|fault fs u t1 t2 path|r _ IH|r pps b t1 t2 _ IH]; try done.
  { apply Forall_nil. done. }
  unfold with_replay_persistence, ReplayPersist.load. simpl.
  destruct (read fault fs path) as [bytes|e]; [|case_decide; apply Forall_nil; done].
  destruct (ReplayPersist.decode bytes) as [es|e] eqn:Hd; [|apply Forall_nil; done].
  pose proof (Replay.restore_at_spec (Replay.new n ttl) es t u (Replay.wf_new n ttl)) as Hr.
  destruct (Replay.restore_at _ es t u) as [m c]. destruct Hr as (_ & _ & Hq & _).
  simpl. unfold ReplayPersist.keys16. rewrite Hq. simpl. apply decode_keys16 in Hd.
  apply Forall_forall. intros e He.
  assert (e.1 ∈ es.*1) as Hin.
  { eapply sublist_subseteq; [apply (ReplayPersist.adopt_keys ttl t u)|].
    apply list_elem_of_fmap. exists e. split; [done|].
    rewrite <- (sort_by_key_perm snd). eapply sublist_subseteq; [|exact He].
    unfold Replay.restored, lastn. etrans; [apply sublist_drop|].
    apply (Replay.retain_new_spec (Replay.rc_map (Replay.new n ttl)) ∅). }
  apply list_elem_of_fmap in Hin as (e' & -> & He'). rewrite Forall_forall in Hd. by apply Hd.
Qed.

Lemma check_keys16 c k now :
  Replay.wf c -> ReplayPersist.keys16 c -> length k = 16%nat ->
  ReplayPersist.keys16 (snd (Replay.check_and_insert_at c k now)).
Proof.
  intros Hwf Hk Hlen. pose proof (Replay.check_and_insert_queue c k now Hwf) as Hst.
  destruct (Replay.check_and_insert_at c k now) as [res c']. destruct Hst as (_ & Hq & _).
  unfold ReplayPersist.keys16 in *. simpl. rewrite Hq.
  assert (Forall (fun e : Replay.key * Z => length e.1 = 16%nat)
            (Replay.drop_expired (Replay.rc_ttl c) now (Replay.rc_queue c))) as Hd.
  { destruct (Replay.drop_expired_suffix (Replay.rc_ttl c) now (Replay.rc_queue c)) as [l Hl].
    rewrite Hl in Hk. by apply Forall_app in Hk as [_ ?]. }
  case_match; [done|]. apply Forall_app. split; [|by repeat constructor].
  case_match; [|done]. by destruct Hd.
Qed.

(** ** What a run keeps *)
Definition stable (r : Relay) (path : option string) (n : nat) : Prop :=
  Replay.wf (replay_cache r) /\ ReplayPersist.keys16 (replay_cache r) /\ replay_path r = path /\
  Replay.rc_max_size (replay_cache r) = n.

Lemma process_stable r rng i path n :
  stable r path n -> stable (relay_after (process_input (R := R) r rng i)) path n.
Proof.
  intros (Hwf & Hk & Hp & Hn). unfold stable, process_input.
  destruct (process_cases r (i_rate i) (i_replay i) rng (i_packet i))
    as [(_ & _ & Hp' & _) [(reason & _ & Hc & _)|(h & sub & rec & next & _ & _ & Hc)]].
  { rewrite Hc, Hp'. done. }
  rewrite Hp'. pose proof (Replay.check_and_insert_queue (replay_cache r) (gamma h) (i_replay i) Hwf) as Hst.
  pose proof (check_keys16 (replay_cache r) (gamma h) (i_replay i) Hwf Hk (gamma_length h)) as Hk'.
  destruct (Replay.check_and_insert_at _ _ _) as [seen cache]. destruct Hc as [-> _].
  destruct Hst as (_ & _ & _ & Hm & Hwf'). split_and!; try done. congruence.
Qed.

Lemma run_stable r rng ins path n :
  stable r path n -> stable (run (R := R) r rng ins).1.2 path n.
Proof.
  revert r rng. induction ins as [|i ins IH]; intros r rng Hs; simpl; [done|].
  pose proof (process_stable r rng i path n Hs) as Hs1. unfold relay_after in Hs1.
  destruct (process_input r rng i) as [[o r1] rng1]. specialize (IH r1 rng1 Hs1).
  by destruct (run r1 rng1 ins) as [[??]?].
Qed.

Lemma boot_relay_cache h a sk path :
  a_replay_cache_path a = Some path ->
  let r := boot_relay h a sk in
  replay_cache r = snd (ReplayPersist.load (h_fault h path) (h_fs h)
    (Replay.new (a_replay_size a) (from_secs (a_replay_ttl_secs a))) path (h_instant h) (h_unix h)) /\
  replay_path r = Some path.
Proof.
  intros Hp. unfold boot_relay. rewrite Hp. unfold with_replay_persistence.
  destruct (a_strict_header_v3 a); simpl; by destruct (ReplayPersist.load _ _ _ _ _ _).
Qed.

Lemma boot_relay_stable h a sk path :
  0 <= a_replay_ttl_secs a -> a_replay_cache_path a = Some path ->
  stable (boot_relay h a sk) (Some path) (a_replay_size a).
Proof.
  intros Httl Hp. pose proof (boot_relay_booted h a sk) as Hb.
  destruct (boot_relay_cache h a sk path Hp) as [Hc Hpath].
  assert (0 <= from_secs (a_replay_ttl_secs a)) as Hpos by (unfold from_secs, NANOS_PER_SEC; lia).
  destruct (booted_guarded _ _ _ _ _ _ Hpos Hb) as [(t' & hist & _ & Hsim & _) _].
  destruct (load_new_sim (h_fault h path) (h_fs h) (a_replay_size a) _ path (h_instant h) (h_unix h) Hpos)
    as (_ & c & Hl & _ & _ & Hm).
  split_and!; [apply Hsim|by eapply booted_keys16|done|]. by rewrite Hc, Hl.
Qed.

(** What a shutdown writes, when no system call fails. *)
Lemma shutdown_saves mflt a mb r now u fs path :
  replay_path r = Some path ->
  exists m, shutdown mflt ReplayPersist.no_faults a mb r now u fs !! path =
    Some (File (ReplayPersist.encode (replay_cache r) now u) m).
Proof.
  intros Hp. eexists. rewrite <- (ReplayPersist.save_ok (shutdown_mailbox mflt a mb fs) _ path).
  unfold shutdown, persist_replay. rewrite Hp. cbn [mbind option_bind].
  by destruct (ReplayPersist.save _ _ _ _ _ _).
Qed.

(** The readings of the clock at [ins], then at [now]. *)
Definition clock_until (t : Z) (ins : list input) (now : Z) : Prop :=
  clock t (ins ++ [Input now now []]).

Lemma monotonic_until t tr now :
  (forall k, Replay.monotonic t (tr ++ [(k, now)])) -> t <= now.
Proof.
  intros Hm. specialize (Hm []). revert t Hm. induction tr as [|[k0 t0] tr IH]; simpl; intros t Hm; [apply Hm|].
  destruct Hm as [Hm1 Hm2]. apply IH in Hm2. lia.
Qed.

(** The MAC of a packet the relay accepted is in the queue of its cache, and
    at most the packets processed since come after it. *)
Lemma accepted_entry h a sk path rng pre p mid now :
  a_replay_cache_path a = Some path -> 0 <= a_replay_ttl_secs a ->
  clock_until (h_instant h) (pre ++ p :: mid) now -> (length mid < a_replay_size a)%nat ->
  now - i_replay p <= from_secs (a_replay_ttl_secs a) ->
  let before := run (boot_relay h a sk) rng pre in
  let res := process_input (R := R) before.1.2 before.2 p in
  let r := (run (relay_after res) res.2 mid).1.2 in
  is_accepted (outcome res) = true ->
  exists k q1 q2, packet_gamma (i_packet p) = Some k /\
    Replay.rc_queue (replay_cache r) = q1 ++ (k, i_replay p) :: q2 /\ (length q2 <= length mid)%nat /\
    Replay.ordered now (Replay.rc_queue (replay_cache r)) /\ stable r (Some path) (a_replay_size a) /\
    Replay.rc_ttl (replay_cache r) = from_secs (a_replay_ttl_secs a) /\ i_replay p <= now.
Proof.
  intros Hpath Httl Hclk Hmid Hage. cbv zeta.
  pose proof (boot_relay_stable h a sk path Httl Hpath) as Hst0.
  assert (0 <= from_secs (a_replay_ttl_secs a)) as Hpos by (unfold from_secs, NANOS_PER_SEC; lia).
  destruct (booted_guarded _ _ _ _ _ _ Hpos (boot_relay_booted h a sk)) as [Hg _].
  unfold clock_until in Hclk. rewrite <- app_assoc in Hclk. simpl in Hclk.
  apply clock_app in Hclk as [Hpre Hmidc].
  pose proof (run_guarded _ _ _ _ rng pre p Hg Hpre) as Hg1.
  pose proof (run_stable _ rng pre _ _ Hst0) as Hst1.
  destruct (run (boot_relay h a sk) rng pre) as [[os1 r1] rng1]. simpl in Hg1, Hst1 |- *.
  pose proof (accepted_fresh r1 rng1 p) as Hacc. pose proof (process_stable r1 rng1 p _ _ Hst1) as Hst2.
  destruct (process_input r1 rng1 p) as [[op r2] rng2]. unfold relay_after in Hacc, Hst2 |- *.
  simpl in Hacc, Hst2 |- *.
  destruct (run_cache_calls (i_replay p) r2 rng2 mid (Input now now []) Hmidc) as (tr & Hc3 & Hlen & Hmono).
  pose proof (run_stable _ rng2 mid _ _ Hst2) as Hst3.
  destruct (run r2 rng2 mid) as [[os3 r3] rng3]. simpl in Hc3, Hst3, Hmono |- *. intros Ha.
  destruct (Hacc Ha) as (k & Hk & Hfresh & Hc2). destruct Hg1 as (t' & hist & Ht' & Hsim & Htl & Hcap).
  destruct (Replay.sim_keeps_entry t' hist (replay_cache r1) k (i_replay p) tr now)
    as ((q1 & q2 & Hq & Hq2) & _ & Hord & Htl3 & _); [done|done|done|done|rewrite Hcap; lia|by rewrite Htl|].
  rewrite <- Hc2, <- Hc3 in Hq, Hord, Htl3. apply monotonic_until in Hmono.
  exists k, q1, q2. split_and!; [done|done|lia|done|done|congruence|done].
Qed.

(** No packet is accepted twice, even across a restart: a daemon accepts a
    packet and handles others, its replay cache is written to its file, and it
    is started again with the same flags.  A packet with the same header MAC is
    then dropped, as long as fewer than [replay_size] packets came in between,
    before the cache was written and after the restart, and the age of the
    accepted one (when the cache was written, plus the wall-clock time until the
    restart, plus the time since) is inside the time to live.  When the
    monotonic clock cannot represent the time to live before the restart, the
    oldest entries are taken for the newest, and only the first packet is sure
    to be recognised. *)
Theorem no_packet_accepted_across_restart h h' a sk sk' path rng rng' pre p mid pre' q m now u :
  a_replay_cache_path a = Some path -> 0 <= a_replay_ttl_secs a ->
  clock_until (h_instant h) (pre ++ p :: mid) now -> clock (h_instant h') (pre' ++ [q]) ->
  let ttl := from_secs (a_replay_ttl_secs a) in
  (length mid + length pre' < a_replay_size a)%nat -> pre' = [] \/ instant_min <= h_instant h' - ttl ->
  let age := now - i_replay p in
  let before := run (boot_relay h a sk) rng pre in
  let res := process_input before.1.2 before.2 p in
  let after := run (relay_after res) res.2 mid in
  is_accepted (outcome res) = true ->
  h_fs h' !! path = Some (File (ReplayPersist.encode (replay_cache after.1.2) now u) m) ->
  h_fault h' path = None ->
  is_u64 u -> u <= h_unix h' -> as_secs age <= u -> age <= ttl ->
  (i_replay q - h_instant h') + from_secs (h_unix h' - u + as_secs age) <= ttl ->
  packet_gamma (i_packet q) = packet_gamma (i_packet p) ->
  let again := run (R := R) (boot_relay h' a sk') rng' pre' in
  exists reason, outcome (process_input again.1.2 again.2 q) = Some (Drop reason).
Proof.
  intros Hpath Httl Hclk Hclk' ttl Hsize Hreach age. cbv zeta.
  intros Ha Hfile Hft Hu Huu Hage1 Hage2 Hwin Hsame.
  destruct (accepted_entry h a sk path rng pre p mid now Hpath Httl Hclk ltac:(lia) Hage2 Ha)
    as (k & q1 & q2 & Hk & Hq & Hq2 & Hord & (Hwf & Hk16 & _ & Hn) & Htl & Hnow).
  set (r := (run _ _ mid).1.2) in *. clearbody r.
  assert (0 <= ttl) as Hpos0 by (unfold ttl, from_secs, NANOS_PER_SEC; lia).
  assert (duration_since now (i_replay p) = age) as Hd by (unfold duration_since, age; lia).
  destruct (run_cache_calls (h_instant h') (boot_relay h' a sk') rng' pre' q Hclk')
    as (tr & Hc & Hlen & Hmono).
  assert (0 <= i_replay q - h_instant h') as Hq0 by (apply monotonic_until in Hmono; lia).
  destruct (ReplayPersist.reloaded_entry (replay_cache r) (h_fs h') m path now u (h_instant h') (h_unix h')
    q1 k (i_replay p) q2) as (h1 & ts' & h2 & Hsim & Hts & Hh2 & Hpos & Htl' & Hcap);
    rewrite ?Hd, ?Htl; try done; [lia|by unfold Replay.live; simpl; rewrite Hd|fold ttl; lia|].
  rewrite Hd in Hts. fold ttl in Htl. rewrite Htl in *. rewrite Hn in Hsim, Htl', Hcap.
  destruct (boot_relay_cache h' a sk' path Hpath) as [Hc0 _]. rewrite Hft in Hc0. fold ttl in Hc0.
  rewrite <- Hc0 in Hsim, Htl', Hcap.
  apply (known_dropped _ _ q k); [congruence|]. rewrite Hc.
  eapply Replay.sim_recognises; [exact Hsim|apply Hmono| |lia].
  rewrite Hcap in *. destruct Hreach as [->|Hreach].
  - destruct tr; simpl in *; [|lia]. lia.
  - specialize (Hpos Hreach). unfold Replay.capacity. rewrite Hn. lia.
Qed.
End restart.

(** ** A concrete restart *)
Module RestartDemo.
#[local] Existing Instances Toy.gotham toy_laws counter_rng Delay.coarse_libm unix_platform KeysDemo.store.

Definition path : string := "replay.bin".

Definition args : RunArgs :=
  mkRunArgs "relay.key" 443 (lit "::") 500000 100 300 (Some path) false f_zero 0
    None [] None false None (lit "mix") None None 0 false
    None false false None None None [] (lit "all") 60 None None false None.

Definition first_boot : host := mkHost ∅ (fun _ => None) 0 0 0 (Some 1000) (fun _ _ => Err "no router"%string).

Definition arrival (t : Z) : input := Input (from_secs t) (from_secs t) Process.Demo.two_hops.

(** Started at second 1000 of the wall clock; a packet at the fifth second of
    the monotonic clock; shut down at its 20th. *)
Definition r_before : Relay := relay_after (process_input (boot_relay first_boot args (Toy.sk 1)) 0 (arrival 5)).

Definition disk : gmap string file :=
  shutdown (StoreFaults None None None) ReplayPersist.no_faults args None r_before (from_secs 20) 1020 ∅.

(** Started again 30 seconds later, on another monotonic clock. *)
Definition second_boot : host :=
  mkHost disk (fun _ => None) (from_secs 3) (from_secs 3) (from_secs 3) (Some 1050) (fun _ _ => Err "no router"%string).

(** Another packet comes first. *)
Definition first_packet : input := Input (from_secs 10) (from_secs 10) [].

Lemma no_packet_accepted_across_restart_witness :
  let again := run (boot_relay second_boot args (Toy.sk 1)) 0 [first_packet] in
  exists reason, outcome (process_input again.1.2 again.2 (arrival 13)) = Some (Drop reason).
Proof.
  apply (no_packet_accepted_across_restart first_boot second_boot args (Toy.sk 1) (Toy.sk 1) path 0 0 []
           (arrival 5) [] [first_packet] (arrival 13) 384 (from_secs 20) 1020).
  all: vm_compute; try reflexivity; try (repeat split; discriminate); try lia.
  right. discriminate.
Defined.
End RestartDemo.
