(* ===== verification/Endpoint.v ===== *)
(** * QUIC endpoints ([transport.rs], TLS configuration and ALPN)

    The server endpoint offers the five protocols of the relay under a
    self-signed certificate; a client endpoint offers one protocol and accepts
    any certificate, since peers authenticate each other by Noise.  [rcgen],
    [rustls] and [quinn] are an interface; what is assumed of the TLS handshake
    is the rule of RFC 7301 that [rustls] documents: the server picks the first
    of its protocols the client offers, and fails the handshake when there is
    none. *)

From S2P Require Import Prelude Fs Text Net Gotham Wire Server.

(** ** [rustls], [rcgen] and [quinn] *)
Inductive SignatureScheme : Type :=
| RSA_PKCS1_SHA256 | RSA_PKCS1_SHA384 | RSA_PKCS1_SHA512
| ECDSA_NISTP256_SHA256 | ECDSA_NISTP384_SHA384 | ED25519
| RSA_PSS_SHA256 | RSA_PSS_SHA384 | RSA_PSS_SHA512.

(** [rustls::client::danger::ServerCertVerifier], as far as it decides. *)
Record ServerCertVerifier (Cert : Type) : Type := mkVerifier {
  verify_server_cert : Cert -> list Cert -> list byte -> list byte -> Z -> result TransportError unit;
  verify_tls12_signature : list byte -> Cert -> list byte -> result TransportError unit;
  verify_tls13_signature : list byte -> Cert -> list byte -> result TransportError unit;
  supported_verify_schemes : list SignatureScheme;
}.
Arguments mkVerifier {Cert} _ _ _ _.
Arguments verify_server_cert {Cert} _.
Arguments verify_tls12_signature {Cert} _.
Arguments verify_tls13_signature {Cert} _.
Arguments supported_verify_schemes {Cert} _.

Class Tls := {
  Certificate : Type;
  PrivateKey : Type;
  (** [rcgen::generate_simple_self_signed] *)
  generate_simple_self_signed : list string -> result TransportError (Certificate * PrivateKey);
  (** [with_single_cert] *)
  with_single_cert : list Certificate -> PrivateKey -> result TransportError unit;
  (** [QuicServerConfig::try_from] and [QuicClientConfig::try_from] of a
      configuration with these protocols. *)
  quic_server_ok : list (list byte) -> bool;
  quic_client_ok : list (list byte) -> bool;
  (** [Endpoint::server] and [Endpoint::client] bind a socket. *)
  bind_socket : SocketAddr -> result io_error unit;
  (** The protocol a server and a client configuration agree on; [None] when
      the handshake fails. *)
  negotiate : list (list byte) -> list (list byte) -> option (option (list byte));
}.

(** The first of the server's protocols that the client offers. *)
Definition first_common (server client : list (list byte)) : option (list byte) :=
  head (filter (fun a => a ∈ client) server).

Class TlsLaws `{!Tls} : Prop := {
  negotiate_first : forall server client, server <> [] -> client <> [] ->
    negotiate server client = Some <$> first_common server client;
}.

(** ** Endpoints *)
Record TransportConfig : Type := mkTransport {
  keep_alive_interval : option Z;
  max_idle_timeout : option Z;
}.

Section endpoints.
Context `{!Tls}.

Record ServerEndpoint : Type := mkServerEndpoint {
  se_addr : SocketAddr;
  se_cert : Certificate;
  se_key : PrivateKey;
  se_alpn : list (list byte);
}.

(** [ce_transport] is [None] for quinn's defaults. *)
Record ClientEndpoint : Type := mkClientEndpoint {
  ce_addr : SocketAddr;
  ce_verifier : ServerCertVerifier Certificate;
  ce_alpn : list (list byte);
  ce_transport : option TransportConfig;
}.

Definition make_self_signed_cert : result TransportError (Certificate * PrivateKey) :=
  generate_simple_self_signed ["gotham-relay.local"%string].

(** Every certificate and every signature is accepted. *)
Definition SkipServerVerification : ServerCertVerifier Certificate :=
  mkVerifier (fun _ _ _ _ _ => Ok tt) (fun _ _ _ => Ok tt) (fun _ _ _ => Ok tt)
    [RSA_PKCS1_SHA256; RSA_PKCS1_SHA384; RSA_PKCS1_SHA512; ECDSA_NISTP256_SHA256;
     ECDSA_NISTP384_SHA384; ED25519; RSA_PSS_SHA256; RSA_PSS_SHA384; RSA_PSS_SHA512].

Definition build_server_endpoint (addr : SocketAddr) : result TransportError ServerEndpoint :=
  '(cert, key) ← make_self_signed_cert;
  _ ← with_single_cert [cert] key;
  let alpn_protocols := server_alpns in
  if negb (quic_server_ok alpn_protocols) then Err BadHandshake else
  _ ← map_err Io (bind_socket addr);
  Ok (mkServerEndpoint addr cert key alpn_protocols).

(** ["0.0.0.0:0".parse()], and the error when that fails. *)
Definition client_bind_addr : result TransportError SocketAddr :=
  ok_or (Io (IoError OtherKind "bad client bind addr")) (parse_socket (lit "0.0.0.0:0")).

Definition build_client_endpoint_alpn (alpn : list byte) : result TransportError ClientEndpoint :=
  let alpn_protocols := [alpn] in
  if negb (quic_client_ok alpn_protocols) then Err BadHandshake else
  addr ← client_bind_addr;
  _ ← map_err Io (bind_socket addr);
  Ok (mkClientEndpoint addr SkipServerVerification alpn_protocols None).

Definition build_client_endpoint : result TransportError ClientEndpoint :=
  build_client_endpoint_alpn MIXNET_ALPN.
Definition build_mailbox_client_endpoint : result TransportError ClientEndpoint :=
  build_client_endpoint_alpn MAILBOX_ALPN.
Definition build_gossip_client_endpoint : result TransportError ClientEndpoint :=
  build_client_endpoint_alpn GOSSIP_ALPN.

(** [IdleTimeout::try_from]: the milliseconds must fit a QUIC variable-length
    integer. *)
Definition idle_timeout (d : Z) : option Z :=
  if d / 1000000 <? 2 ^ 62 then Some d else None.

Definition build_rendezvous_client_endpoint : result TransportError ClientEndpoint :=
  let alpn_protocols := [RENDEZVOUS_ALPN] in
  if negb (quic_client_ok alpn_protocols) then Err BadHandshake else
  idle ← ok_or BadHandshake (idle_timeout (from_secs 60));
  let transport := mkTransport (Some (from_secs 15)) (Some idle) in
  addr ← client_bind_addr;
  _ ← map_err Io (bind_socket addr);
  Ok (mkClientEndpoint addr SkipServerVerification alpn_protocols (Some transport)).

(** ** Connecting *)

(** [quinn::Connection::handshake_data]: the [protocol] field of rustls's
    [HandshakeData], or another kind of data. *)
Inductive HandshakeData : Type :=
| RustlsData (protocol : option (list byte))
| OtherData.

Definition negotiated_alpn (data : option HandshakeData) : option (list byte) :=
  data ← data;
  match data with RustlsData protocol => protocol | OtherData => None end.

(** What the server task sees of a client's connection: [None] when the
    handshake fails. *)
Definition connection_alpn (server : ServerEndpoint) (client : ClientEndpoint)
    : option (option (list byte)) :=
  protocol ← negotiate (se_alpn server) (ce_alpn client);
  Some (negotiated_alpn (Some (RustlsData protocol))).
End endpoints.

(** ** Properties *)
Section endpoint_facts.
Context `{!Tls, !TlsLaws}.

(** A client built for a protocol of the server negotiates exactly it. *)
Lemma negotiates_offered alpn :
  alpn ∈ server_alpns -> negotiate server_alpns [alpn] = Some (Some alpn).
Proof.
  intros Hin. rewrite negotiate_first by done. unfold server_alpns in *.
  rewrite !elem_of_cons, elem_of_nil in Hin.
  destruct Hin as [->|[->|[->|[->|[->|[]]]]]]; reflexivity.
Qed.

Lemma build_server_alpns addr server : build_server_endpoint addr = Ok server -> se_alpn server = server_alpns.
Proof.
  unfold build_server_endpoint, mbind, result_bind. destruct make_self_signed_cert as [[c k]|]; [|done].
  destruct (with_single_cert _ _); [|done]. destruct (negb _); [done|].
  destruct (map_err Io (bind_socket addr)); [|done]. by intros [= <-].
Qed.

Lemma build_client_alpns alpn client :
  build_client_endpoint_alpn alpn = Ok client -> ce_alpn client = [alpn].
Proof.
  unfold build_client_endpoint_alpn, mbind, result_bind. destruct (negb _); [done|].
  destruct client_bind_addr; [|done]. destruct (map_err _ _); [|done]. by intros [= <-].
Qed.

Lemma build_rendezvous_alpns client :
  build_rendezvous_client_endpoint = Ok client -> ce_alpn client = [RENDEZVOUS_ALPN].
Proof.
  unfold build_rendezvous_client_endpoint, mbind, result_bind. destruct (negb _); [done|].
  destruct (ok_or _ _); [|done]. destruct client_bind_addr; [|done].
  destruct (map_err _ _); [|done]. by intros [= <-].
Qed.

Lemma connection_alpn_single server client alpn :
  se_alpn server = server_alpns -> ce_alpn client = [alpn] -> alpn ∈ server_alpns ->
  connection_alpn server client = Some (Some alpn).
Proof.
  intros Hs Hc Hin. unfold connection_alpn. by rewrite Hs, Hc, negotiates_offered.
Qed.

(** The service a client's connection gets from a server. *)
Definition routed (has_mailbox has_gossip : bool) (server : ServerEndpoint) (client : ClientEndpoint)
    : option service :=
  select_service has_mailbox has_gossip <$> connection_alpn server client.

(** Every client endpoint reaches its own service, and only it: against
    any server endpoint the relay builds, the packet, mailbox, gossip and
    rendezvous clients negotiate the protocol they were built for, and the
    relay serves or refuses them accordingly. *)
Theorem client_endpoints_reach_their_service has_mailbox has_gossip addr server client :
  build_server_endpoint addr = Ok server ->
  (build_client_endpoint = Ok client ->
     routed has_mailbox has_gossip server client = Some ServeMixnet) /\
  (build_mailbox_client_endpoint = Ok client ->
     routed has_mailbox has_gossip server client =
       Some (if has_mailbox then ServeMailbox else CloseWith "no mailbox here")) /\
  (build_gossip_client_endpoint = Ok client ->
     routed has_mailbox has_gossip server client =
       Some (if has_gossip then ServeGossip else CloseWith "no gossip here")) /\
  (build_rendezvous_client_endpoint = Ok client ->
     routed has_mailbox has_gossip server client = Some ServeRendezvous).
Proof.
  intros Hs%build_server_alpns. unfold routed.
  split_and!; intros Hc; [apply build_client_alpns in Hc..|apply build_rendezvous_alpns in Hc];
    (erewrite connection_alpn_single by (done || (unfold server_alpns; set_solver))); reflexivity.
Qed.

(** Building a client endpoint fails only when the TLS configuration is
    refused or the socket cannot be bound; the address always parses. *)
Lemma client_endpoint_errors alpn e :
  build_client_endpoint_alpn alpn = Err e ->
  (e = BadHandshake /\ quic_client_ok [alpn] = false) \/
  exists addr ioe, parse_socket (lit "0.0.0.0:0") = Some addr /\ bind_socket addr = Err ioe /\ e = Io ioe.
Proof.
  unfold build_client_endpoint_alpn. destruct (quic_client_ok [alpn]); simpl; [|by left; simplify_eq].
  right. destruct (bind_socket _) as [|ioe] eqn:Hb; simplify_eq/=. eauto 10.
Qed.
End endpoint_facts.

(** ** A concrete endpoint *)
Module EndpointDemo.
Definition tls : Tls := {|
  Certificate := list string;
  PrivateKey := Z;
  generate_simple_self_signed := fun names => Ok (names, 7);
  with_single_cert := fun certs _ => if decide (certs = []) then Err Rustls else Ok tt;
  quic_server_ok := fun _ => true;
  quic_client_ok := fun _ => true;
  bind_socket := fun a => if decide (a.2 <= 65535) then Ok tt else Err (IoError OtherKind "bind");
  negotiate := fun server client => Some <$> first_common server client;
|}.
#[local] Existing Instance tls.

Lemma tls_laws : TlsLaws.
Proof. by split. Qed.

Definition addr : SocketAddr := (RateLimit.V4 0, 443).
Definition server : ServerEndpoint := mkServerEndpoint addr ["gotham-relay.local"%string] 7 server_alpns.
Definition mailbox_client : ClientEndpoint :=
  mkClientEndpoint (RateLimit.V4 0, 0) SkipServerVerification [MAILBOX_ALPN] None.

Lemma client_endpoints_reach_their_service_witness :
  build_server_endpoint addr = Ok server /\ build_mailbox_client_endpoint = Ok mailbox_client /\
  routed true false server mailbox_client = Some ServeMailbox.
Proof.
  split; [reflexivity|]. split; [reflexivity|].
  apply (@client_endpoints_reach_their_service tls tls_laws true false addr server mailbox_client);
    reflexivity.
Defined.
End EndpointDemo.
