(* ===== verification/Listener.v ===== *)
(** * The running relay ([transport.rs], [serve_endpoint_with_services_shared])

    The listener admits connections against a semaphore and gives each one a
    task; a task negotiates its service and serves its peer.  Packet
    connections share the per-source limiter and the relay, mailbox
    connections and spawned mailbox tasks share the mailbox, gossip
    connections share the roster, and every accepted packet gets a task of its
    own that sleeps and then forwards or delivers.  This file is that whole
    system as a machine: the tasks are a map, a step runs one task up to its
    next lock or wait, and the environment chooses the order, the clock
    readings, what the peers send and when, if ever, and how the network answers
    what the tasks ask of it.

    [Server] and [Services] describe what one connection does alone; here the
    connections interleave. *)

From S2P Require Import Prelude F64 Fs Rand Gotham Wire Process Services Server Net Endpoint Keys.
From S2P Require Delay RateLimit Replay ReplayPersist.

(** ** Peers

    A connection as the peer drives it: the address it comes from, the
    protocol it negotiates ([None] when the QUIC handshake fails), and the
    stream it opens. *)
Record peer : Type := mkPeer {
  p_ip : RateLimit.IpAddr;
  p_alpn : option (option (list byte));
  p_bi : io (SendStream * RecvStream);
}.

(** What a step takes from the environment: readings of the monotonic and the
    wall clock, whether [ship_surb_reply] succeeds, the rendezvous table, what
    [pool.rendezvous().push] and [pool.send] return, and the faults of
    the disk. *)
Record env : Type := mkEnv {
  e_clock : readings;
  e_wall : option Z;
  e_ship : list byte -> list byte -> bool;
  e_hosted : list byte -> bool;
  e_push : list byte -> list byte -> result TransportError bool;
  e_pool : SocketAddrV4 -> list byte -> list byte -> result TransportError unit;
  e_faults : ReplayPersist.write_faults;
  e_store : store_faults;
}.

(** [now_unix] of transport.rs. *)
Definition now_unix (clock : option Z) : Z := default 0 clock.
Definition e_unix (e : env) : Z := now_unix (e_wall e).

(** Within a step the clock is read in the order of the code. *)
Definition env_from (t : Z) (e : env) : Prop :=
  t <= rd_source (e_clock e) /\ rd_source (e_clock e) <= rd_new1 (e_clock e) /\
  rd_new1 (e_clock e) <= rd_new2 (e_clock e) /\ rd_new2 (e_clock e) <= rd_rate (e_clock e) /\
  rd_rate (e_clock e) <= rd_replay (e_clock e).

Section listener.
Context `{!Platform, !Gotham, !MailboxAuth, !MailboxApi, !MailboxCodec, !MailboxStore Mailbox, !RosterApi}
  {R HS T : Type} `{!Rng R, !Delay.Libm, !NoiseTransport T, !NoiseHandshake HS T,
    !HashOrder RateLimit.IpAddr (RateLimit.RateLimiter * Z)}.

(** A delivery handler: the mailbox task it spawns for a payload, if any. *)
Definition DeliveryHandler : Type := list byte -> option task.

(** The arguments of the listener.  An [Arc<Mutex<..>>] points into the shared
    state below, so of the mailbox only whether it is given is an argument, and
    of the gossip service the authorities.  [cf_maintenance] is the file of the
    maintenance task of the mailbox, if that task runs. *)
Record config : Type := mkConfig {
  cf_sk : list byte;
  cf_delivery : option DeliveryHandler;
  cf_mailbox : bool;
  cf_allow_unauthenticated : bool;
  cf_gossip : option AuthoritySet;
  cf_authority_pop_pk : option (list byte);
  cf_maintenance : option (option string);
}.

(** ** Tasks

    Connection tasks hold a permit; the others are detached.  [Tunnel] serves a
    hosted relay until the peer or the absent module ends it.  [Inbound] is the
    loop of a relay that is reached through a rendezvous relay: the packets its
    tunnel will yield, and whether the channel is closed after them.  [Sleeping]
    holds a packet back, and [Sending] awaits the pool or the tunnel a packet was
    handed to. *)
Inductive job : Type :=
| Connecting (p : peer)
| MixRead (src : RateLimit.IpAddr) (l : Link T)
| MixProcess (src : RateLimit.IpAddr) (packet : list byte) (l : Link T)
| MailRead (binding : list byte) (served : nat) (l : Link T)
| MailReply (binding : list byte) (served : nat) (resp : MailboxResponse) (l : Link T)
| GossipRead (set : AuthoritySet) (l : Link T)
| GossipReply (set : AuthoritySet) (l : Link T)
| Tunnel
| Inbound (packets : list (list byte)) (closed : stream_end)
| Sleeping (wake : Z) (a : action)
| Sending (a : action)
| MailTask (t : task)
| SurbReply (t : task) (drained : list (list byte)) (more : bool) (now : Z)
| Flush (buf : list byte) (path : string)
| Save (snap : MailboxSnapshot) (path : string).

Definition holds_permit (j : job) : bool :=
  match j with
  | Inbound _ _ | Sleeping _ _ | Sending _ | MailTask _ | SurbReply _ _ _ _ | Flush _ _ | Save _ _ => false
  | _ => true
  end.

(** What the tasks share. *)
Record state : Type := mkState {
  st_shared : shared R;
  st_mailbox : Mailbox;
  st_roster : Roster;
  st_fs : gmap string file;
}.

Definition set_shared (st : state) (sh : shared R) : state :=
  mkState sh (st_mailbox st) (st_roster st) (st_fs st).
Definition set_mailbox (st : state) (mb : Mailbox) : state :=
  mkState (st_shared st) mb (st_roster st) (st_fs st).
Definition set_roster (st : state) (r : Roster) : state :=
  mkState (st_shared st) (st_mailbox st) r (st_fs st).
Definition set_fs (st : state) (fs : gmap string file) : state :=
  mkState (st_shared st) (st_mailbox st) (st_roster st) fs.

(** ** What happened

    One entry per critical section on the relay, the mailbox or the per-source
    limiter, per packet whose delay is over, per call to the pool or a tunnel that
    returned and per write of the replay cache; the history is not part of the
    program. *)
Inductive event : Type :=
| EvNone
| EvPacket (i : input) (o : option ProcessOutcome)
| EvLeft (at_ : Z) (a : action)
| EvRequest (binding : list byte) (now : Z) (blob : list byte) (resp : MailboxResponse)
| EvTask (t : task) (now : Z) (drained : list (list byte)) (more : bool)
| EvFinish (t : task) (drained : list (list byte)) (now : Z) (shipped : bool)
| EvEncoded (now now_unix : Z)
| EvWritten (ok : bool)
| EvChecked (src : RateLimit.IpAddr) (now t1 t2 : Z) (d : RateLimit.RateDecision)
| EvForwarded (a : action) (r : result TransportError bool).

(** The result of a step: the shared state, what the task becomes ([None] when
    it ends), a task it spawns, and the entry of the history. *)
Record stepped : Type := mkStepped {
  s_state : state;
  s_next : option job;
  s_spawn : option job;
  s_event : event;
}.

Definition goes (st : state) (j : job) : stepped := mkStepped st (Some j) None EvNone.
Definition ends (st : state) : stepped := mkStepped st None None EvNone.

(** ** One step of a task

    [None]: the task waits for its peer, or for the network to answer. *)

(** The stream and handshake of a fresh connection. *)
Definition accept_bi {A} (st : state) (p : peer)
    (handshake : SendStream -> RecvStream -> io A * SendStream * RecvStream)
    (serve : A -> SendStream -> RecvStream -> job) : option stepped :=
  match p_bi p with
  | Block => None
  | Fail _ => Some (ends st)
  | Ret (s, r) =>
      match handshake s r with
      | (Ret a, s, r) => Some (goes st (serve a s r))
      | (Fail _, _, _) => Some (ends st)
      | (Block, _, _) => None
      end
  end.

(** The body of the task the listener spawns: the service the peer negotiated. *)
Definition start (c : config) (e : env) (st : state) (p : peer) : option stepped :=
  match p_alpn p with
  | None => Some (ends st)
  | Some alpn =>
      match select_service (cf_mailbox c) (bool_decide (is_Some (cf_gossip c))) alpn with
      | CloseWith _ => Some (ends st)
      | ServeMailbox =>
          accept_bi st p (noise_responder_handshake_bound (HS := HS) (cf_sk c))
            (fun '(noise, binding) s r => MailRead binding 0 (mkLink s r noise))
      | ServeGossip =>
          match cf_gossip c with
          | None => Some (ends st)
          | Some set =>
              accept_bi st p (noise_responder_handshake (HS := HS) (cf_sk c))
                (fun noise s r => GossipRead set (mkLink s r noise))
          end
      | ServeRendezvous => Some (goes st Tunnel)
      | ServeRendezvousQuery =>
          match p_bi p with
          | Block => None
          | Fail _ => Some (ends st)
          | Ret (s, r) =>
              match serve_rendezvous_query (HS := HS) (T := T) (cf_sk c) (cf_authority_pop_pk c)
                      (e_hosted e) s r with
              | (Block, _, _) => None
              | _ => Some (ends st)
              end
          end
      | ServeMixnet =>
          accept_bi st p (noise_responder_handshake (HS := HS) (cf_sk c))
            (fun noise s r => MixRead (p_ip p) (mkLink s r noise))
      end
  end.

(** Read a packet and consult the per-source limiter. *)
Definition mix_read (e : env) (st : state) (src : RateLimit.IpAddr) (l : Link T) : option stepped :=
  match read_noise_frame l with
  | (Block, _) => None
  | (Fail _, _) => Some (ends st)
  | (Ret packet, l) =>
      let sh := st_shared st in
      let '(d, limiter) := RateLimit.per_source_check_at (sh_limiter sh) src
                             (rd_source (e_clock e)) (rd_new1 (e_clock e)) (rd_new2 (e_clock e)) in
      let st := set_shared st (mkShared limiter (sh_relay sh) (sh_rng sh)) in
      Some (mkStepped st (Some (if RateLimit.is_allowed d then MixProcess src packet l else MixRead src l)) None
              (EvChecked src (rd_source (e_clock e)) (rd_new1 (e_clock e)) (rd_new2 (e_clock e)) d))
  end.

Definition action_delay (a : action) : Z :=
  match a with Deliver d _ | PushRendezvous d _ _ | PoolSend d _ _ _ => d end.

(** Process a packet under the lock of the relay, and spawn what it leads to;
    a panic ends the task, which else goes on as [next]. *)
Definition process_packet (e : env) (st : state) (packet : list byte) (next : job) : stepped :=
  let i := Input (rd_rate (e_clock e)) (rd_replay (e_clock e)) packet in
  let sh := st_shared st in
  let '(o, relay, rng) := process_input (sh_relay sh) (sh_rng sh) i in
  let st := set_shared st (mkShared (sh_limiter sh) relay rng) in
  mkStepped st
    (match o with None => None | Some _ => Some next end)
    (a ← o ≫= outcome_action; Some (Sleeping (rd_replay (e_clock e) + action_delay a) a))
    (EvPacket i o).

(** The loop of [run_rendezvous_inbound]. *)
Definition inbound (e : env) (st : state) (packets : list (list byte)) (closed : stream_end)
    : option stepped :=
  match packets, closed with
  | packet :: packets, _ => Some (process_packet e st packet (Inbound packets closed))
  | [], Finished => Some (ends st)
  | [], Stalled => None
  end.

(** Read a request and serve it under the lock of the mailbox. *)
Definition mail_read (c : config) (e : env) (st : state) (binding : list byte) (served : nat)
    (l : Link T) : option stepped :=
  match read_noise_blob MAX_MAILBOX_FRAME l with
  | (Block, _) => None
  | (Fail _, _) => Some (ends st)
  | (Ret blob, l) =>
      let served := S served in
      if (MAX_MAILBOX_REQUESTS_PER_CONN <? served)%nat then
        match response_to_bytes (Error RateLimited) with
        | None => Some (ends st)
        | Some bytes =>
            match write_noise_blob MAX_MAILBOX_FRAME bytes l with
            | (Block, _) => None
            | _ => Some (ends st)
            end
        end
      else
        let '(resp, mb) := handle_request (cf_sk c) binding (cf_allow_unauthenticated c) (e_unix e)
                             blob (st_mailbox st) in
        Some (mkStepped (set_mailbox st mb) (Some (MailReply binding served resp l)) None
                (EvRequest binding (e_unix e) blob resp))
  end.

Definition mail_reply (st : state) (binding : list byte) (served : nat) (resp : MailboxResponse)
    (l : Link T) : option stepped :=
  match write_response resp l with
  | (Ret _, l) => Some (goes st (MailRead binding served l))
  | (Fail _, _) => Some (ends st)
  | (Block, _) => None
  end.

(** Read a roster and merge it, under one lock; reply with ours, under
    another. *)
Definition gossip_read (e : env) (st : state) (set : AuthoritySet) (l : Link T) : option stepped :=
  match read_noise_blob_capped MAX_GOSSIP_FRAME l with
  | (Block, _) => None
  | (Fail _, _) => Some (ends st)
  | (Ret blob, l) =>
      Some (goes (set_roster st (merge_gossip set (e_unix e) blob (st_roster st))) (GossipReply set l))
  end.

Definition gossip_reply (st : state) (set : AuthoritySet) (l : Link T) : option stepped :=
  match roster_to_vec (st_roster st) with
  | None => Some (ends st)
  | Some bytes =>
      match write_noise_blob MAX_MAILBOX_FRAME bytes l with
      | (Ret _, l) => Some (goes st (GossipRead set l))
      | (Fail _, _) => Some (ends st)
      | (Block, _) => None
      end
  end.

(** A packet leaves when its delay is over: it is handed to the pool or to the
    tunnel, and the task awaits the result; or it is given to the delivery handler,
    which may spawn a mailbox task in its place. *)
Definition leave (c : config) (e : env) (st : state) (wake : Z) (a : action) : option stepped :=
  if rd_source (e_clock e) <? wake then None else
  let next := match a with
              | Deliver _ payload => handler ← cf_delivery c; MailTask <$> handler payload
              | _ => Some (Sending a)
              end in
  Some (mkStepped st next None (EvLeft (rd_source (e_clock e)) a)).

(** What the call to the pool or the tunnel returned: [Ok false] when the hosted
    relay has no live tunnel.  It is logged and nothing else. *)
Definition forward (e : env) (a : action) : result TransportError bool :=
  match a with
  | Deliver _ _ => Ok true
  | PushRendezvous _ next_node_id packet => e_push e next_node_id packet
  | PoolSend _ next_addr next_node_id packet =>
      _ ← e_pool e next_addr next_node_id packet;
      Ok true
  end.

Definition sent (e : env) (st : state) (a : action) : stepped :=
  mkStepped st None None (EvForwarded a (forward e a)).

Definition mail_task (e : env) (st : state) (t : task) : stepped :=
  let '(drained, more, mb) := task_start t (st_mailbox st) (e_unix e) in
  mkStepped (set_mailbox st mb)
    (match drained with [] => None | _ => Some (SurbReply t drained more (e_unix e)) end) None
    (EvTask t (e_unix e) drained more).

Definition surb_reply (e : env) (st : state) (t : task) (drained : list (list byte)) (more : bool)
    (now : Z) : stepped :=
  let shipped := match t with
                 | TSurbFetch _ surb => surb_shipped (e_ship e) surb drained more
                 | TDeposit _ _ _ => true
                 end in
  mkStepped (set_mailbox st (task_finish (e_ship e) t drained more now (st_mailbox st))) None None
    (EvFinish t drained now shipped).

(** A reply that cannot be encoded is not given to the network. *)
Definition awaits_ship (t : task) (drained : list (list byte)) (more : bool) : bool :=
  match t with
  | TSurbFetch _ _ => bool_decide (is_Some (response_to_bytes (Delivery drained more)))
  | TDeposit _ _ _ => false
  end.

Definition flush (e : env) (st : state) (buf : list byte) (path : string) : stepped :=
  let written := ReplayPersist.write_encoded (e_faults e) (st_fs st) buf path in
  mkStepped (set_fs st (ReplayPersist.final_fs (st_fs st) written.2)) None None
    (EvWritten (bool_decide (is_Some (result_ok written.1)))).

Definition save (e : env) (st : state) (snap : MailboxSnapshot) (path : string) : stepped :=
  ends (set_fs st (last_fs (st_fs st) (persist_mailbox (e_store e) (st_fs st) path snap).2)).

(** What a task does by itself. *)
Definition advance (c : config) (e : env) (st : state) (j : job) : option stepped :=
  match j with
  | Connecting p => start c e st p
  | MixRead src l => mix_read e st src l
  | MixProcess src packet l => Some (process_packet e st packet (MixRead src l))
  | MailRead binding served l => mail_read c e st binding served l
  | MailReply binding served resp l => mail_reply st binding served resp l
  | GossipRead set l => gossip_read e st set l
  | GossipReply set l => gossip_reply st set l
  | Tunnel => None
  | Inbound packets closed => inbound e st packets closed
  | Sleeping wake a => leave c e st wake a
  | Sending _ => None
  | MailTask t => Some (mail_task e st t)
  | SurbReply t drained more now =>
      if awaits_ship t drained more then None else Some (surb_reply e st t drained more now)
  | Flush buf path => Some (flush e st buf path)
  | Save snap path => Some (save e st snap path)
  end.

(** What a task does when the network answers: a tunnel closes, the pool or a
    tunnel returns, a reply was shipped or not.  Nothing says that it ever does. *)
Definition answered (e : env) (st : state) (j : job) : option stepped :=
  match j with
  | Tunnel => Some (ends st)
  | Sending a => Some (sent e st a)
  | SurbReply t drained more now => Some (surb_reply e st t drained more now)
  | _ => None
  end.

Definition resume (c : config) (e : env) (st : state) (j : job) : option stepped :=
  match advance c e st j with
  | Some s => Some s
  | None => answered e st j
  end.

(** ** The machine *)
Record world : Type := mkWorld {
  w_clock : Z;
  w_state : state;
  w_permits : nat;
  w_jobs : gmap nat job;
  w_next : nat;
  w_shed : nat;
  w_history : list event;
}.

(** The relay as it starts: with the tasks [jobs]. *)
Definition starting (t : Z) (st : state) (jobs : list job) : world :=
  mkWorld t st MAX_INFLIGHT_CONNS (list_to_map (zip (seq 0 (length jobs)) jobs)) (length jobs) 0 [].

(** The accept loop: [try_acquire_owned], or shed the connection. *)
Definition incoming (p : peer) (w : world) : world :=
  match w_permits w with
  | O => mkWorld (w_clock w) (w_state w) 0 (w_jobs w) (w_next w) (S (w_shed w)) (w_history w)
  | S n =>
      mkWorld (w_clock w) (w_state w) n (<[w_next w := Connecting p]> (w_jobs w)) (S (w_next w))
        (w_shed w) (w_history w)
  end.

Definition spawn_job (j : option job) (w : world) : world :=
  match j with
  | None => w
  | Some j => mkWorld (w_clock w) (w_state w) (w_permits w) (<[w_next w := j]> (w_jobs w))
                (S (w_next w)) (w_shed w) (w_history w)
  end.

(** A tick of the persistence task: encode under the lock of the relay; the
    write happens outside it. *)
Definition tick (e : env) (w : world) : world :=
  let now := rd_source (e_clock e) in
  match encode_replay (sh_relay (st_shared (w_state w))) now (ReplayPersist.now_unix (e_wall e)) with
  | None => w
  | Some (buf, path) =>
      spawn_job (Some (Flush buf path))
        (mkWorld (rd_replay (e_clock e)) (w_state w) (w_permits w) (w_jobs w) (w_next w) (w_shed w)
           (w_history w ++ [EvEncoded now (ReplayPersist.now_unix (e_wall e))]))
  end.

(** A tick of the maintenance task of a hosted mailbox: prune and take a
    snapshot under its lock; the file is written outside it. *)
Definition maintain (c : config) (e : env) (w : world) : world :=
  match cf_maintenance c with
  | None => w
  | Some store_path =>
      let '(_, mb) := prune_expired (st_mailbox (w_state w)) (Keys.now_unix (e_wall e)) in
      spawn_job (Save (snapshot mb) <$> store_path)
        (mkWorld (rd_replay (e_clock e)) (set_mailbox (w_state w) mb) (w_permits w) (w_jobs w)
           (w_next w) (w_shed w) (w_history w))
  end.

(** The effect of a step of task [id], which was [j]; a connection task that
    ends returns its permit. *)
Definition commit (id : nat) (j : job) (e : env) (s : stepped) (w : world) : world :=
  spawn_job (s_spawn s)
    (mkWorld (rd_replay (e_clock e)) (s_state s)
       (if holds_permit j && bool_decide (s_next s = None) then S (w_permits w) else w_permits w)
       (match s_next s with
        | Some j' => <[id := j']> (w_jobs w)
        | None => delete id (w_jobs w)
        end)
       (w_next w) (w_shed w) (w_history w ++ [s_event s])).

(** The persistence task waits for its write before the next tick, and so does
    the maintenance task. *)
Definition is_flush (j : job) : bool := match j with Flush _ _ => true | _ => false end.
Definition is_save (j : job) : bool := match j with Save _ _ => true | _ => false end.
Definition none_of (f : job -> bool) (w : world) : Prop := map_Forall (fun _ j => f j = false) (w_jobs w).

#[global] Instance none_of_dec f w : Decision (none_of f w).
Proof. unfold none_of. apply _. Defined.

(** Steps of the tasks by themselves, steps of the tasks when the network may
    answer too, and those of the world around them. *)
Inductive unaided (c : config) : world -> world -> Prop :=
| unaided_step id j e s w :
    w_jobs w !! id = Some j -> env_from (w_clock w) e -> advance c e (w_state w) j = Some s ->
    unaided c w (commit id j e s w).

Inductive internal (c : config) : world -> world -> Prop :=
| internal_step id j e s w :
    w_jobs w !! id = Some j -> env_from (w_clock w) e -> resume c e (w_state w) j = Some s ->
    internal c w (commit id j e s w).

Inductive step (c : config) : world -> world -> Prop :=
| step_internal w w' : internal c w w' -> step c w w'
| step_incoming p w : step c w (incoming p w)
| step_tick e w : env_from (w_clock w) e -> none_of is_flush w -> step c w (tick e w)
| step_maintain e w : env_from (w_clock w) e -> none_of is_save w -> step c w (maintain c e w).

(** A relay that listens starts without tasks; one that dials starts with the
    loop of its tunnel. *)
Inductive initial (t : Z) (st : state) : world -> Prop :=
| initial_listen : initial t st (starting t st [])
| initial_dial packets closed : initial t st (starting t st [Inbound packets closed]).

Definition reachable (c : config) (t : Z) (st : state) (w : world) : Prop :=
  exists w0, initial t st w0 /\ rtc (step c) w0 w.

(** ** The entry points

    Each fills in what its callers leave out and starts the machine.  [pr] is
    what the process was started with beside them: the switch
    [ALLOW_UNAUTH_MAILBOX_FETCH] and the maintenance of the mailbox. *)
Record process_globals : Type := mkGlobals {
  pr_allow_unauthenticated : bool;
  pr_maintenance : option (option string);
}.

Section entry.
Context `{!Tls}.

Definition place_relay (st : state) (relay : Relay) : state :=
  set_shared st (mkShared (sh_limiter (st_shared st)) relay (sh_rng (st_shared st))).

Definition serve_endpoint_with_services_shared (pr : process_globals) (t : Z) (st : state)
    (endpoint : ServerEndpoint) (static_sk : list byte) (delivery : option DeliveryHandler)
    (mailbox : bool) (gossip : option AuthoritySet) (authority_pop_pk : option (list byte))
    : result TransportError (config * world) :=
  _ ← build_client_endpoint;
  Ok (mkConfig static_sk delivery mailbox (pr_allow_unauthenticated pr) gossip authority_pop_pk
        (pr_maintenance pr), starting t st []).

Definition serve_endpoint_with_services (pr : process_globals) (t : Z) (st : state) (endpoint : ServerEndpoint)
    (static_sk : list byte) (relay : Relay) (delivery : option DeliveryHandler) (mailbox : bool)
    (gossip : option AuthoritySet) (authority_pop_pk : option (list byte))
    : result TransportError (config * world) :=
  serve_endpoint_with_services_shared pr t (place_relay st relay) endpoint static_sk delivery
    mailbox gossip authority_pop_pk.

Definition serve_endpoint_with_mailbox (pr : process_globals) (t : Z) (st : state) (endpoint : ServerEndpoint)
    (static_sk : list byte) (relay : Relay) (delivery : option DeliveryHandler) (mailbox : bool)
    : result TransportError (config * world) :=
  serve_endpoint_with_services pr t st endpoint static_sk relay delivery mailbox None None.

Definition serve_endpoint (pr : process_globals) (t : Z) (st : state) (endpoint : ServerEndpoint)
    (static_sk : list byte) (relay : Relay) (delivery : option DeliveryHandler)
    : result TransportError (config * world) :=
  serve_endpoint_with_services pr t st endpoint static_sk relay delivery false None None.

Definition run_relay_listener_with_services_shared (pr : process_globals) (t : Z) (st : state)
    (listen_addr : SocketAddr) (static_sk : list byte) (delivery : option DeliveryHandler)
    (mailbox : bool) (gossip : option AuthoritySet) (authority_pop_pk : option (list byte))
    : result TransportError (config * world) :=
  server ← build_server_endpoint listen_addr;
  serve_endpoint_with_services_shared pr t st server static_sk delivery mailbox gossip
    authority_pop_pk.

Definition run_relay_listener_with_services (pr : process_globals) (t : Z) (st : state)
    (listen_addr : SocketAddr) (static_sk : list byte) (relay : Relay)
    (delivery : option DeliveryHandler) (mailbox : bool) (gossip : option AuthoritySet)
    (authority_pop_pk : option (list byte)) : result TransportError (config * world) :=
  run_relay_listener_with_services_shared pr t (place_relay st relay) listen_addr static_sk
    delivery mailbox gossip authority_pop_pk.

Definition run_relay_listener_with_mailbox (pr : process_globals) (t : Z) (st : state)
    (listen_addr : SocketAddr) (static_sk : list byte) (relay : Relay)
    (delivery : option DeliveryHandler) (mailbox : bool) : result TransportError (config * world) :=
  run_relay_listener_with_services pr t st listen_addr static_sk relay delivery mailbox None None.

Definition run_relay_listener (pr : process_globals) (t : Z) (st : state) (listen_addr : SocketAddr)
    (static_sk : list byte) (relay : Relay) (delivery : option DeliveryHandler)
    : result TransportError (config * world) :=
  run_relay_listener_with_mailbox pr t st listen_addr static_sk relay delivery false.

(** [packets] is what the rendezvous client of the absent module feeds into
    the channel. *)
Definition run_rendezvous_relay_shared (pr : process_globals) (t : Z) (st : state) (my_sk : list byte)
    (delivery : option DeliveryHandler) (packets : list (list byte)) (closed : stream_end)
    : result TransportError (config * world) :=
  _ ← build_client_endpoint;
  Ok (mkConfig my_sk delivery false (pr_allow_unauthenticated pr) None None (pr_maintenance pr),
      starting t st [Inbound packets closed]).

Definition run_rendezvous_relay (pr : process_globals) (t : Z) (st : state) (my_sk : list byte) (relay : Relay)
    (delivery : option DeliveryHandler) (packets : list (list byte)) (closed : stream_end)
    : result TransportError (config * world) :=
  run_rendezvous_relay_shared pr t (place_relay st relay) my_sk delivery packets closed.
End entry.
End listener.
