(* ===== verification/Concurrency.v ===== *)
(** * Theorems about the running relay

    Invariants of the machine of [Listener] under every interleaving: the relay
    and the mailbox are used as if by one caller at a time, permits are never
    lost, every accepted packet leaves exactly once and not before its delay,
    mail is never duplicated, and without new connections and timers the tasks
    come to rest, each waiting for its peer or for the network. *)

From S2P Require Import Prelude F64 Fs Rand Gotham Wire Process Services Server Net Endpoint Keys Listener.
From S2P Require Delay RateLimit Replay ReplayPersist.

(** ** What the tasks hold

    [held f m] lists, in some order, what the tasks of [m] hold according to
    [f]; it is only used up to permutation. *)
Section held.
Context {J A : Type} (f : J -> list A).

Definition held (m : gmap nat J) : list A := concat (f <$> (map_to_list m).*2).
Definition held_opt (j : option J) : list A := from_option f [] j.

Lemma held_empty : held ∅ = [].
Proof. unfold held. by rewrite map_to_list_empty. Qed.

Lemma held_insert m id j : m !! id = None -> held (<[id := j]> m) ≡ₚ f j ++ held m.
Proof. intros Hm. unfold held. by rewrite map_to_list_insert. Qed.

Lemma held_delete m id j : m !! id = Some j -> held m ≡ₚ f j ++ held (delete id m).
Proof.
  intros Hm. rewrite <- (insert_delete_id m id j) at 1 by done.
  apply held_insert. apply lookup_delete_eq.
Qed.

(** The task [id], which was [j], becomes [j'] or ends. *)
Lemma held_update m id j j' :
  m !! id = Some j ->
  f j ++ held (match j' with Some j' => <[id := j']> m | None => delete id m end) ≡ₚ
  held_opt j' ++ held m.
Proof.
  intros Hm. destruct j' as [j'|]; simpl; [|by rewrite (held_delete m id j)].
  rewrite <- insert_delete_eq, held_insert by apply lookup_delete_eq.
  rewrite (held_delete m id j) by done. by rewrite !app_assoc, (Permutation_app_comm (f j)).
Qed.

Lemma held_nil m : held m = [] -> forall id j, m !! id = Some j -> f j = [].
Proof.
  intros Hh id j Hj. pose proof (held_delete m id j Hj) as Hp. rewrite Hh in Hp.
  apply Permutation_nil in Hp. by apply app_nil in Hp as [-> _].
Qed.

End held.

(** Pruning a mailbox only removes. *)
Class PruneLaws `{!MailboxAuth, !MailboxApi, !MailboxLaws, !MailboxStore Mailbox} : Prop := {
  prune_stored : forall mb now, stored (prune_expired mb now).2 ⊆+ stored mb;
}.

(** ** Steps and what they keep *)
Section machine.
Context `{!Platform, !Gotham, !MailboxAuth, !MailboxApi, !MailboxCodec, !MailboxStore Mailbox, !RosterApi}
  {R HS T : Type} `{!Rng R, !Delay.Libm, !NoiseTransport T, !NoiseHandshake HS T,
    !HashOrder RateLimit.IpAddr (RateLimit.RateLimiter * Z)}.

#[local] Abbreviation job := (job (T := T)).
#[local] Abbreviation world := (world (R := R) (T := T)).
#[local] Abbreviation state := (state (R := R)).
#[local] Abbreviation stepped := (stepped (R := R) (T := T)).
#[local] Abbreviation advance := (advance (R := R) (HS := HS) (T := T)).
#[local] Abbreviation resume := (resume (R := R) (HS := HS) (T := T)).
#[local] Abbreviation unaided := (unaided (R := R) (HS := HS) (T := T)).
#[local] Abbreviation internal := (internal (R := R) (HS := HS) (T := T)).
#[local] Abbreviation step := (step (R := R) (HS := HS) (T := T)).
#[local] Abbreviation reachable := (reachable (R := R) (HS := HS) (T := T)).
Implicit Types (c : config) (w : world) (j : job) (st : state) (s : stepped) (e : env).

Definition fresh_ids w : Prop := forall id, (w_next w <= id)%nat -> w_jobs w !! id = None.

Lemma commit_fields id j e s w :
  let w' := commit id j e s w in
  w_clock w' = rd_replay (e_clock e) /\ w_state w' = s_state s /\
  w_history w' = w_history w ++ [s_event s] /\
  w_permits w' = (if holds_permit j && bool_decide (s_next s = None)
                  then S (w_permits w) else w_permits w).
Proof. unfold commit. by destruct (s_spawn s). Qed.

Lemma tick_fields e w :
  let w' := tick e w in
  (w_clock w' = w_clock w \/ w_clock w' = rd_replay (e_clock e)) /\ w_state w' = w_state w /\
  (w_history w' = w_history w \/
   w_history w' = w_history w ++ [EvEncoded (rd_source (e_clock e)) (ReplayPersist.now_unix (e_wall e))]) /\
  w_permits w' = w_permits w.
Proof. unfold tick. destruct (encode_replay _ _ _) as [[??]|]; simpl; auto 10. Qed.

Lemma maintain_fields c e w :
  let w' := maintain c e w in
  (w_clock w' = w_clock w \/ w_clock w' = rd_replay (e_clock e)) /\
  st_shared (w_state w') = st_shared (w_state w) /\
  (st_mailbox (w_state w') = st_mailbox (w_state w) \/
   st_mailbox (w_state w') = (prune_expired (st_mailbox (w_state w)) (Keys.now_unix (e_wall e))).2) /\
  w_history w' = w_history w /\ w_permits w' = w_permits w.
Proof.
  unfold maintain. destruct (cf_maintenance c) as [path|]; [|by auto].
  destruct (prune_expired _ _) as [n mb]. destruct path; simpl; auto 10.
Qed.

Lemma incoming_fields p w :
  let w' := incoming p w in
  w_clock w' = w_clock w /\ w_state w' = w_state w /\ w_history w' = w_history w.
Proof. unfold incoming. by destruct (w_permits w). Qed.

Lemma update_fresh w id (j' : option job) j :
  fresh_ids w -> w_jobs w !! id = Some j ->
  match j' with Some j' => <[id := j']> (w_jobs w) | None => delete id (w_jobs w) end !! w_next w = None.
Proof.
  intros Hf Hj. pose proof (Hf (w_next w) (le_n _)) as Hn.
  destruct j'; [rewrite lookup_insert_ne|rewrite lookup_delete_ne]; congruence.
Qed.

Lemma spawn_fresh (j : option job) w : fresh_ids w -> fresh_ids (spawn_job j w).
Proof.
  intros Hf. destruct j as [j|]; [|done]. intros id Hid. simpl in *.
  rewrite lookup_insert_ne by lia. apply Hf. lia.
Qed.

Lemma step_fresh c w w' : step c w w' -> fresh_ids w -> fresh_ids w'.
Proof.
  intros [w1 w2 [id j e s w1' Hj _ _]|p w1|e w1 _ _|e w1 _ _] Hf.
  - apply spawn_fresh. intros id' Hid'. simpl in *. pose proof (Hf id' Hid').
    destruct (s_next s); [rewrite lookup_insert_ne|rewrite lookup_delete_ne]; congruence.
  - intros id. unfold incoming. destruct (w_permits w1); simpl; intros Hid; [by apply Hf|].
    rewrite lookup_insert_ne by lia. apply Hf. lia.
  - unfold tick. destruct (encode_replay _ _ _) as [[buf path]|]; [|done]. by apply spawn_fresh.
  - unfold maintain. destruct (cf_maintenance c); [|done]. destruct (prune_expired _ _).
    by apply spawn_fresh.
Qed.

(** Induction over the reachable worlds. *)
Lemma reachable_invariant (P : world -> Prop) c t st :
  (forall w0, initial t st w0 -> P w0) ->
  (forall w w', step c w w' -> fresh_ids w -> P w -> P w') ->
  forall w, reachable c t st w -> fresh_ids w /\ P w.
Proof.
  intros Hinit Hstep w (w0 & Hw0 & Hrtc). assert (fresh_ids w0 /\ P w0) as Hboth.
  { split; [|by apply Hinit]. intros id. destruct Hw0; simpl; intros Hid; [done|].
    rewrite lookup_insert_ne by lia. done. }
  clear Hw0. induction Hrtc as [|w0 w1 w2 H01 _ IH]; [done|]. apply IH.
  destruct Hboth. eauto using step_fresh.
Qed.

(** What a step does to what the tasks hold. *)
Lemma held_commit {A} (f : job -> list A) id j e s w :
  w_jobs w !! id = Some j -> fresh_ids w ->
  f j ++ held f (w_jobs (commit id j e s w)) ≡ₚ
  held_opt f (s_next s) ++ held_opt f (s_spawn s) ++ held f (w_jobs w).
Proof.
  intros Hj Hf. pose proof (held_update f (w_jobs w) id j (s_next s) Hj) as Hu.
  pose proof (update_fresh w id (s_next s) j Hf Hj) as Hn.
  unfold commit. destruct (s_spawn s) as [j'|]; simpl; [|exact Hu].
  rewrite held_insert by exact Hn. rewrite (Permutation_app_swap_app (f j)), Hu.
  apply Permutation_app_swap_app.
Qed.

Lemma held_incoming {A} (f : job -> list A) p w :
  fresh_ids w ->
  held f (w_jobs (incoming p w)) ≡ₚ
  match w_permits w with O => [] | S _ => f (Connecting p) end ++ held f (w_jobs w).
Proof.
  intros Hf. unfold incoming. destruct (w_permits w); simpl; [done|].
  apply held_insert. by apply Hf.
Qed.

Lemma held_tick {A} (f : job -> list A) e w :
  fresh_ids w ->
  exists l, held f (w_jobs (tick e w)) ≡ₚ l ++ held f (w_jobs w) /\
    (l = [] \/ exists buf path, l = f (Flush buf path)).
Proof.
  intros Hf. unfold tick. destruct (encode_replay _ _ _) as [[buf path]|]; simpl; [|by exists []; auto].
  exists (f (Flush buf path)). split; [|by eauto]. apply held_insert. by apply Hf.
Qed.

Lemma held_maintain {A} (f : job -> list A) c e w :
  fresh_ids w ->
  exists l, held f (w_jobs (maintain c e w)) ≡ₚ l ++ held f (w_jobs w) /\
    (l = [] \/ exists snap path, l = f (Save snap path)).
Proof.
  intros Hf. unfold maintain. destruct (cf_maintenance c) as [[path|]|]; [| |by exists []; auto].
  all: destruct (prune_expired _ _) as [n mb]; simpl.
  2: by exists []; auto.
  exists (f (Save (snapshot mb) path)). split; [|by eauto]. apply held_insert. by apply Hf.
Qed.

(** A property of every task. *)
Definition all_jobs (P : job -> Prop) w : Prop := forall id j, w_jobs w !! id = Some j -> P j.

Lemma all_jobs_commit (P : job -> Prop) id j e s w :
  all_jobs P w -> (forall j', s_next s = Some j' -> P j') -> (forall j', s_spawn s = Some j' -> P j') ->
  all_jobs P (commit id j e s w).
Proof.
  intros Hall Hn Hs id' j'. unfold commit, spawn_job.
  assert (match s_next s with Some j2 => <[id := j2]> (w_jobs w) | None => delete id (w_jobs w) end
            !! id' = Some j' -> P j') as Hupd.
  { destruct (s_next s) as [j2|].
    - intros [[_ <-]|[_ Hl]]%lookup_insert_Some; eauto.
    - intros [_ Hl]%lookup_delete_Some. eauto. }
  destruct (s_spawn s) as [j2|]; simpl; [|done].
  intros [[_ <-]|[_ Hl]]%lookup_insert_Some; [by apply Hs|by apply Hupd].
Qed.

Lemma all_jobs_incoming (P : job -> Prop) p w :
  all_jobs P w -> P (Connecting p) -> all_jobs P (incoming p w).
Proof.
  intros Hall Hp id j. unfold incoming. destruct (w_permits w); simpl; [eauto|].
  rewrite lookup_insert_Some. intros [[_ <-]|[_ Hl]]; [done|eauto].
Qed.

Lemma all_jobs_tick (P : job -> Prop) e w :
  all_jobs P w -> (forall buf path, P (Flush buf path)) -> all_jobs P (tick e w).
Proof.
  intros Hall Hp id j. unfold tick. destruct (encode_replay _ _ _) as [[buf path]|]; simpl; [|eauto].
  rewrite lookup_insert_Some. intros [[_ <-]|[_ Hl]]; [done|eauto].
Qed.

Lemma all_jobs_maintain (P : job -> Prop) c e w :
  all_jobs P w -> (forall snap path, P (Save snap path)) -> all_jobs P (maintain c e w).
Proof.
  intros Hall Hp id j. unfold maintain. destruct (cf_maintenance c) as [[path|]|]; [| |by eauto].
  all: destruct (prune_expired _ _) as [n mb]; simpl.
  2: by eauto.
  rewrite lookup_insert_Some. intros [[_ <-]|[_ Hl]]; [done|eauto].
Qed.

Lemma all_jobs_initial (P : job -> Prop) t st w :
  initial t st w -> (forall packets closed, P (Inbound packets closed)) -> all_jobs P w.
Proof.
  intros [|packets closed] Hp id j; simpl; [done|].
  rewrite lookup_insert_Some. intros [[_ <-]|[_ [=]]]. done.
Qed.

(** ** The steps of a task, by their effect

    The work a task has left: a bound on its own steps and on those of the
    tasks it can still spawn, from the input it has not read. *)
Definition weight (j : job) : nat :=
  match j with
  | Connecting p => match p_bi p with Ret (_, r) => 16 * length (r_buf r) + 2 | _ => 2 end
  | MixRead _ l | MailRead _ _ l | GossipRead _ l => 16 * unread l + 1
  | MixProcess _ _ l => 16 * unread l + 12
  | MailReply _ _ _ l | GossipReply _ l => 16 * unread l + 2
  | Tunnel => 1
  | Inbound packets _ => 16 * length packets + 1
  | Sleeping _ _ => 4
  | MailTask _ => 3
  | SurbReply _ _ _ _ => 2
  | Sending _ => 1
  | Flush _ _ | Save _ _ => 1
  end%nat.

Definition weight_opt (j : option job) : nat := from_option weight 0%nat j.

(** Whether a packet goes to another relay. *)
Definition is_forward (a : action) : bool := match a with Deliver _ _ => false | _ => true end.

(** The tasks the delivery handler spawns. *)
Definition handler_spawns c (t : task) : Prop :=
  exists h payload, cf_delivery c = Some h /\ h payload = Some t.

Definition takes_packets j : bool :=
  match j with MixRead _ _ | MixProcess _ _ _ | Inbound _ _ => true | _ => false end.

(** What the task of a packet becomes when the packet leaves. *)
Inductive after_leave c (a : action) : option job -> Prop :=
| after_end : after_leave c a None
| after_handler t : handler_spawns c t -> after_leave c a (Some (MailTask t))
| after_hand_over : is_forward a = true -> after_leave c a (Some (Sending a)).

(** The tasks that only read, write and take the roster; those that take a
    packet; and so on. *)
Inductive transition c e st : job -> stepped -> Prop :=
| tr_quiet j (j' : option job) st' :
    holds_permit j = true -> from_option holds_permit true j' = true ->
    (weight_opt j' < weight j)%nat ->
    sh_relay (st_shared st') = sh_relay (st_shared st) ->
    sh_rng (st_shared st') = sh_rng (st_shared st) ->
    st_mailbox st' = st_mailbox st -> st_fs st' = st_fs st ->
    sh_limiter (st_shared st') = sh_limiter (st_shared st) ->
    transition c e st j (mkStepped st' j' None EvNone)
| tr_closed : transition c e st (Inbound [] Finished) (ends st)
| tr_packet j next packet :
    holds_permit next = holds_permit j -> (weight next + 8 <= weight j)%nat ->
    takes_packets j = true -> takes_packets next = true ->
    transition c e st j (process_packet e st packet next)
| tr_request binding served l l' blob resp mb :
    handle_request (cf_sk c) binding (cf_allow_unauthenticated c) (e_unix e) blob (st_mailbox st) =
      (resp, mb) ->
    (unread l' < unread l)%nat ->
    transition c e st (MailRead binding served l)
      (mkStepped (set_mailbox st mb) (Some (MailReply binding (S served) resp l')) None
         (EvRequest binding (e_unix e) blob resp))
| tr_leave wake a (next : option job) :
    wake <= rd_source (e_clock e) -> after_leave c a next ->
    (is_forward a = true -> next = Some (Sending a)) ->
    transition c e st (Sleeping wake a) (mkStepped st next None (EvLeft (rd_source (e_clock e)) a))
| tr_task t : transition c e st (MailTask t) (mail_task e st t)
| tr_finish t drained more now :
    transition c e st (SurbReply t drained more now) (surb_reply e st t drained more now)
| tr_flush buf path : transition c e st (Flush buf path) (flush e st buf path)
| tr_save snap path : transition c e st (Save snap path) (save e st snap path)
| tr_checked src l j' lim d :
    holds_permit j' = true -> (weight j' < weight (MixRead src l))%nat -> takes_packets j' = true ->
    RateLimit.per_source_check_at (sh_limiter (st_shared st)) src (rd_source (e_clock e))
      (rd_new1 (e_clock e)) (rd_new2 (e_clock e)) = (d, lim) ->
    transition c e st (MixRead src l)
      (mkStepped (set_shared st (mkShared lim (sh_relay (st_shared st)) (sh_rng (st_shared st))))
         (Some j') None
         (EvChecked src (rd_source (e_clock e)) (rd_new1 (e_clock e)) (rd_new2 (e_clock e)) d))
| tr_sent a : transition c e st (Sending a) (sent e st a).

Lemma responder_shrinks' sk (s : SendStream) r :
  (length (r_buf (noise_responder_handshake (HS := HS) (T := T) sk s r).2) <= length (r_buf r))%nat.
Proof.
  pose proof (responder_shrinks (HS := HS) (T := T) sk s r) as Hs.
  unfold noise_responder_handshake. by destruct (noise_responder_handshake_bound sk s r) as [[??]?].
Qed.

Lemma tr_ends c e st j : holds_permit j = true -> transition c e st j (ends st).
Proof. intros Hp. apply tr_quiet; try done. destruct j; simpl in *; try done; repeat case_match; lia. Qed.

Lemma accept_bi_transition {A} c e st p
    (hs : SendStream -> RecvStream -> io A * SendStream * RecvStream)
    (serve : A -> SendStream -> RecvStream -> job) s :
  (forall so r, (length (r_buf (hs so r).2) <= length (r_buf r))%nat) ->
  (forall a so r, weight (serve a so r) = 16 * length (r_buf r) + 1 /\
     holds_permit (serve a so r) = true)%nat ->
  accept_bi st p hs serve = Some s -> transition c e st (Connecting p) s.
Proof.
  intros Hhs Hserve. unfold accept_bi.
  destruct (p_bi p) as [[snd rcv]|err|] eqn:Hp; [|intros [= <-]; by apply tr_ends|done].
  specialize (Hhs snd rcv).
  destruct (hs snd rcv) as [[[a|err|] snd'] rcv']; [|intros [= <-]; by apply tr_ends|done].
  intros [= <-]. destruct (Hserve a snd' rcv') as [Hw Hh].
  apply tr_quiet; try done. simpl in *. rewrite Hw, Hp. lia.
Qed.

Lemma start_transition c e st p s :
  start (HS := HS) (T := T) c e st p = Some s -> transition c e st (Connecting p) s.
Proof.
  unfold start. destruct (p_alpn p) as [alpn|]; [|intros [= <-]; by apply tr_ends].
  destruct (select_service _ _ alpn).
  - apply accept_bi_transition; [apply responder_shrinks'|done].
  - apply accept_bi_transition; [apply responder_shrinks|]. by intros [??] ??.
  - destruct (cf_gossip c) as [set|]; [|intros [= <-]; by apply tr_ends].
    apply accept_bi_transition; [apply responder_shrinks'|done].
  - intros [= <-]. apply tr_quiet; try done. simpl. repeat case_match; lia.
  - destruct (p_bi p) as [[snd rcv]|err|]; [|intros [= <-]; by apply tr_ends|done].
    destruct (serve_rendezvous_query _ _ _ _ _) as [[[]]]; intros [= <-]; by apply tr_ends.
  - intros [= <-]. by apply tr_ends.
Qed.

Lemma advance_transition c e st j s : advance c e st j = Some s -> transition c e st j s.
Proof.
  destruct j as [p|src l|src packet l|binding served l|binding served resp l|set l|set l| |ps cl|
    wake a|a|t|t drained more now|buf path|snap path]; simpl; try done.
  - apply start_transition.
  - unfold mix_read. destruct (read_noise_frame l) as [[packet|err|] l'] eqn:Hr; [|intros [= <-]; by apply tr_ends|done].
    apply read_frame_unread in Hr. destruct (RateLimit.per_source_check_at _ _ _ _ _) as [d lim] eqn:Hc.
    intros [= <-]. apply tr_checked; try done; destruct (RateLimit.is_allowed d); simpl; lia || done.
  - intros [= <-]. apply tr_packet; simpl; auto; lia.
  - unfold mail_read. destruct (read_noise_blob _ l) as [[blob|err|] l'] eqn:Hr; [|intros [= <-]; by apply tr_ends|done].
    apply read_blob_unread in Hr. case_match.
    { repeat case_match; intros [= <-]; by apply tr_ends. }
    destruct (handle_request _ _ _ _ _ _) as [resp mb] eqn:Hh. intros [= <-]. by eapply tr_request.
  - unfold mail_reply, write_response. destruct (response_to_bytes resp) as [bytes|].
    2:{ intros [= <-]. by apply tr_ends. }
    pose proof (keeps_recv_write_blob MAX_MAILBOX_FRAME bytes l) as Hk.
    destruct (write_noise_blob _ bytes l) as [[u|err|] l'] eqn:Hw; [|intros [= <-]; by apply tr_ends|done].
    intros [= <-]. apply tr_quiet; try done. simpl in *. unfold unread. rewrite Hk. lia.
  - unfold gossip_read. destruct (read_noise_blob_capped _ l) as [[blob|err|] l'] eqn:Hr; [|intros [= <-]; by apply tr_ends|done].
    apply read_blob_unread in Hr. intros [= <-]. apply tr_quiet; try done. simpl. lia.
  - unfold gossip_reply. destruct (roster_to_vec _) as [bytes|]; [|intros [= <-]; by apply tr_ends].
    pose proof (keeps_recv_write_blob MAX_MAILBOX_FRAME bytes l) as Hk.
    destruct (write_noise_blob _ bytes l) as [[u|err|] l'] eqn:Hw; [|intros [= <-]; by apply tr_ends|done].
    intros [= <-]. apply tr_quiet; try done. simpl in *. unfold unread. rewrite Hk. lia.
  - unfold inbound. destruct ps as [|p ps]; [destruct cl; [|done]; intros [= <-]; apply tr_closed|].
    intros [= <-]. apply tr_packet; simpl; eauto. lia.
  - unfold leave. destruct (Z.ltb_spec (rd_source (e_clock e)) wake) as [|Hw]; [done|]. intros [= <-].
    destruct a as [d payload| |]; [|by apply tr_leave; [|constructor|]..]. apply tr_leave; [done| |done].
    destruct (cf_delivery c) as [h|] eqn:Hd; simpl; [|constructor].
    destruct (h payload) as [t|] eqn:Ht; constructor. exists h, payload. by rewrite Hd.
  - intros [= <-]. apply tr_task.
  - destruct (awaits_ship t drained more); [done|]. intros [= <-]. apply tr_finish.
  - intros [= <-]. apply tr_flush.
  - intros [= <-]. apply tr_save.
Qed.

Lemma resume_transition c e st j s : resume c e st j = Some s -> transition c e st j s.
Proof.
  unfold Listener.resume. destruct (advance c e st j) as [s'|] eqn:Ha; [intros [= <-]; by apply advance_transition|].
  destruct j; simpl; try done; intros [= <-]; [by apply tr_ends|apply tr_sent|apply tr_finish].
Qed.

(** ** Permits *)
Definition permit_of j : list unit := if holds_permit j then [tt] else [].

Lemma transition_permit c e st j s :
  transition c e st j s ->
  (length (held_opt permit_of (s_next s)) + length (held_opt permit_of (s_spawn s)) +
   (if holds_permit j && bool_decide (s_next s = None) then 1 else 0))%nat =
  length (permit_of j).
Proof.
  intros Ht. unfold permit_of. destruct Ht as [j j' st' Hj Hj'| |j next packet Hn _ _ _| |wake a next _ [] _| | | | |src l j' lim d Hj'|];
    try done; simpl.
  - rewrite Hj. destruct j' as [j'|]; simpl in *; [|done]. by rewrite Hj'.
  - unfold process_packet. destruct (process_input _ _ _) as [[o r] rng]. simpl.
    rewrite <- Hn. destruct o as [o|]; simpl.
    + destruct (outcome_action o), (holds_permit next); done.
    + by destruct (holds_permit next).
  - unfold mail_task. destruct (task_start _ _ _) as [[[] ?] ?]; done.
  - by rewrite Hj'.
Qed.

(** The connection tasks. *)
Definition connections w : gmap nat job := filter (fun x => holds_permit x.2 = true) (w_jobs w).

Lemma connections_size w : size (connections w) = length (held permit_of (w_jobs w)).
Proof.
  unfold connections. induction (w_jobs w) as [|id j m Hm IH] using map_ind; [done|].
  rewrite held_insert, length_app, <- IH by done. unfold permit_of.
  destruct (holds_permit j) eqn:Hj.
  - rewrite map_filter_insert_True by done. rewrite map_size_insert_None; [done|].
    apply map_lookup_filter_None. by left.
  - rewrite map_filter_insert_False by (simpl; congruence). by rewrite delete_id.
Qed.

Lemma permits_conserved c t st w :
  reachable c t st w -> (w_permits w + size (connections w))%nat = MAX_INFLIGHT_CONNS.
Proof.
  intros Hw. rewrite connections_size. revert w Hw.
  refine (fun w Hw => proj2 (reachable_invariant (fun w => w_permits w + length (held permit_of (w_jobs w)) = MAX_INFLIGHT_CONNS)%nat c t st _ _ w Hw)).
  - intros w0 []; [done|].
    cbn -[MAX_INFLIGHT_CONNS]. rewrite (held_insert permit_of) by done. rewrite held_empty. apply Nat.add_0_r.
  - clear w Hw. intros w w' [w1 w2 [id j e s w1' Hj He Ha]|p w1|e w1 He _|e w1 He _] Hf Hinv.
    + apply resume_transition, transition_permit in Ha.
      destruct (commit_fields id j e s w1') as (_ & _ & _ & ->).
      pose proof (Permutation_length (held_commit permit_of id j e s w1' Hj Hf)) as Hl.
      rewrite !length_app in Hl. destruct (holds_permit j && _); lia.
    + pose proof (Permutation_length (held_incoming permit_of p w1 Hf)) as Hl. rewrite Hl.
      unfold incoming. destruct (w_permits w1); simpl in *; lia.
    + destruct (tick_fields e w1) as (_ & _ & _ & ->).
      destruct (held_tick permit_of e w1 Hf) as (l & -> & [->|(b & p & ->)]); done.
    + destruct (maintain_fields c e w1) as (_ & _ & _ & _ & ->).
      destruct (held_maintain permit_of c e w1 Hf) as (l & -> & [->|(b & p & ->)]); done.
Qed.

(** ** The relay as one object *)
Definition packets_of (h : list event) : list (input * option ProcessOutcome) :=
  omap (fun ev => match ev with EvPacket i o => Some (i, o) | _ => None end) h.

Lemma run_outcomes r rng ins os r' rng' :
  run (R := R) r rng ins = (os, r', rng') -> length os = length ins.
Proof.
  revert r rng os. induction ins as [|i ins IH]; intros r rng os; simpl; [by intros [= <-]|].
  destruct (process_input r rng i) as [[o r1] rng1].
  destruct (run r1 rng1 ins) as [[os1 r2] rng2] eqn:Hr. intros [= <- <- <-]. simpl. apply IH in Hr. by rewrite Hr.
Qed.

(** A reading of the clock, as the end of a run. *)
Definition reading (t : Z) : input := Input t t [].

Lemma clock_later t ins t1 t2 :
  t1 <= t2 -> clock t (ins ++ [reading t1]) -> clock t (ins ++ [reading t2]).
Proof.
  intros Ht. revert t. induction ins as [|i ins IH]; intros t; simpl; [lia|].
  intros [? ?]. split; [done|]. by apply IH.
Qed.

Lemma clock_earlier t t' ins : t <= t' -> clock t' ins -> clock t ins.
Proof. destruct ins as [|i ins]; simpl; [done|]. intros ? [? ?]. split; [lia|done]. Qed.

Lemma clock_prefix t ins ins' : clock t (ins ++ ins') -> clock t ins.
Proof.
  revert t. induction ins as [|i ins IH]; intros t; simpl; [done|]. intros [? ?]. eauto.
Qed.

Lemma clock_snoc t ins i :
  clock t (ins ++ [reading (i_replay i)]) -> clock t ((ins ++ [i]) ++ [reading (i_replay i)]).
Proof.
  revert t. induction ins as [|j ins IH]; intros t; simpl; [lia|].
  intros [? ?]. split; [done|]. by apply IH.
Qed.

Lemma transition_relay c e st j s :
  transition c e st j s ->
  let sh := st_shared st in let sh' := st_shared (s_state s) in
  match s_event s with
  | EvPacket i o =>
      process_input (sh_relay sh) (sh_rng sh) i = (o, sh_relay sh', sh_rng sh') /\
      i_replay i = rd_replay (e_clock e)
  | _ => sh_relay sh' = sh_relay sh /\ sh_rng sh' = sh_rng sh
  end.
Proof.
  intros [j' j2 st' _ _ _ Hr Hg _ _| |j' next packet _ _ _ _| | |t | | | | |]; try done; simpl.
  - unfold process_packet. destruct (process_input _ _ _) as [[o r] rng] eqn:Hp. done.
  - unfold mail_task. by destruct (task_start _ _ _) as [[??]?].
Qed.

(** The relay is used as by one caller: its state and the outcomes are those
    of the packets processed one after the other, in the order of the history. *)
Lemma relay_serialised c t st w :
  reachable c t st w ->
  let ps := packets_of (w_history w) in
  run (sh_relay (st_shared st)) (sh_rng (st_shared st)) ps.*1 =
    (ps.*2, sh_relay (st_shared (w_state w)), sh_rng (st_shared (w_state w))) /\
  clock t (ps.*1 ++ [reading (w_clock w)]).
Proof.
  intros Hw. refine (proj2 (reachable_invariant (fun w => let ps := packets_of (w_history w) in
    run (sh_relay (st_shared st)) (sh_rng (st_shared st)) ps.*1 =
      (ps.*2, sh_relay (st_shared (w_state w)), sh_rng (st_shared (w_state w))) /\
    clock t (ps.*1 ++ [reading (w_clock w)])) c t st _ _ w Hw)).
  - intros w0 []; simpl; (split; [done|lia]).
  - clear w Hw. intros w w' [w1 w2 [id j e s w1' Hj He Ha]|p w1|e w1 He _|e w1 He _] _; cbv zeta.
    + apply resume_transition, transition_relay in Ha. cbv zeta in Ha.
      destruct (commit_fields id j e s w1') as (-> & -> & -> & _). intros [Hrun Hclk].
      assert (w_clock w1' <= rd_replay (e_clock e)) as Hle by (destruct He; lia).
      unfold packets_of in *. rewrite omap_app.
      destruct (s_event s) as [|i o| | | | | | | |]; simpl in *; rewrite ?app_nil_r;
        try (destruct Ha as [-> ->]; split; [done|by eapply clock_later]).
      destruct Ha as [Hp Hi]. rewrite !fmap_app, relay_run_app, Hrun. simpl. rewrite Hp. simpl.
      split; [done|]. rewrite <- Hi. apply clock_snoc. eapply clock_later; [|exact Hclk]. lia.
    + by destruct (incoming_fields p w1) as (-> & -> & ->).
    + destruct (tick_fields e w1) as (Ht & -> & Hh & _).
      assert (packets_of (w_history (tick e w1)) = packets_of (w_history w1)) as ->.
      { unfold packets_of. destruct Hh as [->| ->]; rewrite ?omap_app; simpl; by rewrite ?app_nil_r. }
      intros [? Hclk]. split; [done|].
      eapply clock_later; [|exact Hclk]. destruct He, Ht as [-> | ->]; lia.
    + destruct (maintain_fields c e w1) as (Ht & -> & _ & -> & _). intros [? Hclk]. split; [done|].
      eapply clock_later; [|exact Hclk]. destruct He, Ht as [-> | ->]; lia.
Qed.

(** What the relay did with two packets of a history. *)
Lemma serialised_split r rng pre a mid b post oa ob r' rng' :
  run r rng ((pre ++ (a, oa) :: mid ++ (b, ob) :: post).*1) =
    ((pre ++ (a, oa) :: mid ++ (b, ob) :: post).*2, r', rng') ->
  let '(_, r1, rng1) := run r rng pre.*1 in
  let '(oa', r2, rng2) := process_input r1 rng1 a in
  let '(_, r3, rng3) := run r2 rng2 mid.*1 in
  oa' = oa /\ outcome (process_input r3 rng3 b) = ob.
Proof.
  rewrite !fmap_app, relay_run_app. cbn [fmap list_fmap fst snd].
  destruct (run r rng pre.*1) as [[os1 r1] rng1] eqn:Hr1. simpl.
  destruct (process_input r1 rng1 a) as [[oa' r2] rng2]. rewrite fmap_app, relay_run_app. simpl.
  destruct (run r2 rng2 mid.*1) as [[os3 r3] rng3] eqn:Hr3. unfold outcome.
  destruct (process_input r3 rng3 b) as [[ob' r4] rng4].
  destruct (run r4 rng4 _) as [[os5 r5] rng5]. intros Heq. injection Heq as Heq _ _.
  apply run_outcomes in Hr1, Hr3.
  apply app_inj_1 in Heq as [_ Heq]; [|by rewrite Hr1, !length_fmap]. injection Heq as -> Heq.
  rewrite fmap_app in Heq. apply app_inj_1 in Heq as [_ Heq]; [by injection Heq as -> _|].
  by rewrite Hr3, !length_fmap.
Qed.

(** ** Departures *)

(** The accepted packets, with the time of acceptance; those that left, with
    the time they did; those that still wait. *)
Definition accepted_of (h : list event) : list (Z * action) :=
  omap (fun ev => match ev with
    | EvPacket i o => a ← o ≫= outcome_action; Some (i_replay i, a)
    | _ => None
    end) h.

Definition left_of (h : list event) : list (Z * action) :=
  omap (fun ev => match ev with EvLeft at_ a => Some (at_, a) | _ => None end) h.

Definition asleep j : list (Z * action) :=
  match j with Sleeping wake a => [(wake - action_delay a, a)] | _ => [] end.

(** A packet's way through the relay: accepted at [x], left at [y]. *)
Definition stay : Type := Z * Z * action.
Definition stay_in (d : stay) : Z * action := (d.1.1, d.2).
Definition stay_out (d : stay) : Z * action := (d.1.2, d.2).
Definition stayed (d : stay) : Prop := d.1.1 + action_delay d.2 <= d.1.2.

Lemma transition_asleep c e st j s :
  transition c e st j s ->
  match s_event s with
  | EvLeft at_ a => exists x, x + action_delay a <= at_ /\ asleep j = [(x, a)] /\
      held_opt asleep (s_next s) = [] /\ held_opt asleep (s_spawn s) = [] /\ accepted_of [s_event s] = []
  | ev => asleep j = [] /\ held_opt asleep (s_next s) = [] /\
      held_opt asleep (s_spawn s) = accepted_of [ev]
  end.
Proof.
  assert (forall j, holds_permit j = true -> asleep j = []) as Hp by by intros [].
  intros [j' j2 st' Hj Hj2| |j' next packet _ _ Hj Hn| |wake a next Hw Hh _|t|t| | |src l j' lim d Hj' _ _|]; try done; simpl.
  - split; [by apply Hp|]. split; [|done]. destruct j2 as [j2|]; [by apply Hp|done].
  - unfold process_packet. destruct (process_input _ _ _) as [[o r] rng]. simpl.
    split; [by destruct j'|]. split; [destruct o as [o|]; [by destruct next|done]|].
    destruct o as [o|]; [|done]. simpl. destruct (outcome_action o) as [a|]; [|done]. simpl.
    do 2 f_equal. lia.
  - exists (wake - action_delay a). split; [lia|]. by destruct Hh.
  - unfold mail_task. destruct (task_start _ _ _) as [[[] ?] ?]; done.
  - split; [done|]. split; [by apply Hp|done].
Qed.

(** Every accepted packet is either asleep or has left, once, and not before
    its delay had passed. *)
Lemma departures c t st w :
  reachable c t st w ->
  exists stays, stay_out <$> stays = left_of (w_history w) /\
    (stay_in <$> stays) ++ held asleep (w_jobs w) ≡ₚ accepted_of (w_history w) /\
    Forall stayed stays.
Proof.
  intros Hw. refine (proj2 (reachable_invariant (fun w => exists stays,
    stay_out <$> stays = left_of (w_history w) /\
    (stay_in <$> stays) ++ held asleep (w_jobs w) ≡ₚ accepted_of (w_history w) /\
    Forall stayed stays) c t st _ _ w Hw)).
  - intros w0 []; exists []; (split_and!; [done| |done]); [done|].
    simpl. rewrite (held_insert asleep) by done. by rewrite held_empty.
  - clear w Hw. intros w w' [w1 w2 [id j e s w1' Hj He Ha]|p w1|e w1 He _|e w1 He _] Hf (stays & Hout & Hin & Hst).
    + apply resume_transition, transition_asleep in Ha.
      destruct (commit_fields id j e s w1') as (_ & _ & -> & _).
      pose proof (held_commit asleep id j e s w1' Hj Hf) as Hc.
      unfold accepted_of, left_of in *. rewrite !omap_app.
      destruct (s_event s) as [| i o|at_ a| | | | | | |] eqn:Hev.
      3:{ destruct Ha as (x & Hx & Hj' & Hn & Hs & _). rewrite Hn, Hs, Hj' in Hc. simpl in Hc.
          exists (stays ++ [(x, at_, a)]). rewrite !fmap_app, Hout. simpl. rewrite app_nil_r.
          split_and!; [done| |by apply Forall_app; split; [|constructor]].
          rewrite <- app_assoc. simpl. rewrite Hc. done. }
      all: destruct Ha as (Hj' & Hn & Hs); rewrite Hj', Hn, Hs in Hc; simpl in Hc;
        exists stays; rewrite Hout; simpl; rewrite app_nil_r; (split_and!; [done| |done]);
        rewrite Hc, <- Hin, ?app_nil_r; try done.
      destruct (o ≫= outcome_action) as [a|]; simpl; rewrite ?app_nil_r; try done.
      by rewrite <- Permutation_middle, Permutation_cons_append.
    + destruct (incoming_fields p w1) as (_ & _ & ->). exists stays.
      rewrite (held_incoming asleep p w1 Hf). by destruct (w_permits w1).
    + exists stays. destruct (tick_fields e w1) as (_ & _ & Hh & _).
      assert (left_of (w_history (tick e w1)) = left_of (w_history w1) /\
        accepted_of (w_history (tick e w1)) = accepted_of (w_history w1)) as [-> ->].
      { unfold left_of, accepted_of. destruct Hh as [->| ->]; rewrite ?omap_app; simpl; by rewrite ?app_nil_r. }
      destruct (held_tick asleep e w1 Hf) as (l & -> & [->|(b & p & ->)]); done.
    + destruct (maintain_fields c e w1) as (_ & _ & _ & -> & _). exists stays.
      destruct (held_maintain asleep c e w1 Hf) as (l & -> & [->|(b & p & ->)]); done.
Qed.


Definition answered_of (h : list event) : list action :=
  omap (fun ev => match ev with EvForwarded a _ => Some a | _ => None end) h.














(** An environment at time [t]; [hosted] is the answer of the rendezvous table. *)
Definition env_answering (hosted : bool) (t : Z) : env :=
  mkEnv (mkReadings t t t t t) (Some 0) (fun _ _ => true) (fun _ => hosted) (fun _ _ => Ok true) (fun _ _ _ => Ok tt)
    ReplayPersist.no_faults (StoreFaults None None None).

Definition env_at : Z -> env := env_answering false.












(** ** Mail *)
Definition ev_deposits (ev : event) : list (list byte * list byte) :=
  match ev with
  | EvRequest _ _ blob resp => request_deposits blob resp
  | EvTask (TDeposit id sealed _) _ _ _ => [(id, sealed)]
  | _ => []
  end.

Definition ev_hands (ev : event) : list (list byte * list byte) :=
  match ev with
  | EvRequest _ _ blob resp => request_hands blob resp
  | EvFinish (TSurbFetch id _) drained _ true => pair id <$> drained
  | _ => []
  end.

(** The envelopes that were deposited, those that were handed out, and those a
    task holds between its two critical sections. *)
Definition deposited_of (h : list event) : list (list byte * list byte) := concat (ev_deposits <$> h).
Definition handed_of (h : list event) : list (list byte * list byte) := concat (ev_hands <$> h).

Definition mail_of j : list (list byte * list byte) :=
  match j with SurbReply (TSurbFetch id _) drained _ _ => pair id <$> drained | _ => [] end.

Lemma transition_mail `{!MailboxLaws} c e st j s :
  transition c e st j s ->
  ev_hands (s_event s) ++ held_opt mail_of (s_next s) ++ stored (st_mailbox (s_state s)) ⊆+
  ev_deposits (s_event s) ++ mail_of j ++ stored (st_mailbox st) /\
  held_opt mail_of (s_spawn s) = [].
Proof.
  assert (forall j, holds_permit j = true -> mail_of j = []) as Hp by by intros [].
  intros [j' j2 st' Hj Hj2 _ _ _ Hmb _| |j' next packet _ _ Hj Hn|b sv l l' blob resp mb Hh _|wake a next Hw Hh _|t|t d m n| | |src l j' lim d Hj' _ _ _|];
    try done; simpl.
  - rewrite Hmb, (Hp j') by done. split; [|done]. destruct j2 as [j2|]; simpl in *; [by rewrite Hp|done].
  - unfold process_packet. destruct (process_input _ _ _) as [[o r] rng]. simpl.
    assert (mail_of j' = []) as -> by by destruct j'.
    assert (mail_of next = []) as Hnext by by destruct next.
    destruct o as [o|]; simpl; rewrite ?Hnext; [|done]. split; [done|]. by destruct (outcome_action o).
  - pose proof (handle_request_stored (cf_sk c) b (cf_allow_unauthenticated c) (e_unix e) blob
      (st_mailbox st)) as Hs. rewrite Hh in Hs. done.
  - split; [|done]. by destruct Hh.
  - unfold mail_task. destruct (task_start t (st_mailbox st) (e_unix e)) as [[drained more] mb] eqn:Ht.
    apply task_start_stored in Ht. split; [|done]. simpl. destruct t as [id sealed ttl|id surb].
    + destruct Ht as [-> Ht]. exact Ht.
    + destruct drained; exact Ht.
  - split; [|done]. destruct t as [id sealed ttl|id surb]; simpl; [done|]. unfold task_finish.
    destruct d as [|env d]; [by case_match|].
    destruct (surb_shipped _ _ _ _); [done|]. apply redeposit_stored.
  - rewrite Hp by done. by split.
Qed.

(** No envelope is handed out twice, and none that was not deposited. *)
Lemma mail_conserved `{!MailboxLaws, !PruneLaws} c t st w :
  reachable c t st w ->
  handed_of (w_history w) ++ held mail_of (w_jobs w) ++ stored (st_mailbox (w_state w)) ⊆+
  deposited_of (w_history w) ++ stored (st_mailbox st).
Proof.
  intros Hw. refine (proj2 (reachable_invariant (fun w =>
    handed_of (w_history w) ++ held mail_of (w_jobs w) ++ stored (st_mailbox (w_state w)) ⊆+
    deposited_of (w_history w) ++ stored (st_mailbox st)) c t st _ _ w Hw)).
  - intros w0 []; [done|]. simpl. rewrite (held_insert mail_of) by done. by rewrite held_empty.
  - clear w Hw. intros w w' [w1 w2 [id j e s w1' Hj He Ha]|p w1|e w1 He _|e w1 He _] Hf Hinv.
    + apply resume_transition, transition_mail in Ha as [Ha Hs].
      destruct (commit_fields id j e s w1') as (_ & -> & -> & _).
      pose proof (held_commit mail_of id j e s w1' Hj Hf) as Hc. rewrite Hs in Hc. simpl in Hc.
      unfold handed_of, deposited_of in *. rewrite !fmap_app, !concat_app. simpl. rewrite !app_nil_r.
      apply (submseteq_app_inv_l _ _ (mail_of j)).
      etrans; [|etrans; [apply (submseteq_skips_l (mail_of j ++ ev_deposits (s_event s)));
        apply Hinv|]]; [|solve_submseteq].
      etrans; [|etrans; [apply (submseteq_skips_l (concat (ev_hands <$> w_history w1') ++
        held mail_of (w_jobs w1'))); apply Ha|]]; [|solve_submseteq].
      transitivity ((concat (ev_hands <$> w_history w1') ++ ev_hands (s_event s)) ++
        (mail_of j ++ held mail_of (w_jobs (commit id j e s w1'))) ++ stored (st_mailbox (s_state s)));
        [solve_submseteq|].
      rewrite Hc. solve_submseteq.
    + destruct (incoming_fields p w1) as (_ & -> & ->).
      rewrite (held_incoming mail_of p w1 Hf). by destruct (w_permits w1).
    + destruct (tick_fields e w1) as (_ & -> & Hh & _).
      assert (handed_of (w_history (tick e w1)) = handed_of (w_history w1) /\
        deposited_of (w_history (tick e w1)) = deposited_of (w_history w1)) as [-> ->].
      { unfold handed_of, deposited_of.
        destruct Hh as [->| ->]; rewrite ?fmap_app, ?concat_app; simpl; by rewrite ?app_nil_r. }
      destruct (held_tick mail_of e w1 Hf) as (l & -> & [->|(b & p & ->)]); done.
    + destruct (maintain_fields c e w1) as (_ & _ & Hmb & -> & _).
      destruct (held_maintain mail_of c e w1 Hf) as (l & -> & Hl).
      assert (l = []) as -> by (destruct Hl as [->|(b & p & ->)]; done). simpl.
      etrans; [|exact Hinv]. do 2 apply submseteq_skips_l.
      destruct Hmb as [-> | ->]; [done|apply prune_stored].
Qed.

(** ** Who may take mail *)

(** A task of the delivery handler is one it spawned. *)
Definition job_justified c j : Prop :=
  match j with
  | MailTask t | SurbReply t _ _ _ => handler_spawns c t
  | _ => True
  end.

(** Mail went to a request with a proof for its own connection, or to a task
    of the handler. *)
Definition ev_justified c (ev : event) : Prop :=
  match ev with
  | EvRequest binding _ blob (Delivery _ _) =>
      exists id a, request_from_bytes blob = Some (Fetch id (Some a)) /\
        auth_verify a (x25519 (cf_sk c) (auth_pk a)) binding id = true
  | EvTask t _ _ _ | EvFinish t _ _ _ => handler_spawns c t
  | _ => True
  end.

Lemma transition_justified c e st j s :
  cf_allow_unauthenticated c = false -> transition c e st j s -> job_justified c j ->
  ev_justified c (s_event s) /\ (forall j', s_next s = Some j' -> job_justified c j') /\
  (forall j', s_spawn s = Some j' -> job_justified c j').
Proof.
  assert (forall j, holds_permit j = true -> job_justified c j) as Hp by by intros [].
  intros Hallow [j' j2 st' Hj Hj2| |j' next packet _ _ Hj Hn|b sv l l' blob resp mb Hh _|wake a next Hw Hh _|t|t d m n| | |src l j' lim d Hj' _ _ _|];
    simpl; intros Hjob; try (split_and!; [done|by intros ? [=]..]; fail).
  - split_and!; [done| |done]. intros j3 ->. by apply Hp.
  - unfold process_packet. destruct (process_input _ _ _) as [[o r] rng]. simpl.
    split_and!; [done| |].
    + destruct o; [|done]. intros j3 [= <-]. by destruct next.
    + destruct o as [o|]; [|done]. simpl. destruct (outcome_action o); [|done]. by intros j3 [= <-].
  - split_and!; [|by intros ? [= <-]|done]. pose proof (handle_request_cases (cf_sk c) b (e_unix e) blob (st_mailbox st)) as Hc.
    rewrite Hallow in Hh. rewrite Hh in Hc. destruct resp; try done.
    destruct Hc as [(? & ? & ? & _ & Hno)|[Hok|(_ & ? & ?)]]; [by destruct (Hno sealed more)|done|done].
  - split_and!; [done| |done]. destruct Hh; by intros j3 [= <-].
  - unfold mail_task. destruct (task_start t _ _) as [[[] ?] ?]; simpl; (split_and!; [done| |done]); [done|].
    by intros j3 [= <-].
  - split_and!; [done| |done]. intros j3 [= <-]. by apply Hp.
Qed.

Lemma mail_justified c t st w :
  cf_allow_unauthenticated c = false -> reachable c t st w ->
  Forall (ev_justified c) (w_history w) /\ all_jobs (job_justified c) w.
Proof.
  intros Hallow Hw. refine (proj2 (reachable_invariant (fun w => Forall (ev_justified c) (w_history w) /\
    all_jobs (job_justified c) w) c t st _ _ w Hw)).
  - intros w0 Hi. split; [destruct Hi; constructor|]. by apply (all_jobs_initial _ t st).
  - clear w Hw. intros w w' [w1 w2 [id j e s w1' Hj He Ha]|p w1|e w1 He _|e w1 He _] Hf [Hh Hjobs].
    + apply resume_transition in Ha.
      destruct (transition_justified c e (w_state w1') j s Hallow Ha (Hjobs id j Hj)) as (Hev & Hn & Hs).
      destruct (commit_fields id j e s w1') as (_ & _ & -> & _).
      split; [by apply Forall_app; split; [|constructor]|by apply all_jobs_commit].
    + destruct (incoming_fields p w1) as (_ & _ & ->). split; [done|by apply all_jobs_incoming].
    + destruct (tick_fields e w1) as (_ & _ & Hev & _). split; [|by apply all_jobs_tick].
      destruct Hev as [->| ->]; [done|]. apply Forall_app. split; [done|by repeat constructor].
    + destruct (maintain_fields c e w1) as (_ & _ & _ & -> & _). split; [done|by apply all_jobs_maintain].
Qed.
End machine.

(** ** Properties *)
Section running_properties.
Context `{!Platform, !Gotham, !GothamLaws, !MailboxAuth, !MailboxApi, !MailboxCodec, !MailboxStore Mailbox, !RosterApi}
  {R HS T : Type} `{!Rng R, !Delay.Libm, !NoiseTransport T, !NoiseHandshake HS T,
    !HashOrder RateLimit.IpAddr (RateLimit.RateLimiter * Z)}.
Implicit Types (c : config) (w : world (R := R) (T := T)) (st : state (R := R)).

#[local] Abbreviation reachable := (reachable (R := R) (HS := HS) (T := T)).
#[local] Abbreviation internal := (internal (R := R) (HS := HS) (T := T)).
#[local] Abbreviation unaided := (unaided (R := R) (HS := HS) (T := T)).

(** C6. The running relay is linearisable: however many connections and
    tunnels feed it and however their tasks interleave, its state and the
    outcome of every packet are those of one sequential run over the packets in
    the order of the history, with a clock that never goes back. *)
Theorem concurrent_relay_refines_run c t st w :
  reachable c t st w ->
  let ps := packets_of (w_history w) in
  run (sh_relay (st_shared st)) (sh_rng (st_shared st)) ps.*1 =
    (ps.*2, sh_relay (st_shared (w_state w)), sh_rng (st_shared (w_state w))) /\
  clock t (ps.*1 ++ [reading (w_clock w)]).
Proof. apply relay_serialised. Qed.

(** Two copies of a packet, over the same or over different connections, are
    never both accepted. *)
Lemma relay_accepts_once c t tb st w sk n ttl mean pre a oa mid b ob post :
  reachable c t st w -> tb <= t -> booted sk n ttl mean tb (sh_relay (st_shared st)) -> 0 <= ttl ->
  packets_of (w_history w) = pre ++ (a, oa) :: mid ++ (b, ob) :: post ->
  (length mid < Nat.max 1 n)%nat -> i_replay b - i_replay a <= ttl ->
  packet_gamma (i_packet b) = packet_gamma (i_packet a) ->
  is_accepted oa = true -> exists reason, ob = Some (Drop reason).
Proof.
  intros Hw Htb Hb Httl Hps Hmid Hage Hsame Hacc. apply relay_serialised in Hw as [Hrun Hclk].
  rewrite Hps in Hrun, Hclk. apply serialised_split in Hrun.
  assert (clock tb (pre.*1 ++ a :: mid.*1 ++ [b])) as Hclk'.
  { apply (clock_earlier tb t); [done|].
    clear -Hclk. rewrite !fmap_app in Hclk. simpl in Hclk. rewrite fmap_app in Hclk. simpl in Hclk.
    apply (clock_prefix t _ (post.*1 ++ [reading (w_clock w)])).
    rewrite <- app_assoc in Hclk |- *. simpl in Hclk |- *. by rewrite <- !app_assoc in Hclk |- *. }
  pose proof (accepts_once sk n ttl mean tb _ (sh_rng (st_shared st)) pre.*1 a mid.*1 b Hb Httl Hclk') as Hone.
  rewrite length_fmap in Hone. specialize (Hone Hmid Hage Hsame).
  destruct (run _ _ pre.*1) as [[os1 r1] rng1]. destruct (process_input r1 rng1 a) as [[oa' r2] rng2].
  destruct (run r2 rng2 mid.*1) as [[os3 r3] rng3]. destruct Hrun as [-> <-]. by apply Hone.
Qed.

(** C7. Every accepted packet leaves at most once and not early: what has left
    the relay and what still sleeps are together exactly the accepted packets,
    each once, and each left no sooner than its delay after it was accepted. *)
Theorem accepted_packets_leave_once c t st w :
  reachable c t st w ->
  exists stays, stay_out <$> stays = left_of (w_history w) /\
    (stay_in <$> stays) ++ held asleep (w_jobs w) ≡ₚ accepted_of (w_history w) /\
    Forall stayed stays.
Proof. apply departures. Qed.




(** C32. Permits are neither lost nor forged: free permits and connection tasks
    always add up to 1024, so there are never more connections than that, and a
    connection is shed only when there are exactly that many. *)
Theorem connections_within_permits c t st w p :
  reachable c t st w ->
  (w_permits w + size (connections w))%nat = MAX_INFLIGHT_CONNS /\
  (w_shed (incoming p w) <> w_shed w -> size (connections w) = MAX_INFLIGHT_CONNS).
Proof.
  intros Hw. pose proof (permits_conserved c t st w Hw) as Hp. split; [done|].
  unfold incoming. destruct (w_permits w); simpl in *; [by intros _|done].
Qed.

(** C9. Mail is never duplicated: whatever connections and mailbox tasks
    interleave, what has been handed out, what a task is about to ship and what
    is stored are together at most what was stored at the start and deposited
    since, every envelope counted as often as it was deposited. *)
Theorem mail_never_duplicated `{!MailboxLaws, !PruneLaws} c t st w :
  reachable c t st w ->
  handed_of (w_history w) ++ held mail_of (w_jobs w) ++ stored (st_mailbox (w_state w)) ⊆+
  deposited_of (w_history w) ++ stored (st_mailbox st).
Proof. apply mail_conserved. Qed.

(** The service handler spawns a fetch only for a proof of possession. *)
Lemma service_handler_proof `{!Sealed R} surb_ok sk payload id surb :
  mailbox_service_handler surb_ok sk payload = Some (TSurbFetch id surb) ->
  exists a, auth_verify a (x25519 sk (auth_pk a)) (surb_fetch_binding surb) id = true.
Proof.
  unfold mailbox_service_handler. destruct (unsealing_delivery_handler sk payload) as [[? body]|]; [|done].
  simpl. destruct (request_from_bytes body) as [[| |id' surb' [a|]]|]; try done. cbv zeta.
  destruct (auth_verify a _ _ id') eqn:Hv; simpl; [|done]. destruct (surb_ok surb'); [|done].
  intros [= <- <-]. eauto.
Qed.

(** Unless unauthenticated fetches are allowed, every envelope the running
    relay hands out goes to a request with a proof for its own connection, or to
    a reply block with a proof for that block. *)
Lemma mail_against_proof `{!Sealed R} surb_ok c t st w ev id env :
  cf_allow_unauthenticated c = false ->
  cf_delivery c = Some (mailbox_service_handler surb_ok (cf_sk c)) ->
  reachable c t st w -> ev ∈ w_history w -> (id, env) ∈ ev_hands ev ->
  (exists binding now blob resp a, ev = EvRequest binding now blob resp /\
     request_from_bytes blob = Some (Fetch id (Some a)) /\
     auth_verify a (x25519 (cf_sk c) (auth_pk a)) binding id = true) \/
  (exists surb drained now a, ev = EvFinish (TSurbFetch id surb) drained now true /\
     auth_verify a (x25519 (cf_sk c) (auth_pk a)) (surb_fetch_binding surb) id = true).
Proof.
  intros Hallow Hd Hw Hev Hin. destruct (mail_justified c t st w Hallow Hw) as [Hj _].
  rewrite Forall_forall in Hj. specialize (Hj ev Hev).
  destruct ev as [| | |binding now blob resp|t' now l more|t' drained now shipped| | | |]; simpl in *;
    try by apply not_elem_of_nil in Hin.
  - left. unfold request_hands in Hin.
    destruct resp as [|sealed more|err].
    1,3: destruct (request_from_bytes blob) as [[]|]; by apply not_elem_of_nil in Hin.
    destruct Hj as (id' & a & Hr & Hv). rewrite Hr in Hin.
    apply list_elem_of_fmap in Hin as (env' & [= <- <-] & _). eauto 10.
  - destruct t' as [|id' surb]; [by apply not_elem_of_nil in Hin|].
    destruct shipped; [|by apply not_elem_of_nil in Hin].
    apply list_elem_of_fmap in Hin as (env' & [= <- <-] & _). right.
    destruct Hj as (h & payload & Hh & Hp). rewrite Hd in Hh. injection Hh as <-.
    apply service_handler_proof in Hp as [a Ha]. eauto 10.
Qed.
End running_properties.

(** ** Schedules

    A schedule of steps, run; what it reaches is reachable. *)
Section schedules.
Context `{!Platform, !Gotham, !MailboxAuth, !MailboxApi, !MailboxCodec, !MailboxStore Mailbox, !RosterApi}
  {R HS T : Type} `{!Rng R, !Delay.Libm, !NoiseTransport T, !NoiseHandshake HS T,
    !HashOrder RateLimit.IpAddr (RateLimit.RateLimiter * Z)}.

#[local] Abbreviation world := (world (R := R) (T := T)).

Inductive schedule_item : Type :=
| SIncoming (p : peer)
| STick (e : env)
| SRun (id : nat) (e : env).

#[local] Instance env_from_dec t e : Decision (env_from t e).
Proof. unfold env_from. apply _. Defined.

(** No task satisfies [f], by inspection. *)
Lemma none_of_bool (f : job (T := T) -> bool) (w : world) :
  forallb (fun x => negb (f x.2)) (map_to_list (w_jobs w)) = true -> none_of f w.
Proof.
  intros Hf id j Hj. rewrite forallb_forall in Hf. apply elem_of_map_to_list in Hj.
  apply list_elem_of_In in Hj. specialize (Hf _ Hj). by apply negb_true_iff.
Qed.

(** A step that is not possible is skipped. *)
Definition exec (c : config) (x : schedule_item) (w : world) : world :=
  match x with
  | SIncoming p => incoming p w
  | STick e => if decide (env_from (w_clock w) e /\ none_of is_flush w) then tick e w else w
  | SRun id e =>
      match w_jobs w !! id with
      | None => w
      | Some j =>
          if decide (env_from (w_clock w) e) then
            match resume (HS := HS) c e (w_state w) j with
            | Some s => commit id j e s w
            | None => w
            end
          else w
      end
  end.

Definition exec_all (c : config) (xs : list schedule_item) (w : world) : world :=
  foldl (fun w x => exec c x w) w xs.

Lemma exec_steps c x (w : world) : rtc (step (HS := HS) c) w (exec c x w).
Proof.
  destruct x as [p|e|id e]; simpl.
  - apply rtc_once, step_incoming.
  - case_decide as Ht; [|done]. by apply rtc_once, step_tick; apply Ht.
  - destruct (w_jobs w !! id) as [j|] eqn:Hj; [|done]. case_decide; [|done].
    destruct (resume c e (w_state w) j) as [s|] eqn:Ha; [|done].
    apply rtc_once, step_internal. by econstructor.
Qed.



Lemma exec_all_reachable c xs t st (w0 : world) :
  initial t st w0 -> reachable (HS := HS) c t st (exec_all c xs w0).
Proof.
  intros Hi. exists w0. split; [done|]. clear Hi. revert w0.
  induction xs as [|x xs IH]; intros w0; simpl; [done|]. etrans; [apply exec_steps|apply IH].
Qed.
End schedules.

(** ** Concrete runs *)
Module ConcurrencyDemo.
#[local] Existing Instances Toy.gotham toy_laws counter_rng Delay.coarse_libm ToyNoise.transport
  ToyNoise.handshake ToyMailbox.auth ToyMailbox.api ToyMailbox.codec ToyMailbox.laws unix_platform.
#[local] Instance order : HashOrder RateLimit.IpAddr (RateLimit.RateLimiter * Z) := sorted_order _ _.

#[local] Instance rosters : RosterApi := {|
  Roster := list byte;
  AuthoritySet := unit;
  roster_from_slice := Some;
  roster_to_vec := Some;
  verify_incoming := fun r _ _ => take 4 r;
  splice_verified := fun ours theirs => (Z.of_nat (length theirs), ours ++ theirs);
|}.

(** A store that prunes the first envelope and saves nothing. *)
#[local] Instance store : MailboxStore (@Mailbox ToyMailbox.auth ToyMailbox.api) := {|
  MailboxSnapshot := list (list byte * list byte);
  with_defaults := [];
  from_snapshot := fun snap _ => snap;
  snapshot := fun mb => mb;
  prune_expired := fun mb _ => (1%nat, tail mb);
  rmp_to_vec := fun _ => None;
  rmp_from_slice := fun _ => None;
|}.

#[local] Instance prune_laws : PruneLaws.
Proof. split. intros [|x mb] now; simpl; [done|]. by apply submseteq_cons. Qed.

(** Envelopes in clear. *)
#[local] Instance sealed : @Sealed Z Toy.gotham :=
  @Build_Sealed Z Toy.gotham (fun rng _ sender body => (Ok (sender ++ body), rng))
    (fun _ env => Ok (take 32 env, drop 32 env)).

(** A peer that handshakes, runs [m] and then waits. *)
Definition peer_doing (alpn : list byte) (m : M (Link ToyNoise.state) unit) : peer :=
  let out :=
    match noise_initiator_handshake_bound (HS := ToyNoise.hs) (Toy.sk 9) (public_key (Toy.sk 1))
            (mkSend [] None) (mkRecv [x00; x01; x02] Stalled) with
    | (Ret (noise, _), s, r) => s_out (lk_send (m (mkLink s r noise)).2)
    | (_, s, _) => s_out s
    end in
  mkPeer (RateLimit.V4 7) (Some (Some alpn)) (Ret (mkSend [] None, mkRecv out Stalled)).

Definition mix_peer : peer := peer_doing MIXNET_ALPN (write_noise_frame Process.Demo.two_hops).

Definition conf : config :=
  mkConfig (Toy.sk 1) (Some (mailbox_service_handler (R := Z) (fun _ => true) (Toy.sk 1))) true false None None (Some None).

Definition st0 : state (R := Z) :=
  mkState (mkShared per_source_limiter Process.Demo.relay1 0) (ServicesDemo.box []) ([] : Roster) ∅.

Definition w0 : world (R := Z) (T := ToyNoise.state) := starting 0 st0 [].

(** Two connections send the same packet; the second to arrive is processed
    first, its packet leaves after its delay of 1.5 ms, and the pool sends it. *)
Definition two_copies : list schedule_item :=
  [SIncoming mix_peer; SIncoming mix_peer; SRun 0 (env_at 1); SRun 1 (env_at 2); SRun 0 (env_at 3);
   SRun 1 (env_at 4); SRun 1 (env_at 5); SRun 0 (env_at 6); SRun 2 (env_at 100);
   SRun 2 (env_at (5 + from_micros 1500)); SRun 2 (env_at (6 + from_micros 1500))].

Definition mix_world : world (R := Z) (T := ToyNoise.state) := exec_all (HS := ToyNoise.hs) conf two_copies w0.

Lemma mix_reachable : reachable (HS := ToyNoise.hs) conf 0 st0 mix_world.
Proof. apply exec_all_reachable. constructor. Defined.

Example two_copies_run :
  (fun p => is_accepted p.2) <$> packets_of (w_history mix_world) = [true; false] /\
  (left_of (w_history mix_world)).*1 = [5 + from_micros 1500] /\
  length (answered_of (w_history mix_world)) = 1%nat /\
  size (w_jobs mix_world) = 2%nat.
Proof. vm_compute. done. Qed.

Lemma concurrent_relay_refines_run_witness :
  run (R := Z) Process.Demo.relay1 0 (packets_of (w_history mix_world)).*1 =
    ((packets_of (w_history mix_world)).*2, sh_relay (st_shared (w_state mix_world)),
     sh_rng (st_shared (w_state mix_world))) /\
  clock 0 ((packets_of (w_history mix_world)).*1 ++ [reading (w_clock mix_world)]).
Proof. apply (concurrent_relay_refines_run conf 0 st0 mix_world). apply mix_reachable. Defined.

Lemma accepted_packets_leave_once_witness :
  exists stays, stay_out <$> stays = left_of (w_history mix_world) /\
    (stay_in <$> stays) ++ held asleep (w_jobs mix_world) ≡ₚ accepted_of (w_history mix_world) /\
    Forall stayed stays.
Proof. apply (accepted_packets_leave_once conf 0 st0 mix_world). apply mix_reachable. Defined.



Lemma connections_within_permits_witness :
  (w_permits mix_world + size (connections mix_world))%nat = MAX_INFLIGHT_CONNS /\
  (w_shed (incoming mix_peer mix_world) <> w_shed mix_world ->
   size (connections mix_world) = MAX_INFLIGHT_CONNS).
Proof. apply (connections_within_permits conf 0 st0 mix_world mix_peer). apply mix_reachable. Defined.

(** One connection deposits; another fetches with the proof of its mailbox. *)
Definition binding : list byte := ToyNoise.pad (public_key (Toy.sk 1)).
Definition fetch : list byte :=
  ServicesDemo.fetch_with (x25519 (Toy.sk 1) (Toy.sk 9) ++ binding ++ [x05]).

Definition mail_schedule : list schedule_item :=
  [SIncoming (peer_doing MAILBOX_ALPN (write_blobs [[x00; x05; x3c; x11; x12]]));
   SIncoming (peer_doing MAILBOX_ALPN (write_blobs [fetch; fetch]));
   SRun 0 (env_at 1); SRun 1 (env_at 2); SRun 1 (env_at 3); SRun 0 (env_at 4); SRun 1 (env_at 5);
   SRun 0 (env_at 6); SRun 1 (env_at 7); SRun 1 (env_at 8)].

Definition mail_world : world (R := Z) (T := ToyNoise.state) :=
  exec_all (HS := ToyNoise.hs) conf mail_schedule w0.

Lemma mail_reachable : reachable (HS := ToyNoise.hs) conf 0 st0 mail_world.
Proof. apply exec_all_reachable. constructor. Defined.

(** The first fetch came too early; the second got the envelope. *)
Example mail_run :
  handed_of (w_history mail_world) = [([x05], [x11; x12])] /\
  deposited_of (w_history mail_world) = [([x05], [x11; x12])] /\
  stored (st_mailbox (w_state mail_world)) = [].
Proof. vm_compute. done. Qed.

Lemma mail_never_duplicated_witness :
  handed_of (w_history mail_world) ++ held mail_of (w_jobs mail_world) ++
    stored (st_mailbox (w_state mail_world)) ⊆+
  deposited_of (w_history mail_world) ++ stored (st_mailbox st0).
Proof. apply (mail_never_duplicated conf 0 st0 mail_world). apply mail_reachable. Defined.

End ConcurrencyDemo.
