(* ===== verification/Snapshots.v ===== *)
(** * The replay cache on disk ([transport.rs], [spawn_replay_persistence])

    While the relay runs, a task encodes the replay cache now and then and
    writes it to its file.  This file follows, along the history of the machine
    of [Listener], which state of the cache the file holds, and shows that the
    file always holds it: between the steps of the machine and in the middle of
    every write, so that a relay that is killed at any point leaves a whole
    snapshot behind. *)

From S2P Require Import Prelude F64 Fs Rand Gotham Wire Process Services Server Net Endpoint Keys Listener Concurrency.
From S2P Require Delay RateLimit Replay ReplayPersist.

(** ** Which snapshot is where *)

(** A snapshot of the cache: after how many packets, at which readings of the
    clocks. *)
Record snap : Type := mkSnap { sn_packets : nat; sn_now : Z; sn_unix : Z }.

(** The packets processed so far, the snapshot taken last and the one written
    last. *)
Record tracked : Type := mkTracked {
  tk_packets : nat;
  tk_taken : option snap;
  tk_written : option snap;
}.

Section snapshots.
Context `{!Platform, !Gotham, !MailboxAuth, !MailboxApi, !MailboxCodec, !MailboxStore Mailbox, !RosterApi}
  {R HS T : Type} `{!Rng R, !Delay.Libm, !NoiseTransport T, !NoiseHandshake HS T,
    !HashOrder RateLimit.IpAddr (RateLimit.RateLimiter * Z)}.

#[local] Abbreviation job := (job (T := T)).
#[local] Abbreviation world := (world (R := R) (T := T)).
#[local] Abbreviation state := (state (R := R)).
#[local] Abbreviation step := (step (R := R) (HS := HS) (T := T)).
#[local] Abbreviation reachable := (reachable (R := R) (HS := HS) (T := T)).
Implicit Types (c : config) (w : world) (j : job) (st : state) (e : env) (h : list event).

Definition track_event (tk : tracked) (ev : event) : tracked :=
  match ev with
  | EvPacket _ _ => mkTracked (S (tk_packets tk)) (tk_taken tk) (tk_written tk)
  | EvEncoded now u => mkTracked (tk_packets tk) (Some (mkSnap (tk_packets tk) now u)) (tk_written tk)
  | EvWritten true => mkTracked (tk_packets tk) (tk_taken tk) (tk_taken tk)
  | _ => tk
  end.

Definition track h : tracked := foldl track_event (mkTracked 0 None None) h.

Definition taken h : option snap := tk_taken (track h).
Definition written h : option snap := tk_written (track h).

(** The cache of a snapshot, for a relay that started in [st] and has processed
    [ps]. *)
Definition cache_at st (ps : list (input * option ProcessOutcome)) (s : snap) : Replay.ReplayCache :=
  replay_cache (run (sh_relay (st_shared st)) (sh_rng (st_shared st)) (take (sn_packets s) ps).*1).1.2.

Definition snap_bytes st ps (s : snap) : list byte :=
  ReplayPersist.encode (cache_at st ps s) (sn_now s) (sn_unix s).

(** A snapshot was taken in the past. *)
Definition snap_past t (ps : list (input * option ProcessOutcome)) (s : snap) : Prop :=
  (sn_packets s <= length ps)%nat /\ clock t ((take (sn_packets s) ps).*1 ++ [reading (sn_now s)]).

(** ** The invariant *)
Definition job_writes st (path : string) c h j : Prop :=
  match j with
  | Flush buf path' =>
      path' = path /\ exists s, taken h = Some s /\ buf = snap_bytes st (packets_of h) s
  | Save _ path' => cf_maintenance c = Some (Some path')
  | _ => True
  end.

Record file_inv t st path c w : Prop := {
  fi_count : tk_packets (track (w_history w)) = length (packets_of (w_history w));
  fi_taken : forall s, taken (w_history w) = Some s -> snap_past t (packets_of (w_history w)) s;
  fi_written : forall s, written (w_history w) = Some s ->
    snap_past t (packets_of (w_history w)) s /\
    (exists s', taken (w_history w) = Some s' /\ (sn_packets s <= sn_packets s')%nat) /\
    exists m, st_fs (w_state w) !! path = Some (File (snap_bytes st (packets_of (w_history w)) s) m);
  fi_jobs : all_jobs (job_writes st path c (w_history w)) w;
}.

Lemma track_snoc h ev : track (h ++ [ev]) = track_event (track h) ev.
Proof. unfold track. by rewrite foldl_app. Qed.

Lemma packets_snoc h ev :
  packets_of (h ++ [ev]) = packets_of h ++ match ev with EvPacket i o => [(i, o)] | _ => [] end.
Proof. unfold packets_of. rewrite omap_app. by destruct ev. Qed.

(** What a later history keeps of a snapshot. *)
Lemma snap_past_app t ps ps' s : snap_past t ps s -> snap_past t (ps ++ ps') s.
Proof. intros [Hle Hc]. split; [rewrite length_app; lia|]. by rewrite take_app_le. Qed.

Lemma snap_bytes_app st ps ps' s :
  (sn_packets s <= length ps)%nat -> snap_bytes st (ps ++ ps') s = snap_bytes st ps s.
Proof. intros Hle. unfold snap_bytes, cache_at. by rewrite take_app_le. Qed.

(** An entry of the history that is neither a snapshot nor a write. *)
Definition no_snapshot (ev : event) : Prop :=
  match ev with EvEncoded _ _ | EvWritten true => False | _ => True end.

Lemma track_no_snapshot h ev :
  no_snapshot ev -> taken (h ++ [ev]) = taken h /\ written (h ++ [ev]) = written h.
Proof. unfold taken, written. rewrite track_snoc. by destruct ev as [| | | | | | |[]| |]. Qed.

Lemma job_writes_snoc t st path c h ev j :
  (forall s, taken h = Some s -> snap_past t (packets_of h) s) -> no_snapshot ev ->
  job_writes st path c h j -> job_writes st path c (h ++ [ev]) j.
Proof.
  intros Ht Hev. destruct (track_no_snapshot h ev Hev) as [Htk _].
  destruct j; simpl; try done. rewrite Htk, packets_snoc. intros (-> & s & Hs & ->).
  split; [done|]. exists s. split; [done|]. symmetry. apply snap_bytes_app. by apply (Ht s).
Qed.

(** Steps that do not touch the file keep the invariant. *)
Lemma file_inv_quiet t st path c w w' ev :
  file_inv t st path c w -> no_snapshot ev -> w_history w' = w_history w ++ [ev] ->
  st_fs (w_state w') !! path = st_fs (w_state w) !! path ->
  (all_jobs (job_writes st path c (w_history w ++ [ev])) w -> all_jobs (job_writes st path c (w_history w ++ [ev])) w') ->
  file_inv t st path c w'.
Proof.
  intros [Hn Ht Hw Hj] Hev Hh Hfs Hjobs. destruct (track_no_snapshot (w_history w) ev Hev) as [Htk Hwr].
  split; rewrite Hh, ?packets_snoc, ?Htk, ?Hwr.
  - rewrite track_snoc, length_app, <- Hn. destruct ev as [| | | | | | |[]| |]; simpl; lia.
  - intros s Hs. apply snap_past_app. by apply Ht.
  - intros s Hs. destruct (Hw s Hs) as (Hp & Hle & Hf). split; [by apply snap_past_app|].
    split; [done|]. rewrite snap_bytes_app, Hfs by apply Hp. done.
  - apply Hjobs. intros id j Hl. by eapply job_writes_snoc, Hj.
Qed.

Lemma file_inv_same t st path c w w' :
  file_inv t st path c w -> w_history w' = w_history w ->
  st_fs (w_state w') !! path = st_fs (w_state w) !! path ->
  (all_jobs (job_writes st path c (w_history w)) w -> all_jobs (job_writes st path c (w_history w)) w') ->
  file_inv t st path c w'.
Proof.
  intros [Hn Ht Hw Hj] Hh Hfs Hjobs. split; rewrite Hh; [done..| |by apply Hjobs].
  intros s Hs. rewrite Hfs. by apply Hw.
Qed.

(** The jobs that write files. *)
Definition writes_file j : bool := is_flush j || is_save j.

Lemma job_writes_other st path c h j : writes_file j = false -> job_writes st path c h j.
Proof. by destruct j. Qed.

Lemma transition_quiet c e st j s :
  transition (T := T) c e st j s ->
  (writes_file j = false -> st_fs (s_state s) = st_fs st /\ no_snapshot (s_event s)) /\
  (forall j', s_next s = Some j' -> writes_file j' = false) /\
  (forall j', s_spawn s = Some j' -> writes_file j' = false).
Proof.
  assert (forall j, holds_permit j = true -> writes_file j = false) as Hp by by intros [].
  assert (forall j, takes_packets j = true -> writes_file j = false) as Hk by by intros [].
  intros [j' j2 st' Hj Hj2 _ _ _ _ Hfs| |j' next packet _ _ Hj Hn| |wake a next _ Hn _|t|t d m n| | |src l j' lim d Hj' _ _ _|];
    simpl; try (split_and!; [done|by intros ? [= <-]..]; fail).
  - split_and!; [done| |done]. intros j3 ->. by apply Hp.
  - unfold process_packet. destruct (process_input _ _ _) as [[o r] rng]. simpl. split_and!; [done| |].
    + destruct o; [|done]. intros j3 [= <-]. by apply Hk.
    + destruct o as [o|]; [|done]. simpl. destruct (outcome_action o); [|done]. by intros j3 [= <-].
  - split_and!; [done| |done]. destruct Hn; by intros j3 [= <-].
  - unfold mail_task. destruct (task_start t _ _) as [[[] ?] ?]; simpl; (split_and!; [done| |done]); [done|].
    by intros j3 [= <-].
  - split_and!; [done| |done]. intros j3 [= <-]. by apply Hp.
Qed.

(** Where the file of the replay cache is apart from those of the mailbox. *)
Record apart (path : string) c : Prop := {
  ap_tmp : with_extension path "tmp" <> path;
  ap_store : forall p, cf_maintenance c = Some (Some p) -> path <> p /\ path <> with_extension p "tmp";
}.

(** A write that completes moves the snapshot taken last to the file. *)
Lemma file_inv_flush t st path c w id e buf path' :
  apart path c -> file_inv t st path c w -> w_jobs w !! id = Some (Flush buf path') ->
  file_inv t st path c (commit id (Flush buf path') e (flush e (w_state w) buf path') w).
Proof.
  intros Hap Hinv Hj. destruct (fi_jobs _ _ _ _ _ Hinv id _ Hj) as (-> & s & Hs & ->).
  set (buf := snap_bytes _ _ _) in *.
  pose proof (ReplayPersist.write_encoded_final (e_faults e) (st_fs (w_state w)) buf path (ap_tmp _ _ Hap)) as Hf.
  assert (all_jobs (job_writes st path c (w_history w)) (commit id (Flush buf path) e (flush e (w_state w) buf path) w))
    as Hjobs by (apply all_jobs_commit; [apply Hinv|done..]).
  destruct (commit_fields id (Flush buf path) e (flush e (w_state w) buf path) w) as (_ & Hst & Hh & _).
  set (w' := commit _ _ _ _ w) in *. clearbody w'. simpl in Hf, Hst, Hh.
  apply (f_equal st_fs) in Hst. simpl in Hst. rewrite <- Hst in Hf. clear Hst.
  destruct (bool_decide _).
  - destruct Hinv as [Hn Ht Hw _].
    assert (packets_of (w_history w ++ [EvWritten true]) = packets_of (w_history w)) as Hps
      by (rewrite packets_snoc; apply app_nil_r).
    assert (taken (w_history w ++ [EvWritten true]) = Some s) as Htk
      by (unfold taken; rewrite track_snoc; done).
    split; rewrite Hh, ?Hps, ?Htk.
    + by rewrite track_snoc.
    + intros s' [= <-]. by apply Ht.
    + unfold written. rewrite track_snoc. simpl. intros s' Hs'. unfold taken in Hs.
      rewrite Hs in Hs'. injection Hs' as <-. split; [by apply Ht|]. split; [by exists s|].
      by eexists.
    + intros id' j Hl. specialize (Hjobs id' j Hl). destruct j; try done. simpl in *.
      rewrite Htk, Hps. by rewrite Hs in Hjobs.
  - eapply file_inv_quiet; [done| |exact Hh|exact Hf|]; [done|].
    intros _ id' j Hl. eapply job_writes_snoc; [apply Hinv|done|by eapply Hjobs].
Qed.

Lemma file_inv_save t st path c w id e sn path' :
  apart path c -> file_inv t st path c w -> w_jobs w !! id = Some (Save sn path') ->
  file_inv t st path c (commit id (Save sn path') e (save e (w_state w) sn path') w).
Proof.
  intros Hap Hinv Hj. pose proof (fi_jobs _ _ _ _ _ Hinv id _ Hj) as Hm. simpl in Hm.
  destruct (ap_store _ _ Hap _ Hm) as [Hp Hp'].
  destruct (commit_fields id (Save sn path') e (save e (w_state w) sn path') w) as (_ & Hst & Hh & _).
  eapply file_inv_quiet; [done| |exact Hh| |]; [done| |].
  - rewrite Hst. simpl. unfold last_fs.
    destruct (last (persist_mailbox (e_store e) (st_fs (w_state w)) path' sn).2) as [fs|] eqn:Hl; [|done].
    eapply persist_mailbox_elsewhere; [by apply last_Some_elem_of|done|done].
  - intros Hall. by apply all_jobs_commit.
Qed.

Lemma run_path r rng ins : replay_path (run (R := R) r rng ins).1.2 = replay_path r.
Proof.
  revert r rng. induction ins as [|i ins IH]; intros r rng; simpl; [done|].
  destruct (process_cases r (i_rate i) (i_replay i) rng (i_packet i)) as [(_ & _ & Hp & _) _].
  unfold process_input. unfold relay_after in Hp. destruct (process _ _ _ _ _) as [[o r1] rng1].
  specialize (IH r1 rng1). destruct (run r1 rng1 ins) as [[??]?]. simpl in *. congruence.
Qed.

(** A tick takes a snapshot of the cache as it is. *)
Lemma file_inv_tick t st path c w e :
  replay_path (sh_relay (st_shared st)) = Some path -> reachable c t st w ->
  env_from (w_clock w) e -> none_of is_flush w ->
  file_inv t st path c w -> file_inv t st path c (tick e w).
Proof.
  intros Hpath Hw He Hno [Hn Ht Hwr Hj]. apply relay_serialised in Hw as [Hrun Hclk].
  set (ps := packets_of (w_history w)) in *.
  assert (replay_path (sh_relay (st_shared (w_state w))) = Some path) as Hp
    by (pose proof (run_path (sh_relay (st_shared st)) (sh_rng (st_shared st)) ps.*1) as Hr;
        rewrite Hrun in Hr; simpl in Hr; congruence).
  unfold tick, encode_replay. rewrite Hp. cbn [mbind option_bind spawn_job].
  set (now := rd_source (e_clock e)). set (s := mkSnap (length ps) now (ReplayPersist.now_unix (e_wall e))).
  assert (take (length ps) ps = ps) as Htake by by apply take_ge.
  assert (snap_past t ps s) as Hs.
  { split; [done|]. simpl. rewrite Htake. eapply clock_later; [|exact Hclk]. destruct He; unfold now; lia. }
  assert (packets_of (w_history w ++ [EvEncoded now (ReplayPersist.now_unix (e_wall e))]) = ps) as Hps
    by (rewrite packets_snoc; apply app_nil_r).
  assert (taken (w_history w ++ [EvEncoded now (ReplayPersist.now_unix (e_wall e))]) = Some s) as Htk
    by (unfold taken; rewrite track_snoc; simpl; by rewrite Hn).
  assert (written (w_history w ++ [EvEncoded now (ReplayPersist.now_unix (e_wall e))]) = written (w_history w)) as Hwr'
    by (unfold written; rewrite track_snoc; done).
  split; simpl; rewrite ?Hps, ?Htk, ?Hwr'.
  - by rewrite track_snoc.
  - by intros s' [= <-].
  - intros s' Hs'. destruct (Hwr s' Hs') as (Hpast & _ & Hf). split; [done|]. split; [|done].
    exists s. split; [done|]. apply Hpast.
  - intros id j. simpl. rewrite lookup_insert_Some. intros [[_ <-]|[_ Hl]]; simpl.
    + split; [done|]. exists s. rewrite Htk, Hps. split; [done|].
      unfold snap_bytes, cache_at. cbn [sn_packets s]. by rewrite Htake, Hrun.
    + pose proof (Hno id j Hl) as Hf. pose proof (Hj id j Hl) as Hjw. by destruct j.
Qed.

Lemma file_inv_maintain t st path c w e :
  file_inv t st path c w -> file_inv t st path c (maintain c e w).
Proof.
  intros Hinv. destruct (maintain_fields c e w) as (_ & _ & _ & Hh & _).
  eapply file_inv_same; [done|done| |].
  - unfold maintain. destruct (cf_maintenance c) as [[p|]|]; [| |done]; by destruct (prune_expired _ _).
  - intros Hall id j. unfold maintain. destruct (cf_maintenance c) as [[p|]|] eqn:Hm; [| |by apply Hall].
    all: destruct (prune_expired _ _) as [n mb]; simpl.
    2: by apply Hall.
    rewrite lookup_insert_Some. intros [[_ <-]|[_ Hl]]; [done|by eapply Hall].
Qed.

(** What the file holds is what the history says. *)
Lemma file_invariant c t st w path :
  replay_path (sh_relay (st_shared st)) = Some path -> apart path c ->
  reachable c t st w -> file_inv t st path c w.
Proof.
  intros Hpath Hap Hw.
  refine (proj2 (proj2 (reachable_invariant (fun w => reachable c t st w /\ file_inv t st path c w) c t st _ _ w Hw))).
  - intros w0 Hi. split; [by exists w0|].
    split; [by destruct Hi|by destruct Hi|by destruct Hi|]. by apply (all_jobs_initial _ t st).
  - clear w Hw. intros w w' Hs _ [Hw Hinv]. split.
    { destruct Hw as (w0 & ? & ?). exists w0. split; [done|]. by eapply rtc_r. }
    destruct Hs as [w1 w2 [id j e s w1' Hj He Ha]|p w1|e w1 He Hno|e w1 He _].
    + assert (writes_file j = false \/ (exists buf p, j = Flush buf p) \/ exists sn p, j = Save sn p)
        as [Hq|[(buf & p & ->)|(sn & p & ->)]] by (destruct j; [by left..|right; left; by eauto|right; right; by eauto]).
      * apply resume_transition, transition_quiet in Ha as (Hfs & Hn & Hsp). destruct (Hfs Hq) as [Hf Hev].
        destruct (commit_fields id j e s w1') as (_ & Hst & Hh & _).
        eapply file_inv_quiet; [done|exact Hev|exact Hh|by rewrite Hst, Hf|].
        intros Hall. apply all_jobs_commit; [done|..]; intros; apply job_writes_other; eauto.
      * injection Ha as <-. by apply file_inv_flush.
      * injection Ha as <-. by apply file_inv_save.
    + destruct (incoming_fields p w1) as (_ & Hst & Hh). eapply file_inv_same; [done|done|by rewrite Hst|].
      intros Hall. by apply all_jobs_incoming.
    + by apply file_inv_tick.
    + by apply file_inv_maintain.
Qed.

(** ** Crashes *)

(** What is on the disk when the process is killed: a write may be cut off in
    the middle. *)
Inductive crashed w : gmap string file -> Prop :=
| crash_between : crashed w (st_fs (w_state w))
| crash_in_flush id buf path flt fs :
    w_jobs w !! id = Some (Flush buf path) ->
    fs ∈ (ReplayPersist.write_encoded flt (st_fs (w_state w)) buf path).2 -> crashed w fs
| crash_in_save id sn path flt fs :
    w_jobs w !! id = Some (Save sn path) ->
    fs ∈ (persist_mailbox flt (st_fs (w_state w)) path sn).2 -> crashed w fs.

(** The snapshots a crash may leave: the one written last, or the one about to
    be written. *)
Definition may_remain h (s : snap) : Prop := written h = Some s \/ taken h = Some s.

Lemma crash_leaves_snapshot c t st w path fs s :
  replay_path (sh_relay (st_shared st)) = Some path -> apart path c ->
  reachable c t st w -> crashed w fs -> written (w_history w) = Some s ->
  exists s', may_remain (w_history w) s' /\ (sn_packets s <= sn_packets s')%nat /\
    snap_past t (packets_of (w_history w)) s' /\
    exists m, fs !! path = Some (File (snap_bytes st (packets_of (w_history w)) s') m).
Proof.
  intros Hpath Hap Hw Hc Hs. destruct (file_invariant c t st w path Hpath Hap Hw) as [_ Ht Hwr Hj].
  destruct (Hwr s Hs) as (Hpast & (s' & Hs' & Hle) & m & Hf).
  assert (fs !! path = st_fs (w_state w) !! path \/
    exists m', fs !! path = Some (File (snap_bytes st (packets_of (w_history w)) s') m')) as [Heq|Heq].
  { destruct Hc as [|id buf path' flt fs Hl Hin|id sn path' flt fs Hl Hin]; [by left|..].
    - destruct (Hj id _ Hl) as (-> & s2 & Hs2 & ->). rewrite Hs' in Hs2. injection Hs2 as <-.
      apply (ReplayPersist.write_encoded_atomic _ _ _ _ _ (ap_tmp _ _ Hap)) in Hin as [|]; eauto.
    - left. destruct (ap_store _ _ Hap path') as [? ?]; [by apply (Hj id (Save sn path'))|].
      by eapply persist_mailbox_elsewhere. }
  - exists s. split_and!; [by left|done|done|]. exists m. congruence.
  - exists s'. split_and!; [by right|done|by apply Ht|done].
Qed.
End snapshots.
