(* ===== verification/Daemon.v ===== *)
(** * The program ([main.rs], [main])

    [main] runs one of five commands.  [run] puts everything together: the
    configuration of [Boot] starts the machine of [Listener], which runs until
    it fails or a signal arrives; then the mailbox and the replay cache are
    saved.  The other commands are those of [Keys], [Doctor] and [Boot].

    The theorems carry the guarantees of the components over to a daemon
    started from its flags. *)

From S2P Require Import Prelude Text Net Fs F64 Rand Gotham Wire Process Services Server Endpoint.
From S2P Require Import Enroll Keys Doctor Boot Restart Listener Concurrency Snapshots.
From S2P Require Delay RateLimit Replay ReplayPersist.

(** ** The command line

    What [clap] parses the arguments to; the parser itself is not modelled. *)
Inductive Cmd : Type :=
| Keygen (key_file : string)
| Pubkey (key_file : string)
| DoctorCmd (key_file : string) (authority_url : list str) (quorum : nat)
| Run (a : RunArgs)
| SignDirectory (authority_key relays output : string) (valid_secs : Z).

Record Cli : Type := mkCli { cmd : Cmd; log : str }.

(** The defaults the declarations give. *)
Definition default_log : str := lit "info".
Definition default_quorum : nat := 2.
Definition default_valid_secs : Z := 2592000.

Definition run_defaults (key_file : string) : RunArgs :=
  mkRunArgs key_file 443 (lit "::") 500000 (Z.to_nat 1000000) 300 None false (of_Z 2000) 0
    None [] None false None (lit "mix") None None 300 false None false false None None None []
    (lit "all") 60 None None false None.

(** ** Signals

    What the system decides: for the handlers of SIGTERM and Ctrl-C whether they
    can be installed and when the signal comes, if ever. *)
Record signals : Type := mkSignals {
  sg_terminate : result io_error (option Z);
  sg_ctrl_c : result io_error (option Z);
}.

(** [select!] on two futures that are polled from time [t] on. *)
Definition earliest (x y : option Z) : option Z :=
  match x, y with
  | Some x, Some y => Some (Z.min x y)
  | Some x, None => Some x
  | None, y => y
  end.

(** When [ctrl_c().await] returns: at once if the handler cannot be installed;
    its result is ignored. *)
Definition ctrl_c (s : signals) (t : Z) : option Z :=
  match sg_ctrl_c s with
  | Ok at_ => Z.max t <$> at_
  | Err _ => Some t
  end.

(** When [shutdown_signal] returns, called at [t]; [None]: never. *)
Definition shutdown_signal `{!Platform} (s : signals) (t : Z) : option Z :=
  if cfg_unix then
    match sg_terminate s with
    | Ok term => earliest (ctrl_c s t) (Z.max t <$> term)
    | Err _ => ctrl_c s t
    end
  else ctrl_c s t.

(** ** From the plan to the machine *)
Section launch.
Context `{!Gotham, !MailboxAuth, !MailboxApi, !MailboxCodec, !MailboxStore Mailbox, !RosterApi, !Tls,
  !GossipApi AuthoritySet} {R HS T : Type} `{!Rng R, !Sealed R, !Delay.Libm, !NoiseTransport T,
  !NoiseHandshake HS T, !HashOrder RateLimit.IpAddr (RateLimit.RateLimiter * Z)}.

(** What the launch takes from outside: the generator, the empty roster, the
    test for a well-formed reply block, and what a rendezvous tunnel yields. *)
Record surroundings : Type := mkSurroundings {
  x_rng : R;
  x_roster : Roster;
  x_surb_ok : list byte -> bool;
  x_packets : list (list byte);
  x_closed : stream_end;
}.

(** The delivery handler is that of the mailbox, if one is hosted. *)
Definition mailbox_delivery (x : surroundings) (p : plan Mailbox) : option DeliveryHandler :=
  match p_mailbox p with
  | Some _ => Some (mailbox_service_handler (R := R) (x_surb_ok x) (p_sk p))
  | None => None
  end.

(** The shared state as the services start; without a hosted mailbox nothing
    refers to the one in the state. *)
Definition first_state (x : surroundings) (p : plan Mailbox) (fs : gmap string file) : state (R := R) :=
  mkState (mkShared per_source_limiter (p_relay p) (x_rng x)) (default with_defaults (p_mailbox p))
    (x_roster x) fs.

Definition globals (a : RunArgs) (p : plan Mailbox) : process_globals :=
  mkGlobals (p_allow_unauthenticated p)
    (match p_mailbox p with Some _ => Some (a_mailbox_store a) | None => None end).

Definition launch (x : surroundings) (t : Z) (fs : gmap string file) (a : RunArgs) (p : plan Mailbox)
    : result TransportError (config * world (R := R) (T := T)) :=
  let st := first_state x p fs in
  match p_reach p with
  | Dial _ _ =>
      run_rendezvous_relay_shared (globals a p) t st (p_sk p) (mailbox_delivery x p)
        (x_packets x) (x_closed x)
  | Listen addr =>
      run_relay_listener_with_services_shared (globals a p) t st addr (p_sk p)
        (mailbox_delivery x p) (bool_decide (is_Some (p_mailbox p)))
        ((fun g => g.1.2) <$> p_gossip p) (p_authority_pop_pk p)
  end.

(** ** The [run] command *)

(** What the environment of a run decides: the surroundings, when the tasks
    start, the signals, whether [Endpoint::accept] comes to an end, and the
    clocks and faults of the shutdown. *)
Record run_env : Type := mkRunEnv {
  re_host : host;
  re_unauth : bool;
  re_around : surroundings;
  re_start : Z;
  re_signals : signals;
  re_accept_ends : bool;
  re_stop : Z;
  re_stop_wall : option Z;
  re_mailbox_faults : store_faults;
  re_replay_faults : ReplayPersist.write_faults;
}.

Definition re_stop_unix (n : run_env) : Z := ReplayPersist.now_unix (re_stop_wall n).

Context `{!Platform, !Hex}.
Context (node_new : GossipConfig -> AuthoritySet -> option string).

(** [make_mailbox_service_handler] fails when its endpoint does. *)
Definition handler_endpoint : result io_error unit :=
  match build_client_endpoint with
  | Ok _ => Ok tt
  | Err _ => Err (IoError OtherKind "client endpoint")
  end.

Definition setup (n : run_env) (a : RunArgs) : result io_error (plan Mailbox) :=
  run_setup node_new (re_host n) (re_unauth n) handler_endpoint a.

Definition started (n : run_env) (a : RunArgs) (p : plan Mailbox)
    : result TransportError (config * world (R := R) (T := T)) :=
  launch (re_around n) (re_start n) (h_fs (re_host n)) a p.

(** The end of a run that served until [w]. *)
Definition stopped (n : run_env) (a : RunArgs) (p : plan Mailbox) (w : world (R := R) (T := T))
    : gmap string file :=
  shutdown (re_mailbox_faults n) (re_replay_faults n) a
    (match p_mailbox p with Some _ => Some (st_mailbox (w_state w)) | None => None end)
    (sh_relay (st_shared (w_state w))) (re_stop n) (re_stop_unix n) (st_fs (w_state w)).

(** The disk a served run leaves.  The shutdown does not wait for the
    persistence task: a snapshot it took earlier may still be written after that
    of the shutdown, which the runtime waits for. *)
Inductive leaves (n : run_env) (a : RunArgs) (p : plan Mailbox) (w : world (R := R) (T := T))
    : gmap string file -> Prop :=
| leaves_stopped : leaves n a p w (stopped n a p w)
| leaves_late id buf path flt :
    w_jobs w !! id = Some (Flush buf path) ->
    leaves n a p w (ReplayPersist.final_fs (stopped n a p w)
      (ReplayPersist.write_encoded flt (stopped n a p w) buf path).2).

(** The mailbox and the disk when the services are about to start: the task
    that keeps the mailbox may have had its first turn, which is due at once. *)
Inductive tended (n : run_env) (a : RunArgs) (mb : option Mailbox)
    : option Mailbox -> gmap string file -> Prop :=
| tended_not : tended n a mb mb (h_fs (re_host n))
| tended_once m flt now states m' :
    mb = Some m ->
    maintenance_tick flt (a_mailbox_store a) now (h_fs (re_host n)) m = (states, m') ->
    tended n a mb (Some m') (last_fs (h_fs (re_host n)) states).

(** The mailbox that was hosted before the configuration was refused. *)
Definition hosted (n : run_env) (a : RunArgs) : option Mailbox :=
  match run_start (re_host n) a with Ok s => s_mailbox s | Err _ => None end.

(** Why the services stop, in a state [w]: a signal; or the loop of the accepted
    connections, or that of the tunnel, comes to its end. *)
Definition is_inbound (j : job (T := T)) : bool := match j with Inbound _ _ => true | _ => false end.

Inductive stops (n : run_env) (p : plan Mailbox) (w : world (R := R) (T := T)) : Prop :=
| stops_signal t : shutdown_signal (re_signals n) (re_start n) = Some t -> t <= re_stop n -> stops n p w
| stops_listening addr : p_reach p = Listen addr -> re_accept_ends n = true -> stops n p w
| stops_dialling addr pk : p_reach p = Dial addr pk -> none_of is_inbound w -> stops n p w.

(** How a run goes: the configuration is refused; the services cannot start;
    or they run for a while and are stopped.  The result is that of
    [main], with the disk it leaves. *)
Inductive run_daemon (n : run_env) (a : RunArgs) : result io_error unit * gmap string file -> Prop :=
| run_refused e mb fs :
    setup n a = Err e -> tended n a (hosted n a) mb fs -> run_daemon n a (Err e, fs)
| run_unserved p e mb fs :
    setup n a = Ok p -> started n a p = Err e -> tended n a (p_mailbox p) mb fs ->
    run_daemon n a (Ok tt, shutdown (re_mailbox_faults n) (re_replay_faults n) a mb
      (p_relay p) (re_stop n) (re_stop_unix n) fs)
| run_served p c w0 w fs :
    setup n a = Ok p -> started n a p = Ok (c, w0) -> rtc (step (HS := HS) c) w0 w ->
    stops n p w -> w_clock w <= re_stop n -> leaves n a p w fs ->
    run_daemon n a (Ok tt, fs).

(** ** [main] *)
Context `{!Json, !DirectorySigning}.

(** The result of a command: what it returns and prints, and the disk; or what
    it prints and its exit status, [None] for a panic. *)
Inductive main_result : Type :=
| Returns (r : result io_error unit) (printed : list str) (fs : gmap string file)
| Exits (printed : list str) (code : option Z).

(** The environment of the other commands. *)
Record command_env : Type := mkCommandEnv {
  ce_fs : gmap string file;
  ce_seen : gmap string file;
  ce_fault : string -> option io_error;
  ce_key_faults : key_faults;
  ce_write_fault : option (option nat * io_error);
  ce_client_ok : str -> bool;
  ce_net : answers;
  ce_rng : R;
}.

Definition printing (r : result io_error str) (fs : gmap string file) : main_result :=
  match r with
  | Ok line => Returns (Ok tt) [line] fs
  | Err e => Returns (Err e) [] fs
  end.

Definition command (m : command_env) (c : Cmd) : option main_result :=
  match c with
  | Keygen key_file =>
      let '(r, fs) := keygen (ce_key_faults m) (ce_seen m) (ce_fs m) key_file (ce_rng m) in
      Some (printing r fs)
  | Pubkey key_file =>
      Some (printing (pubkey (ce_fault m key_file) (ce_fs m) key_file) (ce_fs m))
  | DoctorCmd key_file authority_url quorum =>
      Some match read_key_file (ce_fault m key_file) (ce_fs m) key_file with
           | Err e => Returns (Err e) [] (ce_fs m)
           | Ok sk =>
               let '(printed, code) :=
                 run_doctor (ce_client_ok m) (ce_net m) (hex_encode (public_key sk))
                   (doctor_authorities authority_url) quorum in
               Exits printed code
           end
  | SignDirectory authority_key relays output valid_secs =>
      let '(r, fs) := sign_directory (ce_fault m) (ce_write_fault m) (ce_fs m) authority_key relays
                        output valid_secs in
      Some (Returns r [] fs)
  | Run _ => None
  end.

Inductive main (m : command_env) (n : run_env) : Cli -> main_result -> Prop :=
| main_command cli r : command m (cmd cli) = Some r -> main m n cli r
| main_run cli a r fs : cmd cli = Run a -> run_daemon n a (r, fs) -> main m n cli (Returns r [] fs).
End launch.

Arguments surroundings {_} _.

(** ** What a started daemon is *)
Section daemon_facts.
Context `{!Gotham, !GothamLaws, !MailboxAuth, !MailboxApi, !MailboxCodec, !MailboxStore Mailbox, !RosterApi,
  !Tls, !GossipApi AuthoritySet} {R HS T : Type} `{!Rng R, !Sealed R, !Delay.Libm, !NoiseTransport T,
  !NoiseHandshake HS T, !HashOrder RateLimit.IpAddr (RateLimit.RateLimiter * Z), !Platform, !Hex}.
Context (node_new : GossipConfig -> AuthoritySet -> option string).

#[local] Abbreviation world := (world (R := R) (T := T)).
#[local] Abbreviation step := (step (R := R) (HS := HS) (T := T)).
#[local] Abbreviation started := (started (R := R) (T := T)).
Implicit Types (n : run_env (R := R)) (a : RunArgs) (p : plan Mailbox) (w : world).

(** The parts of the configuration and the state a launch fixes. *)
Lemma launch_spec x t fs a p c (w0 : world) :
  launch (R := R) x t fs a p = Ok (c, w0) ->
  initial t (first_state x p fs) w0 /\ cf_sk c = p_sk p /\ cf_delivery c = mailbox_delivery x p /\
  cf_allow_unauthenticated c = p_allow_unauthenticated p /\
  cf_maintenance c = (match p_mailbox p with Some _ => Some (a_mailbox_store a) | None => None end).
Proof.
  unfold launch. destruct (p_reach p).
  - unfold run_rendezvous_relay_shared. intros (u & _ & [= <- <-])%result_bind_Ok.
    split; [constructor|done].
  - unfold run_relay_listener_with_services_shared, serve_endpoint_with_services_shared.
    intros (server & _ & (u & _ & [= <- <-])%result_bind_Ok)%result_bind_Ok.
    split; [constructor|done].
Qed.

Lemma setup_relay n a p :
  setup node_new n a = Ok p ->
  read_key_file (h_fault (re_host n) (a_key_file a)) (h_fs (re_host n)) (a_key_file a) = Ok (p_sk p) /\
  p_relay p = boot_relay (re_host n) a (p_sk p) /\
  (is_Some (p_mailbox p) <-> a_mailbox a = true) /\
  (a_mailbox a = true -> p_allow_unauthenticated p = a_allow_unauthenticated_mailbox_fetch a).
Proof.
  intros (s & dial & l & Hs & _ & _ & -> & -> & _ & -> & _ & -> & _)%run_setup_ok.
  apply run_start_ok in Hs as (Hsk & -> & Hmb & _). split_and!; try done; [apply Hmb..|].
  by destruct (a_mailbox a).
Qed.

(** The machine of a running daemon. *)
Lemma running_reachable n a p c w0 w :
  started n a p = Ok (c, w0) -> rtc (step c) w0 w ->
  reachable (HS := HS) c (re_start n) (first_state (re_around n) p (h_fs (re_host n))) w.
Proof.
  intros Hs Hw. apply launch_spec in Hs as (Hi & _). by exists w0.
Qed.



(** ** Restarts *)




(** ** Properties *)

(** C3. A daemon started from its flags accepts no packet twice: whatever
    connections, tunnels, timers and peers do while it runs, of two packets with
    the same header MAC that it processes at most [--replay-ttl-secs] and fewer
    than [--replay-size] packets apart, it forwards or delivers at most one. *)
Theorem daemon_accepts_once n a p c w0 w pre x ox mid y oy post :
  setup node_new n a = Ok p -> started n a p = Ok (c, w0) -> rtc (step c) w0 w ->
  0 <= a_replay_ttl_secs a -> h_instant (re_host n) <= re_start n ->
  packets_of (w_history w) = pre ++ (x, ox) :: mid ++ (y, oy) :: post ->
  (length mid < Nat.max 1 (a_replay_size a))%nat ->
  i_replay y - i_replay x <= from_secs (a_replay_ttl_secs a) ->
  packet_gamma (i_packet y) = packet_gamma (i_packet x) ->
  is_accepted ox = true -> exists reason, oy = Some (Drop reason).
Proof.
  intros Hp Hs Hw Httl Ht Hps. apply setup_relay in Hp as (_ & Hr & _).
  apply (relay_accepts_once c (re_start n) (h_instant (re_host n))
    (first_state (re_around n) p (h_fs (re_host n))) w (p_sk p) (a_replay_size a)
    (from_secs (a_replay_ttl_secs a)) (a_delay_micros a) pre x ox mid y oy post).
  - by eapply running_reachable.
  - done.
  - simpl. rewrite Hr. apply boot_relay_booted.
  - unfold from_secs, NANOS_PER_SEC. lia.
  - done.
Qed.

(** C12. A daemon hands out mail only against a proof: when it hosts a mailbox
    and was not started with [--allow-unauthenticated-mailbox-fetch], every
    envelope it hands out goes to a request whose possession proof verifies,
    under the key in the key file, for that connection, or for the reply block
    it is shipped with. *)
Theorem daemon_mail_needs_proof n a p c w0 w ev id env :
  setup node_new n a = Ok p -> started n a p = Ok (c, w0) -> rtc (step c) w0 w ->
  a_mailbox a = true -> a_allow_unauthenticated_mailbox_fetch a = false ->
  ev ∈ w_history w -> (id, env) ∈ ev_hands ev ->
  exists sk auth, read_key_file (h_fault (re_host n) (a_key_file a)) (h_fs (re_host n)) (a_key_file a) = Ok sk /\
    ((exists binding now blob resp, ev = EvRequest binding now blob resp /\
        request_from_bytes blob = Some (Fetch id (Some auth)) /\
        auth_verify auth (x25519 sk (auth_pk auth)) binding id = true) \/
     (exists surb drained now, ev = EvFinish (TSurbFetch id surb) drained now true /\
        auth_verify auth (x25519 sk (auth_pk auth)) (surb_fetch_binding surb) id = true)).
Proof.
  intros Hp Hs Hw Hmb Hun Hev Hin. pose proof (running_reachable n a p c w0 w Hs Hw) as Hr.
  apply setup_relay in Hp as (Hkey & _ & [_ Hbox] & Hallow).
  apply launch_spec in Hs as (_ & Hsk & Hd & Hu & _). rewrite Hallow, Hun in Hu by done.
  unfold mailbox_delivery in Hd. destruct (p_mailbox p) as [mb|]; [|by destruct (Hbox Hmb)].
  rewrite <- Hsk in Hd, Hkey.
  destruct (mail_against_proof (x_surb_ok (re_around n)) c _ _ w ev id env Hu Hd Hr Hev Hin)
    as [(b & now & blob & resp & auth & ? & ? & ?)|(surb & dr & now & auth & ? & ?)];
    exists (cf_sk c), auth; eauto 10.
Qed.




(** The exit status of [run] tells nothing about the services: it fails only
    when the configuration is refused, and a listener that cannot bind ends the
    run like a signal does. *)
Lemma daemon_exit_status n a r fs :
  run_daemon (HS := HS) node_new n a (r, fs) ->
  (exists e, setup node_new n a = Err e /\ r = Err e) \/
  ((exists p, setup node_new n a = Ok p) /\ r = Ok tt).
Proof. inversion 1; eauto 10. Qed.

(** A listening daemon that has served ends for a reason: SIGINT, SIGTERM on a
    Unix where its handler could be installed, a Ctrl-C handler that could not,
    or the end of its endpoint. *)
Lemma served_ends_for_reason n a p c w0 addr fs :
  setup node_new n a = Ok p -> started n a p = Ok (c, w0) -> p_reach p = Listen addr ->
  run_daemon (HS := HS) node_new n a (Ok tt, fs) ->
  (exists t, sg_ctrl_c (re_signals n) = Ok (Some t)) \/
  (cfg_unix = true /\ exists t, sg_terminate (re_signals n) = Ok (Some t)) \/
  (exists e, sg_ctrl_c (re_signals n) = Err e) \/ re_accept_ends n = true.
Proof.
  intros Hp Hs Hl. inversion 1 as [|p' e mb ? Hp' Hs'|p' c' w0' w ? Hp' Hs' _ Hstop]; subst.
  { assert (p' = p) as -> by congruence. congruence. }
  assert (p' = p) as -> by congruence. destruct Hstop as [t Ht _|addr' _ He|addr' pk Hd _]; [|by auto|congruence].
  revert Ht. unfold shutdown_signal, ctrl_c. destruct (sg_ctrl_c (re_signals n)) as [[t1|]|e]; [by eauto| |by eauto].
  destruct cfg_unix; [|done].
  destruct (sg_terminate (re_signals n)) as [[t2|]|e]; [by eauto 6|done..].
Qed.

(** A signal ends every run that serves, in whatever state it is, and the
    disk is that of the shutdown. *)
Lemma signal_ends_run n a p c w0 w t :
  setup node_new n a = Ok p -> started n a p = Ok (c, w0) -> rtc (step c) w0 w ->
  shutdown_signal (re_signals n) (re_start n) = Some t -> t <= re_stop n -> w_clock w <= re_stop n ->
  run_daemon (HS := HS) node_new n a (Ok tt, stopped n a p w).
Proof.
  intros. eapply run_served; [done..| |done|by constructor]. by eapply stops_signal.
Qed.

(** A refused configuration changes nothing on the disk but the stored
    mailbox. *)
Lemma refused_keeps_disk n a e fs path :
  run_daemon (HS := HS) node_new n a (Err e, fs) ->
  (forall store, a_mailbox_store a = Some store -> path <> store /\ path <> with_extension store "tmp") ->
  fs !! path = h_fs (re_host n) !! path.
Proof.
  inversion 1 as [? mb ? _ Ht| |]; subst. intros Hp.
  destruct Ht as [|m flt now states m' _ Htick]; [done|]. unfold maintenance_tick in Htick.
  destruct (prune_expired m now) as [k m1]; destruct (a_mailbox_store a) as [store|]; simplify_eq/=; [|done].
  destruct (Hp store eq_refl) as [??].
  unfold last_fs. destruct (last _) as [fs'|] eqn:Hl; simpl; [|done].
  apply (persist_mailbox_elsewhere flt _ store (snapshot m')); [|done..].
  apply last_Some in Hl as [l ->]. set_solver.
Qed.
End daemon_facts.

(** ** Concrete runs *)
Module DaemonDemo.
#[local] Existing Instances Toy.gotham toy_laws counter_rng Delay.coarse_libm ToyNoise.transport
  ToyNoise.handshake ToyMailbox.auth ToyMailbox.api ToyMailbox.codec unix_platform
  ConcurrencyDemo.order ConcurrencyDemo.rosters ConcurrencyDemo.store ConcurrencyDemo.sealed
  EndpointDemo.tls Base16.hex.

#[local] Instance gossip_api : GossipApi AuthoritySet := BootDemo.gossip_api.
Definition node_new (_ : GossipConfig) (_ : AuthoritySet) : option string := None.

#[local] Abbreviation world := (world (R := Z) (T := ToyNoise.state)).

(** The value of a computation that succeeds. *)
Definition get_ok {E A} (d : A) (r : result E A) : A := match r with Ok a => a | Err _ => d end.
Definition is_ok {E A} (r : result E A) : bool := match r with Ok _ => true | Err _ => false end.

Lemma get_ok_Ok {E A} (d : A) (r : result E A) : is_ok r = true -> r = Ok (get_ok d r).
Proof. by destruct r. Qed.

(** The defaults, with a mailbox and a replay cache on disk. *)
Definition args : RunArgs :=
  mkRunArgs "relay.key" 443 (lit "::") 500000 100 300 (Some "replay.bin"%string) false f_zero 0
    None [] None false None (lit "mix") None None 0 true None false false None None None []
    (lit "all") 60 None None false None.

Definition boot (fs : gmap string file) (instant unix : Z) : host :=
  mkHost fs (fun _ => None) instant instant instant (Some unix) (fun _ _ => Err "no router"%string).

Definition around : surroundings Z := mkSurroundings 0 ([] : Roster) (fun _ => true) [] Finished.

(** Ctrl-C at second 20. *)
Definition interrupted : signals := mkSignals (Ok None) (Ok (Some (from_secs 20))).

Definition first_run : run_env (R := Z) :=
  mkRunEnv (boot BootDemo.disk 0 1000) false around 0 interrupted false (from_secs 20) (Some 1020) (StoreFaults None None None)
    ReplayPersist.no_faults.

Definition no_plan : plan (@Mailbox ToyMailbox.auth ToyMailbox.api) :=
  mkPlan (Process.new [] 0 0 0 0 0) [] None None None false None (Listen (RateLimit.V4 0, 0)) None.

Definition plan_of (n : run_env (R := Z)) : plan Mailbox := get_ok no_plan (setup node_new n args).

Definition start_of (n : run_env (R := Z)) : config * world :=
  get_ok (ConcurrencyDemo.conf, ConcurrencyDemo.w0) (started n args (plan_of n)).

(** A packet connection, its handshake, its packet, and what follows. *)
Definition at_secs (id : nat) (t : Z) : schedule_item := SRun id (env_at (from_secs t)).
Definition first_schedule : list schedule_item :=
  [SIncoming ConcurrencyDemo.mix_peer; SIncoming ConcurrencyDemo.mix_peer; at_secs 0 1; at_secs 0 2;
   at_secs 1 3; at_secs 0 5; at_secs 1 6; at_secs 1 7].

Definition run_of (n : run_env (R := Z)) (xs : list schedule_item) : world :=
  exec_all (HS := ToyNoise.hs) (start_of n).1 xs (start_of n).2.

Lemma setup_of n : is_ok (setup node_new n args) = true -> setup node_new n args = Ok (plan_of n).
Proof. apply get_ok_Ok. Qed.

Lemma started_of n :
  is_ok (started (T := ToyNoise.state) n args (plan_of n)) = true ->
  started (T := ToyNoise.state) n args (plan_of n) = Ok ((start_of n).1, (start_of n).2).
Proof. intros H. rewrite <- surjective_pairing. by apply get_ok_Ok. Qed.

Lemma exec_all_rtc c xs (w : world) : rtc (step (HS := ToyNoise.hs) c) w (exec_all (HS := ToyNoise.hs) c xs w).
Proof.
  revert w. induction xs as [|x xs IH]; intros w; simpl; [done|]. etrans; [apply exec_steps|apply IH].
Qed.

Lemma exec_all_steps n xs : rtc (step (HS := ToyNoise.hs) (start_of n).1) (start_of n).2 (run_of n xs).
Proof. apply exec_all_rtc. Qed.

Definition copy (t : Z) : input := Input (from_secs t) (from_secs t) Process.Demo.two_hops.
Definition outcome_at (w : world) (i : nat) : option ProcessOutcome := (packets_of (w_history w) !! i) ≫= snd.

Lemma daemon_accepts_once_witness :
  is_accepted (outcome_at (run_of first_run first_schedule) 0) = true /\
  exists reason, outcome_at (run_of first_run first_schedule) 1 = Some (Drop reason).
Proof.
  split; [vm_compute; reflexivity|].
  apply (daemon_accepts_once (HS := ToyNoise.hs) node_new first_run args (plan_of first_run)
    (start_of first_run).1 (start_of first_run).2 (run_of first_run first_schedule) [] (copy 5)
    (outcome_at (run_of first_run first_schedule) 0) [] (copy 7)
    (outcome_at (run_of first_run first_schedule) 1) []).
  - apply setup_of. vm_compute. reflexivity.
  - apply started_of. vm_compute. reflexivity.
  - apply exec_all_steps.
  - vm_compute. discriminate.
  - vm_compute. discriminate.
  - vm_compute. reflexivity.
  - vm_compute. lia.
  - vm_compute. discriminate.
  - reflexivity.
  - vm_compute. reflexivity.
Defined.





(** A snapshot is taken at second 6 and written at second 7; the daemon is
    killed and started again 30 seconds later.  The copy comes after another
    packet. *)
Definition env_unix (t unix : Z) : env :=
  mkEnv (mkReadings t t t t t) (Some unix) (fun _ _ => true) (fun _ => false) (fun _ _ => Ok true)
    (fun _ _ _ => Ok tt) ReplayPersist.no_faults
    (StoreFaults None None None).







(** A snapshot that was taken before a packet was accepted and is written after
    the one of the shutdown: the daemon started next accepts the copy. *)
Definition late_world : world :=
  run_of first_run [SIncoming ConcurrencyDemo.mix_peer; at_secs 0 1; at_secs 0 2;
    STick (env_unix (from_secs 4) 1004); at_secs 0 5].

Definition late_buf : list byte :=
  match w_jobs late_world !! 1%nat with Some (Flush buf _) => buf | _ => [] end.

Definition late_disk : gmap string file :=
  let fs := stopped first_run args (plan_of first_run) late_world in
  ReplayPersist.final_fs fs (ReplayPersist.write_encoded ReplayPersist.no_faults fs late_buf "replay.bin").2.

Definition late_run : run_env (R := Z) :=
  mkRunEnv (boot late_disk (from_secs 3) 1050) false around
    (from_secs 3) interrupted false (from_secs 30) (Some 1080) (StoreFaults None None None) ReplayPersist.no_faults.

Definition after_late : world :=
  run_of late_run [SIncoming ConcurrencyDemo.mix_peer; at_secs 0 4; at_secs 0 5; at_secs 0 13].

Example late_flush_forgets :
  is_accepted (outcome_at late_world 0) = true /\ is_accepted (outcome_at after_late 0) = true /\
  length late_buf = 8%nat.
Proof. vm_compute. done. Qed.

(** The mailbox of the daemon: one connection deposits, another fetches with a
    proof. *)
Definition mail_world : world := run_of first_run ConcurrencyDemo.mail_schedule.

(** The seventh entry of its history: the reply to the second fetch. *)
Definition handing : event := default EvNone (w_history mail_world !! 6%nat).

Lemma lookup_default {A} (l : list A) i d : (i < length l)%nat -> default d (l !! i) ∈ l.
Proof. intros [x Hx]%lookup_lt_is_Some. rewrite Hx. by eapply list_elem_of_lookup_2. Qed.

Lemma handing_hands : ev_hands handing = [([x05], [x11; x12])].
Proof. vm_compute. reflexivity. Qed.

Lemma daemon_mail_needs_proof_witness :
  exists sk auth, read_key_file None BootDemo.disk "relay.key" = Ok sk /\
    ((exists binding now blob resp, handing = EvRequest binding now blob resp /\
        request_from_bytes blob = Some (Fetch [x05] (Some auth)) /\
        auth_verify auth (x25519 sk (auth_pk auth)) binding [x05] = true) \/
     (exists surb drained now, handing = EvFinish (TSurbFetch [x05] surb) drained now true /\
        auth_verify auth (x25519 sk (auth_pk auth)) (surb_fetch_binding surb) [x05] = true)).
Proof.
  apply (daemon_mail_needs_proof (HS := ToyNoise.hs) node_new first_run args (plan_of first_run)
    (start_of first_run).1 (start_of first_run).2 mail_world handing [x05] [x11; x12]).
  - apply setup_of. vm_compute. reflexivity.
  - apply started_of. vm_compute. reflexivity.
  - apply exec_all_steps.
  - reflexivity.
  - reflexivity.
  - apply lookup_default. vm_compute. lia.
  - rewrite handing_hands. constructor.
Defined.

(** With every flag at its default the relay listens on all interfaces, on the
    QUIC port, without enrolling. *)
Example default_start :
  (fun p => (p_reach p, p_enroll p, p_allow_unauthenticated p)) <$>
    setup node_new first_run (run_defaults "relay.key") =
  Ok (Listen (RateLimit.V6 0, 443), None, false).
Proof. vm_compute. reflexivity. Qed.
End DaemonDemo.
