(* ===== verification/Throughput.v ===== *)
(** * The traffic of a daemon ([--max-pps] and [--max-bytes-per-day])

    The limits of [RateLimit] hold for a limiter that is called with increasing
    times.  This file carries them over to the running daemon: the relay calls
    its limiter under its lock, for each packet of the right size, with readings
    of one monotonic clock, and accepts a packet only if the limiter lets it
    pass. *)

From Stdlib Require Import QArith Lqa.
From S2P Require Import Prelude Text Net Fs F64 F64Error Rand Gotham Wire Process Services Server Endpoint.
From S2P Require Import Enroll Keys Doctor Boot Restart Listener Concurrency Snapshots Daemon.
From S2P Require Delay RateLimit RateBounds Replay ReplayPersist.

#[local] Open Scope Z_scope.

(** ** The relay and its limiter *)
Section limiter.
Context `{!Gotham} {R : Type} `{!Rng R, !Delay.Libm}.
Implicit Types (r : Relay) (rng : R) (i : input).

Definition sized i : bool := (length (i_packet i) =? PACKET_SIZE)%nat.

(** The times at which the limiter is asked. *)
Definition limiter_times (ins : list input) : list Z :=
  omap (fun i => if sized i then Some (i_rate i) else None) ins.

Definition accepted_count (os : list (option ProcessOutcome)) : Z :=
  Z.of_nat (length (List.filter is_accepted os)).

Lemma accepted_count_cons o os :
  accepted_count (o :: os) = (if is_accepted o then 1 else 0) + accepted_count os.
Proof. unfold accepted_count. simpl. destruct (is_accepted o); simpl length; lia. Qed.

(** One packet asks the limiter at most once, and is accepted only if it may
    pass. *)
Lemma process_limiter r rng i :
  let res := process_input r rng i in
  let '(d, l) := RateLimit.check_at (rate_limiter r) (i_rate i) in
  rate_limiter (relay_after res) = (if sized i then l else rate_limiter r) /\
  (is_accepted (outcome res) = true -> sized i = true /\ d = RateLimit.Allow).
Proof.
  unfold process_input, process, sized, relay_after, outcome. cbv zeta.
  destruct (RateLimit.check_at (rate_limiter r) (i_rate i)) as [d l].
  destruct (length (i_packet i) =? PACKET_SIZE)%nat; simpl; [|done].
  destruct d as [|why]; simpl; [|done].
  destruct (header_decode _) as [h|]; simpl; [|done]. unfold admit_version.
  destruct (version h =? VERSION_LEGACY), (accept_header_v2 r); simpl; try done;
    repeat (case_match; simplify_eq/=; try done).
Qed.

Lemma run_limiter r rng ins :
  let '(os, r', _) := run r rng ins in
  let '(ds, l) := RateLimit.run (rate_limiter r) (limiter_times ins) in
  rate_limiter r' = l /\ accepted_count os <= RateLimit.admitted ds.
Proof.
  revert r rng. induction ins as [|i ins IH]; intros r rng; simpl; [done|].
  pose proof (process_limiter r rng i) as Hp. unfold relay_after, outcome in Hp. cbv zeta in Hp.
  destruct (RateLimit.check_at (rate_limiter r) (i_rate i)) as [d l] eqn:Hc.
  destruct (process_input r rng i) as [[o r1] rng1]. simpl in Hp. destruct Hp as [Hl Ha].
  specialize (IH r1 rng1). destruct (run r1 rng1 ins) as [[os r2] rng2]. rewrite Hl in IH.
  unfold limiter_times in *. simpl. rewrite accepted_count_cons.
  destruct (sized i); simpl.
  - rewrite Hc. destruct (RateLimit.run l _) as [ds l']. destruct IH as [? ?]. split; [done|].
    rewrite RateLimit.admitted_cons. destruct (is_accepted o); [|case_decide; lia].
    rewrite decide_True by (by apply Ha). lia.
  - destruct (RateLimit.run (rate_limiter r) _) as [ds l']. destruct IH as [? ?]. split; [done|].
    destruct (is_accepted o); [by destruct Ha|]. lia.
Qed.
End limiter.

(** ** The clock *)

(** The readings while a packet is processed, from [t] on: the limiter's, then
    the cache's. *)
Fixpoint rate_clock (t : Z) (ins : list input) : Prop :=
  match ins with
  | [] => True
  | i :: ins => t <= i_rate i /\ i_rate i <= i_replay i /\ rate_clock (i_replay i) ins
  end.

Lemma rate_clock_later t ins t1 t2 :
  t1 <= t2 -> rate_clock t (ins ++ [reading t1]) -> rate_clock t (ins ++ [reading t2]).
Proof.
  intros Ht. revert t. induction ins as [|i ins IH]; intros t; simpl; [lia|].
  intros (? & ? & ?). split; [done|]. split; [done|]. by apply IH.
Qed.

Lemma rate_clock_snoc t ins i t0 :
  t0 <= i_rate i -> i_rate i <= i_replay i -> rate_clock t (ins ++ [reading t0]) ->
  rate_clock t ((ins ++ [i]) ++ [reading (i_replay i)]).
Proof.
  intros Hr Hi. revert t. induction ins as [|j ins IH]; intros t; simpl.
  - intros (? & _). split_and!; try lia.
  - intros (? & ? & ?). split; [done|]. split; [done|]. by apply IH.
Qed.

Lemma rate_clock_times `{!Gotham} t ins t' :
  rate_clock t (ins ++ [reading t']) ->
  t <= t' /\ forall t0, t0 <= t ->
    RateLimit.Bucket.monotonic t0 (limiter_times ins) /\ Forall (fun now => now <= t') (limiter_times ins).
Proof.
  revert t. induction ins as [|i ins IH]; intros t; simpl; [intros (? & _); done|].
  intros (Ht & Hi & Hc). destruct (IH _ Hc) as [Hle Hrest]. split; [lia|]. intros t0 Ht0.
  unfold limiter_times in *. simpl. destruct (sized i); simpl; [|apply Hrest; lia].
  destruct (Hrest (i_rate i) Hi) as [? ?]. split; [split; [lia|done]|]. constructor; [lia|done].
Qed.

(** A bound on the larger of two counts bounds the smaller one. *)
Lemma count_le (k m : Z) (x y : Q) :
  0 <= k -> (0 <= y)%Q -> k <= m -> (inject_Z m * x <= y)%Q -> (inject_Z k * x <= y)%Q.
Proof.
  intros Hk%inject_Z_le Hy Hkm%inject_Z_le Hm. change (inject_Z 0) with 0%Q in Hk.
  destruct (Qlt_le_dec x 0); nra.
Qed.

Lemma span_nonneg (v : Q) span : (0 < v)%Q -> 0 <= span -> (0 <= v * (2 + secs span * (1 + 7 * eps)))%Q.
Proof.
  intros Hv Hs. assert (0 <= secs span)%Q by (unfold secs, Qle; simpl; lia). unfold eps. nra.
Qed.

Section daemon_traffic.
Context `{!Gotham, !GothamLaws, !MailboxAuth, !MailboxApi, !MailboxCodec, !MailboxStore Mailbox, !RosterApi,
  !Tls, !GossipApi AuthoritySet} {R HS T : Type} `{!Rng R, !Sealed R, !Delay.Libm, !NoiseTransport T,
  !NoiseHandshake HS T, !HashOrder RateLimit.IpAddr (RateLimit.RateLimiter * Z), !Platform, !Hex}.
Context (node_new : GossipConfig -> AuthoritySet -> option string).

#[local] Abbreviation world := (world (R := R) (T := T)).
#[local] Abbreviation step := (step (R := R) (HS := HS) (T := T)).
#[local] Abbreviation started := (started (R := R) (T := T)).
Implicit Types (n : run_env (R := R)) (a : RunArgs) (p : plan Mailbox) (w : world).

Lemma transition_readings c e st j s :
  transition (R := R) (T := T) c e st j s ->
  match s_event s with
  | EvPacket i _ => i_rate i = rd_rate (e_clock e) /\ i_replay i = rd_replay (e_clock e)
  | _ => True
  end.
Proof.
  intros [j' j2 st' _ _ _ Hr Hg _ _| |j' next packet _ _ _ _| | |t | | | | |]; try done; simpl.
  - unfold process_packet. by destruct (process_input _ _ _) as [[o r] rng].
  - unfold mail_task. by destruct (task_start _ _ _) as [[??]?].
Qed.

(** Whatever the tasks do, the limiter is asked at increasing times. *)
Lemma readings_increase c t st w :
  reachable (HS := HS) c t st w -> rate_clock t ((packets_of (w_history w)).*1 ++ [reading (w_clock w)]).
Proof.
  intros Hw. refine (proj2 (reachable_invariant (HS := HS) (fun w : world =>
    rate_clock t ((packets_of (w_history w)).*1 ++ [reading (w_clock w)])) c t st _ _ w Hw)).
  - intros w0 []; simpl; lia.
  - clear w Hw. intros w w' [w1 w2 [id j e s w1' Hj He Ha]|q w1|e w1 He _|e w1 He _] _.
    + apply resume_transition, transition_readings in Ha.
      destruct (commit_fields id j e s w1') as (-> & _ & -> & _). intros Hclk.
      assert (w_clock w1' <= rd_rate (e_clock e) <= rd_replay (e_clock e)) as Hle by (destruct He; lia).
      unfold packets_of in *. rewrite omap_app.
      destruct (s_event s) as [|i o| | | | | | | |]; simpl in *; rewrite ?app_nil_r;
        try (eapply rate_clock_later; [|exact Hclk]; lia).
      destruct Ha as [Hr Hi]. rewrite fmap_app. simpl. rewrite <- Hi.
      eapply rate_clock_snoc; [..|exact Hclk]; rewrite ?Hr, ?Hi; lia.
    + by destruct (incoming_fields q w1) as (-> & _ & ->).
    + destruct (tick_fields e w1) as (Ht & _ & Hh & _).
      assert (packets_of (w_history (tick e w1)) = packets_of (w_history w1)) as ->.
      { unfold packets_of. destruct Hh as [->| ->]; rewrite ?omap_app; simpl; by rewrite ?app_nil_r. }
      intros Hclk. eapply rate_clock_later; [|exact Hclk]. destruct He, Ht as [-> | ->]; lia.
    + destruct (maintain_fields c e w1) as (Ht & _ & _ & -> & _). intros Hclk.
      eapply rate_clock_later; [|exact Hclk]. destruct He, Ht as [-> | ->]; lia.
Qed.

Lemma boot_relay_limiter (h : host) a sk :
  rate_limiter (boot_relay h a sk) = RateLimit.new (a_max_pps a) (a_max_bytes_per_day a) (h_t1 h) (h_t2 h).
Proof.
  unfold boot_relay, with_replay_persistence.
  destruct (a_replay_cache_path a), (a_strict_header_v3 a); simpl; try done;
    by destruct (ReplayPersist.load _ _ _ _ _ _).
Qed.

(** The packets a daemon has accepted in a stretch of its history are among
    those its limiter let pass then. *)
Lemma daemon_accepted n a p c w0 w before during :
  setup node_new n a = Ok p -> started n a p = Ok (c, w0) -> rtc (step c) w0 w ->
  h_t1 (re_host n) <= re_start n -> packets_of (w_history w) = before ++ during ->
  let l := RateLimit.new (a_max_pps a) (a_max_bytes_per_day a) (h_t1 (re_host n)) (h_t2 (re_host n)) in
  let l' := (RateLimit.run l (limiter_times before.*1)).2 in
  accepted_count during.*2 <= RateLimit.admitted (RateLimit.run l' (limiter_times during.*1)).1 /\
  RateLimit.Bucket.monotonic (h_t1 (re_host n)) (limiter_times before.*1 ++ limiter_times during.*1) /\
  Forall (fun now => now <= w_clock w) (limiter_times during.*1).
Proof.
  intros Hp Hs Hw Ht Hsplit l. apply setup_relay in Hp as (_ & Hr & _).
  pose proof (running_reachable _ _ _ _ _ _ Hs Hw) as Hreach.
  pose proof (readings_increase _ _ _ _ Hreach) as Hclk. apply relay_serialised in Hreach as [Hrun _].
  apply rate_clock_times in Hclk as [_ Hclk]. destruct (Hclk _ Ht) as [Hm Hall]. cbv zeta in Hrun |- *.
  rewrite Hsplit, fmap_app in Hm, Hall. rewrite Hsplit, !fmap_app, relay_run_app in Hrun.
  unfold limiter_times in Hm, Hall. rewrite omap_app in Hm, Hall. apply Forall_app in Hall as [_ Hall].
  split; [|by split].
  set (st := first_state (re_around n) p (h_fs (re_host n))) in *.
  pose proof (run_limiter (sh_relay (st_shared st)) (sh_rng (st_shared st)) before.*1) as Hl1.
  destruct (run _ _ before.*1) as [[os1 r1] rng1] eqn:Hrb.
  pose proof (run_limiter r1 rng1 during.*1) as Hl2. destruct (run r1 rng1 during.*1) as [[os2 r2] rng2].
  apply run_outcomes in Hrb. injection Hrun as Hos _ _.
  apply app_inj_1 in Hos as [_ ->]; [|by rewrite Hrb, !length_fmap].
  simpl in Hl1. rewrite Hr, boot_relay_limiter in Hl1. fold l in Hl1.
  destruct (RateLimit.run l _) as [ds1 l1]. destruct Hl1 as [Hl1 _]. rewrite Hl1 in Hl2. simpl.
  destruct (RateLimit.run l1 _) as [ds2 l2]. by destruct Hl2.
Qed.

Lemma limiter_times_Forall (P : Z -> Prop) ins :
  Forall (fun i => P (i_rate i)) ins -> Forall P (limiter_times ins).
Proof.
  intros Hf. unfold limiter_times. induction Hf as [|i ins Hi Hf IH]; simpl; [done|].
  destruct (sized i); [|done]. by constructor.
Qed.

(** C10. The traffic of a daemon is bounded by its flags, whatever its peers do:
    with a positive [--max-pps] the number of packets it accepts within any [span]
    nanoseconds of its run is at most two seconds' packets and those of [span], up
    to the rounding of the limiter; and with a [--max-bytes-per-day] the size on the
    wire of all it accepts stays within it during the first day. *)
Theorem daemon_traffic_bounded n a p c w0 w before during :
  setup node_new n a = Ok p -> started n a p = Ok (c, w0) -> rtc (step c) w0 w ->
  h_t1 (re_host n) <= re_start n -> packets_of (w_history w) = before ++ during ->
  (forall from span, RateBounds.is_rate (a_max_pps a) ->
   h_t1 (re_host n) <= from -> 0 <= span -> from + span <= h_t1 (re_host n) + u64_max ->
   Forall (fun x => i_rate x.1 <= from) before -> Forall (fun x => from <= i_rate x.1 <= from + span) during ->
   (inject_Z (accepted_count during.*2) * (1 - 4 * F64Error.value (a_max_pps a) * eps) <=
    F64Error.value (a_max_pps a) * (2 + secs span * (1 + 7 * eps)))%Q) /\
  (0 < a_max_bytes_per_day a < u64_max -> w_clock w < h_t2 (re_host n) + RateLimit.QUOTA_WINDOW ->
   RateLimit.WIRE_BYTES_PER_PACKET * accepted_count (packets_of (w_history w)).*2 <= a_max_bytes_per_day a).
Proof.
  intros Hp Hs Hw Ht Hsplit. split.
  - intros from span Hrate Hfrom Hspan Hend Hbef Hdur.
    destruct (daemon_accepted n a p c w0 w before during Hp Hs Hw Ht Hsplit) as (Hacc & Hmono & _).
    assert (Forall (fun t => t <= from) (limiter_times before.*1)) as Hbef'
      by (by apply limiter_times_Forall, Forall_fmap).
    assert (Forall (fun t => from <= t <= from + span) (limiter_times during.*1)) as Hdur'
      by (by apply limiter_times_Forall, Forall_fmap).
    eapply count_le; [| |exact Hacc|].
    + unfold accepted_count. lia.
    + destruct (RateBounds.rate_nonneg _ Hrate) as [_ Hv]. apply span_nonneg; lra || lia.
    + apply (RateBounds.admitted_window _ _ _ _ _ from); [done..| |].
      * apply RateBounds.monotonic_insert; [done..|]. eapply Forall_impl; [exact Hdur'|]. simpl. lia.
      * eapply Forall_impl; [exact Hdur'|]. simpl. lia.
  - intros Hb Hend.
    destruct (daemon_accepted n a p c w0 w [] (packets_of (w_history w)) Hp Hs Hw Ht eq_refl) as (Hacc & _ & Hall).
    simpl in Hacc.
    assert (Forall (fun now => duration_since now (h_t2 (re_host n)) < RateLimit.QUOTA_WINDOW)
      (limiter_times (packets_of (w_history w)).*1)) as Hin.
    { eapply Forall_impl; [exact Hall|]. intros now Hn. simpl in *.
      unfold duration_since, RateLimit.QUOTA_WINDOW, from_secs, NANOS_PER_SEC in *. lia. }
    pose proof (RateLimit.run_quota
      (RateLimit.new (a_max_pps a) (a_max_bytes_per_day a) (h_t1 (re_host n)) (h_t2 (re_host n)))
      (limiter_times (packets_of (w_history w)).*1) Hb ltac:(simpl; lia) Hin) as Hq.
    simpl in Hq. unfold RateLimit.WIRE_BYTES_PER_PACKET in *. lia.
Qed.
End daemon_traffic.

(** ** A concrete run *)
Module ThroughputDemo.
Import DaemonDemo.
#[local] Existing Instances Toy.gotham toy_laws counter_rng Delay.coarse_libm ToyNoise.transport
  ToyNoise.handshake ToyMailbox.auth ToyMailbox.api ToyMailbox.codec unix_platform
  ConcurrencyDemo.order ConcurrencyDemo.rosters ConcurrencyDemo.store ConcurrencyDemo.sealed
  EndpointDemo.tls Base16.hex gossip_api.

(** One packet per second and 5000 bytes per day. *)
Definition limited : RunArgs :=
  mkRunArgs "relay.key" 443 (lit "::") 500000 100 300 None false (of_Z 1) 5000
    None [] None false None (lit "mix") None None 0 false None false false None None None []
    (lit "all") 60 None None false None.

Definition limited_plan : plan Mailbox := get_ok no_plan (setup node_new first_run limited).
Definition limited_start : config * world (R := Z) (T := ToyNoise.state) :=
  get_ok (ConcurrencyDemo.conf, ConcurrencyDemo.w0) (started first_run limited limited_plan).
Definition limited_world : world (R := Z) (T := ToyNoise.state) :=
  exec_all (HS := ToyNoise.hs) limited_start.1 first_schedule limited_start.2.

Example limited_accepts : accepted_count (packets_of (w_history limited_world)).*2 = 1.
Proof. vm_compute. reflexivity. Qed.

Lemma limited_rates : (fun x => i_rate x.1) <$> packets_of (w_history limited_world) = [from_secs 5; from_secs 7].
Proof. vm_compute. reflexivity. Qed.

Lemma daemon_traffic_bounded_witness :
  (inject_Z (accepted_count (packets_of (w_history limited_world)).*2) *
     (1 - 4 * F64Error.value (of_Z 1) * eps) <=
   F64Error.value (of_Z 1) * (2 + secs (from_secs 20) * (1 + 7 * eps)))%Q /\
  RateLimit.WIRE_BYTES_PER_PACKET * accepted_count (packets_of (w_history limited_world)).*2 <= 5000.
Proof.
  destruct (daemon_traffic_bounded (HS := ToyNoise.hs) node_new first_run limited limited_plan limited_start.1
    limited_start.2 limited_world [] (packets_of (w_history limited_world))) as [H1 H2].
  - apply get_ok_Ok. vm_compute. reflexivity.
  - rewrite <- surjective_pairing. apply get_ok_Ok. vm_compute. reflexivity.
  - apply exec_all_rtc.
  - vm_compute. discriminate.
  - symmetry. apply app_nil_l.
  - split; [apply (H1 0 (from_secs 20))|apply H2; by vm_compute].
    + by vm_compute.
    + by vm_compute.
    + by vm_compute.
    + by vm_compute.
    + constructor.
    + apply (Forall_fmap (fun x => i_rate x.1) (fun t => 0 <= t <= 0 + from_secs 20)).
      rewrite limited_rates. repeat constructor; by vm_compute.
Defined.
End ThroughputDemo.
