(* ===== verification/Sources.v ===== *)
(** * The traffic of one source

    Before a packet of a connection reaches the relay, [serve_connection] asks
    the limiter of the address it comes from, in a table all connections share
    ([transport.rs], [rate_limit.rs]).  This file carries [RateLimit]'s isolation
    and [RateBounds]' rate bound over to the running daemon: however many
    connections an address opens and whatever the others do, it gets at most 200
    packets per second through, after a burst of 400. *)

From Stdlib Require Import QArith Lqa.
From S2P Require Import Prelude Text Net Fs F64 F64Error Rand Gotham Wire Process Services Server Endpoint.
From S2P Require Import Enroll Keys Doctor Boot Restart Listener Concurrency Snapshots Daemon.
From S2P Require Import RateLimit.
From S2P Require Delay RateBounds Replay ReplayPersist.

#[local] Open Scope Z_scope.

(** ** The calls of the table *)
Section calls.
Context `{!HashOrder IpAddr (RateLimiter * Z)}.

Lemma per_source_run_snoc p cs c :
  per_source_run p (cs ++ [c]) =
  let '(ds, p) := per_source_run p cs in
  let '(d, p) := per_source_check_at p (c_src c) (c_now c) (c_t1 c) (c_t2 c) in (ds ++ [d], p).
Proof.
  revert p. induction cs as [|c' cs IH]; intros p; simpl.
  { by destruct (per_source_check_at _ _ _ _ _). }
  destruct (per_source_check_at p _ _ _ _) as [d p1]. rewrite IH.
  destruct (per_source_run p1 cs) as [ds p2]. by destruct (per_source_check_at p2 _ _ _ _).
Qed.
End calls.

(** ** A fresh entry

    The table reads the clock before it creates the limiter of a new source, so
    the first packet comes before the last refill; it is admitted, and the limiter
    is as one created when the packet came. *)
Lemma first_packet t1 t2 now :
  now <= t1 ->
  check_at (new PER_SOURCE_MAX_PPS 0 t1 t2) now = check_at (new PER_SOURCE_MAX_PPS 0 now t2) now.
Proof.
  intros Ht. unfold check_at, quota_check, bucket_check, new. simpl last_refill.
  assert (duration_since now t1 = 0) as -> by (unfold duration_since; lia).
  assert (duration_since now now = 0) as -> by (unfold duration_since; lia). done.
Qed.

Lemma run_from_first t1 t2 now times :
  now <= t1 ->
  run (new PER_SOURCE_MAX_PPS 0 t1 t2) (now :: times) = run (new PER_SOURCE_MAX_PPS 0 now t2) (now :: times).
Proof. intros Ht. simpl. by rewrite first_packet. Qed.

(** Calls in the order of the clock, each with its readings in order. *)
Fixpoint call_clock (t : Z) (cs : list call) : Prop :=
  match cs with
  | [] => True
  | c :: cs => t <= c_now c /\ c_now c <= c_t1 c /\ call_clock (c_now c) cs
  end.

Lemma call_clock_earlier t t' cs : t <= t' -> call_clock t' cs -> call_clock t cs.
Proof. destruct cs; simpl; [done|]. intros ? (? & ?). split; [lia|done]. Qed.

Lemma call_clock_of t cs a : call_clock t cs -> call_clock t (calls_of a cs).
Proof.
  unfold calls_of. revert t. induction cs as [|c cs IH]; intros t; simpl; [done|].
  intros (? & ? & Hc). rewrite filter_cons. case_decide; simpl; [by auto|].
  by apply (call_clock_earlier _ (c_now c)), IH.
Qed.

Lemma call_clock_monotonic t cs : call_clock t cs -> Bucket.monotonic t (map c_now cs).
Proof. revert t. induction cs as [|c cs IH]; intros t; simpl; [done|]. intros (? & _ & ?). auto. Qed.

Lemma call_clock_snoc t cs c t' :
  call_clock t cs -> Forall (fun c => c_now c <= t') cs -> t <= t' -> t' <= c_now c -> c_now c <= c_t1 c ->
  call_clock t (cs ++ [c]).
Proof.
  revert t. induction cs as [|c' cs IH]; intros t; simpl; [lia|].
  intros (? & ? & Hc) [? Hall]%Forall_cons ???. split_and!; [done..|]. apply IH; done || lia.
Qed.

Lemma call_clock_start t cs : call_clock t cs -> Forall (fun c => t <= c_now c) cs.
Proof.
  revert t. induction cs as [|c cs IH]; intros t; simpl; [done|]. intros (Ht & _ & Hc).
  constructor; [done|]. eapply Forall_impl; [by apply IH|]. simpl. lia.
Qed.

(** ** The answers to one source *)
Lemma limiter_run_length rl times : length (run rl times).1 = length times.
Proof.
  revert rl. induction times as [|now times IH]; intros rl; simpl; [done|].
  destruct (check_at rl now) as [d rl1]. specialize (IH rl1). destruct (run rl1 times). simpl in *. by f_equal.
Qed.

Lemma calls_app a l1 l2 : calls_of a (l1 ++ l2) = calls_of a l1 ++ calls_of a l2.
Proof. apply filter_app. Qed.

Lemma calls_Forall (P : call -> Prop) a l : Forall P l -> Forall P (calls_of a l).
Proof. intros Hl. apply Forall_forall. intros c [_ Hc]%list_elem_of_filter. by eapply Forall_forall in Hl. Qed.

(** The answers among calls that are listed with them. *)
Definition answers_to (a : IpAddr) (l : list (call * RateDecision)) : list RateDecision := decisions_of a l.*1 l.*2.

Lemma answers_filter a l : answers_to a l = map snd (filter (fun e => c_src e.1 = a) l).
Proof. unfold answers_to, decisions_of. by rewrite zip_fst_snd. Qed.

Lemma answers_app a l1 l2 : answers_to a (l1 ++ l2) = answers_to a l1 ++ answers_to a l2.
Proof. rewrite !answers_filter, filter_app. apply map_app. Qed.

Lemma answers_length a l : length (answers_to a l) = length (calls_of a l.*1).
Proof.
  rewrite answers_filter, length_map. unfold calls_of. induction l as [|[c d] l IH]; simpl; [done|].
  rewrite !filter_cons. simpl. case_decide; simpl; [by f_equal|done].
Qed.

(** A limiter of the source's own gives them. *)
Lemma answers_alone a before during lim c0 rest `{!HashOrder IpAddr (RateLimiter * Z)} t :
  per_source_run per_source_limiter (before ++ during).*1 = ((before ++ during).*2, lim) ->
  call_clock t (before ++ during).*1 -> (size (sources (before ++ during).*1) <= PER_SOURCE_MAX_TRACKED)%nat ->
  calls_of a (before ++ during).*1 = c0 :: rest ->
  answers_to a during =
    (run (run (new PER_SOURCE_MAX_PPS 0 (c_now c0) (c_t2 c0)) (map c_now (calls_of a before.*1))).2
       (map c_now (calls_of a during.*1))).1.
Proof.
  intros Hrun Hclk Hroom Hcalls.
  assert (size (dom (buckets per_source_limiter) ∪ sources (before ++ during).*1) <= max_entries per_source_limiter)%nat
    as Hfits by (cbn [buckets max_entries new_per_source per_source_limiter]; rewrite dom_empty_L, union_empty_l_L; lia).
  pose proof (per_source_run_solo a per_source_limiter (before ++ during).*1 Hfits) as Hsolo. rewrite Hrun in Hsolo.
  cbn [fst] in Hsolo.
  change (decisions_of a (before ++ during).*1 (before ++ during).*2) with (answers_to a (before ++ during)) in Hsolo.
  rewrite answers_app in Hsolo. apply (call_clock_of _ _ a) in Hclk. rewrite Hcalls in Hsolo, Hclk.
  destruct Hclk as (_ & Ht1 & _).
  unfold solo in Hsolo. unfold per_source_limiter in Hsolo. cbn [buckets new_per_source max_entries] in Hsolo.
  rewrite lookup_empty in Hsolo. cbn [map ps_max_pps ps_max_bytes_per_day] in Hsolo. rewrite run_from_first in Hsolo by done.
  change (c_now c0 :: map c_now rest) with (map c_now (c0 :: rest)) in Hsolo.
  rewrite <- Hcalls, fmap_app, calls_app, map_app, limiter_run_app in Hsolo.
  pose proof (limiter_run_length (new PER_SOURCE_MAX_PPS 0 (c_now c0) (c_t2 c0)) (map c_now (calls_of a before.*1))) as Hlen.
  destruct (run _ (map c_now (calls_of a before.*1))) as [ds1 rl1]. simpl in *.
  destruct (run rl1 _) as [ds2 rl2]. simpl in *.
  apply app_inj_1 in Hsolo as [_ ->]; [done|]. by rewrite answers_length, Hlen, length_map.
Qed.

(** Within [span] after [from] a source gets at most the burst and the packets of
    that time through. *)
Lemma source_rate a before during lim from span `{!HashOrder IpAddr (RateLimiter * Z)} t :
  per_source_run per_source_limiter (before ++ during).*1 = ((before ++ during).*2, lim) ->
  call_clock t (before ++ during).*1 -> (size (sources (before ++ during).*1) <= PER_SOURCE_MAX_TRACKED)%nat ->
  0 <= span <= u64_max -> from + span <= t + u64_max -> Forall (fun x => c_now x.1 <= from) before ->
  Forall (fun x => from <= c_now x.1 <= from + span) during ->
  (inject_Z (admitted (answers_to a during)) * (1 - 800 * eps) <= 200 * (2 + secs span * (1 + 7 * eps)))%Q.
Proof.
  intros Hrun Hclk Hroom Hspan Hend Hbef Hdur.
  assert (Forall (fun c => c_now c <= from) (calls_of a before.*1)) as Hb by (by apply calls_Forall, Forall_fmap).
  assert (Forall (fun c => from <= c_now c <= from + span) (calls_of a during.*1)) as Hd by (by apply calls_Forall, Forall_fmap).
  destruct (calls_of a (before ++ during).*1) as [|c0 rest] eqn:Hcalls.
  { rewrite fmap_app, calls_app in Hcalls. apply app_nil in Hcalls as [_ Hnil].
    pose proof (answers_length a during) as Hl. rewrite Hnil in Hl. apply nil_length_inv in Hl as ->.
    change (inject_Z (admitted [])) with 0%Q. assert (0 <= secs span)%Q by (unfold secs, Qle; simpl; lia). unfold eps. lra. }
  rewrite (answers_alone a before during lim c0 rest t Hrun Hclk Hroom Hcalls).
  assert (RateBounds.is_rate PER_SOURCE_MAX_PPS) as Hrate by (by vm_compute).
  assert (F64Error.value PER_SOURCE_MAX_PPS == 200)%Q as Hv by (by vm_compute).
  assert (1 - 4 * 200 * eps == 1 - 800 * eps)%Q as E by ring.
  apply (call_clock_of _ _ a) in Hclk. rewrite Hcalls in Hclk. destruct Hclk as (Ht0 & _ & Hclk).
  assert (Bucket.monotonic (c_now c0) (map c_now (calls_of a before.*1) ++ map c_now (calls_of a during.*1))) as Hm.
  { rewrite <- map_app, <- calls_app, <- fmap_app, Hcalls. split; [done|]. by apply call_clock_monotonic. }
  assert (Forall (fun c => c_now c0 <= c_now c) (calls_of a during.*1)) as Hfirst.
  { assert (Forall (fun c => c_now c0 <= c_now c) (c0 :: rest)) as Hf
      by (constructor; [done|by apply call_clock_start]).
    rewrite <- Hcalls, fmap_app, calls_app in Hf. by apply Forall_app in Hf as [_ ?]. }
  (* the window starts at the first call if there was none before *)
  set (s := Z.max from (c_now c0)).
  pose proof (RateBounds.admitted_window PER_SOURCE_MAX_PPS 0 (c_now c0) (c_t2 c0)
    (map c_now (calls_of a before.*1)) s span (map c_now (calls_of a during.*1)) Hrate (proj1 Hspan)) as Hw.
  rewrite Hv, E in Hw. apply Hw; unfold s.
  - lia.
  - apply RateBounds.monotonic_insert; [done|lia| |].
    + apply Forall_fmap. eapply Forall_impl; [exact Hb|]. simpl. lia.
    + apply Forall_fmap. eapply Forall_impl; [exact (proj2 (Forall_and _ _) (conj Hd Hfirst))|]. simpl. lia.
  - apply Forall_fmap. eapply Forall_impl; [exact Hd|]. simpl. lia.
Qed.

(** In whole packets, for the first eleven days. *)
Lemma whole_packets k span :
  0 <= span <= from_secs 1000000 ->
  (inject_Z k * (1 - 800 * eps) <= 200 * (2 + secs span * (1 + 7 * eps)))%Q ->
  NANOS_PER_SEC * k <= 401 * NANOS_PER_SEC + 200 * span.
Proof.
  intros Hspan Hk. rewrite Zle_Qle, inject_Z_plus, !inject_Z_mult.
  change (inject_Z NANOS_PER_SEC) with 1000000000%Q. change (inject_Z 401) with 401%Q. change (inject_Z 200) with 200%Q.
  assert (secs span * 1000000000 == inject_Z span)%Q as Es by (unfold secs, Qeq; simpl; lia).
  assert (0 <= secs span <= 1000000)%Q as [Hs0 Hs1].
  { unfold from_secs, NANOS_PER_SEC in Hspan. unfold secs, Qle. simpl. lia. }
  rewrite <- Es. unfold eps in *. lra.
Qed.

(** ** The daemon *)
Section daemon_sources.
Context `{!Gotham, !MailboxAuth, !MailboxApi, !MailboxCodec, !MailboxStore Mailbox, !RosterApi,
  !Tls, !GossipApi AuthoritySet} {R HS T : Type} `{!Rng R, !Sealed R, !Delay.Libm, !NoiseTransport T,
  !NoiseHandshake HS T, !HashOrder IpAddr (RateLimiter * Z), !Platform, !Hex}.

#[local] Abbreviation world := (world (R := R) (T := T)).
#[local] Abbreviation step := (step (R := R) (HS := HS) (T := T)).
#[local] Abbreviation started := (started (R := R) (T := T)).
Implicit Types (n : run_env (R := R)) (a : RunArgs) (p : plan Mailbox) (w : world).

(** The calls of the table, with its answers, in the order of the history. *)
Definition checks_of (h : list event) : list (call * RateDecision) :=
  omap (fun ev => match ev with EvChecked src now t1 t2 d => Some (Call src now t1 t2, d) | _ => None end) h.

Lemma transition_limiter c e st j s :
  transition (R := R) (T := T) c e st j s ->
  let lim := sh_limiter (st_shared st) in let lim' := sh_limiter (st_shared (s_state s)) in
  match s_event s with
  | EvChecked src now t1 t2 d =>
      per_source_check_at lim src now t1 t2 = (d, lim') /\
      now = rd_source (e_clock e) /\ t1 = rd_new1 (e_clock e)
  | _ => lim' = lim
  end.
Proof.
  intros [| |j' next packet _ _ _ _| | |t| | | | |]; try done; simpl.
  - unfold process_packet. by destruct (process_input _ _ _) as [[o r] rng].
  - unfold mail_task. by destruct (task_start _ _ _) as [[??]?].
Qed.

(** The table is used as by one caller, in the order of the clock. *)
Definition table_used (lim : PerSourceLimiter) (t : Z) (w : world) : Prop :=
  let cs := (checks_of (w_history w)).*1 in
  per_source_run lim cs = ((checks_of (w_history w)).*2, sh_limiter (st_shared (w_state w))) /\
  call_clock t cs /\ Forall (fun c => c_now c <= w_clock w) cs /\ t <= w_clock w.

(** Time passes without a call. *)
Lemma table_idle lim t w w' :
  checks_of (w_history w') = checks_of (w_history w) ->
  sh_limiter (st_shared (w_state w')) = sh_limiter (st_shared (w_state w)) -> w_clock w <= w_clock w' ->
  table_used lim t w -> table_used lim t w'.
Proof.
  intros Hh Hl Ht (Hrun & Hclk & Hall & Hle). unfold table_used. rewrite Hh, Hl.
  split_and!; [done..| |lia]. eapply Forall_impl; [exact Hall|]. simpl. lia.
Qed.

Lemma checks_snoc h ev :
  checks_of (h ++ [ev]) = checks_of h ++ checks_of [ev].
Proof. unfold checks_of. apply omap_app. Qed.

Lemma table_step lim t c w w' : step c w w' -> table_used lim t w -> table_used lim t w'.
Proof.
  intros [w1 w2 [id j e s w1' Hj He Ha]|q w1|e w1 He _|e w1 He _] Hu.
  - apply resume_transition, transition_limiter in Ha. cbv zeta in Ha.
    destruct (commit_fields id j e s w1') as (Hc & Hst & Hh & _). unfold env_from in He.
    destruct (s_event s) as [| | | | | | | |src now t1 t2 d|] eqn:Hev;
      try (eapply table_idle; [..|exact Hu]; [by rewrite Hh, checks_snoc, app_nil_r|by rewrite Hst|lia]).
    destruct Ha as (Hck & -> & ->). destruct Hu as (Hrun & Hclk & Hall & Hle).
    unfold table_used. rewrite Hh, checks_snoc, !fmap_app, Hst, Hc. cbn [checks_of omap list_omap fmap list_fmap fst snd].
    rewrite per_source_run_snoc, Hrun. cbn [c_src c_now c_t1 c_t2]. rewrite Hck. split_and!; [done| | |lia].
    + eapply call_clock_snoc; [exact Hclk|exact Hall|done|simpl; lia..].
    + apply Forall_app. split; [eapply Forall_impl; [exact Hall|]; simpl; lia|]. repeat constructor. simpl. lia.
  - destruct (incoming_fields q w1) as (Hc & Hst & Hh). eapply table_idle; [..|exact Hu]; [by rewrite Hh|by rewrite Hst|lia].
  - destruct (tick_fields e w1) as (Ht & Hst & Hh & _). eapply table_idle; [..|exact Hu].
    + destruct Hh as [->| ->]; [done|]. by rewrite checks_snoc, app_nil_r.
    + by rewrite Hst.
    + destruct He, Ht as [-> | ->]; lia.
  - destruct (maintain_fields c e w1) as (Ht & Hsh & _ & Hh & _). eapply table_idle; [..|exact Hu].
    + by rewrite Hh.
    + by rewrite Hsh.
    + destruct He, Ht as [-> | ->]; lia.
Qed.

Lemma table_serialised c t st w :
  reachable (HS := HS) c t st w -> table_used (sh_limiter (st_shared st)) t w.
Proof.
  intros Hw. refine (proj2 (reachable_invariant (HS := HS) (table_used (sh_limiter (st_shared st)) t) c t st _ _ w Hw)).
  - intros w0 []; by split_and!.
  - intros w1 w2 Hs _. by eapply table_step.
Qed.

(** C11. One source cannot flood a daemon: as long as the addresses that have sent
    packets fit the table of 4096, each of them, over all the connections it opens
    and whatever the others do, gets within any [span] nanoseconds (up to eleven
    days) at most 401 packets and 200 per second of them past the per-source
    limiter. *)
Theorem source_traffic_bounded n a p c w0 w src before during from span :
  started n a p = Ok (c, w0) -> rtc (step c) w0 w ->
  checks_of (w_history w) = before ++ during ->
  (size (sources (checks_of (w_history w)).*1) <= PER_SOURCE_MAX_TRACKED)%nat ->
  0 <= span <= from_secs 1000000 -> from + span <= re_start n + u64_max ->
  Forall (fun x => c_now x.1 <= from) before -> Forall (fun x => from <= c_now x.1 <= from + span) during ->
  NANOS_PER_SEC * admitted (answers_to src during) <= 401 * NANOS_PER_SEC + 200 * span.
Proof.
  intros Hs Hw Hsplit Hroom Hspan Hend Hbef Hdur. pose proof (running_reachable _ _ _ _ _ _ Hs Hw) as Hr.
  apply table_serialised in Hr as (Hrun & Hclk & _). simpl in Hrun. rewrite Hsplit in Hrun, Hclk, Hroom.
  apply whole_packets; [done|]. eapply source_rate; [exact Hrun|exact Hclk|done| |exact Hend|done..].
  unfold from_secs, NANOS_PER_SEC, u64_max in *. lia.
Qed.
End daemon_sources.

(** ** A concrete run *)
Module SourcesDemo.
Import DaemonDemo.
#[local] Existing Instances Toy.gotham toy_laws counter_rng Delay.coarse_libm ToyNoise.transport
  ToyNoise.handshake ToyMailbox.auth ToyMailbox.api ToyMailbox.codec unix_platform
  ConcurrencyDemo.order ConcurrencyDemo.rosters ConcurrencyDemo.store ConcurrencyDemo.sealed
  EndpointDemo.tls Base16.hex gossip_api.

(** Two connections of one address, a packet on each. *)
Definition both : world (R := Z) (T := ToyNoise.state) := run_of first_run first_schedule.
Definition from : IpAddr := p_ip ConcurrencyDemo.mix_peer.

Example two_checks :
  checks_of (w_history both) =
  [(Call from (from_secs 2) (from_secs 2) (from_secs 2), Allow); (Call from (from_secs 6) (from_secs 6) (from_secs 6), Allow)].
Proof. vm_compute. reflexivity. Qed.

Lemma source_traffic_bounded_witness :
  exists before during, checks_of (w_history both) = before ++ during /\ admitted (answers_to from during) = 1 /\
  NANOS_PER_SEC * admitted (answers_to from during) <= 401 * NANOS_PER_SEC + 200 * from_secs 5.
Proof.
  exists [(Call from (from_secs 2) (from_secs 2) (from_secs 2), Allow)],
    [(Call from (from_secs 6) (from_secs 6) (from_secs 6), Allow)].
  split; [exact two_checks|]. split; [vm_compute; reflexivity|].
  apply (source_traffic_bounded (HS := ToyNoise.hs) first_run args (plan_of first_run) (start_of first_run).1
    (start_of first_run).2 both from [(Call from (from_secs 2) (from_secs 2) (from_secs 2), Allow)] _ (from_secs 4)).
  - apply started_of. vm_compute. reflexivity.
  - apply exec_all_steps.
  - exact two_checks.
  - rewrite two_checks. vm_compute. lia.
  - vm_compute. split; discriminate.
  - vm_compute. discriminate.
  - repeat constructor. vm_compute. discriminate.
  - repeat constructor; vm_compute; discriminate.
Defined.
End SourcesDemo.
