(* ===== verification/Testnet.v ===== *)
(** * Sending one message over a test network ([examples/testnet_send.rs])

    The example program reads a signed directory, draws two keys, and sends one
    sealed message through three of the relays listed.  Signed directories
    belong to [crypto_gotham::directory] and are an interface. *)

From stdpp Require Import pretty.
From S2P Require Import Prelude Text Fs F64 Rand Gotham Wire Services Process Client Messages.
From S2P Require Delay RateLimit Cover.

(** [crypto_gotham::directory]: [sign_directory relays valid key] is
    [DirectoryDoc::new] and [SignedDirectory::sign]. *)
Class SignedDirectories (R : Type) `{!Directory R} := {
  SignedDirectory : Type;
  doc_relays : SignedDirectory -> list RelayDescriptor;
  sign_directory : list RelayDescriptor -> Z -> list byte -> option SignedDirectory;
  to_json_pretty : SignedDirectory -> option (list byte);
  from_json : list byte -> option SignedDirectory;
  verifying_key : list byte -> list byte;
  verify : SignedDirectory -> list byte -> bool;
  (** the [Debug] form of the tier *)
  tier_debug : RelayDescriptor -> str;
}.

Class SignedDirectoriesLaws (R : Type) `{!Directory R, !SignedDirectories R} : Prop := {
  doc_relays_signed : forall relays valid key d,
    sign_directory relays valid key = Some d -> doc_relays d = relays;
  from_json_to_json : forall d raw, to_json_pretty d = Some raw -> from_json raw = Some d;
}.

(** Why the program ends with an error. *)
Inductive problem : Type :=
| Usage
| NotRead (e : io_error)
| NotParsed
| NoClient (e : TransportError)
| NotSent (e : ClientError).

Definition usage : str := lit "usage: testnet_send <directory.json>".
Definition body : list byte := lit "hello over a real 3-process Gotham testnet".
Definition sent_line : str :=
  lit "send_sealed OK — the entry relay accepted the packet; check the relay logs for the entry → mix → exit traversal.".

(** The text; that of a parse error ends with what the crate says. *)
Definition problem_text `{!ForeignTexts, !Gotham} (parse_text : str) (p : problem) : str :=
  match p with
  | Usage => usage
  | NotRead e => lit (msg e)
  | NotParsed => lit "parse directory: " ++ parse_text
  | NoClient e => transport_text e
  | NotSent e => lit "send_sealed: " ++ client_text e
  end.

Section example.
Context `{!Gotham} {R : Type} `{!Rng R, !Route R, !Delay.Libm, !Directory R, !Sealed R, !SignedDirectories R}.
Context (net : RateLimit.IpAddr * Z -> list byte -> list byte -> list byte -> result TransportError unit).

Definition loaded_lines (path : str) (relays : list RelayDescriptor) : list str :=
  (lit "loaded " ++ integer (zlen relays) ++ lit " relays from " ++ path ++ lit ":") ::
  map (fun r => lit "  " ++ tier_debug r ++ lit "  " ++ relay_addr r) relays.

(** What it prints, and how it ends; [None] is a panic.  [args] are the command
    line, the program's name first; the generators are the operating system's,
    as the keys and the handshake find it. *)
Definition testnet_send (args : list str) (fault : string -> option io_error) (fs : gmap string file)
    (endpoint : result TransportError unit) (rng os_rng : R) : list str * option (result problem unit) :=
  match args !! 1%nat with
  | None => ([], Some (Err Usage))
  | Some path =>
      match read (fault (unlit path)) fs (unlit path) with
      | Err e => ([], Some (Err (NotRead e)))
      | Ok raw =>
          match from_json raw with
          | None => ([], Some (Err NotParsed))
          | Some signed =>
              let relays := doc_relays signed in
              let lines := loaded_lines path relays in
              let '(recipient_pk, rng) := Cover.random_public_key rng in
              let '(sender_pk, rng) := Cover.random_public_key rng in
              match new endpoint with
              | Err e => (lines, Some (Err (NoClient e)))
              | Ok client =>
                  match (send_sealed net client relays 3 recipient_pk sender_pk body rng os_rng).1 with
                  | None => (lines, None)
                  | Some (Err e) => (lines, Some (Err (NotSent e)))
                  | Some (Ok _) => (lines ++ [sent_line], Some (Ok tt))
                  end
              end
          end
      end
  end.
End example.

(** ** Theorems *)
Section example_facts.
Context `{!Gotham, !GothamLaws} {R : Type}
  `{!Rng R, !RngLaws R, !Route R, !RouteLaws R, !Delay.Libm, !Delay.LibmLaws, !Directory R,
    !DirectoryLaws R, !Sealed R, !SealedLaws R, !SignedDirectories R, !SignedDirectoriesLaws R}.
Context (net : RateLimit.IpAddr * Z -> list byte -> list byte -> list byte -> result TransportError unit).

Lemma default_client_mean : is_u64 (mean_hop_delay_micros default_client).
Proof. by vm_compute. Qed.

Lemma send_sealed_total c relays n pk sender msg (rng os_rng : R) :
  is_u64 (mean_hop_delay_micros c) ->
  exists res rng', send_sealed net c relays n pk sender msg rng os_rng = (Some res, rng').
Proof.
  intros Hm. unfold send_sealed. destruct (seal_and_frame _ _ _ _) as [[framed|e] rng1]; [|eauto].
  by apply send_total.
Qed.

(** What a successful sealed send handed to the network. *)
Lemma send_sealed_shipped c relays n sk sender msg (rng os_rng : R) :
  (send_sealed net c relays n (public_key sk) sender msg rng os_rng).1 = Some (Ok tt) ->
  exists hops ds pkt framed, length hops = n /\ shipped (R := R) net os_rng hops ds framed pkt /\
    unsealing_delivery_handler sk (padded framed) = Some (sender, msg).
Proof.
  unfold send_sealed. destruct (seal_and_frame _ _ _ _) as [[framed|] rng1] eqn:Hf; [|done].
  destruct (send net c relays n framed rng1 os_rng) as [res rng2] eqn:Hs. simpl. intros ->.
  apply send_shipped in Hs as (hops & rng3 & ds & pkt & _ & Hn & _ & _ & Hsh). exists hops, ds, pkt, framed.
  split; [done|]. split; [done|]. by eapply sealed_opens.
Qed.

(** The example sends what it says: given a directory that was signed and stored
    as JSON it prints the relays of that directory and never panics; and when it
    reports success, the packet it gave the network travels three relays, the
    last of which delivers the body, sealed for the key it drew. *)
Theorem testnet_send_delivers args path fs raw m relays valid key d (rng os_rng : R) :
  args !! 1%nat = Some path -> fs !! unlit path = Some (File raw m) ->
  sign_directory relays valid key = Some d -> to_json_pretty d = Some raw ->
  exists res, testnet_send net args (fun _ => None) fs (Ok tt) rng os_rng =
    (loaded_lines path relays ++ match res with Ok _ => [sent_line] | Err _ => [] end, Some res) /\
  match res with
  | Ok _ => exists hops ds pkt sk sender framed, length hops = 3%nat /\ shipped (R := R) net os_rng hops ds framed pkt /\
      unsealing_delivery_handler sk (padded framed) = Some (sender, body)
  | Err e => exists why, e = NotSent why
  end.
Proof.
  intros Hargs Hfs Hd Hraw. unfold testnet_send. rewrite Hargs. unfold read. rewrite Hfs. simpl.
  rewrite (from_json_to_json _ _ Hraw), (doc_relays_signed _ _ _ _ Hd).
  unfold Cover.random_public_key. destruct (fill_bytes 32 rng) as [rk rng1].
  destruct (fill_bytes 32 rng1) as [sk rng2].
  destruct (send_sealed_total default_client relays 3 (public_key rk) (public_key sk) body rng2 os_rng
    default_client_mean) as (res & rng3 & Hs).
  pose proof (send_sealed_shipped default_client relays 3 rk (public_key sk) body rng2 os_rng) as Hsh.
  rewrite Hs in Hsh |- *. simpl in *. destruct res as [[]|e].
  - exists (Ok tt). split; [done|]. destruct (Hsh eq_refl) as (hops & ds & pkt & framed & ? & ? & ?). eauto 10.
  - exists (Err (NotSent e)). rewrite app_nil_r. eauto.
Qed.
End example_facts.

(** ** A concrete run *)
Module TestnetDemo.
#[local] Existing Instances Toy.gotham counter_rng Delay.coarse_libm ToyDirectory.directory.
#[local] Instance toy_route : Route Z := Toy.route Z.

(** Short envelopes, since the packets of the toy format are small. *)
#[local] Instance short_sealed : Sealed Z :=
  @Build_Sealed Z Toy.gotham (fun rng pk sender body => (Ok (sender ++ body), rng))
    (fun _ env => Ok (take 32 env, drop 32 env)).

#[local] Instance descriptor_eq_dec : EqDecision ToyDirectory.descriptor.
Proof. solve_decision. Defined.

(** A directory is the numbers of its relays and the signer's key, one byte
    each. *)
Record signed : Type := mkSigned { sg_relays : list ToyDirectory.descriptor; sg_key : list byte }.

Definition directories : SignedDirectories Z := {|
  SignedDirectory := signed;
  doc_relays := sg_relays;
  sign_directory := fun relays _ key => if (length key =? 1)%nat then Some (mkSigned relays key) else None;
  to_json_pretty := fun d =>
    if decide (Forall (fun r => r = ToyDirectory.mkDescriptor (byte_to_Z (byte_of_Z (ToyDirectory.d_sk r))) false) (sg_relays d))
    then if (length (sg_key d) =? 1)%nat
         then Some (sg_key d ++ map (fun r => byte_of_Z (ToyDirectory.d_sk r)) (sg_relays d)) else None
    else None;
  from_json := fun raw =>
    match raw with
    | k :: l => Some (mkSigned (map (fun b => ToyDirectory.mkDescriptor (byte_to_Z b) false) l) [k])
    | [] => None
    end;
  verifying_key := fun key => key;
  verify := fun d key => bool_decide (sg_key d = key);
  tier_debug := fun _ => lit "Mix";
|}.

Lemma directories_laws : @SignedDirectoriesLaws Z _ directories.
Proof.
  split; simpl.
  - intros relays valid key d. case_match; [|done]. by intros [= <-].
  - intros [relays key] raw. simpl. case_decide as Hr; [|done].
    destruct key as [|k [|? ?]]; simpl; [done| |done]. intros [= <-]. simpl. do 2 f_equal.
    rewrite map_map. induction Hr as [|r relays Hr _ IH]; simpl; [done|]. by rewrite <- Hr, IH.
Qed.
#[local] Existing Instance directories.

Definition disk : gmap string file := {[ "dir.json"%string := File [x09; x01; x02; x03] 420 ]}.

Definition run (args : list string) : list str * option (result problem unit) :=
  testnet_send ClientDemo.open_net (map lit args) (fun _ => None) disk (Ok tt) 0 0.

Example runs :
  (run ["testnet_send"]).2 = Some (Err Usage) /\
  (run ["testnet_send"; "x"]).2 = Some (Err (NotRead (IoError NotFound "No such file or directory"))) /\
  run ["testnet_send"; "dir.json"] =
    (map lit ["loaded 3 relays from dir.json:"; "  Mix  10.0.0.1:9001"; "  Mix  10.0.0.1:9001";
              "  Mix  10.0.0.1:9001"] ++ [sent_line], Some (Ok tt)).
Proof. vm_compute. done. Qed.
End TestnetDemo.
