(* ===== verification/Conformance.v ===== *)
(** * The unit tests of the crate, run on the model

    Every test of replay.rs, rate_limit.rs, delay.rs and process.rs that does
    not depend on threads, sockets or the distribution of random numbers (for
    these see [ConformanceDelay]) is translated statement by statement into a computation on the model, which
    then passes it.  A test takes the readings of the clock it makes; the ones
    about packets are stated for every implementation of the packet format. *)

From Stdlib Require Import QArith Lqa.
From S2P Require Import Prelude Fs F64 F64Error Rand Gotham Process.
From S2P Require Replay ReplayPersist RateLimit Delay.

(** ** Tests

    A test either runs to its end or stops at the first assertion that fails. *)
Abbreviation test := (option unit).

Definition assert (b : bool) : test := if b then Some tt else None.
Definition assert_eq {A} `{!EqDecision A} (x y : A) : test := assert (bool_decide (x = y)).

Lemma assert_eq_refl {A} `{!EqDecision A} (x y : A) : x = y -> assert_eq x y = Some tt.
Proof. intros ->. unfold assert_eq. by rewrite bool_decide_eq_true_2. Qed.

Abbreviation passes t := (t = Some tt).

(** [for x in xs { .. }] over a state. *)
Fixpoint for_each {A S} (xs : list A) (body : A -> S -> option S) (s : S) : option S :=
  match xs with
  | [] => Some s
  | x :: xs => s ← body x s; for_each xs body s
  end.

(** ** replay.rs *)
Module ReplayTests.
Import Replay.

(** [k(byte)] of the first two test modules, and [k(i)] of the others. *)
Definition k8 (b : Z) : key := repeat (byte_of_Z b) 16.
Definition k32 (i : Z) : key := to_be_bytes 4 i ++ repeat x00 12.

(** A call and the answer the test expects. *)
Definition expect (k : key) (now : Z) (r : ReplayCheck) (c : ReplayCache) : option ReplayCache :=
  let '(r', c) := check_and_insert_at c k now in _ ← assert_eq r' r; Some c.

(** [now i] is the [i]-th reading of the clock. *)
Definition fresh_then_replay (now : nat -> Z) : test :=
  let cache := new 100 (from_secs 60) in
  let key := k8 1 in
  cache ← expect key (now 0%nat) Fresh cache;
  cache ← expect key (now 1%nat) Replay cache;
  cache ← expect key (now 2%nat) Replay cache;
  Some tt.

Definition different_keys_independent (now : nat -> Z) : test :=
  let cache := new 100 (from_secs 60) in
  cache ← for_each (seq 0 50) (fun i => expect (k8 (Z.of_nat i)) (now i) Fresh) cache;
  cache ← for_each (seq 0 50) (fun i => expect (k8 (Z.of_nat i)) (now (50 + i)%nat) Replay) cache;
  Some tt.

Definition ttl_eviction (now : Z) : test :=
  let cache := new 100 (from_secs 1) in
  cache ← expect (k8 1) now Fresh cache;
  let later := now + from_micros 500000 in
  cache ← expect (k8 1) later Replay cache;
  let much_later := now + from_secs 2 in
  cache ← expect (k8 1) much_later Fresh cache;
  Some tt.

Definition insert (k : key) (now : Z) (c : ReplayCache) : ReplayCache := (check_and_insert_at c k now).2.

Definition capacity_enforced_via_fifo_eviction (now : Z) : test :=
  let cache := new 3 (from_secs 3600) in
  let cache := insert (k8 1) now cache in
  let cache := insert (k8 2) now cache in
  let cache := insert (k8 3) now cache in
  _ ← assert_eq (len cache) 3%nat;
  let cache := insert (k8 4) now cache in
  _ ← assert_eq (len cache) 3%nat;
  cache ← expect (k8 2) now Replay cache;
  cache ← expect (k8 3) now Replay cache;
  cache ← expect (k8 4) now Replay cache;
  cache ← expect (k8 1) now Fresh cache;
  Some tt.

Definition empty_cache_is_empty : test :=
  let cache := new 10 (from_secs 60) in
  _ ← assert (is_empty cache);
  assert_eq (len cache) 0%nat.

(** The persistence tests: [fs] is the disk, [u] the wall clock. *)
Section persistence.
Context `{!Platform}.

Definition load_ok (fs : gmap string file) (c : ReplayCache) (path : string) (now u : Z) (n : nat)
    : option ReplayCache :=
  let '(res, c) := ReplayPersist.load None fs c path now u in _ ← assert_eq res (Ok n); Some c.

Definition save_ok (fs : gmap string file) (c : ReplayCache) (path : string) (now u : Z) (n : nat)
    : option (gmap string file) :=
  let '(res, fs) := ReplayPersist.save ReplayPersist.no_faults fs c path now u in
  _ ← assert_eq res (Ok n); Some fs.

Definition a_restart_does_not_forget_what_was_seen (now : nat -> Z) (u : nat -> Z) : test :=
  let path := "/tmp/gotham-replay-restart-test/replay.bin"%string in
  let fs : gmap string file := ∅ in
  let before := new 1000 (from_secs 300) in
  before ← expect (k8 1) (now 0%nat) Fresh before;
  before ← expect (k8 2) (now 1%nat) Fresh before;
  fs ← save_ok fs before path (now 2%nat) (u 0%nat) 2;
  let after := new 1000 (from_secs 300) in
  after ← expect (k8 1) (now 3%nat) Fresh after;
  let restored := new 1000 (from_secs 300) in
  restored ← load_ok fs restored path (now 4%nat) (u 1%nat) 2;
  restored ← expect (k8 1) (now 5%nat) Replay restored;
  restored ← expect (k8 2) (now 6%nat) Replay restored;
  restored ← expect (k8 3) (now 7%nat) Fresh restored;
  Some tt.

Definition restore (c : ReplayCache) (entries : list (key * Z)) (now u : Z) (n : nat) : option ReplayCache :=
  let '(adopted, c) := restore_at c entries now u in _ ← assert_eq adopted n; Some c.

Definition entries_older_than_the_ttl_are_not_restored (now : Z) : test :=
  let cache := new 1000 (from_secs 60) in
  let now_unix := 1000000 in
  let entries := [(k8 1, now_unix - 10); (k8 2, now_unix - 600)] in
  cache ← restore cache entries now now_unix 1;
  cache ← expect (k8 1) now Replay cache;
  cache ← expect (k8 2) now Fresh cache;
  Some tt.

Definition is_err {E A} (r : result E A) : bool := match r with Err _ => true | Ok _ => false end.

Definition a_corrupt_snapshot_is_refused_rather_than_half_read (now : nat -> Z) (u : nat -> Z) : test :=
  let bad_magic := "/tmp/gotham-replay-corrupt-test/bad-magic.bin"%string in
  let truncated := "/tmp/gotham-replay-corrupt-test/truncated.bin"%string in
  let missing := "/tmp/gotham-replay-corrupt-test/does-not-exist.bin"%string in
  let fs : gmap string file := {[ bad_magic := File (String.list_byte_of_string "NOTGOTHAMxxxxxxx") 420 ]} in
  let '(r1, c1) := ReplayPersist.load None fs (new 10 (from_secs 60)) bad_magic (now 0%nat) (u 0%nat) in
  _ ← assert (is_err r1);
  _ ← assert (is_empty c1);
  let fs := <[truncated := File (String.list_byte_of_string "GTHMRPL1" ++ [x01; x02; x03]) 420]> fs in
  let '(r2, c2) := ReplayPersist.load None fs (new 10 (from_secs 60)) truncated (now 1%nat) (u 1%nat) in
  _ ← assert (is_err r2);
  _ ← assert (is_empty c2);
  c3 ← load_ok fs (new 10 (from_secs 60)) missing (now 2%nat) (u 2%nat) 0;
  Some tt.

(** For a cache of any size; the test is about 1000 entries. *)
Definition snapshot_entry (i : nat) : key * Z :=
  let i := Z.of_nat i in (k32 i, 1000000 - 299 + i / 10).

Definition oversized_snapshot (size : nat) (now : Z) : test :=
  let cache := new size (from_secs 300) in
  let now_unix := 1000000 in
  let entries := map snapshot_entry (seq 0 (size + size)) in
  cache ← restore cache entries now now_unix size;
  cache ← expect (k32 (Z.of_nat (size + size) - 1)) now Replay cache;
  cache ← expect (k32 0) now Fresh cache;
  Some tt.

Definition an_oversized_snapshot_keeps_the_newest_entries (now : Z) : test :=
  oversized_snapshot 1000 now.

(** [std::fs::metadata(path).permissions().mode() & 0o777] *)
Definition mode_bits (fs : gmap string file) (path : string) : option Z :=
  f ← fs !! path; Some (Z.land (mode f) 511).

Definition the_snapshot_is_owner_only_even_after_a_second_save (now : nat -> Z) (u : nat -> Z) : test :=
  let path := "/tmp/gotham-replay-mode-test/replay.bin"%string in
  let cache := insert (k32 1) (now 0%nat) (new 10 (from_secs 60)) in
  fs ← save_ok ∅ cache path (now 1%nat) (u 0%nat) 1;
  m ← mode_bits fs path;
  _ ← assert_eq m 384;
  let cache := insert (k32 2) (now 2%nat) cache in
  fs ← save_ok fs cache path (now 3%nat) (u 1%nat) 2;
  m ← mode_bits fs path;
  assert_eq m 384.

Definition encode_then_write_round_trips (now : nat -> Z) (u : nat -> Z) : test :=
  let path := "/tmp/gotham-replay-split-test/replay.bin"%string in
  let fs : gmap string file := ∅ in
  let cache := insert (k32 7) (now 0%nat) (new 10 (from_secs 60)) in
  let buf := ReplayPersist.encode cache (now 1%nat) (u 0%nat) in
  _ ← assert (bool_decide (fs !! path = None));
  let '(res, states) := ReplayPersist.write_encoded ReplayPersist.no_faults fs buf path in
  _ ← assert_eq res (Ok 1%nat);
  let fs := ReplayPersist.final_fs fs states in
  back ← load_ok fs (new 10 (from_secs 60)) path (now 2%nat) (u 1%nat) 1;
  back ← expect (k32 7) (now 3%nat) Replay back;
  Some tt.

Definition duplicates_do_not_displace_distinct_entries (now : Z) : test :=
  let cache := new 3 (from_secs 300) in
  let now_unix := 1000000 in
  let entries := [(k32 1, now_unix - 50); (k32 1, now_unix - 40); (k32 1, now_unix - 30);
                  (k32 2, now_unix - 20); (k32 3, now_unix - 10)] in
  cache ← restore cache entries now now_unix 3;
  cache ← for_each [1; 2; 3] (fun i => expect (k32 i) now Replay) cache;
  Some tt.

Definition entries_already_present_do_not_consume_the_budget (now : Z) : test :=
  let cache := new 2 (from_secs 300) in
  let now_unix := 1000000 in
  cache ← expect (k32 1) now Fresh cache;
  let entries := [(k32 1, now_unix - 50); (k32 2, now_unix - 10)] in
  cache ← restore cache entries now now_unix 1;
  cache ← expect (k32 2) now Replay cache;
  Some tt.

Definition the_single_pass_encoder_matches_the_snapshot (now : Z) : test :=
  let cache := foldl (fun c i => insert (k32 (Z.of_nat i)) now c) (new 100 (from_secs 300)) (seq 0 20) in
  let now_unix := 1000000 in
  let via_snapshot := String.list_byte_of_string "GTHMRPL1" ++
    concat (map (fun '(k, ts) => k ++ to_be_bytes 8 ts) (snapshot_at cache now now_unix)) in
  assert_eq (encode_into cache now now_unix (String.list_byte_of_string "GTHMRPL1")) via_snapshot.

(** The eight threads write ten times each; the lock in [write_encoded] puts
    their writes in some order, which does not matter as they write the same
    bytes.  The test has [size] 5000. *)
Definition concurrent_writers (size : nat) (now u : Z) : test :=
  let path := "/tmp/gotham-replay-concurrent-test/replay.bin"%string in
  let fs : gmap string file := ∅ in
  let cache := foldl (fun c i => insert (k32 (Z.of_nat i)) now c) (new size (from_secs 300)) (seq 0 size) in
  let buf := ReplayPersist.encode cache now u in
  let expected := length buf in
  fs ← for_each (seq 0 (8 * 10)) (fun _ fs =>
    let '(res, states) := ReplayPersist.write_encoded ReplayPersist.no_faults fs buf path in
    _ ← result_ok res;
    Some (ReplayPersist.final_fs fs states)) fs;
  f ← fs !! path;
  _ ← assert_eq (length (contents f)) expected;
  back ← load_ok fs (new size (from_secs 300)) path now u size;
  Some tt.
Definition concurrent_writers_never_tear_the_snapshot : Z -> Z -> test := concurrent_writers 5000.
End persistence.

(** Readings a microsecond apart. *)
Definition micros (i : nat) : Z := from_micros (Z.of_nat i).
Definition unix (i : nat) : Z := 1700000000.

#[local] Existing Instance unix_platform.

Example replay_tests_pass :
  passes (fresh_then_replay micros) /\ passes (different_keys_independent micros) /\
  passes (ttl_eviction 0) /\ passes (capacity_enforced_via_fifo_eviction 0) /\ passes empty_cache_is_empty.
Proof. vm_compute. done. Qed.

Example replay_persistence_tests_pass :
  passes (a_restart_does_not_forget_what_was_seen micros unix) /\
  passes (entries_older_than_the_ttl_are_not_restored 0) /\
  passes (a_corrupt_snapshot_is_refused_rather_than_half_read micros unix) /\
  passes (the_snapshot_is_owner_only_even_after_a_second_save micros unix) /\
  passes (encode_then_write_round_trips micros unix) /\
  passes (duplicates_do_not_displace_distinct_entries 0) /\
  passes (entries_already_present_do_not_consume_the_budget 0) /\
  passes (the_single_pass_encoder_matches_the_snapshot 0).
Proof. vm_compute. done. Qed.

(** The oversized snapshot, by the lemmas about restoring: [restore_at] keeps the
    newest half of the entries, which are in the order of their age. *)
Lemma k32_inj i j : 0 <= i <= u32_max -> 0 <= j <= u32_max -> k32 i = k32 j -> i = j.
Proof.
  unfold k32, u32_max. intros Hi Hj Hk. apply (f_equal (take 4)) in Hk.
  apply (f_equal from_be_bytes) in Hk.
  rewrite !take_app_le, !take_ge in Hk by (rewrite ?length_take, length_to_be_bytes; lia).
  rewrite !from_to_be_bytes in Hk; [done|simpl; lia..].
Qed.

Definition on_clock `{!Platform} (now u : Z) (e : key * Z) : key * Z :=
  (e.1, default now (checked_sub now (from_secs (saturating_sub u e.2)))).

Lemma adopt_all `{!Platform} ttl now u es :
  Forall (fun e => from_secs (saturating_sub u e.2) <= ttl) es ->
  adopt ttl now u es = map (on_clock now u) es.
Proof.
  induction 1 as [|[k ts] es Hts _ IH]; simpl in *; [done|]. rewrite (proj2 (Z.ltb_ge _ _)) by done.
  by rewrite IH.
Qed.

Lemma entries_sorted m n : StronglySorted (key_le snd) (map snapshot_entry (seq m n)).
Proof.
  revert m. induction n as [|n IH]; intros m; simpl; constructor; [done|].
  apply Forall_map, Forall_forall. intros i Hi%elem_of_seq. unfold key_le. simpl.
  assert (Z.of_nat m / 10 <= Z.of_nat i / 10) by (apply Z.div_le_mono; lia). lia.
Qed.

Lemma entries_nodup m n : (m + n <= 5000)%nat -> NoDup (map snapshot_entry (seq m n)).*1.
Proof.
  intros Hmn. rewrite <- list_fmap_compose. apply NoDup_fmap_2_strong; [|apply NoDup_seq].
  intros i j Hi%elem_of_seq Hj%elem_of_seq Hk. simpl in Hk. apply k32_inj in Hk; unfold u32_max; lia.
Qed.

Lemma oversized_restored `{!Platform} size now :
  (size <= 1000)%nat -> instant_min <= now - from_secs 300 ->
  restored (new size (from_secs 300)) (map snapshot_entry (seq 0 (size + size))) now 1000000 =
  map (on_clock now 1000000) (map snapshot_entry (seq size size)).
Proof.
  intros Hsize Hnow. unfold restored. simpl.
  rewrite sort_by_key_id by (apply ReplayPersist.adopt_sorted; [done|apply entries_sorted]).
  rewrite adopt_all, ReplayPersist.retain_new_id.
  - unfold lastn. rewrite map_size_empty, !length_map, length_seq, seq_app, !map_app.
    apply drop_app_length'. rewrite !length_map, length_seq. lia.
  - change (map ?f ?l) with (f <$> l). rewrite <- list_fmap_compose. apply entries_nodup. lia.
  - apply Forall_forall. set_solver.
  - apply Forall_map, Forall_forall. intros i Hi%elem_of_seq. simpl.
    assert (0 <= Z.of_nat i / 10) by (apply Z.div_pos; lia).
    unfold from_secs, saturating_sub, NANOS_PER_SEC. lia.
Qed.

Lemma oversized_snapshot_passes `{!Platform} size now :
  (0 < size <= 1000)%nat -> instant_min <= now - from_secs 300 -> passes (oversized_snapshot size now).
Proof.
  intros Hsize Hnow. unfold oversized_snapshot, restore.
  pose proof (oversized_restored size now ltac:(lia) Hnow) as Hres.
  pose proof (restore_at_spec (new size (from_secs 300)) (map snapshot_entry (seq 0 (size + size))) now 1000000
    (wf_new _ _)) as Hr.
  destruct (restore_at _ _ now _) as [m c]. destruct Hr as (-> & Hwf & Hq & Httl & _).
  rewrite Hres in *. simpl in Hq, Httl. rewrite !length_map, length_seq.
  rewrite assert_eq_refl by done. cbn [mbind option_bind].
  assert (forall i, (size <= i < size + size)%nat -> on_clock now 1000000 (snapshot_entry i) ∈ rc_queue c) as Hin.
  { intros i Hi. rewrite Hq. do 2 apply list_elem_of_fmap_2. apply elem_of_seq. lia. }
  assert (k32 0 ∉ (rc_queue c).*1) as Hout.
  { rewrite Hq. intros (e & Hk & (e' & -> & (i & -> & Hi%elem_of_seq)%list_elem_of_fmap)%list_elem_of_fmap)%list_elem_of_fmap.
    simpl in Hk. apply k32_inj in Hk; unfold u32_max; lia. }
  assert (forall i, live (from_secs 300) now (on_clock now 1000000 (snapshot_entry i))) as Hlive.
  { intros i. unfold live, on_clock, checked_sub, duration_since. simpl.
    assert (0 <= Z.of_nat i / 10) by (apply Z.div_pos; lia).
    unfold from_secs, saturating_sub, NANOS_PER_SEC in *. case_decide; simpl; lia. }
  unfold expect. pose proof (check_and_insert_queue c (k32 (Z.of_nat (size + size) - 1)) now Hwf) as Hc.
  destruct (check_and_insert_at c _ now) as [r1 c1]. destruct Hc as (Hr1 & Hq1 & Ht1 & _ & Hwf1).
  set (q := drop_expired _ now (rc_queue c)) in *.
  assert (k32 (Z.of_nat (size + size) - 1) ∈ q.*1) as Hk.
  { apply list_elem_of_fmap. exists (on_clock now 1000000 (snapshot_entry (size + size - 1))). split.
    - simpl. f_equal. lia.
    - unfold q. apply drop_expired_keeps; [apply Hin; lia|]. rewrite Httl. apply Hlive. }
  rewrite bool_decide_eq_true_2 in Hq1 by done.
  rewrite assert_eq_refl by by apply Hr1. cbn [mbind option_bind].
  pose proof (check_and_insert_queue c1 (k32 0) now Hwf1) as Hc.
  destruct (check_and_insert_at c1 (k32 0) now) as [r2 c2]. destruct Hc as (Hr2 & _).
  rewrite assert_eq_refl; [done|]. destruct r2; [done|].
  destruct Hout. apply proj1 in Hr2. specialize (Hr2 eq_refl).
  destruct (drop_expired_suffix (rc_ttl c1) now (rc_queue c1)) as [l1 Hl1].
  destruct (drop_expired_suffix (rc_ttl c) now (rc_queue c)) as [l2 Hl2]. fold q in Hl2.
  rewrite Hl2, fmap_app, <- Hq1, Hl1, fmap_app. set_solver.
Qed.

(** The concurrent writers, by the lemmas about writing and reading back. *)
Lemma filled `{!Platform} size now n :
  (n <= size <= 5000)%nat ->
  let c := foldl (fun c i => insert (k32 (Z.of_nat i)) now c) (new size (from_secs 300)) (seq 0 n) in
  wf c /\ rc_queue c = map (fun i => (k32 (Z.of_nat i), now)) (seq 0 n) /\ rc_ttl c = from_secs 300 /\
  rc_max_size c = size.
Proof.
  intros Hn. induction n as [|n IH]; [split; [apply wf_new|done]|].
  rewrite seq_S, foldl_app. cbn [foldl]. destruct IH as (Hwf & Hq & Ht & Hm); [lia|].
  set (c := foldl _ _ _) in *. unfold insert.
  pose proof (check_and_insert_queue c (k32 (Z.of_nat (0 + n))) now Hwf) as Hc.
  destruct (check_and_insert_at c _ now) as [r c']. destruct Hc as (_ & Hq' & Ht' & Hm' & Hwf').
  assert (drop_expired (rc_ttl c) now (rc_queue c) = rc_queue c) as Hd.
  { rewrite Hq, Ht. destruct n; simpl; [done|]. unfold duration_since. rewrite Z.sub_diag. done. }
  rewrite Hd, Hq in Hq'. rewrite bool_decide_eq_false_2 in Hq'.
  2:{ change (map ?f ?l) with (f <$> l). rewrite <- list_fmap_compose.
      intros (i & Hk & Hi%elem_of_seq)%list_elem_of_fmap. simpl in Hk. apply k32_inj in Hk; unfold u32_max; lia. }
  rewrite length_map, length_seq in Hq'. unfold capacity in Hq'.
  rewrite Hm, (proj2 (Nat.leb_gt _ _)) in Hq' by lia.
  split; [done|]. simpl. rewrite Hq', map_app, Ht', Hm'. done.
Qed.

Lemma write_all_times `{!Platform} path buf times (fs : gmap string file) :
  with_extension path "tmp" <> path -> (0 < times)%nat ->
  exists fs', for_each (seq 0 times) (fun _ fs =>
    let '(res, states) := ReplayPersist.write_encoded ReplayPersist.no_faults fs buf path in
    _ ← result_ok res;
    Some (ReplayPersist.final_fs fs states)) fs = Some fs' /\ contents <$> fs' !! path = Some buf.
Proof.
  intros Hne Ht. destruct times as [|k]; [lia|]. clear Ht. generalize 0%nat as m.
  revert fs. induction k as [|k IH]; intros fs m; cbn [seq for_each].
  all: pose proof (ReplayPersist.write_encoded_final ReplayPersist.no_faults fs buf path Hne) as Hw; cbv zeta in Hw.
  all: pose proof (ReplayPersist.write_encoded_succeeds fs buf path) as Hok.
  all: destruct (ReplayPersist.write_encoded _ fs buf path) as [res states]; simpl in Hok; subst res; simpl in Hw |- *.
  - eexists. split; [done|]. by rewrite Hw.
  - destruct (IH (ReplayPersist.final_fs fs states) (S m)) as (fs' & Hf & Hl). by exists fs'.
Qed.

Lemma stamped_nodup (t : Z) n :
  (n <= 5000)%nat -> NoDup (map (fun i => (k32 (Z.of_nat i), t)) (seq 0 n)).*1.
Proof.
  intros Hn. change (map ?f ?l) with (f <$> l). rewrite <- list_fmap_compose.
  apply NoDup_fmap_2_strong; [|apply NoDup_seq].
  intros i j Hi%elem_of_seq Hj%elem_of_seq Hk. simpl in Hk. apply k32_inj in Hk; unfold u32_max; lia.
Qed.

Lemma filter_all {A} (P : A -> Prop) `{!forall x, Decision (P x)} l : Forall P l -> filter P l = l.
Proof. induction 1 as [|x l Hx _ IH]; [done|]. by rewrite filter_cons_True, IH. Qed.

Lemma concurrent_writers_pass `{!Platform} size now u :
  (0 < size <= 5000)%nat -> is_u64 u -> passes (concurrent_writers size now u).
Proof.
  intros Hs Hu. unfold concurrent_writers.
  destruct (filled size now size ltac:(lia)) as (Hwf & Hq & Ht & Hm). set (c := foldl _ _ _) in *.
  set (buf := ReplayPersist.encode c now u).
  destruct (write_all_times "/tmp/gotham-replay-concurrent-test/replay.bin" buf (8 * 10) ∅
    ltac:(done) ltac:(lia)) as (fs & Hfs & ([bytes m] & Hf & [= <-])%fmap_Some). rewrite Hfs. clear Hfs. cbn [mbind option_bind].
  rewrite Hf. cbn [mbind option_bind contents]. rewrite assert_eq_refl by done. cbn [mbind option_bind].
  assert (ReplayPersist.keys16 c) as Hk.
  { unfold ReplayPersist.keys16. rewrite Hq. apply Forall_map, Forall_forall. intros i _. cbn [fst].
    unfold k32. by rewrite length_app, length_to_be_bytes. }
  unfold load_ok, ReplayPersist.load, read. rewrite Hf. cbn [mbind result_bind contents].
  simpl. unfold buf. rewrite ReplayPersist.decode_encode by done. simpl.
  assert (snapshot_at c now u = map (fun i => (k32 (Z.of_nat i), u)) (seq 0 size)) as Hsnap.
  { unfold snapshot_at. rewrite Hq, Ht. rewrite filter_all.
    - rewrite map_map. apply map_ext. intros i. f_equal. unfold duration_since, saturating_sub, as_secs.
      rewrite Z.sub_diag. unfold is_u64 in Hu. change (Z.max 0 0 / NANOS_PER_SEC) with 0. lia.
    - apply Forall_map, Forall_forall. intros i _. cbn [snd]. unfold duration_since. rewrite Z.sub_diag. done. }
  pose proof (restore_at_spec (new size (from_secs 300)) (snapshot_at c now u) now u (wf_new _ _)) as Hr.
  destruct (restore_at _ _ now u) as [n c']. destruct Hr as [-> _]. rewrite Hsnap.
  rewrite ReplayPersist.restored_new by
    first [apply stamped_nodup; lia|rewrite length_map, length_seq; lia].
  rewrite sort_by_key_perm, adopt_all, !length_map, length_seq.
  - by rewrite assert_eq_refl.
  - apply Forall_map, Forall_forall. intros i _. cbn [snd]. unfold saturating_sub.
    replace (Z.max 0 (u - u)) with 0 by lia. done.
Qed.

Corollary concurrent_writers_test_passes `{!Platform} now u :
  is_u64 u -> passes (concurrent_writers_never_tear_the_snapshot now u).
Proof. apply concurrent_writers_pass. lia. Qed.

Corollary oversized_test_passes `{!Platform} now :
  instant_min <= now - from_secs 300 -> passes (an_oversized_snapshot_keeps_the_newest_entries now).
Proof. apply oversized_snapshot_passes. lia. Qed.
End ReplayTests.

(** ** rate_limit.rs

    The length argument of [check_at] is not used and not part of the model. *)
Module RateLimitTests.
Import RateLimit.

Definition expect (now : Z) (d : RateDecision) (rl : RateLimiter) : option RateLimiter :=
  let '(d', rl) := check_at rl now in _ ← assert_eq d' d; Some rl.

Definition expect_allowed (now : Z) (rl : RateLimiter) : option RateLimiter :=
  let '(d, rl) := check_at rl now in _ ← assert (is_allowed d); Some rl.

(** [t1] and [t2] are the readings [RateLimiter::new] makes. *)
Definition unlimited_never_throttles (t1 t2 now : Z) : test :=
  let rl := unlimited t1 t2 in
  _ ← assert (is_unlimited rl);
  rl ← for_each (seq 0 (Z.to_nat 1000000)) (fun _ => expect now Allow) rl;
  Some tt.

Definition rate_bucket_blocks_after_burst_then_refills (t1 t2 t0 : Z) : test :=
  let rl := new (of_Z 10) 0 t1 t2 in
  rl ← for_each (seq 0 20) (fun _ => expect t0 Allow) rl;
  rl ← expect t0 (Throttled Rate) rl;
  let t1 := t0 + from_secs 1 in
  rl ← expect t1 Allow rl;
  Some tt.

Definition rate_throttle_consumes_nothing (t1 t2 t0 : Z) : test :=
  let rl := new (of_Z 1) 0 t1 t2 in
  rl ← expect_allowed t0 rl;
  rl ← expect_allowed t0 rl;
  rl ← for_each (seq 0 100) (fun _ => expect t0 (Throttled Rate)) rl;
  Some tt.

Definition daily_quota_blocks_then_resets_after_window (t1 t2 t0 : Z) : test :=
  let budget := WIRE_BYTES_PER_PACKET * 3 in
  let rl := new f_zero budget t1 t2 in
  rl ← for_each (seq 0 3) (fun _ => expect t0 Allow) rl;
  rl ← expect t0 (Throttled DailyQuota) rl;
  _ ← assert_eq (bytes_used_today rl) budget;
  let almost := t0 + QUOTA_WINDOW - from_secs 1 in
  rl ← expect almost (Throttled DailyQuota) rl;
  let next_day := t0 + QUOTA_WINDOW in
  rl ← expect next_day Allow rl;
  assert_eq (bytes_used_today rl) WIRE_BYTES_PER_PACKET.

Definition quota_accounts_wire_bytes_not_packet_len (t1 t2 t0 : Z) : test :=
  let budget := WIRE_BYTES_PER_PACKET in
  let rl := new f_zero budget t1 t2 in
  rl ← expect t0 Allow rl;
  rl ← expect t0 (Throttled DailyQuota) rl;
  Some tt.

Definition both_guards_active_either_can_throttle (t1 t2 t0 t3 t4 : Z) : test :=
  let rl := new (of_Z 1000) (WIRE_BYTES_PER_PACKET * 2) t1 t2 in
  rl ← expect_allowed t0 rl;
  rl ← expect_allowed t0 rl;
  rl ← expect t0 (Throttled DailyQuota) rl;
  let rl2 := new (of_Z 2) u64_max t3 t4 in
  rl2 ← expect_allowed t0 rl2;
  rl2 ← expect_allowed t0 rl2;
  rl2 ← expect_allowed t0 rl2;
  rl2 ← expect_allowed t0 rl2;
  rl2 ← expect t0 (Throttled Rate) rl2;
  Some tt.

(** [Ipv4Addr::new(a, b, c, d)] *)
Definition ipv4 (a b c d : Z) : IpAddr := V4 (((a * 256 + b) * 256 + c) * 256 + d).

Section per_source.
Context `{!HashOrder IpAddr (RateLimiter * Z)}.

(** The limiter of a source that is not in the table is made with the readings
    [t1] and [t2]. *)
Definition a_flood_from_one_source_does_not_shed_another (t0 t1 t2 : Z) : test :=
  let lim := new_per_source (of_Z 10) 0 64 in
  let flooder := ipv4 203 0 113 9 in
  let victim := ipv4 198 51 100 4 in
  let '(throttled, lim) := foldl (fun '(throttled, lim) (_ : nat) =>
    let '(d, lim) := per_source_check_at lim flooder t0 t1 t2 in
    (if is_allowed d then throttled else throttled + 1, lim)) (0, lim) (seq 0 200) in
  _ ← assert (0 <? throttled);
  lim ← for_each (seq 0 10) (fun _ lim =>
    let '(d, lim) := per_source_check_at lim victim t0 t1 t2 in
    _ ← assert (is_allowed d); Some lim) lim;
  Some tt.

Definition the_source_table_is_bounded_and_evicts_the_longest_idle (t0 : Z) : test :=
  let at_millis (i : Z) : Z := t0 + from_micros (i * 1000) in
  let lim := new_per_source (of_Z 10) 0 4 in
  let lim := foldl (fun lim (i : Z) =>
    (per_source_check_at lim (ipv4 203 0 113 i) (at_millis i) (at_millis i) (at_millis i)).2) lim [0; 1; 2; 3; 4] in
  _ ← assert_eq (tracked lim) 4%nat;
  let oldest := ipv4 203 0 113 0 in
  let '(d, lim) := per_source_check_at lim oldest (at_millis 10) (at_millis 10) (at_millis 10) in
  _ ← assert (is_allowed d);
  assert_eq (tracked lim) 4%nat.
End per_source.

(** An unlimited limiter allows every packet and does not change, so the first
    test holds for any number of them. *)
Lemma unlimited_expect t1 t2 now : expect now Allow (unlimited t1 t2) = Some (unlimited t1 t2).
Proof. reflexivity. Qed.

Lemma for_each_stays {A S} (xs : list A) (body : A -> S -> option S) s :
  (forall x, body x s = Some s) -> for_each xs body s = Some s.
Proof. intros Hb. induction xs as [|x xs IH]; simpl; [done|]. by rewrite Hb. Qed.

Lemma unlimited_test_passes t1 t2 now : passes (unlimited_never_throttles t1 t2 now).
Proof.
  unfold unlimited_never_throttles. generalize (seq 0 (Z.to_nat 1000000)). intros xs.
  rewrite for_each_stays; [done|]. intros _. apply unlimited_expect.
Qed.

#[local] Instance order : HashOrder IpAddr (RateLimiter * Z) := sorted_order _ _.

Example rate_limit_tests_pass :
  passes (rate_bucket_blocks_after_burst_then_refills 0 1 2) /\
  passes (rate_throttle_consumes_nothing 0 1 2) /\
  passes (daily_quota_blocks_then_resets_after_window 0 1 2) /\
  passes (quota_accounts_wire_bytes_not_packet_len 0 1 2) /\
  passes (both_guards_active_either_can_throttle 0 1 2 3 4) /\
  passes (a_flood_from_one_source_does_not_shed_another 0 1 2) /\
  passes (the_source_table_is_bounded_and_evicts_the_longest_idle 0).
Proof. vm_compute. done. Qed.
End RateLimitTests.

(** ** delay.rs

    Whatever the generator draws and whatever the logarithm returns; the test of
    the sample mean is in [ConformanceDelay]. *)
Module DelayTests.
Section delays.
Context {R : Type} `{!Rng R, !Delay.Libm}.

(** A draw, checked; a panic fails the test. *)
Definition draw (s : Delay.PoissonScheduler) (check : Z -> bool) (rng : R) : option R :=
  let '(d, rng) := Delay.next_delay s rng in
  d ← d; _ ← assert (check d); Some rng.

Definition zero_lambda_yields_zero_delay (rng : R) : test :=
  let s := Delay.new 0 in
  rng ← for_each (seq 0 100) (fun _ => draw s (fun d => bool_decide (d = 0))) rng;
  Some tt.

Definition delays_are_nonnegative (rng : R) : test :=
  let s := Delay.new 10000 in
  rng ← for_each (seq 0 1000) (fun _ => draw s (fun _ => true)) rng;
  Some tt.

(** [d.as_secs_f64() <= 100.0 * mean as f64 / 1_000_000.0 + 1e-6], where
    [1e-6] is the float nearest to it. *)
Definition outliers_are_clamped (rng : R) : test :=
  let mean := 1000 in
  let s := Delay.new mean in
  let limit := fadd (fdiv (fmul (of_Z 100) (of_Z mean)) (of_Z 1000000)) (fdiv f_one (of_Z 1000000)) in
  rng ← for_each (seq 0 (Z.to_nat 100000)) (fun _ => draw s (fun d => SFleb (as_secs_f64 d) limit)) rng;
  Some tt.

Lemma zero_lambda_test_passes rng : passes (zero_lambda_yields_zero_delay rng).
Proof.
  unfold zero_lambda_yields_zero_delay. rewrite RateLimitTests.for_each_stays; done.
Qed.

Lemma draws_total `{!RngLaws R, !Delay.LibmLaws} mean check (xs : list nat) rng :
  0 < mean <= u64_max ->
  (forall d cap, 0 <= d <= cap -> from_secs_f64 (Delay.max_secs (Delay.new mean)) = Some cap -> check d = true) ->
  exists rng', for_each xs (fun _ => draw (Delay.new mean) check) rng = Some rng'.
Proof.
  intros Hm Hcheck. revert rng. induction xs as [|x xs IH]; intros rng; simpl; [by eexists|].
  destruct (Delay.next_delay_total mean rng) as (d & rng' & Hd & Hd0 & _ & Hcap & _); [unfold is_u64; lia|].
  destruct (Hcap ltac:(lia)) as (cap & Hc & Hle).
  assert (draw (Delay.new mean) check rng = Some rng') as ->.
  { unfold draw. rewrite Hd. simpl. by rewrite (Hcheck d cap). }
  apply IH.
Qed.

Lemma nonnegative_test_passes `{!RngLaws R, !Delay.LibmLaws} rng : passes (delays_are_nonnegative rng).
Proof.
  unfold delays_are_nonnegative.
  destruct (draws_total 10000 (fun _ => true) (seq 0 1000) rng) as [rng' Hd]; [|done|by rewrite Hd].
  unfold u64_max. lia.
Qed.

(** The cap is a tenth of a second to the nanosecond, and converting it back
    adds less than the tolerance of the test. *)
Lemma outliers_test_passes `{!RngLaws R, !Delay.LibmLaws} rng : passes (outliers_are_clamped rng).
Proof.
  unfold outliers_are_clamped.
  set (limit := fadd _ _).
  destruct (draws_total 1000 (fun d => SFleb (as_secs_f64 d) limit) (seq 0 (Z.to_nat 100000)) rng) as [rng' Hd];
    [unfold u64_max; lia| |by rewrite Hd].
  intros d cap Hd Hcap. change (from_secs_f64 (Delay.max_secs (Delay.new 1000))) with (Some 100000000) in Hcap.
  simplify_eq. destruct (as_secs_near d) as [Hn Hv]; [unfold u64_max; lia|].
  assert (nonneg limit /\ (100001 # 1000000 <= value limit * (1 + eps))%Q) as [Hl Vl].
  { split; [|by vm_compute]. apply valid_nonneg; by vm_compute. }
  apply (fleb_value _ _ Hn Hl). pose proof (secs_le d 100000000 ltac:(lia)).
  change (secs 100000000) with (100000000 # 1000000000)%Q in *. unfold eps in *. lra.
Qed.
End delays.
End DelayTests.

(** ** process.rs *)
Module ProcessTests.
Section packets.
Context `{!Gotham} {R : Type} `{!Rng R, !Route R, !Delay.Libm}.

(** [[b; 32]] *)
Definition key_of (b : Z) : list byte := repeat (byte_of_Z b) 32.

Definition expected_payload : list byte :=
  map (fun i => byte_of_Z (Z.of_nat i mod 256)) (seq 0 (PACKET_SIZE - HEADER_LEN)).

(** The header, then the payload under one layer per hop. *)
Definition assemble (header : Header) (subs : list SubKeys) : list byte :=
  header_encode header ++ foldl (fun p s => lioness_encrypt (k_payload s) p) expected_payload (rev subs).

Definition record_for (relay_sks : list (list byte)) (i : nat) : RoutingRecord :=
  mkRecord [x0a; x00; x00; byte_of_Z (Z.of_nat i + 1)] (9000 + Z.of_nat i)
    (match relay_sks !! S i with Some sk => public_key sk | None => repeat xee 32 end)
    (repeat x00 16) 0
    (if (S i =? length relay_sks)%nat then flag_IS_LAST_HOP else 0).

Definition build (rng : R) (pks : list (list byte)) (records : list RoutingRecord) : option (list byte * R) :=
  let '(secrets, rng) := derive_route_secrets rng pks in
  '(alphas, sub_keys) ← result_ok secrets;
  let '(trailer, rng) := fill_bytes TRAILER_LEN rng in
  let '(header, rng) := wrap_header rng mode_BALANCED alphas sub_keys records trailer in
  header ← result_ok header;
  Some (assemble header sub_keys, rng).

Definition build_packet_for_relays (rng : R) (relay_sks : list (list byte)) : option (list byte * R) :=
  build rng (map public_key relay_sks) (map (record_for relay_sks) (seq 0 (length relay_sks))).

(** A relay that processes one packet; [t] is a reading of the clock. *)
Definition relay (sk : list byte) (size : nat) (t : Z) : Relay := new sk size (from_secs 60) 0 t t.

Definition processed (r : Relay) (t : Z) (rng : R) (packet : list byte) : option (ProcessOutcome * Relay * R) :=
  match process r t t rng packet with (Some o, r, rng) => Some (o, r, rng) | _ => None end.

Definition forwarded (o : ProcessOutcome) : option (list byte) :=
  match o with Forward _ _ _ _ packet => Some packet | _ => None end.

Definition delivered (o : ProcessOutcome) : option (list byte) :=
  match o with DeliverLocal _ payload => Some payload | _ => None end.

Definition forwards_a_packet_through_three_hops (rng : R) (t : Z) : test :=
  let sks := map (fun i => key_of (i + 1)) [0; 1; 2] in
  '(packet, rng) ← build_packet_for_relays rng sks;
  '(r0, _, rng) ← processed (relay (key_of 1) 1000 t) t rng packet;
  packet ← forwarded r0;
  '(r1, _, rng) ← processed (relay (key_of 2) 1000 t) t rng packet;
  packet ← forwarded r1;
  '(r2, _, rng) ← processed (relay (key_of 3) 1000 t) t rng packet;
  payload ← delivered r2;
  _ ← assert_eq (length payload) (PACKET_SIZE - HEADER_LEN)%nat;
  assert_eq payload expected_payload.

Definition rendezvous_flag_yields_via_rendezvous_forward (rng : R) (t : Z) : test :=
  let sks := map (fun i => key_of (i + 40)) [0; 1] in
  let pks := map public_key sks in
  pk1 ← pks !! 1%nat;
  let records :=
    [mkRecord (repeat x00 4) 0 pk1 (repeat x00 16) 0 flag_VIA_RENDEZVOUS;
     mkRecord [x0a; x00; x00; x09] 9000 (repeat xee 32) (repeat x00 16) 0 flag_IS_LAST_HOP] in
  '(packet, rng) ← build rng pks records;
  '(o, _, _) ← processed (relay (key_of 40) 1000 t) t rng packet;
  match o with
  | Forward next_addr next_node_id _ via_rendezvous _ =>
      _ ← assert via_rendezvous;
      _ ← assert_eq next_node_id pk1;
      assert_eq next_addr (mkAddrV4 (repeat x00 4) 0)
  | _ => None
  end.

Definition ordinary_forward_is_not_via_rendezvous (rng : R) (t : Z) : test :=
  let sks := map (fun i => key_of (i + 1)) [0; 1; 2] in
  '(packet, rng) ← build_packet_for_relays rng sks;
  '(o, _, _) ← processed (relay (key_of 1) 1000 t) t rng packet;
  match o with Forward _ _ _ via_rendezvous _ => assert (negb via_rendezvous) | _ => None end.

Definition assert_ne {A} `{!EqDecision A} (x y : A) : test := assert (bool_decide (x <> y)).

Definition payload_bytes_differ_at_every_hop (rng : R) (t : Z) : test :=
  let sks := map (fun i => key_of (i + 1)) [0; 1; 2] in
  '(packet, rng) ← build_packet_for_relays rng sks;
  let on_wire_entry := drop HEADER_LEN packet in
  '(r0, _, rng) ← processed (relay (key_of 1) 1000 t) t rng packet;
  p1 ← forwarded r0;
  let on_wire_mid := drop HEADER_LEN p1 in
  '(r1, _, rng) ← processed (relay (key_of 2) 1000 t) t rng p1;
  p2 ← forwarded r1;
  let on_wire_pre_exit := drop HEADER_LEN p2 in
  _ ← assert_ne on_wire_entry on_wire_mid;
  _ ← assert_ne on_wire_mid on_wire_pre_exit;
  _ ← assert_ne on_wire_entry on_wire_pre_exit;
  _ ← assert_ne on_wire_entry expected_payload;
  _ ← assert_ne on_wire_pre_exit expected_payload;
  '(r2, _, rng) ← processed (relay (key_of 3) 1000 t) t rng p2;
  payload ← delivered r2;
  assert_eq payload expected_payload.

Definition is_drop_for (reason : DropReason) (o : ProcessOutcome) : bool :=
  match o with Drop r => bool_decide (r = reason) | _ => false end.

Definition replayed_packet_is_dropped (rng : R) (t1 t2 : Z) : test :=
  let sks := map (fun i => key_of (i + 1)) [0; 1] in
  '(packet, rng) ← build_packet_for_relays rng sks;
  let relay := relay (key_of 1) 1000 t1 in
  '(r1, relay, rng) ← processed relay t1 rng packet;
  _ ← assert (negb (is_drop r1));
  '(r2, relay, rng) ← processed relay t2 rng packet;
  assert (is_drop_for Process.Replay r2).

(** [packet[i] ^= mask] *)
Definition flip (i : nat) (mask : Z) (packet : list byte) : list byte :=
  alter (fun b => byte_of_Z (Z.lxor (byte_to_Z b) mask)) i packet.

Definition a_forged_packet_cannot_poison_the_replay_cache (rng : R) (t1 t2 : Z) : test :=
  let sks := map (fun i => key_of (i + 1)) [0; 1] in
  '(packet, rng) ← build_packet_for_relays rng sks;
  let forged := flip 50 255 packet in
  let relay := relay (key_of 1) 1000 t1 in
  '(bad, relay, rng) ← processed relay t1 rng forged;
  _ ← assert (is_drop bad);
  _ ← assert_eq (replay_cache_len relay) 0%nat;
  '(good, relay, rng) ← processed relay t2 rng packet;
  assert (negb (is_drop good)).

(** [offset] is 360 in the test, a byte the MAC of the packet format covers. *)
Definition tampered_mac_dropped (offset : nat) (rng : R) (t : Z) : test :=
  let sks := map (fun i => key_of (i + 1)) [0; 1] in
  '(packet, rng) ← build_packet_for_relays rng sks;
  let packet := flip offset 2 packet in
  '(o, _, _) ← processed (relay (key_of 1) 100 t) t rng packet;
  assert (is_drop_for BadMac o).

Definition malformed_size_dropped (rng : R) (t : Z) : test :=
  let short := repeat x00 1024 in
  '(o, _, _) ← processed (relay (key_of 7) 100 t) t rng short;
  assert (is_drop_for Malformed o).

Definition replay_cache_len_observable (rng : R) (t : Z) : test :=
  let sks := map (fun i => key_of (i + 1)) [0; 1] in
  let relay := relay (key_of 1) 100 t in
  _ ← assert_eq (replay_cache_len relay) 0%nat;
  '(packet, rng) ← build_packet_for_relays rng sks;
  '(_, relay, _) ← processed relay t rng packet;
  assert_eq (replay_cache_len relay) 1%nat.

Definition rate_limit_sheds_a_flood_before_crypto (rng : R) (t : Z) : test :=
  let sks := map (fun i => key_of (i + 1)) [0; 1] in
  '(packet, rng) ← build_packet_for_relays rng sks;
  let relay := with_rate_limit (relay (key_of 1) (Z.to_nat 100000) t) (of_Z 5) 0 t t in
  '(rate_limited, _, _) ← for_each (seq 0 200) (fun _ '(n, relay, rng) =>
    '(o, relay, rng) ← processed relay t rng packet;
    Some (if is_drop_for RateLimited o then n + 1 else n, relay, rng)) (0, relay, rng);
  assert (150 <? rate_limited).

Definition unlimited_relay_never_rate_limits (rng : R) (t : Z) : test :=
  let sks := map (fun i => key_of (i + 1)) [0; 1] in
  '(packet, rng) ← build_packet_for_relays rng sks;
  let relay := relay (key_of 1) (Z.to_nat 100000) t in
  _ ← for_each (seq 0 500) (fun _ '(relay, rng) =>
    '(o, relay, rng) ← processed relay t rng packet;
    _ ← assert (negb (is_drop_for RateLimited o)); Some (relay, rng)) (relay, rng);
  Some tt.
End packets.

#[local] Existing Instances Toy.gotham counter_rng Delay.coarse_libm.
#[local] Instance toy_route : Route Z := Toy.route Z.

Example process_tests_pass :
  passes (forwards_a_packet_through_three_hops 0 0) /\
  passes (rendezvous_flag_yields_via_rendezvous_forward 0 0) /\
  passes (ordinary_forward_is_not_via_rendezvous 0 0) /\
  passes (payload_bytes_differ_at_every_hop 0 0) /\
  passes (replayed_packet_is_dropped 0 0 1) /\
  passes (a_forged_packet_cannot_poison_the_replay_cache 0 0 1) /\
  passes (tampered_mac_dropped 5 0 0) /\ passes (tampered_mac_dropped 40 0 0) /\
  passes (malformed_size_dropped 0 0) /\
  passes (replay_cache_len_observable 0 0).
Proof. vm_compute. done. Qed.

Example flood_tests_pass :
  passes (rate_limit_sheds_a_flood_before_crypto 0 0) /\ passes (unlimited_relay_never_rate_limits 0 0).
Proof. vm_compute. done. Qed.
End ProcessTests.
