(* ===== verification/ConformanceNet.v ===== *)
(** * The unit tests over the network, run on the model

    The tests of transport.rs, pool.rs, client.rs, cover_loop.rs, main.rs and
    enroll_client.rs, as far as they do not depend on the distribution of random
    numbers (see [ConformanceDelay]) or on the absent modules.  Where a test lets two ends of a
    connection talk to each other, [converse] runs them against each other. *)

From S2P Require Import Prelude Text Fs Net F64 Rand Gotham Wire Process Services Server Client Messages Conformance.
From S2P Require Delay RateLimit Pool Cover Enroll Boot Testnet.

(** ** Two ends of a stream

    An end is run from its start against all its peer has written so far, and
    answers with its result and all it has written; once it has returned, its
    half of the stream is closed. *)
Definition party (X : Type) : Type := RecvStream -> io X * list byte.

Definition closing {X} (x : io X) : stream_end := match x with Block => Stalled | _ => Finished end.

Fixpoint converse {X Y} (rounds : nat) (a : party X) (b : party Y) (from_b : RecvStream) : io X * io Y :=
  let '(x, out_a) := a from_b in
  let '(y, out_b) := b (mkRecv out_a (closing x)) in
  match rounds with
  | O => (x, y)
  | S rounds => converse rounds a b (mkRecv out_b (closing y))
  end.

Definition returned {X} (x : io X) : option X := match x with Ret a => Some a | _ => None end.
Definition is_fail {X} (x : io X) : bool := match x with Fail _ => true | _ => false end.

Definition fresh_send : SendStream := mkSend [] None.

(** ** transport.rs *)
Module TransportTests.
Section transport.
Context `{!Gotham} {R HS T : Type} `{!Rng R, !Route R, !Delay.Libm, !NoiseTransport T, !NoiseHandshake HS T,
  !HashOrder RateLimit.IpAddr (RateLimit.RateLimiter * Z)}.

(** [fill_bytes], then the clamping the tests write out. *)
Definition clamped_sk (rng : R) : list byte * R :=
  let '(sk, rng) := fill_bytes 32 rng in (clamp_scalar sk, rng).

(** The server echoes the frame it reads. *)
Definition echo_server (server_sk : list byte) : party unit := fun r =>
  match noise_responder_handshake (HS := HS) (T := T) server_sk fresh_send r with
  | (Ret noise, s, r) =>
      let '(res, l) := (packet ← read_noise_frame; write_noise_frame packet) (mkLink s r noise) in
      (res, s_out (lk_send l))
  | (Fail e, s, _) => (Fail e, s_out s)
  | (Block, s, _) => (Block, s_out s)
  end.

Definition echo_client (client_sk server_pk packet : list byte) : party (list byte) := fun r =>
  match noise_initiator_handshake (HS := HS) (T := T) client_sk server_pk fresh_send r with
  | (Ret noise, s, r) =>
      let '(res, l) := (_ ← write_noise_frame packet; read_noise_frame) (mkLink s r noise) in
      (res, s_out (lk_send l))
  | (Fail e, s, _) => (Fail e, s_out s)
  | (Block, s, _) => (Block, s_out s)
  end.

Definition noise_handshake_roundtrip (rng : R) : test :=
  let '(server_sk, rng) := clamped_sk rng in
  let server_pk := public_key server_sk in
  let '(client_sk, rng) := clamped_sk rng in
  let packet := map (fun i => byte_of_Z ((Z.of_nat i * 31) mod 256)) (seq 0 PACKET_SIZE) in
  let '(echoed, _) := converse 4 (echo_client client_sk server_pk packet) (echo_server server_sk)
                        (mkRecv [] Stalled) in
  echoed ← returned echoed;
  assert_eq echoed packet.

(** A relay that serves one connection; what it is led to do is the result
    when the connection ends. *)
Definition spawn_relay (sk : list byte) (rng : R) (clk : nat -> readings) : party (list action) := fun r =>
  let relay := Process.new sk 1000 (from_secs 60) 0 0 0 in
  let '(e, acts, _, s) := serve_connection (HS := HS) (T := T) sk (RateLimit.V4 2130706433) clk
                            (mkShared per_source_limiter relay rng) fresh_send r in
  (match e with Waiting => Block | Returned (Ok _) => Ret acts | Returned (Err e) => Fail e | Panicked => Fail Connection end,
   s_out s).

(** The address of the relay does not matter to the probe: [connect] is how
    reaching it turns out. *)
Definition probe (connect : io unit) (timeout : Z) (pk initiator : list byte) : party unit := fun r =>
  let '(res, s, _) := probe_relay_liveness (HS := HS) (T := T) connect (Ret tt) timeout initiator pk fresh_send r in
  (match res with Fail (Unreachable _) => Block | _ => res end, s_out s).

Definition probe_verifies_liveness_and_possession (rng : R) (clk : nat -> readings) : test :=
  let sk := repeat x0b 32 in
  let pk := public_key sk in
  let initiator := repeat x16 32 in
  let '(live, _) := converse 3 (probe (Ret tt) (from_secs 5) pk initiator) (spawn_relay sk rng clk) (mkRecv [] Stalled) in
  _ ← returned live;
  let wrong := repeat xaa 32 in
  let '(res, _) := converse 3 (probe (Ret tt) (from_secs 3) wrong initiator) (spawn_relay sk rng clk) (mkRecv [] Stalled) in
  assert (is_fail res).

Definition probe_fails_for_unreachable_address (reason : TransportError) : test :=
  let '(res, _, _) := probe_relay_liveness (HS := HS) (T := T) (Fail reason) (Ret tt) (from_secs 2) (repeat x16 32) (repeat x07 32)
                        fresh_send (mkRecv [] Stalled) in
  assert (is_fail res).

Definition an_unreachable_relay_says_so_instead_of_blaming_the_handshake `{!ForeignTexts} : test :=
  let '(res, _, _) := probe_relay_liveness (HS := HS) (T := T) Block (Ret tt) (from_micros 300000) (repeat x01 32) (repeat x00 32)
                        fresh_send (mkRecv [] Stalled) in
  err ← match res with Fail e => Some e | _ => None end;
  _ ← assert (match err with Unreachable _ => true | _ => false end);
  let msg := transport_text err in
  _ ← assert (contains msg "firewall");
  assert (negb (contains msg "handshake")).

(** The rendezvous relay answers queries from an empty table. *)
Definition query_server (r_sk auth_pk : list byte) : party unit := fun r =>
  let '(res, s, _) := serve_rendezvous_query (HS := HS) (T := T) r_sk (Some auth_pk) (fun _ => false) fresh_send r in
  (res, s_out s).

Definition query (sk r_pk n_pk : list byte) : party bool := fun r =>
  let '(res, s, _) := probe_rendezvous_hosting (HS := HS) (T := T) (Ret tt) (Ret tt) (from_secs 5) sk r_pk n_pk fresh_send r in
  (match res with Fail (Unreachable _) => Block | _ => res end, s_out s).

Definition rdvq_presence_query_requires_authority_auth (rng : R) : test :=
  let '(r_sk, rng) := fill_bytes 32 rng in
  let r_pk := public_key r_sk in
  let '(auth_sk, rng) := fill_bytes 32 rng in
  let auth_pk := public_key auth_sk in
  let '(imp_sk, rng) := fill_bytes 32 rng in
  let '(n_pk, rng) := fill_bytes 32 rng in
  let '(hosted, _) := converse 3 (query auth_sk r_pk n_pk) (query_server r_sk auth_pk) (mkRecv [] Stalled) in
  hosted ← returned hosted;
  _ ← assert (negb hosted);
  let '(as_impostor, _) := converse 3 (query imp_sk r_pk n_pk) (query_server r_sk auth_pk) (mkRecv [] Stalled) in
  assert (is_fail as_impostor).

(** A client that writes one frame and finishes its stream. *)
Definition frame_client (client_sk server_pk packet : list byte) : party unit := fun r =>
  let '(res, s) := forward_packet (HS := HS) (T := T) (Ret tt) server_pk client_sk packet fresh_send r in
  (res, s_out s).

(** A packet for one hop: the marker, then zeros, under one layer. *)
Definition build_1hop_packet (rng : R) (relay_sk marker : list byte) : option (list byte * R) :=
  let '(secrets, rng) := derive_route_secrets rng [public_key relay_sk] in
  '(alphas, sub_keys) ← result_ok secrets;
  let d := record_default in
  let records := [mkRecord (next_ipv4 d) (next_port d) (next_node_id d) (next_gamma d) (delay_micros d) flag_IS_LAST_HOP] in
  let '(trailer, rng) := fill_bytes TRAILER_LEN rng in
  let '(header, rng) := wrap_header rng mode_BALANCED alphas sub_keys records trailer in
  header ← result_ok header;
  sub ← head sub_keys;
  Some (header_encode header ++ lioness_encrypt (k_payload sub) (padded marker), rng).

Definition delivered_payload (acts : list action) : option (list byte) :=
  match acts with [Deliver _ payload] => Some payload | _ => None end.

Definition deliver_local_hook_fires_at_last_hop (rng : R) (clk : nat -> readings) : test :=
  let '(sk, rng) := clamped_sk rng in
  let marker := String.list_byte_of_string "deliver-this-please" in
  '(packet, rng) ← build_1hop_packet rng sk marker;
  let '(client_sk, rng) := clamped_sk rng in
  let '(sent, served) := converse 3 (frame_client client_sk (public_key sk) packet) (spawn_relay sk rng clk)
                           (mkRecv [] Stalled) in
  _ ← returned sent;
  acts ← returned served;
  payload ← delivered_payload acts;
  _ ← assert_eq (length payload) (PACKET_SIZE - HEADER_LEN)%nat;
  assert_eq (take (length marker) payload) marker.

Definition build_2hop_packet (rng : R) (relay1_sk relay2_sk : list byte) (relay2_addr : SocketAddrV4)
    : option (list byte * R) :=
  let pks := [public_key relay1_sk; public_key relay2_sk] in
  let d := record_default in
  let records :=
    [mkRecord (ip relay2_addr) (port relay2_addr) (public_key relay2_sk) (next_gamma d) 0 (flag d);
     mkRecord (next_ipv4 d) (next_port d) (next_node_id d) (next_gamma d) (delay_micros d) flag_IS_LAST_HOP] in
  ProcessTests.build rng pks records.

(** The test only sends; here the first relay also has to pass the packet on to
    the second one, which delivers it. *)
Definition end_to_end_2hop_forward (rng : R) (clk : nat -> readings) : test :=
  let '(sk1, rng) := clamped_sk rng in
  let '(sk2, rng) := clamped_sk rng in
  let addr2 := mkAddrV4 [x7f; x00; x00; x01] 9002 in
  '(packet, rng) ← build_2hop_packet rng sk1 sk2 addr2;
  let '(client_sk, rng) := clamped_sk rng in
  let '(sent, served) := converse 3 (frame_client client_sk (public_key sk1) packet) (spawn_relay sk1 rng clk)
                           (mkRecv [] Stalled) in
  _ ← returned sent;
  acts ← returned served;
  '(addr, id, p) ← match acts with [PoolSend _ addr id p] => Some (addr, id, p) | _ => None end;
  _ ← assert_eq addr addr2;
  let '(sent, served) := converse 3 (frame_client sk1 id p) (spawn_relay sk2 rng clk) (mkRecv [] Stalled) in
  _ ← returned sent;
  acts ← returned served;
  payload ← delivered_payload acts;
  assert_eq payload ProcessTests.expected_payload.
End transport.

#[local] Existing Instances Toy.gotham counter_rng Delay.coarse_libm ToyNoise.transport ToyNoise.handshake.
#[local] Instance toy_route : Route Z := Toy.route Z.
#[local] Instance order : HashOrder RateLimit.IpAddr (RateLimit.RateLimiter * Z) := sorted_order _ _.
#[local] Instance no_texts : ForeignTexts := Build_ForeignTexts [] [] [] [] [] [] [].

Definition clk (i : nat) : readings := let t := Z.of_nat i in mkReadings t t t t t.

Example transport_tests_pass :
  passes (noise_handshake_roundtrip (HS := ToyNoise.hs) (T := ToyNoise.state) 5) /\
  passes (probe_verifies_liveness_and_possession (HS := ToyNoise.hs) (T := ToyNoise.state) 5 clk) /\
  passes (probe_fails_for_unreachable_address (HS := ToyNoise.hs) (T := ToyNoise.state) Connection) /\
  passes (an_unreachable_relay_says_so_instead_of_blaming_the_handshake (HS := ToyNoise.hs) (T := ToyNoise.state)) /\
  passes (rdvq_presence_query_requires_authority_auth (HS := ToyNoise.hs) (T := ToyNoise.state) 5).
Proof. vm_compute. done. Qed.

Example relay_tests_pass :
  passes (deliver_local_hook_fires_at_last_hop (HS := ToyNoise.hs) (T := ToyNoise.state) 5 clk) /\
  passes (end_to_end_2hop_forward (HS := ToyNoise.hs) (T := ToyNoise.state) 5 clk).
Proof. vm_compute. done. Qed.
End TransportTests.

(** ** pool.rs *)
Module PoolTests.
Section pool.
Context `{!Gotham} {R : Type} `{!Rng R, !Route R, !Delay.Libm, !HashOrder Pool.PoolKey nat}.

(** [pool.send(addr, pk, packet).await] on a network that works, with nothing
    else running: the steps of the call up to its end, at time [now].  The
    result is the pool and the connection the packet was written to. *)
Fixpoint finish (steps : nat) (now : Z) (p : Pool.ConnectionPool) (t : Pool.call)
    : option (Pool.ConnectionPool * nat) :=
  match Pool.c_pc t, Pool.c_written t with
  | Pool.Done (Ok _), [c] => Some (p, c)
  | _, _ =>
      match steps with
      | O => None
      | S steps => let '(p, t) := Pool.advance (Pool.mkEvent (Ok tt) now) p t in finish steps now p t
      end
  end.

Definition send (p : Pool.ConnectionPool) (addr : RateLimit.IpAddr * Z) (pk packet : list byte) (now : Z)
    : option (Pool.ConnectionPool * nat) :=
  finish 5 now p (Pool.send addr pk packet).

(** Three relays on the local host. *)
Definition addr_of (n : Z) : RateLimit.IpAddr * Z := (RateLimit.V4 2130706433, 9000 + n).

(** What a relay with the key [sk] hands to its delivery handler. *)
Definition receives (sk : list byte) (t : Z) (rng : R) (packets : list (list byte)) : list (list byte) :=
  omap (fun o => o ≫= ProcessTests.delivered)
    (run (Process.new sk 1000 (from_secs 60) 0 t t) rng (map (Input t t) packets)).1.1.

Definition starts_with (marker payload : list byte) : bool := bool_decide (take (length marker) payload = marker).

Definition pool_reuses_connection_for_repeated_sends (rng : R) (t : Z) : test :=
  let '(sk, rng) := TransportTests.clamped_sk rng in
  let peer_pk := public_key sk in
  let pool := Pool.new in
  _ ← assert (Pool.is_empty pool);
  let first := String.list_byte_of_string "first-via-pool" in
  let second := String.list_byte_of_string "second-via-pool" in
  '(p1, rng) ← TransportTests.build_1hop_packet rng sk first;
  '(pool, c1) ← send pool (addr_of 1) peer_pk p1 t;
  _ ← assert_eq (Pool.len pool) 1%nat;
  '(p2, rng) ← TransportTests.build_1hop_packet rng sk second;
  '(pool, c2) ← send pool (addr_of 1) peer_pk p2 t;
  _ ← assert_eq (Pool.len pool) 1%nat;
  _ ← assert_eq c2 c1;
  let got := receives sk t rng [p1; p2] in
  _ ← assert (existsb (starts_with first) got);
  assert (existsb (starts_with second) got).

Definition pool_separate_entries_per_peer (rng : R) (t : Z) : test :=
  let '(sk1, rng) := TransportTests.clamped_sk rng in
  let '(sk2, rng) := TransportTests.clamped_sk rng in
  let pool := Pool.new in
  '(p1, rng) ← TransportTests.build_1hop_packet rng sk1 (String.list_byte_of_string "to-relay-1");
  '(p2, rng) ← TransportTests.build_1hop_packet rng sk2 (String.list_byte_of_string "to-relay-2");
  '(pool, _) ← send pool (addr_of 1) (public_key sk1) p1 t;
  '(pool, _) ← send pool (addr_of 2) (public_key sk2) p2 t;
  assert_eq (Pool.len pool) 2%nat.

Definition pool_enforces_max_size (rng : R) (t : Z) : test :=
  let '(sk_a, rng) := TransportTests.clamped_sk rng in
  let '(sk_b, rng) := TransportTests.clamped_sk rng in
  let '(sk_c, rng) := TransportTests.clamped_sk rng in
  let pool := Pool.with_max_size Pool.new 2 in
  '(pa, rng) ← TransportTests.build_1hop_packet rng sk_a (String.list_byte_of_string "a");
  '(pb, rng) ← TransportTests.build_1hop_packet rng sk_b (String.list_byte_of_string "b");
  '(pc, rng) ← TransportTests.build_1hop_packet rng sk_c (String.list_byte_of_string "c");
  let ten_millis := from_micros 10000 in
  '(pool, _) ← send pool (addr_of 1) (public_key sk_a) pa t;
  '(pool, _) ← send pool (addr_of 2) (public_key sk_b) pb (t + ten_millis);
  _ ← assert_eq (Pool.len pool) 2%nat;
  '(pool, _) ← send pool (addr_of 3) (public_key sk_c) pc (t + 2 * ten_millis);
  assert_eq (Pool.len pool) 2%nat.
End pool.

#[local] Existing Instances Toy.gotham counter_rng Delay.coarse_libm.
#[local] Instance order : HashOrder Pool.PoolKey nat := sorted_order _ _.

(** Two packets to one relay have different ephemeral keys: the toy format with
    keys drawn from the generator. *)
#[local] Instance seeded_route : Route Z :=
  @Build_Route Z Toy.gotham 0%nat 1 2 0 1 2
    (mkRecord (repeat x00 4) 0 (repeat x00 32) (repeat x00 16) 0 0)
    (fun rng pks =>
       let alphas := map (fun i => [byte_of_Z (rng + Z.of_nat i)]) (seq 0 (length pks)) in
       (Ok (alphas, zip_with app pks alphas), rng + 1))
    (fun rng _ alphas subs recs _ =>
       ('(a, g, slots) ← Toy.wrap alphas subs recs; Toy.mk x03 a g slots, rng)).

Example pool_tests_pass :
  passes (pool_reuses_connection_for_repeated_sends 5 0) /\ passes (pool_separate_entries_per_peer 5 0) /\
  passes (pool_enforces_max_size 5 0).
Proof. vm_compute. done. Qed.
End PoolTests.

(** ** client.rs *)
Module ClientTests.
Section client.
Context `{!Gotham, !GothamLaws} {R : Type} `{!Rng R, !RngLaws R, !Route R, !Delay.Libm, !Directory R, !Sealed R}.
Context (net : RateLimit.IpAddr * Z -> list byte -> list byte -> list byte -> result TransportError unit).

(** [send(..).await.unwrap_err()] *)
Definition send_err (relays : list RelayDescriptor) (hop_count : nat) (payload : list byte) (rng os_rng : R)
    : option (ClientError * R) :=
  match send net default_client relays hop_count payload rng os_rng with
  | (Some (Err e), rng) => Some (e, rng)
  | _ => None
  end.

Definition client_rejects_oversized_payload (rng os_rng : R) : test :=
  let oversized := repeat x00 (MAX_PAYLOAD_SIZE + 1) in
  '(err, _) ← send_err [] 3 oversized rng os_rng;
  assert_eq err PayloadTooLarge.

Definition client_rejects_bad_hop_count (rng os_rng : R) : test :=
  '(err, rng) ← send_err [] 2 (String.list_byte_of_string "x") rng os_rng;
  _ ← assert_eq err BadHopCount;
  '(err, rng) ← send_err [] 6 (String.list_byte_of_string "x") rng os_rng;
  assert_eq err BadHopCount.

Definition client_rejects_empty_directory (rng os_rng : R) : test :=
  '(err, _) ← send_err [] 3 (String.list_byte_of_string "x") rng os_rng;
  assert_eq err PathSelection.

Definition hop_count_for_mode_table : test :=
  _ ← assert_eq (hop_count_for_mode mode_LOW_LATENCY) (Some 3%nat);
  _ ← assert_eq (hop_count_for_mode mode_BALANCED) (Some 4%nat);
  _ ← assert_eq (hop_count_for_mode mode_PARANOID) (Some 5%nat);
  assert_eq (hop_count_for_mode 99) None.

Definition is_clamped (k : list byte) : test :=
  first ← k !! 0%nat;
  last ← k !! 31%nat;
  _ ← assert_eq (Z.land (byte_to_Z first) 7) 0;
  _ ← assert_eq (Z.land (byte_to_Z last) 128) 0;
  assert_eq (Z.land (byte_to_Z last) 64) 64.

Definition every_handshake_key_is_fresh_and_clamped (os_rng : R) : test :=
  let '(a, os_rng) := fresh_handshake_key os_rng in
  let '(b, os_rng) := fresh_handshake_key os_rng in
  _ ← assert (bool_decide (a <> b));
  _ ← is_clamped a;
  is_clamped b.

(** The relays the packet passes, one after the other; the result is what the
    last one hands to its delivery handler. *)
Definition arrives (stops : list (stop R)) (pkt : list byte) : option (list byte) :=
  match last (travel stops pkt) with
  | Some (Some (DeliverLocal _ payload)) => Some payload
  | _ => None
  end.

(** The packet the client ships for a path, and its way; [relays] has three
    entries, which the selection takes in their order. *)
Definition client_sends_through_3_hop_path (relays : list RelayDescriptor) (stops : list (stop R)) (rng os_rng : R)
    : test :=
  let payload := String.list_byte_of_string "hello from gotham client v0.1" in
  res ← (send net default_client relays 3 payload rng os_rng).1;
  _ ← result_ok res;
  '(_, _, pkt) ← (build_packet default_client relays payload rng).1 ≫= result_ok;
  got ← arrives stops pkt;
  assert_eq (take (length payload) got) payload.

Definition sealed_send_round_trips_through_3_hop_path (relays : list RelayDescriptor) (stops : list (stop R))
    (recipient_sk sender_pk body : list byte) (rng os_rng : R) : test :=
  res ← (send_sealed net default_client relays 3 (public_key recipient_sk) sender_pk body rng os_rng).1;
  _ ← result_ok res;
  let '(framed, rng) := seal_and_frame (public_key recipient_sk) sender_pk body rng in
  framed ← result_ok framed;
  '(_, _, pkt) ← (build_packet default_client relays framed rng).1 ≫= result_ok;
  payload ← arrives stops pkt;
  '(got_sender, got_body) ← unsealing_delivery_handler recipient_sk payload;
  _ ← assert_eq got_sender sender_pk;
  assert_eq (take (length body) got_body) body.

(** The directory is signed, written, read back and checked before it is used. *)
Definition signed_directory_testnet_delivers_a_to_b `{!Testnet.SignedDirectories R} (path : string)
    (relays : list RelayDescriptor) (stops : list (stop R))
    (authority impostor recipient_sk sender_pk body : list byte) (rng os_rng : R) : test :=
  signed ← Testnet.sign_directory relays (from_secs 3600) authority;
  json ← Testnet.to_json_pretty signed;
  let fs : gmap string file := {[ path := File json 420 ]} in
  raw ← result_ok (read None fs path);
  loaded ← Testnet.from_json raw;
  _ ← assert (Testnet.verify loaded (Testnet.verifying_key authority));
  _ ← assert (negb (Testnet.verify loaded (Testnet.verifying_key impostor)));
  sealed_send_round_trips_through_3_hop_path (Testnet.doc_relays loaded) stops recipient_sk sender_pk body
    rng os_rng.

(** The first two tests pass whatever the other crates do. *)
Lemma oversized_payload_test_passes rng os_rng : passes (client_rejects_oversized_payload rng os_rng).
Proof.
  unfold client_rejects_oversized_payload, send_err, send.
  rewrite repeat_length, (proj2 (Nat.ltb_lt _ _)) by lia. done.
Qed.

Lemma bad_hop_count_test_passes rng os_rng :
  (1 <= MAX_PAYLOAD_SIZE)%nat -> passes (client_rejects_bad_hop_count rng os_rng).
Proof.
  intros Hm. unfold client_rejects_bad_hop_count, send_err, send.
  rewrite (proj2 (Nat.ltb_ge MAX_PAYLOAD_SIZE _)) by done. done.
Qed.
End client.

#[local] Existing Instances Toy.gotham counter_rng Delay.coarse_libm ToyDirectory.directory ToyDirectory.sealed.
#[local] Instance toy_route : Route Z := Toy.route Z.
#[local] Existing Instance Testnet.TestnetDemo.directories.

Definition relays : list RelayDescriptor := map (fun n => ToyDirectory.mkDescriptor n false) [1; 2; 3].

Example client_tests_pass :
  passes (client_rejects_empty_directory ClientDemo.open_net 0 0) /\ passes hop_count_for_mode_table /\
  passes (every_handshake_key_is_fresh_and_clamped 200) /\
  passes (client_sends_through_3_hop_path ClientDemo.open_net relays (map ClientDemo.relay_at [1; 2; 3]) 0 0) /\
  passes (sealed_send_round_trips_through_3_hop_path ClientDemo.open_net relays (map ClientDemo.relay_at [1; 2; 3])
    (Toy.sk 8) (Toy.sk 9) (String.list_byte_of_string "through 3 hops") 0 0) /\
  passes (signed_directory_testnet_delivers_a_to_b ClientDemo.open_net "dir.json" relays
    (map ClientDemo.relay_at [1; 2; 3]) [x07] [x08] (Toy.sk 8) (Toy.sk 9)
    (String.list_byte_of_string "signed testnet") 0 0).
Proof. vm_compute. done. Qed.
End ClientTests.

(** ** cover_loop.rs *)
Module CoverTests.
Section cover.
Context `{!Gotham} {R : Type} `{!Rng R, !Route R, !Delay.Libm, !Directory R, !Sealed R, !Cover.Cover R}.

Definition real_payload (rng : R) (body_len : nat) : option (list byte * R) :=
  let '(recipient, rng) := Cover.random_public_key rng in
  let '(sender, rng) := Cover.random_public_key rng in
  let '(body, rng) := fill_bytes body_len rng in
  let '(framed, rng) := seal_and_frame recipient sender body rng in
  framed ← result_ok framed;
  Some (framed, rng).

Definition looks_well_framed (p : list byte) : bool :=
  if (length p <? 4)%nat then false
  else from_be_bytes (take 4 p) =? Z.of_nat (length p - 4).

(** [body_len] is 200 in the test. *)
Definition a_cover_packet_is_framed_exactly_like_a_real_one (body_len : nat) (rng : R) : test :=
  let '(legacy, rng) := fill_bytes Cover.DUMMY_PAYLOAD_SIZE rng in
  _ ← assert (negb (looks_well_framed legacy));
  rng ← for_each (seq 0 256) (fun _ rng =>
    let '(p, rng) := Cover.build_cover_payload rng in _ ← assert (looks_well_framed p); Some rng) rng;
  rng ← for_each (seq 0 256) (fun _ rng =>
    '(p, rng) ← real_payload rng body_len; _ ← assert (looks_well_framed p); Some rng) rng;
  Some tt.

Definition a_queued_packet_carries_its_forced_exit (exit : RelayDescriptor) : test :=
  let plain := Cover.from_message ([x01; x02; x03], Some 4%nat, None) in
  _ ← assert (bool_decide (Cover.q_exit plain = None));
  _ ← assert_eq (Cover.q_hops plain) (Some 4%nat);
  let deposit := Cover.mkQueued (repeat x09 64) (Some 3%nat) (Some exit) None in
  assert (bool_decide (is_Some (Cover.q_exit deposit))).

Definition cover_lengths_overlap_real_lengths_and_are_not_constant (rng : R) : test :=
  '(cover, rng) ← for_each (seq 0 512) (fun _ '(ls, rng) =>
    let '(p, rng) := Cover.build_cover_payload rng in Some (ls ++ [length p], rng)) ([], rng);
  let distinct := length (remove_dups cover) in
  _ ← assert (100 <? distinct)%nat;
  '(small, rng) ← real_payload rng (Z.to_nat Cover.COVER_BODY_MIN);
  '(large, rng) ← real_payload rng (Z.to_nat (Cover.COVER_BODY_MAX - 1));
  assert (forallb (fun l => (length small <=? l) && (l <=? length large))%nat cover).

(** [drop(handle)] while the loop is anywhere in its first rounds ([before] are
    its steps so far): it is gone once it sleeps again. *)
Context (net : RateLimit.IpAddr * Z -> list byte -> list byte -> list byte -> result TransportError unit).

Definition cover_loop_stops_cleanly_on_handle_drop (mode : Cover.CoverMode) (before : list Cover.event)
    : test :=
  let run := Cover.run net default_client [] mode 3 in
  st ← run (Cover.spawn_cover_loop []) before;
  st ← Cover.step net default_client [] mode 3 st Cover.DropHandle;
  st ← run st [Cover.Cancel];
  assert (match Cover.at_phase st with Cover.Exited => true | _ => false end).

(** One round of the loop, fully charged. *)
Definition round (rng : R) : list Cover.event :=
  [Cover.Battery 100 true rng; Cover.Elapsed; Cover.Inspect rng; Cover.Act rng rng].

(** What the last relay delivers of a payload the client ships; the selection
    takes the three relays in their order. *)
Definition delivered (relays : list RelayDescriptor) (stops : list (stop R)) (payload : list byte) (rng : R)
    : option (list byte) :=
  '(_, _, pkt) ← (build_packet default_client relays payload rng).1 ≫= result_ok;
  ClientTests.arrives stops pkt.

(** [rngs] are the generators of the rounds within the deadline; the marker is
    looked for in what the relays deliver. *)
Definition cover_loop_dispatches_real_message (mode : Cover.CoverMode) (relays : list RelayDescriptor)
    (stops : list (stop R)) (marker : list byte) (rngs : list R) : test :=
  st ← Cover.run net default_client relays mode 3 (Cover.spawn_cover_loop [Cover.from_message (marker, None, None)])
         (concat (map round rngs));
  let got := omap (fun '(a, rng) => match a with Cover.SentReal p (Ok _) => delivered relays stops (Cover.q_payload p) rng | _ => None end)
                (zip (Cover.log st) rngs) in
  assert (existsb (fun payload => bool_decide (take (length marker) payload = marker)) got).

(** A frame is well formed whatever the crates do. *)
Lemma frame_well_framed envelope framed :
  zlen envelope <= u32_max -> frame envelope = Ok framed -> looks_well_framed framed = true.
Proof.
  unfold frame. case_match; [done|]. intros Hl Heq. apply (f_equal result_ok) in Heq.
  injection Heq as <-. change (byte_of_Z _ :: _) with (to_be_bytes 4 (zlen envelope) ++ envelope).
  unfold looks_well_framed, u32_max in *.
  rewrite length_app, length_to_be_bytes, (proj2 (Nat.ltb_ge _ _)) by lia.
  rewrite take_app_length' by by rewrite length_to_be_bytes.
  rewrite from_to_be_bytes by (unfold zlen in *; simpl; lia). apply Z.eqb_eq. unfold zlen. lia.
Qed.
End cover.

(** The toy format with room for the envelopes of the test. *)
Definition roomy : Gotham := {|
  PACKET_SIZE := Toy.HLEN + 1700;
  HEADER_LEN := Toy.HLEN;
  VERSION_LEGACY := 2;
  GothamError := Toy.error;
  is_bad_mac := is_bad_mac (Gotham := Toy.gotham);
  Header := Toy.header;
  SubKeys := list byte;
  header_decode := Toy.decode;
  header_encode := header_encode (Gotham := Toy.gotham);
  version := version (Gotham := Toy.gotham);
  alpha := Toy.h_alpha;
  gamma := Toy.h_gamma;
  derive_hop_subkeys := Ok;
  k_payload := fun k => k;
  unwrap_header := Toy.unwrap;
  is_last_hop := is_last_hop (Gotham := Toy.gotham);
  is_via_rendezvous := is_via_rendezvous (Gotham := Toy.gotham);
  lioness_encrypt := lioness_encrypt (Gotham := Toy.gotham);
  lioness_decrypt := lioness_decrypt (Gotham := Toy.gotham);
  x25519 := Toy.dh;
  public_key := Toy.shift_bytes 1;
|}.

#[local] Existing Instances roomy counter_rng.
#[local] Instance sealed : Sealed Z :=
  @Build_Sealed Z roomy (fun rng pk sender body => (Ok (pk ++ sender ++ body), rng))
    (fun _ env => Ok (take 32 (drop 32 env), drop 64 env)).

(** A linear congruential generator; a buffer repeats two of its bytes. *)
Definition lcg : Rng Z := {|
  gen_f64 := fun s => (f_zero, s);
  fill_bytes := fun n s =>
    let s := (s * 1103515245 + 12345) mod 2 ^ 31 in
    (take n (concat (repeat [byte_of_Z (Z.shiftr s 23); byte_of_Z (Z.shiftr s 15)] n)), s);
|}.

Example cover_tests_pass :
  passes (a_cover_packet_is_framed_exactly_like_a_real_one 200 77) /\
  passes (cover_lengths_overlap_real_lengths_and_are_not_constant (Rng0 := lcg) 77) /\
  passes (a_queued_packet_carries_its_forced_exit (ToyDirectory.mkDescriptor 1 false : RelayDescriptor (Directory := ToyDirectory.directory))).
Proof. vm_compute. done. Qed.

(** The two tests of the loop itself, with the client and the relays of the
    client's tests. *)
Module Loop.
#[local] Existing Instances Toy.gotham counter_rng Delay.coarse_libm ToyDirectory.directory ToyDirectory.sealed
  Cover.CoverDemo.scheduler.
#[local] Instance toy_route : Route Z := Toy.route Z.

Example loop_tests_pass :
  passes (cover_loop_stops_cleanly_on_handle_drop ClientDemo.open_net Cover.CoverDemo.base
    [Cover.Battery 100 true 7]) /\
  passes (cover_loop_dispatches_real_message ClientDemo.open_net Cover.CoverDemo.base ClientTests.relays
    (map ClientDemo.relay_at [1; 2; 3]) (String.list_byte_of_string "COVER-LOOP-TEST-MARKER-1234567890")
    [1; 3; 4; 5]).
Proof. vm_compute. done. Qed.
End Loop.
End CoverTests.

(** ** main.rs and enroll_client.rs *)
Module SetupTests.
Import Enroll Boot.

(** [addr.ip().is_unspecified()] *)
Definition is_unspecified (a : RateLimit.IpAddr) : bool :=
  match a with RateLimit.V4 b | RateLimit.V6 b => b =? 0 end.

Definition listen_addr_accepts_v4_v6_and_all_interfaces : test :=
  v4 ← result_ok (parse_listen_addr (lit "203.0.113.7") 443);
  _ ← assert_eq v4 (RateLimitTests.ipv4 203 0 113 7, 443);
  any ← result_ok (parse_listen_addr (lit "::") 5223);
  _ ← assert (is_unspecified any.1);
  _ ← assert_eq any.2 5223;
  v6 ← result_ok (parse_listen_addr (lit "2001:db8::1") 443);
  assert_eq v6.2 443.

Definition listen_addr_rejects_hostnames : test :=
  _ ← assert (ReplayTests.is_err (parse_listen_addr (lit "relay.example.com") 443));
  assert (ReplayTests.is_err (parse_listen_addr (lit "") 443)).

Definition parse_tier_maps_known_values : test :=
  _ ← assert_eq (parse_tier (lit "entry")) (Ok Entry);
  _ ← assert_eq (parse_tier (lit "MIX")) (Ok Mix);
  _ ← assert_eq (parse_tier (lit "")) (Ok Mix);
  _ ← assert_eq (parse_tier (lit " exit ")) (Ok Exit);
  assert (ReplayTests.is_err (parse_tier (lit "all"))).

Section enrollment.
Context `{!Gotham, !Hex, !Enrollment}.

Definition cfg_for (kem_hex : str) (extra : list str) : EnrollConfig :=
  mkEnrollConfig (lit "http://a1:8443") extra (lit "203.0.113.7:443") kem_hex Mix None None
    (Some (lit "op")) (from_secs 60) None false false (repeat x09 32) None.

Definition base_enrollment_carries_the_shared_admission_epoch : test :=
  let kem := hex_encode (repeat x03 32) in
  let cfg := cfg_for kem [lit "http://a2:8443"; lit "http://a3:8443"] in
  let e := view (base_enrollment cfg 42 1700000000) in
  _ ← assert_eq (f_attest_epoch e) (Some 1700000000);
  _ ← assert_eq (f_seq e) 42;
  _ ← assert_eq (f_operator e) (Some (lit "op"));
  assert_eq (f_pop_proof e) None.

Definition pop_proof_is_authority_specific_but_epoch_is_shared : test :=
  let kem := hex_encode (public_key (repeat x09 32)) in
  let cfg := cfg_for kem [] in
  let base := base_enrollment cfg 7 1700000000 in
  let pk_a := public_key (repeat x01 32) in
  let pk_b := public_key (repeat x02 32) in
  let ea := view (attach_pop_proof base cfg pk_a) in
  let eb := view (attach_pop_proof base cfg pk_b) in
  _ ← assert (bool_decide (is_Some (f_pop_proof ea)) && bool_decide (is_Some (f_pop_proof eb)));
  _ ← assert (bool_decide (f_pop_proof ea <> f_pop_proof eb));
  assert_eq (f_attest_epoch ea) (f_attest_epoch eb).

(** The first of them passes whatever the crate does, as long as each [with_]
    sets its own field. *)
Lemma shared_epoch_test_passes `{!EnrollmentLaws} : passes base_enrollment_carries_the_shared_admission_epoch.
Proof. unfold base_enrollment_carries_the_shared_admission_epoch. by rewrite base_enrollment_view. Qed.
End enrollment.

#[local] Existing Instances Toy.gotham Base16.hex EnrollDemo.toy_enrollment.

Example enrollment_test_passes : passes pop_proof_is_authority_specific_but_epoch_is_shared.
Proof. vm_compute. reflexivity. Qed.

Example setup_tests_pass :
  passes listen_addr_accepts_v4_v6_and_all_interfaces /\ passes listen_addr_rejects_hostnames /\
  passes parse_tier_maps_known_values.
Proof. vm_compute. done. Qed.
End SetupTests.
