(* ===== verification/ConformanceDelay.v ===== *)
(** * The unit tests of the distribution of delays, run on the model

    Two tests, of delay.rs and client.rs, look at the mean and the variation of
    many draws.  They are translated with the number of draws as a parameter
    (10 000 and 50 000 in the crate) and run with fewer, on a generator whose
    draws are spread evenly and with the logarithm of [Logarithm]. *)

From S2P Require Import Prelude F64 Rand Logarithm Conformance.
From S2P Require Delay Client.

Section distribution.
Context {R : Type} `{!Rng R, !Delay.Libm}.

(** [x.abs()], [x.sqrt()], and the float nearest to a quotient of two
    integers, which is what a decimal literal denotes. *)
Definition fabs : f64 -> f64 := SFabs.
Definition fsqrt : f64 -> f64 := SFsqrt 53 1024.
Definition literal (n d : Z) : f64 := fdiv (of_Z n) (of_Z d).

Definition add_sample (s : Delay.PoissonScheduler) (_ : nat) (st : f64 * R) : option (f64 * R) :=
  let '(total, rng) := st in
  let '(d, rng) := Delay.next_delay s rng in
  d ← d; Some (fadd total (fmul (as_secs_f64 d) (of_Z 1000000)), rng).

Definition sample_mean_close_to_configured (n : nat) (rng : R) : test :=
  let mean_micros := 20000 in
  let s := Delay.new mean_micros in
  '(total, _) ← for_each (seq 0 n) (add_sample s) (f_zero, rng);
  let observed_mean := fdiv total (of_Z (Z.of_nat n)) in
  let pct_err := fmul (fdiv (fabs (fsub observed_mean (of_Z mean_micros))) (of_Z mean_micros)) (of_Z 100) in
  assert (fltb pct_err (of_Z 5)).

(** The running [sum], [sum_sq] and [min_seen]. *)
Definition add_hop_delay (sched : Delay.PoissonScheduler) (_ : nat) (st : f64 * f64 * Z * R) : option (f64 * f64 * Z * R) :=
  let '(sum, sum_sq, min_seen, rng) := st in
  let '(micros, rng) := Client.sender_hop_delay_micros sched rng in
  micros ← micros;
  let min_seen := Z.min min_seen micros in
  let x := of_Z micros in
  Some (fadd sum x, fadd sum_sq (fmul x x), min_seen, rng).

Definition sender_hop_delays_are_exponentially_distributed (n : nat) (rng : R) : test :=
  let sched := Delay.new Client.SENDER_MEAN_DELAY_MICROS in
  '(sum, sum_sq, min_seen, _) ← for_each (seq 0 n) (add_hop_delay sched) (f_zero, f_zero, u32_max, rng);
  let mean := fdiv sum (of_Z (Z.of_nat n)) in
  let var := fsub (fdiv sum_sq (of_Z (Z.of_nat n))) (fmul mean mean) in
  let cv := fdiv (fsqrt var) mean in
  let configured := of_Z Client.SENDER_MEAN_DELAY_MICROS in
  let mean_err := fdiv (fabs (fsub mean configured)) configured in
  _ ← assert (fltb mean_err (literal 5 100));
  _ ← assert (SFleb (literal 9 10) cv && SFleb cv (literal 11 10));
  assert (1 <=? min_seen).
End distribution.

(** The middles of [n] equal parts of the unit interval, one after another. *)
Definition even_rng (n : Z) : Rng Z := {|
  gen_f64 := fun r => (fdiv (of_Z (2 * (r mod n) + 1)) (of_Z (2 * n)), r + 1);
  fill_bytes := fun n r => (repeat (byte_of_Z r) n, r + 1);
|}.

Example distribution_tests_pass :
  passes (@sample_mean_close_to_configured Z (even_rng 200) series_libm 200 0) /\
  passes (@sender_hop_delays_are_exponentially_distributed Z (even_rng 200) series_libm 200 0).
Proof. vm_compute. done. Qed.

(** Delays that are all equal to the mean pass the first test and fail the second. *)
Definition constant_libm : Delay.Libm := {| Delay.ln := fun _ => of_Z (-1) |}.

Example constant_delays_are_not_exponential :
  passes (@sample_mean_close_to_configured Z (even_rng 200) constant_libm 200 0) /\
  @sender_hop_delays_are_exponentially_distributed Z (even_rng 200) constant_libm 200 0 = None.
Proof. vm_compute. done. Qed.
